(* ===== verification/_CoqProject ===== *)
-Q . S2P
Prelude.v
Fairness.v
Types.v
Binary64.v
Rounding.v
QueueConcepts.v
CustomSpscQueue.v
SpscConcurrency.v
RingMachine.v
SpinSpscQueue.v
WaitableSpscQueue.v
WaitableRing.v
SpinRing.v
BlockingQueue.v
Threads.v
Calls.v
BaseGenerator.v
RandomWalkGenerator.v
Disseminator.v
UdpFeedHandler.v
ZmqFeedHandler.v
LatencyMonitor.v
Main.v
Program.v
Wire.v
Links.v
Channel.v
System.v
RingSystem.v
RingProgress.v
WorkerLoop.v
Reports.v
Benchmark.v
BenchmarkReport.v
BenchmarkLoops.v
BenchmarkReceiver.v
BenchmarkEnds.v
BenchmarkFair.v
