(* ===== verification/Prelude.v ===== *)
(** * Market data dissemination simulator: a verification library

    The program (C++23, under [src/src/]) is one process whose main thread starts three. A
    generator makes random-walk quotes and trades and pushes them into a
    single-producer single-consumer queue; a disseminator pops them, stamps them and
    sends them by UDP multicast or over a ZeroMQ PUB socket; a feed handler receives
    them, filters them by symbol and hands them to a latency monitor, which writes
    CSV files. [main.cpp] chooses the queue, its size and the transport, and runs the
    threads for a given time.

    ** Files

    - [Prelude.v] (this file): 32- and 64-bit arithmetic, bytes and little-endian
      values, [memcpy], sublists, transition systems and their executors, forward
      simulation, tactics. [Fairness.v]: fair runs of threads, and how a measure that one
      of them decreases leads to what it is waited for.
    - [Types.v] ([utils/types.h]): [Quote] and [Trade], the layout the x86-64 ABI
      gives them, and their object representation behind the class [WireStruct].
    - [Binary64.v]: the C++ [double] as the Standard Library's [SpecFloat], and its
      64-bit patterns. [Rounding.v]: what round-to-nearest guarantees for the
      operations the generator uses: they are faithful, so they keep the order, and
      moving a number by half its thousandth never takes it across itself.
    - [QueueConcepts.v] ([utils/QueueConcepts.h]): the concept [SpscQueueStorage] as a
      class, and the laws of the bounded FIFO it promises, against which its clients
      are proved. [boost::lockfree::spsc_queue] is third-party: it is covered by every
      theorem over a lawful storage, and has no definition.
    - [CustomSpscQueue.v] ([utils/CustomSpscQueue.h]): the ring run by one thread at a
      time; it meets the laws when its capacity divides [2 ^ 64].
    - [SpscConcurrency.v]: the same code access by access, with a producer and a
      consumer thread. Each atomic counter is the history of its stores; an acquire
      load may read any store not older than those its thread has seen, and each slot
      remembers the last access of either thread, so a missing synchronisation is a
      [fault].
    - [SpinSpscQueue.v] ([utils/SpinSpscQueue.h]): the busy-waiting [pop].
    - [WaitableSpscQueue.v] ([utils/WaitableSpscQueue.h]): the sleeping [pop], the
      producer and the stop request as a machine of three threads, over the bounded
      FIFO, under sequential consistency and with the store buffer of x86.
    - [RingMachine.v]: what a wrapper over the ring promises to its users access by
      access, a record of operations with its laws, and the progress some of them make:
      that calls can get on ([RingMachineLive]), can return ([RingMachineStops]), and
      do return, being short ([RingMachineEnds]).
      [WaitableRing.v], [SpinRing.v]: both wrappers over the accesses of the ring, the
      machine of [SpscConcurrency.v] being a part of theirs, as its instances.
    - [BlockingQueue.v]: what [IDisseminator] asks of either wrapper, as a class with
      both as instances.
    - [Threads.v]: [std::jthread] members and the exceptions; [Calls.v]: the calls of
      the kernel, the file system and libzmq that constructors and destructors make,
      as a log and a function for their results, with a small program logic for the
      descriptors, contexts and sockets a piece of code holds.
    - [BaseGenerator.v], [RandomWalkGenerator.v] ([generator/]): rate, thread and paced
      loop over any derived generator that keeps an invariant; the symbols file, the
      price walk and the messages, over any random source.
    - [Disseminator.v] ([disseminator/]): the worker loop; constructor, destructor and
      [send_impl] of both transports.
    - [UdpFeedHandler.v], [ZmqFeedHandler.v] ([feedhandler/]): callbacks, command queue,
      the receive loops, constructors and destructors. A SUB socket is an interface
      with the prefix filtering its documentation promises.
    - [LatencyMonitor.v] ([monitor/]); [Main.v] ([main.cpp], [utils/config.h]): the
      pipeline, the dispatch and the options. [Program.v]: a branch of
      [dispatch_types] with its objects, from their constructors to their destructors.
    - [Wire.v]: what either handler makes of what its disseminator sends, and which
      subscriptions let a message through. [Links.v]: both transports behind one
      interface, a record of operations with its laws; the receive loop of the UDP
      handler as single steps, which every run of [receive_loop_impl] takes.
    - [Channel.v]: the abstract specification of the whole, an ideal channel of
      messages. [System.v]: generator, queue, disseminator, network, handler and
      client together, over any lawful queue and either transport, as an
      implementation of it. [RingSystem.v]: the same with either wrapper over the
      accesses of the ring in place of the queue, and with the end of the disseminator's
      thread; its runs are runs of [System.v] over a bounded list. [RingProgress.v]: how
      its threads bring everything to the client. [WorkerLoop.v]: its disseminator runs
      [run_loop]. [Reports.v]: the latency monitor as that client.
    - [Benchmark.v]: [run_benchmark_pipeline] as four threads over [RingSystem.v]: the
      main thread does the actions [Main.v] logs, and the three loops take their steps
      beside it, each until its stop request; what has ended by which action.
      [BenchmarkReport.v]: what the files of a complete run say. [BenchmarkLoops.v]:
      its generator runs [generation_loop]. [BenchmarkReceiver.v]: its receiver, over
      UDP, runs [receive_loop_impl]. [BenchmarkEnds.v]: whether a run can come to its
      end. [BenchmarkFair.v]: that every fair run does, with the spinning queue.

    ** Conventions

    A function of the program is a function of the state it reads and writes; [None]
    is undefined behaviour, a value of [exn] a C++ exception. A loop that other threads
    act on takes a list of turns: what the other threads do before each of its looks at
    shared state, and the clock readings. It has no other fuel, and its result says
    whether it left by its own condition or because the turns were over; the
    termination theorems say which turns are enough. Uninitialised memory (stack
    buffers, the padding of [Trade]) is an argument, so the theorems hold for any
    contents. Fields named [accepted], [generated], [pushed], [taken] and the like only
    record history.

    ** What the theorems show

    - The ring: for one thread it answers as a FIFO across the wrap-around of its
      counters; for two it is race free, refines the atomic FIFO and is wait free: a
      call among any steps of the other thread is bounded and never stuck. Its
      destructor is right until the counters wrap, and leaks then.
    - The wrappers: neither loses, duplicates or reorders an item; when they return; on
      x86 the waitable one can miss a wake-up, and under any model a stop request;
      over the accesses of the ring it is race free, misses no wake-up when its loads
      are fresh, and may miss one when a load is stale.
    - The generator: it makes only well-formed messages of configured symbols, never
      early, and loses none on the way to the queue; what [configure] does on every
      path; the symbols file reads back; a quote encloses a positive price, rounding
      included; the price walk may go below zero, where bid and ask change sides.
    - The wire: both transports round-trip every message bit for bit; what each filter
      lets through, and where the two differ; a burst of more than 128 subscriptions
      loses the rest.
    - The loops of the handlers are the fold of a reference function over what they
      receive ([views_of] pairs each receive of the UDP loop with the commands it has
      obeyed by then), and end when asked to, the ZeroMQ loop at a fatal error too.
    - The monitor's files parse back. [main] runs the pipeline its options name; the
      pipeline starts and stops its threads in the right order.
    - A branch of [dispatch_types] gives back every descriptor, context and socket it
      took, but for two paths on which it does not; disseminators and handlers join
      their threads before they release what these use, the generator does not.
    - The system implements the ideal channel, down to the accesses of the ring. So
      whatever the network does the client sees only generated messages; if it loses
      nothing the client sees each exactly once and in order, nothing gets stuck, and
      stopping costs at most what the ring holds and the message being pushed; and
      while the clock never goes back the report holds the true latencies of what the
      client saw: [deliveries] computes from a run what its client is shown, with the
      readings of the clock that the steps of the run took.
    - The loops of the generator, of the disseminator and of the UDP handler, which are
      stated over turns, are what their threads do step by step beside the others: the
      turns are computed from the run ([turns_of] for the generator).
    - The whole run, main thread included: at its end every message is reported, in the
      network, left in the ring or given up, and the files hold the true latencies of
      those reported, with the readings that its threads took. With the spinning queue the main thread can always come to its
      end, and does so on every run whose scheduler passes no thread over for ever; with
      the sleeping one it may wait for ever in the [join] of the disseminator.

    ** What is not modelled

    The kernel, libzmq, cxxopts, spdlog and the file system appear as arguments or
    interfaces. The algorithms of the random distributions are left to the library; its
    ranges are a law. Logging has no effect. [generator/MarketDataGenerator.h] and
    [.cpp] are commented out. The Python scripts and the tests are not part of the
    program. The memory models cover the accesses the queues make, not the whole of the
    C++ model, and the fair runs of [BenchmarkFair.v] are those of a scheduler that
    passes no thread over for ever; how soon anything happens is not modelled. These
    failures of the library are left out: [zmq::error_t] thrown by [send] in the
    disseminator's thread, which would end the program; exceptions of allocations, the
    [reserve]s of the monitor among them; and the failure to create a [std::jthread].
    [::isspace] of a negative [char], which the C standard leaves undefined, answers
    false, as it does in the C locale. *)

From Stdlib Require Export ZArith Lia Strings.Byte.
From stdpp Require Export base option numbers list gmap sets relations.
From stdpp Require Import options.

#[global] Open Scope Z_scope.

#[export] Set Warnings "-clear-no-such-hyp".

Create HintDb market discriminated.
Create Rewrite HintDb bytes.

(** * Fixed-width unsigned integers *)

(** [uint64_t] (and [std::size_t] on the 64-bit target): arithmetic modulo
    [2 ^ 64]. *)
Definition u64 (z : Z) : Z := z mod 2 ^ 64.
(** [uint32_t]: arithmetic modulo [2 ^ 32]. *)
Definition u32 (z : Z) : Z := z mod 2 ^ 32.

Lemma u64_range z : 0 <= u64 z < 2 ^ 64.
Proof. apply Z.mod_pos_bound. lia. Qed.

Lemma u32_range z : 0 <= u32 z < 2 ^ 32.
Proof. apply Z.mod_pos_bound. lia. Qed.

Lemma u64_small z : 0 <= z < 2 ^ 64 -> u64 z = z.
Proof. apply Z.mod_small. Qed.

Lemma u32_small z : 0 <= z < 2 ^ 32 -> u32 z = z.
Proof. apply Z.mod_small. Qed.

Lemma u64_u64 z : u64 (u64 z) = u64 z.
Proof. apply u64_small, u64_range. Qed.

Lemma u64_add_l a b : u64 (u64 a + b) = u64 (a + b).
Proof. unfold u64. by rewrite Zplus_mod_idemp_l. Qed.

Lemma u64_add_r a b : u64 (a + u64 b) = u64 (a + b).
Proof. unfold u64. by rewrite Zplus_mod_idemp_r. Qed.

Lemma u64_sub a b : u64 (u64 a - u64 b) = u64 (a - b).
Proof. unfold u64. by rewrite <- Zminus_mod. Qed.

#[export] Hint Resolve u64_range u32_range : market.
#[export] Hint Rewrite u64_u64 u64_add_l u64_add_r u64_sub : bytes.

(** Taking a 64-bit wrapped counter modulo a divisor of [2 ^ 64] is taking the
    unbounded counter modulo that divisor. *)
Lemma u64_mod_divide c z : 0 < c -> (c | 2 ^ 64) -> u64 z mod c = z mod c.
Proof.
  intros Hc Hdiv. unfold u64.
  by rewrite Z.mod_mod_divide.
Qed.

(** * Bytes *)

#[export] Instance byte_eq_dec : EqDecision byte := Byte.byte_eq_dec.

Definition byte_to_Z (b : byte) : Z := Z.of_N (Byte.to_N b).
Definition byte_of_Z (z : Z) : byte := default x00 (Byte.of_N (Z.to_N (z mod 256))).

Lemma byte_to_Z_range b : 0 <= byte_to_Z b < 256.
Proof. unfold byte_to_Z. pose proof (Byte.to_N_bounded b). lia. Qed.

Lemma byte_to_of_Z z : byte_to_Z (byte_of_Z z) = z mod 256.
Proof.
  unfold byte_to_Z, byte_of_Z.
  pose proof (Z.mod_pos_bound z 256 eq_refl) as Hr.
  destruct (Byte.of_N (Z.to_N (z mod 256))) as [b|] eqn:E; simpl.
  - apply Byte.to_of_N in E. lia.
  - apply Byte.of_N_None_iff in E. lia.
Qed.

Lemma byte_of_to_Z b : byte_of_Z (byte_to_Z b) = b.
Proof.
  unfold byte_of_Z. rewrite Z.mod_small by apply byte_to_Z_range.
  unfold byte_to_Z. by rewrite N2Z.id, Byte.of_to_N.
Qed.

(** * Little-endian object representation of integers *)

Fixpoint le_bytes (n : nat) (z : Z) : list byte :=
  match n with
  | O => []
  | S k => byte_of_Z z :: le_bytes k (z / 256)
  end.

Fixpoint le_val (bs : list byte) : Z :=
  match bs with
  | [] => 0
  | b :: bs' => byte_to_Z b + 256 * le_val bs'
  end.

Lemma length_le_bytes n z : length (le_bytes n z) = n.
Proof. revert z; induction n; intros z; simpl; auto. Qed.

Lemma le_val_range bs : 0 <= le_val bs < 256 ^ Z.of_nat (length bs).
Proof.
  induction bs as [|b bs IH]; simpl length; [simpl; lia|].
  rewrite Nat2Z.inj_succ, Z.pow_succ_r by lia. simpl.
  pose proof (byte_to_Z_range b). lia.
Qed.

Lemma le_val_le_bytes n z : le_val (le_bytes n z) = z mod 256 ^ Z.of_nat n.
Proof.
  revert z; induction n as [|n IH]; intros z.
  - simpl. by rewrite Z.mod_1_r.
  - simpl le_bytes. simpl le_val. rewrite IH, byte_to_of_Z.
    rewrite Nat2Z.inj_succ, Z.pow_succ_r by lia.
    rewrite Z.rem_mul_r by lia. done.
Qed.

Lemma le_val_le_bytes_small n z :
  0 <= z < 256 ^ Z.of_nat n -> le_val (le_bytes n z) = z.
Proof. intros Hz. rewrite le_val_le_bytes. by apply Z.mod_small. Qed.

Lemma le_bytes_le_val bs : le_bytes (length bs) (le_val bs) = bs.
Proof.
  induction bs as [|b bs IH]; [done|].
  simpl. pose proof (byte_to_Z_range b) as Hb. f_equal.
  - rewrite <- (byte_of_to_Z b) at 2. unfold byte_of_Z.
    rewrite Z.mul_comm, Z.mod_add by lia. done.
  - rewrite Z.mul_comm, Z.div_add, (Z.div_small (byte_to_Z b)) by lia.
    by rewrite Z.add_0_l.
Qed.

Lemma le_val_inj bs bs' :
  length bs = length bs' -> le_val bs = le_val bs' -> bs = bs'.
Proof.
  intros Hlen Hval.
  rewrite <- (le_bytes_le_val bs), <- (le_bytes_le_val bs'). congruence.
Qed.

#[export] Hint Rewrite length_le_bytes : bytes.

#[global] Opaque le_bytes le_val.
#[global] Arguments u64 : simpl never.
#[global] Arguments u32 : simpl never.

(** * Byte ranges: [memcpy] between buffers *)

(** The [n] bytes at offset [off]. *)
Definition slice {A} (off n : nat) (l : list A) : list A := take n (drop off l).
(** [memcpy(dst + off, src, length src)]. *)
Definition memcpy {A} (dst : list A) (off : nat) (src : list A) : list A :=
  take off dst ++ src ++ drop (off + length src) dst.

Lemma length_slice {A} off n (l : list A) :
  (off + n <= length l)%nat -> length (slice off n l) = n.
Proof. intros H. unfold slice. rewrite length_take, length_drop. lia. Qed.

Lemma length_memcpy {A} (dst : list A) off src :
  (off + length src <= length dst)%nat -> length (memcpy dst off src) = length dst.
Proof.
  intros H. unfold memcpy. rewrite !length_app, length_take, length_drop. lia.
Qed.

Lemma slice_app_l {A} off n (l k : list A) :
  (off + n <= length l)%nat -> slice off n (l ++ k) = slice off n l.
Proof.
  intros H. unfold slice. rewrite drop_app_le by lia.
  rewrite take_app_le; [done|]. rewrite length_drop. lia.
Qed.

Lemma slice_app_r {A} off n (l k : list A) :
  (length l <= off)%nat -> slice off n (l ++ k) = slice (off - length l) n k.
Proof. intros H. unfold slice. by rewrite drop_app_ge by lia. Qed.

Lemma slice_all {A} off n (l : list A) : off = 0%nat -> length l = n -> slice off n l = l.
Proof. intros -> <-. unfold slice. by rewrite drop_0, firstn_all. Qed.

Lemma slice_memcpy {A} (dst : list A) src :
  slice 0 (length src) (memcpy dst 0 src) = src.
Proof.
  unfold slice, memcpy. rewrite drop_0, take_0. simpl.
  by rewrite take_app_length.
Qed.

Lemma memcpy_start {A} (dst src : list A) : memcpy dst 0 src = src ++ drop (length src) dst.
Proof. unfold memcpy. by rewrite take_0. Qed.

Lemma memcpy_middle {A} (pre post src : list A) :
  memcpy (pre ++ post) (length pre) src = pre ++ src ++ drop (length src) post.
Proof.
  unfold memcpy. rewrite take_app_length. do 2 f_equal.
  rewrite drop_app_ge by lia. f_equal. lia.
Qed.

(** * Sublists *)

Lemma Forall_sublist {A} (P : A -> Prop) (l k : list A) : l `sublist_of` k -> Forall P k -> Forall P l.
Proof. intros Hs. rewrite !Forall_forall. intros HP x Hx. apply HP. by eapply elem_of_sublist. Qed.

Lemma omap_cons {A B} (f : A -> option B) x (l : list A) : omap f (x :: l) = option_list (f x) ++ omap f l.
Proof. simpl. by destruct (f x). Qed.

(** A fold each of whose steps appends at most one element to a list. *)
Lemma foldl_appends {M A B} (step : M -> A -> M) (f : M -> list B) (g : A -> option B) :
  (forall m a, f (step m a) = f m ++ option_list (g a)) ->
  forall l m, f (foldl step m l) = f m ++ omap g l.
Proof.
  intros Hstep l. induction l as [|a l IH]; intros m; simpl; [by rewrite app_nil_r|].
  rewrite IH, Hstep, <- app_assoc. by destruct (g a).
Qed.

(** * Transition systems *)

Section Reachability.
Context {State : Type} (step : State -> State -> Prop).

(** A property preserved by every step holds along every execution. *)
Lemma rtc_invariant (I : State -> Prop) s s' :
  (forall x y, I x -> step x y -> I y) -> rtc step s s' -> I s -> I s'.
Proof. intros Hpres. induction 1; eauto. Qed.
End Reachability.

Section Executor.
Context {Label State : Type} (exec : Label -> State -> option State).

(** Run a schedule: a list of labels, each taken by [exec]. *)
Fixpoint run (ls : list Label) (s : State) : option State :=
  match ls with
  | [] => Some s
  | l :: ls' => s' ← exec l s; run ls' s'
  end.

(** The step relation of an executor: some label takes the step. *)
Definition labelled_step (s s' : State) : Prop := exists l, exec l s = Some s'.

Lemma run_one l s : run [l] s = exec l s.
Proof using Type. simpl. by destruct (exec l s). Qed.

Lemma run_app ls ls' s : run (ls ++ ls') s = (s' ← run ls s; run ls' s').
Proof.
  revert s; induction ls as [|l ls IH]; intros s; simpl; [done|].
  destruct (exec l s); simpl; auto.
Qed.

Lemma run_rtc ls s s' : run ls s = Some s' -> rtc labelled_step s s'.
Proof.
  revert s; induction ls as [|l ls IH]; intros s; simpl.
  - by intros [= ->].
  - destruct (exec l s) as [s1|] eqn:E; simpl; [|done].
    intros Hrun. eapply rtc_l; [by exists l | eauto].
Qed.

Lemma rtc_run s s' : rtc labelled_step s s' -> exists ls, run ls s = Some s'.
Proof.
  induction 1 as [s|s s1 s' [l Hl] _ [ls Hls]]; [by exists []|].
  exists (l :: ls). simpl. by rewrite Hl.
Qed.
End Executor.

(** Runs of a labelled relation. *)
Inductive steps {Label State : Type} (step : Label -> State -> State -> Prop) : list Label -> State -> State -> Prop :=
  | steps_nil s : steps step [] s s
  | steps_cons l ls s s1 s' : step l s s1 -> steps step ls s1 s' -> steps step (l :: ls) s s'.

Lemma steps_app {Label State} (step : Label -> State -> State -> Prop) ls ls' s s1 s' :
  steps step ls s s1 -> steps step ls' s1 s' -> steps step (ls ++ ls') s s'.
Proof. induction 1; [done|]. intros. simpl. econstructor; eauto. Qed.

Lemma steps_invariant {Label State} (step : Label -> State -> State -> Prop) (P : Label -> Prop) (I : State -> Prop) ls s s' :
  (forall l x y, P l -> I x -> step l x y -> I y) -> Forall P ls -> steps step ls s s' -> I s -> I s'.
Proof. intros Hpres Hls Hst. induction Hst; [done|]. apply Forall_cons in Hls as [? ?]. eauto. Qed.

(** * Forward simulation *)

Section Simulation.
Context {C A : Type} (cstep : C -> C -> Prop) (astep : A -> A -> Prop).
Context (R : C -> A -> Prop).
Context (Hsim : forall c c' a, R c a -> cstep c c' -> exists a', rtc astep a a' /\ R c' a').

(** Every concrete execution is matched by an abstract one. *)
Lemma simulation_rtc c c' a :
  rtc cstep c c' -> R c a -> exists a', rtc astep a a' /\ R c' a'.
Proof using Hsim.
  intros Hrtc. revert a. induction Hrtc as [c|c c1 c' Hstep _ IH]; intros a HR.
  - by exists a.
  - destruct (Hsim _ _ _ HR Hstep) as (a1 & Ha1 & HR1).
    destruct (IH _ HR1) as (a' & Ha' & HR').
    exists a'. split; [by etrans|done].
Qed.
End Simulation.

(** * Automation *)

(** Split every [match]/[if] scrutinee and option bind in the equation of an
    executed step. *)
Ltac step_cases :=
  repeat match goal with
         | H : Some _ = Some _ |- _ => injection H as H; subst
         | H : None = Some _ |- _ => discriminate H
         | H : Some _ = None |- _ => discriminate H
         | H : (_, _) = (_, _) |- _ => injection H as H; subst
         | H : mbind _ _ = Some _ |- _ =>
             let E := fresh "E" in apply bind_Some in H as (? & E & H)
         | H : (match ?x with _ => _ end) = _ |- _ =>
             let E := fresh "E" in destruct x eqn:E; simplify_eq/=
         end.
