(* ===== verification/Fairness.v ===== *)
(** Fair runs of a system of threads, and how a measure that one thread decreases
    leads to what the thread is waited for. A run is a sequence of states, one for
    each moment, with the step taken at it. *)

From S2P Require Import Prelude.
From stdpp Require Import options.

Section Fairness.
Context {State Label Thread : Type} (exec : Label -> State -> option State).
Context (allowed : Label -> Prop) (thread_of : Label -> option Thread).
Implicit Types (P Q R : State -> Prop).

(** The thread has a step it can take. *)
Definition enabled (t : Thread) (s : State) : Prop :=
  exists l s', allowed l /\ thread_of l = Some t /\ exec l s = Some s'.

(** No thread is passed over for ever: again and again it takes a step, or has none. *)
Record fair_run (states : nat -> State) (labels : nat -> option Label) : Prop := {
  fr_step n : match labels n with
              | Some l => allowed l /\ exec l (states n) = Some (states (S n))
              | None => states (S n) = states n
              end;
  fr_fair t n : exists m, (n <= m)%nat /\
    ((exists l, labels m = Some l /\ thread_of l = Some t) \/ ~ enabled t (states m));
}.

Definition eventually (Q : State -> Prop) (states : nat -> State) (n : nat) : Prop :=
  exists m, (n <= m)%nat /\ Q (states m).

(** Whenever a fair run is in [P], it comes to [Q]. *)
Definition leads_to P Q : Prop := forall states labels n, fair_run states labels -> P (states n) -> eventually Q states n.

Lemma leads_to_weaken P Q : (forall s, P s -> Q s) -> leads_to P Q.
Proof using Type. intros Hpq states labels n _ Hp. exists n. split; [lia|auto]. Qed.

Lemma leads_to_trans P Q R : leads_to P Q -> leads_to Q R -> leads_to P R.
Proof using Type.
  intros Hpq Hqr states labels n Hf Hp. destruct (Hpq states labels n Hf Hp) as (m & Hm & Hq).
  destruct (Hqr states labels m Hf Hq) as (k & Hk & Hr). exists k. split; [lia|done].
Qed.

(** By cases of where the run is. *)
Lemma leads_to_cases P1 P2 P Q : (forall s, P s -> P1 s \/ P2 s) -> leads_to P1 Q -> leads_to P2 Q -> leads_to P Q.
Proof using Type. intros Hor H1 H2 states labels n Hf Hp. destruct (Hor _ Hp); [by eapply H1|by eapply H2]. Qed.

(** A thread that is always able to step, and whose steps decrease a measure no
    other thread increases, gets where it goes. *)
Lemma leads_to_rank (t : Thread) (r : State -> nat) P Q :
  (forall s, P s -> enabled t s) ->
  (forall l s s', allowed l -> P s -> exec l s = Some s' ->
    Q s' \/ P s' /\ (r s' <= r s)%nat /\ (thread_of l = Some t -> (r s' < r s)%nat)) ->
  leads_to P Q.
Proof using Type.
  intros Hen Hstep states labels n Hf. remember (r (states n)) as k eqn:Ek. revert n Ek.
  induction k as [k IH] using lt_wf_ind. intros n -> Hp.
  assert (Hwalk : forall d, eventually Q states n \/
    (P (states (n + d)%nat) /\ (r (states (n + d)%nat) <= r (states n))%nat)).
  { induction d as [|d [?|[Hpd Hrd]]]; [right; by rewrite Nat.add_0_r|by left|].
    rewrite Nat.add_succ_r. pose proof (fr_step _ _ Hf (n + d)) as Hs.
    destruct (labels (n + d)%nat) as [l|]; [|right; by rewrite Hs].
    destruct Hs as [Hl He]. destruct (Hstep l _ _ Hl Hpd He) as [Hq|(Hp' & Hle & _)];
      [left; exists (S (n + d)); by split; [lia|]|].
    right. split; [done|lia]. }
  destruct (fr_fair _ _ Hf t n) as (m & Hm & Hor). destruct (Hwalk (m - n)%nat) as [?|[Hpm Hrm]]; [done|].
  replace (n + (m - n))%nat with m in * by lia. destruct Hor as [(l & Hl & Ht)|Hno]; [|by destruct Hno; apply Hen].
  pose proof (fr_step _ _ Hf m) as Hs. rewrite Hl in Hs. destruct Hs as [Hok He].
  destruct (Hstep l _ _ Hok Hpm He) as [Hq|(Hp' & _ & Hlt)]; [exists (S m); by split; [lia|]|].
  destruct (IH (r (states (S m))) ltac:(specialize (Hlt Ht); lia) (S m) eq_refl Hp') as (j & Hj & Hq).
  exists j. by split; [lia|].
Qed.

(** A single step of the thread is waited for. *)
Lemma leads_to_step (t : Thread) P Q :
  (forall s, P s -> enabled t s) ->
  (forall l s s', allowed l -> P s -> exec l s = Some s' -> Q s' \/ P s' /\ thread_of l <> Some t) ->
  leads_to P Q.
Proof using Type.
  intros Hen Hstep. apply (leads_to_rank t (fun _ => 0%nat)); [done|]. intros l s s' Hl Hp He.
  destruct (Hstep l s s' Hl Hp He) as [?|[? ?]]; [by left|]. right. by split_and!.
Qed.

(** ** A finite run in which every thread has come to its end *)

Lemma fair_ended ls s0 s1 : Forall allowed ls -> run exec ls s0 = Some s1 -> (forall t, ~ enabled t s1) ->
  fair_run (fun n => default s1 (run exec (take n ls) s0)) (fun n => ls !! n).
Proof using Type.
  intros Hls Hr Hend.
  assert (Hpre : forall n, is_Some (run exec (take n ls) s0)).
  { intros n. rewrite <- (take_drop n ls), run_app in Hr. destruct (run exec (take n ls) s0); [by eexists|done]. }
  split.
  - intros n. destruct (ls !! n) as [l|] eqn:El.
    + split; [by eapply Forall_lookup_1|]. rewrite (take_S_r _ _ _ El), run_app.
      specialize (Hpre (S n)). rewrite (take_S_r _ _ _ El), run_app in Hpre.
      destruct (run exec (take n ls) s0) as [s|]; [|by destruct Hpre]. simpl in *.
      destruct (exec l s); [done|by destruct Hpre].
    + apply lookup_ge_None in El. by rewrite !take_ge by lia.
  - intros t n. exists (Nat.max n (length ls)). split; [lia|]. right. rewrite take_ge by lia. rewrite Hr. apply Hend.
Qed.
End Fairness.
