(* ===== verification/Types.v ===== *)
(** The message types of [src/utils/types.h]: [Quote], [Trade], their object
    representation on the x86-64 System V ABI, and the [MarketDataMsg] variant.
    A [double] field holds its 64-bit pattern; [Binary64.v] gives it arithmetic. *)

From S2P Require Import Prelude.
From stdpp Require Import options.

(** * Struct layout *)

Module Layout.
(** A field is its size and its alignment in bytes. *)
Record field := Field { fsize : nat; falign : nat }.

Definition char_array (n : nat) : field := Field n 1.
Definition double : field := Field 8 8.
Definition uint32_t : field := Field 4 4.
Definition uint64_t : field := Field 8 8.

Definition align_up (off a : nat) : nat := ((off + (a - 1)) / a * a)%nat.

(** Offsets the ABI gives the fields that follow offset [off]. *)
Fixpoint offsets (off : nat) (fs : list field) : list nat :=
  match fs with
  | [] => []
  | f :: fs' => let o := align_up off (falign f) in o :: offsets (o + fsize f) fs'
  end.

Fixpoint end_of (off : nat) (fs : list field) : nat :=
  match fs with
  | [] => off
  | f :: fs' => end_of (align_up off (falign f) + fsize f) fs'
  end.

Definition alignment (fs : list field) : nat := foldr (fun f a => Nat.max (falign f) a) 1%nat fs.
Definition size (fs : list field) : nat := align_up (end_of 0 fs) (alignment fs).
End Layout.

(** * The interface between a struct and the code that copies its bytes *)

(** What [memcpy] of a whole object relies on: [obj_bytes pad x] is the object
    representation of [x] when its padding bytes hold [pad], and [of_obj] reads
    the fields back from a byte range. *)
Class WireStruct (A : Type) := {
  sizeof : nat;
  padding : nat;
  wf : A -> Prop;
  obj_bytes : list byte -> A -> list byte;
  of_obj : list byte -> A;
  obj_padding : list byte -> list byte;
}.
#[global] Arguments obj_padding A {_} _.
#[global] Arguments sizeof A {_}.
#[global] Arguments padding A {_}.
#[global] Hint Mode WireStruct ! : typeclass_instances.

Class WireStructLaws (A : Type) `{WireStruct A} := {
  length_obj_bytes (pad : list byte) (x : A) :
    length pad = padding A -> wf x -> length (obj_bytes pad x) = sizeof A;
  of_obj_bytes (pad : list byte) (x : A) :
    length pad = padding A -> wf x -> of_obj (obj_bytes pad x) = x;
  obj_bytes_of_obj (bs : list byte) :
    length bs = sizeof A -> obj_bytes (obj_padding A bs) (of_obj bs : A) = bs;
  wf_of_obj (bs : list byte) : length bs = sizeof A -> wf (of_obj bs : A);
}.

Section WireStructFacts.
Context {A : Type} `{WireStructLaws A}.

(** Objects with the same bytes are equal, whatever their padding. *)
Lemma obj_bytes_inj (pad pad' : list byte) (x y : A) :
  length pad = padding A -> length pad' = padding A -> wf x -> wf y ->
  obj_bytes pad x = obj_bytes pad' y -> x = y.
Proof using All.
  intros Hp Hp' Hx Hy Heq.
  rewrite <- (of_obj_bytes pad x), <- (of_obj_bytes pad' y) by done. by rewrite Heq.
Qed.
End WireStructFacts.

Definition is_u32 (z : Z) : Prop := 0 <= z < 2 ^ 32.
Definition is_u64 (z : Z) : Prop := 0 <= z < 2 ^ 64.

#[export] Instance is_u32_dec z : Decision (is_u32 z).
Proof. unfold is_u32. apply _. Defined.
#[export] Instance is_u64_dec z : Decision (is_u64 z).
Proof. unfold is_u64. apply _. Defined.

(** A field read at [off] of width [n]. *)
Definition field_at (off n : nat) (bs : list byte) : Z := le_val (slice off n bs).

(** * [types::Quote] *)

Module Quote.
Record t := Make {
  symbol : list byte;             (* char symbol[8] *)
  bid_price : Z;                  (* double, bit pattern *)
  ask_price : Z;
  bid_size : Z;                   (* uint32_t *)
  ask_size : Z;
  enqueue_timestamp : Z;          (* uint64_t *)
  disseminate_timestamp : Z;
}.

#[global] Instance eq_dec : EqDecision t.
Proof. solve_decision. Defined.

Definition fields : list Layout.field :=
  [Layout.char_array 8; Layout.double; Layout.double; Layout.uint32_t;
   Layout.uint32_t; Layout.uint64_t; Layout.uint64_t].

(** [types::Quote q{}]: all members zero. *)
Definition zero : t := Make (replicate 8 x00) 0 0 0 0 0 0.

Definition wf (q : t) : Prop :=
  length (symbol q) = 8%nat /\ is_u64 (bid_price q) /\ is_u64 (ask_price q) /\
  is_u32 (bid_size q) /\ is_u32 (ask_size q) /\
  is_u64 (enqueue_timestamp q) /\ is_u64 (disseminate_timestamp q).

#[global] Instance wf_dec q : Decision (wf q).
Proof. unfold wf. apply _. Defined.

Definition with_enqueue_timestamp (ts : Z) (q : t) : t :=
  Make (symbol q) (bid_price q) (ask_price q) (bid_size q) (ask_size q) ts
       (disseminate_timestamp q).
Definition with_disseminate_timestamp (ts : Z) (q : t) : t :=
  Make (symbol q) (bid_price q) (ask_price q) (bid_size q) (ask_size q)
       (enqueue_timestamp q) ts.

(** The 48 bytes of the object; there is no padding. *)
Definition to_bytes (q : t) : list byte :=
  symbol q ++ le_bytes 8 (bid_price q) ++ le_bytes 8 (ask_price q) ++
  le_bytes 4 (bid_size q) ++ le_bytes 4 (ask_size q) ++
  le_bytes 8 (enqueue_timestamp q) ++ le_bytes 8 (disseminate_timestamp q).

Definition of_bytes (bs : list byte) : t :=
  Make (slice 0 8 bs) (field_at 8 8 bs) (field_at 16 8 bs) (field_at 24 4 bs)
       (field_at 28 4 bs) (field_at 32 8 bs) (field_at 40 8 bs).
End Quote.

(** * [types::Trade] *)

Module Trade.
Record t := Make {
  symbol : list byte;             (* char symbol[8] *)
  price : Z;                      (* double, bit pattern *)
  size : Z;                       (* uint32_t, then 4 bytes of padding *)
  enqueue_timestamp : Z;          (* uint64_t *)
  disseminate_timestamp : Z;
}.

#[global] Instance eq_dec : EqDecision t.
Proof. solve_decision. Defined.

Definition fields : list Layout.field :=
  [Layout.char_array 8; Layout.double; Layout.uint32_t; Layout.uint64_t; Layout.uint64_t].

Definition zero : t := Make (replicate 8 x00) 0 0 0 0.

Definition wf (x : t) : Prop :=
  length (symbol x) = 8%nat /\ is_u64 (price x) /\ is_u32 (size x) /\
  is_u64 (enqueue_timestamp x) /\ is_u64 (disseminate_timestamp x).

#[global] Instance wf_dec x : Decision (wf x).
Proof. unfold wf. apply _. Defined.

Definition with_enqueue_timestamp (ts : Z) (x : t) : t :=
  Make (symbol x) (price x) (size x) ts (disseminate_timestamp x).
Definition with_disseminate_timestamp (ts : Z) (x : t) : t :=
  Make (symbol x) (price x) (size x) (enqueue_timestamp x) ts.

(** The 40 bytes of the object, with padding [pad] at offset 20. *)
Definition to_bytes (pad : list byte) (x : t) : list byte :=
  symbol x ++ le_bytes 8 (price x) ++ le_bytes 4 (size x) ++ pad ++
  le_bytes 8 (enqueue_timestamp x) ++ le_bytes 8 (disseminate_timestamp x).

Definition of_bytes (bs : list byte) : t :=
  Make (slice 0 8 bs) (field_at 8 8 bs) (field_at 16 4 bs) (field_at 24 8 bs)
       (field_at 32 8 bs).
End Trade.

(** * [types::MarketDataMsg = std::variant<Quote, Trade>] *)

Inductive MarketDataMsg :=
  | QuoteMsg (q : Quote.t)
  | TradeMsg (x : Trade.t).

#[export] Instance MarketDataMsg_eq_dec : EqDecision MarketDataMsg.
Proof. solve_decision. Defined.

Definition msg_wf (m : MarketDataMsg) : Prop :=
  match m with QuoteMsg q => Quote.wf q | TradeMsg x => Trade.wf x end.

#[export] Instance msg_wf_dec m : Decision (msg_wf m).
Proof. destruct m; simpl; apply _. Defined.

Definition msg_symbol (m : MarketDataMsg) : list byte :=
  match m with QuoteMsg q => Quote.symbol q | TradeMsg x => Trade.symbol x end.

Definition msg_enqueue_timestamp (m : MarketDataMsg) : Z :=
  match m with
  | QuoteMsg q => Quote.enqueue_timestamp q
  | TradeMsg x => Trade.enqueue_timestamp x
  end.

(** [types::topic_header_size]: a type letter, a colon, the 8 symbol bytes. *)
Definition topic_header_size : nat := 10.

(** * Proofs *)

(** Read a field of a concatenation: drop the fields before it, cut the ones
    after it. *)
Ltac slices :=
  repeat first
    [ rewrite slice_app_r by (autorewrite with bytes; lia)
    | rewrite slice_app_l by (autorewrite with bytes; lia) ];
  rewrite ?slice_all by (autorewrite with bytes; lia).

Lemma field_at_le n z : 0 <= z < 256 ^ Z.of_nat n -> le_val (le_bytes n z) = z.
Proof. apply le_val_le_bytes_small. Qed.

Lemma le_bytes_field_at off n bs :
  (off + n <= length bs)%nat -> le_bytes n (field_at off n bs) = slice off n bs.
Proof.
  intros H. unfold field_at. rewrite <- (length_slice off n bs H) at 1.
  apply le_bytes_le_val.
Qed.

Lemma field_at_range off n bs :
  (off + n <= length bs)%nat -> 0 <= field_at off n bs < 256 ^ Z.of_nat n.
Proof.
  intros H. unfold field_at. pose proof (le_val_range (slice off n bs)) as Hr.
  by rewrite length_slice in Hr.
Qed.

Lemma slice_split {A} off n m (l : list A) :
  slice off (n + m) l = slice off n l ++ slice (off + n) m l.
Proof. unfold slice. by rewrite <- take_take_drop, drop_drop. Qed.

#[export] Hint Rewrite @length_app @length_slice using (simpl in *; lia) : bytes.

#[export] Instance Quote_wire : WireStruct Quote.t := {|
  sizeof := Layout.size Quote.fields;
  padding := 0;
  wf := Quote.wf;
  obj_bytes := fun _ => Quote.to_bytes;
  of_obj := Quote.of_bytes;
  obj_padding := fun _ => [];
|}.

#[export] Instance Trade_wire : WireStruct Trade.t := {|
  sizeof := Layout.size Trade.fields;
  padding := 4;
  wf := Trade.wf;
  obj_bytes := Trade.to_bytes;
  of_obj := Trade.of_bytes;
  obj_padding := slice 20 4;
|}.

Lemma length_Quote_bytes q : Quote.wf q -> length (Quote.to_bytes q) = 48%nat.
Proof. intros (H & _). unfold Quote.to_bytes. autorewrite with bytes. lia. Qed.

Lemma length_Trade_bytes pad x :
  length pad = 4%nat -> Trade.wf x -> length (Trade.to_bytes pad x) = 40%nat.
Proof. intros Hp (H & _). unfold Trade.to_bytes. autorewrite with bytes. lia. Qed.

Lemma Quote_of_to_bytes q : Quote.wf q -> Quote.of_bytes (Quote.to_bytes q) = q.
Proof.
  destruct q as [sym bid ask bs aks enq dis]. intros (Hs & Hb & Ha & Hbs & Has & He & Hd).
  simpl in *. unfold Quote.of_bytes, Quote.to_bytes, field_at; simpl.
  slices. rewrite !field_at_le by done. done.
Qed.

Lemma Trade_of_to_bytes pad x :
  length pad = 4%nat -> Trade.wf x -> Trade.of_bytes (Trade.to_bytes pad x) = x.
Proof.
  destruct x as [sym p sz enq dis]. intros Hpad (Hs & Hp & Hsz & He & Hd).
  simpl in *. unfold Trade.of_bytes, Trade.to_bytes, field_at; simpl.
  slices. rewrite !field_at_le by done. done.
Qed.

(** A buffer cut at consecutive offsets. *)
Lemma Quote_to_of_bytes bs :
  length bs = 48%nat -> Quote.to_bytes (Quote.of_bytes bs) = bs.
Proof.
  intros H. unfold Quote.to_bytes, Quote.of_bytes; simpl.
  rewrite !le_bytes_field_at by lia. rewrite <- !slice_split. by apply slice_all.
Qed.

Lemma Trade_to_of_bytes bs :
  length bs = 40%nat -> Trade.to_bytes (slice 20 4 bs) (Trade.of_bytes bs) = bs.
Proof.
  intros H. unfold Trade.to_bytes, Trade.of_bytes; simpl.
  rewrite !le_bytes_field_at by lia. rewrite <- !slice_split. by apply slice_all.
Qed.

Lemma field_at_u64 off bs : (off + 8 <= length bs)%nat -> is_u64 (field_at off 8 bs).
Proof. intros H. apply (field_at_range off 8 bs H). Qed.

Lemma field_at_u32 off bs : (off + 4 <= length bs)%nat -> is_u32 (field_at off 4 bs).
Proof. intros H. apply (field_at_range off 4 bs H). Qed.

Lemma Quote_wf_of_bytes bs : length bs = 48%nat -> Quote.wf (Quote.of_bytes bs).
Proof.
  intros H. unfold Quote.wf; simpl. rewrite length_slice by lia.
  split_and!; first [done | apply field_at_u64; lia | apply field_at_u32; lia].
Qed.

Lemma Trade_wf_of_bytes bs : length bs = 40%nat -> Trade.wf (Trade.of_bytes bs).
Proof.
  intros H. unfold Trade.wf; simpl. rewrite length_slice by lia.
  split_and!; first [done | apply field_at_u64; lia | apply field_at_u32; lia].
Qed.

#[export] Instance Quote_wire_laws : WireStructLaws Quote.t.
Proof.
  split; intros; simpl in *.
  - by apply length_Quote_bytes.
  - by apply Quote_of_to_bytes.
  - by apply Quote_to_of_bytes.
  - by apply Quote_wf_of_bytes.
Qed.

#[export] Instance Trade_wire_laws : WireStructLaws Trade.t.
Proof.
  split; intros; simpl in *.
  - by apply length_Trade_bytes.
  - by apply Trade_of_to_bytes.
  - by apply Trade_to_of_bytes.
  - by apply Trade_wf_of_bytes.
Qed.

(** The layout the ABI computes from the declared members puts each field where
    [of_bytes] reads it. *)
Lemma Quote_layout :
  Layout.offsets 0 Quote.fields = [0; 8; 16; 24; 28; 32; 40]%nat /\
  sizeof Quote.t = 48%nat.
Proof. split; reflexivity. Qed.

Lemma Trade_layout :
  Layout.offsets 0 Trade.fields = [0; 8; 16; 24; 32]%nat /\ sizeof Trade.t = 40%nat.
Proof. split; reflexivity. Qed.

Lemma Quote_wf_with_disseminate q ts :
  Quote.wf q -> is_u64 ts -> Quote.wf (Quote.with_disseminate_timestamp ts q).
Proof. unfold Quote.wf; simpl; tauto. Qed.

Lemma Trade_wf_with_disseminate x ts :
  Trade.wf x -> is_u64 ts -> Trade.wf (Trade.with_disseminate_timestamp ts x).
Proof. unfold Trade.wf; simpl; tauto. Qed.

#[export] Hint Resolve Quote_wf_with_disseminate Trade_wf_with_disseminate : market.
