(* ===== verification/Binary64.v ===== *)
(** The C++ [double]: IEEE 754 binary64 numbers with the rounding of the Standard
    Library's [SpecFloat], and the 64-bit patterns [memcpy] moves. *)

From Stdlib Require Export SpecFloat.
From S2P Require Import Prelude.
From stdpp Require Import options.

(** A [double] value; NaN payloads are not distinguished. *)
Definition double : Type := spec_float.

Definition prec : Z := 53.
Definition emax : Z := 1024.

Definition dadd : double -> double -> double := SFadd prec emax.
Definition dsub : double -> double -> double := SFsub prec emax.
Definition dmul : double -> double -> double := SFmul prec emax.
Definition ddiv : double -> double -> double := SFdiv prec emax.
Definition dltb : double -> double -> bool := SFltb.
Definition dleb : double -> double -> bool := SFleb.

Definition is_finite (x : double) : bool :=
  match x with S754_zero _ | S754_finite _ _ _ => true | _ => false end.
Definition is_positive (x : double) : bool :=
  match x with S754_finite false _ _ => true | _ => false end.
Definition valid (x : double) : Prop := valid_binary prec emax x = true.

(** * Bit patterns *)

(** Sign, biased exponent and fraction fields of a 64-bit pattern. *)
Definition pack (s : bool) (e f : Z) : Z :=
  (if s then 2 ^ 63 else 0) + (e mod 2 ^ 11) * 2 ^ 52 + f mod 2 ^ 52.

Definition to_bits (x : double) : Z :=
  match x with
  | S754_zero s => pack s 0 0
  | S754_infinity s => pack s 2047 0
  | S754_nan => pack false 2047 (2 ^ 51)
  | S754_finite s m e =>
      if Zpos m <? 2 ^ 52 then pack s 0 (Zpos m) else pack s (e + 1075) (Zpos m - 2 ^ 52)
  end.

Definition of_bits (z : Z) : double :=
  let s := Z.testbit z 63 in
  let e := (z / 2 ^ 52) mod 2 ^ 11 in
  let f := z mod 2 ^ 52 in
  if e =? 0 then
    match f with Zpos m => S754_finite s m (-1074) | _ => S754_zero s end
  else if e =? 2047 then
    if f =? 0 then S754_infinity s else S754_nan
  else
    match f + 2 ^ 52 with Zpos m => S754_finite s m (e - 1075) | _ => S754_nan end.

(** The literals of the source, correctly rounded: [100.0], [0.001], [2], [0.1],
    [0.05] and [0.0]. *)
Definition d100 : double := of_bits 0x4059000000000000.
Definition d0_001 : double := of_bits 0x3F50624DD2F1A9FC.
Definition d2 : double := of_bits 0x4000000000000000.
Definition d0_1 : double := of_bits 0x3FB999999999999A.
Definition d0_05 : double := of_bits 0x3FA999999999999A.
Definition d0 : double := S754_zero false.

(** * Proofs *)

Lemma pack_range s e f : 0 <= pack s e f < 2 ^ 64.
Proof.
  unfold pack. pose proof (Z.mod_pos_bound e (2 ^ 11) eq_refl).
  pose proof (Z.mod_pos_bound f (2 ^ 52) eq_refl). destruct s; lia.
Qed.

Lemma to_bits_range x : 0 <= to_bits x < 2 ^ 64.
Proof. unfold to_bits. destruct x; try apply pack_range. case_match; apply pack_range. Qed.

Lemma pack_sign s e f : Z.testbit (pack s e f) 63 = s.
Proof.
  unfold pack. pose proof (Z.mod_pos_bound e (2 ^ 11) eq_refl) as He.
  pose proof (Z.mod_pos_bound f (2 ^ 52) eq_refl) as Hf.
  apply eq_true_iff_eq. rewrite Z.testbit_true by lia. 
  assert (Hd : ((if s then 2 ^ 63 else 0) + e mod 2 ^ 11 * 2 ^ 52 + f mod 2 ^ 52) / 2 ^ 63 = if s then 1 else 0).
  { symmetry. apply Z.div_unique with (e mod 2 ^ 11 * 2 ^ 52 + f mod 2 ^ 52); [left|]; destruct s; lia. }
  rewrite Hd. destruct s; simpl; split; done.
Qed.

Lemma pack_exponent s e f : (pack s e f / 2 ^ 52) mod 2 ^ 11 = e mod 2 ^ 11.
Proof.
  unfold pack. pose proof (Z.mod_pos_bound e (2 ^ 11) eq_refl) as He.
  pose proof (Z.mod_pos_bound f (2 ^ 52) eq_refl) as Hf.
  assert (Hd : ((if s then 2 ^ 63 else 0) + e mod 2 ^ 11 * 2 ^ 52 + f mod 2 ^ 52) / 2 ^ 52
               = (if s then 1 else 0) * 2 ^ 11 + e mod 2 ^ 11).
  { symmetry. apply Z.div_unique with (f mod 2 ^ 52); [left; lia|]. destruct s; lia. }
  rewrite Hd, Z.add_comm, Z.mod_add by lia. by rewrite Z.mod_mod by lia.
Qed.

Lemma pack_fraction s e f : pack s e f mod 2 ^ 52 = f mod 2 ^ 52.
Proof.
  unfold pack.
  replace ((if s then 2 ^ 63 else 0) + e mod 2 ^ 11 * 2 ^ 52)
    with (((if s then 2 ^ 11 else 0) + e mod 2 ^ 11) * 2 ^ 52) by (destruct s; lia).
  rewrite Z.add_comm, Z.mod_add by lia. by rewrite Z.mod_mod by lia.
Qed.

(** [digits2_pos] counts binary digits. *)
Lemma digits2_pos_bound m : 2 ^ (Zpos (digits2_pos m) - 1) <= Zpos m < 2 ^ Zpos (digits2_pos m).
Proof.
  induction m as [m IH|m IH|]; simpl digits2_pos; [| |simpl; lia].
  all: rewrite Pos2Z.inj_succ;
    replace (Z.succ (Zpos (digits2_pos m)) - 1) with (Z.succ (Zpos (digits2_pos m) - 1)) by lia;
    rewrite !Z.pow_succ_r by lia; lia.
Qed.

(** The canonical mantissas of binary64. *)
Lemma valid_finite s m e : valid (S754_finite s m e) ->
  (2 ^ 52 <= Zpos m < 2 ^ 53 /\ -1074 <= e <= 971) \/ (Zpos m < 2 ^ 52 /\ e = -1074).
Proof.
  unfold valid, valid_binary, bounded, canonical_mantissa, SpecFloat.fexp, emin, prec, emax.
  intros [Hc He]%andb_true_iff. apply Z.eqb_eq in Hc. apply Z.leb_le in He.
  pose proof (digits2_pos_bound m) as Hd. set (d := Zpos (digits2_pos m)) in *.
  assert (Hcases : d = 53 \/ (d <= 53 /\ e = -1074)) by lia.
  destruct (decide (d = 53)) as [E|E].
  - left. rewrite E in Hd. simpl in Hd. lia.
  - right. destruct Hcases as [?|[Hle ->]]; [done|]. split; [|done].
    eapply Z.lt_le_trans; [apply Hd|]. apply Z.pow_le_mono_r; lia.
Qed.

(** Reading back the pattern of a number gives the number. *)
Lemma of_to_bits x : valid x -> of_bits (to_bits x) = x.
Proof.
  intros Hv. unfold to_bits, of_bits. destruct x as [s|s| |s m e].
  - by rewrite pack_sign, pack_exponent, pack_fraction.
  - by rewrite pack_sign, pack_exponent, pack_fraction.
  - by rewrite pack_sign, pack_exponent, pack_fraction.
  - apply valid_finite in Hv. destruct (Z.ltb_spec (Zpos m) (2 ^ 52)) as [Hlt|Hge];
      rewrite pack_sign, pack_exponent, pack_fraction.
    + rewrite (Z.mod_small (Zpos m)) by lia. simpl. destruct Hv as [[? _]|[_ ->]]; [lia|done].
    + destruct Hv as [[Hm He]|[? _]]; [|lia].
      rewrite (Z.mod_small (e + 1075)), (Z.mod_small (Zpos m - 2 ^ 52)) by lia.
      rewrite (proj2 (Z.eqb_neq _ _)), (proj2 (Z.eqb_neq _ _)) by lia.
      replace (Zpos m - 2 ^ 52 + 2 ^ 52) with (Zpos m) by lia. f_equal. lia.
Qed.
