(* ===== verification/Rounding.v ===== *)
(** Order facts about the rounding of [SpecFloat]: it is faithful, it gives valid
    numbers, and a number of the format that bounds the exact result bounds the
    rounded one. *)

From S2P Require Import Prelude Binary64.
From stdpp Require Import options.

(** * Magnitudes *)

(** [m * 2 ^ e], scaled so that every exponent of this file gives an integer. *)
Definition mag (m e : Z) : Z := m * 2 ^ (e + 5000).

(** The mantissas and exponents of the finite numbers of the format. *)
Definition normalised (m e : Z) : Prop :=
  (2 ^ 52 <= m < 2 ^ 53 /\ -1074 <= e) \/ (0 <= m < 2 ^ 52 /\ e = -1074).

Lemma pow2_pos k : 0 <= k -> 0 < 2 ^ k.
Proof. intros. by apply Z.pow_pos_nonneg. Qed.

Lemma mag_shift m e k : 0 <= k -> -5000 <= e -> mag (m * 2 ^ k) e = mag m (e + k).
Proof.
  intros Hk He. unfold mag. rewrite <- Z.mul_assoc, <- Z.pow_add_r by lia. do 2 f_equal. lia.
Qed.

Lemma mag_le_iff m m' e : -5000 <= e -> mag m e <= mag m' e <-> m <= m'.
Proof. intros He. unfold mag. pose proof (pow2_pos (e + 5000)). nia. Qed.

Lemma mag_lt_iff m m' e : -5000 <= e -> mag m e < mag m' e <-> m < m'.
Proof. intros He. unfold mag. pose proof (pow2_pos (e + 5000)). nia. Qed.

Lemma mag_add m m' e : mag (m + m') e = mag m e + mag m' e.
Proof. unfold mag. lia. Qed.

(** Comparing numbers of the format compares exponents first. *)
Lemma mag_le_normalised m1 e1 m2 e2 :
  normalised m1 e1 -> normalised m2 e2 -> mag m1 e1 <= mag m2 e2 -> 0 < m1 ->
  e1 < e2 \/ (e1 = e2 /\ m1 <= m2).
Proof.
  intros H1 H2 Hle Hpos. destruct (Z.lt_trichotomy e1 e2) as [?|[->|Hgt]]; [by left| |].
  - right. split; [done|]. apply (mag_le_iff _ _ e2); [|done]. unfold normalised in *. lia.
  - exfalso. assert (Hm1 : 2 ^ 52 <= m1) by (unfold normalised in *; lia).
    assert (He2 : -1074 <= e2) by (unfold normalised in *; lia).
    assert (Hm2 : m2 < 2 ^ 53) by (unfold normalised in *; lia).
    replace e1 with (e2 + (e1 - e2)) in Hle by lia. rewrite <- mag_shift in Hle by lia.
    apply mag_le_iff in Hle; [|lia].
    pose proof (Z.pow_le_mono_r 2 1 (e1 - e2) ltac:(lia) ltac:(lia)). nia.
Qed.

(** * Shifting right *)

Lemma iter_pos_nat {A} (f : A -> A) p x : iter_pos f p x = Nat.iter (Pos.to_nat p) f x.
Proof.
  revert x; induction p as [p IH|p IH|]; intros x; simpl iter_pos; [| |done].
  - rewrite !IH, <- Nat.iter_add, Pos2Nat.inj_xI, <- Nat.iter_succ_r.
    by replace (Pos.to_nat p + Pos.to_nat p)%nat with (2 * Pos.to_nat p)%nat by lia.
  - rewrite !IH, <- Nat.iter_add, Pos2Nat.inj_xO.
    by replace (Pos.to_nat p + Pos.to_nat p)%nat with (2 * Pos.to_nat p)%nat by lia.
Qed.

Lemma shr_1_eq m r s : 0 <= m ->
  shr_1 (Build_shr_record m r s) = Build_shr_record (m / 2) (Z.odd m) (r || s).
Proof.
  intros Hm. rewrite <- Z.div2_div. destruct m as [|[p|p|]|]; simpl; done || lia.
Qed.

(** After [n] shifts the mantissa is divided by [2 ^ n], and the two bits say
    whether anything has been shifted out. *)
Lemma shr_iter n m r s : 0 <= m -> exists r' s',
  Nat.iter n shr_1 (Build_shr_record m r s) = Build_shr_record (m / 2 ^ Z.of_nat n) r' s' /\
  (r' || s' = false <-> r || s = false /\ m mod 2 ^ Z.of_nat n = 0).
Proof.
  intros Hm. induction n as [|n (r' & s' & IH & Hrs)].
  - exists r, s. simpl. rewrite Z.div_1_r, Z.mod_1_r. split; [done|]. tauto.
  - rewrite Nat.iter_succ, IH, shr_1_eq by (apply Z.div_pos; [done|apply pow2_pos; lia]).
    rewrite Z.div_div by (try apply Z.pow_nonzero; lia).
    rewrite Nat2Z.inj_succ, Z.pow_succ_r, (Z.mul_comm 2) by lia.
    eexists _, _. split; [done|]. rewrite Z.rem_mul_r by (try apply Z.pow_nonzero; lia).
    rewrite orb_false_iff, Hrs, Zodd_mod, Z.eqb_neq.
    pose proof (pow2_pos (Z.of_nat n) ltac:(lia)) as Hp.
    pose proof (Z.mod_pos_bound m (2 ^ Z.of_nat n) Hp) as Hb.
    pose proof (Z.mod_pos_bound (m / 2 ^ Z.of_nat n) 2 eq_refl) as Hb2.
    split.
    + intros [Ho [Hl Hz]]. split; [done|]. assert (m / 2 ^ Z.of_nat n mod 2 = 0) as -> by lia. lia.
    + intros [Hl Hz]. assert (m / 2 ^ Z.of_nat n mod 2 = 0) by nia. split; [lia|]. split; [done|nia].
Qed.

Definition loc_exact (l : location) : bool := match l with loc_Exact => true | _ => false end.

Definition fexp64 (e : Z) : Z := Z.max (e - 53) (-1074).

Lemma fexp_64 e : SpecFloat.fexp prec emax e = fexp64 e.
Proof. reflexivity. Qed.

Lemma shr_fexp_spec m e l : 0 <= m -> e <= fexp64 (Zdigits2 m + e) ->
  let n := fexp64 (Zdigits2 m + e) - e in
  exists r s, shr_fexp prec emax m e l = (Build_shr_record (m / 2 ^ n) r s, e + n) /\
    (r || s = false <-> loc_exact l = true /\ m mod 2 ^ n = 0).
Proof.
  intros Hm He n. unfold shr_fexp. rewrite fexp_64. fold n.
  assert (Hl : exists r s, shr_record_of_loc m l = Build_shr_record m r s /\ (r || s = false <-> loc_exact l = true)).
  { destruct l as [|[]]; simpl; eexists _, _; (split; [done|]); simpl; split; done. }
  destruct Hl as (r & s & -> & Hl). destruct n as [|p|p] eqn:En; simpl shr; [| |lia].
  - exists r, s. rewrite Z.div_1_r, Z.mod_1_r, Z.add_0_r, Hl. split; [done|]. tauto.
  - destruct (shr_iter (Pos.to_nat p) m r s Hm) as (r' & s' & Hit & Hrs).
    rewrite positive_nat_Z in *. exists r', s'. rewrite iter_pos_nat, Hit, Hrs, Hl. done.
Qed.

(** * Digits *)

Lemma digits_le m k : 0 <= k -> 0 <= m < 2 ^ k -> Zdigits2 m <= k.
Proof.
  intros Hk [Hm Hlt]. destruct m as [|p|p]; simpl; [lia| |lia].
  pose proof (digits2_pos_bound p) as [Hb _].
  destruct (Z.le_gt_cases (Zpos (digits2_pos p)) k) as [?|Hgt]; [done|].
  pose proof (Z.pow_le_mono_r 2 k (Zpos (digits2_pos p) - 1) ltac:(lia) ltac:(lia)). lia.
Qed.

Lemma digits_ge m k : 0 <= k -> 2 ^ k <= m -> k + 1 <= Zdigits2 m.
Proof.
  intros Hk Hle. pose proof (pow2_pos k Hk). destruct m as [|p|p]; simpl; [lia| |lia].
  pose proof (digits2_pos_bound p) as [_ Hb].
  destruct (Z.le_gt_cases (k + 1) (Zpos (digits2_pos p))) as [?|Hgt]; [done|].
  pose proof (Z.pow_le_mono_r 2 (Zpos (digits2_pos p)) k ltac:(lia) ltac:(lia)). lia.
Qed.

Lemma digits_bound m : 0 < m -> 2 ^ (Zdigits2 m - 1) <= m < 2 ^ Zdigits2 m.
Proof. destruct m as [|p|p]; try lia. intros _. apply digits2_pos_bound. Qed.

(** * Rounding is faithful *)

(** The number a mantissa and an exponent of the format stand for, [inf] when it
    is too large. *)
Definition pack_result (s : bool) (m e : Z) : double :=
  match m with
  | Z0 => S754_zero s
  | Zpos p => if e <=? 971 then S754_finite s p e else S754_infinity s
  | Zneg _ => S754_nan
  end.

(** The mantissa after the first shift and the rounding is the quotient or, when
    something was lost, possibly its successor. *)
Record rounds (m e : Z) (l : location) (m' e' : Z) : Prop := {
  ro_norm : normalised m' e';
  ro_mant : exists k, let n := fexp64 (Zdigits2 m + e) - e in
    0 <= k <= 1 /\ mag m' e' = mag (m / 2 ^ n + k) (e + n) /\
    (loc_exact l = true -> m mod 2 ^ n = 0 -> k = 0);
}.

(** The second normalisation of [binary_round_aux]. *)
Lemma renormalise m e : -1074 <= e -> 0 <= m <= 2 ^ 53 -> (2 ^ 52 <= m \/ e = -1074) ->
  exists m' e' r s, shr_fexp prec emax m e loc_Exact = (Build_shr_record m' r s, e') /\
    normalised m' e' /\ mag m' e' = mag m e.
Proof.
  intros He Hm Hn. destruct (Z.eq_dec m (2 ^ 53)) as [->|Hne].
  - destruct (shr_fexp_spec (2 ^ 53) e loc_Exact) as (r & s & -> & _); [lia|unfold fexp64; simpl; lia|].
    assert (fexp64 (Zdigits2 (2 ^ 53) + e) - e = 1) as -> by (unfold fexp64; simpl; lia).
    eexists _, _, _, _. split; [done|]. change (2 ^ 53 / 2 ^ 1) with (2 ^ 52). split.
    + left. lia.
    + rewrite <- mag_shift by lia. done.
  - assert (Hd := digits_le m 53 ltac:(lia) ltac:(lia)).
    exists m, e, false, false. split_and!; [|unfold normalised; lia|done].
    unfold shr_fexp. rewrite fexp_64. unfold fexp64.
    destruct (_ - e) as [|p|p] eqn:E; [done| |done]. lia.
Qed.

(** The quotient has at most 53 digits, and all 53 unless the exponent is least. *)
Lemma quotient_bounds m e : 0 <= m -> e <= fexp64 (Zdigits2 m + e) ->
  let n := fexp64 (Zdigits2 m + e) - e in
  0 <= m / 2 ^ n < 2 ^ 53 /\ (2 ^ 52 <= m / 2 ^ n \/ e + n = -1074).
Proof.
  intros Hm He n. assert (Hn : 0 <= n) by (subst n; lia). pose proof (pow2_pos n Hn).
  destruct (Z.eq_dec m 0) as [->|Hne].
  { rewrite Z.div_0_l by lia. split; [lia|]. right. subst n. unfold fexp64 in *. simpl in *. lia. }
  pose proof (digits_bound m ltac:(lia)) as [Hlo Hhi].
  assert (Hd : 1 <= Zdigits2 m) by (pose proof (digits_ge m 0); simpl in *; lia). split; [split|].
  - apply Z.div_pos; lia.
  - apply Z.div_lt_upper_bound; [done|]. rewrite <- Z.pow_add_r by lia.
    eapply Z.lt_le_trans; [exact Hhi|]. apply Z.pow_le_mono_r; [lia|]. subst n. unfold fexp64. lia.
  - destruct (Z.eq_dec (e + n) (-1074)) as [?|Hne']; [by right|left].
    apply Z.div_le_lower_bound; [done|]. rewrite <- Z.pow_add_r by lia.
    etrans; [|exact Hlo]. apply Z.pow_le_mono_r; [lia|]. subst n. unfold fexp64 in *. lia.
Qed.

Lemma binary_round_aux_rounds s m e l : 0 <= m -> e <= fexp64 (Zdigits2 m + e) -> exists m' e',
  binary_round_aux prec emax s m e l = pack_result s m' e' /\ rounds m e l m' e'.
Proof.
  intros Hm He. unfold binary_round_aux.
  destruct (shr_fexp_spec m e l ltac:(lia) He) as (r & st & -> & Hrs).
  set (n := fexp64 (Zdigits2 m + e) - e) in *. set (q := m / 2 ^ n).
  assert (Hr : exists k, round_nearest_even q (loc_of_shr_record (Build_shr_record q r st)) = q + k /\
            0 <= k <= 1 /\ (r || st = false -> k = 0)).
  { destruct r, st; simpl; [exists 1|destruct (Z.even q); [exists 0|exists 1]|exists 0|exists 0];
      (split; [lia|]); split; done || lia. }
  destruct Hr as (k & Hk & Hk01 & Hk0). cbn [shr_m]. rewrite Hk.
  pose proof (quotient_bounds m e Hm He) as Hq. cbv zeta in Hq. fold n q in Hq.
  destruct (renormalise (q + k) (e + n)) as (m' & e' & r' & s' & -> & Hnorm & Hmag);
    [subst n; unfold fexp64; lia|lia|lia|].
  exists m', e'. cbn [shr_m]. split; [done|]. split; [done|].
  exists k. fold n q. split_and!; try (done || lia). intros Hl Hz. apply Hk0, Hrs. done.
Qed.

(** [m'] and [e'] are between any two numbers of the format that enclose the
    magnitudes [lo] and [hi]. *)
Record faithful (lo hi m' e' : Z) : Prop := {
  fa_norm : normalised m' e';
  fa_lower mp ep : normalised mp ep -> mag mp ep <= lo -> mag mp ep <= mag m' e';
  fa_upper mp ep : normalised mp ep -> hi <= mag mp ep -> mag m' e' <= mag mp ep;
}.

(** A number of the format whose exponent is below that of a 53-digit quotient is
    less. *)
Lemma mag_below mp ep q e : normalised mp ep -> ep < e -> 2 ^ 52 <= q -> mag mp ep < mag q e.
Proof.
  intros Hp Hlt Hq. assert (Hb : mp < 2 ^ 53 /\ -1074 <= ep) by (unfold normalised in Hp; lia).
  replace e with (ep + (e - ep)) by lia. rewrite <- mag_shift by lia.
  apply mag_lt_iff; [lia|]. pose proof (Z.pow_le_mono_r 2 1 (e - ep) ltac:(lia) ltac:(lia)). nia.
Qed.

Lemma normalised_exponent m e : normalised m e -> -1074 <= e.
Proof. unfold normalised. lia. Qed.

(** A number written with a smaller exponent. *)
Lemma mag_rescale m e b : -5000 <= b <= e -> mag m e = mag (m * 2 ^ (e - b)) b.
Proof. intros Hb. rewrite mag_shift by lia. f_equal. lia. Qed.

Section Faithful.
Context (m e : Z) (l : location) (m' e' : Z).
Context (Hm : 0 <= m) (He : -5000 <= e) (Hfe : e <= fexp64 (Zdigits2 m + e)).
Context (Hround : rounds m e l m' e').
Let n := fexp64 (Zdigits2 m + e) - e.

Lemma rounds_lower mp ep : normalised mp ep -> mag mp ep <= mag m e -> mag mp ep <= mag m' e'.
Proof using All.
  intros Hp Hle. destruct Hround as [_ (k & Hk & -> & _)]. fold n.
  pose proof (quotient_bounds m e Hm Hfe) as [Hq Hq52]. fold n in Hq, Hq52.
  assert (Hn0 : 0 <= n) by (subst n; lia). pose proof (pow2_pos n Hn0) as Hpow.
  pose proof (normalised_exponent _ _ Hp). destruct (Z.le_gt_cases (e + n) ep) as [Hge|Hlt].
  - rewrite (mag_rescale mp ep (e + n)) in * by lia. apply mag_le_iff; [lia|].
    rewrite <- mag_shift in Hle by lia. apply mag_le_iff in Hle; [|done].
    rewrite Z.mul_comm in Hle. apply Z.div_le_lower_bound in Hle; lia.
  - apply Z.lt_le_incl. apply mag_below; lia || done.
Qed.

Lemma rounds_upper mp ep : normalised mp ep ->
  mag (m + if loc_exact l then 0 else 1) e <= mag mp ep -> mag m' e' <= mag mp ep.
Proof using All.
  intros Hp Hle. destruct Hround as [_ (k & Hk & -> & Hex)]. fold n in Hex |- *.
  pose proof (quotient_bounds m e Hm Hfe) as [Hq Hq52]. fold n in Hq, Hq52.
  assert (Hn0 : 0 <= n) by (subst n; lia). pose proof (pow2_pos n Hn0) as Hpow.
  pose proof (Z.div_mod m (2 ^ n) ltac:(lia)) as Hdm.
  pose proof (Z.mod_pos_bound m (2 ^ n) Hpow) as Hmb.
  pose proof (normalised_exponent _ _ Hp). destruct (Z.le_gt_cases (e + n) ep) as [Hge|Hlt].
  - rewrite (mag_rescale mp ep (e + n)) in * by lia. apply mag_le_iff; [lia|].
    rewrite <- mag_shift in Hle by lia. apply mag_le_iff in Hle; [|done].
    set (Q := mp * 2 ^ (ep - (e + n))) in *. set (q := m / 2 ^ n) in *.
    destruct (Z.le_gt_cases Q q) as [HQq|?]; [|lia].
    assert (k = 0); [|destruct (loc_exact l); nia].
    apply Hex; [destruct (loc_exact l); [done|nia]|destruct (loc_exact l); nia].
  - exfalso. assert (Hlt' : mag mp ep < mag (m / 2 ^ n) (e + n)) by (apply mag_below; lia || done).
    rewrite <- mag_shift in Hlt' by lia.
    assert (mag (m / 2 ^ n * 2 ^ n) e <= mag (m + if loc_exact l then 0 else 1) e); [|lia].
    apply mag_le_iff; [done|]. destruct (loc_exact l); lia.
Qed.

Lemma rounds_faithful : faithful (mag m e) (mag (m + if loc_exact l then 0 else 1) e) m' e'.
Proof using All.
  split; [apply Hround|intros; by apply rounds_lower|intros; by apply rounds_upper].
Qed.
End Faithful.

(** * Shifting left, and the sum *)

Lemma iter_xO m d : Zpos (Pos.iter xO m d) = Zpos m * 2 ^ Zpos d.
Proof.
  induction d as [|d IH] using Pos.peano_ind; [simpl; lia|].
  rewrite Pos.iter_succ, Pos2Z.inj_succ, Z.pow_succ_r, Pos2Z.inj_xO, IH by lia. lia.
Qed.

Lemma shl_align_le m e e' : e' <= e -> Zpos (fst (shl_align m e e')) = Zpos m * 2 ^ (e - e') /\
  snd (shl_align m e e') = e'.
Proof.
  intros Hle. unfold shl_align. destruct (e' - e) as [|d|d] eqn:E; simpl; [|lia|].
  - assert (e - e' = 0) as -> by lia. split; lia.
  - rewrite iter_xO. split; [|done]. do 2 f_equal. lia.
Qed.

Lemma digits_shift m k : 0 < m -> 0 <= k -> Zdigits2 (m * 2 ^ k) = Zdigits2 m + k.
Proof.
  intros Hm Hk. pose proof (digits_bound m Hm) as [Hlo Hhi]. pose proof (pow2_pos k Hk).
  assert (Hd : 1 <= Zdigits2 m) by (pose proof (digits_ge m 0); simpl in *; lia).
  apply Z.le_antisymm.
  - apply digits_le; [lia|]. rewrite Z.pow_add_r by lia. nia.
  - replace (Zdigits2 m + k) with ((Zdigits2 m - 1 + k) + 1) by lia.
    apply digits_ge; [lia|]. rewrite Z.pow_add_r by lia. nia.
Qed.

Lemma binary_round_faithful s m e : -1074 <= e -> exists m' e',
  binary_round prec emax s m e = pack_result s m' e' /\ faithful (mag (Zpos m) e) (mag (Zpos m) e) m' e'.
Proof.
  intros He. unfold binary_round. rewrite fexp_64.
  assert (Ha : exists m0 e0, shl_align m e (fexp64 (Zpos (digits2_pos m) + e)) = (m0, e0) /\
            -1074 <= e0 /\ mag (Zpos m0) e0 = mag (Zpos m) e /\ e0 <= fexp64 (Zdigits2 (Zpos m0) + e0)).
  { destruct (Z.le_gt_cases e (fexp64 (Zpos (digits2_pos m) + e))) as [Hle|Hlt].
    - exists m, e. unfold shl_align. destruct (_ - e) eqn:E; [| |lia]; split_and!; simpl; done || lia.
    - set (e0 := fexp64 _) in *. assert (He0 : -1074 <= e0) by (subst e0; unfold fexp64; lia).
      destruct (shl_align_le m e e0) as [Hm0 He0']; [lia|].
      destruct (shl_align m e e0) as [m0 e0'] eqn:Es. simpl in *. subst e0'. exists m0, e0.
      split_and!; [done..|rewrite Hm0, mag_shift by lia; f_equal; lia|].
      change (Zpos (digits2_pos m0)) with (Zdigits2 (Zpos m0)).
      rewrite Hm0, digits_shift by lia. simpl. replace (_ + (e - e0) + e0) with (Zpos (digits2_pos m) + e) by lia.
      fold e0. lia. }
  destruct Ha as (m0 & e0 & -> & He0 & Hmag & Hfe).
  destruct (binary_round_aux_rounds s (Zpos m0) e0 loc_Exact) as (m' & e' & -> & Hr); [lia|done|].
  exists m', e'. split; [done|]. rewrite <- Hmag.
  pose proof (rounds_faithful (Zpos m0) e0 loc_Exact m' e' ltac:(lia) ltac:(lia) Hfe Hr) as Hf. simpl in Hf. exact Hf.
Qed.

Lemma faithful_zero : faithful 0 0 0 (-1074).
Proof. split; [right; lia| |]; unfold mag; lia. Qed.

(** The sign of a sum that is not exactly zero is the sign of the exact sum. *)
Lemma binary_normalize_faithful m e z : -1074 <= e -> exists s m' e',
  binary_normalize prec emax m e z = pack_result s m' e' /\
  faithful (mag (Z.abs m) e) (mag (Z.abs m) e) m' e' /\ (m <> 0 -> s = (m <? 0)).
Proof.
  intros He. destruct m as [|p|p]; simpl.
  - exists z, 0, (-1074). split_and!; [done|exact faithful_zero|congruence].
  - destruct (binary_round_faithful false p e He) as (m' & e' & ? & ?). by exists false, m', e'.
  - destruct (binary_round_faithful true p e He) as (m' & e' & ? & ?). by exists true, m', e'.
Qed.

(** * Order *)

Definition smag (s : bool) (m e : Z) : Z := if s then - mag m e else mag m e.

Lemma normalised_finite m e : normalised m e -> 0 <= m /\ -5000 <= e /\ 0 <= mag m e.
Proof. intros H. unfold mag. pose proof (pow2_pos (e + 5000)). unfold normalised in H. nia. Qed.

Lemma mag_zero_iff m e : -5000 <= e -> mag m e = 0 <-> m = 0.
Proof. intros He. unfold mag. pose proof (pow2_pos (e + 5000)). nia. Qed.

Lemma compare_magnitudes m1 e1 m2 e2 :
  normalised (Zpos m1) e1 -> normalised (Zpos m2) e2 ->
  match Z.compare e1 e2 with Lt => Lt | Gt => Gt | Eq => Pos.compare_cont Eq m1 m2 end =
  (mag (Zpos m1) e1 ?= mag (Zpos m2) e2).
Proof.
  intros H1 H2. pose proof (normalised_finite _ _ H1) as (_ & He1 & _).
  pose proof (mag_le_normalised _ _ _ _ H1 H2) as Hle. pose proof (mag_le_normalised _ _ _ _ H2 H1) as Hge.
  change (Pos.compare_cont Eq m1 m2) with (m1 ?= m2)%positive.
  destruct (Z.compare_spec e1 e2) as [->|Hlt|Hgt]; symmetry.
  - change (m1 ?= m2)%positive with (Zpos m1 ?= Zpos m2).
    destruct (Z.compare_spec (Zpos m1) (Zpos m2)) as [->|?|?]; [apply Z.compare_refl| |];
      [apply Z.compare_lt_iff|apply Z.compare_gt_iff]; by apply mag_lt_iff.
  - apply Z.compare_lt_iff. lia.
  - apply Z.compare_gt_iff. lia.
Qed.

(** Signed magnitudes of finite numbers compare like the numbers; on overflow both
    sides saturate. *)
Lemma pack_compare s1 m1 e1 s2 m2 e2 : normalised m1 e1 -> normalised m2 e2 ->
  e1 <= 971 -> e2 <= 971 ->
  SFcompare (pack_result s1 m1 e1) (pack_result s2 m2 e2) = Some (smag s1 m1 e1 ?= smag s2 m2 e2).
Proof.
  intros H1 H2 Hf1 Hf2. pose proof (normalised_finite _ _ H1) as (? & ? & ?).
  pose proof (normalised_finite _ _ H2) as (? & ? & ?).
  assert (Hp1 : forall p, m1 = Zpos p -> 0 < mag (Zpos p) e1)
    by (intros p ->; pose proof (mag_zero_iff (Zpos p) e1); lia).
  assert (Hp2 : forall p, m2 = Zpos p -> 0 < mag (Zpos p) e2)
    by (intros p ->; pose proof (mag_zero_iff (Zpos p) e2); lia).
  unfold pack_result. rewrite (proj2 (Z.leb_le _ _) Hf1), (proj2 (Z.leb_le _ _) Hf2).
  destruct m1 as [|p1|?], m2 as [|p2|?]; try lia; unfold smag;
    try specialize (Hp1 _ eq_refl); try specialize (Hp2 _ eq_refl);
    try (change (mag 0 e1) with 0); try (change (mag 0 e2) with 0); cbn [SFcompare];
    rewrite ?compare_magnitudes by done;
    (destruct s1, s2; f_equal; symmetry; try apply Z.compare_refl;
     try (apply Z.compare_lt_iff; lia); try (apply Z.compare_gt_iff; lia); try done).
  rewrite Z.compare_opp, Z.compare_antisym, <- compare_magnitudes by done.
  destruct (e1 ?= e2); simpl; try done.
Qed.

Lemma pack_infinite s m e : normalised m e -> 971 < e -> pack_result s m e = S754_infinity s.
Proof.
  intros Hn He. unfold pack_result. rewrite (proj2 (Z.leb_gt _ _) He).
  destruct m; [|done|]; unfold normalised in Hn; lia.
Qed.

Lemma pack_cases s m e : normalised m e ->
  pack_result s m e = S754_zero s \/ pack_result s m e = S754_infinity s \/
  exists p, m = Zpos p /\ pack_result s m e = S754_finite s p e.
Proof.
  intros Hn. pose proof (normalised_finite _ _ Hn). destruct m as [|p|p]; simpl; [by left| |lia].
  right. destruct (e <=? 971); [right; by exists p|by left].
Qed.

Lemma smag_exponent s1 m1 e1 s2 m2 e2 : normalised m1 e1 -> normalised m2 e2 ->
  smag s1 m1 e1 <= smag s2 m2 e2 ->
  (971 < e1 -> s1 = false -> s2 = false /\ e1 <= e2) /\ (971 < e2 -> s2 = true -> s1 = true /\ e2 <= e1).
Proof.
  intros H1 H2 Hle. pose proof (normalised_finite _ _ H1) as (_ & ? & ?).
  pose proof (normalised_finite _ _ H2) as (_ & ? & ?).
  assert (Hbig : forall m e, normalised m e -> 971 < e -> 0 < m /\ 0 < mag m e).
  { intros m e Hn He. assert (0 < m) by (unfold normalised in Hn; lia).
    pose proof (mag_zero_iff m e). pose proof (normalised_finite _ _ Hn). lia. }
  split; intros He Hs; [pose proof (Hbig _ _ H1 He) as [Hm ?]|pose proof (Hbig _ _ H2 He) as [Hm ?]];
    unfold smag in Hle; destruct s1, s2; try discriminate Hs; try lia; (split; [done|]).
  - pose proof (mag_le_normalised m1 e1 m2 e2 H1 H2 Hle Hm). lia.
  - pose proof (mag_le_normalised m2 e2 m1 e1 H2 H1 ltac:(lia) Hm). lia.
Qed.

Lemma pack_dleb s1 m1 e1 s2 m2 e2 : normalised m1 e1 -> normalised m2 e2 ->
  smag s1 m1 e1 <= smag s2 m2 e2 -> dleb (pack_result s1 m1 e1) (pack_result s2 m2 e2) = true.
Proof.
  intros H1 H2 Hle. destruct (smag_exponent _ _ _ _ _ _ H1 H2 Hle) as [Hinf1 Hinf2].
  unfold dleb, SFleb. destruct (Z.le_gt_cases e1 971) as [Hf1|Hf1], (Z.le_gt_cases e2 971) as [Hf2|Hf2].
  - rewrite pack_compare by done. by destruct (Z.compare_spec (smag s1 m1 e1) (smag s2 m2 e2)); [| |lia].
  - rewrite (pack_infinite s2) by done.
    destruct s2; [pose proof (Hinf2 Hf2 eq_refl); lia|].
    by destruct (pack_cases s1 m1 e1 H1) as [->|[->|(p & _ & ->)]]; try destruct s1.
  - rewrite (pack_infinite s1) by done.
    destruct s1; [|pose proof (Hinf1 Hf1 eq_refl); lia].
    by destruct (pack_cases s2 m2 e2 H2) as [->|[->|(p & _ & ->)]]; try destruct s2.
  - rewrite (pack_infinite s1), (pack_infinite s2) by done.
    destruct s1, s2; try done. by destruct (Hinf1 Hf1 eq_refl).
Qed.

Lemma pack_dltb s1 m1 e1 s2 m2 e2 : normalised m1 e1 -> normalised m2 e2 -> e1 <= 971 \/ e2 <= 971 ->
  smag s1 m1 e1 < smag s2 m2 e2 -> dltb (pack_result s1 m1 e1) (pack_result s2 m2 e2) = true.
Proof.
  intros H1 H2 Hf Hlt. assert (Hle : smag s1 m1 e1 <= smag s2 m2 e2) by lia.
  destruct (smag_exponent _ _ _ _ _ _ H1 H2 Hle) as [Hinf1 Hinf2]. unfold dltb, SFltb.
  destruct (Z.le_gt_cases e1 971) as [Hf1|Hf1], (Z.le_gt_cases e2 971) as [Hf2|Hf2]; [| | |lia].
  - rewrite pack_compare by done. by rewrite (proj2 (Z.compare_lt_iff _ _) Hlt).
  - rewrite (pack_infinite s2) by done. destruct s2; [pose proof (Hinf2 Hf2 eq_refl); lia|].
    destruct (pack_cases s1 m1 e1 H1) as [->|[E|(p & -> & ->)]]; [done| |by destruct s1].
    unfold pack_result in E. rewrite (proj2 (Z.leb_le _ _) Hf1) in E. by destruct m1.
  - rewrite (pack_infinite s1) by done. destruct s1; [|pose proof (Hinf1 Hf1 eq_refl); lia].
    destruct (pack_cases s2 m2 e2 H2) as [->|[E|(p & -> & ->)]]; [done| |by destruct s2].
    unfold pack_result in E. rewrite (proj2 (Z.leb_le _ _) Hf2) in E. by destruct m2.
Qed.

(** * Validity *)

Lemma valid_pack s m e : normalised m e -> valid (pack_result s m e).
Proof.
  intros Hn. destruct (pack_cases s m e Hn) as [->|[->|(p & -> & Hp)]]; [done..|].
  rewrite Hp. unfold pack_result in Hp. destruct (Z.leb_spec e 971) as [He|]; [|done].
  unfold valid, valid_binary, bounded, canonical_mantissa. rewrite fexp_64.
  apply andb_true_iff. split; [|by apply Z.leb_le]. apply Z.eqb_eq. unfold fexp64.
  change (Zpos (digits2_pos p)) with (Zdigits2 (Zpos p)).
  destruct Hn as [[Hb He']|[Hb ->]].
  - pose proof (digits_le (Zpos p) 53 ltac:(lia) ltac:(lia)).
    pose proof (digits_ge (Zpos p) 52 ltac:(lia) ltac:(lia)). lia.
  - pose proof (digits_le (Zpos p) 52 ltac:(lia) ltac:(lia)). lia.
Qed.

(** A finite double of the format, as its sign, mantissa and exponent. *)
Lemma valid_pack_inv s m e : valid (S754_finite s m e) ->
  normalised (Zpos m) e /\ e <= 971 /\ S754_finite s m e = pack_result s (Zpos m) e.
Proof.
  intros Hv%valid_finite. assert (He : e <= 971) by lia. split_and!; [unfold normalised; lia|done|].
  unfold pack_result. by rewrite (proj2 (Z.leb_le _ _) He).
Qed.

(** * Signed results *)

(** The signed magnitude of a finite number. *)
Definition sval (x : double) : Z := match x with S754_finite s m e => smag s (Zpos m) e | _ => 0 end.

(** The rounded value of [v], with its sign, against the numbers of the format. *)
Record sfaithful (v : Z) (s : bool) (m' e' : Z) : Prop := {
  sf_norm : normalised m' e';
  sf_lower sp mp ep : normalised mp ep -> smag sp mp ep <= v -> smag sp mp ep <= smag s m' e';
  sf_upper sp mp ep : normalised mp ep -> v <= smag sp mp ep -> smag s m' e' <= smag sp mp ep;
}.

Lemma sfaithful_intro v s m' e' : faithful (Z.abs v) (Z.abs v) m' e' -> (v <> 0 -> s = (v <? 0)) ->
  sfaithful v s m' e'.
Proof.
  intros [Hn Hlo Hhi] Hs. pose proof (normalised_finite _ _ Hn) as (_ & _ & Hpos).
  assert (Hs' : v = 0 \/ (v < 0 /\ s = true) \/ (0 < v /\ s = false)).
  { destruct (Z.lt_trichotomy v 0) as [?|[?|?]]; [right; left|by left|right; right];
      (split; [done|]); rewrite Hs by lia; [by apply Z.ltb_lt|by apply Z.ltb_ge; lia]. }
  assert (Hz : v = 0 -> mag m' e' = 0).
  { intros ->. pose proof (Hhi 0 (-1074) (fa_norm _ _ _ _ faithful_zero) ltac:(unfold mag; simpl; lia)).
    unfold mag at 2 in H. lia. }
  split; [done| |]; intros sp mp ep Hp Hle; specialize (Hlo mp ep Hp); specialize (Hhi mp ep Hp);
    pose proof (normalised_finite _ _ Hp) as (_ & _ & ?); unfold smag in *;
    destruct Hs' as [->|[[? ->]|[? ->]]]; destruct sp; try lia; destruct s; lia.
Qed.

(** A number of the format rounds to itself. *)
Lemma sfaithful_exact s m e : normalised m e -> sfaithful (smag s m e) s m e.
Proof. by split. Qed.

Lemma finite_pack x : valid x -> is_finite x = true -> exists s m e,
  x = pack_result s m e /\ normalised m e /\ e <= 971 /\ sval x = smag s m e.
Proof.
  intros Hv Hf. destruct x as [s| | |s m e]; try done.
  - exists s, 0, (-1074). split_and!; [done|apply faithful_zero|lia|by destruct s].
  - destruct (valid_pack_inv s m e Hv) as (? & ? & ->). exists s, (Zpos m), e. split_and!; try done.
    unfold pack_result. by rewrite (proj2 (Z.leb_le e 971)).
Qed.

Lemma cond_Zopp_mag (s : bool) m e : (if s then - mag m e else mag m e) = mag (cond_Zopp s m) e.
Proof. destruct s; simpl; unfold mag; lia. Qed.

(** The sum of two finite numbers is the rounded exact sum. *)
Lemma dadd_sfaithful x y : valid x -> valid y -> is_finite x = true -> is_finite y = true ->
  exists s m e, dadd x y = pack_result s m e /\ sfaithful (sval x + sval y) s m e.
Proof.
  intros Hx Hy Fx Fy. destruct (finite_pack x Hx Fx) as (sx & mx & ex & Ex & Nx & Lx & Vx).
  destruct (finite_pack y Hy Fy) as (sy & my & ey & Ey & Ny & Ly & Vy).
  destruct x as [zx| | |sx' px ex']; try done; destruct y as [zy| | |sy' py ey']; try done.
  - exists (zx && zy), 0, (-1074). split; [by destruct zx, zy|]. split; [apply faithful_zero|..];
      by intros; destruct zx, zy.
  - exists sy, my, ey. simpl sval at 1. rewrite Z.add_0_l, Vy. split; [done|by apply sfaithful_exact].
  - exists sx, mx, ex. simpl sval at 2. rewrite Z.add_0_r, Vx. split; [done|by apply sfaithful_exact].
  - clear Vx Vy. apply valid_finite in Hx, Hy. simpl. set (ez := Z.min ex' ey').
    destruct (shl_align_le px ex' ez) as [-> _]; [lia|]. destruct (shl_align_le py ey' ez) as [-> _]; [lia|].
    match goal with |- context [binary_normalize prec emax ?v ez false] =>
      destruct (binary_normalize_faithful v ez false) as (s & m & e & Hr & Hf & Hs); [lia|];
      set (sum := v) in * end.
    exists s, m, e. split; [exact Hr|].
    assert (Hsum : smag sx' (Zpos px) ex' + smag sy' (Zpos py) ey' = mag sum ez).
    { unfold smag, sum. rewrite !cond_Zopp_mag, mag_add.
      rewrite (mag_rescale _ ex' ez), (mag_rescale _ ey' ez) by lia.
      by destruct sx', sy'; simpl; rewrite ?Z.mul_opp_l. }
    rewrite Hsum. pose proof (pow2_pos (ez + 5000) ltac:(lia)).
    apply sfaithful_intro.
    + replace (Z.abs (mag sum ez)) with (mag (Z.abs sum) ez) by (unfold mag; nia). done.
    + intros Hne. rewrite Hs by (intros E; apply Hne; rewrite E; unfold mag; lia).
      unfold mag. apply eq_true_iff_eq. rewrite !Z.ltb_lt. nia.
Qed.

(** * Adding and subtracting an offset *)

Lemma dsub_opp x y : dsub x y = dadd x (SFopp y).
Proof.
  unfold dsub, dadd. destruct x as [sx|sx| |sx mx ex], y as [sy|sy| |sy my ey]; simpl;
    by try destruct sx; try destruct sy.
Qed.

Lemma valid_opp x : valid x -> valid (SFopp x).
Proof. by destruct x. Qed.

Lemma dadd_valid x y : valid x -> valid y -> valid (dadd x y).
Proof.
  intros Hx Hy. destruct (is_finite x) eqn:Fx, (is_finite y) eqn:Fy.
  - destruct (dadd_sfaithful x y Hx Hy Fx Fy) as (s & m & e & -> & Hf). apply valid_pack, Hf.
  - by destruct x as [|[]| |], y as [|[]| |].
  - by destruct x as [|[]| |], y as [|[]| |].
  - by destruct x as [|[]| |], y as [|[]| |].
Qed.

Lemma dsub_valid x y : valid x -> valid y -> valid (dsub x y).
Proof. intros. rewrite dsub_opp. by apply dadd_valid; [|apply valid_opp]. Qed.

(** [true] for a number with sign [s], a zero of either sign included. *)
Definition has_sign (s : bool) (x : double) : bool :=
  match x with
  | S754_zero _ => true
  | S754_infinity s' | S754_finite s' _ _ => Bool.eqb s s'
  | S754_nan => false
  end.

Lemma has_sign_opp s x : has_sign s x = true -> has_sign (negb s) (SFopp x) = true.
Proof. destruct x; simpl; try done; by destruct s, s0. Qed.

(** The order seen from either side. *)
Definition dle_sign (s : bool) (x y : double) : bool := if s then dleb y x else dleb x y.
Definition dlt_sign (s : bool) (x y : double) : bool := if s then dltb y x else dltb x y.

Lemma sval_sign s x : has_sign s x = true -> valid x -> if s then sval x <= 0 else 0 <= sval x.
Proof.
  intros Hs Hv. destruct x as [z|z| |z m e]; simpl in *; try (by destruct s).
  destruct (valid_pack_inv z m e Hv) as (Hn & _ & _). pose proof (normalised_finite _ _ Hn).
  unfold smag. destruct s, z; try done; lia.
Qed.

(** Adding a number with sign [s] moves away in the direction [s], never back. *)
Lemma dadd_moves s x y : valid x -> valid y -> is_finite x = true -> has_sign s y = true ->
  dle_sign s x (dadd x y) = true.
Proof.
  intros Hx Hy Fx Hs. destruct (is_finite y) eqn:Fy.
  - destruct (dadd_sfaithful x y Hx Hy Fx Fy) as (sr & mr & er & -> & [Hn Hlo Hhi]).
    pose proof (sval_sign s y Hs Hy) as Hsy.
    destruct (finite_pack x Hx Fx) as (sx & mx & ex & -> & Nx & Lx & Vx). rewrite Vx in *.
    unfold dle_sign. destruct s; (apply pack_dleb; [done|done|]); [apply Hhi|apply Hlo]; done || lia.
  - destruct y as [|z| |]; try done. destruct x as [zx| | |zx mx ex]; try done; by destruct s, z.
Qed.

(** The numbers of the format next to a positive one are at most one unit away. *)
Lemma neighbour_up m e : normalised m e ->
  exists m' e', normalised m' e' /\ mag m' e' = mag m e + mag 1 e.
Proof.
  intros Hn. rewrite <- mag_add. destruct (Z.eq_dec (m + 1) (2 ^ 53)) as [->|Hne].
  - exists (2 ^ 52), (e + 1). split; [left; unfold normalised in Hn; lia|].
    rewrite <- mag_shift by (unfold normalised in Hn; lia). done.
  - exists (m + 1), e. split; [|done]. unfold normalised in *. lia.
Qed.

Lemma neighbour_down m e : normalised m e -> 0 < m ->
  exists m' e', normalised m' e' /\ mag m' e' = mag m e - mag 1 e.
Proof.
  intros Hn Hm. replace (mag m e - mag 1 e) with (mag (m - 1) e) by (unfold mag; lia).
  destruct (decide (m = 2 ^ 52 /\ e <> -1074)) as [[-> Hne]|Hne].
  - exists (2 ^ 53 - 2), (e - 1). split; [left; unfold normalised in Hn; lia|].
    rewrite (mag_rescale (2 ^ 52 - 1) e (e - 1)) by (unfold normalised in Hn; lia).
    replace (e - (e - 1)) with 1 by lia. done.
  - exists (m - 1), e. split; [|done]. unfold normalised in *. lia.
Qed.

Lemma neighbour (s sx : bool) m e : normalised m e -> 0 < m ->
  exists m' e', normalised m' e' /\ smag sx m' e' = smag sx m e + if s then - mag 1 e else mag 1 e.
Proof.
  intros Hn Hm. destruct (neighbour_up m e Hn) as (mu & eu & Nu & Hu).
  destruct (neighbour_down m e Hn Hm) as (md & ed & Nd & Hd). unfold smag.
  destruct s, sx; [exists mu, eu|exists md, ed|exists md, ed|exists mu, eu]; (split; [done|lia]).
Qed.

(** An offset of at least one unit in the last place does move the number. *)
Lemma dadd_moves_strictly s sx m e y : valid (S754_finite sx m e) -> valid y -> has_sign s y = true ->
  (is_finite y = true -> mag 1 e <= Z.abs (sval y)) ->
  dlt_sign s (S754_finite sx m e) (dadd (S754_finite sx m e) y) = true.
Proof.
  intros Hx Hy Hs Hbig. destruct (is_finite y) eqn:Fy.
  - destruct (dadd_sfaithful _ y Hx Hy eq_refl Fy) as (sr & mr & er & -> & [Hn Hlo Hhi]).
    pose proof (sval_sign s y Hs Hy) as Hsy. specialize (Hbig eq_refl).
    destruct (valid_pack_inv _ _ _ Hx) as (Nx & Lx & ->).
    destruct (neighbour s sx (Zpos m) e Nx ltac:(lia)) as (m' & e' & N' & Hm').
    assert (Hpos : 0 < mag 1 e).
    { pose proof (normalised_finite _ _ Nx). unfold mag. pose proof (pow2_pos (e + 5000)). lia. }
    simpl sval in Hlo, Hhi. unfold dlt_sign. destruct s.
    + apply pack_dltb; [done|done|by right|].
      pose proof (Hhi sx m' e' N' ltac:(lia)). lia.
    + apply pack_dltb; [done|done|by left|].
      pose proof (Hlo sx m' e' N' ltac:(lia)). lia.
  - destruct y as [|z| |]; try done. by destruct s, z, sx.
Qed.

(** * The half spread *)

Lemma has_sign_pack s m e : normalised m e -> has_sign s (pack_result s m e) = true.
Proof.
  intros Hn. destruct (pack_cases s m e Hn) as [->|[->|(p & _ & ->)]]; simpl; [done|..]; apply Bool.eqb_reflx.
Qed.

(** Products and quotients of finite numbers are packed results. *)
Lemma dmul_rounds s m e s' m' e' : valid (S754_finite s m e) -> 2 ^ 52 <= Zpos m' -> -100 <= e' <= 0 ->
  exists mr er, dmul (S754_finite s m e) (S754_finite s' m' e') = pack_result (xorb s s') mr er /\
    faithful (mag (Zpos m * Zpos m') (e + e')) (mag (Zpos m * Zpos m') (e + e')) mr er.
Proof.
  intros Hv%valid_finite Hm' He'. simpl.
  assert (He : -1074 <= e) by lia.
  assert (Hfe : e + e' <= fexp64 (Zdigits2 (Zpos (m * m')) + (e + e'))).
  { pose proof (digits_ge (Zpos (m * m')) 52 ltac:(lia) ltac:(lia)). unfold fexp64. lia. }
  destruct (binary_round_aux_rounds (xorb s s') (Zpos (m * m')) (e + e') loc_Exact) as (mr & er & Hr & Hro);
    [lia|done|]. exists mr, er. split; [exact Hr|].
  pose proof (rounds_faithful (Zpos (m * m')) (e + e') loc_Exact mr er ltac:(lia) ltac:(lia) Hfe Hro) as Hf.
  simpl loc_exact in Hf. cbv iota in Hf. by rewrite Z.add_0_r, Pos2Z.inj_mul in Hf.
Qed.

Lemma div_eucl_eq a b : Z.div_eucl a b = (a / b, a mod b).
Proof. unfold Z.div, Z.modulo. by destruct (Z.div_eucl a b). Qed.

(** Dividing by [2.0], whose mantissa is [2 ^ 52] and whose exponent [-51]. *)
Lemma div2_core m e : valid (S754_finite false m e) -> exists mz ez l,
  SFdiv_core_binary prec emax (Zpos m) e (2 ^ 52) (-51) = (mz, ez, l) /\
  0 <= mz /\ -2000 <= ez <= fexp64 (Zdigits2 mz + ez) /\
  (-1072 <= e -> 2 ^ 52 <= Zpos m -> mz = 2 * Zpos m /\ ez = e - 2).
Proof.
  intros Hv%valid_finite. unfold SFdiv_core_binary. rewrite fexp_64.
  change (Zdigits2 (2 ^ 52)) with 53. set (d := Zdigits2 (Zpos m)).
  pose proof (digits_bound (Zpos m) ltac:(lia)) as [Hlo Hhi]. fold d in Hlo, Hhi.
  assert (Hd : 1 <= d) by (subst d; pose proof (digits_ge (Zpos m) 0); simpl in *; lia).
  set (ez := Z.min _ _).
  set (s := e - -51 - ez). assert (Hs : 0 <= s) by (subst s ez; lia).
  set (m1 := match s with Z0 => _ | _ => _ end).
  assert (Hm1 : m1 = Zpos m * 2 ^ s).
  { subst m1. destruct s as [|p|p]; [lia| |lia]. by rewrite Z.shiftl_mul_pow2 by lia. }
  rewrite div_eucl_eq, Hm1. eexists _, _, _. split; [done|]. pose proof (pow2_pos s Hs).
  split; [apply Z.div_pos; lia|]. split; [split; [subst ez; unfold fexp64; lia|]|].
  - destruct (Z.le_gt_cases ez (-1074)) as [?|Hez]; [unfold fexp64; lia|].
    assert (Hse : s = e + 51 - ez) by (subst s; lia).
    assert (Hez' : ez <= d + e - 55) by (subst ez; unfold fexp64 in *; lia).
    assert (Hb : 2 ^ (d + s - 53) <= Zpos m * 2 ^ s / 2 ^ 52).
    { apply Z.div_le_lower_bound; [done|]. rewrite <- Z.pow_add_r by lia.
      replace (52 + (d + s - 53)) with (d - 1 + s) by lia. rewrite Z.pow_add_r by lia. nia. }
    apply digits_ge in Hb; [|lia]. unfold fexp64. lia.
  - intros He Hm. assert (d = 53) as Ed.
    { pose proof (digits_ge (Zpos m) 52 ltac:(lia) Hm). pose proof (digits_le (Zpos m) 53 ltac:(lia) ltac:(lia)). lia. }
    assert (ez = e - 2) as -> by (subst ez; unfold fexp64; lia).
    assert (s = 53) as -> by (subst s; lia). split; [|done].
    replace (Zpos m * 2 ^ 53) with (2 * Zpos m * 2 ^ 52) by lia. by rewrite Z.div_mul.
Qed.

Lemma d2_eq : d2 = S754_finite false 4503599627370496 (-51).
Proof. reflexivity. Qed.

Lemma ddiv_d2 s m e : valid (S754_finite s m e) -> exists mr er,
  ddiv (S754_finite s m e) d2 = pack_result s mr er /\ normalised mr er /\
  (-1072 <= e -> 2 ^ 52 <= Zpos m -> mag (2 ^ 52) (e - 1) <= mag mr er).
Proof.
  intros Hv. destruct (div2_core m e Hv) as (mz & ez & l & Hc & Hmz & [Hlo Hfe] & Hbig).
  destruct (binary_round_aux_rounds s mz ez l Hmz Hfe) as (mr & er & Hr & Hro).
  exists mr, er. split_and!.
  - rewrite d2_eq. unfold ddiv, SFdiv. change (Zpos 4503599627370496) with (2 ^ 52).
    rewrite Hc, xorb_false_r. exact Hr.
  - apply Hro.
  - intros He Hm. destruct (Hbig He Hm) as [-> ->].
    apply (rounds_lower (2 * Zpos m) (e - 2) l); [lia|lia|done..|left; lia|].
    rewrite (mag_rescale _ (e - 1) (e - 2)) by lia. apply mag_le_iff; [lia|].
    replace (e - 1 - (e - 2)) with 1 by lia. lia.
Qed.

(** The half spread of a price. *)
Definition half_spread (price : double) : double := ddiv (dmul price d0_001) d2.

Lemma d0_001_eq : d0_001 = S754_finite false 4611686018427388 (-62).
Proof. reflexivity. Qed.

(** It has the sign of the price. *)
Lemma half_spread_sign s price : valid price -> is_finite price = true -> has_sign s price = true ->
  has_sign s (half_spread price) = true /\ valid (half_spread price).
Proof.
  intros Hv Hf Hs. unfold half_spread. destruct price as [z| | |z m e]; try done.
  assert (s = z) as -> by (simpl in Hs; by apply Bool.eqb_prop in Hs).
  destruct (dmul_rounds z m e false 4611686018427388 (-62) Hv ltac:(lia) ltac:(lia)) as (m1 & e1 & H1 & [N1 _ _]).
  rewrite d0_001_eq, H1, xorb_false_r.
  pose proof (valid_pack z m1 e1 N1) as V1.
  destruct (pack_cases z m1 e1 N1) as [->|[->|(p & -> & Hp)]]; [done|by destruct z|].
  rewrite Hp in *. destruct (ddiv_d2 z p e1 V1) as (m2 & e2 & -> & N2 & _).
  split; [by apply has_sign_pack|by apply valid_pack].
Qed.

(** For a price of at least [2 ^ -1010] it is more than a unit in the last place. *)
Lemma half_spread_large z m e : valid (S754_finite z m e) -> -1062 <= e ->
  is_finite (half_spread (S754_finite z m e)) = true ->
  mag 1 e <= Z.abs (sval (half_spread (S754_finite z m e))).
Proof.
  intros Hv He. unfold half_spread.
  assert (Hm : 2 ^ 52 <= Zpos m) by (apply valid_finite in Hv; lia).
  destruct (dmul_rounds z m e false 4611686018427388 (-62) Hv ltac:(lia) ltac:(lia)) as (m1 & e1 & H1 & [N1 Hlo _]).
  rewrite d0_001_eq, H1, xorb_false_r.
  assert (Hbig : mag (2 ^ 52) (e - 10) <= mag m1 e1).
  { apply Hlo; [left; lia|]. rewrite (mag_rescale _ (e - 10) (e + -62)) by lia.
    apply mag_le_iff; [lia|]. replace (e - 10 - (e + -62)) with 52 by lia. lia. }
  assert (Hm1 : 2 ^ 52 <= m1 /\ e - 10 <= e1).
  { assert (NP : normalised (2 ^ 52) (e - 10)) by (left; lia).
    pose proof (mag_le_normalised _ _ _ _ NP N1 Hbig ltac:(lia)).
    unfold normalised in N1. lia. }
  pose proof (valid_pack z m1 e1 N1) as V1.
  destruct (pack_cases z m1 e1 N1) as [E|[->|(p & -> & Hp)]]; [|by destruct z|].
  { unfold pack_result in E. destruct m1; [lia|by destruct (_ <=? _)|lia]. }
  rewrite Hp in *. destruct (ddiv_d2 z p e1 V1) as (m2 & e2 & -> & N2 & H2).
  specialize (H2 ltac:(lia) ltac:(lia)). intros Hfin.
  pose proof (normalised_finite _ _ N2) as (_ & _ & ?).
  assert (mag 1 e <= mag (2 ^ 52) (e1 - 1)).
  { rewrite (mag_rescale 1 e (e - 11)) by lia. replace (e - (e - 11)) with 11 by lia.
    rewrite (mag_rescale _ (e1 - 1) (e - 11)) by lia. apply mag_le_iff; [lia|].
    pose proof (pow2_pos (e1 - 1 - (e - 11)) ltac:(lia)). lia. }
  assert (Hs : Z.abs (sval (pack_result z m2 e2)) = mag m2 e2); [|lia].
  destruct (pack_cases z m2 e2 N2) as [E|[E|(p2 & -> & ->)]]; [|by rewrite E in Hfin|unfold sval, smag; destruct z; lia].
  rewrite E. unfold pack_result in E. destruct m2; [done|by destruct (_ <=? _)|unfold normalised in N2; lia].
Qed.

(** Taking the half spread away from and adding it to a finite price encloses the
    price, in the order its sign gives; strictly from [2 ^ -1010] on. *)
Lemma half_spread_encloses s price : valid price -> is_finite price = true -> has_sign s price = true ->
  dle_sign s (dsub price (half_spread price)) price = true /\
  dle_sign s price (dadd price (half_spread price)) = true.
Proof.
  intros Hv Hf Hs. destruct (half_spread_sign s price Hv Hf Hs) as [Hh Hvh].
  split; [|by apply dadd_moves]. rewrite dsub_opp.
  pose proof (dadd_moves (negb s) price (SFopp (half_spread price)) Hv (valid_opp _ Hvh) Hf (has_sign_opp _ _ Hh)).
  by destruct s.
Qed.

Lemma sval_opp x : sval (SFopp x) = - sval x.
Proof. destruct x as [| | |[] m e]; simpl; unfold mag; lia. Qed.

Lemma half_spread_encloses_strictly s m e : valid (S754_finite s m e) -> -1062 <= e ->
  let price := S754_finite s m e in
  dlt_sign s (dsub price (half_spread price)) price = true /\
  dlt_sign s price (dadd price (half_spread price)) = true.
Proof.
  intros Hv He price. pose proof (half_spread_large s m e Hv He) as Hlarge. fold price in Hlarge.
  destruct (half_spread_sign s price Hv eq_refl ltac:(simpl; apply Bool.eqb_reflx)) as [Hh Hvh].
  split; [|by apply dadd_moves_strictly]. rewrite dsub_opp.
  pose proof (dadd_moves_strictly (negb s) s m e (SFopp (half_spread price)) Hv (valid_opp _ Hvh)
                (has_sign_opp _ _ Hh)) as Hmove.
  assert (dlt_sign (negb s) price (dadd price (SFopp (half_spread price))) = true); [|by destruct s].
  apply Hmove. rewrite sval_opp, Z.abs_opp. intros Hf. apply Hlarge. by destruct (half_spread price).
Qed.

Definition sign_of (x : double) : bool :=
  match x with S754_zero s | S754_infinity s | S754_finite s _ _ => s | S754_nan => false end.

Lemma has_sign_of x : is_finite x = true -> has_sign (sign_of x) x = true.
Proof. destruct x; simpl; try done. intros _. apply Bool.eqb_reflx. Qed.

(** The order with zero gives the sign. *)
Lemma dleb_zero_sign x : dleb d0 x = true -> has_sign false x = true.
Proof. by destruct x as [|[]| |[]]. Qed.

Lemma zero_dleb_sign x : dleb x d0 = true -> has_sign true x = true.
Proof. by destruct x as [|[]| |[]]. Qed.

(** [2 ^ -1010]. *)
Definition d_tiny : double := S754_finite false 4503599627370496 (-1062).

Lemma compare_exponents s m e s' m' e' : s = s' -> SFleb (S754_finite s m e) (S754_finite s' m' e') = true ->
  if s then e' <= e else e <= e'.
Proof.
  intros <-. unfold SFleb. simpl. destruct (Z.compare_spec e e') as [->|?|?], s; try done; lia.
Qed.

Lemma tiny_dleb x : is_finite x = true -> dleb d_tiny x = true ->
  exists m e, x = S754_finite false m e /\ -1062 <= e.
Proof.
  destruct x as [| | |[] m e]; try done. intros _ Hle. exists m, e. split; [done|].
  exact (compare_exponents false _ _ false _ _ eq_refl Hle).
Qed.

Lemma dleb_tiny x : is_finite x = true -> dleb x (SFopp d_tiny) = true ->
  exists m e, x = S754_finite true m e /\ -1062 <= e.
Proof.
  destruct x as [| | |[] m e]; try done. intros _ Hle. exists m, e. split; [done|].
  exact (compare_exponents true _ _ true _ _ eq_refl Hle).
Qed.
