(* ===== verification/QueueConcepts.v ===== *)
(** [src/utils/QueueConcepts.h]: the [SpscQueueStorage] concept as a type class,
    the bounded FIFO it promises, and the laws a storage owes its clients.
    [boost::lockfree::spsc_queue] is third-party code: it enters the development
    only as an instance of these classes. *)

From S2P Require Import Prelude.
From stdpp Require Import options.

(** * The abstract queue: a list of at most [cap] elements *)

Module Fifo.
Section Fifo.
Context {T : Type}.

Definition push (cap : nat) (x : T) (l : list T) : bool * list T :=
  if decide (length l < cap)%nat then (true, l ++ [x]) else (false, l).

Definition pop (item : T) (l : list T) : bool * T * list T :=
  match l with
  | [] => (false, item, [])
  | x :: l' => (true, x, l')
  end.

Definition empty (l : list T) : bool := match l with [] => true | _ => false end.
End Fifo.
End Fifo.

(** * The concept *)

(** [q_push item q] is [q.push(item)]: the returned [bool] and the queue
    afterwards. [q_pop item q] is [q.pop(item)] with [item] passed by reference:
    it also returns the value [item] holds afterwards. [None] is undefined
    behaviour. *)
Class SpscQueueStorage (Q T : Type) := {
  q_push : T -> Q -> option (bool * Q);
  q_pop : T -> Q -> option (bool * T * Q);
  q_empty : Q -> bool;
}.
#[global] Hint Mode SpscQueueStorage ! - : typeclass_instances.

Class SpscQueueLaws (Q T : Type) `{SpscQueueStorage Q T} := {
  q_capacity : nat;
  q_repr : Q -> list T -> Prop;
  q_repr_bound (q : Q) (l : list T) : q_repr q l -> (length l <= q_capacity)%nat;
  q_push_refines (q : Q) (l : list T) (x : T) :
    q_repr q l ->
    exists q', q_push x q = Some ((Fifo.push q_capacity x l).1, q') /\
               q_repr q' (Fifo.push q_capacity x l).2;
  q_pop_refines (q : Q) (l : list T) (y : T) :
    q_repr q l ->
    exists q', q_pop y q = Some ((Fifo.pop y l).1, q') /\ q_repr q' (Fifo.pop y l).2;
  q_empty_refines (q : Q) (l : list T) : q_repr q l -> q_empty q = Fifo.empty l;
}.

(** * Clients' view of the laws *)

Section Clients.
Context {Q T : Type} `{SpscQueueLaws Q T}.
Implicit Types (q : Q) (l : list T) (x y : T).

Lemma q_push_room q l x :
  q_repr q l -> (length l < q_capacity)%nat ->
  exists q', q_push x q = Some (true, q') /\ q_repr q' (l ++ [x]).
Proof using All.
  intros Hq Hlt. destruct (q_push_refines q l x Hq) as (q' & Hpush & Hq').
  unfold Fifo.push in *. rewrite decide_True in * by done. eauto.
Qed.

Lemma q_push_full q l x :
  q_repr q l -> length l = q_capacity ->
  exists q', q_push x q = Some (false, q') /\ q_repr q' l.
Proof using All.
  intros Hq Hlen. destruct (q_push_refines q l x Hq) as (q' & Hpush & Hq').
  unfold Fifo.push in *. rewrite decide_False in * by lia. eauto.
Qed.

Lemma q_pop_cons q l x y :
  q_repr q (x :: l) -> exists q', q_pop y q = Some (true, x, q') /\ q_repr q' l.
Proof using All. apply (q_pop_refines q (x :: l) y). Qed.

Lemma q_pop_nil q y :
  q_repr q [] -> exists q', q_pop y q = Some (false, y, q') /\ q_repr q' ([] : list T).
Proof using All. apply (q_pop_refines q [] y). Qed.
End Clients.

(** * The abstract queue is itself a storage *)

(** A bounded list, used to instantiate the laws at a concrete function. *)
Record ListQueue (cap : nat) (T : Type) := MkListQueue { lq_items : list T }.
#[global] Arguments MkListQueue {cap T} _.
#[global] Arguments lq_items {cap T} _.

#[export] Instance ListQueue_storage {cap T} : SpscQueueStorage (ListQueue cap T) T := {|
  q_push := fun x q =>
    let '(b, l) := Fifo.push cap x (lq_items q) in Some (b, MkListQueue l);
  q_pop := fun y q =>
    let '(r, l) := Fifo.pop y (lq_items q) in Some (r, MkListQueue l);
  q_empty := fun q => Fifo.empty (lq_items q);
|}.

#[export] Program Instance ListQueue_laws {cap T} : SpscQueueLaws (ListQueue cap T) T := {|
  q_capacity := cap;
  q_repr := fun q l => lq_items q = l /\ (length l <= cap)%nat;
|}.
Next Obligation. by intros cap T q l []. Qed.
Next Obligation.
  intros cap T q l x [<- Hlen]; simpl. unfold Fifo.push.
  case_decide; eexists; (split; [done|]); simpl; rewrite ?length_app; simpl;
    split; (done || lia).
Qed.
Next Obligation.
  intros cap T q l y [<- Hlen]; simpl. unfold Fifo.pop.
  destruct (lq_items q); eexists; (split; [done|]); simpl in *; split; (done || lia).
Qed.
Next Obligation. by intros cap T q l [<- _]. Qed.

(** * Sequences of calls *)

Inductive queue_op (T : Type) := OpPush (x : T) | OpPop (item : T) | OpEmpty.
#[global] Arguments OpPush {T}.
#[global] Arguments OpPop {T}.
#[global] Arguments OpEmpty {T}.

(** What a call gives back: the [bool] of [push], the [bool] and the item of
    [pop], the answer of [empty]. *)
Inductive queue_res (T : Type) := ResPush (b : bool) | ResPop (b : bool) (item : T) | ResEmpty (b : bool).
#[global] Arguments ResPush {T}.
#[global] Arguments ResPop {T}.
#[global] Arguments ResEmpty {T}.

Section Calls.
Context {Q T : Type} `{SpscQueueStorage Q T}.

Definition call (op : queue_op T) (q : Q) : option (queue_res T * Q) :=
  match op with
  | OpPush x => '(b, q') ← q_push x q; Some (ResPush b, q')
  | OpPop y => '(b, x, q') ← q_pop y q; Some (ResPop b x, q')
  | OpEmpty => Some (ResEmpty (q_empty q), q)
  end.

Fixpoint calls (ops : list (queue_op T)) (q : Q) : option (list (queue_res T) * Q) :=
  match ops with
  | [] => Some ([], q)
  | op :: ops' =>
      '(res, q1) ← call op q;
      '(results, q2) ← calls ops' q1;
      Some (res :: results, q2)
  end.
End Calls.

(** The same calls on the abstract FIFO. *)
Section FifoCalls.
Context {T : Type} (cap : nat).

Definition fifo_call (op : queue_op T) (l : list T) : queue_res T * list T :=
  match op with
  | OpPush x => let '(b, l') := Fifo.push cap x l in (ResPush b, l')
  | OpPop y => let '(b, x, l') := Fifo.pop y l in (ResPop b x, l')
  | OpEmpty => (ResEmpty (Fifo.empty l), l)
  end.

Fixpoint fifo_calls (ops : list (queue_op T)) (l : list T) : list (queue_res T) * list T :=
  match ops with
  | [] => ([], l)
  | op :: ops' =>
      let '(res, l1) := fifo_call op l in
      let '(results, l2) := fifo_calls ops' l1 in
      (res :: results, l2)
  end.
End FifoCalls.

Section CallsRefine.
Context {Q T : Type} `{SpscQueueLaws Q T}.

Lemma call_refines (op : queue_op T) (q : Q) (l : list T) :
  q_repr q l ->
  exists q', call op q = Some ((fifo_call q_capacity op l).1, q') /\
             q_repr q' (fifo_call q_capacity op l).2.
Proof using All.
  intros Hq. destruct op as [x|y|]; simpl.
  - destruct (q_push_refines q l x Hq) as (q' & -> & Hq').
    destruct (Fifo.push q_capacity x l) as [b l'] eqn:E; simpl in *. eauto.
  - destruct (q_pop_refines q l y Hq) as (q' & -> & Hq').
    destruct (Fifo.pop y l) as [[b x] l'] eqn:E; simpl in *. eauto.
  - exists q. by rewrite (q_empty_refines q l Hq).
Qed.

(** Every sequence of calls returns what the FIFO returns. *)
Lemma calls_refine (ops : list (queue_op T)) (q : Q) (l : list T) :
  q_repr q l ->
  exists q', calls ops q = Some ((fifo_calls q_capacity ops l).1, q') /\
             q_repr q' (fifo_calls q_capacity ops l).2.
Proof using All.
  revert q l; induction ops as [|op ops IH]; intros q l Hq; simpl; [by eauto|].
  destruct (call_refines op q l Hq) as (q1 & -> & Hq1).
  destruct (fifo_call q_capacity op l) as [res l1]; simpl in *.
  destruct (IH q1 l1 Hq1) as (q2 & -> & Hq2).
  destruct (fifo_calls q_capacity ops l1) as [results l2]; simpl in *. eauto.
Qed.
End CallsRefine.
