(* ===== verification/CustomSpscQueue.v ===== *)
(** [src/utils/CustomSpscQueue.h]: the ring buffer with free-running 64-bit
    counters, run by one thread at a time. [SpscConcurrency.v] interleaves a
    producer and a consumer. *)

From S2P Require Import Prelude QueueConcepts.
From stdpp Require Import options.

Module CustomSpscQueue.
(** [read_] and [write_] are [std::atomic<std::size_t>] counters; a slot of
  [data_] is raw storage ([None]) or holds a constructed object. *)
Record t (T : Type) (Capacity : Z) :=
  Make { read_ : Z; write_ : Z; data_ : list (option T) }.
#[global] Arguments Make {T Capacity}.
#[global] Arguments read_ {T Capacity}.
#[global] Arguments write_ {T Capacity}.
#[global] Arguments data_ {T Capacity}.

Definition slot (Capacity counter : Z) : nat := Z.to_nat (counter mod Capacity).
#[global] Arguments slot Capacity counter : simpl never.

Section Ops.
Context {T : Type} {Capacity : Z}.

(** The constructor allocates [Capacity] raw slots. *)
Definition init : t T Capacity := Make 0 0 (replicate (Z.to_nat Capacity) None).

Definition push (item : T) (q : t T Capacity) : option (bool * t T Capacity) :=
  let w := write_ q in
  let r := read_ q in
  if u64 (w - r) =? Capacity then Some (false, q)
  else Some (true, Make r (u64 (w + 1)) (<[slot Capacity w := Some item]> (data_ q))).

(** Moving from a raw slot is undefined. *)
Definition pop (item : T) (q : t T Capacity) : option (bool * T * t T Capacity) :=
  let r := read_ q in
  let w := write_ q in
  if r =? w then Some (false, item, q)
  else
  match data_ q !! slot Capacity r with
  | Some (Some x) => Some (true, x, Make (u64 (r + 1)) w (<[slot Capacity r := None]> (data_ q)))
  | _ => None
  end.

Definition empty (q : t T Capacity) : bool := read_ q =? write_ q.

(** [while (r < w) { destroy_at(data_ + r % RealCapacity); r++; }]; destroying
a raw slot is undefined. *)
Fixpoint destroy_loop (fuel : nat) (r w : Z) (data : list (option T)) :
  option (list (option T)) :=
  match fuel with
  | O => if r <? w then None else Some data
  | S fuel' =>
    if r <? w then
      match data !! slot Capacity r with
      | Some (Some _) => destroy_loop fuel' (u64 (r + 1)) w (<[slot Capacity r := None]> data)
      | _ => None
      end
    else Some data
  end.

(** The destructor: the slots after it ran. Each turn increments [r], so
[write_ - read_] turns are enough. *)
Definition destroy (q : t T Capacity) : option (list (option T)) :=
  destroy_loop (Z.to_nat (write_ q - read_ q)) (read_ q) (write_ q) (data_ q).
End Ops.
#[global] Arguments destroy_loop {T} Capacity fuel r w data.
#[global] Arguments init {T} Capacity.

(** * Representation *)

Section Repr.
Context {T : Type} (Capacity : Z).
Context (Hpos : 0 < Capacity) (Hdiv : (Capacity | 2 ^ 64)) (Hlt : Capacity < 2 ^ 64).
Implicit Types (q : t T Capacity) (l : list T).

(** [q] holds the elements [l], oldest first: slot [(read_ + i) % Capacity]
holds element [i], the other slots are raw. *)
Record repr q l : Prop := {
  repr_read : 0 <= read_ q < 2 ^ 64;
  repr_write : write_ q = u64 (read_ q + Z.of_nat (length l));
  repr_len : Z.of_nat (length l) <= Capacity;
  repr_data : Z.of_nat (length (data_ q)) = Capacity;
  repr_slots : forall i : nat, Z.of_nat i < Capacity ->
  data_ q !! slot Capacity (read_ q + Z.of_nat i) = Some (l !! i);
}.

Lemma slot_lt c : (Z.of_nat (slot Capacity c) < Capacity).
Proof using Hpos.
  unfold slot. pose proof (Z.mod_pos_bound c Capacity Hpos). lia.
Qed.

Lemma slot_inj c (i j : nat) :
  Z.of_nat i < Capacity -> Z.of_nat j < Capacity ->
  slot Capacity (c + Z.of_nat i) = slot Capacity (c + Z.of_nat j) -> i = j.
Proof using Hpos.
  intros Hi Hj Heq. unfold slot in Heq.
  pose proof (Z.mod_pos_bound (c + Z.of_nat i) Capacity Hpos).
  pose proof (Z.mod_pos_bound (c + Z.of_nat j) Capacity Hpos).
  assert (Hmod : (c + Z.of_nat i) mod Capacity = (c + Z.of_nat j) mod Capacity) by lia.
  rewrite (Z.mod_eq (c + Z.of_nat i)), (Z.mod_eq (c + Z.of_nat j)) in Hmod by lia.
  set (d := (c + Z.of_nat i) / Capacity - (c + Z.of_nat j) / Capacity).
  assert (Z.of_nat i - Z.of_nat j = Capacity * d) by (subst d; lia).
  assert (d = 0) by nia. lia.
Qed.

Lemma slot_u64 c : slot Capacity (u64 c) = slot Capacity c.
Proof using Hpos Hdiv. unfold slot. by rewrite u64_mod_divide. Qed.

Lemma slot_u64_add c d : slot Capacity (u64 c + d) = slot Capacity (c + d).
Proof using Hpos Hdiv. by rewrite <- slot_u64, u64_add_l, slot_u64. Qed.

(** One turn of the ring. *)
Lemma slot_add_capacity c : slot Capacity (c + Capacity) = slot Capacity c.
Proof using Hpos.
  unfold slot. by rewrite <- (Z.mul_1_l Capacity) at 1; rewrite Z.mod_add by lia.
Qed.

(** The occupancy test of [push] and the emptiness test of [pop]. *)
Lemma repr_occupancy q l : repr q l -> u64 (write_ q - read_ q) = Z.of_nat (length l).
Proof using Hlt.
  intros [Hr -> Hlen _ _]. rewrite <- (u64_small (read_ q) Hr) at 2.
  rewrite u64_sub. rewrite u64_small; lia.
Qed.

Lemma repr_read_eq_write q l : repr q l -> (read_ q =? write_ q) = Fifo.empty l.
Proof using Hlt.
  intros Hq. pose proof (repr_occupancy q l Hq) as Hocc. destruct Hq as [Hr Hw Hlen _ _].
  destruct l as [|x l]; simpl in *.
  - rewrite Hw, Z.add_0_r, u64_small by done. apply Z.eqb_refl.
  - apply Z.eqb_neq. intros Heq. rewrite <- Heq, Z.sub_diag in Hocc. discriminate.
Qed.

Lemma repr_slot_write q l :
  repr q l -> slot Capacity (write_ q) = slot Capacity (read_ q + Z.of_nat (length l)).
Proof using Hpos Hdiv. intros []. rewrite repr_write0. by apply slot_u64. Qed.

(** An empty ring may have turned. *)
Lemma repr_empty q : 0 <= read_ q < 2 ^ 64 -> write_ q = read_ q -> data_ q = replicate (Z.to_nat Capacity) None ->
  repr q [].
Proof using Hpos.
  intros Hr Hw Hd. split; simpl; rewrite ?Hd, ?length_replicate; try (done || lia).
  - by rewrite Hw, Z.add_0_r, u64_small.
  - intros i Hi. apply lookup_replicate_2. pose proof (slot_lt (read_ q + Z.of_nat i)). lia.
Qed.

Lemma repr_init : repr (init Capacity) [].
Proof using Hpos. by apply repr_empty. Qed.

(** Every slot is reached from [read_]. *)
Lemma slot_surj c (s : nat) :
  Z.of_nat s < Capacity -> exists i : nat, Z.of_nat i < Capacity /\ slot Capacity (c + Z.of_nat i) = s.
Proof using Hpos.
  intros Hs. exists (Z.to_nat ((Z.of_nat s - c) mod Capacity)).
  pose proof (Z.mod_pos_bound (Z.of_nat s - c) Capacity Hpos) as Hb.
  split; [lia|]. unfold slot. rewrite Z2Nat.id by lia.
  rewrite Zplus_mod_idemp_r. replace (c + (Z.of_nat s - c)) with (Z.of_nat s) by lia.
  rewrite Z.mod_small by lia. lia.
Qed.

Lemma repr_nil_data q : repr q [] -> data_ q = replicate (Z.to_nat Capacity) None.
Proof using Hpos.
  intros Hq. pose proof (repr_data _ _ Hq) as Hlen.
  apply list_eq_same_length with (n := Z.to_nat Capacity); rewrite ?length_replicate; [lia..|].
  intros s x y Hs Hx Hy. apply lookup_replicate in Hy as [-> _].
  destruct (slot_surj (read_ q) s ltac:(lia)) as (i & Hi & <-).
  rewrite (repr_slots _ _ Hq i Hi) in Hx. by injection Hx.
Qed.

Lemma push_full q l x :
  repr q l -> Z.of_nat (length l) = Capacity -> push x q = Some (false, q).
Proof using Hlt.
  intros Hq Hlen. unfold push. by rewrite (repr_occupancy q l), Hlen, Z.eqb_refl.
Qed.

Lemma repr_push_slots q l x (i : nat) :
  repr q l -> Z.of_nat (length l) < Capacity -> Z.of_nat i < Capacity ->
  <[slot Capacity (write_ q) := Some x]> (data_ q) !! slot Capacity (read_ q + Z.of_nat i)
  = Some ((l ++ [x]) !! i).
Proof using Hpos Hdiv.
  intros Hq Hroom Hi. rewrite (repr_slot_write q l) by done.
  destruct (decide (i = length l)) as [->|Hne].
  - rewrite list_lookup_insert_eq; [by rewrite list_lookup_middle|].
    pose proof (slot_lt (read_ q + Z.of_nat (length l))).
    destruct Hq. lia.
  - rewrite list_lookup_insert_ne; [|intros E; apply Hne; symmetry].
    + rewrite (repr_slots q l Hq i Hi). f_equal.
      destruct (decide (i < length l)%nat).
      * by rewrite lookup_app_l.
      * rewrite !lookup_ge_None_2; rewrite ?length_app; simpl; (done || lia).
    + by apply (slot_inj (read_ q)).
Qed.

Lemma push_room q l x :
  repr q l -> Z.of_nat (length l) < Capacity ->
  exists q', push x q = Some (true, q') /\ repr q' (l ++ [x]).
Proof using All.
  intros Hq Hroom. unfold push. rewrite (repr_occupancy q l Hq).
  rewrite (proj2 (Z.eqb_neq _ _)) by lia. eexists; split; [done|].
  split; simpl; rewrite ?length_insert, ?length_app; simpl.
  - by destruct Hq.
  - rewrite (repr_write q l Hq), u64_add_l. f_equal. lia.
  - lia.
  - by destruct Hq.
  - intros i Hi. by apply repr_push_slots.
Qed.

Lemma pop_nil q y : repr q [] -> pop y q = Some (false, y, q).
Proof using Hlt. intros Hq. unfold pop. by rewrite (repr_read_eq_write q [] Hq). Qed.

Lemma repr_pop_slots q x l (i : nat) :
  repr q (x :: l) -> Z.of_nat i < Capacity ->
  <[slot Capacity (read_ q) := None]> (data_ q) !! slot Capacity (u64 (read_ q + 1) + Z.of_nat i)
  = Some (l !! i).
Proof using All.
  intros Hq Hi. rewrite slot_u64_add by done.
  pose proof (slot_lt (read_ q)).
  pose proof (repr_len _ _ Hq) as Hlen; pose proof (repr_data _ _ Hq); simpl in Hlen.
  destruct (decide (Z.of_nat (S i) = Capacity)) as [Hlast|Hne].
  - replace (read_ q + 1 + Z.of_nat i) with (read_ q + Capacity) by lia.
    rewrite slot_add_capacity by done. rewrite list_lookup_insert_eq by lia.
    rewrite lookup_ge_None_2; [done|lia].
  - replace (read_ q + 1 + Z.of_nat i) with (read_ q + Z.of_nat (S i)) by lia.
    rewrite list_lookup_insert_ne.
    + rewrite (repr_slots _ _ Hq) by lia. done.
    + intros E. discriminate (slot_inj (read_ q) 0 (S i) Hpos ltac:(lia)
        ltac:(by rewrite Z.add_0_r)).
Qed.

Lemma pop_cons q x l y :
  repr q (x :: l) -> exists q', pop y q = Some (true, x, q') /\ repr q' l.
Proof using All.
  intros Hq. unfold pop. rewrite (repr_read_eq_write q _ Hq). simpl.
  pose proof (repr_slots _ _ Hq 0 Hpos) as H0. rewrite Z.add_0_r in H0. rewrite H0. simpl.
  eexists; split; [done|].
  split; simpl; rewrite ?length_insert.
  - apply u64_range.
  - rewrite (repr_write _ _ Hq), u64_add_l. f_equal. simpl. lia.
  - pose proof (repr_len _ _ Hq). simpl in *. lia.
  - by destruct Hq.
  - intros i Hi. by apply repr_pop_slots with x.
Qed.

(** * The destructor *)

(** Without a wrapped [write_] the destructor destroys exactly the elements
left in the queue. *)
Lemma destroy_loop_all l q fuel :
  repr q l -> read_ q + Z.of_nat (length l) < 2 ^ 64 -> (length l <= fuel)%nat ->
  exists data, destroy_loop Capacity fuel (read_ q) (write_ q) (data_ q) = Some data /\
  repr (Make (write_ q) (write_ q) data : t T Capacity) [].
Proof using All.
  revert q fuel; induction l as [|x l IH]; intros q fuel Hq Hnowrap Hfuel; simpl in *.
  - pose proof (repr_write _ _ Hq) as Hw; pose proof (repr_read _ _ Hq) as Hr.
    simpl in Hw. rewrite Z.add_0_r, u64_small in Hw by done.
    exists (data_ q). split.
    + rewrite Hw. destruct fuel; simpl; by rewrite Z.ltb_irrefl.
    + destruct q as [r w d]; simpl in *. by subst.
  - destruct fuel as [|fuel]; [lia|]. simpl.
    pose proof (repr_write _ _ Hq) as Hw; pose proof (repr_read _ _ Hq) as Hr.
    simpl in Hw. rewrite u64_small in Hw by lia.
    rewrite (proj2 (Z.ltb_lt _ _)) by lia.
    pose proof (repr_slots _ _ Hq 0 Hpos) as H0. rewrite Z.add_0_r in H0. rewrite H0. simpl.
    destruct (pop_cons q x l x Hq) as (q' & Hpop & Hq').
    unfold pop in Hpop. rewrite (repr_read_eq_write q _ Hq) in Hpop. simpl in Hpop.
    rewrite H0 in Hpop. simpl in Hpop. injection Hpop as <-.
    apply (IH _ fuel Hq'); simpl; [|lia].
    rewrite u64_small by lia. lia.
Qed.
End Repr.

(** * The storage concept *)

(** The capacities for which the counters may wrap: [std::size_t] arithmetic
  modulo [2 ^ 64] then agrees with the ring. *)
Class RingCapacity (c : Z) : Prop := {
  ring_pos : 0 < c;
  ring_div : (c | 2 ^ 64);
  ring_lt : c < 2 ^ 64;
}.

#[global] Instance storage {T} {Capacity : Z} : SpscQueueStorage (t T Capacity) T := {|
  q_push := push;
  q_pop := pop;
  q_empty := empty;
|}.

#[global] Program Instance laws {T} {Capacity : Z} `{!RingCapacity Capacity} :
    SpscQueueLaws (t T Capacity) T := {|
  q_capacity := Z.to_nat Capacity;
  q_repr := repr Capacity;
|}.
Next Obligation. intros T C [] q l []. lia. Qed.
Next Obligation.
  intros T C [] q l x Hq. unfold Fifo.push. pose proof (repr_len _ _ _ Hq).
  case_decide; simpl.
  - apply push_room; auto; lia.
  - exists q. split; [apply (push_full C ring_lt0 q l x Hq)|done]. lia.
Qed.
Next Obligation.
  intros T C [] q [|x l] y Hq; simpl; unfold Fifo.pop.
  - exists q. split; [by apply (pop_nil C)|done].
  - by apply pop_cons.
Qed.
Next Obligation. intros T C [] q l Hq. by apply (repr_read_eq_write C). Qed.

(** The ring sizes the program instantiates: [dispatch_size]'s and the
  128-slot command queue of [UdpFeedHandler]. *)
Lemma ring_capacity_pow2 (k : Z) : 0 <= k < 64 -> RingCapacity (2 ^ k).
Proof.
  intros Hk. split; [by apply Z.pow_pos_nonneg; lia| |by apply Z.pow_lt_mono_r; lia].
  exists (2 ^ (64 - k)). rewrite <- Z.pow_add_r by lia. f_equal. lia.
Qed.

#[global] Instance ring_128 : RingCapacity 128 := ring_capacity_pow2 7 ltac:(lia).
#[global] Instance ring_512 : RingCapacity 512 := ring_capacity_pow2 9 ltac:(lia).
#[global] Instance ring_1024 : RingCapacity 1024 := ring_capacity_pow2 10 ltac:(lia).
#[global] Instance ring_4096 : RingCapacity 4096 := ring_capacity_pow2 12 ltac:(lia).
#[global] Instance ring_16384 : RingCapacity 16384 := ring_capacity_pow2 14 ltac:(lia).
#[global] Instance ring_65536 : RingCapacity 65536 := ring_capacity_pow2 16 ltac:(lia).

(** The laws in terms of [push] and [pop]. *)
Lemma ring_push {T} (Capacity : Z) `{Hring : !RingCapacity Capacity} (q : t T Capacity) (l : list T) (x : T) :
  repr Capacity q l ->
  exists q', push x q = Some ((Fifo.push (Z.to_nat Capacity) x l).1, q') /\
             repr Capacity q' (Fifo.push (Z.to_nat Capacity) x l).2.
Proof. exact (q_push_refines q l x). Qed.

Lemma ring_pop {T} (Capacity : Z) `{Hring : !RingCapacity Capacity} (q : t T Capacity) (l : list T) (y : T) :
  repr Capacity q l ->
  exists q', pop y q = Some ((Fifo.pop y l).1, q') /\ repr Capacity q' (Fifo.pop y l).2.
Proof. exact (q_pop_refines q l y). Qed.
End CustomSpscQueue.

(** * Properties *)

(** A queue whose counters both read [c] and that holds nothing. *)
Definition empty_at {T} (Capacity c : Z) : CustomSpscQueue.t T Capacity :=
  CustomSpscQueue.Make c c (replicate (Z.to_nat Capacity) None).

Lemma repr_empty_at {T} (Capacity c : Z) `{Hring : !CustomSpscQueue.RingCapacity Capacity} :
  0 <= c < 2 ^ 64 -> CustomSpscQueue.repr Capacity (empty_at (T:=T) Capacity c) [].
Proof.
  destruct Hring as [Hpos Hdiv Hlt]. intros Hc.
  split; simpl; rewrite ?length_replicate, ?Z.add_0_r, ?u64_small; try (done || lia).
  intros i Hi. apply lookup_replicate_2.
  pose proof (CustomSpscQueue.slot_lt Capacity Hpos (c + Z.of_nat i)). lia.
Qed.

Lemma ring_calls {T} (Capacity c : Z) `{Hring : !CustomSpscQueue.RingCapacity Capacity}
    (ops : list (queue_op T)) :
  0 <= c < 2 ^ 64 ->
  exists q', calls ops (empty_at Capacity c) =
               Some ((fifo_calls (Z.to_nat Capacity) ops []).1, q') /\
             CustomSpscQueue.repr Capacity q' (fifo_calls (Z.to_nat Capacity) ops []).2.
Proof.
  intros Hc. exact (calls_refine ops (empty_at Capacity c) [] (repr_empty_at Capacity c Hc)).
Qed.

(** C3: whatever values the free-running counters have reached, a ring whose
    capacity divides [2 ^ 64] answers every sequence of [push], [pop] and
    [empty] calls as a FIFO bounded by that capacity does; in particular no call
    reads a raw slot. *)
Theorem ring_refines_fifo {T} (Capacity c : Z) `{Hring : !CustomSpscQueue.RingCapacity Capacity}
    (ops : list (queue_op T)) :
  0 <= c < 2 ^ 64 ->
  exists q', calls ops (empty_at Capacity c) =
               Some ((fifo_calls (Z.to_nat Capacity) ops []).1, q') /\
             CustomSpscQueue.repr Capacity q' (fifo_calls (Z.to_nat Capacity) ops []).2.
Proof. exact (ring_calls Capacity c ops). Qed.

(** The counters start three calls before they wrap. *)
Lemma ring_refines_fifo_witness :
  exists q', calls [OpPush 1; OpPush 2; OpPush 3; OpPush 4; OpPop 0; OpPop 0; OpEmpty]
               (empty_at 128 (2 ^ 64 - 3)) =
             Some ([ResPush true; ResPush true; ResPush true; ResPush true;
                    ResPop true 1; ResPop true 2; ResEmpty false], q') /\
             CustomSpscQueue.repr 128 q' [3; 4].
Proof.
  apply (ring_refines_fifo 128 (2 ^ 64 - 3)
           [OpPush 1; OpPush 2; OpPush 3; OpPush 4; OpPop 0; OpPop 0; OpEmpty]). lia.
Defined.

(** The destructor destroys every element left in the queue and no raw
    slot, as long as [write_] has not wrapped past [read_]. *)
Theorem destroy_destroys_all {T} (Capacity : Z) `{Hring : !CustomSpscQueue.RingCapacity Capacity}
    (q : CustomSpscQueue.t T Capacity) (l : list T) :
  CustomSpscQueue.repr Capacity q l -> CustomSpscQueue.read_ q + Z.of_nat (length l) < 2 ^ 64 ->
  CustomSpscQueue.destroy q = Some (replicate (Z.to_nat Capacity) None).
Proof.
  destruct Hring as [Hpos Hdiv Hlt]. intros Hq Hnowrap. unfold CustomSpscQueue.destroy.
  pose proof (CustomSpscQueue.repr_write _ _ _ Hq) as Hw.
  pose proof (CustomSpscQueue.repr_read _ _ _ Hq) as Hr.
  rewrite u64_small in Hw by lia.
  destruct (CustomSpscQueue.destroy_loop_all Capacity Hpos Hdiv Hlt l q
              (Z.to_nat (CustomSpscQueue.write_ q - CustomSpscQueue.read_ q)))
    as (data & -> & Hdata); [done..|lia|].
  f_equal. by apply (CustomSpscQueue.repr_nil_data Capacity Hpos) in Hdata.
Qed.

Lemma destroy_destroys_all_witness :
  exists q : CustomSpscQueue.t Z 128,
    calls [OpPush 7; OpPush 8; OpPop 0] (CustomSpscQueue.init 128) =
      Some ([ResPush true; ResPush true; ResPop true 7], q) /\
    CustomSpscQueue.destroy q = Some (replicate (Z.to_nat 128) None).
Proof.
  destruct (ring_calls 128 0 [OpPush 7; OpPush 8; OpPop 0] ltac:(lia)) as (q & Hcalls & Hq).
  exists q. split; [exact Hcalls|].
  apply (destroy_destroys_all 128 q [8]); [exact Hq|].
  vm_compute in Hcalls. injection Hcalls as <-. vm_compute. done.
Defined.

(** C38: the destructor's test [r < w] fails when [write_] has wrapped and
    [read_] has not: it then returns without destroying any of the elements the
    queue still holds. *)
Theorem destroy_wrapped_leaks {T} (Capacity : Z) `{Hring : !CustomSpscQueue.RingCapacity Capacity}
    (q : CustomSpscQueue.t T Capacity) (l : list T) :
  CustomSpscQueue.repr Capacity q l ->
  2 ^ 64 <= CustomSpscQueue.read_ q + Z.of_nat (length l) ->
  exists data, CustomSpscQueue.destroy q = Some data /\
    forall (i : nat) (x : T), l !! i = Some x ->
      data !! CustomSpscQueue.slot Capacity (CustomSpscQueue.read_ q + Z.of_nat i) = Some (Some x).
Proof.
  destruct Hring as [Hpos Hdiv Hlt]. intros Hq Hwrap.
  pose proof (CustomSpscQueue.repr_write _ _ _ Hq) as Hw.
  pose proof (CustomSpscQueue.repr_read _ _ _ Hq) as Hr.
  pose proof (CustomSpscQueue.repr_len _ _ _ Hq) as Hlen.
  assert (Hwv : CustomSpscQueue.write_ q =
                CustomSpscQueue.read_ q + Z.of_nat (length l) - 2 ^ 64).
  { rewrite Hw. unfold u64. symmetry. apply Z.mod_unique_pos with 1; lia. }
  exists (CustomSpscQueue.data_ q). split.
  - unfold CustomSpscQueue.destroy.
    destruct (Z.to_nat _); simpl; by rewrite (proj2 (Z.ltb_ge _ _)) by lia.
  - intros i x Hx. rewrite (CustomSpscQueue.repr_slots _ _ _ Hq).
    + by rewrite Hx.
    + apply lookup_lt_Some in Hx. lia.
Qed.

Lemma destroy_wrapped_leaks_witness :
  exists q : CustomSpscQueue.t Z 128,
    calls [OpPush 7; OpPush 8] (empty_at 128 (2 ^ 64 - 1)) =
      Some ([ResPush true; ResPush true], q) /\
    exists data, CustomSpscQueue.destroy q = Some data /\
      forall (i : nat) (x : Z), [7; 8] !! i = Some x ->
        data !! CustomSpscQueue.slot 128 (2 ^ 64 - 1 + Z.of_nat i) = Some (Some x).
Proof.
  destruct (ring_calls 128 (2 ^ 64 - 1) [OpPush 7; OpPush 8] ltac:(lia)) as (q & Hcalls & Hq).
  exists q. split; [exact Hcalls|].
  assert (Hread : CustomSpscQueue.read_ q = 2 ^ 64 - 1).
  { vm_compute in Hcalls. injection Hcalls as <-. vm_compute. done. }
  rewrite <- Hread. apply (destroy_wrapped_leaks 128 q [7; 8]); [exact Hq|].
  rewrite Hread. simpl. lia.
Defined.

(** The condition on the capacity is needed. In a ring of 10 slots whose
    counters wrap while ten elements are queued, [push] accepts the ten and
    overwrites four of them: the first [pop] returns the seventh element. *)
Theorem ring_of_10_overwrites :
  calls (map OpPush [0; 1; 2; 3; 4; 5; 6; 7; 8; 9] ++ [OpPop 100])
        (empty_at 10 (2 ^ 64 - 6)) =
  Some (replicate 10 (ResPush true) ++ [ResPop true 6],
        CustomSpscQueue.Make (2 ^ 64 - 5) 4
          [None; Some 7; Some 8; Some 9; Some 4; Some 5; None; None; None; None]).
Proof. vm_compute. reflexivity. Qed.
