(* ===== verification/SpscConcurrency.v ===== *)
(** [CustomSpscQueue::push] and [pop] run by two threads: the atomic and
    non-atomic accesses of both functions interleave, an acquire load may return
    an old value of the other thread's counter, and every access to a slot is
    checked for a data race. *)

From S2P Require Import Prelude QueueConcepts CustomSpscQueue.
From stdpp Require Import options.

(** * The two-thread machine *)

Section Machine.
Context {T : Type} (Capacity : Z).

(** A slot of [data_]: the object in it, if any, and the stamps of the last
    access by each thread. A stamp is the position, in the modification order
    of that thread's counter, of the release store that publishes the access. *)
Record cell := Cell { content : option T; prod_stamp : nat; cons_stamp : nat }.

(** Where [push(item)] stands; [w] is the local copy of [write_]. *)
Inductive producer :=
  | PIdle
  | PLoaded (item : T) (w : Z)    (* after [w = write_.load(relaxed)] *)
  | PReady (item : T) (w : Z)     (* after the fullness test *)
  | PBuilt (item : T) (w : Z).    (* after [construct_at] *)

(** Where [pop(item)] stands; [r] is the local copy of [read_]. *)
Inductive consumer :=
  | CIdle
  | CLoaded (r : Z)               (* after [r = read_.load(relaxed)] *)
  | CReady (r : Z)                (* after the emptiness test *)
  | CMoved (r : Z) (item : T)     (* after [item = std::move(data_[idx])] *)
  | CDestroyed (r : Z) (item : T). (* after [destroy_at] *)

(** [read_] and [write_] are modification orders: all the values the counter
    has held, oldest first. A view is the position of the last value of the
    other thread's counter that a thread has read. [pushed] and [popped] record
    the items of the calls that returned [true]. *)
Record state := State {
  read_ : list Z;
  write_ : list Z;
  data_ : list cell;
  prod : producer;
  prod_view : nat;
  cons : consumer;
  cons_view : nat;
  pushed : list T;
  popped : list T;
  fault : bool;
}.

Definition start : state :=
  State [0] [0] (replicate (Z.to_nat Capacity) (Cell None 0 0)) PIdle 0 CIdle 0 [] [] false.

Definition with_prod (p : producer) (v : nat) (s : state) : state :=
  State (read_ s) (write_ s) (data_ s) p v (cons s) (cons_view s) (pushed s) (popped s) (fault s).
Definition with_cons (c : consumer) (v : nat) (s : state) : state :=
  State (read_ s) (write_ s) (data_ s) (prod s) (prod_view s) c v (pushed s) (popped s) (fault s).
Definition with_cell (i : nat) (c : cell) (f : bool) (s : state) : state :=
  State (read_ s) (write_ s) (<[i := c]> (data_ s)) (prod s) (prod_view s) (cons s) (cons_view s)
        (pushed s) (popped s) (fault s || f).
Definition store_write (w : Z) (item : T) (s : state) : state :=
  State (read_ s) (write_ s ++ [w]) (data_ s) (prod s) (prod_view s) (cons s) (cons_view s)
        (pushed s ++ [item]) (popped s) (fault s).
Definition store_read (r : Z) (item : T) (s : state) : state :=
  State (read_ s ++ [r]) (write_ s) (data_ s) (prod s) (prod_view s) (cons s) (cons_view s)
        (pushed s) (popped s ++ [item]) (fault s).

(** One access of one thread. [PLoadR i] and [CLoadW i] are the acquire loads:
    coherence lets them return any value not older than the thread's view. *)
Inductive label :=
  | PCall (item : T) | PLoadR (i : nat) | PConstruct | PPublish
  | CCall | CLoadW (i : nat) | CMove | CDestroy | CPublish.

(** A thread may touch a slot only if it has read a counter value that
    publishes the other thread's last access to it. *)
Definition prod_races (c : cell) (s : state) : bool := bool_decide (prod_view s < cons_stamp c)%nat.
Definition cons_races (c : cell) (s : state) : bool := bool_decide (cons_view s < prod_stamp c)%nat.

Definition push_step (l : label) (s : state) : option state :=
  match l, prod s with
  | PCall item, PIdle =>
      w ← last (write_ s);
      Some (with_prod (PLoaded item w) (prod_view s) s)
  | PLoadR i, PLoaded item w =>
      r ← read_ s !! i;
      if bool_decide (i < prod_view s)%nat then None
      else if u64 (w - r) =? Capacity then Some (with_prod PIdle i s)
      else Some (with_prod (PReady item w) i s)
  | PConstruct, PReady item w =>
      let idx := CustomSpscQueue.slot Capacity w in
      c ← data_ s !! idx;
      Some (with_prod (PBuilt item w) (prod_view s)
              (with_cell idx (Cell (Some item) (length (write_ s)) (cons_stamp c))
                 (prod_races c s || bool_decide (is_Some (content c))) s))
  | PPublish, PBuilt item w =>
      Some (with_prod PIdle (prod_view s) (store_write (u64 (w + 1)) item s))
  | _, _ => None
  end.

Definition pop_step (l : label) (s : state) : option state :=
  match l, cons s with
  | CCall, CIdle =>
      r ← last (read_ s);
      Some (with_cons (CLoaded r) (cons_view s) s)
  | CLoadW i, CLoaded r =>
      w ← write_ s !! i;
      if bool_decide (i < cons_view s)%nat then None
      else if r =? w then Some (with_cons CIdle i s)
      else Some (with_cons (CReady r) i s)
  | CMove, CReady r =>
      let idx := CustomSpscQueue.slot Capacity r in
      c ← data_ s !! idx;
      match content c with
      | Some item =>
          Some (with_cons (CMoved r item) (cons_view s)
                  (with_cell idx (Cell (Some item) (prod_stamp c) (length (read_ s)))
                     (cons_races c s) s))
      | None => Some (with_cons CIdle (cons_view s) (with_cell idx c true s))
      end
  | CDestroy, CMoved r item =>
      let idx := CustomSpscQueue.slot Capacity r in
      c ← data_ s !! idx;
      Some (with_cons (CDestroyed r item) (cons_view s)
              (with_cell idx (Cell None (prod_stamp c) (length (read_ s)))
                 (cons_races c s || bool_decide (content c = None)) s))
  | CPublish, CDestroyed r item =>
      Some (with_cons CIdle (cons_view s) (store_read (u64 (r + 1)) item s))
  | _, _ => None
  end.

Definition exec (l : label) (s : state) : option state :=
  match l with
  | PCall _ | PLoadR _ | PConstruct | PPublish => push_step l s
  | CCall | CLoadW _ | CMove | CDestroy | CPublish => pop_step l s
  end.

(** The loads that read the newest value there is. *)
Definition newest (l : label) (s : state) : Prop :=
  match l with
  | PLoadR i => S i = length (read_ s)
  | CLoadW i => S i = length (write_ s)
  | _ => True
  end.

#[global] Instance newest_dec l s : Decision (newest l s).
Proof. destruct l; simpl; apply _. Defined.

Definition step : state -> state -> Prop := labelled_step exec.
Definition reachable (s : state) : Prop := rtc step start s.
End Machine.

#[global] Arguments cell T : clear implicits.
#[global] Arguments producer T : clear implicits.
#[global] Arguments consumer T : clear implicits.
#[global] Arguments state T : clear implicits.
#[global] Arguments label T : clear implicits.

(** * The abstract bounded FIFO both functions implement *)

Section Abstract.
Context {T : Type} (cap : nat).

(** The queue, and the items of the successful calls so far. *)
Record fifo_state := FifoState { items : list T; f_pushed : list T; f_popped : list T }.

Inductive fifo_step : fifo_state -> fifo_state -> Prop :=
  | fifo_push (x : T) (l ps qs : list T) :
      Fifo.push cap x l = (true, l ++ [x]) ->
      fifo_step (FifoState l ps qs) (FifoState (l ++ [x]) (ps ++ [x]) qs)
  | fifo_pop (x : T) (l ps qs : list T) :
      fifo_step (FifoState (x :: l) ps qs) (FifoState l ps (qs ++ [x])).
End Abstract.
#[global] Arguments fifo_state T : clear implicits.

(** * The invariant *)

Section Invariant.
Context {T : Type} (Capacity : Z).
Context (Hpos : 0 < Capacity) (Hdiv : (Capacity | 2 ^ 64)) (Hlt : Capacity < 2 ^ 64).
Implicit Types (s : state T) (c : cell T) (k R W : nat).
Local Abbreviation C := (Z.to_nat Capacity).
Local Abbreviation slot k := (CustomSpscQueue.slot Capacity (Z.of_nat k)).

(** The values the free-running counters take: [0], [1], ..., wrapped. *)
Definition counter_values (n : nat) : list Z := (fun i => u64 (Z.of_nat i)) <$> seq 0 (S n).

(** In the window of [C] positions that starts at [R], position [k] has a slot
    with content [expect k], last touched by the producer at stamp at most
    [k + 1] and by the consumer at stamp at most [bound k]. *)
Definition cells_ok (R : nat) (data : list (cell T)) (expect : nat -> option T) (bound : nat -> nat) : Prop :=
  forall k, (R <= k < R + C)%nat ->
    exists c, data !! slot k = Some c /\ content c = expect k /\
              (prod_stamp c <= S k)%nat /\ (cons_stamp c <= bound k)%nat.

Definition expect (s : state T) (k : nat) : option T :=
  match cons s, prod s with
  | CDestroyed _ _, PBuilt x _ =>
      if decide (k = length (popped s)) then None
      else if decide (k = length (pushed s)) then Some x else pushed s !! k
  | CDestroyed _ _, _ => if decide (k = length (popped s)) then None else pushed s !! k
  | _, PBuilt x _ => if decide (k = length (pushed s)) then Some x else pushed s !! k
  | _, _ => pushed s !! k
  end.

Definition bound (s : state T) (k : nat) : nat :=
  match cons s with
  | CMoved _ _ | CDestroyed _ _ => if decide (k = length (popped s)) then S k else (S k - C)%nat
  | _ => (S k - C)%nat
  end.

Definition prod_ok s : Prop :=
  let W := length (pushed s) in
  match prod s with
  | PIdle => True
  | PLoaded _ w => w = u64 (Z.of_nat W)
  | PReady _ w | PBuilt _ w => w = u64 (Z.of_nat W) /\ (W < prod_view s + C)%nat
  end.

Definition cons_ok s : Prop :=
  let R := length (popped s) in
  match cons s with
  | CIdle => True
  | CLoaded r => r = u64 (Z.of_nat R)
  | CReady r => r = u64 (Z.of_nat R) /\ (R < cons_view s)%nat
  | CMoved r x | CDestroyed r x =>
      r = u64 (Z.of_nat R) /\ (R < cons_view s)%nat /\ pushed s !! R = Some x
  end.

Record inv s : Prop := Inv {
  inv_read : read_ s = counter_values (length (popped s));
  inv_write : write_ s = counter_values (length (pushed s));
  inv_prod_view : (prod_view s <= length (popped s))%nat;
  inv_cons_view : (length (popped s) <= cons_view s <= length (pushed s))%nat;
  inv_room : (length (pushed s) <= prod_view s + C)%nat;
  inv_fifo : popped s = take (length (popped s)) (pushed s);
  inv_prod : prod_ok s;
  inv_cons : cons_ok s;
  inv_cells : cells_ok (length (popped s)) (data_ s) (expect s) (bound s);
  inv_fault : fault s = false;
}.

(** * Counters and slots *)

Lemma length_counter_values n : length (counter_values n) = S n.
Proof. unfold counter_values. by rewrite length_fmap, length_seq. Qed.

Lemma counter_values_S n :
  counter_values (S n) = counter_values n ++ [u64 (Z.of_nat (S n))].
Proof. unfold counter_values. by rewrite (seq_S (S n)), fmap_app. Qed.

Lemma last_counter_values n : last (counter_values n) = Some (u64 (Z.of_nat n)).
Proof. unfold counter_values. rewrite seq_S, fmap_app. exact (last_snoc _ _). Qed.

Lemma lookup_counter_values n i z :
  counter_values n !! i = Some z -> z = u64 (Z.of_nat i) /\ (i <= n)%nat.
Proof.
  unfold counter_values. rewrite list_lookup_fmap_Some.
  intros (j & -> & [-> Hj]%lookup_seq). split; [done|lia].
Qed.

Lemma slot_u64_nat k : CustomSpscQueue.slot Capacity (u64 (Z.of_nat k)) = slot k.
Proof using Hpos Hdiv. by apply CustomSpscQueue.slot_u64. Qed.

Lemma slot_window R k k' :
  (R <= k < R + C)%nat -> (R <= k' < R + C)%nat -> slot k = slot k' -> k = k'.
Proof using Hpos.
  intros Hk Hk' Heq.
  assert (k - R = k' - R)%nat; [|lia].
  apply (CustomSpscQueue.slot_inj Capacity Hpos (Z.of_nat R)); [lia..|].
  replace (Z.of_nat R + Z.of_nat (k - R)) with (Z.of_nat k) by lia.
  by replace (Z.of_nat R + Z.of_nat (k' - R)) with (Z.of_nat k') by lia.
Qed.

Lemma slot_next_turn R : slot (R + C) = slot R.
Proof using Hpos.
  rewrite Nat2Z.inj_add, Z2Nat.id by lia. by apply CustomSpscQueue.slot_add_capacity.
Qed.

(** Differences of counters within one capacity survive the wrap-around. *)
Lemma u64_diff i W : (i <= W <= i + C)%nat ->
  u64 (u64 (Z.of_nat W) - u64 (Z.of_nat i)) = Z.of_nat W - Z.of_nat i.
Proof using Hpos Hlt. intros H. rewrite u64_sub. apply u64_small. lia. Qed.

Lemma u64_counter_eqb R i : (R <= i <= R + C)%nat ->
  (u64 (Z.of_nat R) =? u64 (Z.of_nat i)) = bool_decide (i = R).
Proof using Hpos Hlt.
  intros H. case_bool_decide as E; [subst; apply Z.eqb_refl|].
  apply Z.eqb_neq. intros Heq. pose proof (u64_diff R i H) as Hd.
  rewrite Heq, Z.sub_diag in Hd. unfold u64 in Hd. rewrite Z.mod_0_l in Hd; lia.
Qed.

(** * The window *)

Lemma cells_ok_weaken R data (f f' : nat -> option T) (g g' : nat -> nat) :
  cells_ok R data f g ->
  (forall k, (R <= k < R + C)%nat -> f k = f' k /\ (g k <= g' k)%nat) ->
  cells_ok R data f' g'.
Proof using Hpos.
  intros Hok Hw k Hk. destruct (Hok k Hk) as (c & ? & ? & ? & ?).
  destruct (Hw k Hk) as [<- ?]. exists c. split_and!; (done || lia).
Qed.

(** The stamps of the cell at [R]. *)
Lemma inv_cells_stamp R data (f : nat -> option T) (g : nat -> nat) c :
  cells_ok R data f g -> data !! slot R = Some c ->
  (prod_stamp c <= S R)%nat /\ (cons_stamp c <= g R)%nat.
Proof using Hpos.
  intros Hok Hc. destruct (Hok R ltac:(lia)) as (c' & Hc' & ? & ? & ?).
  assert (c = c') as -> by congruence. done.
Qed.

Lemma cells_ok_insert R data (f f' : nat -> option T) (g g' : nat -> nat) k0 c :
  cells_ok R data f g -> (R <= k0 < R + C)%nat ->
  content c = f' k0 -> (prod_stamp c <= S k0)%nat -> (cons_stamp c <= g' k0)%nat ->
  (forall k, (R <= k < R + C)%nat -> k <> k0 -> f k = f' k /\ (g k <= g' k)%nat) ->
  cells_ok R (<[slot k0 := c]> data) f' g'.
Proof using Hpos.
  intros Hok Hk0 Hcont Hps Hcs Hframe k Hk.
  destruct (Hok k Hk) as (c' & Hc' & ? & ? & ?).
  destruct (decide (k = k0)) as [->|Hne].
  - exists c. rewrite list_lookup_insert_eq by (by eapply lookup_lt_Some). done.
  - exists c'. rewrite list_lookup_insert_ne.
    + destruct (Hframe k Hk Hne) as [<- ?]. split_and!; (done || lia).
    + intros E. apply Hne. symmetry. by eapply slot_window.
Qed.

(** The window moves on by one position: the slot of the position that leaves
    is the slot of the position that enters. *)
Lemma cells_ok_shift R data (f f' : nat -> option T) (g g' : nat -> nat) :
  cells_ok R data f g ->
  (forall k, (S R <= k < R + C)%nat -> f k = f' k /\ (g k <= g' k)%nat) ->
  f' (R + C)%nat = f R -> (g R <= g' (R + C))%nat ->
  cells_ok (S R) data f' g'.
Proof using Hpos.
  intros Hok Hframe Hf Hg k Hk. destruct (decide (k = R + C)%nat) as [->|Hne].
  - destruct (Hok R ltac:(lia)) as (c & Hc & ? & ? & ?). exists c.
    rewrite slot_next_turn. split_and!; (congruence || lia || done).
  - destruct (Hok k ltac:(lia)) as (c & ? & ? & ? & ?).
    destruct (Hframe k ltac:(lia)) as [<- ?]. exists c. split_and!; (done || lia).
Qed.

(** * Preservation *)

Lemma inv_start : inv (start Capacity).
Proof using Hpos.
  split; simpl; try (done || lia).
  intros k Hk. exists (Cell None 0 0). split_and!; simpl; try (done || lia).
  apply lookup_replicate_2. unfold CustomSpscQueue.slot.
  pose proof (Z.mod_pos_bound (Z.of_nat k) Capacity Hpos). lia.
Qed.

(** The cell a thread is about to touch. *)
Lemma inv_cell s k : inv s -> (length (popped s) <= k < length (popped s) + C)%nat ->
  exists c, data_ s !! slot k = Some c /\ content c = expect s k /\
            (prod_stamp c <= S k)%nat /\ (cons_stamp c <= bound s k)%nat.
Proof. intros Hinv. apply (inv_cells s Hinv). Qed.

(** A step that only moves the producer between points outside the slot. *)
Lemma inv_with_prod s p v :
  inv s -> (prod_view s <= v <= length (popped s))%nat ->
  (forall x w, p <> PBuilt x w) -> (forall x w, prod s <> PBuilt x w) ->
  prod_ok (with_prod p v s) -> inv (with_prod p v s).
Proof using Hpos.
  intros [] Hv Hp Hp' Hok.
  split; simpl; try (done || lia).
  eapply cells_ok_weaken; [done|]. intros k Hk. unfold expect, bound; simpl.
  destruct p, (prod s) eqn:?, (cons s); try done;
    exfalso; first [by eapply Hp | by eapply Hp'].
Qed.

(** The same for the consumer. *)
Lemma inv_with_cons s (c : consumer T) v :
  inv s -> (cons_view s <= v <= length (pushed s))%nat ->
  (c = CIdle \/ exists r, c = CLoaded r \/ c = CReady r) ->
  (cons s = CIdle \/ exists r, cons s = CLoaded r \/ cons s = CReady r) ->
  cons_ok (with_cons c v s) -> inv (with_cons c v s).
Proof using Hpos.
  intros [] Hv Hc Hc' Hok.
  split; simpl; try (done || lia).
  eapply cells_ok_weaken; [done|]. intros k Hk. unfold expect, bound; simpl.
  destruct Hc as [->|[r [-> | ->]]], Hc' as [Hc'|[r' [Hc' | Hc']]]; rewrite Hc'; done.
Qed.

Lemma inv_PCall s x s' : inv s -> exec Capacity (PCall x) s = Some s' -> inv s'.
Proof using Hpos.
  intros Hinv. simpl. unfold push_step. destruct (prod s) eqn:Hp; try done.
  rewrite (inv_write s Hinv), last_counter_values. simpl. intros [= <-].
  apply inv_with_prod; rewrite ?Hp; try done. pose proof (inv_prod_view s Hinv). lia.
Qed.

Lemma inv_PLoadR s i s' : inv s -> exec Capacity (PLoadR i) s = Some s' -> inv s'.
Proof using Hpos Hlt.
  intros Hinv. simpl. unfold push_step. destruct (prod s) as [|x w| |] eqn:Hp; try done.
  destruct (read_ s !! i) as [r|] eqn:Hr; simpl; [|done].
  case_bool_decide as Hi; [done|].
  pose proof (inv_prod s Hinv) as Hok. unfold prod_ok in Hok. rewrite Hp in Hok. subst w.
  rewrite (inv_read s Hinv) in Hr. apply lookup_counter_values in Hr as [-> Hir].
  pose proof (inv_cons_view s Hinv). pose proof (inv_room s Hinv).
  rewrite u64_diff by lia. destruct (Z.eqb_spec (Z.of_nat (length (pushed s)) - Z.of_nat i) Capacity);
    intros [= <-]; (apply inv_with_prod; rewrite ?Hp; try (done || lia)).
  split; simpl; [done|lia].
Qed.

(** A live position never expects an empty slot while the consumer is outside
    the slot, and the position [write_] stands at expects a raw one. *)
Lemma expect_write s : inv s -> (forall x w, prod s <> PBuilt x w) ->
  expect s (length (pushed s)) = None.
Proof using Hpos.
  intros Hinv Hp. unfold expect. pose proof (inv_cons s Hinv) as Hok. unfold cons_ok in Hok.
  assert (pushed s !! length (pushed s) = None) by (apply lookup_ge_None_2; lia).
  destruct (cons s), (prod s) eqn:?; try done; try (exfalso; by eapply Hp);
    case_decide; done.
Qed.

Lemma bound_write s : inv s -> (bound s (length (pushed s)) = S (length (pushed s)) - C)%nat.
Proof using Hpos.
  intros Hinv. unfold bound. pose proof (inv_cons s Hinv) as Hok. unfold cons_ok in Hok.
  pose proof (inv_cons_view s Hinv).
  destruct (cons s); try done; destruct Hok as (_ & Hv & _); case_decide; (done || lia).
Qed.

Lemma inv_PConstruct s s' : inv s -> exec Capacity PConstruct s = Some s' -> inv s'.
Proof using Hpos Hdiv.
  intros Hinv. simpl. unfold push_step. destruct (prod s) as [| |x w|] eqn:Hp; try done.
  pose proof (inv_prod s Hinv) as Hok. unfold prod_ok in Hok. rewrite Hp in Hok.
  destruct Hok as [-> Hroom]. rewrite slot_u64_nat.
  pose proof (inv_prod_view s Hinv) as Hpv. pose proof (inv_cons_view s Hinv) as Hcv.
  destruct (inv_cell s (length (pushed s)) Hinv ltac:(lia)) as (c & Hc & Hcont & Hps & Hcs).
  rewrite Hc. simpl. intros [= <-].
  rewrite expect_write in Hcont by (done || by rewrite Hp).
  rewrite bound_write in Hcs by done.
  destruct Hinv as [Hread Hwrite _ _ Hroom' Hfifo _ Hcons Hcells Hfault].
  split; simpl; try (done || lia).
  - eapply cells_ok_insert; [exact Hcells|lia|..]; simpl.
    + unfold expect; simpl. unfold cons_ok in Hcons.
      destruct (cons s); repeat case_decide; try done; lia.
    + by rewrite Hwrite, length_counter_values.
    + etrans; [exact Hcs|]. unfold bound; simpl. destruct (cons s); try case_decide; lia.
    + intros k Hk Hne. unfold expect, bound; simpl. rewrite Hp.
      destruct (cons s); repeat case_decide; (done || lia).
  - rewrite Hfault. simpl. unfold prod_races. rewrite Hcont.
    rewrite !bool_decide_eq_false_2; [done|by intros []|lia].
Qed.

Lemma inv_PPublish s s' : inv s -> exec Capacity PPublish s = Some s' -> inv s'.
Proof using Hpos.
  intros Hinv. simpl. unfold push_step. destruct (prod s) as [| | |x w] eqn:Hp; try done.
  intros [= <-].
  pose proof (inv_prod s Hinv) as Hok. unfold prod_ok in Hok. rewrite Hp in Hok.
  destruct Hok as [-> Hroom].
  destruct Hinv as [Hread Hwrite Hpv Hcv Hroom' Hfifo _ Hcons Hcells Hfault].
  split; simpl; rewrite ?length_app; simpl; try (done || lia).
  - rewrite Hwrite, u64_add_l, Nat.add_1_r, counter_values_S. do 3 f_equal. lia.
  - rewrite take_app_le by lia. done.
  - unfold cons_ok in *; simpl. destruct (cons s); try done; destruct Hcons as (-> & ? & ?);
      split_and!; try done; by apply lookup_app_l_Some.
  - eapply cells_ok_weaken; [done|]. intros k Hk. unfold expect, bound; simpl. rewrite Hp.
    split; [|done].
    assert (Hlook : (pushed s ++ [x]) !! k =
                    (if decide (k = length (pushed s)) then Some x else pushed s !! k)).
    { case_decide as E; [subst; by rewrite list_lookup_middle|].
      destruct (decide (k < length (pushed s))%nat); [by rewrite lookup_app_l|].
      rewrite !lookup_ge_None_2; rewrite ?length_app; simpl; (done || lia). }
    rewrite Hlook. destruct (cons s); done.
Qed.

Lemma inv_CCall s s' : inv s -> exec Capacity CCall s = Some s' -> inv s'.
Proof using Hpos.
  intros Hinv. simpl. unfold pop_step. destruct (cons s) eqn:Hc; try done.
  rewrite (inv_read s Hinv), last_counter_values. simpl. intros [= <-].
  pose proof (inv_cons_view s Hinv).
  apply inv_with_cons; rewrite ?Hc; [done|lia|by eauto|by eauto|done].
Qed.

Lemma inv_CLoadW s i s' : inv s -> exec Capacity (CLoadW i) s = Some s' -> inv s'.
Proof using Hpos Hlt.
  intros Hinv. simpl. unfold pop_step. destruct (cons s) as [|r| | |] eqn:Hc; try done.
  destruct (write_ s !! i) as [w|] eqn:Hw; simpl; [|done].
  case_bool_decide as Hi; [done|].
  pose proof (inv_cons s Hinv) as Hok. unfold cons_ok in Hok. rewrite Hc in Hok. subst r.
  rewrite (inv_write s Hinv) in Hw. apply lookup_counter_values in Hw as [-> Hiw].
  pose proof (inv_cons_view s Hinv). pose proof (inv_room s Hinv). pose proof (inv_prod_view s Hinv).
  rewrite u64_counter_eqb by lia. case_bool_decide; intros [= <-];
    (apply inv_with_cons; rewrite ?Hc; [done|lia|by eauto|by eauto|]).
  - done.
  - split; simpl; [done|lia].
Qed.

(** What the consumer finds in the slot it is about to take. *)
Lemma inv_read_cell s : inv s -> (length (popped s) < cons_view s)%nat ->
  (forall r x, cons s <> CDestroyed r x) ->
  exists c x, data_ s !! slot (length (popped s)) = Some c /\ content c = Some x /\
    pushed s !! length (popped s) = Some x /\
    (prod_stamp c <= cons_view s)%nat /\ (cons_stamp c <= S (length (popped s)))%nat.
Proof using Hpos.
  intros Hinv Hlt' Hc. pose proof (inv_cons_view s Hinv) as Hcv.
  destruct (inv_cell s (length (popped s)) Hinv ltac:(lia)) as (c & Hl & Hcont & Hps & Hcs).
  destruct (lookup_lt_is_Some_2 (pushed s) (length (popped s))) as [x Hx]; [lia|].
  exists c, x. split_and!; try done; try lia.
  - rewrite Hcont. unfold expect.
    destruct (cons s) eqn:?, (prod s); try (by exfalso; eapply Hc); try done;
      (rewrite decide_False by lia; done).
  - etrans; [exact Hcs|]. unfold bound. destruct (cons s); repeat case_decide; lia.
Qed.

Lemma inv_CMove s s' : inv s -> exec Capacity CMove s = Some s' -> inv s'.
Proof using Hpos Hdiv.
  intros Hinv. simpl. unfold pop_step. destruct (cons s) as [| |r| |] eqn:Hc; try done.
  pose proof (inv_cons s Hinv) as Hok. unfold cons_ok in Hok. rewrite Hc in Hok.
  destruct Hok as [-> Hview]. rewrite slot_u64_nat.
  destruct (inv_read_cell s Hinv Hview) as (c & x & Hl & Hcont & Hx & Hps & Hcs);
    [by rewrite Hc|].
  rewrite Hl. simpl. rewrite Hcont. intros [= <-].
  destruct Hinv as [Hread Hwrite Hpv Hcv Hroom Hfifo Hprod _ Hcells Hfault].
  split; simpl; try (done || lia).
  - eapply cells_ok_insert; [exact Hcells|lia|..]; simpl.
    + unfold expect; simpl. destruct (prod s); rewrite ?decide_False by lia; done.
    + by destruct (inv_cells_stamp _ _ _ _ c Hcells Hl).
    + rewrite Hread, length_counter_values. unfold bound; simpl.
      by rewrite decide_True.
    + intros k Hk Hne. unfold expect, bound; simpl. rewrite Hc.
      destruct (prod s); rewrite ?(decide_False (P:=(k = length (popped s)))) by done; done.
  - rewrite Hfault. simpl. unfold cons_races. rewrite bool_decide_eq_false_2; [done|lia].
Qed.

Lemma inv_CDestroy s s' : inv s -> exec Capacity CDestroy s = Some s' -> inv s'.
Proof using Hpos Hdiv.
  intros Hinv. simpl. unfold pop_step. destruct (cons s) as [| | |r y|] eqn:Hc; try done.
  pose proof (inv_cons s Hinv) as Hok. unfold cons_ok in Hok. rewrite Hc in Hok.
  destruct Hok as (-> & Hview & Hy). rewrite slot_u64_nat.
  destruct (inv_read_cell s Hinv Hview) as (c & x & Hl & Hcont & Hx & Hps & Hcs);
    [by rewrite Hc|].
  rewrite Hl. simpl. intros [= <-].
  destruct Hinv as [Hread Hwrite Hpv Hcv Hroom Hfifo Hprod _ Hcells Hfault].
  split; simpl; try (done || lia).
  - eapply cells_ok_insert; [exact Hcells|lia|..]; simpl.
    + unfold expect; simpl. destruct (prod s); by rewrite decide_True.
    + by destruct (inv_cells_stamp _ _ _ _ c Hcells Hl).
    + rewrite Hread, length_counter_values. unfold bound; simpl.
      by rewrite decide_True.
    + intros k Hk Hne. unfold expect, bound; simpl. rewrite Hc.
      destruct (prod s); rewrite ?(decide_False (P:=(k = length (popped s)))) by done; done.
  - rewrite Hfault, Hcont. simpl. unfold cons_races.
    rewrite bool_decide_eq_false_2; [done|lia].
Qed.

Lemma inv_CPublish s s' : inv s -> exec Capacity CPublish s = Some s' -> inv s'.
Proof using Hpos.
  intros Hinv. simpl. unfold pop_step. destruct (cons s) as [| | | |r y] eqn:Hc; try done.
  pose proof (inv_cons s Hinv) as Hok. unfold cons_ok in Hok. rewrite Hc in Hok.
  destruct Hok as (-> & Hview & Hy). intros [= <-].
  destruct Hinv as [Hread Hwrite Hpv Hcv Hroom Hfifo Hprod _ Hcells Hfault].
  split; simpl; rewrite ?length_app, ?Nat.add_1_r; try (done || lia).
  - rewrite Hread, u64_add_l, counter_values_S. do 3 f_equal. lia.
  - rewrite (take_S_r _ _ y) by done. by rewrite <- Hfifo.
  - eapply cells_ok_shift; [exact Hcells|..]; unfold expect, bound; simpl; rewrite Hc.
    + intros k Hk. destruct (prod s); rewrite ?(decide_False (P:=(k = length (popped s)))) by lia; done.
    + unfold prod_ok in Hprod.
      assert (pushed s !! (length (popped s) + C)%nat = None) as Hnone
        by (apply lookup_ge_None_2; lia).
      destruct (prod s); rewrite (decide_True (P:=(length (popped s) = length (popped s)))) by done;
        rewrite ?Hnone; try done.
      rewrite decide_False; [done|]. simpl in Hprod. destruct Hprod. lia.
    + rewrite decide_True by done. lia.
Qed.

Lemma inv_step l s s' : inv s -> exec Capacity l s = Some s' -> inv s'.
Proof using All.
  intros Hinv Hl. destruct l;
    [ eapply inv_PCall | eapply inv_PLoadR | eapply inv_PConstruct | eapply inv_PPublish
    | eapply inv_CCall | eapply inv_CLoadW | eapply inv_CMove | eapply inv_CDestroy
    | eapply inv_CPublish ]; eassumption.
Qed.

Lemma inv_reachable s : reachable Capacity s -> inv s.
Proof using All.
  intros Hr. refine (rtc_invariant _ inv _ _ _ Hr inv_start).
  intros x y Hx [l Hl]. by eapply inv_step.
Qed.
End Invariant.

(** * Refinement *)

Section Refinement.
Context {T : Type} (Capacity : Z).
Context (Hpos : 0 < Capacity) (Hdiv : (Capacity | 2 ^ 64)) (Hlt : Capacity < 2 ^ 64).
Implicit Types (s : state T).

(** The elements between the two counters. *)
Definition queued (s : state T) : list T := drop (length (popped s)) (pushed s).

Definition refines (s : state T) (a : fifo_state T) : Prop :=
  inv Capacity s /\ a = FifoState (queued s) (pushed s) (popped s).

(** A step either publishes a call that succeeds or leaves both histories. *)
Lemma exec_histories l s s' : exec Capacity l s = Some s' ->
  match l with
  | PPublish => exists x w, prod s = PBuilt x w /\ pushed s' = pushed s ++ [x] /\ popped s' = popped s
  | CPublish => exists x r, cons s = CDestroyed r x /\ pushed s' = pushed s /\ popped s' = popped s ++ [x]
  | _ => pushed s' = pushed s /\ popped s' = popped s
  end.
Proof using Type.
  destruct l; simpl; unfold push_step, pop_step; intros Hs;
    step_cases; simpl; eauto.
Qed.

Lemma queued_full s : inv Capacity s -> length (queued s) = (length (pushed s) - length (popped s))%nat.
Proof using Type. intros _. unfold queued. by rewrite length_drop. Qed.

(** Where a successful call takes effect, the FIFO has room, or the item is its
    oldest. *)
Lemma publish_room s x w : inv Capacity s -> prod s = PBuilt x w -> (length (queued s) < Z.to_nat Capacity)%nat.
Proof using Hpos.
  intros Hinv Hprod. unfold queued. rewrite length_drop. pose proof (inv_prod_view _ s Hinv).
  pose proof (inv_prod _ s Hinv) as Hok. unfold prod_ok in Hok. rewrite Hprod in Hok. destruct Hok. lia.
Qed.

Lemma publish_oldest s x r : inv Capacity s -> cons s = CDestroyed r x ->
  queued s = x :: drop (S (length (popped s))) (pushed s).
Proof using Type.
  intros Hinv Hcons. pose proof (inv_cons _ s Hinv) as Hok. unfold cons_ok in Hok. rewrite Hcons in Hok.
  destruct Hok as (_ & _ & Hx). unfold queued. by rewrite (drop_S _ x (length (popped s)) Hx).
Qed.

Lemma queued_pushed s s' x : inv Capacity s -> pushed s' = pushed s ++ [x] -> popped s' = popped s ->
  queued s' = queued s ++ [x].
Proof using Type.
  intros Hinv Hp Hq. unfold queued. rewrite Hp, Hq. pose proof (inv_cons_view _ s Hinv).
  by rewrite drop_app_le by lia.
Qed.

Lemma queued_popped s s' x : pushed s' = pushed s -> popped s' = popped s ++ [x] ->
  queued s' = drop (S (length (popped s))) (pushed s).
Proof using Type. intros Hp Hq. unfold queued. by rewrite Hp, Hq, length_app, Nat.add_1_r. Qed.

(** Each machine step is a step of the abstract FIFO or none. *)
Lemma step_simulation s s' a : refines s a -> step Capacity s s' ->
  exists a', rtc (fifo_step (Z.to_nat Capacity)) a a' /\ refines s' a'.
Proof using All.
  intros [Hinv ->] [l Hl].
  pose proof (inv_step Capacity Hpos Hdiv Hlt l s s' Hinv Hl) as Hinv'.
  pose proof (exec_histories l s s' Hl) as Hh.
  exists (FifoState (queued s') (pushed s') (popped s')). split; [|done].
  destruct l; try (destruct Hh as [Hp Hq]; unfold queued; by rewrite Hp, Hq).
  - destruct Hh as (x & w & Hprod & Hp & Hq). rewrite (queued_pushed s s' x), Hp, Hq by done.
    apply rtc_once, fifo_push. unfold Fifo.push. by rewrite decide_True by (by eapply publish_room).
  - destruct Hh as (x & r & Hcons & Hp & Hq). rewrite (queued_popped s s' x), Hp, Hq by done.
    rewrite (publish_oldest s x r) by done. apply rtc_once, fifo_pop.
Qed.

(** The item a call is about: the argument of [push], what [pop] has moved out. *)
Definition producer_item (p : producer T) : option T :=
  match p with PIdle => None | PLoaded x _ | PReady x _ | PBuilt x _ => Some x end.
Definition consumer_item (c : consumer T) : option T :=
  match c with CMoved _ x | CDestroyed _ x => Some x | _ => None end.

Lemma exec_items l s s' : exec Capacity l s = Some s' ->
  match l with
  | PCall x => producer_item (prod s') = Some x /\ cons s' = cons s
  | PPublish => producer_item (prod s') = None /\ cons s' = cons s
  | PLoadR _ | PConstruct =>
      (producer_item (prod s') = None \/ producer_item (prod s') = producer_item (prod s)) /\ cons s' = cons s
  | CMove => prod s' = prod s /\ (cons s' = CIdle \/ exists r x, cons s' = CMoved r x)
  | CDestroy => prod s' = prod s /\ consumer_item (cons s') = consumer_item (cons s)
  | CCall | CLoadW _ | CPublish => prod s' = prod s /\ consumer_item (cons s') = None
  end.
Proof using Type.
  destruct l; simpl; unfold push_step, pop_step; intros Hs; step_cases; simpl;
    repeat match goal with E : ?f s = _ |- _ => rewrite E end; simpl; eauto 6.
Qed.

(** A reachable state is the image of a run of the abstract FIFO. *)
Lemma fifo_reachable s : reachable Capacity s ->
  inv Capacity s /\
  rtc (fifo_step (Z.to_nat Capacity)) (FifoState [] [] []) (FifoState (queued s) (pushed s) (popped s)).
Proof using All.
  intros Hs.
  destruct (simulation_rtc _ _ refines (fun c c' a HR Hst => step_simulation c c' a HR Hst)
              _ _ (FifoState [] [] []) Hs) as (a & Ha & [Hinv ->]); [|done].
  split; [by apply inv_start|done].
Qed.
End Refinement.

(** * Progress *)

Section Progress.
Context {T : Type} (Capacity : Z).
Context (Hpos : 0 < Capacity) (Hdiv : (Capacity | 2 ^ 64)) (Hlt : Capacity < 2 ^ 64).
Implicit Types (s : state T).

Lemma counter_values_lookup n i : (i <= n)%nat -> counter_values n !! i = Some (u64 (Z.of_nat i)).
Proof using Type.
  intros H. unfold counter_values. rewrite list_lookup_fmap, lookup_seq_lt by lia. done.
Qed.

(** The accesses of one [push] whose acquire load sees position [i] of [read_]. *)
Definition push_schedule (x : T) (i : nat) : list (label T) := [PCall x; PLoadR i; PConstruct; PPublish].
(** The accesses of one [pop] whose acquire load sees position [i] of [write_]. *)
Definition pop_schedule (i : nat) : list (label T) := [CCall; CLoadW i; CMove; CDestroy; CPublish].

Lemma push_schedule_runs s x : inv Capacity s -> prod s = PIdle ->
  Z.of_nat (length (queued s)) < Capacity ->
  exists s', run (exec Capacity) (push_schedule x (length (popped s))) s = Some s' /\
    prod s' = PIdle /\ pushed s' = pushed s ++ [x] /\ popped s' = popped s.
Proof using All.
  intros Hinv Hidle Hroom. unfold queued in Hroom. rewrite length_drop in Hroom.
  pose proof (inv_cons_view _ s Hinv). pose proof (inv_prod_view _ s Hinv).
  destruct (inv_cell Capacity s (length (pushed s)) Hinv ltac:(lia)) as (c & Hc & _).
  unfold push_schedule. simpl. rewrite Hidle, (inv_write _ s Hinv).
  rewrite last_counter_values. simpl. rewrite (inv_read _ s Hinv), counter_values_lookup by lia. simpl.
  rewrite bool_decide_eq_false_2 by lia. rewrite (u64_diff Capacity) by (done || lia).
  rewrite (proj2 (Z.eqb_neq _ _)) by lia. simpl.
  rewrite (slot_u64_nat Capacity) by done. rewrite Hc. simpl. eauto.
Qed.

Lemma push_schedule_full s x : inv Capacity s -> prod s = PIdle ->
  Z.of_nat (length (queued s)) = Capacity ->
  exists s', run (exec Capacity) [PCall x; PLoadR (length (popped s))] s = Some s' /\
    prod s' = PIdle /\ pushed s' = pushed s /\ popped s' = popped s.
Proof using All.
  intros Hinv Hidle Hfull. unfold queued in Hfull. rewrite length_drop in Hfull.
  pose proof (inv_cons_view _ s Hinv). pose proof (inv_prod_view _ s Hinv).
  simpl. rewrite Hidle, (inv_write _ s Hinv).
  rewrite last_counter_values. simpl. rewrite (inv_read _ s Hinv), counter_values_lookup by lia. simpl.
  rewrite bool_decide_eq_false_2 by lia. rewrite (u64_diff Capacity) by (done || lia).
  rewrite (proj2 (Z.eqb_eq _ _)) by lia. simpl. eauto.
Qed.

Lemma pop_schedule_runs s x l : inv Capacity s -> cons s = CIdle -> queued s = x :: l ->
  exists s', run (exec Capacity) (pop_schedule (length (pushed s))) s = Some s' /\
    cons s' = CIdle /\ popped s' = popped s ++ [x] /\ pushed s' = pushed s.
Proof using All.
  intros Hinv Hidle Hq.
  pose proof (queued_full Capacity s Hinv) as Hlen. rewrite Hq in Hlen. simpl in Hlen.
  assert (Hx : pushed s !! length (popped s) = Some x).
  { rewrite <- (Nat.add_0_r (length (popped s))), <- lookup_drop. fold (queued s). by rewrite Hq. }
  pose proof (inv_cons_view _ s Hinv). pose proof (inv_room _ s Hinv). pose proof (inv_prod_view _ s Hinv).
  destruct (inv_cell Capacity s (length (popped s)) Hinv ltac:(lia)) as (c & Hc & Hcont & _).
  assert (content c = Some x) as Hcx.
  { rewrite Hcont. unfold expect. rewrite Hidle. destruct (prod s); try done.
    rewrite decide_False by lia. done. }
  assert (Hl := lookup_lt_Some _ _ _ Hc).
  unfold pop_schedule. simpl. rewrite Hidle, (inv_read _ s Hinv).
  rewrite last_counter_values. simpl. rewrite (inv_write _ s Hinv), counter_values_lookup by lia. simpl.
  rewrite bool_decide_eq_false_2 by lia. rewrite (u64_counter_eqb Capacity) by (done || lia).
  rewrite bool_decide_eq_false_2 by lia. simpl.
  rewrite (slot_u64_nat Capacity) by done. rewrite Hc. simpl. rewrite Hcx. simpl.
  rewrite (slot_u64_nat Capacity) by done. rewrite list_lookup_insert_eq by done. simpl. eauto.
Qed.

Lemma pop_schedule_empty s : inv Capacity s -> cons s = CIdle -> queued s = [] ->
  exists s', run (exec Capacity) [CCall; CLoadW (length (pushed s))] s = Some s' /\
    cons s' = CIdle /\ popped s' = popped s /\ pushed s' = pushed s.
Proof using All.
  intros Hinv Hidle Hq.
  pose proof (queued_full Capacity s Hinv) as Hlen. rewrite Hq in Hlen. simpl in Hlen.
  pose proof (inv_cons_view _ s Hinv).
  simpl. rewrite Hidle, (inv_read _ s Hinv).
  rewrite last_counter_values. simpl. rewrite (inv_write _ s Hinv), counter_values_lookup by lia. simpl.
  rewrite bool_decide_eq_false_2 by lia. rewrite (u64_counter_eqb Capacity) by (done || lia).
  rewrite bool_decide_eq_true_2 by lia. simpl. eauto.
Qed.

(** A call that runs alone. *)
Lemma push_alone s x : inv Capacity s -> prod s = PIdle ->
  exists s', run (exec Capacity)
      (if decide (Z.of_nat (length (queued s)) < Capacity)
       then push_schedule x (length (popped s)) else [PCall x; PLoadR (length (popped s))]) s = Some s' /\
    prod s' = PIdle /\ popped s' = popped s /\
    pushed s' = pushed s ++ (if decide (Z.of_nat (length (queued s)) < Capacity) then [x] else []).
Proof using All.
  intros Hinv Hidle. case_decide as Hroom.
  - destruct (push_schedule_runs s x Hinv Hidle Hroom) as (s' & ? & ? & ? & ?). eauto.
  - pose proof (queued_full Capacity s Hinv). pose proof (inv_room _ s Hinv). pose proof (inv_prod_view _ s Hinv).
    destruct (push_schedule_full s x Hinv Hidle ltac:(lia)) as (s' & ? & ? & ? & ?). rewrite app_nil_r. eauto.
Qed.

Lemma pop_alone s : inv Capacity s -> cons s = CIdle ->
  exists s', run (exec Capacity)
      (if decide (queued s = []) then [CCall; CLoadW (length (pushed s))] else pop_schedule (length (pushed s))) s = Some s' /\
    cons s' = CIdle /\ pushed s' = pushed s /\ popped s' = popped s ++ take 1 (queued s).
Proof using All.
  intros Hinv Hidle. destruct (queued s) as [|y l] eqn:Hq; simpl.
  - destruct (pop_schedule_empty s Hinv Hidle Hq) as (s' & ? & ? & ? & ?). rewrite app_nil_r. eauto.
  - destruct (pop_schedule_runs s y l Hinv Hidle Hq) as (s' & ? & ? & ? & ?). eauto.
Qed.

(** What is left of a call; a thread between calls has all of it before it. *)
Definition prod_rank (p : producer T) : nat :=
  match p with PIdle => 4 | PLoaded _ _ => 3 | PReady _ _ => 2 | PBuilt _ _ => 1 end.
Definition cons_rank (c : consumer T) : nat :=
  match c with CIdle => 5 | CLoaded _ => 4 | CReady _ => 3 | CMoved _ _ => 2 | CDestroyed _ _ => 1 end.

(** A [push] that has begun takes a next step towards its end, reading the newest
    [read_]; while the ring has room it does not give up. *)
Lemma push_moves s : inv Capacity s -> prod s <> PIdle ->
  exists a s', newest a s /\ exec Capacity a s = Some s' /\
    match a with
    | PLoadR _ | PConstruct =>
        (prod s' = PIdle \/ (prod_rank (prod s') < prod_rank (prod s))%nat) /\
        (Z.of_nat (length (queued s)) < Capacity -> prod s' <> PIdle)
    | PPublish => prod s' = PIdle
    | _ => False
    end.
Proof using All.
  intros Hinv Hp. unfold queued. rewrite length_drop.
  pose proof (inv_cons_view _ s Hinv). pose proof (inv_prod_view _ s Hinv). pose proof (inv_room _ s Hinv).
  pose proof (inv_prod _ s Hinv) as Hok. unfold prod_ok in Hok. destruct (prod s) as [|x w|x w|x w] eqn:E; [done|..].
  - exists (PLoadR (length (popped s))). simpl.
    rewrite E, (inv_read _ s Hinv), length_counter_values, counter_values_lookup by lia. simpl.
    rewrite bool_decide_eq_false_2, Hok, (u64_diff Capacity) by (done || lia).
    destruct (Z.eqb_spec (Z.of_nat (length (pushed s)) - Z.of_nat (length (popped s))) Capacity);
      eexists; (split_and!; [done..| |]); simpl; auto; (lia || done).
  - destruct Hok as [-> Hw]. destruct (inv_cell Capacity s (length (pushed s)) Hinv ltac:(lia)) as (c & Hc & _).
    exists PConstruct. simpl. rewrite E, (slot_u64_nat Capacity), Hc by done.
    eexists. split_and!; [done..|right; simpl; lia|done].
  - exists PPublish. simpl. rewrite E. eexists. by split_and!.
Qed.

(** So does a [pop], reading the newest [write_]. *)
Lemma pop_moves s : inv Capacity s ->
  exists a s', newest a s /\ exec Capacity a s = Some s' /\
    match a with
    | CLoadW _ => cons s' = CIdle \/ (cons_rank (cons s') < cons_rank (cons s))%nat
    | CCall | CMove | CDestroy => (cons_rank (cons s') < cons_rank (cons s))%nat
    | CPublish => True
    | _ => False
    end.
Proof using All.
  intros Hinv.
  pose proof (inv_cons_view _ s Hinv). pose proof (inv_room _ s Hinv). pose proof (inv_prod_view _ s Hinv).
  destruct (inv_cell Capacity s (length (popped s)) Hinv ltac:(lia)) as (c & Hc & Hcont & _).
  pose proof (inv_cons _ s Hinv) as Hok. unfold cons_ok in Hok. destruct (cons s) as [|r|r|r x|r x] eqn:E.
  - exists CCall. simpl. rewrite E, (inv_read _ s Hinv), last_counter_values. eexists. split_and!; (done || (simpl; lia)).
  - exists (CLoadW (length (pushed s))). simpl.
    rewrite E, (inv_write _ s Hinv), length_counter_values, counter_values_lookup by lia. simpl.
    rewrite bool_decide_eq_false_2 by lia. destruct (r =? _); eexists; (split_and!; [done..|]); simpl; [by left|right; lia].
  - destruct Hok as [-> Hv]. exists CMove. simpl. rewrite E, (slot_u64_nat Capacity), Hc by done. simpl.
    assert (Hx : exists x, content c = Some x).
    { rewrite Hcont. unfold expect. rewrite E. assert (Hl : is_Some (pushed s !! length (popped s)))
        by (apply lookup_lt_is_Some; lia). destruct (prod s); rewrite ?decide_False by lia; exact Hl. }
    destruct Hx as [x ->]. eexists. split_and!; (done || (simpl; lia)).
  - destruct Hok as [-> _]. exists CDestroy. simpl. rewrite E, (slot_u64_nat Capacity), Hc by done.
    eexists. split_and!; (done || (simpl; lia)).
  - exists CPublish. simpl. rewrite E. eexists. by split_and!.
Qed.

(** A pop that reads the newest [write_] and gives up has found the ring empty. *)
Lemma newest_empty s s' i : inv Capacity s ->
  S i = length (write_ s) -> exec Capacity (CLoadW i) s = Some s' -> cons s' = CIdle -> queued s = [].
Proof using All.
  intros Hinv Hi Ha Hc. simpl in Ha. destruct (cons s) as [|k| | |] eqn:Ec; try done.
  pose proof (inv_cons _ _ Hinv) as Hok. unfold cons_ok in Hok. rewrite Ec in Hok. subst k.
  rewrite (inv_write _ _ Hinv), length_counter_values in Hi.
  rewrite (inv_write _ _ Hinv), (counter_values_lookup (length (pushed s)) i) in Ha by lia. simpl in Ha.
  case_bool_decide; [done|].
  pose proof (inv_cons_view _ _ Hinv). pose proof (inv_room _ _ Hinv). pose proof (inv_prod_view _ _ Hinv).
  rewrite (u64_counter_eqb Capacity) in Ha by (done || lia).
  case_bool_decide as E; injection Ha as <-; [|done].
  unfold queued. apply drop_ge. lia.
Qed.

(** While the queue is not empty a [pop] does not give up either. *)
Lemma pop_progress s : inv Capacity s -> queued s <> [] ->
  exists a s', newest a s /\ exec Capacity a s = Some s' /\
    match a with
    | CCall | CLoadW _ | CMove | CDestroy => (cons_rank (cons s') < cons_rank (cons s))%nat
    | CPublish => True
    | _ => False
    end.
Proof using All.
  intros Hinv Hq. destruct (pop_moves s Hinv) as (a & s' & Hn & Ha & Hm). exists a, s'. split_and!; [done..|].
  destruct a; try done. destruct Hm as [Hc|]; [|done]. by destruct Hq; eapply newest_empty.
Qed.

(** ** A call among the steps of the other thread *)

(** The accesses of a call of [push] after its first, and of [pop]. *)
Definition of_push (l : label T) : bool := match l with PLoadR _ | PConstruct | PPublish => true | _ => false end.
Definition of_pop (l : label T) : bool := match l with CLoadW _ | CMove | CDestroy | CPublish => true | _ => false end.
Definition accesses (f : label T -> bool) (ls : list (label T)) : nat := length (filter (fun l => f l = true) ls).

(** No further call begins. *)
Definition no_push_call (ls : list (label T)) : Prop := Forall (fun l => match l with PCall _ => False | _ => True end) ls.
Definition no_pop_call (ls : list (label T)) : Prop := Forall (fun l => l <> CCall) ls.

Lemma accesses_snoc f ls l : accesses f (ls ++ [l]) = (accesses f ls + if f l then 1 else 0)%nat.
Proof using Type. unfold accesses. rewrite filter_app, length_app. f_equal. rewrite filter_cons. by destruct (f l). Qed.

(** A call of [push x] that began in [s0], at [s]. *)
Definition pushing_from s0 x (ls : list (label T)) s : Prop :=
  match prod s with
  | PIdle => (accesses of_push ls = 3%nat /\ pushed s = pushed s0 ++ [x]) \/
      (accesses of_push ls = 1%nat /\ pushed s = pushed s0 /\ exists i, PLoadR i ∈ ls /\ (prod_view s0 <= i)%nat /\
         Z.of_nat (length (pushed s0)) - Z.of_nat i = Capacity)
  | PLoaded y _ => y = x /\ accesses of_push ls = 0%nat /\ pushed s = pushed s0
  | PReady y _ => y = x /\ accesses of_push ls = 1%nat /\ pushed s = pushed s0
  | PBuilt y _ => y = x /\ accesses of_push ls = 2%nat /\ pushed s = pushed s0
  end.

Lemma pushing_step s0 x ls l s s' : inv Capacity s -> (prod_view s0 <= prod_view s)%nat -> pushing_from s0 x ls s ->
  exec Capacity l s = Some s' -> match l with PCall _ => False | _ => True end ->
  (prod_view s0 <= prod_view s')%nat /\ pushing_from s0 x (ls ++ [l]) s'.
Proof using All.
  intros Hinv Hv Hp He Hl. unfold pushing_from in *. rewrite accesses_snoc.
  assert (Hother : of_push l = false -> prod s' = prod s /\ pushed s' = pushed s /\ prod_view s' = prod_view s).
  { destruct l; try done; simpl in *; unfold pop_step in He; by step_cases. }
  destruct (of_push l) eqn:Eo.
  - clear Hother. pose proof (inv_prod _ s Hinv) as Hok. unfold prod_ok in Hok.
    pose proof (inv_room _ s Hinv). pose proof (inv_cons_view _ s Hinv).
    destruct l as [|i| | | | | | |]; try done; simpl in He; unfold push_step in He; step_cases; simpl in *.
    + destruct Hp as (-> & -> & Hps). rewrite (inv_read _ s Hinv) in E0. apply lookup_counter_values in E0 as [-> Hi].
      apply bool_decide_eq_false in E1. apply Z.eqb_eq in E2. rewrite (u64_diff Capacity) in E2 by (done || lia).
      split; [lia|right]. split_and!; [done..|]. exists i. rewrite <- Hps.
      split; [apply elem_of_app; right; by left|]. split; [lia|done].
    + destruct Hp as (-> & -> & ->). apply bool_decide_eq_false in E1. split; [lia|done].
    + destruct Hp as (-> & -> & ->). done.
    + destruct Hp as (-> & -> & ->). split; [done|by left].
  - destruct (Hother eq_refl) as (-> & -> & ->). split; [done|]. rewrite Nat.add_0_r.
    destruct (prod s); try done. destruct Hp as [Hp|(Hn & Hs & i & Hi & Hrest)]; [by left|right].
    split_and!; [done..|]. exists i. split; [|done]. apply elem_of_app. by left.
Qed.

(** The bound, and that the call can go on or has returned. *)
Lemma pushing_run s0 x ls s : inv Capacity s0 -> no_push_call ls -> run (exec Capacity) (PCall x :: ls) s0 = Some s ->
  inv Capacity s /\ (prod_view s0 <= prod_view s)%nat /\ pushing_from s0 x ls s.
Proof using All.
  intros Hinv0. revert s; induction ls as [|l ls IH] using rev_ind; intros s Hls Hr.
  - rewrite run_one in Hr. split; [by eapply inv_step|]. simpl in Hr. unfold pushing_from. by step_cases.
  - apply Forall_app in Hls as [Hls [Hl _]%Forall_cons]. change (PCall x :: ls ++ [l]) with ((PCall x :: ls) ++ [l]) in Hr.
    rewrite run_app in Hr. apply bind_Some in Hr as (s1 & Hr & He). rewrite run_one in He.
    destruct (IH s1 Hls Hr) as (Hinv & Hv & Hp). split; [by eapply inv_step|].
    exact (pushing_step s0 x ls l s1 s Hinv Hv Hp He Hl).
Qed.

Lemma push_bounded s0 x ls s : inv Capacity s0 -> no_push_call ls -> run (exec Capacity) (PCall x :: ls) s0 = Some s ->
  (accesses of_push ls <= 3)%nat /\
  ((prod s <> PIdle /\ pushed s = pushed s0 /\ exists l s', of_push l = true /\ exec Capacity l s = Some s') \/
   (prod s = PIdle /\ (pushed s = pushed s0 ++ [x] \/
      (pushed s = pushed s0 /\ exists i, PLoadR i ∈ ls /\ (prod_view s0 <= i)%nat /\
         Z.of_nat (length (pushed s0)) - Z.of_nat i = Capacity)))).
Proof using All.
  intros Hinv0 Hls Hr. destruct (pushing_run s0 x ls s Hinv0 Hls Hr) as (Hinv & _ & Hp). unfold pushing_from in Hp.
  assert (Hgo : prod s <> PIdle -> exists l s', of_push l = true /\ exec Capacity l s = Some s').
  { intros Hn. destruct (push_moves s Hinv Hn) as (l & s' & _ & He & Hl). exists l, s'. by destruct l. }
  destruct (prod s) eqn:E; [|destruct Hp as (_ & -> & Hp); (split; [lia|left; split_and!; [done..|by apply Hgo]])..].
  destruct Hp as [[-> Hp]|(-> & Hp & Hi)]; (split; [lia|right]); (split; [done|]); [by left|by right].
Qed.

(** A call of [pop] that began in [s0], at [s]. *)
Definition popping_from s0 (ls : list (label T)) s : Prop :=
  match cons s with
  | CIdle => (accesses of_pop ls = 4%nat /\ exists y, pushed s !! length (popped s0) = Some y /\ popped s = popped s0 ++ [y]) \/
      (accesses of_pop ls = 1%nat /\ popped s = popped s0 /\ exists i, CLoadW i ∈ ls /\ (cons_view s0 <= i)%nat /\
         i = length (popped s0))
  | CLoaded _ => accesses of_pop ls = 0%nat /\ popped s = popped s0
  | CReady _ => accesses of_pop ls = 1%nat /\ popped s = popped s0
  | CMoved _ _ => accesses of_pop ls = 2%nat /\ popped s = popped s0
  | CDestroyed _ _ => accesses of_pop ls = 3%nat /\ popped s = popped s0
  end.

Lemma popping_step s0 ls l s s' : inv Capacity s -> (cons_view s0 <= cons_view s)%nat -> popping_from s0 ls s ->
  exec Capacity l s = Some s' -> l <> CCall -> (cons_view s0 <= cons_view s')%nat /\ popping_from s0 (ls ++ [l]) s'.
Proof using All.
  intros Hinv Hv Hp He Hl. pose proof (inv_fault _ _ (inv_step Capacity Hpos Hdiv Hlt l s s' Hinv He)) as Hf.
  unfold popping_from in *. rewrite accesses_snoc.
  assert (Hother : of_pop l = false -> cons s' = cons s /\ popped s' = popped s /\ cons_view s' = cons_view s /\
    exists new, pushed s' = pushed s ++ new).
  { destruct l; try done; simpl in *; unfold push_step in He; step_cases; simpl;
      (split; [done|split; [done|split; [done|]]]); try (by eexists); by exists []; rewrite app_nil_r. }
  destruct (of_pop l) eqn:Eo.
  - clear Hother. pose proof (inv_cons _ s Hinv) as Hok. unfold cons_ok in Hok.
    pose proof (inv_room _ s Hinv). pose proof (inv_cons_view _ s Hinv). pose proof (inv_prod_view _ s Hinv).
    destruct l as [| | | | |i| | |]; try done; simpl in He; unfold pop_step in He; step_cases; simpl in *.
    + destruct Hp as (-> & Hps). rewrite (inv_write _ s Hinv) in E0. apply lookup_counter_values in E0 as [-> Hi].
      apply bool_decide_eq_false in E1. rewrite (u64_counter_eqb Capacity) in E2 by (done || lia).
      apply bool_decide_eq_true in E2. split; [lia|right]. split_and!; [done..|]. exists i. rewrite <- Hps.
      split; [apply elem_of_app; right; by left|]. split; [lia|done].
    + destruct Hp as (-> & ->). apply bool_decide_eq_false in E1. split; [lia|done].
    + by destruct Hp as (-> & ->).
    + by rewrite orb_true_r in Hf.
    + by destruct Hp as (-> & ->).
    + destruct Hp as (-> & Hps). split; [done|left]. split; [done|]. exists item. rewrite <- Hps. by split; [apply Hok|].
  - destruct (Hother eq_refl) as (-> & -> & -> & new & Hnew). split; [done|]. rewrite Nat.add_0_r.
    destruct (cons s); try done. destruct Hp as [(Hn & y & Hy & Hpy)|(Hn & Hs & i & Hi & Hrest)]; [left|right].
    + split; [done|]. exists y. split; [|done]. rewrite Hnew. by apply lookup_app_l_Some.
    + split_and!; [done..|]. exists i. split; [|done]. apply elem_of_app. by left.
Qed.

Lemma popping_run s0 ls s : inv Capacity s0 -> no_pop_call ls -> run (exec Capacity) (CCall :: ls) s0 = Some s ->
  inv Capacity s /\ (cons_view s0 <= cons_view s)%nat /\ popping_from s0 ls s.
Proof using All.
  intros Hinv0. revert s; induction ls as [|l ls IH] using rev_ind; intros s Hls Hr.
  - rewrite run_one in Hr. split; [by eapply inv_step|]. simpl in Hr. unfold popping_from. by step_cases.
  - apply Forall_app in Hls as [Hls [Hl _]%Forall_cons]. change (CCall :: ls ++ [l]) with ((CCall :: ls) ++ [l]) in Hr.
    rewrite run_app in Hr. apply bind_Some in Hr as (s1 & Hr & He). rewrite run_one in He.
    destruct (IH s1 Hls Hr) as (Hinv & Hv & Hp). split; [by eapply inv_step|].
    exact (popping_step s0 ls l s1 s Hinv Hv Hp He Hl).
Qed.

Lemma pop_bounded s0 ls s : inv Capacity s0 -> no_pop_call ls -> run (exec Capacity) (CCall :: ls) s0 = Some s ->
  (accesses of_pop ls <= 4)%nat /\
  ((cons s <> CIdle /\ popped s = popped s0 /\ exists l s', of_pop l = true /\ exec Capacity l s = Some s') \/
   (cons s = CIdle /\ ((exists y, pushed s !! length (popped s0) = Some y /\ popped s = popped s0 ++ [y]) \/
      (popped s = popped s0 /\ exists i, CLoadW i ∈ ls /\ (cons_view s0 <= i)%nat /\ i = length (popped s0))))).
Proof using All.
  intros Hinv0 Hls Hr. destruct (popping_run s0 ls s Hinv0 Hls Hr) as (Hinv & _ & Hp). unfold popping_from in Hp.
  assert (Hgo : cons s <> CIdle -> exists l s', of_pop l = true /\ exec Capacity l s = Some s').
  { intros Hn. destruct (pop_moves s Hinv) as (l & s' & _ & He & Hl). exists l, s'. destruct l; try done.
    simpl in He. by destruct (cons s). }
  destruct (cons s) eqn:E; [|destruct Hp as (-> & Hp); (split; [lia|left; split_and!; [done..|by apply Hgo]])..].
  destruct Hp as [[-> Hp]|(-> & Hp & Hi)]; (split; [lia|right]); (split; [done|]); [by left|by right].
Qed.
End Progress.

(** * Properties *)

(** C2: no interleaving of the two functions, with any coherent outcome of their
    acquire loads, races on a slot, constructs over a live object or reads a raw
    slot. *)
Theorem spsc_race_free {T} (Capacity : Z) `{Hring : !CustomSpscQueue.RingCapacity Capacity}
    (s : state T) :
  reachable Capacity s -> fault s = false.
Proof.
  destruct Hring as [Hpos Hdiv Hlt]. intros Hs.
  by apply (inv_fault Capacity), inv_reachable.
Qed.

(** Two items go through a ring of two slots; the producer fills it, sees it
    full, and refills the slot the consumer has released. *)
Definition demo_schedule : list (label Z) :=
  [PCall 10; PLoadR 0; PConstruct; PPublish; CCall; PCall 11; CLoadW 1; PLoadR 0;
   CMove; PConstruct; PPublish; CDestroy; PCall 12; PLoadR 0; PCall 12; CPublish;
   PLoadR 1; PConstruct; CCall; CLoadW 1; CCall; CLoadW 2; PPublish; CMove; CDestroy; CPublish].

Definition demo_state : state Z :=
  State [0; 1; 2] [0; 1; 2; 3] [Cell (Some 12) 3 1; Cell None 2 2] PIdle 1 CIdle 2
        [10; 11; 12] [10; 11] false.

Lemma demo_run : run (exec 2) demo_schedule (start 2) = Some demo_state.
Proof. vm_compute. reflexivity. Qed.

#[export] Instance ring_2 : CustomSpscQueue.RingCapacity 2 :=
  CustomSpscQueue.ring_capacity_pow2 1 ltac:(lia).

Lemma demo_reachable : reachable 2 demo_state.
Proof. exact (run_rtc _ _ _ _ demo_run). Qed.

Lemma spsc_race_free_witness : fault demo_state = false.
Proof. apply (spsc_race_free 2 demo_state). exact demo_reachable. Defined.

(** C1: every reachable state of the two-thread machine is matched by a run of
    the atomic bounded FIFO with the same history of successful pushes and pops:
    items leave once each, in the order they entered, and at most [Capacity] are
    in the queue. *)
Theorem spsc_refines_atomic_fifo {T} (Capacity : Z) `{Hring : !CustomSpscQueue.RingCapacity Capacity}
    (s : state T) :
  reachable Capacity s ->
  rtc (fifo_step (Z.to_nat Capacity)) (FifoState [] [] [])
      (FifoState (queued s) (pushed s) (popped s)) /\
  popped s ++ queued s = pushed s /\ Z.of_nat (length (queued s)) <= Capacity.
Proof.
  destruct Hring as [Hpos Hdiv Hlt]. intros Hs.
  destruct (fifo_reachable Capacity Hpos Hdiv Hlt s Hs) as [Hinv Ha].
  split; [done|]. unfold queued. split.
  - rewrite (inv_fifo _ s Hinv) at 1. apply take_drop.
  - rewrite length_drop. pose proof (inv_room _ s Hinv). pose proof (inv_prod_view _ s Hinv). lia.
Qed.

Lemma spsc_refines_atomic_fifo_witness :
  rtc (fifo_step 2) (FifoState [] [] []) (FifoState [12] [10; 11; 12] [10; 11]) /\
  [10; 11] ++ [12] = [10; 11; 12] /\ Z.of_nat (length [12]) <= 2.
Proof. apply (spsc_refines_atomic_fifo 2 demo_state). exact demo_reachable. Defined.

(** C28: neither function waits for the other thread. A call of [push] among any
    steps of the other thread, whole calls of it included, and with any coherent
    outcome of its load, stale ones too, makes at most three accesses after its
    first; until it has returned the next one can be made; and it returns having
    enqueued its item, or without effect if the ring was full at the value of [read_]
    it loaded. [pop] likewise makes at most four and takes the oldest item, unless
    the ring was empty at the value of [write_] it loaded. A call that runs alone and
    loads the current value enqueues exactly if there is room, and takes an item
    exactly if there is one. *)
Theorem spsc_wait_free {T} (Capacity : Z) `{Hring : !CustomSpscQueue.RingCapacity Capacity}
    (s : state T) (x : T) :
  reachable Capacity s ->
  (forall ls s', no_push_call ls -> run (exec Capacity) (PCall x :: ls) s = Some s' ->
     (accesses of_push ls <= 3)%nat /\
     ((prod s' <> PIdle /\ pushed s' = pushed s /\ exists l s'', of_push l = true /\ exec Capacity l s' = Some s'') \/
      (prod s' = PIdle /\ (pushed s' = pushed s ++ [x] \/
         (pushed s' = pushed s /\ exists i, PLoadR i ∈ ls /\ (prod_view s <= i)%nat /\
            Z.of_nat (length (pushed s)) - Z.of_nat i = Capacity))))) /\
  (forall ls s', no_pop_call ls -> run (exec Capacity) (CCall :: ls) s = Some s' ->
     (accesses of_pop ls <= 4)%nat /\
     ((cons s' <> CIdle /\ popped s' = popped s /\ exists l s'', of_pop l = true /\ exec Capacity l s' = Some s'') \/
      (cons s' = CIdle /\ ((exists y, pushed s' !! length (popped s) = Some y /\ popped s' = popped s ++ [y]) \/
         (popped s' = popped s /\ exists i, CLoadW i ∈ ls /\ (cons_view s <= i)%nat /\ i = length (popped s)))))) /\
  (prod s = PIdle ->
   exists s', run (exec Capacity)
                (if decide (Z.of_nat (length (queued s)) < Capacity)
                 then push_schedule x (length (popped s)) else [PCall x; PLoadR (length (popped s))]) s
              = Some s' /\ prod s' = PIdle /\ popped s' = popped s /\
     pushed s' = pushed s ++ (if decide (Z.of_nat (length (queued s)) < Capacity) then [x] else [])) /\
  (cons s = CIdle ->
   exists s', run (exec Capacity)
                (if decide (queued s = []) then [CCall; CLoadW (length (pushed s))]
                 else pop_schedule (length (pushed s))) s
              = Some s' /\ cons s' = CIdle /\ pushed s' = pushed s /\
     popped s' = popped s ++ take 1 (queued s)).
Proof.
  destruct Hring as [Hpos Hdiv Hlt]. intros Hs.
  pose proof (inv_reachable Capacity Hpos Hdiv Hlt s Hs) as Hinv. split_and!.
  - intros ls s'. by apply push_bounded.
  - intros ls s'. by apply pop_bounded.
  - intros Hidle. by apply push_alone.
  - intros Hidle. by apply pop_alone.
Qed.

(** A [push] that loads an old [read_], at which the ring looks full, while an item is
    taken out. *)
Lemma spsc_wait_free_witness :
  (accesses (T:=Z) of_push [CCall; CLoadW 3; PLoadR 1; CMove; CDestroy; CPublish] <= 3)%nat /\
  exists s', run (exec 2) (pop_schedule 3) demo_state = Some s' /\ cons s' = CIdle /\
    pushed s' = [10; 11; 12] /\ popped s' = [10; 11] ++ take 1 [12].
Proof.
  destruct (spsc_wait_free 2 demo_state 0 demo_reachable) as (Hpush & _ & _ & Hpop). split.
  - eapply Hpush; [|vm_compute; reflexivity]. repeat (apply Forall_cons; split; [exact I|]). by apply Forall_nil.
  - apply Hpop. reflexivity.
Defined.
