(* ===== verification/RingMachine.v ===== *)
(** What a blocking queue over the ring promises to its users, access by access: an
    interface that both wrappers of [src/utils/] implement, in [WaitableRing.v] and
    [SpinRing.v]. *)

From S2P Require Import Prelude QueueConcepts CustomSpscQueue SpscConcurrency.
From stdpp Require Import options.

(** Where the consumer's thread is: not in [pop], inside [queue_.pop] of the ring,
    elsewhere in [pop], or about to return. *)
Inductive phase := Outside | Accessing | Between | Returning (found : bool).

#[export] Instance phase_eq_dec : EqDecision phase.
Proof. solve_decision. Defined.

(** What a step is to the users of the queue. *)
Inductive action (T : Type) :=
  | Access (a : SpscConcurrency.label T)   (* an access of the ring *)
  | Call                                   (* [pop] is called *)
  | Return                                 (* [pop] returns *)
  | StopCall                               (* [request_stop] is called *)
  | Silent.
#[global] Arguments Access {T} a.
#[global] Arguments Call {T}.
#[global] Arguments Return {T}.
#[global] Arguments StopCall {T}.
#[global] Arguments Silent {T}.

(** The operations: a machine of the threads inside the queue. [rm_push x] is the
    first step of [push(x)], and [rm_pushing] holds until that call has returned;
    [rm_stopping] holds until a call of [request_stop] has, which runs the callbacks. *)
Record RingMachine (T : Type) := MkRingMachine {
  rm_state : Type;
  rm_label : Type;
  rm_start : rm_state;
  rm_exec : rm_label -> rm_state -> option rm_state;
  rm_push : T -> rm_label;
  rm_action : rm_label -> action T;
  rm_ring : rm_state -> SpscConcurrency.state T;
  rm_phase : rm_state -> phase;
  rm_pushing : rm_state -> bool;
  rm_stopped : rm_state -> bool;
  rm_stopping : rm_state -> bool;
}.
#[global] Arguments rm_state {T} _.
#[global] Arguments rm_label {T} _.
#[global] Arguments rm_start {T} _.
#[global] Arguments rm_exec {T} _ _ _.
#[global] Arguments rm_push {T} _ _.
#[global] Arguments rm_action {T} _ _.
#[global] Arguments rm_ring {T} _ _.
#[global] Arguments rm_phase {T} _ _.
#[global] Arguments rm_pushing {T} _ _.
#[global] Arguments rm_stopped {T} _ _.
#[global] Arguments rm_stopping {T} _ _.

(** Where the consumer is after an access of its own that led to the ring [r]: the
    last store decides that an item was found, and a failed emptiness test ends the
    call of [queue_.pop]. *)
Definition after_access {T} (a : SpscConcurrency.label T) (r : SpscConcurrency.state T) : phase :=
  match a, cons r with
  | CPublish, _ => Returning true
  | CLoadW _, CIdle => Between
  | _, _ => Accessing
  end.

(** The laws: the ring is touched only by its own accesses, those of [pop] only
    inside [queue_.pop], and [pop] decides to return false only once stop has been
    requested. *)
Class RingMachineLaws {T : Type} (Capacity : Z) (M : RingMachine T) : Prop := {
  rm_start_ring : rm_ring M (rm_start M) = SpscConcurrency.start Capacity;
  rm_start_phase : rm_phase M (rm_start M) = Outside;
  rm_push_action x : rm_action M (rm_push M x) = Access (PCall x);
  rm_step l s s' : rm_exec M l s = Some s' ->
    match rm_action M l with
    | Access a =>
        SpscConcurrency.exec Capacity a (rm_ring M s) = Some (rm_ring M s') /\
        match a with
        | PCall _ | PLoadR _ | PConstruct | PPublish => rm_phase M s' = rm_phase M s
        | _ => rm_phase M s = Accessing /\ rm_phase M s' = after_access a (rm_ring M s')
        end
    | Call => rm_ring M s' = rm_ring M s /\ rm_phase M s = Outside /\ rm_phase M s' = Between
    | Return => rm_ring M s' = rm_ring M s /\ (exists b, rm_phase M s = Returning b) /\ rm_phase M s' = Outside
    | StopCall => rm_ring M s' = rm_ring M s /\ rm_phase M s' = rm_phase M s /\ rm_stopped M s' = true
    | Silent => rm_ring M s' = rm_ring M s /\
        (rm_phase M s' = rm_phase M s \/
         rm_phase M s = Between /\ (rm_phase M s' = Accessing \/
                                    rm_phase M s' = Returning false /\ rm_stopped M s' = true))
    end;
  rm_stop_only l s s' : rm_exec M l s = Some s' -> rm_action M l <> StopCall -> rm_stopped M s' = rm_stopped M s;
}.

Lemma rm_stop_stays {T} {Capacity} {M : RingMachine T} `{!RingMachineLaws Capacity M} l s s' :
  rm_exec M l s = Some s' -> rm_stopped M s = true -> rm_stopped M s' = true.
Proof.
  intros Hs Hst. assert (Hl : rm_action M l = StopCall \/ rm_action M l <> StopCall)
    by (destruct (rm_action M l); auto).
  destruct Hl as [Hl|Hl]; [|by rewrite (rm_stop_only l s s' Hs Hl)].
  pose proof (rm_step l s s' Hs) as Hx. rewrite Hl in Hx. apply Hx.
Qed.

(** [pop] has taken an item out of the ring and has not returned it yet. *)
Definition holding_item (p : phase) : bool := match p with Returning true => true | _ => false end.

(** The same machine when only some of its steps may be taken. *)
Definition restrict {T} (M : RingMachine T) (allowed : rm_label M -> rm_state M -> bool) : RingMachine T := {|
  rm_start := rm_start M;
  rm_exec l s := if allowed l s then rm_exec M l s else None;
  rm_push := rm_push M;
  rm_action := rm_action M;
  rm_ring := rm_ring M;
  rm_phase := rm_phase M;
  rm_pushing := rm_pushing M;
  rm_stopped := rm_stopped M;
  rm_stopping := rm_stopping M;
|}.

Lemma restrict_exec {T} (M : RingMachine T) allowed l s s' :
  rm_exec (restrict M allowed) l s = Some s' -> allowed l s = true /\ rm_exec M l s = Some s'.
Proof. simpl. by destruct (allowed l s). Qed.

Lemma restrict_take {T} (M : RingMachine T) allowed l s s' :
  allowed l s = true -> rm_exec M l s = Some s' -> rm_exec (restrict M allowed) l s = Some s'.
Proof. simpl. by intros ->. Qed.

#[export] Instance restrict_laws {T} (Capacity : Z) (M : RingMachine T) allowed `{!RingMachineLaws Capacity M} :
  RingMachineLaws Capacity (restrict M allowed).
Proof.
  split.
  - exact (rm_start_ring (M:=M)).
  - exact (rm_start_phase (M:=M)).
  - exact (rm_push_action (M:=M)).
  - intros l s s' [_ Hs]%restrict_exec. exact (rm_step (M:=M) l s s' Hs).
  - intros l s s' [_ Hs]%restrict_exec. exact (rm_stop_only (M:=M) l s s' Hs).
Qed.

(** A step that a thread takes to finish a call. *)
Definition finishing {T} (a : action T) : Prop :=
  match a with Access (PCall _) | Call | StopCall => False | _ => True end.

(** Progress, which not every machine makes: while stop has not been requested, a
    call of [pop] gets on whenever there is an item for it, and one of [push] on an
    empty ring. [rm_rank] decreases with every step but the store that publishes an
    item and the return of [pop]. *)
Class RingMachineLive {T : Type} (M : RingMachine T) := {
  rm_live : rm_state M -> Prop;
  rm_rank : rm_state M -> nat;
  rm_live_start : rm_live (rm_start M);
  rm_live_step l s s' : rm_live s -> rm_exec M l s = Some s' -> rm_live s';
  rm_call_enabled s : rm_live s -> rm_stopped M s = false -> rm_phase M s = Outside ->
    exists l s', rm_exec M l s = Some s' /\ rm_action M l = Call /\
      rm_stopped M s' = false /\ (rm_rank s' < rm_rank s)%nat;
  rm_pop_progress s : rm_live s -> rm_stopped M s = false -> rm_phase M s <> Outside ->
    SpscConcurrency.queued (rm_ring M s) <> [] \/ holding_item (rm_phase M s) = true ->
    exists l s', rm_exec M l s = Some s' /\ finishing (rm_action M l) /\ rm_stopped M s' = false /\
      (rm_action M l = Return \/ (rm_rank s' < rm_rank s)%nat);
  rm_push_enabled x s : rm_live s -> rm_pushing M s = false ->
    exists s', rm_exec M (rm_push M x) s = Some s' /\
      rm_stopped M s' = rm_stopped M s /\ (rm_rank s' < rm_rank s)%nat;
  rm_push_progress s : rm_live s -> rm_pushing M s = true -> SpscConcurrency.queued (rm_ring M s) = [] ->
    exists l s', rm_exec M l s = Some s' /\ finishing (rm_action M l) /\ rm_stopped M s' = rm_stopped M s /\
      (rm_action M l = Access PPublish \/ (rm_rank s' < rm_rank s)%nat);
}.

(** Steps that finish calls. *)
Definition finishes {T} (M : RingMachine T) (ls : list (rm_label M)) (s s' : rm_state M) : Prop :=
  run (rm_exec M) ls s = Some s' /\ Forall (fun l => finishing (rm_action M l)) ls.

Lemma finishes_nil {T} (M : RingMachine T) s : finishes M [] s s.
Proof. by split. Qed.

Lemma finishes_cons {T} (M : RingMachine T) l ls s s1 s' :
  rm_exec M l s = Some s1 -> finishing (rm_action M l) -> finishes M ls s1 s' -> finishes M (l :: ls) s s'.
Proof. intros He Hf [Hr Hls]. split; [simpl; by rewrite He|by constructor]. Qed.

Lemma finishes_app {T} (M : RingMachine T) ls ls' s s1 s' :
  finishes M ls s s1 -> finishes M ls' s1 s' -> finishes M (ls ++ ls') s s'.
Proof. intros [Hr Hl] [Hr' Hl']. split; [|by apply Forall_app]. by rewrite run_app, Hr. Qed.

(** Ending, which again not every machine manages: stop can be requested once and
    that call returns; a call of [push] returns; and once stop has been requested
    a call of [pop] returns, the next one with false. *)
Class RingMachineStops {T : Type} (M : RingMachine T) `{!RingMachineLive M} := {
  rm_stop_enabled s : rm_live s -> rm_stopped M s = false ->
    exists l s', rm_exec M l s = Some s' /\ rm_action M l = StopCall;
  rm_stop_returns s : rm_live s -> exists ls s', finishes M ls s s' /\ rm_stopping M s' = false;
  rm_push_returns s : rm_live s -> exists ls s', finishes M ls s s' /\ rm_pushing M s' = false;
  rm_pop_returns s : rm_live s -> rm_stopped M s = true -> exists ls s', finishes M ls s s' /\ rm_phase M s' = Outside;
  rm_pop_ends s : rm_live s -> rm_stopped M s = true -> rm_phase M s = Outside ->
    exists l s1 ls s2 l' s3, rm_exec M l s = Some s1 /\ rm_action M l = Call /\
      finishes M ls s1 s2 /\ rm_phase M s2 = Returning false /\
      rm_exec M l' s2 = Some s3 /\ rm_action M l' = Return;
}.

(** Which thread a step of the queue belongs to. *)
Inductive side := Producer | Consumer | Stopper.

#[export] Instance side_eq_dec : EqDecision side.
Proof. solve_decision. Defined.

(** Inevitable ending, of a queue that waits by spinning: whatever the order of the
    steps, those of a call of [push] are few and those left to [pop] once stop has
    been requested are few, calls included; and a call of [request_stop] is a single
    step. When stop has been requested, [rm_pop_rank] counts the steps up to the
    [pop] that returns false, a send of the item in between. *)
Class RingMachineEnds {T : Type} (M : RingMachine T) `{!RingMachineLive M} := {
  rm_side : rm_label M -> side;
  rm_push_rank : rm_state M -> nat;
  rm_pop_rank : rm_state M -> nat;
  rm_side_stop l : rm_action M l = StopCall <-> rm_side l = Stopper;
  rm_side_call l : rm_action M l = Call \/ rm_action M l = Return -> rm_side l = Consumer;
  rm_stop_takes s : rm_live s -> rm_stopped M s = false ->
    exists l s', rm_exec M l s = Some s' /\ rm_action M l = StopCall;
  rm_stop_prompt s : rm_stopping M s = false;
  rm_push_takes s : rm_live s -> rm_pushing M s = true ->
    exists l s', rm_exec M l s = Some s' /\ rm_side l = Producer /\ finishing (rm_action M l);
  rm_push_less l s s' : rm_exec M l s = Some s' -> rm_side l = Producer -> finishing (rm_action M l) ->
    (rm_push_rank s' < rm_push_rank s)%nat;
  rm_push_keeps l s s' : rm_exec M l s = Some s' -> rm_side l <> Producer -> rm_push_rank s' = rm_push_rank s;
  rm_pop_takes s : rm_live s -> rm_stopped M s = true ->
    exists l s', rm_exec M l s = Some s' /\ rm_side l = Consumer /\ (finishing (rm_action M l) \/ rm_action M l = Call);
  rm_pop_less l s s' : rm_live s -> rm_exec M l s = Some s' -> rm_stopped M s = true -> rm_side l = Consumer ->
    rm_action M l <> Return -> (rm_pop_rank s' < rm_pop_rank s)%nat;
  rm_pop_found l s s' : rm_exec M l s = Some s' -> rm_stopped M s = true -> rm_action M l = Return ->
    rm_phase M s = Returning true -> (S (S (rm_pop_rank s')) <= rm_pop_rank s)%nat;
  rm_pop_keeps l s s' : rm_exec M l s = Some s' -> rm_side l <> Consumer -> rm_pop_rank s' = rm_pop_rank s;
}.
