(* ===== verification/SpinSpscQueue.v ===== *)
(** [src/utils/SpinSpscQueue.h]: the busy-waiting wrapper over a storage, with
    the producer and the stop request as an environment that acts between the
    looks [pop] takes at the token and at the queue. *)

From S2P Require Import Prelude QueueConcepts.
From stdpp Require Import options.

Module SpinSpscQueue.
Section Ops.
Context {Q T : Type} `{SpscQueueStorage Q T}.

(** The wrapper's [queue_] and the state of the token [pop] was given. *)
Record world := World { queue_ : Q; stop_requested : bool }.

Definition push (item : T) (w : world) : option (bool * world) :=
  '(b, q) ← q_push item (queue_ w); Some (b, World q (stop_requested w)).

Definition empty (w : world) : bool := q_empty (queue_ w).

(** What other threads do: the producer pushes, someone requests stop. *)
Inductive env_event := EnvPush (x : T) | EnvStop.

Definition env_act (e : env_event) (w : world) : option world :=
  match e with
  | EnvPush x => '(_, w') ← push x w; Some w'
  | EnvStop => Some (World (queue_ w) true)
  end.

Fixpoint env_acts (es : list env_event) (w : world) : option world :=
  match es with
  | [] => Some w
  | e :: es' => w' ← env_act e w; env_acts es' w'
  end.

(** One turn of the loop: what happens before [stoken.stop_requested()] and what
happens between it and [queue_.pop(item)]. *)
Record turn := Turn { before_test : list env_event; before_pop : list env_event }.

Inductive outcome :=
  | Returned (b : bool) (item : T) (w : world)
  | Spinning (item : T) (w : world).     (* the given turns are over *)

(** [while (!stoken.stop_requested()) { if (queue_.pop(item)) return true; }
return false;] *)
Fixpoint pop (turns : list turn) (item : T) (w : world) : option outcome :=
  match turns with
  | [] => Some (Spinning item w)
  | t :: turns' =>
    w1 ← env_acts (before_test t) w;
    if stop_requested w1 then Some (Returned false item w1)
    else
      w2 ← env_acts (before_pop t) w1;
      '(b, item', q) ← q_pop item (queue_ w2);
      let w3 := World q (stop_requested w2) in
      if b : bool then Some (Returned true item' w3) else pop turns' item' w3
  end.

Definition turn_events (t : turn) : list env_event := before_test t ++ before_pop t.
End Ops.
#[global] Arguments world Q : clear implicits.
#[global] Arguments World {Q}.
#[global] Arguments queue_ {Q}.
#[global] Arguments stop_requested {Q}.
#[global] Arguments env_event T : clear implicits.
#[global] Arguments turn T : clear implicits.
#[global] Arguments outcome Q T : clear implicits.
End SpinSpscQueue.
Import SpinSpscQueue.

(** * Proofs *)

(** The items a list of events offers to the queue, and whether it requests stop. *)
Definition env_offers {T} (es : list (env_event T)) : list T :=
  omap (fun e => match e with EnvPush x => Some x | EnvStop => None end) es.
Definition env_stops {T} (es : list (env_event T)) : bool :=
  existsb (fun e => match e with EnvPush _ => false | EnvStop => true end) es.

Section Laws.
Context {Q T : Type} `{SpscQueueLaws Q T}.
Implicit Types (w : world Q) (l : list T).

(** The environment appends some of the items it offers. *)
Lemma env_acts_appends es w l : q_repr (queue_ w) l ->
  exists w' acc, env_acts es w = Some w' /\ q_repr (queue_ w') (l ++ acc) /\
    acc `sublist_of` env_offers es /\
    stop_requested w' = stop_requested w || env_stops es.
Proof using All.
  revert w l; induction es as [|[x|] es IH]; intros w l Hw; simpl.
  - exists w, []. by rewrite app_nil_r, orb_false_r.
  - unfold push. destruct (q_push_refines (queue_ w) l x Hw) as (q & -> & Hq). simpl.
    unfold Fifo.push in Hq. case_decide; simpl in Hq.
    + destruct (IH (World q (stop_requested w)) _ Hq) as (w' & acc & -> & Hw' & Hsub & Hst).
      exists w', (x :: acc). rewrite <- app_assoc in Hw'. split_and!; try done.
      by apply sublist_skip.
    + destruct (IH (World q (stop_requested w)) _ Hq) as (w' & acc & -> & Hw' & Hsub & Hst).
      exists w', acc. split_and!; try done. by apply sublist_cons.
  - destruct (IH (World (queue_ w) true) l Hw) as (w' & acc & -> & Hw' & Hsub & Hst).
    exists w', acc. split_and!; try done. rewrite Hst. simpl. by rewrite orb_true_r.
Qed.

(** What [pop] has done when the turns are over. *)
Definition pop_post (turns : list (turn T)) (item : T) l (stop : bool) (o : outcome Q T) : Prop :=
  exists acc l',
    acc `sublist_of` env_offers (mjoin (turn_events <$> turns)) /\
    match o with
    | Returned true x w' => q_repr (queue_ w') l' /\ l ++ acc = x :: l'
    | Returned false x w' =>
        q_repr (queue_ w') l' /\ l ++ acc = l' /\ x = item /\ stop_requested w' = true
    | Spinning x w' => q_repr (queue_ w') l' /\ l ++ acc = l' /\ x = item /\
        (turns <> [] -> l' = []) /\
        stop_requested w' = stop || env_stops (mjoin (turn_events <$> turns))
    end.

Lemma env_stops_app (es es' : list (env_event T)) :
  env_stops (es ++ es') = env_stops es || env_stops es'.
Proof using Type. apply existsb_app. Qed.

Lemma env_offers_app (es es' : list (env_event T)) :
  env_offers (es ++ es') = env_offers es ++ env_offers es'.
Proof using Type. apply omap_app. Qed.

Lemma pop_meets_post turns item w l : q_repr (queue_ w) l ->
  exists o, pop turns item w = Some o /\ pop_post turns item l (stop_requested w) o.
Proof using All.
  revert w l; induction turns as [|t turns IH]; intros w l Hw; simpl.
  - eexists; split; [done|]. exists [], l. rewrite app_nil_r. split; [constructor|].
    split_and!; try done. by rewrite orb_false_r.
  - destruct (env_acts_appends (before_test t) w l Hw) as (w1 & acc1 & -> & Hw1 & Hsub1 & Hst1). simpl.
    destruct (stop_requested w1) eqn:Hs1.
    { eexists; split; [done|]. exists acc1, (l ++ acc1). simpl. unfold turn_events.
      rewrite !env_offers_app. split; [|done]. by do 2 apply sublist_inserts_r. }
    destruct (env_acts_appends (before_pop t) w1 _ Hw1) as (w2 & acc2 & -> & Hw2 & Hsub2 & Hst2). simpl.
    destruct (q_pop_refines (queue_ w2) _ item Hw2) as (q & -> & Hq). rewrite <- app_assoc in *.
    assert (Hsub : acc1 ++ acc2 `sublist_of` env_offers (turn_events t)).
    { unfold turn_events. rewrite env_offers_app. by apply sublist_app. }
    destruct (l ++ acc1 ++ acc2) as [|x l'] eqn:Hl; simpl.
    + destruct (IH (World q (stop_requested w2)) [] Hq) as (o & -> & acc & l' & Hacc & Ho).
      eexists; split; [done|]. exists (acc1 ++ acc2 ++ acc), l'. simpl.
      rewrite env_offers_app, app_assoc.
      split; [by apply sublist_app|].
      assert (El : l ++ (acc1 ++ acc2) ++ acc = [] ++ acc) by (by rewrite app_assoc, Hl).
      rewrite El. destruct o as [[] y w'|y w']; [done|done|].
      destruct Ho as (Hq' & Hl' & -> & Hne & Hst). split_and!; try done.
      * intros _. destruct turns as [|t' turns]; [|by apply Hne].
        apply sublist_nil_r in Hacc. by subst.
      * rewrite Hst. simpl. rewrite Hst2. unfold turn_events at 2.
        rewrite !env_stops_app. rewrite Hs1. revert Hst1. by destruct (stop_requested w), (env_stops (before_test t)).
    + eexists; split; [done|]. exists (acc1 ++ acc2), l'. simpl. rewrite env_offers_app.
      split; [by apply sublist_inserts_r|done].
Qed.

(** Once stop has been requested, the next turn ends the loop. *)
Lemma pop_stopped turns t item w l : q_repr (queue_ w) l -> stop_requested w = true ->
  exists w', pop (t :: turns) item w = Some (Returned false item w').
Proof using All.
  intros Hw Hst. simpl.
  destruct (env_acts_appends (before_test t) w l Hw) as (w1 & acc1 & -> & _ & _ & Hst1). simpl.
  rewrite Hst1, Hst. simpl. eauto.
Qed.

Lemma pop_app turns turns' item w o : pop turns item w = Some o ->
  pop (turns ++ turns') item w =
  match o with Spinning item' w' => pop turns' item' w' | _ => Some o end.
Proof using Type.
  revert item w; induction turns as [|t turns IH]; intros item w; simpl.
  - by intros [= <-].
  - destruct (env_acts (before_test t) w) as [w1|]; simpl; [|done].
    destruct (stop_requested w1); [by intros [= <-]|].
    destruct (env_acts (before_pop t) w1) as [w2|]; simpl; [|done].
    destruct (q_pop item (queue_ w2)) as [[[b x] q]|]; simpl; [|done].
    destruct b; [by intros [= <-]|]. apply IH.
Qed.
End Laws.


(** * Properties *)

(** C27: over any lawful storage, whatever the producer and the stop request do
    meanwhile, [pop] loses no item and makes none up: on [true] it hands over the
    oldest item of the queue, on [false] stop has been requested and the item and
    the queue are as they were, and while it spins the queue is empty. *)
Theorem spin_pop_exact {Q T : Type} `{SpscQueueLaws Q T} (turns : list (turn T)) (item : T)
    (w : world Q) (l : list T) :
  q_repr (queue_ w) l ->
  exists o acc l', pop turns item w = Some o /\
    acc `sublist_of` env_offers (mjoin (turn_events <$> turns)) /\
    match o with
    | Returned true x w' => q_repr (queue_ w') l' /\ l ++ acc = x :: l'
    | Returned false x w' =>
        q_repr (queue_ w') (l ++ acc) /\ x = item /\ stop_requested w' = true
    | Spinning x w' => q_repr (queue_ w') (l ++ acc) /\ x = item /\ (turns <> [] -> l ++ acc = [])
    end.
Proof.
  intros Hw. destruct (pop_meets_post turns item w l Hw) as (o & Ho & acc & l' & Hacc & Hpost).
  exists o, acc, l'. split_and!; [done..|].
  destruct o as [[] x w'|x w']; [done|..].
  - by destruct Hpost as (? & -> & ? & ?).
  - by destruct Hpost as (? & -> & ? & ? & _).
Qed.

(** A pop that spins for two turns, then finds the item pushed meanwhile. *)
Lemma spin_pop_exact_witness :
  exists o acc l',
    pop [Turn [] []; Turn [] []; Turn [EnvPush 5] [EnvStop; EnvPush 6]] 0
        (World (MkListQueue [] : ListQueue 4 Z) false) = Some o /\
    acc `sublist_of` [5; 6] /\
    match o with
    | Returned true x w' => q_repr (queue_ w') l' /\ [] ++ acc = x :: l'
    | Returned false x w' => q_repr (queue_ w') ([] ++ acc) /\ x = 0 /\ stop_requested w' = true
    | Spinning x w' => q_repr (queue_ w') ([] ++ acc) /\ x = 0 /\
        ([Turn [] []; Turn [] []; Turn [EnvPush 5] [EnvStop; EnvPush 6]] <> [] -> [] ++ acc = [])
    end.
Proof.
  apply (spin_pop_exact (Q:=ListQueue 4 Z)
           [Turn [] []; Turn [] []; Turn [EnvPush 5] [EnvStop; EnvPush 6]] 0
           (World (MkListQueue []) false) []).
  split; [reflexivity|simpl; lia].
Defined.

(** The spin loop terminates once stop is requested: if the events of some
    turn request it, [pop] returns by the end of the following turn. *)
Theorem spin_pop_terminates {Q T : Type} `{SpscQueueLaws Q T} (turns turns' : list (turn T))
    (t : turn T) (item : T) (w : world Q) (l : list T) :
  q_repr (queue_ w) l -> env_stops (mjoin (turn_events <$> turns)) = true ->
  exists b x w', pop (turns ++ t :: turns') item w = Some (Returned b x w').
Proof.
  intros Hw Hstop. destruct (pop_meets_post turns item w l Hw) as (o & Ho & acc & l' & _ & Hpost).
  rewrite (pop_app _ _ _ _ _ Ho). destruct o as [b x w'|x w']; [by eauto|].
  destruct Hpost as (Hq & _ & _ & _ & Hst). rewrite Hstop, orb_true_r in Hst.
  destruct (pop_stopped turns' t x w' l' Hq Hst) as (w'' & ->). eauto.
Qed.

Lemma spin_pop_terminates_witness :
  exists b x w', pop ([Turn [] []; Turn [] [EnvStop]] ++ [Turn [] []]) 0
                     (World (MkListQueue [] : ListQueue 4 Z) false) = Some (Returned b x w').
Proof.
  apply (spin_pop_terminates (Q:=ListQueue 4 Z) [Turn [] []; Turn [] [EnvStop]] [] (Turn [] []) 0
           (World (MkListQueue []) false) []).
  - split; [reflexivity|simpl; lia].
  - reflexivity.
Defined.
