(* ===== verification/WaitableSpscQueue.v ===== *)
(** [src/utils/WaitableSpscQueue.h]: the wrapper whose [pop] sleeps on
    [is_sleeping_], as a machine of three threads: the producer in [push], the
    consumer in [pop], and the thread that requests stop. *)

From S2P Require Import Prelude QueueConcepts.
From stdpp Require Import options.

Module WaitableSpscQueue.

(** Under [SC] every store is visible before the thread's next access. Under
  [TSO], the model of the x86 processors the program targets, the producer's
  release and relaxed accesses are plain moves: its stores wait in a store
  buffer which its later loads may overtake. *)
Inductive memory_model := SC | TSO.

Section Machine.
Context {T : Type} (mm : memory_model) (cap : nat).

(** A store of the producer on its way to memory: the [write_] store that
publishes an item, or [is_sleeping_ = false]. *)
Inductive store := StItem (x : T) | StAwake.

Inductive producer :=
  | PIdle
  | PPushed                  (* [queue_.push(item)] returned true *)
  | PWake                    (* [is_sleeping_.load()] returned true *)
  | PNotify.                 (* before [notify_one()] *)

Inductive consumer :=
  | CIdle
  | CTest                    (* at [while (!stoken.stop_requested())] *)
  | CPop1                    (* at the first [queue_.pop(item)] *)
  | CSleep                   (* at [is_sleeping_.store(true, seq_cst)] *)
  | CPop2                    (* at the second [queue_.pop(item)] *)
  | CAwake (x : T)           (* at [is_sleeping_.store(false, relaxed)] *)
  | CWait                    (* at [is_sleeping_.wait(true)]: reads the value *)
  | CBlocked                 (* asleep inside [wait] *)
  | CReturn (r : option T).  (* leaving [pop]: destroys the stop callback *)

Inductive stopper := SIdle | SCallback | SNotify | SDone.

(** [accepted] and [taken] record the items [push] accepted and the items [pop]
returned; [returned] counts the calls of [pop] that returned. *)
Record state := State {
  queue : list T;
  buffer : list store;
  is_sleeping : bool;
  stop_flag : bool;
  registered : bool;         (* the [stop_callback] object exists *)
  prod : producer;
  cons : consumer;
  stop : stopper;
  accepted : list T;
  taken : list T;
  returned : nat;
}.

Definition init : state := State [] [] false false false PIdle CIdle SIdle [] [] 0.

Definition buffered_items (b : list store) : list T :=
  omap (fun e => match e with StItem x => Some x | StAwake => None end) b.

(** [is_sleeping_] as the producer reads it: its own buffered store comes first. *)
Definition producer_sees (s : state) : bool :=
  if existsb (fun e => match e with StAwake => true | StItem _ => false end) (buffer s)
  then false else is_sleeping s.

Definition set_prod (p : producer) (b : list store) (acc : list T) (s : state) : state :=
  State (queue s) b (is_sleeping s) (stop_flag s) (registered s) p (cons s) (stop s)
      acc (taken s) (returned s).
Definition set_cons (c : consumer) (q : list T) (sl : bool) (s : state) : state :=
  State q (buffer s) sl (stop_flag s) (registered s) (prod s) c (stop s)
      (accepted s) (taken s) (returned s).
Definition set_stop (st : stopper) (sl flag : bool) (s : state) : state :=
  State (queue s) (buffer s) sl flag (registered s) (prod s) (cons s) st
      (accepted s) (taken s) (returned s).
Definition set_memory (q : list T) (b : list store) (sl : bool) (s : state) : state :=
  State q b sl (stop_flag s) (registered s) (prod s) (cons s) (stop s)
      (accepted s) (taken s) (returned s).
Definition set_registered (r : bool) (c : consumer) (sl : bool) (s : state) : state :=
  State (queue s) (buffer s) sl (stop_flag s) r (prod s) c (stop s)
      (accepted s) (taken s) (returned s).

(** [notify_one] and [notify_all]: there is one waiter at most; it reads
[is_sleeping_] again. *)
Definition notified (c : consumer) : consumer :=
  match c with CBlocked => CWait | _ => c end.

Inductive label :=
  | PushCall (x : T) | PushLoad | PushStore | PushNotify | Drain
  | PopCall | PopTest | Pop1 | PopSleep | Pop2 | PopAwake | PopWait | PopSpurious | PopReturn
  | StopRequest | StopStore | StopNotify.

(** Under [SC] a producer access waits for the previous store. *)
Definition may_access (s : state) : bool :=
  match mm, buffer s with SC, _ :: _ => false | _, _ => true end.

Definition push_step (l : label) (s : state) : option state :=
  match l, prod s with
  | PushCall x, PIdle =>
    if negb (may_access s) then None
    else if (length (queue s ++ buffered_items (buffer s)) <? cap)%nat
    then Some (set_prod PPushed (buffer s ++ [StItem x]) (accepted s ++ [x]) s)
    else Some s
  | PushLoad, PPushed =>
    if negb (may_access s) then None
    else Some (set_prod (if producer_sees s then PWake else PIdle) (buffer s) (accepted s) s)
  | PushStore, PWake =>
    if negb (may_access s) then None
    else Some (set_prod PNotify (buffer s ++ [StAwake]) (accepted s) s)
  | PushNotify, PNotify =>
    (* the wake-up call is a system call: the buffer has drained *)
    match buffer s with
    | [] => Some (set_prod PIdle [] (accepted s) (set_cons (notified (cons s)) (queue s) (is_sleeping s) s))
    | _ => None
    end
  | Drain, _ =>
    match buffer s with
    | StItem x :: b => Some (set_memory (queue s ++ [x]) b (is_sleeping s) s)
    | StAwake :: b => Some (set_memory (queue s) b false s)
    | [] => None
    end
  | _, _ => None
  end.

Definition pop_step (l : label) (s : state) : option state :=
  match l, cons s with
  | PopCall, CIdle =>
    (* constructing [stop_callback] runs it at once if stop was requested *)
    if stop_flag s then Some (set_cons CTest (queue s) false s)
    else Some (set_registered true CTest (is_sleeping s) s)
  | PopTest, CTest =>
    Some (set_cons (if stop_flag s then CReturn None else CPop1) (queue s) (is_sleeping s) s)
  | Pop1, CPop1 =>
    match queue s with
    | x :: q => Some (set_cons (CReturn (Some x)) q (is_sleeping s) s)
    | [] => Some (set_cons CSleep [] (is_sleeping s) s)
    end
  | PopSleep, CSleep => Some (set_cons CPop2 (queue s) true s)
  | Pop2, CPop2 =>
    match queue s with
    | x :: q => Some (set_cons (CAwake x) q (is_sleeping s) s)
    | [] => Some (set_cons CWait [] (is_sleeping s) s)
    end
  | PopAwake, CAwake x => Some (set_cons (CReturn (Some x)) (queue s) false s)
  | PopWait, CWait =>
    Some (set_cons (if is_sleeping s then CBlocked else CTest) (queue s) (is_sleeping s) s)
  | PopSpurious, CBlocked => Some (set_cons CWait (queue s) (is_sleeping s) s)
  | PopReturn, CReturn r =>
    (* [~stop_callback] waits for a callback that is running *)
    match stop s with
    | SNotify => None
    | _ => Some (State (queue s) (buffer s) (is_sleeping s) (stop_flag s) false (prod s) CIdle
                       (stop s) (accepted s)
                       (taken s ++ match r with Some x => [x] | None => [] end) (S (returned s)))
    end
  | _, _ => None
  end.

Definition stop_step (l : label) (s : state) : option state :=
  match l, stop s with
  | StopRequest, SIdle =>
    Some (set_stop (if registered s then SCallback else SDone) (is_sleeping s) true s)
  | StopStore, SCallback =>
    if registered s then Some (set_stop SNotify false (stop_flag s) s)
    else Some (set_stop SDone (is_sleeping s) (stop_flag s) s)
  | StopNotify, SNotify =>
    Some (set_stop SDone (is_sleeping s) (stop_flag s)
            (set_cons (notified (cons s)) (queue s) (is_sleeping s) s))
  | _, _ => None
  end.

Definition exec (l : label) (s : state) : option state :=
  match l with
  | PushCall _ | PushLoad | PushStore | PushNotify | Drain => push_step l s
  | PopCall | PopTest | Pop1 | PopSleep | Pop2 | PopAwake | PopWait | PopSpurious | PopReturn => pop_step l s
  | StopRequest | StopStore | StopNotify => stop_step l s
  end.

Definition reachable (s : state) : Prop := rtc (labelled_step exec) init s.

(** The steps of threads that finish what they have begun: no new [push] call and
no stop request. *)
Definition quiet (l : label) : bool :=
  match l with PushCall _ | StopRequest => false | _ => true end.
Definition quiet_step (s s' : state) : Prop := exists l, quiet l = true /\ exec l s = Some s'.
End Machine.
#[global] Arguments store T : clear implicits.
#[global] Arguments consumer T : clear implicits.
#[global] Arguments state T : clear implicits.
#[global] Arguments label T : clear implicits.
End WaitableSpscQueue.
Import WaitableSpscQueue.

(** * Proofs *)

(** The item a consumer has taken and not yet returned. *)
Definition in_hand {T} (s : state T) : list T :=
  match cons s with CAwake x | CReturn (Some x) => [x] | _ => [] end.

Section Conservation.
Context {T : Type} (mm : memory_model) (cap : nat).
Implicit Types (s : state T).

Definition conserved s : Prop :=
  taken s ++ in_hand s ++ queue s ++ buffered_items (buffer s) = accepted s /\
  (length (queue s ++ buffered_items (buffer s)) <= cap)%nat.

Lemma buffered_items_app (b b' : list (store T)) :
  buffered_items (b ++ b') = buffered_items b ++ buffered_items b'.
Proof. apply omap_app. Qed.

Lemma match_notified {B} (c : consumer T) (f : T -> B) (g : option T -> B) (d : B) :
  match notified c with CAwake x => f x | CReturn r => g r | _ => d end =
  match c with CAwake x => f x | CReturn r => g r | _ => d end.
Proof. by destruct c. Qed.

(** Close a goal [taken ++ ... = accepted /\ length ... <= cap]. *)
Ltac conserve Hc :=
  rewrite <- ?Hc, ?match_notified; simpl;
  split; [by rewrite <- ?app_assoc, ?app_nil_r; simpl; rewrite <- ?app_assoc
         | rewrite ?length_app in *; simpl in *;
           repeat match goal with H : (_ <? _)%nat = true |- _ => apply Nat.ltb_lt in H end; lia ].

Lemma conserved_step l s s' : conserved s -> exec mm cap l s = Some s' -> conserved s'.
Proof.
  unfold conserved, in_hand. intros [Hc Hb] Hs.
  destruct l; simpl in Hs; unfold push_step, pop_step, stop_step in Hs; step_cases; simpl in *;
    repeat match goal with E : ?f s = _ |- _ => rewrite ?E in *; clear E end;
    simpl in *; rewrite ?buffered_items_app, ?app_nil_r in *; simpl in *.
  all: try conserve Hc.
  all: try (destruct (stop_flag s); conserve Hc).
  all: try (destruct (is_sleeping s); conserve Hc).
  all: destruct r; conserve Hc.
Qed.

Lemma conserved_reachable s : reachable mm cap s -> conserved s.
Proof.
  intros Hr. refine (rtc_invariant _ conserved _ _ _ Hr _).
  - intros x y Hx [l Hl]. by eapply conserved_step.
  - split; simpl; [done|lia].
Qed.
End Conservation.

(** ** Wake-ups under sequential consistency *)

Section Wakeups.
Context {T : Type} (cap : nat).
Implicit Types (s : state T).

(** What the store buffer holds at each point of [push]. *)
Definition buffer_shape s : Prop :=
  match prod s with
  | PIdle | PWake => buffer s = []
  | PPushed => buffer s = [] \/ exists x, buffer s = [StItem x]
  | PNotify => buffer s = [] \/ buffer s = [StAwake]
  end.

Definition wake_pending s : Prop := prod s = PNotify \/ stop s = SNotify.

(** The producer has pushed and has not cleared the flag yet. *)
Definition push_unfinished s : Prop :=
  match prod s with
  | PPushed | PWake => True
  | PNotify => buffer s = [StAwake]
  | PIdle => False
  end.

Definition waiting s : Prop := cons s = CWait \/ cons s = CBlocked.

Record wake_inv s : Prop := {
  wi_shape : buffer_shape s;
  wi_notified : cons s = CBlocked -> is_sleeping s = false -> wake_pending s;
  wi_items : waiting s -> is_sleeping s = true -> queue s <> [] -> push_unfinished s;
}.

Lemma notified_not_blocked (c : consumer T) : notified c <> CBlocked.
Proof. by destruct c. Qed.

Lemma notified_waiting (c : consumer T) : notified c = CWait -> c = CWait \/ c = CBlocked.
Proof. destruct c; simpl; auto. Qed.

Lemma may_access_SC s : negb (may_access SC s) = false -> buffer s = [].
Proof. unfold may_access. by destruct (buffer s). Qed.

Ltac wake_solve :=
  unfold buffer_shape, wake_pending, push_unfinished, waiting, producer_sees, notified in *;
  simpl in *;
  repeat match goal with E : ?f _ = _ |- _ => progress rewrite ?E in *; clear E end; simpl in *;
  intuition (try congruence; eauto);
  repeat match goal with H : exists _, _ |- _ => destruct H end; simplify_eq; eauto.

Lemma wake_inv_push l s s' : wake_inv s -> push_step SC cap l s = Some s' -> wake_inv s'.
Proof.
  intros [Hsh Hn Hi] Hs. destruct l; simpl in Hs; unfold push_step in Hs; step_cases;
    repeat match goal with E : negb _ = false |- _ => apply may_access_SC in E end.
  - split; wake_solve.
  - by split.
  - split; unfold producer_sees; destruct (is_sleeping s) eqn:?; wake_solve.
  - split; wake_solve.
  - split; destruct (cons s) eqn:?; wake_solve.
  - destruct (prod s) eqn:?; split; wake_solve.
  - destruct (prod s) eqn:?; split; wake_solve.
Qed.

Lemma wake_inv_pop l s s' : wake_inv s -> pop_step l s = Some s' -> wake_inv s'.
Proof.
  intros [Hsh Hn Hi] Hs. destruct l; simpl in Hs; unfold pop_step in Hs; step_cases;
    split; destruct (stop_flag s) eqn:?, (is_sleeping s) eqn:?; wake_solve.
Qed.

Lemma wake_inv_stop l s s' : wake_inv s -> stop_step l s = Some s' -> wake_inv s'.
Proof.
  intros [Hsh Hn Hi] Hs. destruct l; simpl in Hs; unfold stop_step in Hs; step_cases;
    split; destruct (cons s) eqn:?; wake_solve.
Qed.

Lemma wake_inv_reachable s : reachable SC cap s -> wake_inv s.
Proof.
  intros Hr. refine (rtc_invariant _ wake_inv _ _ _ Hr _).
  - intros x y Hx [l Hl].
    destruct l; first [ exact (wake_inv_push _ _ _ Hx Hl) | exact (wake_inv_pop _ _ _ Hx Hl)
      | exact (wake_inv_stop _ _ _ Hx Hl) ].
  - split; unfold waiting, buffer_shape; simpl; intuition congruence.
Qed.
End Wakeups.

(** ** Sleepers nobody wakes *)

Section Stuck.
Context {T : Type} (mm : memory_model) (cap : nat).
Implicit Types (s : state T).

(** The consumer waits, the flag says so, and nobody is about to clear it. *)
Definition stuck s : Prop :=
  waiting s /\ is_sleeping s = true /\ prod s = PIdle /\ buffer s = [] /\
  (stop s = SIdle \/ stop s = SDone).

Lemma stuck_blocked s :
  cons s = CBlocked -> is_sleeping s = true -> prod s = PIdle -> buffer s = [] ->
  (stop s = SIdle \/ stop s = SDone) -> stuck s.
Proof. unfold stuck, waiting. tauto. Qed.

Lemma stuck_step l s s' :
  stuck s -> quiet l = true -> exec mm cap l s = Some s' ->
  stuck s' /\ queue s' = queue s /\ returned s' = returned s /\ taken s' = taken s.
Proof.
  intros (Hw & Hsl & Hp & Hb & Hst) Hq Hs. unfold stuck, waiting in *.
  destruct l; simpl in Hq; try discriminate Hq; simpl in Hs;
    unfold push_step, pop_step, stop_step in Hs; step_cases; simpl in *;
    rewrite ?Hsl in *; intuition (congruence || eauto).
Qed.

(** Without a new push or stop request it stays asleep for ever. *)
Lemma stuck_forever s s' :
  rtc (quiet_step mm cap) s s' -> stuck s ->
  stuck s' /\ queue s' = queue s /\ returned s' = returned s /\ taken s' = taken s.
Proof.
  induction 1 as [s|s s1 s' (l & Hq & Hl) _ IH]; intros Hst; [done|].
  destruct (stuck_step l s s1 Hst Hq Hl) as (Hst1 & Eq & Er & Et).
  destruct (IH Hst1) as (? & ? & ? & ?). split_and!; (done || congruence).
Qed.
End Stuck.

(** ** A consumer inside [pop] before any stop request has its callback *)

Section Registered.
Context {T : Type} (mm : memory_model) (cap : nat).
Implicit Types (s : state T).

Definition callback_inv s : Prop :=
  stop s = SIdle -> stop_flag s = false /\ (cons s = CIdle \/ registered s = true).

Lemma callback_inv_step l s s' : callback_inv s -> exec mm cap l s = Some s' -> callback_inv s'.
Proof.
  unfold callback_inv. intros Hi Hs.
  destruct l; simpl in Hs; unfold push_step, pop_step, stop_step in Hs; step_cases; simpl in *;
    repeat match goal with E : ?f _ = _ |- _ => progress rewrite ?E in *; clear E end;
    try (destruct (registered s); discriminate).
  all: intuition (try congruence; auto).
  left. unfold notified. destruct (cons s); congruence.
Qed.

Lemma callback_reachable s : reachable mm cap s -> callback_inv s.
Proof.
  intros Hr. refine (rtc_invariant _ callback_inv _ _ _ Hr _).
  - intros x y Hx [l Hl]. by eapply callback_inv_step.
  - intros _. simpl. auto.
Qed.
End Registered.

(** * Properties *)

(** In both memory models nothing is lost, duplicated or reordered: the items
    [pop] has returned, then the one it holds, then those in the queue, then those
    in the producer's store buffer are the accepted items in order; the queue
    never exceeds its capacity. *)
Theorem waitable_conserves_items {T} (mm : memory_model) (cap : nat) (s : state T) :
  reachable mm cap s ->
  taken s ++ in_hand s ++ queue s ++ buffered_items (buffer s) = accepted s /\
  (length (queue s ++ buffered_items (buffer s)) <= cap)%nat.
Proof. apply conserved_reachable. Qed.

(** The consumer finds an item at its second look, after announcing its sleep. *)
Definition second_look_schedule : list (label Z) :=
  [PopCall; PopTest; Pop1; PushCall 7; PopSleep; Drain; Pop2; PushLoad; PopAwake; PopReturn;
   PushStore; Drain; PushNotify; PushCall 8].

Definition second_look_state : state Z :=
  State [] [StItem 8] false false false PPushed CIdle SIdle [7; 8] [7] 1.

Lemma second_look_run :
  run (exec TSO 2) second_look_schedule init = Some second_look_state.
Proof. vm_compute. reflexivity. Qed.

Lemma waitable_conserves_items_witness :
  [7] ++ [] ++ [] ++ [8] = [7; 8] /\ (length ([] ++ [8]) <= 2)%nat.
Proof.
  apply (waitable_conserves_items TSO 2 second_look_state).
  exact (run_rtc _ _ _ _ second_look_run).
Defined.

(** With sequentially consistent accesses no wake-up of a push is lost: when
    the consumer sleeps, the producer is between calls and no notification is on
    its way, the queue is empty and the flag announces the sleeper. *)
Theorem waitable_sc_no_lost_wakeup {T} (cap : nat) (s : state T) :
  reachable SC cap s -> cons s = CBlocked -> prod s = PIdle -> stop s <> SNotify ->
  queue s = [] /\ is_sleeping s = true.
Proof.
  intros Hr Hc Hp Hst. destruct (wake_inv_reachable cap s Hr) as [Hsh Hn Hi].
  unfold wake_pending, waiting, push_unfinished in *. rewrite Hp in *.
  assert (Hsl : is_sleeping s = true).
  { destruct (is_sleeping s); [done|]. destruct (Hn Hc eq_refl); congruence. }
  split; [|done]. destruct (queue s); [done|]. exfalso. by apply Hi; [right| |].
Qed.

Definition sleeping_schedule : list (label Z) :=
  [PopCall; PopTest; Pop1; PopSleep; Pop2; PopWait].

Definition sleeping_state : state Z :=
  State [] [] true false true PIdle CBlocked SIdle [] [] 0.

Lemma sleeping_run mm : run (exec mm 2) sleeping_schedule init = Some sleeping_state.
Proof. destruct mm; vm_compute; reflexivity. Qed.

Lemma waitable_sc_no_lost_wakeup_witness :
  queue sleeping_state = [] /\ is_sleeping sleeping_state = true.
Proof.
  apply (waitable_sc_no_lost_wakeup 2 sleeping_state);
    [exact (run_rtc _ _ _ _ (sleeping_run SC))|reflexivity|reflexivity|discriminate].
Defined.

(** C25: on x86 the relaxed load of [is_sleeping_] in [push] may overtake the store
    that publishes the item. The item then becomes visible after the consumer's
    second look, [push] has returned without waking anyone, and, until another
    push or a stop request, the consumer sleeps for ever next to a queued item. *)
Theorem waitable_tso_lost_wakeup :
  exists s : state Z,
    run (exec TSO 2)
        [PopCall; PopTest; Pop1; PushCall 7; PushLoad; PopSleep; Pop2; PopWait; Drain] init = Some s /\
    prod s = PIdle /\ queue s = [7] /\ cons s = CBlocked /\ stop_flag s = false /\
    forall s', rtc (quiet_step TSO 2) s s' ->
      queue s' = [7] /\ (cons s' = CBlocked \/ cons s' = CWait) /\ returned s' = 0%nat.
Proof.
  eexists. split; [vm_compute; reflexivity|]. split_and!; try reflexivity.
  intros s' Hs'. destruct (stuck_forever TSO 2 _ s' Hs') as ((Hw & _) & Hq & Hr & _);
    [by apply stuck_blocked; auto|]. unfold waiting in Hw. simpl in *. tauto.
Qed.

(** A stop request can be lost as well, under any memory model. If it comes
    between the consumer's test of the token and its store of [is_sleeping_], the
    stop callback clears a flag the consumer then sets again: the consumer blocks
    although stop has been requested, and unless an item is pushed [pop] never
    returns, so that joining its thread never does. *)
Theorem waitable_lost_stop (mm : memory_model) :
  exists s : state Z,
    run (exec mm 2)
        [PopCall; PopTest; StopRequest; StopStore; StopNotify; Pop1; PopSleep; Pop2; PopWait] init = Some s /\
    stop_flag s = true /\ stop s = SDone /\ cons s = CBlocked /\
    forall s', rtc (quiet_step mm 2) s s' ->
      (cons s' = CBlocked \/ cons s' = CWait) /\ returned s' = 0%nat.
Proof.
  eexists. split; [destruct mm; vm_compute; reflexivity|]. split_and!; try reflexivity.
  intros s' Hs'. destruct (stuck_forever mm 2 _ s' Hs') as ((Hw & _) & _ & Hr & _);
    [by apply stuck_blocked; auto|]. unfold waiting in Hw. simpl in *. tauto.
Qed.

(** A sleeping consumer is woken by the next push and returns the oldest item
    of the queue, in either memory model, also when an earlier wake-up was lost. *)
Theorem waitable_push_wakes {T} (mm : memory_model) (cap : nat) (s : state T) (x : T) :
  reachable mm cap s -> cons s = CBlocked -> is_sleeping s = true -> prod s = PIdle ->
  buffer s = [] -> stop s = SIdle -> (length (queue s) < cap)%nat ->
  exists s', run (exec mm cap) [PushCall x; Drain; PushLoad; PushStore; Drain; PushNotify;
                                PopWait; PopTest; Pop1; PopReturn] s = Some s' /\
    taken s' = taken s ++ take 1 (queue s ++ [x]) /\ returned s' = S (returned s) /\
    queue s' = drop 1 (queue s ++ [x]).
Proof.
  intros Hr Hc Hsl Hp Hb Hst Hroom.
  destruct (callback_reachable mm cap s Hr Hst) as [Hflag _].
  destruct s as [q b sl fl reg p c st acc tk n]; simpl in *. subst.
  assert (Hlt : (length (q ++ []) <? cap)%nat = true) by (rewrite app_nil_r; by apply Nat.ltb_lt).
  unfold push_step, may_access; simpl. rewrite Hlt.
  destruct mm, q as [|y q]; simpl; rewrite ?app_nil_r; eauto.
Qed.

Definition lost_wakeup_state : state Z :=
  State [7] [] true false true PIdle CBlocked SIdle [7] [] 0.

Lemma lost_wakeup_run :
  run (exec TSO 2) [PopCall; PopTest; Pop1; PushCall 7; PushLoad; PopSleep; Pop2; PopWait; Drain] init
  = Some lost_wakeup_state.
Proof. vm_compute. reflexivity. Qed.

Lemma waitable_push_wakes_witness :
  exists s', run (exec TSO 2) [PushCall 8; Drain; PushLoad; PushStore; Drain; PushNotify;
                               PopWait; PopTest; Pop1; PopReturn] lost_wakeup_state = Some s' /\
    taken s' = [] ++ take 1 ([7] ++ [8]) /\ returned s' = 1%nat /\ queue s' = drop 1 ([7] ++ [8]).
Proof.
  apply (waitable_push_wakes TSO 2 lost_wakeup_state 8);
    [exact (run_rtc _ _ _ _ lost_wakeup_run)|reflexivity..|simpl; lia].
Defined.

(** C26: a stop request that finds the consumer asleep does wake it: [pop] returns
    [false] without an item. *)
Theorem waitable_stop_wakes_sleeper {T} (mm : memory_model) (cap : nat) (s : state T) :
  reachable mm cap s -> cons s = CBlocked -> stop s = SIdle ->
  exists s', run (exec mm cap) [StopRequest; StopStore; StopNotify; PopWait; PopTest; PopReturn] s = Some s' /\
    returned s' = S (returned s) /\ taken s' = taken s /\ queue s' = queue s.
Proof.
  intros Hr Hc Hst. destruct (callback_reachable mm cap s Hr Hst) as [_ [?|Hreg]]; [congruence|].
  destruct s as [q b sl fl reg p c st acc tk n]; simpl in *. subst. simpl.
  eexists. split; [reflexivity|]. simpl. by rewrite app_nil_r.
Qed.

Lemma waitable_stop_wakes_sleeper_witness :
  exists s', run (exec SC 2) [StopRequest; StopStore; StopNotify; PopWait; PopTest; PopReturn] sleeping_state
      = Some s' /\
    returned s' = 1%nat /\ taken s' = [] /\ queue s' = [].
Proof.
  apply (waitable_stop_wakes_sleeper SC 2 sleeping_state);
    [exact (run_rtc _ _ _ _ (sleeping_run SC))|reflexivity..].
Defined.
