(* ===== verification/WaitableRing.v ===== *)
(** [src/utils/WaitableSpscQueue.h] over [CustomSpscQueue.h]: the sleeping wrapper
    run access by access, those of the ring included, by a producer, a consumer and
    a thread that requests stop. [SpscConcurrency.v] has the ring as a machine of
    its own; here it is a part of a larger one. *)

From S2P Require Import Prelude QueueConcepts CustomSpscQueue SpscConcurrency RingMachine.
From stdpp Require Import options.

Module WaitableRing.
Section Machine.
Context {T : Type} (Capacity : Z).

Inductive producer :=
  | WIdle
  | WPush                    (* inside [queue_.push(item)] *)
  | WLoad                    (* it returned true: at [is_sleeping_.load(relaxed)] *)
  | WStore                   (* at [is_sleeping_.store(false, release)] *)
  | WNotify.                 (* at [notify_one()] *)

Inductive consumer :=
  | RIdle
  | RTest                    (* at [while (!stoken.stop_requested())] *)
  | RPop (second : bool)     (* inside the first or the second [queue_.pop(item)] *)
  | RSleep                   (* at [is_sleeping_.store(true, seq_cst)] *)
  | RAwake                   (* at [is_sleeping_.store(false, relaxed)] *)
  | RWait                    (* at [is_sleeping_.wait(true)]: compares the value *)
  | RBlocked                 (* asleep inside [wait] *)
  | RReturn (found : bool).  (* leaving [pop]: destroys the stop callback *)

Inductive stopper := SIdle | SCallback | SNotify | SDone.

(** [is_sleeping_] is the list of all the values it has held, oldest first;
    [prod_flag] is the position of the last one the producer has read or written.
    [returns] lists what the calls of [pop] returned. *)
Record state := State {
  ring : SpscConcurrency.state T;
  is_sleeping_ : list bool;
  prod_flag : nat;
  pushing : producer;
  popping : consumer;
  stop_flag : bool;
  registered : bool;         (* the [stop_callback] object exists *)
  stopping : stopper;
  returns : list bool;
}.

Definition start : state := State (SpscConcurrency.start Capacity) [false] 0 WIdle RIdle false false SIdle [].

Definition asleep (s : state) : bool := default false (last (is_sleeping_ s)).

Inductive label :=
  | Prod (l : SpscConcurrency.label T)     (* an access of [queue_.push] *)
  | LoadFlag (i : nat) | StoreFlag | Notify
  | PopCall | PopTest
  | Cons (l : SpscConcurrency.label T)     (* an access of [queue_.pop] *)
  | PopSleep | PopAwake | PopWait | PopSpurious | PopReturn
  | StopRequest | StopStore | StopNotify.

Definition set_push (r : SpscConcurrency.state T) (fl : list bool) (v : nat) (p : producer) (s : state) : state :=
  State r fl v p (popping s) (stop_flag s) (registered s) (stopping s) (returns s).
Definition set_pop (r : SpscConcurrency.state T) (fl : list bool) (c : consumer) (s : state) : state :=
  State r fl (prod_flag s) (pushing s) c (stop_flag s) (registered s) (stopping s) (returns s).
Definition set_stop (fl : list bool) (st : stopper) (s : state) : state :=
  State (ring s) fl (prod_flag s) (pushing s) (popping s) (stop_flag s) (registered s) st (returns s).

(** [notify_one] and [notify_all]: there is one waiter at most; it compares again. *)
Definition notified (c : consumer) : consumer := match c with RBlocked => RWait | _ => c end.

(** Where [push] is after an access of [queue_.push]: the call has returned true
    after its last store, and false if it found the ring full. *)
Definition after_push (l : SpscConcurrency.label T) (r : SpscConcurrency.state T) : producer :=
  match l, prod r with
  | PPublish, _ => WLoad
  | PLoadR _, PIdle => WIdle
  | _, _ => WPush
  end.

(** The same for [queue_.pop], which returns false if it found the ring empty. *)
Definition after_pop (second : bool) (l : SpscConcurrency.label T) (r : SpscConcurrency.state T) : consumer :=
  match l, cons r with
  | CPublish, _ => if second then RAwake else RReturn true
  | CLoadW _, CIdle => if second then RWait else RSleep
  | _, _ => RPop second
  end.

Definition push_step (l : label) (s : state) : option state :=
  match l, pushing s with
  | Prod ((PCall _) as a), WIdle | Prod ((PLoadR _ | PConstruct | PPublish) as a), WPush =>
      r ← SpscConcurrency.exec Capacity a (ring s);
      Some (set_push r (is_sleeping_ s) (prod_flag s) (after_push a r) s)
  | LoadFlag i, WLoad =>
      (* any value not older than the last one it knows *)
      b ← is_sleeping_ s !! i;
      if bool_decide (i < prod_flag s)%nat then None
      else Some (set_push (ring s) (is_sleeping_ s) i (if b : bool then WStore else WIdle) s)
  | StoreFlag, WStore =>
      Some (set_push (ring s) (is_sleeping_ s ++ [false]) (length (is_sleeping_ s)) WNotify s)
  | Notify, WNotify =>
      Some (set_push (ring s) (is_sleeping_ s) (prod_flag s) WIdle
              (set_pop (ring s) (is_sleeping_ s) (notified (popping s)) s))
  | _, _ => None
  end.

Definition pop_step (l : label) (s : state) : option state :=
  match l, popping s with
  | PopCall, RIdle =>
      (* constructing [stop_callback] runs it at once if stop was requested *)
      if stop_flag s then Some (set_pop (ring s) (is_sleeping_ s ++ [false]) RTest s)
      else Some (State (ring s) (is_sleeping_ s) (prod_flag s) (pushing s) RTest (stop_flag s) true
                       (stopping s) (returns s))
  | PopTest, RTest =>
      Some (set_pop (ring s) (is_sleeping_ s) (if stop_flag s then RReturn false else RPop false) s)
  | Cons ((CCall | CLoadW _ | CMove | CDestroy | CPublish) as a), RPop second =>
      r ← SpscConcurrency.exec Capacity a (ring s);
      Some (set_pop r (is_sleeping_ s) (after_pop second a r) s)
  | PopSleep, RSleep => Some (set_pop (ring s) (is_sleeping_ s ++ [true]) (RPop true) s)
  | PopAwake, RAwake => Some (set_pop (ring s) (is_sleeping_ s ++ [false]) (RReturn true) s)
  | PopWait, RWait => Some (set_pop (ring s) (is_sleeping_ s) (if asleep s then RBlocked else RTest) s)
  | PopSpurious, RBlocked => Some (set_pop (ring s) (is_sleeping_ s) RWait s)
  | PopReturn, RReturn b =>
      (* [~stop_callback] waits for a callback that is running *)
      match stopping s with
      | SNotify => None
      | _ => Some (State (ring s) (is_sleeping_ s) (prod_flag s) (pushing s) RIdle (stop_flag s) false
                         (stopping s) (returns s ++ [b]))
      end
  | _, _ => None
  end.

Definition stop_step (l : label) (s : state) : option state :=
  match l, stopping s with
  | StopRequest, SIdle =>
      Some (State (ring s) (is_sleeping_ s) (prod_flag s) (pushing s) (popping s) true (registered s)
                  (if registered s then SCallback else SDone) (returns s))
  | StopStore, SCallback =>
      if registered s then Some (set_stop (is_sleeping_ s ++ [false]) SNotify s)
      else Some (set_stop (is_sleeping_ s) SDone s)
  | StopNotify, SNotify =>
      Some (set_stop (is_sleeping_ s) SDone (set_pop (ring s) (is_sleeping_ s) (notified (popping s)) s))
  | _, _ => None
  end.

Definition exec (l : label) (s : state) : option state :=
  match l with
  | Prod _ | LoadFlag _ | StoreFlag | Notify => push_step l s
  | PopCall | PopTest | Cons _ | PopSleep | PopAwake | PopWait | PopSpurious | PopReturn => pop_step l s
  | StopRequest | StopStore | StopNotify => stop_step l s
  end.

(** What users see of it. *)
Definition machine : RingMachine T := {|
  rm_start := start;
  rm_exec := exec;
  rm_push x := Prod (PCall x);
  rm_action l := match l with Prod a | Cons a => Access a | PopCall => Call | PopReturn => Return
                | StopRequest => StopCall | _ => Silent end;
  rm_ring := ring;
  rm_phase s := match popping s with
                | RIdle => Outside | RPop _ => Accessing
                | RAwake => Returning true | RReturn b => Returning b
                | _ => Between
                end;
  rm_pushing s := match pushing s with WIdle => false | _ => true end;
  rm_stopped := stop_flag;
  rm_stopping s := match stopping s with SCallback | SNotify => true | _ => false end;
|}.

Definition step : state -> state -> Prop := labelled_step exec.
Definition reachable (s : state) : Prop := rtc step start s.

(** The loads that read the newest value there is. *)
Definition newest (l : label) (s : state) : Prop :=
  match l with
  | LoadFlag i => S i = length (is_sleeping_ s)
  | Prod a | Cons a => SpscConcurrency.newest a (ring s)
  | _ => True
  end.

#[global] Instance newest_dec l s : Decision (newest l s).
Proof. destruct l; simpl; apply _. Defined.

(** The machine whose loads all do. *)
Definition fresh_machine : RingMachine T := restrict machine (fun l s => bool_decide (newest l s)).

(** Runs in which every load does, as under sequential consistency. *)
Definition newest_step (s s' : state) : Prop := exists l, newest l s /\ exec l s = Some s'.

(** The steps of threads that finish what they have begun. *)
Definition quiet (l : label) : bool := match l with Prod (PCall _) | StopRequest => false | _ => true end.
Definition quiet_step (s s' : state) : Prop := exists l, quiet l = true /\ exec l s = Some s'.
End Machine.
#[global] Arguments state T : clear implicits.
#[global] Arguments label T : clear implicits.
#[global] Arguments machine T Capacity : clear implicits.
#[global] Arguments fresh_machine T Capacity : clear implicits.
End WaitableRing.
Import WaitableRing.

(** * Proofs *)

(** ** The ring inside the machine *)

(** The consumer has popped an item that [pop] has not returned yet. *)
Definition holding (c : consumer) : nat := match c with RAwake | RReturn true => 1 | _ => 0 end.

Definition count_true (bs : list bool) : nat := length (filter (fun b => b = true) bs).

Section Ring.
Context {T : Type} (Capacity : Z) `{Hring : !CustomSpscQueue.RingCapacity Capacity}.
Implicit Types (s : state T).

Definition ring_inv s : Prop :=
  SpscConcurrency.reachable Capacity (ring s) /\
  (count_true (returns s) + holding (popping s))%nat = length (popped (ring s)) /\
  (false ∈ returns s \/ popping s = RReturn false -> stop_flag s = true).

Lemma ring_exec (r r' : SpscConcurrency.state T) a : SpscConcurrency.reachable Capacity r ->
  SpscConcurrency.exec Capacity a r = Some r' -> SpscConcurrency.reachable Capacity r'.
Proof. intros Hr Ha. eapply rtc_r; [exact Hr|by exists a]. Qed.

Lemma holding_notified (c : consumer) : holding (notified c) = holding c.
Proof. by destruct c. Qed.

Lemma count_true_snoc bs b : count_true (bs ++ [b]) = (count_true bs + holding (RReturn b))%nat.
Proof. unfold count_true. rewrite filter_app, length_app. by destruct b. Qed.

Lemma after_pop_holding second (a : SpscConcurrency.label T) r : 
  holding (after_pop second a r) = match a with CPublish => 1%nat | _ => 0%nat end.
Proof. destruct a, second; simpl; try done; by destruct (cons r). Qed.

Lemma after_pop_found second (a : SpscConcurrency.label T) r : after_pop second a r <> RReturn false.
Proof. destruct a, second; simpl; try done; by destruct (cons r). Qed.

Lemma popped_push (r r' : SpscConcurrency.state T) a : SpscConcurrency.exec Capacity a r = Some r' ->
  match a with PCall _ | PLoadR _ | PConstruct | PPublish => popped r' = popped r | _ => pushed r' = pushed r end.
Proof. intros Ha. apply exec_histories in Ha. destruct a; naive_solver. Qed.

Lemma popped_pop (r r' : SpscConcurrency.state T) a : SpscConcurrency.exec Capacity a r = Some r' ->
  match a with CPublish => length (popped r') = S (length (popped r)) | _ => popped r' = popped r end.
Proof.
  intros Ha. apply exec_histories in Ha. destruct a; try naive_solver.
  destruct Ha as (x & z & _ & _ & ->). rewrite length_app. simpl. lia.
Qed.

#[export] Instance waitable_machine_laws : RingMachineLaws Capacity (WaitableRing.machine T Capacity).
Proof using Type.
  split; [done..| |].
  - intros l s s' Hs. simpl in *. destruct l as [a|i| | | | |a| | | | | | | |]; simpl in Hs;
      unfold push_step, pop_step, stop_step in Hs.
    + destruct a, (pushing s); try done; by apply bind_Some in Hs as (r & Ha & [= <-]).
    + step_cases; auto.
    + step_cases; auto.
    + step_cases. simpl. split; [done|left]. by destruct (popping s).
    + by step_cases.
    + step_cases. simpl. split; [done|]. right. destruct (stop_flag s); simpl; auto.
    + destruct (popping s) as [| |second| | | | |]; try (by destruct a).
      destruct a; try done; apply bind_Some in Hs as (r & Ha & [= <-]); (split; [exact Ha|split; [done|]]);
        destruct second; simpl; by destruct (cons r).
    + step_cases; simpl; auto.
    + step_cases; simpl; auto.
    + step_cases. simpl. destruct (asleep s); simpl; auto.
    + step_cases; simpl; auto.
    + destruct (popping s) as [| | | | | | |b]; try done. destruct (stopping s); try done; injection Hs as <-; simpl; eauto.
    + step_cases; simpl; auto.
    + step_cases; simpl; auto.
    + step_cases. simpl. split; [done|left]. by destruct (popping s).
  - intros l s s' Hs Hf. simpl in *. destruct l as [a|i| | | | |a| | | | | | | |]; simpl in Hs;
      unfold push_step, pop_step, stop_step in Hs; try (destruct a; try done); by step_cases.
Qed.

Lemma ring_inv_step l s s' : ring_inv s -> exec Capacity l s = Some s' -> ring_inv s'.
Proof.
  unfold ring_inv. intros (Hr & Hc & Hf) Hs.
  destruct l as [a|i| | | | |a| | | | | | | |]; simpl in Hs; unfold push_step, pop_step, stop_step in Hs.
  - assert (exists r, SpscConcurrency.exec Capacity a (ring s) = Some r /\ popped r = popped (ring s) /\
              s' = set_push r (is_sleeping_ s) (prod_flag s) (after_push a r) s) as (r & Ha & Hp & ->).
    { destruct a, (pushing s); try done; apply bind_Some in Hs as (r & Ha & [= <-]);
        exists r; (split_and!; [exact Ha|exact (popped_push _ _ _ Ha)|done]). }
    simpl. rewrite Hp. split_and!; [by eapply ring_exec|done..].
  - step_cases; by split_and!.
  - step_cases; by split_and!.
  - step_cases; simpl. rewrite holding_notified. split_and!; [done..|].
    intros [?|Hn]; apply Hf; [by left|right]. by destruct (popping s).
  - step_cases; simpl in *; (split_and!; [done..|]); intros [?|?]; try done; apply Hf; by left.
  - step_cases; simpl in *. split_and!; [done|by destruct (stop_flag s)|].
    intros [?|?]; [apply Hf; by left|]. by destruct (stop_flag s).
  - destruct (popping s) as [| |second| | | | |] eqn:Ep; try (by destruct a).
    assert (exists r, SpscConcurrency.exec Capacity a (ring s) = Some r /\
              s' = set_pop r (is_sleeping_ s) (after_pop second a r) s) as (r & Ha & ->).
    { destruct a; try done; apply bind_Some in Hs as (r & Ha & [= <-]); by exists r. }
    pose proof (popped_pop _ _ _ Ha) as Hp. simpl in *. rewrite after_pop_holding.
    split_and!; [by eapply ring_exec| |].
    + destruct a; rewrite Hp; lia.
    + intros [?|Hn]; [apply Hf; by left|]. by apply after_pop_found in Hn.
  - step_cases; simpl in *. split_and!; [done..|]. intros [?|?]; [apply Hf; by left|done].
  - step_cases; simpl in *. split_and!; [done..|]. intros [?|?]; [apply Hf; by left|done].
  - step_cases; simpl in *. split_and!; [done|by destruct (asleep s)|].
    intros [?|?]; [apply Hf; by left|]. by destruct (asleep s).
  - step_cases; simpl in *. split_and!; [done..|]. intros [?|?]; [apply Hf; by left|done].
  - destruct (popping s) as [| | | | | | |b] eqn:Ep; try done.
    assert (s' = State (ring s) (is_sleeping_ s) (prod_flag s) (pushing s) RIdle (stop_flag s) false
                   (stopping s) (returns s ++ [b])) as -> by (destruct (stopping s); try done; by injection Hs).
    simpl. rewrite count_true_snoc. split_and!; [done|simpl in *; lia|].
    intros [Hin|?]; [|done]. apply elem_of_app in Hin as [?|Hb]; [apply Hf; by left|].
    apply list_elem_of_singleton in Hb as <-. apply Hf. by right.
  - step_cases; by split_and!.
  - step_cases; by split_and!.
  - step_cases; simpl. rewrite holding_notified. split_and!; [done..|].
    intros [?|Hn]; apply Hf; [by left|right]. by destruct (popping s).
Qed.

Lemma ring_inv_start : ring_inv (start Capacity).
Proof. split_and!; [constructor|done|]. intros [Hn|?]; [by apply elem_of_nil in Hn|done]. Qed.

Lemma ring_inv_reachable s : reachable Capacity s -> ring_inv s.
Proof.
  intros Hr. refine (rtc_invariant _ ring_inv _ _ _ Hr ring_inv_start).
  intros x y Hx [l Hl]. by eapply ring_inv_step.
Qed.
End Ring.

(** ** Wake-ups when every load is fresh *)

Section Wakeups.
Context {T : Type} (Capacity : Z) `{Hring : !CustomSpscQueue.RingCapacity Capacity}.
Implicit Types (s : state T).

Definition waiting s : Prop := popping s = RWait \/ popping s = RBlocked.

(** Somebody is about to notify, or the producer has pushed and has not looked at
    the flag, or has not cleared it. *)
Record wake_inv s : Prop := {
  wi_ring : SpscConcurrency.reachable Capacity (ring s);
  wi_notified : popping s = RBlocked -> asleep s = false -> pushing s = WNotify \/ stopping s = SNotify;
  wi_items : waiting s -> asleep s = true -> queued (ring s) <> [] -> pushing s = WLoad \/ pushing s = WStore;
}.

Lemma after_pop_waiting second a (r : SpscConcurrency.state T) : after_pop second a r = RWait \/ after_pop second a r = RBlocked ->
  exists i, a = CLoadW i /\ cons r = CIdle.
Proof. destruct a, second; simpl; try (by intros []); destruct (cons r) eqn:E; try (by intros []); eauto. Qed.

Lemma queued_push (r r' : SpscConcurrency.state T) a : SpscConcurrency.exec Capacity a r = Some r' ->
  a <> PPublish -> a <> CPublish -> queued r' = queued r.
Proof. intros Ha ? ?. apply exec_histories in Ha. unfold queued. destruct a; try done; by destruct Ha as [-> ->]. Qed.

(** A step that takes the consumer out of its sleep, or leaves it where it is. *)
Lemma waiting_notified s : notified (popping s) = RWait \/ notified (popping s) = RBlocked -> waiting s.
Proof. unfold waiting. destruct (popping s); simpl; intros []; auto; discriminate. Qed.

Lemma wakes_push l s s' : wake_inv s -> newest l s -> push_step Capacity l s = Some s' -> wake_inv s'.
Proof using Hring.
  intros [Hr Hn Hi] Hnew Hs. destruct l as [a|i| | | | |a| | | | | | | |]; try done; unfold push_step in Hs.
  - assert (exists r, SpscConcurrency.exec Capacity a (ring s) = Some r /\
              s' = set_push r (is_sleeping_ s) (prod_flag s) (after_push a r) s /\
              (pushing s = WIdle \/ pushing s = WPush) /\ a <> CPublish) as (r & Ha & -> & Hp & Hcp).
    { destruct a, (pushing s); try done; apply bind_Some in Hs as (r & Ha & [= <-]); eauto 10. }
    split; simpl; [by eapply ring_exec|..].
    + intros Hb Hf. destruct (Hn Hb Hf) as [Hw|]; [|by right]. destruct Hp; congruence.
    + intros Hw Hf Hq. assert (Hd : a = PPublish \/ a <> PPublish) by (destruct a; (by left) || (by right)).
      destruct Hd as [->|Hne]; [by left|].
      rewrite (queued_push _ _ _ Ha) in Hq by done. destruct (Hi Hw Hf Hq) as [Hx|Hx], Hp; congruence.
  - step_cases. simpl in Hnew. split; simpl; try done.
    + intros Hb Hf. destruct (Hn Hb Hf); [congruence|by right].
    + intros _ Hf _. right. unfold asleep in Hf. simpl in Hf. rewrite last_lookup in Hf.
      replace (pred (length (is_sleeping_ s))) with i in Hf by lia.
      match goal with E : is_sleeping_ s !! i = Some _ |- _ => rewrite E in Hf end. simpl in Hf. by subst.
  - step_cases. split; simpl; try done; [by left|]. unfold asleep. simpl. by rewrite last_snoc.
  - step_cases. split; simpl; [done| |].
    + intros Hb. by destruct (popping s).
    + intros Hw Hf Hq. assert (Hws : waiting s) by (apply waiting_notified, Hw).
      destruct (Hi Hws Hf Hq); congruence.
Qed.

Lemma wakes_awake s : SpscConcurrency.reachable Capacity (ring s) ->
  popping s <> RWait -> popping s <> RBlocked -> wake_inv s.
Proof. intros Hr Hw Hb. split; [done|done|]. by intros []. Qed.

Lemma wakes_pop l s s' : wake_inv s -> newest l s -> pop_step Capacity l s = Some s' -> wake_inv s'.
Proof using Hring.
  intros Hinv Hnew Hs. pose proof Hinv as [Hr Hn Hi]. unfold waiting in *.
  destruct l as [a|i| | | | |a| | | | | | | |]; try done; unfold pop_step in Hs; destruct (popping s) as [| |second| | | | |b] eqn:Ep;
    try discriminate Hs; try (by destruct a).
  - destruct (stop_flag s); injection Hs as <-; by apply wakes_awake.
  - injection Hs as <-. by apply wakes_awake; simpl; [|destruct (stop_flag s)..].
  - assert (exists r, SpscConcurrency.exec Capacity a (ring s) = Some r /\
              s' = set_pop r (is_sleeping_ s) (after_pop second a r) s) as (r & Ha & ->).
    { destruct a; try done; apply bind_Some in Hs as (r & Ha & [= <-]); by exists r. }
    split; simpl; [by eapply ring_exec|..].
    + intros Hb. destruct (after_pop_waiting second a r (or_intror Hb)) as (i & -> & Hc).
      simpl in Hb. rewrite Hc in Hb. by destruct second.
    + intros Hw _ Hq. destruct (after_pop_waiting second a r Hw) as (i & -> & Hc).
      destruct Hq. destruct Hring as [Hpos Hdiv Hlt].
      rewrite (queued_push _ _ _ Ha) by done. by apply (newest_empty Capacity Hpos Hdiv Hlt (ring s) r i); [apply inv_reachable|..].
  - injection Hs as <-. by apply wakes_awake.
  - injection Hs as <-. by apply wakes_awake.
  - injection Hs as <-. destruct (asleep s) eqn:Ea; [|by apply wakes_awake]. split; simpl; [done| |by auto].
    unfold asleep in *. simpl. congruence.
  - injection Hs as <-. split; simpl; [done|done|by auto].
  - destruct (stopping s); try discriminate Hs; injection Hs as <-; by apply wakes_awake.
Qed.

Lemma wakes_stop l s s' : wake_inv s -> stop_step l s = Some s' -> wake_inv s'.
Proof.
  intros [Hr Hn Hi] Hs. destruct l; try done; unfold stop_step in Hs; destruct (stopping s) eqn:Est; try done.
  - injection Hs as <-. split; simpl; [done| |done]. intros Hb Hf. destruct (Hn Hb Hf); [by left|congruence].
  - destruct (registered s); injection Hs as <-; split; simpl; try done.
    + by right.
    + unfold asleep. simpl. by rewrite last_snoc.
    + intros Hb Hf. destruct (Hn Hb Hf); [by left|congruence].
  - injection Hs as <-. split; simpl; [done| |].
    + intros Hb. by destruct (popping s).
    + intros Hw. apply Hi, waiting_notified, Hw.
Qed.

Lemma wakes_run s : rtc (newest_step Capacity) (start Capacity) s -> wake_inv s.
Proof using Hring.
  intros Hr. refine (rtc_invariant _ wake_inv _ _ _ Hr _).
  - intros x y Hx (l & Hnew & Hl). destruct l; first [ exact (wakes_push _ _ _ Hx Hnew Hl)
      | exact (wakes_pop _ _ _ Hx Hnew Hl) | exact (wakes_stop _ _ _ Hx Hl) ].
  - split; [constructor|done|]. by intros [].
Qed.
End Wakeups.

(** ** Progress when every load is fresh *)

Section Progress.
Context {T : Type} (Capacity : Z) `{Hring : !CustomSpscQueue.RingCapacity Capacity}.
Implicit Types (s : state T).

(** What is left to do of the calls of both threads. *)
Definition push_rank s : nat :=
  match pushing s with WPush => prod_rank (prod (ring s)) | WIdle => 6 | WNotify => 7 | WStore => 8 | WLoad => 9 end.
Definition pop_rank s : nat :=
  match popping s with
  | RBlocked => 22 | RWait => 21 | RIdle => 20 | RTest | RSleep => 19
  | RPop _ => 10 + cons_rank (cons (ring s)) | RAwake => 2 | RReturn _ => 1
  end.

Record live s : Prop := {
  lv_wake : wake_inv Capacity s;
  lv_ring : ring_inv Capacity s;
  lv_push : match pushing s with WPush => prod (ring s) <> PIdle | _ => prod (ring s) = PIdle end;
  lv_stop : stop_flag s = false -> stopping s = SIdle;
  lv_flag : (prod_flag s < length (is_sleeping_ s))%nat;
}.

Lemma live_start : live (start Capacity).
Proof. split; [|apply ring_inv_start|done|done|simpl; lia]. split; [constructor|done|]. by intros []. Qed.

Lemma exec_prod (r r' : SpscConcurrency.state T) a : SpscConcurrency.exec Capacity a r = Some r' ->
  match a with CCall | CLoadW _ | CMove | CDestroy | CPublish => prod r' = prod r | PPublish => prod r' = PIdle
  | PLoadR _ => True | _ => prod r' <> PIdle end.
Proof.
  destruct a; simpl; unfold SpscConcurrency.push_step, SpscConcurrency.pop_step; intros Hs; step_cases; simpl; done.
Qed.

Lemma live_push_state l s s' : exec Capacity l s = Some s' ->
  match pushing s with WPush => prod (ring s) <> PIdle | _ => prod (ring s) = PIdle end ->
  match pushing s' with WPush => prod (ring s') <> PIdle | _ => prod (ring s') = PIdle end.
Proof.
  intros Hs Hp. destruct l as [a|i| | | | |a| | | | | | | |]; simpl in Hs; unfold push_step, pop_step, stop_step in Hs.
  - destruct a, (pushing s); try done; apply bind_Some in Hs as (r & Ha & [= <-]); apply exec_prod in Ha; simpl; try done.
    by destruct (prod r).
  - step_cases; simpl; by repeat case_match.
  - by step_cases.
  - by step_cases.
  - by step_cases.
  - by step_cases.
  - destruct (popping s); try (by destruct a).
    destruct a; try done; apply bind_Some in Hs as (r & Ha & [= <-]); apply exec_prod in Ha; simpl; by rewrite Ha.
  - by step_cases.
  - by step_cases.
  - by step_cases.
  - by step_cases.
  - destruct (popping s), (stopping s); try done; by injection Hs as <-.
  - by step_cases.
  - by step_cases.
  - by step_cases.
Qed.

Lemma live_stop_state l s s' : exec Capacity l s = Some s' ->
  (stop_flag s = false -> stopping s = SIdle) -> stop_flag s' = false -> stopping s' = SIdle.
Proof.
  intros Hs Hp. destruct l as [a|i| | | | |a| | | | | | | |]; simpl in Hs; unfold push_step, pop_step, stop_step in Hs;
    try (destruct a; try done); step_cases; simpl in *; intros Hf;
    first [ done | congruence | specialize (Hp Hf); congruence ].
Qed.

Lemma live_flag l s s' : exec Capacity l s = Some s' ->
  (prod_flag s < length (is_sleeping_ s))%nat -> (prod_flag s' < length (is_sleeping_ s'))%nat.
Proof.
  intros Hs Hf. destruct l as [a|i| | | | |a| | | | | | | |]; simpl in Hs; unfold push_step, pop_step, stop_step in Hs;
    try (destruct a; try done); step_cases; simpl in *; rewrite ?length_app; simpl; try lia.
  by eapply lookup_lt_Some.
Qed.

Lemma live_step l s s' : live s -> newest l s -> exec Capacity l s = Some s' -> live s'.
Proof using Hring.
  intros [Hw Hr Hp Hst Hf] Hn Hs.
  split; [|by eapply ring_inv_step|by eapply live_push_state|by eapply live_stop_state|by eapply live_flag].
  destruct l; first [ exact (wakes_push _ _ _ _ Hw Hn Hs) | exact (wakes_pop _ _ _ _ Hw Hn Hs) | exact (wakes_stop _ _ _ _ Hw Hs) ].
Qed.

Definition rank s : nat := push_rank s + pop_rank s.

(** After its store the producer finishes by itself. *)
Lemma wake_progress s : live s -> pushing s = WLoad \/ pushing s = WStore \/ pushing s = WNotify ->
  exists l s', newest l s /\ exec Capacity l s = Some s' /\ stop_flag s' = stop_flag s /\ (rank s' < rank s)%nat /\
    match l with LoadFlag _ | StoreFlag | Notify => True | _ => False end.
Proof.
  intros [_ _ Hp _ Hf] Hw. unfold rank, push_rank, pop_rank. destruct Hw as [E|[E|E]].
  - exists (LoadFlag (pred (length (is_sleeping_ s)))). simpl. rewrite E.
    destruct (lookup_lt_is_Some_2 (is_sleeping_ s) (pred (length (is_sleeping_ s)))) as [b Hb]; [lia|]. rewrite Hb. simpl.
    rewrite bool_decide_eq_false_2 by lia. eexists. split_and!; [lia|done|done| |done]. destruct b; simpl; lia.
  - exists StoreFlag. simpl. rewrite E. eexists. split_and!; [done..| |done]. simpl. lia.
  - exists Notify. simpl. rewrite E. eexists. split_and!; [done..| |done]. simpl. destruct (popping s); simpl; lia.
Qed.

(** An access of [queue_.pop] for an item that is there. *)
Lemma ring_pop_progress second s : live s -> popping s = RPop second -> queued (ring s) <> [] ->
  exists a s', newest (Cons a) s /\ exec Capacity (Cons a) s = Some s' /\ stop_flag s' = stop_flag s /\
    (rank s' < rank s)%nat /\ match a with PCall _ => False | _ => True end.
Proof using Hring.
  intros [Hw _ _ _ _] Ep Hq. pose proof (wi_ring _ _ Hw) as Hr. destruct Hring as [Hpos Hdiv Hlt].
  destruct (pop_progress Capacity Hpos Hdiv Hlt (ring s)) as (a & r & Hn & Ha & Hdec);
    [by apply inv_reachable|done|]. exists a. pose proof (exec_prod _ _ _ Ha) as Hp.
  exists (set_pop r (is_sleeping_ s) (after_pop second a r) s). unfold rank, push_rank, pop_rank. simpl. rewrite Ep.
  assert (Hb : (1 <= cons_rank (cons (ring s)) <= 5)%nat) by (destruct (cons (ring s)); simpl; lia).
  destruct a; try done; rewrite Ha, Hp; (split_and!; [done..| |done]); simpl;
    first [ destruct (cons r); simpl in *; lia | destruct second; lia ].
Qed.

Lemma live_pop s : live s -> stop_flag s = false -> popping s <> RIdle ->
  queued (ring s) <> [] \/ popping s = RAwake \/ (exists b, popping s = RReturn b) ->
  exists l s', newest l s /\ exec Capacity l s = Some s' /\ stop_flag s' = false /\ (l = PopReturn \/ (rank s' < rank s)%nat) /\
    match l with Prod (PCall _) | Cons (PCall _) | PopCall | StopRequest => False | _ => True end.
Proof using Hring.
  intros Hlive Hf Hi Hq. pose proof Hlive as [Hw _ _ Hst _]. specialize (Hst Hf).
  assert (Hc : (cons_rank (cons (ring s)) <= 5)%nat) by (destruct (cons (ring s)); simpl; lia).
  assert (Hsleep : waiting s -> asleep s = true \/ popping s = RBlocked ->
    exists l s', newest l s /\ exec Capacity l s = Some s' /\ stop_flag s' = false /\ (l = PopReturn \/ (rank s' < rank s)%nat) /\
      match l with Prod (PCall _) | Cons (PCall _) | PopCall | StopRequest => False | _ => True end).
  { intros Hwait Hor. destruct (wake_progress s Hlive) as (l & s' & Hn & He & Hs & Hr & Hl).
    - destruct (asleep s) eqn:Ea.
      + destruct (wi_items _ _ Hw Hwait Ea) as [?|?]; [|by auto..].
        destruct Hq as [?|[Hq|[b Hq]]]; [done|destruct Hwait; congruence..].
      + destruct Hor as [?|Hb]; [done|]. destruct (wi_notified _ _ Hw Hb Ea); [by auto|congruence].
    - exists l, s'. rewrite Hs. split_and!; [done..|by right|by destruct l]. }
  destruct (popping s) as [| |second| | | | |b] eqn:Ep; [done|..].
  - exists PopTest. unfold rank, pop_rank. simpl. rewrite Ep, Hf. eexists. split_and!; [done..| |done]. right. simpl.
    unfold push_rank. simpl. lia.
  - destruct (ring_pop_progress second s) as (a & s' & Hn & He & Hs & Hr & Ha); [done..| |].
    { by destruct Hq as [?|[?|[]]]. }
    exists (Cons a), s'. rewrite Hs. split_and!; [done..|by right|by destruct a].
  - exists PopSleep. unfold rank, pop_rank. simpl. rewrite Ep. eexists. split_and!; [done..| |done]. right. simpl.
    unfold push_rank. simpl. lia.
  - exists PopAwake. unfold rank, pop_rank. simpl. rewrite Ep. eexists. split_and!; [done..| |done]. right. simpl.
    unfold push_rank. simpl. lia.
  - destruct (asleep s) eqn:Ea; [by apply Hsleep; [left|left]|]. exists PopWait. unfold rank, pop_rank. simpl.
    rewrite Ep, Ea. eexists. split_and!; [done..| |done]. right. simpl. unfold push_rank. simpl. lia.
  - by apply Hsleep; right.
  - exists PopReturn. simpl. rewrite Ep, Hst. eexists. split_and!; [done..|by left|done].
Qed.

Lemma live_push_enabled x s : live s -> pushing s = WIdle ->
  exists s', exec Capacity (Prod (PCall x)) s = Some s' /\ stop_flag s' = stop_flag s /\ (rank s' < rank s)%nat.
Proof using Hring.
  intros [Hw _ Hp _ _] Ep. rewrite Ep in Hp. pose proof (wi_ring _ _ Hw) as Hr. destruct Hring as [Hpos Hdiv Hlt].
  pose proof (inv_reachable Capacity Hpos Hdiv Hlt _ Hr) as Hinv. simpl. rewrite Ep, Hp, (inv_write _ _ Hinv).
  rewrite last_counter_values. eexists. split_and!; [done..|]. unfold rank, push_rank, pop_rank. rewrite Ep. simpl. lia.
Qed.

Lemma live_push s : live s -> pushing s <> WIdle -> queued (ring s) = [] ->
  exists l s', newest l s /\ exec Capacity l s = Some s' /\ stop_flag s' = stop_flag s /\
    (l = Prod PPublish \/ (rank s' < rank s)%nat) /\
    match l with Prod (PCall _) | Cons (PCall _) | PopCall | StopRequest => False | _ => True end.
Proof using Hring.
  intros Hlive Hn Hq. pose proof Hlive as [Hw _ Hp _ _]. destruct (pushing s) eqn:Ep; [done|..].
  2-4: destruct (wake_progress s Hlive) as (l & s' & ? & ? & ? & ? & ?); [by auto|]; exists l, s';
    split_and!; [done..|by right|by destruct l].
  pose proof (wi_ring _ _ Hw) as Hr. destruct Hring as [Hpos Hdiv Hlt].
  destruct (push_moves Capacity Hpos Hdiv Hlt (ring s)) as (a & r & Hnew & Ha & Hdec);
    [by apply inv_reachable|done|].
  pose proof (exec_items _ _ _ _ Ha) as Hc. exists (Prod a), (set_push r (is_sleeping_ s) (prod_flag s) (after_push a r) s).
  unfold rank, push_rank, pop_rank. simpl. rewrite Ep.
  destruct a; try done; rewrite Ha; (split_and!; [done..| |done]); try (by left); right; simpl;
    destruct Hdec as [[?|Hdec] Hpr], Hc as [_ ->]; try (by destruct Hpr; [rewrite Hq; simpl; lia|]);
    [destruct (prod r); [by destruct Hpr; [rewrite Hq; simpl; lia|]|simpl in *; lia..]|lia].
Qed.

Lemma fresh_take l s s' : newest l s -> exec Capacity l s = Some s' ->
  rm_exec (WaitableRing.fresh_machine T Capacity) l s = Some s'.
Proof.
  intros Hn. exact (restrict_take (WaitableRing.machine T Capacity) _ l s s' (bool_decide_eq_true_2 _ Hn)).
Qed.

#[export] Program Instance fresh_machine_live : RingMachineLive (WaitableRing.fresh_machine T Capacity) := {|
  rm_live := live;
  rm_rank := rank;
|}.
Next Obligation. apply live_start. Qed.
Next Obligation. intros l s s' Hl Hs. apply restrict_exec in Hs as [Hn%bool_decide_eq_true Hs]. by eapply live_step. Qed.
Next Obligation.
  intros s Hl Hf Hp. simpl in Hp. assert (Ep : popping s = RIdle) by (by destruct (popping s)).
  simpl in Hf. exists PopCall. simpl. rewrite Ep, Hf. eexists. split_and!; [done..|].
  unfold rank, push_rank, pop_rank. simpl. rewrite Ep. lia.
Qed.
Next Obligation.
  intros s Hl Hf Hp Hq. simpl in Hp, Hq, Hf. destruct (live_pop s Hl Hf) as (l & s' & Hn & He & Hs & Hr & Hlab).
  - by destruct (popping s).
  - destruct Hq as [?|Hq]; [by left|right]. destruct (popping s); try done; [by left|right]. eauto.
  - exists l, s'. split_and!; [by apply fresh_take| |done|].
    + destruct l as [a| | | | | |a| | | | | | | |]; try done; by destruct a.
    + destruct Hr as [->|?]; [by left|by right].
Qed.
Next Obligation.
  intros x s Hl Hp. simpl in Hp. destruct (live_push_enabled x s Hl) as (s' & He & ? & ?); [by destruct (pushing s)|].
  exists s'. split_and!; [by apply fresh_take|done..].
Qed.
Next Obligation.
  intros s Hl Hp Hq. simpl in Hp, Hq. destruct (live_push s Hl) as (l & s' & Hn & He & Hs & Hr & Hlab);
    [by destruct (pushing s)|done|].
  exists l, s'. split_and!; [by apply fresh_take| |done|].
  - destruct l as [a| | | | | |a| | | | | | | |]; try done; by destruct a.
  - destruct Hr as [->|?]; [by left|by right].
Qed.
End Progress.

(** ** A sleeper nobody wakes *)

Section Stuck.
Context {T : Type} (Capacity : Z).
Implicit Types (s : state T).

Definition stuck s : Prop :=
  waiting s /\ asleep s = true /\ pushing s = WIdle /\ (stopping s = SIdle \/ stopping s = SDone).

Lemma sleeps_step s s' : stuck s -> quiet_step Capacity s s' ->
  stuck s' /\ ring s' = ring s /\ returns s' = returns s.
Proof.
  intros (Hw & Ha & Hp & Hst) (l & Hq & Hs). unfold stuck, waiting in *.
  destruct Hw as [Hw|Hw], Hst as [Hst|Hst]; destruct l as [a|i| | | | |a| | | | | | | |]; simpl in Hq, Hs;
    unfold push_step, pop_step, stop_step in Hs; rewrite ?Hp, ?Hw, ?Hst, ?Ha in Hs; try discriminate;
    try (by destruct a); injection Hs as <-; simpl; unfold asleep in *; simpl; by auto 10.
Qed.

Lemma sleeps_forever s s' : rtc (quiet_step Capacity) s s' -> stuck s ->
  stuck s' /\ ring s' = ring s /\ returns s' = returns s.
Proof.
  induction 1 as [s|s s1 s' Hs _ IH]; intros Hst; [done|].
  destruct (sleeps_step s s1 Hst Hs) as (Hst1 & Er & Et). destruct (IH Hst1) as (? & ? & ?).
  split_and!; (done || congruence).
Qed.
End Stuck.

(** * Properties *)

(** C23: the wrapper keeps the ring's protocol, for any interleaving of the accesses
    of both, any coherent outcome of their loads and any stop request: no access
    races or touches a raw slot, the ring has gone through a run of the atomic
    bounded FIFO, every [pop] that returned true or is about to took exactly one
    item out of it, and [pop] returns false only after a stop request. *)
Theorem waitable_ring_exact {T} (Capacity : Z) `{Hring : !CustomSpscQueue.RingCapacity Capacity} (s : state T) :
  reachable Capacity s ->
  fault (ring s) = false /\
  rtc (fifo_step (Z.to_nat Capacity)) (FifoState [] [] [])
      (FifoState (queued (ring s)) (pushed (ring s)) (popped (ring s))) /\
  (count_true (returns s) + holding (popping s))%nat = length (popped (ring s)) /\
  (false ∈ returns s -> stop_flag s = true).
Proof.
  intros Hs. destruct (ring_inv_reachable Capacity s Hs) as (Hr & Hc & Hf).
  destruct Hring as [Hpos Hdiv Hlt]. destruct (fifo_reachable Capacity Hpos Hdiv Hlt _ Hr) as [Hinv Hfifo].
  split_and!; [by apply (inv_fault Capacity)|done..|]. intros Hin. apply Hf. by left.
Qed.

(** One item is found at the second look; then stop is requested and [pop] returns
    false, with another item in the ring. *)
Definition demo_waitable_schedule : list (label Z) :=
  [PopCall; PopTest; Cons CCall; Prod (PCall 7); Cons (CLoadW 0); Prod (PLoadR 0); PopSleep; Prod PConstruct;
   Cons CCall; Prod PPublish; Cons (CLoadW 1); LoadFlag 1; Cons CMove; StoreFlag; Cons CDestroy; Notify;
   Cons CPublish; PopAwake; PopReturn; PopCall; StopRequest; StopStore; PopTest; Prod (PCall 8); Prod (PLoadR 0);
   Prod PConstruct; Prod PPublish; LoadFlag 2; StopNotify; PopReturn].

Definition demo_waitable_state : state Z :=
  State (SpscConcurrency.State [0; 1] [0; 1; 2] [SpscConcurrency.Cell None 1 1; SpscConcurrency.Cell (Some 8) 2 0]
           PIdle 0 CIdle 1 [7; 8] [7] false)
    [false; true; false; false; false] 2 WIdle RIdle true false SDone [true; false].

Lemma demo_waitable_run : run (exec 2) demo_waitable_schedule (start 2) = Some demo_waitable_state.
Proof. vm_compute. reflexivity. Qed.

Lemma waitable_ring_exact_witness :
  fault (ring demo_waitable_state) = false /\
  rtc (fifo_step 2) (FifoState [] [] []) (FifoState [8] [7; 8] [7]) /\
  (1 + 0)%nat = length [7] /\ (false ∈ [true; false] -> true = true).
Proof.
  apply (waitable_ring_exact 2 demo_waitable_state). exact (run_rtc _ _ _ _ demo_waitable_run).
Defined.

(** C24: when every load reads the newest value, no wake-up is lost, also between
    the accesses of the ring: when the consumer sleeps, the producer is between
    calls and no notification is on its way, the ring is empty and the flag
    announces the sleeper. *)
Theorem waitable_ring_no_lost_wakeup {T} (Capacity : Z) `{Hring : !CustomSpscQueue.RingCapacity Capacity} (s : state T) :
  rtc (newest_step Capacity) (start Capacity) s ->
  popping s = RBlocked -> pushing s = WIdle -> stopping s <> SNotify ->
  queued (ring s) = [] /\ asleep s = true.
Proof.
  intros Hr Hb Hp Hst. destruct (wakes_run Capacity s Hr) as [_ Hn Hi].
  assert (Ha : asleep s = true).
  { destruct (asleep s); [done|]. destruct (Hn Hb eq_refl); congruence. }
  split; [|done]. destruct (queued (ring s)) eqn:E; [done|].
  destruct Hi as [?|?]; [by right|done|done|congruence..].
Qed.

Definition demo_sleeping_state : state Z :=
  State (SpscConcurrency.start 2) [false; true] 0 WIdle RBlocked false true SIdle [].

Ltac take_step l := eapply rtc_l; [exists l; split; [first [exact I | reflexivity]|vm_compute; reflexivity]|].

Lemma demo_sleeping_run : rtc (newest_step 2) (start 2) demo_sleeping_state.
Proof.
  take_step (PopCall (T:=Z)). take_step (PopTest (T:=Z)).
  take_step (Cons (T:=Z) CCall). take_step (Cons (T:=Z) (CLoadW 0)). take_step (PopSleep (T:=Z)).
  take_step (Cons (T:=Z) CCall). take_step (Cons (T:=Z) (CLoadW 0)). take_step (PopWait (T:=Z)).
  constructor.
Qed.

Lemma waitable_ring_no_lost_wakeup_witness :
  queued (ring demo_sleeping_state) = [] /\ asleep demo_sleeping_state = true.
Proof.
  apply (waitable_ring_no_lost_wakeup 2 demo_sleeping_state demo_sleeping_run); [reflexivity..|discriminate].
Defined.

(** An acquire load is not enough for the second look. In this run the producer
    publishes its item and reads the newest flag, which is still false; the consumer
    announces its sleep, and its load of [write_] returns the value before that
    store, as coherence allows. It then sleeps beside the item, and does so for ever
    unless something else is pushed or stop is requested. *)
Theorem waitable_ring_stale_load :
  exists s : state Z,
    run (exec 2) [PopCall; PopTest; Cons CCall; Cons (CLoadW 0); Prod (PCall 7); Prod (PLoadR 0); Prod PConstruct;
                  Prod PPublish; LoadFlag 0; PopSleep; Cons CCall; Cons (CLoadW 0); PopWait] (start 2) = Some s /\
    queued (ring s) = [7] /\ popping s = RBlocked /\ pushing s = WIdle /\ stop_flag s = false /\
    forall s', rtc (quiet_step 2) s s' ->
      queued (ring s') = [7] /\ (popping s' = RWait \/ popping s' = RBlocked) /\ returns s' = [].
Proof.
  eexists. split; [vm_compute; reflexivity|]. split_and!; try reflexivity.
  intros s' Hs'. destruct (sleeps_forever 2 _ s' Hs') as ((Hw & _) & Hr & Ht).
  - split_and!; [by right|reflexivity|reflexivity|by left].
  - rewrite Hr, Ht. by split_and!.
Qed.
