(* ===== verification/SpinRing.v ===== *)
(** [src/utils/SpinSpscQueue.h] over [CustomSpscQueue.h]: the spinning wrapper run
    access by access, those of the ring included, by a producer, a consumer and a
    thread that requests stop. *)

From S2P Require Import Prelude QueueConcepts CustomSpscQueue SpscConcurrency RingMachine.
From stdpp Require Import options.

Module SpinRing.
Section Machine.
Context {T : Type} (Capacity : Z).

Inductive consumer :=
  | SIdle
  | STest                    (* at [while (!stoken.stop_requested())] *)
  | SPop                     (* inside [queue_.pop(item)] *)
  | SReturn (found : bool).

(** [push] is [queue_.push] and has no state of its own. [returns] lists what the
    calls of [pop] returned. *)
Record state := State {
  ring : SpscConcurrency.state T;
  popping : consumer;
  stop_flag : bool;
  returns : list bool;
}.

Definition start : state := State (SpscConcurrency.start Capacity) SIdle false [].

Inductive label :=
  | Prod (l : SpscConcurrency.label T)
  | PopCall | PopTest
  | Cons (l : SpscConcurrency.label T)
  | PopReturn
  | StopRequest.

Definition set_pop (r : SpscConcurrency.state T) (c : consumer) (s : state) : state :=
  State r c (stop_flag s) (returns s).

(** Where [pop] is after an access of [queue_.pop]. *)
Definition after_pop (l : SpscConcurrency.label T) (r : SpscConcurrency.state T) : consumer :=
  match l, cons r with
  | CPublish, _ => SReturn true
  | CLoadW _, CIdle => STest
  | _, _ => SPop
  end.

Definition push_step (l : label) (s : state) : option state :=
  match l with
  | Prod ((PCall _ | PLoadR _ | PConstruct | PPublish) as a) =>
      r ← SpscConcurrency.exec Capacity a (ring s);
      Some (set_pop r (popping s) s)
  | _ => None
  end.

Definition pop_step (l : label) (s : state) : option state :=
  match l, popping s with
  | PopCall, SIdle => Some (set_pop (ring s) STest s)
  | PopTest, STest => Some (set_pop (ring s) (if stop_flag s then SReturn false else SPop) s)
  | Cons ((CCall | CLoadW _ | CMove | CDestroy | CPublish) as a), SPop =>
      r ← SpscConcurrency.exec Capacity a (ring s);
      Some (set_pop r (after_pop a r) s)
  | PopReturn, SReturn b => Some (State (ring s) SIdle (stop_flag s) (returns s ++ [b]))
  | _, _ => None
  end.

Definition exec (l : label) (s : state) : option state :=
  match l with
  | Prod _ => push_step l s
  | PopCall | PopTest | Cons _ | PopReturn => pop_step l s
  | StopRequest => Some (State (ring s) (popping s) true (returns s))
  end.

Definition step : state -> state -> Prop := labelled_step exec.
Definition reachable (s : state) : Prop := rtc step start s.

(** What users see of it. *)
Definition machine : RingMachine T := {|
  rm_start := start;
  rm_exec := exec;
  rm_push x := Prod (PCall x);
  rm_action l := match l with Prod a | Cons a => Access a | PopCall => Call | PopReturn => Return
                | StopRequest => StopCall | _ => Silent end;
  rm_ring := ring;
  rm_phase s := match popping s with
                | SIdle => Outside | STest => Between | SPop => Accessing | SReturn b => Returning b
                end;
  rm_pushing s := match prod (ring s) with PIdle => false | _ => true end;
  rm_stopped := stop_flag;
  rm_stopping _ := false;
|}.
End Machine.
#[global] Arguments state T : clear implicits.
#[global] Arguments label T : clear implicits.
#[global] Arguments machine T Capacity : clear implicits.
End SpinRing.
Import SpinRing.

(** * Proofs *)

#[export] Instance spin_machine_laws {T} (Capacity : Z) : RingMachineLaws Capacity (SpinRing.machine T Capacity).
Proof.
  split; [done..| |].
  - intros l s s' Hs. simpl in *. destruct l as [a| | |a| |]; simpl in Hs; unfold pop_step in Hs.
    + destruct a; try done; by apply bind_Some in Hs as (r & Ha & [= <-]).
    + by step_cases.
    + step_cases. simpl. split; [done|]. right. destruct (stop_flag s); simpl; auto.
    + destruct (popping s); try (by destruct a).
      destruct a; try done; apply bind_Some in Hs as (r & Ha & [= <-]); (split; [exact Ha|split; [done|]]);
        simpl; by destruct (cons r).
    + step_cases. simpl. by eauto.
    + injection Hs as <-. simpl. auto.
  - intros l s s' Hs Hf. simpl in *. destruct l as [a| | |a| |]; simpl in Hs; unfold pop_step in Hs;
      try (destruct a; try done); by step_cases.
Qed.

(** ** Progress *)

Section Progress.
Context {T : Type} (Capacity : Z) `{Hring : !CustomSpscQueue.RingCapacity Capacity}.
Implicit Types (s : state T).

Record spin_live s : Prop := {
  lv_ring : SpscConcurrency.reachable Capacity (ring s);
  lv_stop : popping s = SReturn false -> stop_flag s = true;
}.

(** What is left to do of the calls of both threads. *)
Definition spin_rank s : nat :=
  prod_rank (prod (ring s)) +
  match popping s with SIdle => 20 | STest => 19 | SPop => 10 + cons_rank (cons (ring s)) | SReturn _ => 1 end.

Lemma spin_live_step l s s' : spin_live s -> exec Capacity l s = Some s' -> spin_live s'.
Proof.
  intros [Hr Hf] Hs. pose proof (rm_step (M:=SpinRing.machine T Capacity) l s s' Hs) as Hst.
  destruct l as [a| | |a| |]; simpl in Hs, Hst; unfold pop_step in Hs.
  - destruct a; try done; apply bind_Some in Hs as (r & Ha & [= <-]); split; simpl; try done;
      (eapply rtc_r; [exact Hr|by eexists]).
  - by step_cases.
  - step_cases. split; simpl; [done|]. by destruct (stop_flag s).
  - destruct Hst as [Ha Hp]. split; [eapply rtc_r; [exact Hr|by exists a]|]. intros Hb. rewrite Hb in Hp.
    destruct a; try (by destruct (popping s)); destruct Hp as [_ Hp]; try done; simpl in Hp; by destruct (cons (ring s')).
  - by step_cases.
  - injection Hs as <-. by split.
Qed.

(** An access of [queue_.pop] for an item that is there. *)
Lemma spin_pop_progress s : spin_live s -> popping s = SPop -> queued (ring s) <> [] ->
  exists a s', exec Capacity (Cons a) s = Some s' /\ stop_flag s' = stop_flag s /\ (spin_rank s' < spin_rank s)%nat /\
    match a with PCall _ => False | _ => True end.
Proof using Hring.
  intros [Hr _] Ep Hq. destruct Hring as [Hpos Hdiv Hlt].
  destruct (pop_progress Capacity Hpos Hdiv Hlt (ring s)) as (a & r & _ & Ha & Hdec);
    [by apply inv_reachable|done|]. exists a. pose proof (exec_items _ _ _ _ Ha) as Hit.
  exists (set_pop r (after_pop a r) s). unfold spin_rank. simpl. rewrite Ep.
  assert (Hp : prod r = prod (ring s)) by (destruct a; naive_solver).
  assert (Hb : (1 <= cons_rank (cons (ring s)) <= 5)%nat) by (destruct (cons (ring s)); simpl; lia).
  destruct a; try done; rewrite Ha, Hp; (split_and!; [done..| |done]); simpl;
    first [ lia | destruct (cons r); simpl in *; lia ].
Qed.

(** With a coherent outcome of its loads this wrapper gets on by itself. *)
#[export] Program Instance spin_machine_live : RingMachineLive (SpinRing.machine T Capacity) := {|
  rm_live := spin_live;
  rm_rank := spin_rank;
|}.
Next Obligation. split; [constructor|done]. Qed.
Next Obligation. intros l s s'. apply spin_live_step. Qed.
Next Obligation.
  intros s Hl Hf Hp. simpl in Hp, Hf. exists PopCall. unfold spin_rank. simpl. destruct (popping s); try done.
  eexists. split_and!; [done..|]. simpl. lia.
Qed.
Next Obligation.
  intros s Hl Hf Hp Hq. simpl in Hp, Hq, Hf. destruct (popping s) as [| | |b] eqn:Ep; [done|..].
  - exists PopTest. unfold spin_rank. simpl. rewrite Ep, Hf. eexists. split_and!; [done..|]. right. simpl.
    assert (cons_rank (cons (ring s)) <= 5)%nat by (destruct (cons (ring s)); simpl; lia). lia.
  - destruct Hq as [Hq|?]; [|done]. destruct (spin_pop_progress s Hl Ep Hq) as (a & s' & He & Hs & Hr & Ha).
    exists (Cons a), s'. simpl. rewrite Hs. split_and!; [done|by destruct a|done|by right].
  - exists PopReturn. simpl. rewrite Ep. eexists. split_and!; [done..|by left].
Qed.
Next Obligation.
  intros x s [Hr _] Hp. simpl in Hp. destruct Hring as [Hpos Hdiv Hlt].
  pose proof (inv_reachable Capacity Hpos Hdiv Hlt _ Hr) as Hinv. destruct (prod (ring s)) eqn:Ep; try done.
  simpl. rewrite Ep, (inv_write _ _ Hinv), last_counter_values. eexists. split_and!; [done..|].
  unfold spin_rank. simpl. rewrite Ep. simpl. lia.
Qed.
Next Obligation.
  intros s [Hr Hf] Hp Hq. simpl in Hp, Hq. destruct Hring as [Hpos Hdiv Hlt].
  destruct (push_moves Capacity Hpos Hdiv Hlt (ring s)) as (a & r & _ & Ha & Hdec);
    [by apply inv_reachable|by intros E; rewrite E in Hp|].
  pose proof (exec_items _ _ _ _ Ha) as Hc. exists (Prod a), (set_pop r (popping s) s). unfold spin_rank. simpl.
  destruct a; try done; rewrite Ha; (split_and!; [done..|]); try (by left); right; simpl;
    destruct Hdec as [[?|Hdec] Hpr], Hc as [_ ->]; try lia; by destruct Hpr; [rewrite Hq; simpl; lia|].
Qed.

(** ** Ending *)

Lemma spin_push_returns s : spin_live s ->
  exists ls s', finishes (SpinRing.machine T Capacity) ls s s' /\ prod (ring s') = PIdle.
Proof using Hring.
  remember (prod_rank (prod (ring s))) as n eqn:En. revert s En. induction n as [n IH] using lt_wf_ind.
  intros s -> Hl. assert (Hd : prod (ring s) = PIdle \/ prod (ring s) <> PIdle) by (destruct (prod (ring s)); auto).
  destruct Hd as [Hp|Hp]; [exists [], s; split; [apply finishes_nil|done]|].
  pose proof Hring as [Hpos Hdiv Hlt]. destruct (push_moves Capacity Hpos Hdiv Hlt (ring s)) as (a & r & _ & Ha & Hm);
    [apply inv_reachable; [done..|apply Hl]|done|].
  set (s1 := set_pop r (popping s) s).
  assert (He : exec Capacity (Prod a) s = Some s1) by (destruct a; try done; simpl in *; by rewrite Ha).
  assert (Hf : finishing (Access a)) by (by destruct a).
  assert (Hr : prod r = PIdle \/ (prod_rank (prod r) < prod_rank (prod (ring s)))%nat)
    by (destruct a; try done; [apply Hm|apply Hm|by left]).
  destruct Hr as [Hr|Hr].
  - exists [Prod a], s1. split; [|done]. eapply finishes_cons; [exact He|exact Hf|apply finishes_nil].
  - destruct (IH _ Hr s1 eq_refl) as (ls & s' & Hls & Hs'); [by eapply spin_live_step|].
    exists (Prod a :: ls), s'. split; [by eapply finishes_cons; [exact He|..]|done].
Qed.

(** From the test of the token on, once stop has been requested. *)
Lemma spin_test_returns s : popping s = STest -> stop_flag s = true ->
  finishes (SpinRing.machine T Capacity) [PopTest] s (set_pop (ring s) (SReturn false) s).
Proof using Type.
  intros Hp Hf. eapply finishes_cons; [simpl; rewrite Hp, Hf; reflexivity|done|apply finishes_nil].
Qed.

Lemma spin_return_returns s b : popping s = SReturn b ->
  finishes (SpinRing.machine T Capacity) [PopReturn] s (State (ring s) SIdle (stop_flag s) (returns s ++ [b])).
Proof using Type. intros Hp. eapply finishes_cons; [simpl; rewrite Hp; reflexivity|done|apply finishes_nil]. Qed.

(** Inside [queue_.pop]: it finds an item or the thread is back at the test. *)
Lemma spin_access_returns s : spin_live s -> popping s = SPop ->
  exists ls s', finishes (SpinRing.machine T Capacity) ls s s' /\ stop_flag s' = stop_flag s /\
    (popping s' = STest \/ popping s' = SReturn true).
Proof using Hring.
  remember (cons_rank (cons (ring s))) as n eqn:En. revert s En. induction n as [n IH] using lt_wf_ind.
  intros s -> Hl Hp. pose proof Hring as [Hpos Hdiv Hlt].
  destruct (pop_moves Capacity Hpos Hdiv Hlt (ring s)) as (a & r & _ & Ha & Hm);
    [apply inv_reachable; [done..|apply Hl]|].
  set (s1 := set_pop r (after_pop a r) s).
  assert (He : exec Capacity (Cons a) s = Some s1) by (destruct a; try done; simpl in *; by rewrite Hp, Ha).
  assert (Hf : finishing (Access a)) by (by destruct a).
  assert (Hor : (popping s1 = STest \/ popping s1 = SReturn true) \/
    popping s1 = SPop /\ (cons_rank (cons r) < cons_rank (cons (ring s)))%nat).
  { subst s1. simpl. destruct a; try done; simpl; auto. destruct (cons r); simpl in *; auto; destruct Hm; auto; discriminate. }
  destruct Hor as [Hor|[Hor Hr]].
  - exists [Cons a], s1. split; [|done]. eapply finishes_cons; [exact He|exact Hf|apply finishes_nil].
  - destruct (IH _ Hr s1 eq_refl) as (ls & s' & Hls & Hs' & Hend); [by eapply spin_live_step|done|].
    exists (Cons a :: ls), s'. split; [by eapply finishes_cons; [exact He|..]|done].
Qed.

Lemma spin_pop_returns s : spin_live s -> stop_flag s = true ->
  exists ls s', finishes (SpinRing.machine T Capacity) ls s s' /\ popping s' = SIdle.
Proof using Hring.
  intros Hl Hf.
  assert (Hret : forall b t, popping t = SReturn b ->
    exists ls s', finishes (SpinRing.machine T Capacity) ls t s' /\ popping s' = SIdle).
  { intros b t Ht. exists [PopReturn]. eexists. split; [by apply (spin_return_returns t b)|done]. }
  assert (Htest : forall t, popping t = STest -> stop_flag t = true ->
    exists ls s', finishes (SpinRing.machine T Capacity) ls t s' /\ popping s' = SIdle).
  { intros t Ht Hft. destruct (Hret false (set_pop (ring t) (SReturn false) t) eq_refl) as (ls & s' & Hr & Hs').
    exists ([PopTest] ++ ls), s'. split; [|done]. eapply finishes_app; [by apply spin_test_returns|done]. }
  destruct (popping s) as [| | |b] eqn:Ep; [exists [], s; split; [apply finishes_nil|done]|by apply Htest| |by eapply Hret].
  destruct (spin_access_returns s Hl Ep) as (ls & t & Hr & Hft & Hor).
  assert (exists ls' s', finishes (SpinRing.machine T Capacity) ls' t s' /\ popping s' = SIdle) as (ls' & s' & Hr' & Hs').
  { destruct Hor as [Hor|Hor]; [apply Htest; congruence|by eapply Hret]. }
  exists (ls ++ ls'), s'. split; [by eapply finishes_app|done].
Qed.

#[export] Program Instance spin_machine_stops : RingMachineStops (SpinRing.machine T Capacity).
Next Obligation. intros s _ _. exists StopRequest. by eexists. Qed.
Next Obligation. intros s _. exists [], s. split; [apply finishes_nil|done]. Qed.
Next Obligation.
  intros s Hl. destruct (spin_push_returns s Hl) as (ls & s' & Hr & Hp). exists ls, s'. split; [done|]. simpl. by rewrite Hp.
Qed.
Next Obligation.
  intros s Hl Hf. destruct (spin_pop_returns s Hl Hf) as (ls & s' & Hr & Hp). exists ls, s'. split; [done|]. simpl. by rewrite Hp.
Qed.
Next Obligation.
  intros s _ Hf Hp. simpl in Hp, Hf. assert (Ep : popping s = SIdle) by (by destruct (popping s)).
  exists PopCall, (set_pop (ring s) STest s), [PopTest]. eexists _, PopReturn. eexists.
  split_and!; [simpl; by rewrite Ep|done|by apply spin_test_returns|done|done|done].
Qed.

(** ** Inevitable ending *)

Definition spin_side (l : label T) : side :=
  match l with Prod _ => Producer | PopCall | PopTest | Cons _ | PopReturn => Consumer | StopRequest => Stopper end.

(** Up to the [pop] that returns false, when stop has been requested. *)
Definition spin_pop_rank s : nat :=
  match popping s with
  | SReturn false => 1 | STest => 2 | SIdle => 3 | SReturn true => 5 | SPop => 6 + cons_rank (cons (ring s))
  end.

Lemma spin_access_less s s' a : spin_live s -> exec Capacity (Cons a) s = Some s' ->
  (spin_pop_rank s' < spin_pop_rank s)%nat.
Proof using Hring.
  intros Hl Hs. pose proof (spin_live_step _ s s' Hl Hs) as [Hr' _]. destruct Hring as [Hpos Hdiv Hlt].
  pose proof (inv_fault Capacity _ (inv_reachable Capacity Hpos Hdiv Hlt _ Hr')) as Hfault.
  simpl in Hs. unfold pop_step in Hs. destruct (popping s) eqn:Ep; try (by destruct a).
  unfold spin_pop_rank. rewrite Ep. destruct a; try done; apply bind_Some in Hs as (r & Ha & [= <-]); simpl in *;
    unfold SpscConcurrency.pop_step in Ha; step_cases; simpl; lia.
Qed.

(** Up to the return of [push]. *)
Definition spin_push_rank s : nat := match prod (ring s) with PIdle => 0 | p => prod_rank p end.

Lemma spin_push_less s s' a : exec Capacity (Prod a) s = Some s' -> finishing (Access a) ->
  (spin_push_rank s' < spin_push_rank s)%nat.
Proof.
  simpl. unfold spin_push_rank. intros Hs Hf. destruct a; try done; apply bind_Some in Hs as (r & Ha & [= <-]); simpl in *;
    unfold SpscConcurrency.push_step in Ha; step_cases; simpl; lia.
Qed.

#[export] Program Instance spin_machine_ends : RingMachineEnds (SpinRing.machine T Capacity) := {|
  rm_side := spin_side;
  rm_push_rank := spin_push_rank;
  rm_pop_rank := spin_pop_rank;
|}.
Next Obligation. intros []; done. Qed.
Next Obligation. intros [] [?|?]; done. Qed.
Next Obligation. intros s _ _. exists StopRequest. by eexists. Qed.
Next Obligation. done. Qed.
Next Obligation.
  intros s [Hr _] Hp. simpl in Hp. destruct Hring as [Hpos Hdiv Hlt].
  destruct (push_moves Capacity Hpos Hdiv Hlt (ring s)) as (a & r & _ & Ha & Hm);
    [by apply inv_reachable|by intros E; rewrite E in Hp|].
  exists (Prod a), (set_pop r (popping s) s). simpl. destruct a; try done; by rewrite Ha.
Qed.
Next Obligation. intros l s s' Hs Hl Hf. destruct l; try done. exact (spin_push_less _ _ _ Hs Hf). Qed.
Next Obligation.
  intros l s s' Hs Hl. destruct l as [a| | |a| |]; try done; simpl in Hs; unfold pop_step in Hs; by step_cases.
Qed.
Next Obligation.
  intros s [Hr _] Hf. simpl in Hf. destruct (popping s) eqn:Ep.
  - exists PopCall. simpl. rewrite Ep. eexists. split_and!; [done..|by right].
  - exists PopTest. simpl. rewrite Ep. eexists. split_and!; [done..|by left].
  - destruct Hring as [Hpos Hdiv Hlt].
    destruct (pop_moves Capacity Hpos Hdiv Hlt (ring s)) as (a & r & _ & Ha & Hm); [by apply inv_reachable|].
    exists (Cons a), (set_pop r (after_pop a r) s). simpl. rewrite Ep. destruct a; try done; rewrite Ha; (split_and!; [done..|by left]).
  - exists PopReturn. simpl. rewrite Ep. eexists. split_and!; [done..|by left].
Qed.
Next Obligation.
  intros l s s' Hlive Hs Hf Hl Hr. simpl in Hf. destruct l as [| | |a| |]; try done;
    [| |exact (spin_access_less s s' a Hlive Hs)]; simpl in Hs; unfold pop_step in Hs; unfold spin_pop_rank;
    rewrite ?Hf in Hs; step_cases; simpl; lia.
Qed.
Next Obligation.
  intros l s s' Hs _ Hl Hp. destruct l; try done. simpl in Hs, Hp. unfold pop_step in Hs. unfold spin_pop_rank.
  destruct (popping s); try done. injection Hs as <-. injection Hp as ->. simpl. lia.
Qed.
Next Obligation.
  intros l s s' Hs Hl. unfold spin_pop_rank. destruct l as [a| | |a| |]; try done; simpl in Hs; [|by step_cases].
  destruct a; try done; apply bind_Some in Hs as (r & Ha & [= <-]); simpl; apply exec_items in Ha as [_ ->]; done.
Qed.
End Progress.
