(* ===== verification/BlockingQueue.v ===== *)
(** What [IDisseminator] asks of its [MarketDataQueue]: the blocking
    [pop(item, stoken)] both wait strategies implement, as a type class with the
    two wrappers as instances. *)

From S2P Require Import Prelude QueueConcepts SpinSpscQueue WaitableSpscQueue.
From stdpp Require Import options.

(** [pop] returned a [bool], with what [item] then holds, or it was still running
    when the schedule ended. *)
Inductive pop_result (W T : Type) := PopReturned (b : bool) (item : T) (w : W) | PopRunning (w : W).
#[global] Arguments PopReturned {W T}.
#[global] Arguments PopRunning {W T}.

(** A call of [pop] in a world [W], with a schedule [S] of what other threads do
    meanwhile. [None] is undefined behaviour. *)
Class BlockingQueue (W S T : Type) := {
  bq_pop : S -> T -> W -> option (pop_result W T);
}.
#[global] Hint Mode BlockingQueue ! - - : typeclass_instances.

Class BlockingQueueLaws (W S T : Type) `{BlockingQueue W S T} := {
  bq_repr : W -> list T -> Prop;        (* no call runs and the queue holds the items *)
  bq_stopped : W -> bool;
  bq_offers : S -> list T;              (* the items of the [push] calls in a schedule *)
  bq_pop_spec (s : S) (item : T) (w : W) (l : list T) :
    bq_repr w l ->
    exists r acc, bq_pop s item w = Some r /\ acc `sublist_of` bq_offers s /\
      match r with
      | PopReturned true x w' => exists l', bq_repr w' l' /\ l ++ acc = x :: l'
      | PopReturned false _ w' => bq_repr w' (l ++ acc) /\ bq_stopped w' = true
      | PopRunning _ => True
      end;
}.

(** * Spinning *)

Section Spin.
Context {Q T : Type} `{SpscQueueLaws Q T}.

#[global] Instance spin_blocking : BlockingQueue (SpinSpscQueue.world Q) (list (SpinSpscQueue.turn T)) T := {|
  bq_pop := fun turns item w =>
    o ← SpinSpscQueue.pop turns item w;
    Some (match o with
          | SpinSpscQueue.Returned b x w' => PopReturned b x w'
          | SpinSpscQueue.Spinning _ w' => PopRunning w'
          end);
|}.

#[global] Program Instance spin_blocking_laws :
  BlockingQueueLaws (SpinSpscQueue.world Q) (list (SpinSpscQueue.turn T)) T := {|
  bq_repr := fun w l => q_repr (SpinSpscQueue.queue_ w) l;
  bq_stopped := SpinSpscQueue.stop_requested;
  bq_offers := fun turns => env_offers (mjoin (SpinSpscQueue.turn_events <$> turns));
|}.
Next Obligation.
  intros turns item w l Hw. simpl.
  destruct (pop_meets_post turns item w l Hw) as (o & -> & acc & l' & Hacc & Ho). simpl.
  eexists _, acc. split; [done|]. split; [done|].
  destruct o as [[] x w'|x w']; [by eauto| |done].
  by destruct Ho as (Hw' & -> & _ & Hst).
Qed.
End Spin.

(** * Sleeping *)

Section Waitable.
Import WaitableSpscQueue.WaitableSpscQueue.
Context {T : Type}.

(** The machine's state, with the memory model and the capacity it runs under. *)
Record waitable (mm : memory_model) (cap : nat) :=
  MkWaitable { machine : state T }.
#[global] Arguments MkWaitable {mm cap}.
#[global] Arguments machine {mm cap}.

Context {mm : memory_model} {cap : nat}.

(** Run the scheduled accesses; one that its thread cannot make is skipped. *)
Fixpoint waitable_pop (ls : list (label T)) (item : T)
    (s : state T) : pop_result (waitable mm cap) T :=
  match ls with
  | [] => PopRunning (MkWaitable s)
  | l :: ls' =>
      match exec mm cap l s with
      | None => waitable_pop ls' item s
      | Some s' =>
          match l, cons s with
          | PopReturn, CReturn (Some x) =>
              PopReturned true x (MkWaitable s')
          | PopReturn, CReturn None =>
              PopReturned false item (MkWaitable s')
          | _, _ => waitable_pop ls' item s'
          end
      end
  end.

#[global] Instance waitable_blocking : BlockingQueue (waitable mm cap) (list (label T)) T := {|
  bq_pop := fun ls item w => Some (waitable_pop ls item (machine w));
|}.

Definition label_offers (l : label T) : list T :=
  match l with PushCall x => [x] | _ => [] end.

Definition contents (s : state T) : list T :=
  queue s ++ buffered_items (buffer s).

(** What one access adds to the accepted and to the returned items. *)
Lemma exec_history l s s' : exec mm cap l s = Some s' ->
  (exists acc, acc `sublist_of` label_offers l /\
     accepted s' = accepted s ++ acc) /\
  match l, cons s with
  | PopReturn, CReturn r =>
      cons s' = CIdle /\
      stop_flag s' = stop_flag s /\
      taken s' = taken s ++ option_list r
  | _, _ => taken s' = taken s
  end.
Proof.
  intros Hs. destruct l; simpl in Hs;
    unfold push_step, pop_step, stop_step in Hs;
    step_cases; simpl;
    repeat match goal with E : ?f _ = _ |- _ => progress rewrite ?E end; simpl;
    (split; [first [ exists []; rewrite app_nil_r; split; [apply sublist_nil_l|done] | by eexists ]|]).
  all: done.
Qed.

Definition stop_seen (s : state T) : Prop :=
  cons s = CReturn None -> stop_flag s = true.

Lemma stop_seen_reachable s : reachable mm cap s -> stop_seen s.
Proof.
  intros Hr. refine (rtc_invariant _ stop_seen _ _ _ Hr _); [|by intros ?].
  intros x y Hx [l Hs]. unfold stop_seen in *. destruct l; simpl in Hs;
    unfold push_step, pop_step, stop_step in Hs;
    step_cases; simpl in *; try done; intros Hc; try (by apply Hx).
  all: try (by destruct (stop_flag x)).
  all: try (by destruct (is_sleeping x)).
  all: apply Hx; by destruct (cons x).
Qed.

(** What a call of [pop] that started in [s] has done: it extends the accepted
    items by some of [offers] and, when it returns one, the returned items. *)
Definition pop_done s (offers : list T) (r : pop_result (waitable mm cap) T) : Prop :=
  match r with
  | PopReturned b x w' => exists acc,
      acc `sublist_of` offers /\ reachable mm cap (machine w') /\ cons (machine w') = CIdle /\
      accepted (machine w') = accepted s ++ acc /\
      taken (machine w') = taken s ++ (if b then [x] else []) /\
      (b = false -> stop_flag (machine w') = true)
  | PopRunning _ => True
  end.

Lemma pop_done_trans s s' offers offers' acc r :
  acc `sublist_of` offers -> accepted s' = accepted s ++ acc -> taken s' = taken s ->
  pop_done s' offers' r -> pop_done s (offers ++ offers') r.
Proof.
  intros Hsub Hacc Ht. destruct r as [b x w'|]; [|done].
  intros (acc' & Hsub' & Hr & Hc & Ha & Htk & Hst). exists (acc ++ acc').
  rewrite Ha, Hacc, Htk, Ht, app_assoc. split_and!; try done. by apply sublist_app.
Qed.

Lemma waitable_pop_spec ls item s : reachable mm cap s ->
  pop_done s (mjoin (label_offers <$> ls)) (waitable_pop ls item s).
Proof.
  revert s; induction ls as [|l ls IH]; intros s Hs; simpl; [done|].
  destruct (exec mm cap l s) as [s'|] eqn:Hl.
  - pose proof (exec_history l s s' Hl) as [(acc & Hsub & Hacc) Htaken].
    assert (Hs' : reachable mm cap s') by (eapply rtc_r; [apply Hs|by exists l]).
    specialize (IH s' Hs').
    destruct l; try (by eapply pop_done_trans).
    destruct (cons s) as [| | | | |x| | |r] eqn:Hc; try (by eapply pop_done_trans).
    destruct Htaken as (Hc' & Hst & Ht). apply sublist_nil_r in Hsub as ->.
    assert (Hsub : [] `sublist_of` mjoin (label_offers <$> ls)) by apply sublist_nil_l.
    destruct r as [x|]; exists []; simpl; split_and!; try done.
    intros _. rewrite Hst. by apply (stop_seen_reachable s Hs).
  - specialize (IH s Hs). apply (pop_done_trans s s _ _ []); rewrite ?app_nil_r; try done.
    apply sublist_nil_l.
Qed.

#[global] Program Instance waitable_blocking_laws :
  BlockingQueueLaws (waitable mm cap) (list (label T)) T := {|
  bq_repr := fun w l => reachable mm cap (machine w) /\ cons (machine w) = CIdle /\ contents (machine w) = l;
  bq_stopped := fun w => stop_flag (machine w);
  bq_offers := fun ls => mjoin (label_offers <$> ls);
|}.
Next Obligation.
  intros ls item w l (Hr & Hc & <-). simpl.
  pose proof (waitable_pop_spec ls item (machine w) Hr) as Hspec.
  destruct (waitable_pop ls item (machine w)) as [b x w'|w']; [|exists (PopRunning w'), []; split_and!; (done || apply sublist_nil_l)].
  destruct Hspec as (acc & Hsub & Hr' & Hc' & Ha & Ht & Hst).
  eexists _, acc. split; [done|]. split; [done|].
  destruct (conserved_reachable mm cap _ Hr) as [Hcons _].
  destruct (conserved_reachable mm cap _ Hr') as [Hcons' _].
  unfold in_hand in *. rewrite Hc in Hcons. rewrite Hc' in Hcons'. simpl in *.
  rewrite Ha, Ht, <- Hcons in Hcons'. rewrite <- !app_assoc in Hcons'. apply app_inv_head in Hcons'.
  unfold contents. destruct b; simpl in Hcons'.
  - eexists. split; [done|]. rewrite <- app_assoc. by symmetry.
  - split; [|by apply Hst]. split_and!; try done. rewrite <- app_assoc. done.
Qed.
End Waitable.
