(* ===== verification/Threads.v ===== *)
(** The [std::jthread] members and the exceptions the components share: how
    [start] and [stop] of [BaseGenerator], [IDisseminator] and [IFeedHandler] use
    a thread and its stop token. *)

From S2P Require Import Prelude.
From stdpp Require Import options.

(** The exceptions that pass through the program: those it throws, those of
    [std::filesystem] and cppzmq, and the end of the process when a destructor lets
    one escape, which no handler catches. *)
Inductive exn :=
  | InvalidArgument | LogicError | RuntimeError
  | FilesystemError
  | ZmqError (num : Z)                (* zmq::error_t *)
  | Terminate.

#[export] Instance exn_eq_dec : EqDecision exn.
Proof. solve_decision. Defined.

Module Thread.

(** A [std::jthread]: default-constructed or joined, or associated with a running
    function whose stop token has or has not been stopped. *)
Inductive t := NotJoinable | Joinable (stop_requested : bool).

#[global] Instance eq_dec : EqDecision t.
Proof. solve_decision. Defined.

Definition joinable (th : t) : bool := match th with NotJoinable => false | Joinable _ => true end.

(** [start()]: a new thread, with a fresh token, unless one is running. *)
Definition start (th : t) : t := if joinable th then th else Joinable false.

(** The two halves of [stop()]: [request_stop()], then [join()], which returns
    when the thread's function has. *)
Definition request_stop (th : t) : t := match th with Joinable _ => Joinable true | NotJoinable => NotJoinable end.
Definition join (th : t) : t := NotJoinable.
Definition stop (th : t) : t := if joinable th then join (request_stop th) else th.
End Thread.

(** A start after any history of starts and stops finds a thread whose token is
    not stopped: components can be restarted. *)
Inductive lifecycle_call := CallStart | CallStop.

Definition lifecycle (cs : list lifecycle_call) (th : Thread.t) : Thread.t :=
  foldl (fun th c => match c with CallStart => Thread.start th | CallStop => Thread.stop th end) th cs.

Lemma lifecycle_token cs th : th <> Thread.Joinable true -> lifecycle cs th <> Thread.Joinable true.
Proof.
  revert th; induction cs as [|c cs IH]; intros th Hth; [done|]. apply IH.
  destruct c, th as [|[]]; simpl; (done || congruence).
Qed.

Lemma lifecycle_start cs : lifecycle (cs ++ [CallStart]) Thread.NotJoinable = Thread.Joinable false.
Proof.
  unfold lifecycle. rewrite foldl_app. simpl. fold (lifecycle cs Thread.NotJoinable).
  pose proof (lifecycle_token cs Thread.NotJoinable ltac:(done)) as H.
  destruct (lifecycle cs Thread.NotJoinable) as [|[]]; done.
Qed.

Lemma lifecycle_stop cs : lifecycle (cs ++ [CallStop]) Thread.NotJoinable = Thread.NotJoinable.
Proof.
  unfold lifecycle. rewrite foldl_app. simpl. by destruct (foldl _ _ _).
Qed.
