(* ===== verification/Calls.v ===== *)
(** The calls the constructors and destructors make to the kernel, to cppzmq and to
    the file system: a log of the calls and a function that gives their results;
    exceptions, and the cleanup C++ does when one passes. None of the callees is
    modelled. *)

From S2P Require Import Prelude Threads.
From stdpp Require Import options.

Inductive sockopt :=
  | SO_SNDBUF (bytes : Z) | SO_RCVBUF (bytes : Z) | SO_REUSEADDR
  | IP_MULTICAST_TTL (ttl : Z) | IP_MULTICAST_LOOP | IP_ADD_MEMBERSHIP (group : Z).

(** The member objects of the ZeroMQ classes, by the class that owns them. *)
Inductive zmq_owner := Publisher | Subscriber.
Inductive zmq_opt := Linger (ms : Z) | RcvTimeo (ms : Z).

Inductive syscall :=
  | Socket                                   (* socket(AF_INET, SOCK_DGRAM, IPPROTO_UDP) *)
  | Setsockopt (fd : Z) (opt : sockopt)
  | Bind (fd : Z) (port : list byte)         (* INADDR_ANY and a port in network order *)
  | GetFlags (fd : Z)                        (* fcntl(fd, F_GETFL, 0) *)
  | SetNonblock (fd : Z) (flags : Z)         (* fcntl(fd, F_SETFL, flags | O_NONBLOCK) *)
  | Close (fd : Z)
  | ZmqContext (o : zmq_owner)               (* context_(1) *)
  | ZmqSocket (o : zmq_owner)                (* a PUB or SUB socket in that context *)
  | ZmqBind (o : zmq_owner) (address : list byte)
  | ZmqConnect (o : zmq_owner) (address : list byte)
  | ZmqSet (o : zmq_owner) (opt : zmq_opt)
  | ZmqClose (o : zmq_owner)                 (* close() *)
  | ZmqSocketDtor (o : zmq_owner)            (* ~socket_t(): closes what is not closed *)
  | ZmqContextDtor (o : zmq_owner)           (* ~context_t() *)
  | PathExists (path : list byte)            (* std::filesystem::exists *)
  | CreateDirectories (path : list byte)
  | Join                                     (* join() of the object's thread *)
  | DestroyMembers.                          (* the derived class's own members *)

#[export] Instance sockopt_eq_dec : EqDecision sockopt.
Proof. solve_decision. Defined.
#[export] Instance zmq_owner_eq_dec : EqDecision zmq_owner.
Proof. solve_decision. Defined.
#[export] Instance zmq_opt_eq_dec : EqDecision zmq_opt.
Proof. solve_decision. Defined.
#[export] Instance syscall_eq_dec : EqDecision syscall.
Proof. solve_decision. Defined.

(** [htons] of an [unsigned short]: its bytes, most significant first. *)
Definition htons (port : Z) : list byte := rev (le_bytes 2 port).

(** * Calls in order, and exceptions *)

(** [sys log c] is the result of [c] after the calls in [log]; the outcome is the
    log and a value or an exception. *)
Definition Sys (A : Type) : Type := (list syscall -> syscall -> Z) -> list syscall -> list syscall * (exn + A).

Definition sys_ret {A} (x : A) : Sys A := fun _ log => (log, inr x).
Definition sys_throw {A} (e : exn) : Sys A := fun _ log => (log, inl e).
Definition sys_call (c : syscall) : Sys Z := fun sys log => (log ++ [c], inr (sys log c)).

#[export] Instance sys_bind : MBind Sys := fun A B k m sys log =>
  match m sys log with
  | (log', inl e) => (log', inl e)
  | (log', inr x) => k x sys log'
  end.

(** [if (c) throw e;] *)
Definition throw_if (c : bool) (e : exn) : Sys () := if c then sys_throw e else sys_ret tt.

(** A call of cppzmq: it returns, or throws [zmq::error_t] with the error number
    the library gave. *)
Definition zmq_call (c : syscall) : Sys () :=
  num ← sys_call c; throw_if (negb (num =? 0)) (ZmqError num).

(** A call that does not throw and whose result is not used. *)
Definition quiet_call (c : syscall) : Sys () := _ ← sys_call c; sys_ret tt.

(** When [m] throws, what it leaves is cleaned up and the exception goes on. *)
Definition on_throw {A} (cleanup : Sys ()) (m : Sys A) : Sys A := fun sys log =>
  match m sys log with
  | (log', inl e) =>
      match cleanup sys log' with
      | (log2, inl e2) => (log2, inl e2)
      | (log2, inr _) => (log2, inl e)
      end
  | r => r
  end.

(** Destructors are [noexcept]: an exception that would leave one terminates the
    program. *)
Definition noexcept {A} (m : Sys A) : Sys A := fun sys log =>
  match m sys log with (log', inl _) => (log', inl Terminate) | r => r end.

(** [this->stop()] in a destructor: it joins the thread, if there is one. *)
Definition stop_thread (th : Thread.t) : Sys () :=
  if Thread.joinable th then quiet_call Join else sys_ret tt.

(** * What is released *)

(** A descriptor that was opened and that nothing has closed. *)
Definition leaked (sys : list syscall -> syscall -> Z) (log : list syscall) : Prop :=
  exists before after, log = before ++ Socket :: after /\ 0 <= sys before Socket /\
    Close (sys before Socket) ∉ after.

(** What a program has to give back: descriptors, contexts and sockets. *)
Inductive resource := Fd (fd : Z) | Ctx (o : zmq_owner) | ZSock (o : zmq_owner).

#[export] Instance resource_eq_dec : EqDecision resource.
Proof. solve_decision. Defined.
#[export] Instance zmq_owner_countable : Countable zmq_owner.
Proof.
  refine (inj_countable' (fun o => match o with Publisher => true | Subscriber => false end)
            (fun b => if b then Publisher else Subscriber) _). by intros [].
Defined.
#[export] Instance resource_countable : Countable resource.
Proof.
  refine (inj_countable'
            (fun r => match r with Fd fd => inl fd | Ctx o => inr (inl o) | ZSock o => inr (inr o) end)
            (fun c => match c with inl fd => Fd fd | inr (inl o) => Ctx o | inr (inr o) => ZSock o end) _).
  by intros [].
Defined.

(** The resources held after a call with the given result. *)
Definition track (c : syscall) (result : Z) (R : gset resource) : gset resource :=
  match c with
  | Socket => if 0 <=? result then {[Fd result]} ∪ R else R
  | Close fd => R ∖ {[Fd fd]}
  | ZmqContext o => if result =? 0 then {[Ctx o]} ∪ R else R
  | ZmqSocket o => if result =? 0 then {[ZSock o]} ∪ R else R
  | ZmqClose o | ZmqSocketDtor o => R ∖ {[ZSock o]}
  | ZmqContextDtor o => R ∖ {[Ctx o]}
  | _ => R
  end.

Fixpoint held_from (sys : list syscall -> syscall -> Z) (before log : list syscall) (R : gset resource) :
    gset resource :=
  match log with
  | [] => R
  | c :: log' => held_from sys (before ++ [c]) log' (track c (sys before c) R)
  end.

(** The resources held after the calls of a log. *)
Definition held (sys : list syscall -> syscall -> Z) (log : list syscall) : gset resource := held_from sys [] log ∅.

(** The kernel does not give a descriptor that is open. *)
Definition fresh_descriptors (sys : list syscall -> syscall -> Z) : Prop :=
  forall log, 0 <= sys log Socket -> Fd (sys log Socket) ∉ held sys log.

(** * Proofs about calls *)

Lemma held_from_snoc sys before log c R :
  held_from sys before (log ++ [c]) R = track c (sys (before ++ log) c) (held_from sys before log R).
Proof.
  revert before R; induction log as [|c' log IH]; intros before R; simpl; [by rewrite app_nil_r|].
  rewrite IH. by rewrite <- app_assoc.
Qed.

Lemma held_snoc sys log c : held sys (log ++ [c]) = track c (sys log c) (held sys log).
Proof. apply held_from_snoc. Qed.

(** From a log after which [R] is held, [m] returns a value as [Q] says or throws as
    [E] says, of the value or exception and what is held then. *)
Definition triple {A} (sys : list syscall -> syscall -> Z) (R : gset resource) (m : Sys A)
    (Q : A -> gset resource -> Prop) (E : exn -> gset resource -> Prop) : Prop :=
  forall log, held sys log = R ->
    match m sys log with
    | (log', inr x) => Q x (held sys log')
    | (log', inl e) => E e (held sys log')
    end.

Section Triples.
Context (sys : list syscall -> syscall -> Z).
Implicit Types (R : gset resource) (c : syscall).

Lemma triple_ret {A} R (x : A) (Q : A -> gset resource -> Prop) E : Q x R -> triple sys R (sys_ret x) Q E.
Proof. intros HQ log <-. exact HQ. Qed.

Lemma triple_throw {A} R e (Q : A -> gset resource -> Prop) E : E e R -> triple sys R (sys_throw e) Q E.
Proof. intros HE log <-. exact HE. Qed.

Lemma triple_call R c (Q : Z -> gset resource -> Prop) E :
  (forall v, Q v (track c v R)) -> triple sys R (sys_call c) Q E.
Proof. intros HQ log <-. simpl. rewrite held_snoc. apply HQ. Qed.

(** [socket()] moreover gives a fresh descriptor or fails. *)
Lemma triple_socket R (Q : Z -> gset resource -> Prop) E : fresh_descriptors sys ->
  (forall v, v < 0 -> Q v R) -> (forall v, 0 <= v -> Fd v ∉ R -> Q v ({[Fd v]} ∪ R)) ->
  triple sys R (sys_call Socket) Q E.
Proof.
  intros Hf Hneg Hpos log <-. simpl. rewrite held_snoc. simpl.
  destruct (Z.leb_spec 0 (sys log Socket)); [by apply Hpos, Hf|by apply Hneg].
Qed.

Lemma triple_bind {A B} R (m : Sys A) (k : A -> Sys B) Q E :
  triple sys R m (fun x R' => triple sys R' (k x) Q E) E -> triple sys R (m ≫= k) Q E.
Proof.
  intros Hm log HR. unfold mbind, sys_bind. specialize (Hm log HR).
  destruct (m sys log) as [log' [e|x]]; [done|]. by apply Hm.
Qed.

Lemma triple_throw_if R b e (Q : () -> gset resource -> Prop) E :
  (b = true -> E e R) -> (b = false -> Q tt R) -> triple sys R (throw_if b e) Q E.
Proof. intros Ht Hf. destruct b; [by apply triple_throw, Ht|by apply triple_ret, Hf]. Qed.

Lemma triple_quiet R c (Q : () -> gset resource -> Prop) E :
  (forall v, Q tt (track c v R)) -> triple sys R (quiet_call c) Q E.
Proof. intros HQ. apply triple_bind, triple_call. intros v. by apply triple_ret. Qed.

Lemma triple_zmq R c (Q : () -> gset resource -> Prop) E :
  (forall num, num <> 0 -> E (ZmqError num) (track c num R)) -> Q tt (track c 0 R) ->
  triple sys R (zmq_call c) Q E.
Proof.
  intros HE HQ. apply triple_bind, triple_call. intros v. apply triple_throw_if; intros Hv.
  - apply HE. by apply negb_true_iff, Z.eqb_neq in Hv.
  - apply negb_false_iff, Z.eqb_eq in Hv. by subst.
Qed.

Lemma triple_on_throw {A} R (cleanup : Sys ()) (m : Sys A) Q E :
  triple sys R m Q (fun e R' => triple sys R' cleanup (fun _ => E e) E) ->
  triple sys R (on_throw cleanup m) Q E.
Proof.
  intros Hm log HR. unfold on_throw. specialize (Hm log HR).
  destruct (m sys log) as [log' [e|x]]; [|done]. specialize (Hm log' eq_refl).
  by destruct (cleanup sys log') as [log2 [e2|[]]].
Qed.

Lemma triple_noexcept {A} R (m : Sys A) Q E :
  triple sys R m Q (fun _ => E Terminate) -> triple sys R (noexcept m) Q E.
Proof.
  intros Hm log HR. unfold noexcept. specialize (Hm log HR). by destruct (m sys log) as [log' [e|x]].
Qed.

Lemma triple_conseq {A} R (m : Sys A) (Q Q' : A -> gset resource -> Prop) (E E' : exn -> gset resource -> Prop) :
  triple sys R m Q' E' -> (forall x R', Q' x R' -> Q x R') -> (forall e R', E' e R' -> E e R') ->
  triple sys R m Q E.
Proof.
  intros Hm HQ HE log HR. specialize (Hm log HR). destruct (m sys log) as [log' [e|x]]; auto.
Qed.

Lemma triple_stop_thread R th (Q : () -> gset resource -> Prop) E :
  Q tt R -> triple sys R (stop_thread th) Q E.
Proof. intros HQ. unfold stop_thread. destruct (Thread.joinable th); [by apply triple_quiet|by apply triple_ret]. Qed.

(** The members of a ZeroMQ class, constructed around the body of its constructor:
    if anything throws, neither is left. *)
Definition zmq_members (o : zmq_owner) R : gset resource := {[ZSock o]} ∪ ({[Ctx o]} ∪ R).
Definition zmq_error (e : exn) : Prop := exists num, e = ZmqError num /\ num <> 0.

Lemma triple_zmq_members {A} o R (body : Sys A) Q : Ctx o ∉ R -> ZSock o ∉ R ->
  triple sys (zmq_members o R) body Q (fun e R' => zmq_error e /\ R' = zmq_members o R) ->
  triple sys R
    (_ ← zmq_call (ZmqContext o);
     on_throw (quiet_call (ZmqContextDtor o)) (
       _ ← zmq_call (ZmqSocket o);
       on_throw (quiet_call (ZmqSocketDtor o)) body)) Q
    (fun e R' => zmq_error e /\ R' = R).
Proof.
  intros Hc Hs Hbody. apply triple_bind, triple_zmq.
  { intros num Hn. simpl. rewrite (proj2 (Z.eqb_neq _ _) Hn). by split; [exists num|]. }
  apply triple_on_throw, triple_bind, triple_zmq.
  { intros num Hn. simpl. rewrite (proj2 (Z.eqb_neq _ _) Hn). apply triple_quiet. intros ?. simpl.
    split; [by exists num|]. clear Hbody. set_solver. }
  apply triple_on_throw. eapply triple_conseq; [exact Hbody|done|].
  intros e R' [He ->]. apply triple_quiet. intros ?. apply triple_quiet. intros ?. simpl.
  split; [done|]. clear Hbody. unfold zmq_members. set_solver.
Qed.

(** A call of cppzmq that holds nothing new, inside that body. *)
Lemma triple_zmq_option R c (Q : () -> gset resource -> Prop) :
  (forall v, track c v R = R) -> Q tt R -> triple sys R (zmq_call c) Q (fun e R' => zmq_error e /\ R' = R).
Proof.
  intros Hc HQ. apply triple_zmq; rewrite ?Hc; [|done]. intros num Hn. rewrite Hc. by split; [exists num|].
Qed.

(** The end of both destructors: the socket, then the context. *)
Lemma triple_zmq_release o R R0 E : (R ∖ {[ZSock o]}) ∖ {[Ctx o]} = R0 ->
  triple sys R (_ ← quiet_call (ZmqSocketDtor o); quiet_call (ZmqContextDtor o)) (fun _ R' => R' = R0) E.
Proof. intros <-. apply triple_bind, triple_quiet. intros ?. by apply triple_quiet. Qed.
End Triples.
