(* ===== verification/BaseGenerator.v ===== *)
(** [src/generator/BaseGenerator.h]: the rate configuration, the thread and the
    paced generation loop, over any derived generator and any lawful queue. *)

From S2P Require Import Prelude Types QueueConcepts Threads Calls.
From stdpp Require Import options.

Module BaseGenerator.

(** [messages_per_sec_] is a [uint32_t], [interval_] a number of nanoseconds. *)
Record t := Make {
  messages_per_sec_ : Z;
  interval_ : Z;
  generating_thread_ : Thread.t;
}.

Definition init : t := Make 0 0 Thread.NotJoinable.

(** [set_rate] throws before it changes anything; the division is the integer
    division of [uint32_t]. *)
Definition set_rate (messages_per_second : Z) (g : t) : t * option exn :=
  if messages_per_second <? 1 then (g, Some InvalidArgument)
  else (Make messages_per_second (u32 (1000000000 / messages_per_second)) (generating_thread_ g), None).

Definition start (g : t) : t * option exn :=
  if messages_per_sec_ g =? 0 then (g, Some LogicError)
  else (Make (messages_per_sec_ g) (interval_ g) (Thread.start (generating_thread_ g)), None).

Definition stop (g : t) : t :=
  Make (messages_per_sec_ g) (interval_ g) (Thread.stop (generating_thread_ g)).

(** The destructor of the base class. *)
Definition destroy (g : t) : Sys () := stop_thread (generating_thread_ g).

(** The [std::visit] that stamps a message with the clock. *)
Definition stamp_enqueue (clock : Z) (m : MarketDataMsg) : MarketDataMsg :=
  match m with
  | QuoteMsg q => QuoteMsg (Quote.with_enqueue_timestamp (u64 clock) q)
  | TradeMsg x => TradeMsg (Trade.with_enqueue_timestamp (u64 clock) x)
  end.

Section Loop.
Context {D Q : Type} `{SpscQueueStorage Q MarketDataMsg}.
(** [static_cast<Derived*>(this)->generate_msg_impl()], given the clock it reads;
    [None] is undefined behaviour. *)
Context (generate_msg_impl : Z -> D -> option (MarketDataMsg * D)).
Context (interval : Z).

(** The state the loop works on. [generated] and [accepted] record the stamped
    messages and those [push] took; [gen_times] the readings of [now] that
    triggered them. *)
Record world := World {
  queue_ : Q;
  stop_requested : bool;
  derived : D;
  next_time : Z;
  generated : list MarketDataMsg;
  accepted : list MarketDataMsg;
  gen_times : list Z;
}.

(** Other threads: the consumer pops, someone requests stop. *)
Inductive env_event := EnvPop | EnvStop.

Definition set_queue (q : Q) (w : world) : world :=
  World q (stop_requested w) (derived w) (next_time w) (generated w) (accepted w) (gen_times w).

Definition env_act (e : env_event) (w : world) : option world :=
  match e with
  | EnvPop => '(_, _, q) ← q_pop (QuoteMsg Quote.zero) (queue_ w); Some (set_queue q w)
  | EnvStop => Some (World (queue_ w) true (derived w) (next_time w) (generated w) (accepted w) (gen_times w))
  end.

Fixpoint env_acts (es : list env_event) (w : world) : option world :=
  match es with
  | [] => Some w
  | e :: es' => w' ← env_act e w; env_acts es' w'
  end.

(** One test of [!stop_tok.stop_requested() && !queue_.push(msg)]. *)
Record attempt := Attempt { before_test : list env_event; before_push : list env_event }.

(** How a loop ends: by its condition, or because the given events are over. *)
Inductive retry_outcome := Pushed (w : world) | Abandoned (w : world) | Retrying (w : world).

Fixpoint push_retry (attempts : list attempt) (msg : MarketDataMsg) (w : world) : option retry_outcome :=
  match attempts with
  | [] => Some (Retrying w)
  | a :: attempts' =>
      w1 ← env_acts (before_test a) w;
      if stop_requested w1 then Some (Abandoned w1)
      else
        w2 ← env_acts (before_push a) w1;
        '(b, q) ← q_push msg (queue_ w2);
        if b : bool then
          Some (Pushed (World q (stop_requested w2) (derived w2) (next_time w2) (generated w2)
                              (accepted w2 ++ [msg]) (gen_times w2)))
        else push_retry attempts' msg (set_queue q w2)
  end.

(** One turn of the loop: what happens before the test, the clock readings
    ([now], the one inside [generate_msg_impl], the enqueue stamp), the attempts. *)
Record turn := Turn {
  before : list env_event;
  now : Z;
  gen_clock : Z;
  enqueue_clock : Z;
  attempts : list attempt;
}.

Inductive outcome := Exited (w : world) | InRetry (w : world) | Looping (w : world).

Definition advance (w : world) : world :=
  World (queue_ w) (stop_requested w) (derived w) (next_time w + interval) (generated w) (accepted w)
        (gen_times w).

(** Generating a message and stamping it. *)
Definition make_msg (t : turn) (w : world) : option (MarketDataMsg * world) :=
  '(m, d) ← generate_msg_impl (gen_clock t) (derived w);
  let msg := stamp_enqueue (enqueue_clock t) m in
  Some (msg, World (queue_ w) (stop_requested w) d (next_time w) (generated w ++ [msg]) (accepted w)
                   (gen_times w ++ [now t])).

Fixpoint generation_loop (turns : list turn) (w : world) : option outcome :=
  match turns with
  | [] => Some (Looping w)
  | t :: turns' =>
      w1 ← env_acts (before t) w;
      if stop_requested w1 then Some (Exited w1)
      else if next_time w1 <=? now t then
        '(msg, w2) ← make_msg t w1;
        r ← push_retry (attempts t) msg w2;
        match r with
        | Pushed w3 | Abandoned w3 => generation_loop turns' (advance w3)
        | Retrying w3 => Some (InRetry w3)
        end
      else generation_loop turns' w1
  end.
End Loop.
#[global] Arguments world D Q : clear implicits.
#[global] Arguments outcome D Q : clear implicits.
#[global] Arguments retry_outcome D Q : clear implicits.
#[global] Arguments World {D Q}.
End BaseGenerator.
Import BaseGenerator.

(** * Proofs *)

Definition outcome_world {D Q} (o : outcome D Q) : world D Q :=
  match o with Exited w | InRetry w | Looping w => w end.
Definition retry_world {D Q} (r : retry_outcome D Q) : world D Q :=
  match r with Pushed w | Abandoned w | Retrying w => w end.

Definition last_env (a : attempt) : list env_event := before_test a ++ before_push a.
Definition env_stops (es : list env_event) : bool :=
  existsb (fun e => match e with EnvPop => false | EnvStop => true end) es.

Section Loop.
Context {D Q : Type} `{SpscQueueLaws Q MarketDataMsg}.
Context (generate_msg_impl : Z -> D -> option (MarketDataMsg * D)) (interval : Z).
(** [GenInv] is an invariant of the derived generator under which it never meets
    undefined behaviour and only produces messages that satisfy [GenMsg]. *)
Context (GenInv : D -> Prop) (GenMsg : MarketDataMsg -> Prop).
Context (gen_total : forall c d, GenInv d ->
  exists m d', generate_msg_impl c d = Some (m, d') /\ GenInv d' /\ GenMsg m).
Context (gen_stamp : forall c m, GenMsg m -> GenMsg (stamp_enqueue c m)).
Implicit Types (w : world D Q) (l : list MarketDataMsg).

(** What every point of the loop maintains, from [l0] queued items and a first
    deadline [t0]: [k] messages have been generated, [n] deadlines passed, and the
    generated messages are the accepted ones and then [pending]. *)
Record loop_inv (t0 : Z) l0 (pending : list MarketDataMsg) (n k : nat) w : Prop := {
  li_queue : exists l popped, q_repr (queue_ w) l /\ popped ++ l = l0 ++ accepted w;
  li_gen : GenInv (derived w);
  li_msgs : Forall GenMsg (generated w);
  li_next : next_time w = t0 + interval * Z.of_nat n;
  li_times_len : length (gen_times w) = k;
  li_len : length (generated w) = k;
  li_times : forall i t, gen_times w !! i = Some t -> t0 + interval * Z.of_nat i <= t;
  li_accepted : generated w = accepted w ++ pending;
}.

Lemma env_act_inv t0 l0 pending n k e w : loop_inv t0 l0 pending n k w ->
  exists w', env_act e w = Some w' /\ loop_inv t0 l0 pending n k w' /\
             stop_requested w' = stop_requested w || env_stops [e].
Proof using All.
  intros Hinv. destruct (li_queue _ _ _ _ _ _ Hinv) as (l & popped & Hq & Hl).
  destruct e; simpl.
  - destruct (q_pop_refines (queue_ w) l (QuoteMsg Quote.zero) Hq) as (q & Hpop & Hq').
    rewrite Hpop. destruct l as [|m l]; simpl in *.
    + eexists. split; [done|]. rewrite orb_false_r. split; [|done].
      destruct Hinv. split; simpl; eauto.
    + eexists. split; [done|]. rewrite orb_false_r. split; [|done].
      destruct Hinv. split; simpl; try done. exists l, (popped ++ [m]).
      by rewrite <- app_assoc.
  - eexists. split; [done|]. simpl. rewrite orb_true_r. split; [|done].
    destruct Hinv. by split.
Qed.

Lemma env_acts_inv t0 l0 pending n k es w : loop_inv t0 l0 pending n k w ->
  exists w', env_acts es w = Some w' /\ loop_inv t0 l0 pending n k w' /\
             stop_requested w' = stop_requested w || env_stops es.
Proof using All.
  revert w; induction es as [|e es IH]; intros w Hinv; simpl.
  - exists w. by rewrite orb_false_r.
  - destruct (env_act_inv _ _ _ _ _ e w Hinv) as (w1 & -> & Hinv1 & Hst1). simpl.
    destruct (IH w1 Hinv1) as (w2 & -> & Hinv2 & Hst2).
    exists w2. split_and!; try done. rewrite Hst2, Hst1. simpl. by rewrite orb_false_r, orb_assoc.
Qed.

Lemma push_retry_inv t0 l0 n k attempts msg w : loop_inv t0 l0 [msg] n k w ->
  exists r, push_retry attempts msg w = Some r /\
    match r with
    | Pushed w' => loop_inv t0 l0 [] n k w'
    | Abandoned w' => loop_inv t0 l0 [msg] n k w' /\ stop_requested w' = true
    | Retrying w' => loop_inv t0 l0 [msg] n k w'
    end.
Proof using All.
  revert w; induction attempts as [|a attempts IH]; intros w Hinv; simpl; [by eauto|].
  destruct (env_acts_inv _ _ _ _ _ (before_test a) w Hinv) as (w1 & -> & Hinv1 & _). simpl.
  destruct (stop_requested w1) eqn:Hst; [by eexists; split|].
  destruct (env_acts_inv _ _ _ _ _ (before_push a) w1 Hinv1) as (w2 & -> & Hinv2 & _). simpl.
  destruct (li_queue _ _ _ _ _ _ Hinv2) as (l & popped & Hq & Hl).
  destruct (q_push_refines (queue_ w2) l msg Hq) as (q & -> & Hq'). simpl.
  unfold Fifo.push in *. case_decide; simpl in *.
  - eexists. split; [done|]. destruct Hinv2. split; simpl; try done.
    + exists (l ++ [msg]), popped. by rewrite app_assoc, Hl, app_assoc.
    + by rewrite app_nil_r.
  - apply IH. destruct Hinv2. split; simpl; eauto.
Qed.

(** Generating appends one stamped message whose deadline has passed. *)
Lemma make_msg_inv t0 l0 n t w : loop_inv t0 l0 [] n n w -> next_time w <= now t ->
  exists msg w', make_msg generate_msg_impl t w = Some (msg, w') /\ loop_inv t0 l0 [msg] n (S n) w'.
Proof using All.
  intros Hinv Hnow. unfold make_msg.
  destruct (gen_total (gen_clock t) (derived w) (li_gen _ _ _ _ _ _ Hinv)) as (m & d & -> & Hd & Hm).
  simpl. do 2 eexists. split; [done|].
  destruct Hinv as [? ? ? Hnext Htl Hlen Htimes Hacc].
  split; simpl; rewrite ?length_app; simpl; try (done || lia).
  - apply Forall_app. split; [done|]. constructor; [by apply gen_stamp|done].
  - intros i t' [Hi|[Hi E]]%lookup_app_Some; [by apply Htimes|].
    apply list_lookup_singleton_Some in E as [Hi' <-].
    assert (i = n) as -> by lia. lia.
  - by rewrite Hacc, app_nil_r.
Qed.

Lemma advance_inv t0 l0 pending n k w :
  loop_inv t0 l0 pending n k w -> loop_inv t0 l0 pending (S n) k (advance interval w).
Proof using Type. intros []. split; simpl; (done || lia). Qed.

Definition outcome_inv (t0 : Z) l0 (o : outcome D Q) : Prop :=
  match o with
  | Exited w' => exists pending n, loop_inv t0 l0 pending n n w' /\ (length pending <= 1)%nat /\
                                   stop_requested w' = true
  | Looping w' => exists pending n, loop_inv t0 l0 pending n n w' /\ (length pending <= 1)%nat /\
                                    (stop_requested w' = false -> pending = [])
  | InRetry w' => exists msg n, loop_inv t0 l0 [msg] n (S n) w'
  end.

Lemma generation_loop_inv turns t0 l0 pending n w :
  loop_inv t0 l0 pending n n w -> (length pending <= 1)%nat ->
  (stop_requested w = false -> pending = []) ->
  exists o, generation_loop generate_msg_impl interval turns w = Some o /\ outcome_inv t0 l0 o.
Proof using All.
  revert pending n w; induction turns as [|t turns IH]; intros pending n w Hinv Hlen Hp; simpl.
  { eexists. split; [done|]. simpl. eauto. }
  destruct (env_acts_inv _ _ _ _ _ (before t) w Hinv) as (w1 & -> & Hinv1 & Hst1). simpl.
  destruct (stop_requested w1) eqn:Hst.
  { eexists. split; [done|]. simpl. eauto. }
  assert (pending = []) as ->.
  { apply Hp. by destruct (stop_requested w). }
  destruct (Z.leb_spec (next_time w1) (now t)) as [Hnow|Hnow].
  - destruct (make_msg_inv _ _ _ t w1 Hinv1 Hnow) as (msg & w2 & -> & Hinv2). simpl.
    destruct (push_retry_inv _ _ _ _ (attempts t) msg w2 Hinv2) as (r & -> & Hr). simpl.
    destruct r as [w3|w3|w3].
    + eapply (IH [] (S n)); [by apply advance_inv|simpl; lia|done].
    + destruct Hr as [Hr Hst3].
      eapply (IH [msg] (S n)); [by apply advance_inv|simpl; lia|]. simpl. congruence.
    + eexists. split; [done|]. simpl. eauto.
  - by apply (IH [] n).
Qed.
End Loop.

(** * Termination *)

Section Termination.
Context {D Q : Type} `{SpscQueueStorage Q MarketDataMsg}.
Context (generate_msg_impl : Z -> D -> option (MarketDataMsg * D)) (interval : Z).
Implicit Types (w : world D Q).

Lemma env_acts_stop es w w' : env_acts es w = Some w' ->
  stop_requested w' = stop_requested w || env_stops es.
Proof using Type.
  revert w; induction es as [|[] es IH]; intros w; simpl.
  - intros [= ->]. by rewrite orb_false_r.
  - intros (w1 & (((b & x) & q) & Hq & [= <-])%bind_Some & Hes)%bind_Some. by rewrite (IH _ Hes).
  - intros Hes. rewrite (IH _ Hes). simpl. by rewrite orb_true_r.
Qed.

(** An attempt that follows a stop request ends the retry loop. *)
Definition ends_retry (attempts : list attempt) : Prop :=
  exists as1 a a' as2, attempts = as1 ++ a :: a' :: as2 /\ env_stops (last_env a) = true.

Lemma push_retry_ends attempts msg w r :
  ends_retry attempts -> push_retry attempts msg w = Some r -> forall w', r <> Retrying w'.
Proof using Type.
  intros (as1 & a & a' & as2 & -> & Hstop). revert w.
  induction as1 as [|a1 as1 IH]; intros w Hr w' ->.
  - simpl in Hr. apply bind_Some in Hr as (w1 & H1 & Hr).
    destruct (stop_requested w1) eqn:S1; [done|]. apply bind_Some in Hr as (w2 & H2 & Hr).
    apply bind_Some in Hr as ([[] q] & H3 & Hr); [done|]. apply bind_Some in Hr as (w3 & H4 & Hr).
    destruct (stop_requested w3) eqn:S3; [done|].
    apply env_acts_stop in H1, H2, H4. simpl in H4.
    unfold last_env, env_stops in *. rewrite existsb_app in Hstop.
    rewrite S1 in *. rewrite S3 in *. rewrite H2 in H4. simpl in *.
    destruct (existsb _ (before_test a)), (existsb _ (before_push a)), (stop_requested w); done.
  - simpl in Hr. apply bind_Some in Hr as (w1 & H1 & Hr).
    destruct (stop_requested w1) eqn:S1; [done|]. apply bind_Some in Hr as (w2 & H2 & Hr).
    apply bind_Some in Hr as ([[] q] & H3 & Hr); [done|]. by eapply IH.
Qed.

(** The loop leaves a turn whose retry ends, or exits in it. *)
Lemma generation_loop_exits turns w o :
  stop_requested w = true \/ Exists (fun t => env_stops (before t) = true) turns ->
  Forall (fun t => ends_retry (attempts t)) turns -> turns <> [] ->
  generation_loop generate_msg_impl interval turns w = Some o -> exists w', o = Exited w'.
Proof using Type.
  revert w; induction turns as [|t turns IH]; intros w Hst Hends Hne; [done|].
  intros Hl. simpl in Hl. apply bind_Some in Hl as (w1 & H1 & Hl).
  destruct (stop_requested w1) eqn:S1; [injection Hl as <-; eauto|].
  apply env_acts_stop in H1. rewrite S1 in H1. symmetry in H1. apply orb_false_iff in H1 as [Sw Sb].
  inversion Hends as [|? ? Ht Hends']; subst.
  assert (Hrest : Exists (fun t => env_stops (before t) = true) turns).
  { destruct Hst as [?|Hst]; [congruence|]. inversion Hst; subst; [congruence|done]. }
  assert (Hne' : turns <> []) by (by destruct Hrest).
  destruct (next_time w1 <=? now t); [|by eapply IH; eauto].
  apply bind_Some in Hl as ([msg w2] & H2 & Hl). apply bind_Some in Hl as (r & H3 & Hl).
  destruct r as [w3|w3|w3]; [by eapply IH; eauto..|].
  by destruct (push_retry_ends _ _ _ _ Ht H3 w3).
Qed.
End Termination.

(** * Properties *)

(** The loop's initial state: [next_time = steady_clock::now()] read [t0]. *)
Definition loop_start {D Q} (q : Q) (d : D) (t0 : Z) : world D Q := World q false d t0 [] [] [].

Section Start.
Context {D Q : Type} `{SpscQueueLaws Q MarketDataMsg}.
Context (generate_msg_impl : Z -> D -> option (MarketDataMsg * D)) (interval : Z).
Context (GenInv : D -> Prop) (GenMsg : MarketDataMsg -> Prop).

(** What the loop relies on from the derived class. *)
Definition generator_ok : Prop :=
  (forall c d, GenInv d -> exists m d', generate_msg_impl c d = Some (m, d') /\ GenInv d' /\ GenMsg m) /\
  (forall c m, GenMsg m -> GenMsg (stamp_enqueue c m)).

Lemma loop_from_start turns q d t0 l0 :
  generator_ok -> q_repr q l0 -> GenInv d ->
  exists o, generation_loop generate_msg_impl interval turns (loop_start q d t0) = Some o /\
            outcome_inv interval GenInv GenMsg t0 l0 o.
Proof using All.
  intros [Htot Hst] Hq Hd.
  apply (generation_loop_inv generate_msg_impl interval GenInv GenMsg Htot Hst turns t0 l0 [] 0); simpl; [|lia|done].
  split; simpl; (done || eauto using Forall_nil || lia || idtac).
  exists l0, []. by rewrite app_nil_r.
Qed.
End Start.

(** C12: the loop never loses or reorders a message on its way to the queue,
    whatever the consumer and the stop request do: with a lawful queue and a
    derived generator that keeps its invariant, the run has no undefined
    behaviour; the items in the queue are what is left, after the consumer's pops,
    of the initial items followed by the accepted messages; and the generated
    messages are the accepted ones, except for at most one that is being pushed
    or that a stop request abandoned. *)
Theorem generation_loop_conserves {D Q : Type} `{SpscQueueLaws Q MarketDataMsg}
    (generate_msg_impl : Z -> D -> option (MarketDataMsg * D)) (interval : Z)
    (GenInv : D -> Prop) (GenMsg : MarketDataMsg -> Prop)
    (turns : list turn) (q : Q) (d : D) (t0 : Z) (l0 : list MarketDataMsg) :
  generator_ok generate_msg_impl GenInv GenMsg -> q_repr q l0 -> GenInv d ->
  exists o pending l popped,
    generation_loop generate_msg_impl interval turns (loop_start q d t0) = Some o /\
    q_repr (queue_ (outcome_world o)) l /\
    popped ++ l = l0 ++ accepted (outcome_world o) /\
    generated (outcome_world o) = accepted (outcome_world o) ++ pending /\
    (length pending <= 1)%nat /\
    Forall GenMsg (generated (outcome_world o)) /\
    match o with
    | Looping w => stop_requested w = false -> pending = []
    | Exited w => stop_requested w = true
    | InRetry _ => length pending = 1%nat
    end.
Proof.
  intros Hok Hq Hd.
  destruct (loop_from_start generate_msg_impl interval GenInv GenMsg turns q d t0 l0 Hok Hq Hd)
    as (o & Ho & Hinv).
  destruct o as [w|w|w]; simpl in Hinv;
    [destruct Hinv as (pending & n & Hi & Hlen & Hst)
    |destruct Hinv as (msg & n & Hi)
    |destruct Hinv as (pending & n & Hi & Hlen & Hst)];
    destruct (li_queue _ _ _ _ _ _ _ _ _ Hi) as (l & popped & Hl & Hpop).
  - exists (Exited w), pending, l, popped. destruct Hi. split_and!; done.
  - exists (InRetry w), [msg], l, popped. destruct Hi. split_and!; (done || simpl; lia).
  - exists (Looping w), pending, l, popped. destruct Hi. split_and!; done.
Qed.

(** A generator of trades numbered 0, 1, 2, ... *)
Definition counting_generator (clock : Z) (n : nat) : option (MarketDataMsg * nat) :=
  Some (TradeMsg (Trade.Make (replicate 8 x41) 0 (Z.of_nat n) (u64 clock) 0), S n).

Definition is_trade (m : MarketDataMsg) : Prop := match m with TradeMsg _ => True | _ => False end.

Lemma counting_generator_ok : generator_ok counting_generator (fun _ => True) is_trade.
Proof.
  split; [|by intros c []]. intros c n _. do 2 eexists. done.
Qed.

(** Three turns on a queue of two places: the third message finds the queue full
    twice, then the consumer pops; the fourth is abandoned by a stop request. *)
Definition demo_turns : list turn :=
  [Turn [] 100 100 101 [Attempt [] []]; Turn [] 105 0 0 []; Turn [] 110 111 112 [Attempt [] []];
   Turn [] 125 126 127 [Attempt [] []; Attempt [] []; Attempt [EnvPop] []];
   Turn [] 130 131 132 [Attempt [] [EnvStop]; Attempt [] []]; Turn [] 140 0 0 [Attempt [] []; Attempt [] []]].

Lemma generation_loop_conserves_witness :
  exists o pending l popped,
    generation_loop counting_generator 10 demo_turns
      (loop_start (MkListQueue [] : ListQueue 2 MarketDataMsg) 0%nat 100) = Some o /\
    q_repr (queue_ (outcome_world o)) l /\
    popped ++ l = [] ++ accepted (outcome_world o) /\
    generated (outcome_world o) = accepted (outcome_world o) ++ pending /\
    (length pending <= 1)%nat /\
    Forall is_trade (generated (outcome_world o)) /\
    match o with
    | Looping w => stop_requested w = false -> pending = []
    | Exited w => stop_requested w = true
    | InRetry _ => length pending = 1%nat
    end.
Proof.
  apply (generation_loop_conserves (Q:=ListQueue 2 MarketDataMsg) counting_generator 10
           (fun _ => True) is_trade demo_turns (MkListQueue []) 0%nat 100 []).
  - exact counting_generator_ok.
  - split; [reflexivity|simpl; lia].
  - exact I.
Defined.

(** C35: pacing. The [i]-th message is never generated before [t0 + i * interval_],
    and the deadline kept for the next one is [t0 + n * interval_] after [n]
    messages, so the clock's jitter does not accumulate. *)
Theorem generation_loop_paced {D Q : Type} `{SpscQueueLaws Q MarketDataMsg}
    (generate_msg_impl : Z -> D -> option (MarketDataMsg * D)) (interval : Z)
    (GenInv : D -> Prop) (GenMsg : MarketDataMsg -> Prop)
    (turns : list turn) (q : Q) (d : D) (t0 : Z) (l0 : list MarketDataMsg) :
  generator_ok generate_msg_impl GenInv GenMsg -> q_repr q l0 -> GenInv d ->
  exists o, generation_loop generate_msg_impl interval turns (loop_start q d t0) = Some o /\
    length (gen_times (outcome_world o)) = length (generated (outcome_world o)) /\
    (forall i t, gen_times (outcome_world o) !! i = Some t -> t0 + interval * Z.of_nat i <= t) /\
    (match o with InRetry w => next_time w + interval | _ => next_time (outcome_world o) end =
     t0 + interval * Z.of_nat (length (generated (outcome_world o)))).
Proof.
  intros Hok Hq Hd.
  destruct (loop_from_start generate_msg_impl interval GenInv GenMsg turns q d t0 l0 Hok Hq Hd)
    as (o & Ho & Hinv).
  exists o. destruct o as [w|w|w]; simpl in Hinv;
    [destruct Hinv as (pending & n & Hi & _)|destruct Hinv as (msg & n & Hi)
    |destruct Hinv as (pending & n & Hi & _)]; destruct Hi; split_and!; simpl; (done || congruence || lia).
Qed.

Lemma generation_loop_paced_witness :
  exists o, generation_loop counting_generator 10 demo_turns
      (loop_start (MkListQueue [] : ListQueue 2 MarketDataMsg) 0%nat 100) = Some o /\
    length (gen_times (outcome_world o)) = length (generated (outcome_world o)) /\
    (forall i t, gen_times (outcome_world o) !! i = Some t -> 100 + 10 * Z.of_nat i <= t) /\
    (match o with InRetry w => next_time w + 10 | _ => next_time (outcome_world o) end =
     100 + 10 * Z.of_nat (length (generated (outcome_world o)))).
Proof.
  apply (generation_loop_paced (Q:=ListQueue 2 MarketDataMsg) counting_generator 10
           (fun _ => True) is_trade demo_turns (MkListQueue []) 0%nat 100 []).
  - exact counting_generator_ok.
  - split; [reflexivity|simpl; lia].
  - exact I.
Defined.

(** The loop terminates when stop is requested: if some turn sees the request
    at its test and every retry loop gets one more test after one, the loop exits
    by its own condition. *)
Theorem generation_loop_terminates {D Q : Type} `{SpscQueueLaws Q MarketDataMsg}
    (generate_msg_impl : Z -> D -> option (MarketDataMsg * D)) (interval : Z)
    (GenInv : D -> Prop) (GenMsg : MarketDataMsg -> Prop)
    (turns : list turn) (q : Q) (d : D) (t0 : Z) (l0 : list MarketDataMsg) :
  generator_ok generate_msg_impl GenInv GenMsg -> q_repr q l0 -> GenInv d ->
  Exists (fun t => env_stops (before t) = true) turns ->
  Forall (fun t => ends_retry (attempts t)) turns ->
  exists w, generation_loop generate_msg_impl interval turns (loop_start q d t0) = Some (Exited w).
Proof.
  intros Hok Hq Hd Hstop Hends.
  destruct (loop_from_start generate_msg_impl interval GenInv GenMsg turns q d t0 l0 Hok Hq Hd)
    as (o & Ho & _).
  destruct (generation_loop_exits generate_msg_impl interval turns (loop_start q d t0) o (or_intror Hstop) Hends) as [w ->];
    [by destruct Hstop|done|by exists w].
Qed.

Definition stopping_turns : list turn :=
  [Turn [] 100 100 101 [Attempt [] [EnvStop]; Attempt [] []];
   Turn [EnvStop] 110 0 0 [Attempt [EnvStop] []; Attempt [] []]].

Lemma generation_loop_terminates_witness :
  exists w, generation_loop counting_generator 10 stopping_turns
      (loop_start (MkListQueue [] : ListQueue 2 MarketDataMsg) 0%nat 100) = Some (Exited w).
Proof.
  apply (generation_loop_terminates (Q:=ListQueue 2 MarketDataMsg) counting_generator 10
           (fun _ => True) is_trade stopping_turns (MkListQueue []) 0%nat 100 []).
  - exact counting_generator_ok.
  - split; [reflexivity|simpl; lia].
  - exact I.
  - right. left. reflexivity.
  - repeat constructor.
    + exists [], (Attempt [] [EnvStop]), (Attempt [] []), []. split; reflexivity.
    + exists [], (Attempt [EnvStop] []), (Attempt [] []), []. split; reflexivity.
Defined.

(** [set_rate] accepts exactly the positive rates; on one it sets the largest
    whole number of nanoseconds that does not slow the generator below the rate
    (zero above a billion a second), and otherwise it throws and changes nothing;
    after it, and only after it, [start] does not throw. *)
Theorem set_rate_interval (g : t) (rate : Z) :
  is_u32 rate ->
  match set_rate rate g with
  | (g', None) => 0 < rate /\ messages_per_sec_ g' = rate /\
      interval_ g' * rate <= 1000000000 < (interval_ g' + 1) * rate /\ (start g').2 = None
  | (g', Some e) => rate = 0 /\ e = InvalidArgument /\ g' = g /\ (start init).2 = Some LogicError
  end.
Proof.
  intros [Hlo Hhi]. unfold set_rate, start. destruct (Z.ltb_spec rate 1) as [Hlt|Hge]; simpl.
  - split_and!; (done || lia).
  - pose proof (Z.div_mod 1000000000 rate ltac:(lia)).
    pose proof (Z.mod_pos_bound 1000000000 rate ltac:(lia)).
    assert (1000000000 / rate <= 1000000000) by (apply Z.div_le_upper_bound; nia).
    rewrite u32_small by (split; [apply Z.div_pos|]; lia).
    rewrite (proj2 (Z.eqb_neq _ _)) by lia. simpl. split_and!; (done || lia).
Qed.

Lemma set_rate_interval_witness :
  match set_rate 3000000 init with
  | (g', None) => 0 < 3000000 /\ messages_per_sec_ g' = 3000000 /\
      interval_ g' * 3000000 <= 1000000000 < (interval_ g' + 1) * 3000000 /\ (start g').2 = None
  | (g', Some e) => 3000000 = 0 /\ e = InvalidArgument /\ g' = init /\ (start init).2 = Some LogicError
  end.
Proof. apply (set_rate_interval init 3000000). split; lia. Defined.
