(* ===== verification/RandomWalkGenerator.v ===== *)
(** [src/generator/RandomWalkGenerator.h]: the symbols file, [configure] and the
    random-walk messages. The random number engine and distributions are an
    interface. *)

From Stdlib Require Import String.
From S2P Require Import Prelude Binary64 Rounding Types QueueConcepts Threads Calls BaseGenerator.
From stdpp Require Import options.

(** * Random numbers *)

(** [std::mt19937] with [std::uniform_int_distribution(a, b)] and
    [std::normal_distribution(mean, stddev)]: their algorithms are left to the
    library implementation; the standard fixes the range of the former, and the
    latter gives [double]s. *)
Class RandomSource (G : Type) := {
  uniform_int : Z -> Z -> G -> Z * G;
  normal_double : double -> double -> G -> double * G;
}.

Class RandomSourceLaws (G : Type) `{RandomSource G} := {
  uniform_int_range (a b : Z) (g : G) : a <= b -> a <= (uniform_int a b g).1 <= b;
  normal_double_valid (mean stddev : double) (g : G) : valid (normal_double mean stddev g).1;
}.

(** * The symbols file *)

Module SymbolsFile.

Definition newline : byte := x0a.
Definition carriage_return : byte := x0d.

(** [::isspace] in the C locale. *)
Definition isspace (b : byte) : bool :=
  let z := byte_to_Z b in (z =? 32) || ((9 <=? z) && (z <=? 13)).

(** Successive [std::getline]s: what a final newline ends is not followed by
    another line. *)
Fixpoint getlines (bs : list byte) : list (list byte) :=
  match bs with
  | [] => []
  | b :: bs' =>
      if bool_decide (b = newline) then [] :: getlines bs'
      else match getlines bs' with [] => [[b]] | l :: ls => (b :: l) :: ls end
  end.

(** [str.erase(std::remove_if(str.begin(), str.end(), p), str.end())]. *)
Definition erase_if (p : byte -> bool) (str : list byte) : list byte :=
  List.filter (fun b => negb (p b)) str.

Definition clean (str : list byte) : list byte :=
  erase_if isspace (erase_if (fun b => bool_decide (b = newline))
                      (erase_if (fun b => bool_decide (b = carriage_return)) str)).

(** [!str.empty() && str.length() < 9] *)
Definition keep (str : list byte) : bool :=
  negb (bool_decide (str = [])) && (length str <? 9)%nat.

(** A file that cannot be opened has no lines. *)
Definition read_symbols_file (file : option (list byte)) : list (list byte) :=
  List.filter keep (clean <$> getlines (default [] file)).
End SymbolsFile.
Import SymbolsFile.

(** * C strings *)

(** The characters of [str.c_str()] before its terminator. *)
Fixpoint c_str (str : list byte) : list byte :=
  match str with
  | [] => []
  | b :: str' => if bool_decide (b = x00) then [] else b :: c_str str'
  end.

(** [std::strncpy(dst, src, n)]: at most [n] characters, zeros up to [n]. *)
Definition strncpy (n : nat) (src : list byte) : list byte := resize n x00 (c_str src).

(** [std::strncpy(m.symbol, symbol.c_str(), sizeof(m.symbol) - 1)] into the zeroed
    [char symbol[8]]. *)
Definition symbol_field (symbol : list byte) : list byte :=
  memcpy (replicate 8 x00) 0 (strncpy 7 symbol).
#[global] Arguments symbol_field : simpl never.

(** * The generator *)

Module RandomWalkGenerator.
Section Generator.
Context {G : Type} `{RandomSource G}.

Record t := Make {
  base : BaseGenerator.t;
  symbols_ : list (list byte);
  rng_ : G;
  current_prices_ : list double;
}.

Definition init (g : G) : t := Make BaseGenerator.init [] g [].

(** [configure]: what it has assigned before an exception stays assigned. *)
Definition configure (messages_per_second : Z) (symbols_file : option (list byte)) (g : t) : t * option exn :=
  match BaseGenerator.set_rate messages_per_second (base g) with
  | (b, Some e) => (Make b (symbols_ g) (rng_ g) (current_prices_ g), Some e)
  | (b, None) =>
      let symbols := read_symbols_file symbols_file in
      if bool_decide (symbols = [])
      then (Make b symbols (rng_ g) (current_prices_ g), Some LogicError)
      else (Make b symbols (rng_ g) (resize (length symbols) d100 (current_prices_ g)), None)
  end.

Definition start (g : t) : t * option exn :=
  let '(b, e) := BaseGenerator.start (base g) in
  (Make b (symbols_ g) (rng_ g) (current_prices_ g), e).

(** The implicit destructor: [symbols_], [rng_] and [current_prices_] are destroyed
    before the base class's destructor runs. *)
Definition destroy (g : t) : Sys () :=
  _ ← quiet_call DestroyMembers; BaseGenerator.destroy (base g).

(** [current_prices_[idx] += price_step(rng_)]; an index out of range is
    undefined. *)
Definition step_price (stddev : double) (idx : nat) (g : t) : option (double * t) :=
  let '(step, r) := normal_double d0 stddev (rng_ g) in
  p ← current_prices_ g !! idx;
  let price := dadd p step in
  Some (price, Make (base g) (symbols_ g) r (<[idx := price]> (current_prices_ g))).

Definition draw (a b : Z) (g : t) : Z * t :=
  let '(v, r) := uniform_int a b (rng_ g) in (v, Make (base g) (symbols_ g) r (current_prices_ g)).

Definition generate_quote (clock : Z) (symbol : list byte) (idx : nat) (g : t) : option (Quote.t * t) :=
  '(price, g1) ← step_price d0_1 idx g;
  let bid_ask_spread := dmul price d0_001 in
  let half := ddiv bid_ask_spread d2 in
  let '(bid_size, g2) := draw 50 500 g1 in
  let '(ask_size, g3) := draw 50 500 g2 in
  Some (Quote.Make (symbol_field symbol) (to_bits (dsub price half)) (to_bits (dadd price half))
          bid_size ask_size (u64 clock) 0, g3).

Definition generate_trade (clock : Z) (symbol : list byte) (idx : nat) (g : t) : option (Trade.t * t) :=
  '(price, g1) ← step_price d0_05 idx g;
  let '(size, g2) := draw 10 100 g1 in
  Some (Trade.Make (symbol_field symbol) (to_bits price) size (u64 clock) 0, g2).

(** [symbol_distr(0, symbols_.size() - 1)] is computed in [size_t]. *)
Definition generate_msg_impl (clock : Z) (g : t) : option (MarketDataMsg * t) :=
  let '(idx, g1) := draw 0 (u64 (Z.of_nat (length (symbols_ g)) - 1)) g in
  symbol ← symbols_ g1 !! Z.to_nat idx;
  let '(type, g2) := draw 0 1 g1 in
  if negb (type =? 0) then '(q, g3) ← generate_quote clock symbol (Z.to_nat idx) g2; Some (QuoteMsg q, g3)
  else '(x, g3) ← generate_trade clock symbol (Z.to_nat idx) g2; Some (TradeMsg x, g3).

(** The messages of [n] calls. *)
Fixpoint generate_many (n : nat) (clock : Z) (g : t) : option (list MarketDataMsg * t) :=
  match n with
  | O => Some ([], g)
  | S n' =>
      '(m, g1) ← generate_msg_impl clock g;
      '(ms, g2) ← generate_many n' clock g1;
      Some (m :: ms, g2)
  end.
End Generator.
#[global] Arguments t G : clear implicits.
End RandomWalkGenerator.
Import RandomWalkGenerator.

(** * Proofs: the symbols file *)

Lemma erase_if_spec p str b : In b (erase_if p str) <-> In b str /\ p b = false.
Proof. unfold erase_if. by rewrite filter_In, negb_true_iff. Qed.

Lemma erase_if_app p str str' : erase_if p (str ++ str') = erase_if p str ++ erase_if p str'.
Proof. apply List.filter_app. Qed.

Lemma clean_app str str' : clean (str ++ str') = clean str ++ clean str'.
Proof. unfold clean. by rewrite !erase_if_app. Qed.

Lemma clean_no_space str b : In b (clean str) -> isspace b = false.
Proof. unfold clean. by intros [_ ?]%erase_if_spec. Qed.

(** A symbol as the reader keeps it. *)
Definition symbol_ok (s : list byte) : Prop :=
  (1 <= length s <= 8)%nat /\ Forall (fun b => isspace b = false) s.

Lemma read_symbols_ok file : Forall symbol_ok (read_symbols_file file).
Proof.
  apply List.Forall_forall. intros s [Hin Hk]%filter_In. unfold keep in Hk.
  apply andb_true_iff in Hk as [Hne Hlt]. apply negb_true_iff, bool_decide_eq_false in Hne.
  apply Nat.ltb_lt in Hlt. split.
  - destruct s; [done|]. simpl in *. lia.
  - apply List.Forall_forall. intros b Hb.
    apply list_elem_of_In, list_elem_of_fmap in Hin as (str & -> & _). by eapply clean_no_space.
Qed.

(** The same file with Windows line ends. *)
Definition to_crlf (bs : list byte) : list byte :=
  mjoin ((fun b => if bool_decide (b = newline) then [carriage_return; newline] else [b]) <$> bs).

Lemma getlines_crlf bs : clean <$> getlines (to_crlf bs) = clean <$> getlines bs.
Proof.
  unfold to_crlf. induction bs as [|b bs IH]; [done|].
  rewrite fmap_cons. simpl mjoin. simpl getlines at 2. case_bool_decide as Hb.
  - subst b. simpl. f_equal. apply IH.
  - simpl. rewrite bool_decide_eq_false_2 by done.
    destruct (getlines bs) as [|l ls] eqn:E1;
      destruct (getlines (mjoin _)) as [|l' ls'] eqn:E2; simpl in *; try discriminate IH; [done|].
    injection IH as Hl Hls. f_equal; [|done].
    change (b :: l') with ([b] ++ l'). change (b :: l) with ([b] ++ l). by rewrite !clean_app, Hl.
Qed.

Lemma erase_if_id p str : Forall (fun b => p b = false) str -> erase_if p str = str.
Proof. induction 1 as [|b str Hb _ IH]; simpl; [done|]. rewrite Hb. simpl. by rewrite IH. Qed.

Lemma isspace_false_not b c : isspace b = false -> isspace c = true -> bool_decide (b = c) = false.
Proof. intros Hb Hc. apply bool_decide_eq_false. congruence. Qed.

Lemma clean_id str : Forall (fun b => isspace b = false) str -> clean str = str.
Proof.
  intros H.
  assert (Hc : forall c, isspace c = true -> erase_if (fun b => bool_decide (b = c)) str = str).
  { intros c Hc. apply erase_if_id. eapply Forall_impl; [apply H|]. intros b Hb. by apply isspace_false_not. }
  unfold clean. rewrite (Hc carriage_return), (Hc newline) by done. by apply erase_if_id.
Qed.

Lemma getlines_line s rest :
  Forall (fun b => b <> newline) s -> getlines (s ++ newline :: rest) = s :: getlines rest.
Proof.
  induction 1 as [|b s Hb _ IH]; simpl; [done|]. rewrite bool_decide_eq_false_2 by done. by rewrite IH.
Qed.

Lemma symbol_ok_keep s : symbol_ok s -> keep s = true.
Proof.
  intros [Hlen _]. unfold keep. apply andb_true_iff. split; [|apply Nat.ltb_lt; lia].
  apply negb_true_iff, bool_decide_eq_false. intros ->. simpl in Hlen. lia.
Qed.

(** A file with one symbol per line. *)
Definition symbols_text (eol : list byte) (symbols : list (list byte)) : list byte :=
  mjoin ((fun s => s ++ eol) <$> symbols).

Lemma read_symbols_text pre symbols :
  Forall (fun b => b <> newline /\ isspace b = true) pre -> Forall symbol_ok symbols ->
  read_symbols_file (Some (symbols_text (pre ++ [newline]) symbols)) = symbols.
Proof.
  intros Hpre. unfold read_symbols_file, symbols_text. simpl.
  induction 1 as [|s symbols Hs _ IH]; simpl; [done|].
  assert (Hline : Forall (fun b => b <> newline) (s ++ pre)).
  { apply Forall_app. split; [|eapply Forall_impl; [apply Hpre|]; by intros ? []].
    eapply Forall_impl; [apply Hs|]. intros b Hb ->. done. }
  rewrite (app_assoc s), <- (app_assoc (s ++ pre)). simpl. rewrite getlines_line by done. simpl.
  rewrite clean_app, (clean_id s) by apply Hs.
  assert (clean pre = []) as ->.
  { destruct (clean pre) as [|b l] eqn:E; [done|]. exfalso.
    assert (Hb : In b (clean pre)) by (rewrite E; by left).
    pose proof (clean_no_space _ _ Hb) as Hsp. unfold clean in Hb.
    apply erase_if_spec in Hb as [[[Hb _]%erase_if_spec _]%erase_if_spec _].
    rewrite List.Forall_forall in Hpre. apply Hpre in Hb as [_ Hb]. congruence. }
  rewrite app_nil_r, symbol_ok_keep by done. f_equal. exact IH.
Qed.

(** * Proofs: the symbol field *)

Lemma length_symbol_field s : length (symbol_field s) = 8%nat.
Proof. unfold symbol_field, strncpy. rewrite length_memcpy; rewrite ?length_resize, ?length_replicate; lia. Qed.

Lemma c_str_id s : Forall (fun b => b <> x00) s -> c_str s = s.
Proof. induction 1 as [|b s Hb _ IH]; simpl; [done|]. by rewrite bool_decide_eq_false_2, IH. Qed.

(** At most seven characters reach the field; the eighth byte is always zero. *)
Lemma symbol_field_eq s : symbol_field s = resize 7 x00 (c_str s) ++ [x00].
Proof.
  unfold symbol_field, memcpy, strncpy. rewrite take_0, length_resize. done.
Qed.

(** * Proofs: messages *)

Definition sizes_ok (m : MarketDataMsg) : Prop :=
  match m with
  | QuoteMsg q => 50 <= Quote.bid_size q <= 500 /\ 50 <= Quote.ask_size q <= 500
  | TradeMsg x => 10 <= Trade.size x <= 100
  end.

(** What the generator promises of a message. *)
Definition msg_of (symbols : list (list byte)) (m : MarketDataMsg) : Prop :=
  msg_wf m /\ sizes_ok m /\ exists s, s ∈ symbols /\ msg_symbol m = symbol_field s.

Section Messages.
Context {G : Type} `{RandomSourceLaws G}.
Implicit Types (g : t G) (symbols : list (list byte)).

Record gen_inv symbols g : Prop := {
  gi_symbols : symbols_ g = symbols;
  gi_nonempty : symbols <> [];
  gi_bound : Z.of_nat (length symbols) <= 2 ^ 64;
  gi_prices : length (current_prices_ g) = length symbols;
}.

(** [g'] follows [g] by drawing numbers and moving the price at [idx] to [p]. *)
Record moved (idx : nat) (p : double) g g' : Prop := {
  mv_base : base g' = base g;
  mv_symbols : symbols_ g' = symbols_ g;
  mv_prices : current_prices_ g' = <[idx := p]> (current_prices_ g);
}.

Lemma draw_spec a b g : a <= b ->
  exists v r, draw a b g = (v, Make (base g) (symbols_ g) r (current_prices_ g)) /\ a <= v <= b.
Proof using All.
  intros Hab. unfold draw. pose proof (uniform_int_range a b (rng_ g) Hab) as Hr.
  destruct (uniform_int a b (rng_ g)) as [v r]. by exists v, r.
Qed.

Lemma step_price_spec stddev idx g : (idx < length (current_prices_ g))%nat ->
  exists p step g', step_price stddev idx g = Some (dadd p step, g') /\
    current_prices_ g !! idx = Some p /\ moved idx (dadd p step) g g'.
Proof using Type.
  intros Hidx. unfold step_price. destruct (normal_double _ _ _) as [step r].
  destruct (lookup_lt_is_Some_2 (current_prices_ g) idx Hidx) as [p Hp]. rewrite Hp. simpl.
  exists p, step. by eexists.
Qed.

Lemma msg_of_intro symbols s m :
  s ∈ symbols -> msg_symbol m = symbol_field s -> sizes_ok m -> msg_wf m -> msg_of symbols m.
Proof using Type. intros. split_and!; eauto. Qed.

Lemma generate_quote_spec clock s idx g : (idx < length (current_prices_ g))%nat ->
  exists q p g', generate_quote clock s idx g = Some (q, g') /\ moved idx p g g' /\
    sizes_ok (QuoteMsg q) /\ Quote.wf q /\ Quote.symbol q = symbol_field s.
Proof using All.
  intros Hidx. unfold generate_quote.
  destruct (step_price_spec d0_1 idx g Hidx) as (p & step & g1 & -> & _ & Hm). simpl.
  destruct (draw_spec 50 500 g1) as (bs & r1 & -> & Hbs); [lia|].
  destruct (draw_spec 50 500 (Make (base g1) (symbols_ g1) r1 (current_prices_ g1)))
    as (aks & r2 & -> & Has); [lia|]. simpl.
  do 3 eexists. split; [done|]. split_and!; simpl; try (done || lia).
  - destruct Hm. split; done.
  - unfold Quote.wf, is_u64, is_u32; simpl. rewrite length_symbol_field.
    split_and!; (done || apply to_bits_range || apply u64_range || lia).
Qed.

Lemma generate_trade_spec clock s idx g : (idx < length (current_prices_ g))%nat ->
  exists x p g', generate_trade clock s idx g = Some (x, g') /\ moved idx p g g' /\
    sizes_ok (TradeMsg x) /\ Trade.wf x /\ Trade.symbol x = symbol_field s.
Proof using All.
  intros Hidx. unfold generate_trade.
  destruct (step_price_spec d0_05 idx g Hidx) as (p & step & g1 & -> & _ & Hm). simpl.
  destruct (draw_spec 10 100 g1) as (sz & r1 & -> & Hsz); [lia|]. simpl.
  do 3 eexists. split; [done|]. split_and!; simpl; try (done || lia).
  - destruct Hm. split; done.
  - unfold Trade.wf, is_u64, is_u32; simpl. rewrite length_symbol_field.
    split_and!; (done || apply to_bits_range || apply u64_range || lia).
Qed.

Lemma moved_inv symbols idx p g g' : gen_inv symbols g -> moved idx p g g' -> gen_inv symbols g'.
Proof using Type. intros [] []. split; try congruence. rewrite mv_prices0, length_insert. done. Qed.

Lemma generate_msg_spec clock symbols g : gen_inv symbols g ->
  exists m g' idx p, generate_msg_impl clock g = Some (m, g') /\ (idx < length symbols)%nat /\
    moved idx p g g' /\ gen_inv symbols g' /\ msg_of symbols m.
Proof using All.
  intros Hg. pose proof Hg as [Hs Hne Hb Hp]. unfold generate_msg_impl. rewrite Hs.
  assert (0 < length symbols)%nat by (destruct symbols; [done|simpl; lia]).
  rewrite u64_small by lia.
  destruct (draw_spec 0 (Z.of_nat (length symbols) - 1) g) as (i & r & -> & Hi); [lia|]. simpl.
  destruct (lookup_lt_is_Some_2 (symbols_ g) (Z.to_nat i)) as [s Hsi]; [rewrite Hs; lia|].
  rewrite Hsi. simpl. apply list_elem_of_lookup_2 in Hsi. rewrite Hs in Hsi.
  set (g1 := Make (base g) (symbols_ g) r (current_prices_ g)).
  destruct (draw_spec 0 1 g1) as (ty & r2 & -> & Hty); [lia|].
  set (g2 := Make (base g1) (symbols_ g1) r2 (current_prices_ g1)).
  assert (Hidx : (Z.to_nat i < length (current_prices_ g2))%nat) by (simpl; lia).
  destruct (negb (ty =? 0)).
  - destruct (generate_quote_spec clock s _ g2 Hidx) as (q & p & g' & -> & Hm & Hsz & Hwf & Hsym). simpl.
    assert (Hm' : moved (Z.to_nat i) p g g') by (destruct Hm; by split).
    exists (QuoteMsg q), g', (Z.to_nat i), p. split_and!; try done; [lia|by eapply moved_inv|].
    by eapply msg_of_intro.
  - destruct (generate_trade_spec clock s _ g2 Hidx) as (x & p & g' & -> & Hm & Hsz & Hwf & Hsym). simpl.
    assert (Hm' : moved (Z.to_nat i) p g g') by (destruct Hm; by split).
    exists (TradeMsg x), g', (Z.to_nat i), p. split_and!; try done; [lia|by eapply moved_inv|].
    by eapply msg_of_intro.
Qed.
End Messages.

Lemma msg_of_stamp symbols c m : msg_of symbols m -> msg_of symbols (BaseGenerator.stamp_enqueue c m).
Proof.
  intros (Hwf & Hsz & Hsym). split_and!; [|by destruct m..].
  destruct m; simpl in *; [destruct Hwf as (? & ? & ? & ? & ? & _ & ?)|destruct Hwf as (? & ? & ? & _ & ?)];
    unfold Quote.wf, Trade.wf; simpl; split_and!; (done || apply u64_range).
Qed.

(** The derived class meets what the base class's loop relies on. *)
Lemma random_walk_ok {G} `{RandomSourceLaws G} symbols :
  generator_ok (generate_msg_impl (G:=G)) (gen_inv symbols) (msg_of symbols).
Proof.
  split; [|intros; by apply msg_of_stamp]. intros c g Hg.
  destruct (generate_msg_spec c symbols g Hg) as (m & g' & idx & p & -> & _ & _ & Hg' & Hm). eauto.
Qed.

(** * Proofs: prices *)

Section Prices.
Context {G : Type} `{RandomSourceLaws G}.
Implicit Types (g : t G).

Definition prices_valid g : Prop := Forall valid (current_prices_ g).

Lemma step_price_valid stddev idx g p g' : prices_valid g -> step_price stddev idx g = Some (p, g') ->
  valid p /\ current_prices_ g' !! idx = Some p /\ prices_valid g'.
Proof using All.
  unfold prices_valid, step_price. intros Hv. pose proof (normal_double_valid d0 stddev (rng_ g)) as Hstep.
  destruct (normal_double _ _ _) as [step r]. intros Hs. step_cases. simpl in *.
  assert (valid (dadd x step)) by (apply dadd_valid; [by eapply Forall_lookup_1|done]).
  split_and!; [done|by apply list_lookup_insert_eq; eapply lookup_lt_Some|by apply Forall_insert].
Qed.

Lemma draw_prices a b g v g' : draw a b g = (v, g') -> current_prices_ g' = current_prices_ g.
Proof using Type. unfold draw. destruct (uniform_int _ _ _). by intros [= _ <-]. Qed.

(** The price a quote is made from, and the two prices in it. *)
Lemma generate_quote_prices clock s idx g q g' : prices_valid g ->
  generate_quote clock s idx g = Some (q, g') ->
  exists p, current_prices_ g' !! idx = Some p /\ valid p /\ prices_valid g' /\
    Quote.bid_price q = to_bits (dsub p (half_spread p)) /\
    Quote.ask_price q = to_bits (dadd p (half_spread p)).
Proof using All.
  intros Hv. unfold generate_quote. destruct (step_price _ _ _) as [[p g1]|] eqn:Es; simpl; [|done].
  destruct (step_price_valid _ _ _ _ _ Hv Es) as (Hp & Hidx & Hv1).
  destruct (draw 50 500 g1) as [b g2] eqn:E2. destruct (draw 50 500 g2) as [a g3] eqn:E3.
  intros [= <- <-]. apply draw_prices in E2, E3. unfold prices_valid. rewrite E3, E2. by exists p.
Qed.

(** Every call keeps the prices in the format. *)
Lemma generate_msg_prices clock g m g' : prices_valid g -> generate_msg_impl clock g = Some (m, g') ->
  prices_valid g' /\
  forall q, m = QuoteMsg q -> exists idx p, current_prices_ g' !! idx = Some p /\ valid p /\
    Quote.bid_price q = to_bits (dsub p (half_spread p)) /\
    Quote.ask_price q = to_bits (dadd p (half_spread p)).
Proof using All.
  intros Hv. unfold generate_msg_impl. destruct (draw _ _ g) as [i g1] eqn:E1.
  destruct (symbols_ g1 !! _) as [symbol|]; simpl; [|done]. destruct (draw 0 1 g1) as [ty g2] eqn:E2.
  apply draw_prices in E1, E2. assert (Hv2 : prices_valid g2) by (unfold prices_valid; by rewrite E2, E1).
  destruct (negb (ty =? 0)).
  - destruct (generate_quote _ _ _ _) as [[q g3]|] eqn:E3; simpl; [|done]. intros [= <- <-].
    destruct (generate_quote_prices _ _ _ _ _ _ Hv2 E3) as (p & Hp & Hvp & Hv3 & Hb & Ha).
    split; [done|]. intros q' [= <-]. by exists (Z.to_nat i), p.
  - unfold generate_trade. destruct (step_price _ _ g2) as [[p g3]|] eqn:E3; simpl; [|done].
    destruct (step_price_valid _ _ _ _ _ Hv2 E3) as (_ & _ & Hv3).
    destruct (draw 10 100 g3) as [sz g4] eqn:E4. intros [= <- <-]. apply draw_prices in E4.
    split; [unfold prices_valid; by rewrite E4|done].
Qed.
End Prices.

(** * Proofs: configuration *)

Lemma length_getlines bs : (length (getlines bs) <= length bs)%nat.
Proof.
  induction bs as [|b bs IH]; simpl; [lia|]. case_bool_decide; simpl; [lia|].
  destruct (getlines bs); simpl in *; lia.
Qed.

Lemma length_read_symbols file : (length (read_symbols_file file) <= length (default [] file))%nat.
Proof.
  unfold read_symbols_file. etrans; [apply List.filter_length_le|].
  rewrite length_fmap. apply length_getlines.
Qed.

Lemma resize_lookup {A} (n i : nat) (x : A) l : (i < n)%nat -> resize n x l !! i = Some (default x (l !! i)).
Proof.
  intros Hi. destruct (l !! i) as [y|] eqn:E; simpl.
  - rewrite lookup_resize; [done|done|by eapply lookup_lt_Some].
  - apply lookup_resize_new; [by apply lookup_ge_None_1|done].
Qed.

(** The base of a generator that has a rate. *)
Definition rated (rate : Z) (b : BaseGenerator.t) : BaseGenerator.t :=
  BaseGenerator.Make rate (u32 (1000000000 / rate)) (BaseGenerator.generating_thread_ b).

Lemma configure_cases {G} `{RandomSource G} (rate : Z) (file : option (list byte)) (g : t G) : 0 <= rate ->
  let symbols := read_symbols_file file in
  rate = 0 /\ configure rate file g = (g, Some InvalidArgument) \/
  0 < rate /\ symbols = [] /\
    configure rate file g =
      (Make (rated rate (base g)) [] (rng_ g) (current_prices_ g), Some LogicError) \/
  0 < rate /\ symbols <> [] /\
    configure rate file g =
      (Make (rated rate (base g)) symbols (rng_ g)
            (resize (length symbols) d100 (current_prices_ g)), None).
Proof.
  intros Hrate symbols. unfold configure, BaseGenerator.set_rate.
  destruct (Z.ltb_spec rate 1); [left; split; [lia|by destruct g]|].
  case_bool_decide as Hsym; fold symbols in Hsym; right; [left|right]; (split; [lia|]); [|done].
  split; [done|]. fold symbols. by rewrite Hsym.
Qed.

Lemma start_rated {G} rate b symbols r prices : 0 < rate ->
  start (Make (rated rate b) symbols r prices : t G) =
  (Make (BaseGenerator.Make rate (u32 (1000000000 / rate)) (Thread.start (BaseGenerator.generating_thread_ b)))
        symbols r prices, None).
Proof.
  intros Hrate. unfold start, BaseGenerator.start. simpl. by rewrite (proj2 (Z.eqb_neq _ _)) by lia.
Qed.

(** Making a message leaves the rate alone. *)
Lemma generate_keeps_base {G} `{RandomSource G} clock (g g' : t G) m :
  generate_msg_impl clock g = Some (m, g') -> base g' = base g.
Proof.
  unfold generate_msg_impl, generate_quote, generate_trade, step_price, draw. intros Hg. by step_cases.
Qed.

(** What [configure] leaves when it does not throw. *)
Lemma configured_inv {G} `{RandomSource G} (rate : Z) (file : option (list byte)) (g g' : t G) :
  0 <= rate -> Z.of_nat (length (default [] file)) <= 2 ^ 64 ->
  configure rate file g = (g', None) -> 0 < rate /\ gen_inv (read_symbols_file file) g'.
Proof.
  intros Hr Hfile Hc. pose proof (length_read_symbols file) as Hlen.
  destruct (configure_cases rate file g Hr) as [[_ E]|[(_ & _ & E)|(Hp & Hs & E)]]; rewrite E in Hc; [done..|].
  injection Hc as <-. split; [done|]. split; simpl; [done|done|lia|apply length_resize].
Qed.

(** * Recorded random numbers *)

(** A source that plays back recorded draws, brought into the range asked for; a
    recorded [double] that is not one of the format counts as zero. *)
Record Tape := MkTape { tape_ints : list Z; tape_doubles : list double }.

#[export] Instance Tape_source : RandomSource Tape := {|
  uniform_int := fun a b g =>
    (a + default 0 (head (tape_ints g)) mod (b - a + 1), MkTape (tail (tape_ints g)) (tape_doubles g));
  normal_double := fun _ _ g =>
    let d := default d0 (head (tape_doubles g)) in
    (if valid_binary prec emax d then d else d0, MkTape (tape_ints g) (tail (tape_doubles g)));
|}.

#[export] Instance Tape_laws : RandomSourceLaws Tape.
Proof.
  split.
  - intros a b g Hab. simpl.
    pose proof (Z.mod_pos_bound (default 0 (head (tape_ints g))) (b - a + 1)). lia.
  - intros mean stddev g. simpl. unfold valid. by case_match.
Qed.

Definition sym_V : list byte := [x56].
Definition sym_AMZN : list byte := [x41; x4d; x5a; x4e].
Definition sym_SPRSTOCK : list byte := [x53; x50; x52; x53; x54; x4f; x43; x4b].

(** A file whose lines end with a carriage return, one of them blank and one
    longer than a symbol. *)
Definition demo_file : list byte :=
  symbols_text [carriage_return; newline] [sym_V; []; x20 :: sym_AMZN; sym_SPRSTOCK ++ sym_V; sym_SPRSTOCK].

Example demo_file_symbols : read_symbols_file (Some demo_file) = [sym_V; sym_AMZN; sym_SPRSTOCK].
Proof. vm_compute. reflexivity. Qed.

(** * Properties *)

(** Whatever the file holds, the symbols read from it have one to eight
    characters and no white space, and they do not depend on whether its lines end
    with a line feed or with a carriage return and a line feed. *)
Theorem read_symbols_normalised (file : list byte) :
  Forall symbol_ok (read_symbols_file (Some file)) /\
  read_symbols_file (Some (to_crlf file)) = read_symbols_file (Some file).
Proof.
  split; [apply read_symbols_ok|]. unfold read_symbols_file. simpl. by rewrite getlines_crlf.
Qed.

(** C37: round trip. A text with one symbol per line, ended by a line feed that any
    white space may precede, is read back as those symbols in that order. *)
Theorem read_symbols_roundtrip (spaces : list byte) (symbols : list (list byte)) :
  Forall (fun b => b <> newline /\ isspace b = true) spaces -> Forall symbol_ok symbols ->
  read_symbols_file (Some (symbols_text (spaces ++ [newline]) symbols)) = symbols.
Proof. apply read_symbols_text. Qed.

Lemma read_symbols_roundtrip_witness :
  read_symbols_file (Some (symbols_text ([x20; carriage_return] ++ [newline]) [sym_V; sym_SPRSTOCK])) =
  [sym_V; sym_SPRSTOCK].
Proof.
  apply (read_symbols_roundtrip [x20; carriage_return] [sym_V; sym_SPRSTOCK]).
  - repeat constructor; done.
  - repeat constructor; simpl; (done || lia).
Defined.

(** C36: [configure] on every path. It succeeds exactly for a positive rate and a
    file with a symbol: the generator then has its invariant, [start] does not
    throw, and every symbol keeps the price its index had, or starts at 100. A
    rate of zero throws and changes nothing. A file without symbols throws as well,
    and is not undone: the rate is set, so [start] accepts the generator, and the
    first message it generates indexes an empty vector. *)
Theorem configure_spec {G : Type} `{RandomSourceLaws G} (rate : Z) (file : option (list byte)) (g : t G) :
  is_u32 rate -> Z.of_nat (length (default [] file)) <= 2 ^ 64 ->
  let symbols := read_symbols_file file in
  match configure rate file g with
  | (g', None) =>
      0 < rate /\ gen_inv symbols g' /\ (start g').2 = None /\
      forall i, (i < length symbols)%nat ->
        current_prices_ g' !! i = Some (default d100 (current_prices_ g !! i))
  | (g', Some InvalidArgument) => rate = 0 /\ g' = g
  | (g', Some LogicError) => 0 < rate /\ symbols = [] /\ symbols_ g' = [] /\
      current_prices_ g' = current_prices_ g /\
      (start g').2 = None /\ forall clock, generate_msg_impl clock (start g').1 = None
  | (_, Some _) => False
  end.
Proof.
  intros [Hlo Hhi] Hfile symbols.
  destruct (configure_cases rate file g Hlo) as [[-> ->]|[(Hr & Hs & ->)|(Hr & Hs & E)]]; [done| |].
  { rewrite start_rated by done. split_and!; try done. intros clock.
    unfold generate_msg_impl, draw. simpl. by destruct (uniform_int _ _ _). }
  pose proof (configured_inv rate file g _ Hlo Hfile E) as [_ Hinv]. rewrite E.
  rewrite start_rated by done. split_and!; [done|exact Hinv|done|].
  intros i Hi. by apply resize_lookup.
Qed.

Definition demo_generator : t Tape := init (MkTape [] []).

Lemma configure_spec_witness :
  match configure 10000 (Some demo_file) demo_generator with
  | (g', None) =>
      0 < 10000 /\ gen_inv (read_symbols_file (Some demo_file)) g' /\ (start g').2 = None /\
      forall i, (i < length (read_symbols_file (Some demo_file)))%nat ->
        current_prices_ g' !! i = Some (default d100 (current_prices_ demo_generator !! i))
  | (g', Some InvalidArgument) => 10000 = 0 /\ g' = demo_generator
  | (g', Some LogicError) => 0 < 10000 /\ read_symbols_file (Some demo_file) = [] /\ symbols_ g' = [] /\
      current_prices_ g' = current_prices_ demo_generator /\
      (start g').2 = None /\ forall clock, generate_msg_impl clock (start g').1 = None
  | (_, Some _) => False
  end.
Proof.
  apply (configure_spec 10000 (Some demo_file) demo_generator).
  - split; lia.
  - vm_compute. discriminate.
Defined.

(** C22: a configured generator always produces a message: no call reads outside
    its vectors; the message is well formed, its sizes are in the ranges of the
    distributions and its symbol field is that of a configured symbol; and the call
    moves the price of one symbol and nothing else. *)
Theorem generate_msg_valid {G : Type} `{RandomSourceLaws G} (clock : Z) (symbols : list (list byte)) (g : t G) :
  gen_inv symbols g ->
  exists m g' idx p, generate_msg_impl clock g = Some (m, g') /\ gen_inv symbols g' /\
    msg_of symbols m /\ (idx < length symbols)%nat /\
    current_prices_ g' = <[idx := p]> (current_prices_ g) /\ base g' = base g.
Proof.
  intros Hg. destruct (generate_msg_spec clock symbols g Hg) as (m & g' & idx & p & Hgen & Hidx & [] & Hinv & Hm).
  exists m, g', idx, p. by split_and!.
Qed.

Definition demo_configured : t Tape :=
  Make (BaseGenerator.Make 10000 100000 Thread.NotJoinable) [sym_V; sym_SPRSTOCK]
       (MkTape [1; 1; 77; 300] [d0_1]) [d100; d100].

Lemma generate_msg_valid_witness :
  exists m g' idx p, generate_msg_impl 42 demo_configured = Some (m, g') /\
    gen_inv [sym_V; sym_SPRSTOCK] g' /\ msg_of [sym_V; sym_SPRSTOCK] m /\ (idx < 2)%nat /\
    current_prices_ g' = <[idx := p]> [d100; d100] /\ base g' = base demo_configured.
Proof.
  apply (generate_msg_valid 42 [sym_V; sym_SPRSTOCK] demo_configured).
  split; simpl; (done || lia).
Defined.

(** Whether a quote encloses [price]: its bid is on the side of [s]'s opposite, its
    ask on the side of [s]; strictly or not. *)
Definition enclosed (le : bool -> double -> double -> bool) (s : bool) (q : Quote.t) (price : double) : Prop :=
  le s (of_bits (Quote.bid_price q)) price = true /\ le s price (of_bits (Quote.ask_price q)) = true.

(** C21: the prices a quote carries, with every operation rounded to binary64,
    whatever the steps of the walk. All prices stay valid [double]s; a quote made at
    a finite price that is not negative has its bid at most the price and its ask at
    least the price, strictly when the price is at least 2^-1010; at a price that is
    not positive the order is reversed, strictly from -2^-1010 down. *)
Theorem quote_encloses_price {G : Type} `{RandomSourceLaws G} (clock : Z) (g g' : t G) (m : MarketDataMsg) :
  prices_valid g -> generate_msg_impl clock g = Some (m, g') ->
  prices_valid g' /\
  forall q, m = QuoteMsg q -> exists idx p, current_prices_ g' !! idx = Some p /\ valid p /\
    (is_finite p = true -> dleb d0 p = true -> enclosed dle_sign false q p) /\
    (is_finite p = true -> dleb p d0 = true -> enclosed dle_sign true q p) /\
    (is_finite p = true -> dleb d_tiny p = true -> enclosed dlt_sign false q p) /\
    (is_finite p = true -> dleb p (SFopp d_tiny) = true -> enclosed dlt_sign true q p).
Proof.
  intros Hv Hgen. destruct (generate_msg_prices clock g m g' Hv Hgen) as [Hv' Hq]. split; [done|].
  intros q Em. destruct (Hq q Em) as (idx & p & Hp & Hvp & Hb & Ha). exists idx, p.
  unfold enclosed. rewrite Hb, Ha. destruct (is_finite p) eqn:Hf; [|by split_and!].
  assert (Hvh : valid (half_spread p)).
  { by apply (half_spread_sign (sign_of p)), has_sign_of. }
  rewrite !of_to_bits by (by apply dsub_valid || by apply dadd_valid).
  split_and!; try done; intros _ Hle.
  - apply half_spread_encloses; [done..|by apply dleb_zero_sign].
  - apply half_spread_encloses; [done..|by apply zero_dleb_sign].
  - destruct (tiny_dleb p Hf Hle) as (mp & e & -> & He). by apply half_spread_encloses_strictly.
  - destruct (dleb_tiny p Hf Hle) as (mp & e & -> & He). by apply half_spread_encloses_strictly.
Qed.

Definition demo_quote : MarketDataMsg * t Tape :=
  default (TradeMsg (Trade.Make [] 0 0 0 0), demo_configured) (generate_msg_impl 42 demo_configured).

Lemma demo_quote_made : generate_msg_impl 42 demo_configured = Some (demo_quote.1, demo_quote.2).
Proof. vm_compute. reflexivity. Qed.

Example demo_quote_prices :
  match demo_quote.1 with
  | QuoteMsg q => enclosed dlt_sign false q (dadd d100 d0_1)
  | TradeMsg _ => False
  end.
Proof. vm_compute. split; reflexivity. Qed.

Lemma quote_encloses_price_witness :
  prices_valid demo_quote.2 /\
  forall q, demo_quote.1 = QuoteMsg q -> exists idx p, current_prices_ demo_quote.2 !! idx = Some p /\ valid p /\
    (is_finite p = true -> dleb d0 p = true -> enclosed dle_sign false q p) /\
    (is_finite p = true -> dleb p d0 = true -> enclosed dle_sign true q p) /\
    (is_finite p = true -> dleb d_tiny p = true -> enclosed dlt_sign false q p) /\
    (is_finite p = true -> dleb p (SFopp d_tiny) = true -> enclosed dlt_sign true q p).
Proof.
  apply (quote_encloses_price 42 demo_configured demo_quote.2 demo_quote.1); [|exact demo_quote_made].
  repeat constructor.
Defined.

(** One symbol at 100, 1005 trades that each lose 0.1, then a quote. *)
Definition falling_tape : Tape :=
  MkTape (mjoin (replicate 1005 [0; 0; 0]) ++ [0; 1; 50; 50])
         (replicate 1006 (SFopp d0_1)).

Definition falling_generator : t Tape :=
  Make (BaseGenerator.Make 1000 1000000 Thread.NotJoinable) [sym_V] falling_tape [d100].

(** Nothing keeps the walk positive. After 1005 downward steps of 0.1 from 100
    the symbol trades below zero, and the spread, a fraction of a negative price,
    is negative: the next quote's bid is above its ask. *)
Theorem price_walk_goes_negative :
  match generate_many 1006 0 falling_generator with
  | Some (ms, _) =>
      match ms !! 1004%nat, ms !! 1005%nat with
      | Some (TradeMsg x), Some (QuoteMsg q) =>
          dltb (of_bits (Trade.price x)) d0 = true /\
          dltb (of_bits (Quote.ask_price q)) (of_bits (Quote.bid_price q)) = true
      | _, _ => False
      end
  | None => False
  end.
Proof. vm_compute. split; reflexivity. Qed.
