(* ===== verification/Disseminator.v ===== *)
(** [src/disseminator/]: the loop of [IDisseminator], and the datagrams and the
    two-part messages [UdpDisseminator] and [ZmqDisseminator] send. *)

From S2P Require Import Prelude Types QueueConcepts SpinSpscQueue BlockingQueue Threads Calls.
From stdpp Require Import options.

(** * [IDisseminator] *)

Module IDisseminator.

(** The members [start] and [stop] act on: [worker_]. *)
Definition start (worker : Thread.t) : Thread.t := Thread.start worker.
Definition stop (worker : Thread.t) : Thread.t := Thread.stop worker.

(** The [std::visit] of [run_loop], up to the call of [send_impl]: the stamped
    message, [topic_buf], and the bytes of [payload], whose padding is [pad]. *)
Definition visit (clock : Z) (pad : list byte) (msg : MarketDataMsg) (topic_buf : list byte) :
    MarketDataMsg * list byte * list byte :=
  match msg with
  | QuoteMsg q =>
      let payload := Quote.with_disseminate_timestamp (u64 clock) q in
      (QuoteMsg payload, memcpy (memcpy topic_buf 0 [x51]) 2 (Quote.symbol payload),
       obj_bytes [] payload)
  | TradeMsg x =>
      let payload := Trade.with_disseminate_timestamp (u64 clock) x in
      (TradeMsg payload, memcpy (memcpy topic_buf 0 [x54]) 2 (Trade.symbol payload),
       obj_bytes pad payload)
  end.

(** [char topic_buf[10]; topic_buf[1] = ':';] on a stack that holds [stack]. *)
Definition topic_init (stack : list byte) : list byte := memcpy stack 1 [x3a].

Section Loop.
Context {W S Tr : Type} `{BlockingQueue W S MarketDataMsg}.
(** [static_cast<Derived*>(this)->send_impl(topic_buf, &payload, sizeof(T))]; the
    payload is its [sizeof(T)] bytes. [None] is undefined behaviour. *)
Context (send_impl : list byte -> list byte -> Tr -> option Tr).

Record world := World {
  queue_ : W;
  msg : MarketDataMsg;
  topic_buf : list byte;
  transport : Tr;
}.

(** One turn of the loop: what other threads do during [pop], the clock, the
    padding of the message. *)
Record turn := Turn { during_pop : S; clock : Z; pad : list byte }.

Inductive outcome := Exited (w : world) | Popping (w : world) | Running (w : world).

(** [while (queue_.pop(msg, stoken)) { ... }] *)
Fixpoint run_loop (turns : list turn) (w : world) : option outcome :=
  match turns with
  | [] => Some (Running w)
  | t :: turns' =>
      r ← bq_pop (during_pop t) (msg w) (queue_ w);
      match r with
      | PopReturned true m q =>
          let '(m', topic, payload) := visit (clock t) (pad t) m (topic_buf w) in
          tr ← send_impl topic payload (transport w);
          run_loop turns' (World q m' topic tr)
      | PopReturned false m q => Some (Exited (World q m (topic_buf w) (transport w)))
      | PopRunning q => Some (Popping (World q (msg w) (topic_buf w) (transport w)))
      end
  end.
End Loop.
#[global] Arguments world W Tr : clear implicits.
#[global] Arguments World {W Tr}.
#[global] Arguments turn S : clear implicits.
#[global] Arguments outcome W Tr : clear implicits.
End IDisseminator.
Import IDisseminator.

(** * [UdpDisseminator] *)

Module UdpDisseminator.

Record t := Make {
  worker_ : Thread.t;
  sock_ : Z;
  dest_addr_ : list byte * Z;       (* sin_port, sin_addr *)
  sent : list (list byte);          (* the datagrams given to [sendto] *)
}.

(** The constructor; [inet_pton] is the library's conversion, whose failure leaves
    the address zero. *)
Definition make (inet_pton : list byte -> option Z) (ip : list byte) (port : Z) : Sys t :=
  sock ← sys_call Socket;
  _ ← throw_if (sock <? 0) RuntimeError;
  _ ← sys_call (Setsockopt sock (SO_SNDBUF (1024 * 1024)));
  _ ← sys_call (Setsockopt sock (IP_MULTICAST_TTL 1));
  _ ← sys_call (Setsockopt sock IP_MULTICAST_LOOP);
  sys_ret (Make Thread.NotJoinable sock (htons port, default 0 (inet_pton ip)) []).

(** The destructor. *)
Definition destroy (d : t) : Sys () :=
  _ ← stop_thread (worker_ d);
  if 0 <=? sock_ d then quiet_call (Close (sock_ d)) else sys_ret tt.

Definition buffer_size : nat := topic_header_size + Nat.max (sizeof Quote.t) (sizeof Trade.t).

(** [send_impl]: a datagram of [buffer_size] bytes on a stack that holds [stack];
    only [topic_header_size + payload_size] bytes of it are sent. A copy past its
    end is undefined. The result of [sendto] is ignored. *)
Definition send_impl (stack : list byte) (topic_buf payload_data : list byte) (d : t) : option t :=
  if (buffer_size <? topic_header_size + length payload_data)%nat then None
  else
    let datagram := memcpy stack 0 (take topic_header_size topic_buf) in
    let datagram := memcpy datagram topic_header_size payload_data in
    Some (Make (worker_ d) (sock_ d) (dest_addr_ d)
               (sent d ++ [take (topic_header_size + length payload_data) datagram])).
End UdpDisseminator.

(** * [ZmqDisseminator] *)

Module ZmqDisseminator.

(** The socket, which is not null until it is closed, and what it has been given:
    the frames of each message. *)
Record t := Make {
  worker_ : Thread.t;
  handle : bool;                          (* pub_socket_.handle() != nullptr *)
  sending : list (list byte);             (* frames sent with [sndmore] so far *)
  published : list (list (list byte));
}.

(** The constructor. When its body throws, the members that exist are destroyed;
    the [catch] only logs. *)
Definition make (multicast_addr : list byte) : Sys t :=
  _ ← zmq_call (ZmqContext Publisher);
  on_throw (quiet_call (ZmqContextDtor Publisher)) (
    _ ← zmq_call (ZmqSocket Publisher);
    on_throw (quiet_call (ZmqSocketDtor Publisher)) (
      _ ← zmq_call (ZmqBind Publisher multicast_addr);
      _ ← zmq_call (ZmqSet Publisher (Linger 0));
      sys_ret (Make Thread.NotJoinable true [] []))).

(** The destructor: its body, then the members in reverse order. *)
Definition destroy (d : t) : Sys () := noexcept (
  _ ← stop_thread (worker_ d);
  _ ← (if handle d then quiet_call (ZmqClose Publisher) else sys_ret tt);
  _ ← quiet_call (ZmqSocketDtor Publisher);
  quiet_call (ZmqContextDtor Publisher)).

(** [pub_socket_.send(m, sndmore)] and [pub_socket_.send(m, none)]. *)
Definition send (more : bool) (frame : list byte) (d : t) : t :=
  if more then Make (worker_ d) (handle d) (sending d ++ [frame]) (published d)
  else Make (worker_ d) (handle d) [] (published d ++ [sending d ++ [frame]]).

Definition send_impl (topic_buf payload_data : list byte) (d : t) : option t :=
  let topic_msg := take 10 topic_buf in
  let payload_msg := memcpy (replicate (length payload_data) x00) 0 payload_data in
  Some (send false payload_msg (send true topic_msg d)).
End ZmqDisseminator.

(** * What is put on the wire *)

Definition type_char (m : MarketDataMsg) : byte := match m with QuoteMsg _ => x51 | TradeMsg _ => x54 end.

(** ["Q:SYMBOL  "] or ["T:SYMBOL  "]. *)
Definition header (m : MarketDataMsg) : list byte := type_char m :: x3a :: msg_symbol m.

Definition payload_bytes (pad : list byte) (m : MarketDataMsg) : list byte :=
  match m with QuoteMsg q => obj_bytes [] q | TradeMsg x => obj_bytes pad x end.

Definition stamp_disseminate (clock : Z) (m : MarketDataMsg) : MarketDataMsg :=
  match m with
  | QuoteMsg q => QuoteMsg (Quote.with_disseminate_timestamp (u64 clock) q)
  | TradeMsg x => TradeMsg (Trade.with_disseminate_timestamp (u64 clock) x)
  end.

(** The topic and the payload of an item that a turn of the loop takes. *)
Definition publication {S} (t : turn S) (m : MarketDataMsg) : list byte * list byte :=
  (header m, payload_bytes (pad t) (stamp_disseminate (clock t) m)).

(** What the loop relies on from the derived class: [send_impl] sends a topic of
    ten bytes with a payload that fits. *)
Record transport_laws {Tr} (send_impl : list byte -> list byte -> Tr -> option Tr)
    (ok : Tr -> Prop) (sent : Tr -> list (list byte * list byte)) : Prop := {
  send_appends topic payload tr :
    ok tr -> length topic = 10%nat -> (length payload <= 48)%nat ->
    exists tr', send_impl topic payload tr = Some tr' /\ ok tr' /\
                sent tr' = sent tr ++ [(topic, payload)];
}.

(** * Proofs *)

Lemma msg_wf_stamp c m : msg_wf m -> msg_wf (stamp_disseminate c m).
Proof.
  destruct m; simpl; intros H; [apply Quote_wf_with_disseminate|apply Trade_wf_with_disseminate];
    (done || apply u64_range).
Qed.

Lemma msg_symbol_stamp c m : msg_symbol (stamp_disseminate c m) = msg_symbol m.
Proof. by destruct m. Qed.

Lemma msg_wf_symbol m : msg_wf m -> length (msg_symbol m) = 8%nat.
Proof. by destruct m; intros []. Qed.

Lemma length_header m : msg_wf m -> length (header m) = 10%nat.
Proof. intros H. simpl. by rewrite msg_wf_symbol. Qed.

Lemma length_payload pad m : length pad = 4%nat -> msg_wf m ->
  length (payload_bytes pad m) = match m with QuoteMsg _ => 48%nat | TradeMsg _ => 40%nat end.
Proof.
  intros Hp Hm. destruct m; simpl in *; [by apply length_Quote_bytes|by apply length_Trade_bytes].
Qed.

(** [topic_buf] always has a colon at its second place. *)
Definition topic_ok (t : list byte) : Prop := length t = 10%nat /\ t !! 1%nat = Some x3a.

Lemma topic_init_ok stack : length stack = 10%nat -> topic_ok (topic_init stack).
Proof.
  intros H. unfold topic_ok, topic_init. split; [by rewrite length_memcpy; simpl; lia|].
  destruct stack as [|a [|b stack]]; simpl in *; (lia || done).
Qed.

Lemma header_written t c sym : topic_ok t -> length sym = 8%nat ->
  memcpy (memcpy t 0 [c]) 2 sym = c :: x3a :: sym.
Proof.
  intros [Hlen Hcolon] Hs. destruct t as [|a [|b t]]; simpl in *; [lia..|].
  injection Hcolon as ->. unfold memcpy. simpl. rewrite Hs. simpl.
  rewrite drop_ge by lia. by rewrite app_nil_r.
Qed.

Lemma visit_spec c pad m t : topic_ok t -> msg_wf m -> length pad = 4%nat ->
  visit c pad m t = (stamp_disseminate c m, header m, payload_bytes pad (stamp_disseminate c m)).
Proof.
  intros Ht Hm Hp. pose proof (msg_wf_symbol m Hm) as Hs.
  destruct m; simpl in *; by rewrite header_written.
Qed.

Lemma header_topic_ok m : msg_wf m -> topic_ok (header m).
Proof. intros H. split; [by apply length_header|done]. Qed.

Section Loop.
Context {W S Tr : Type} `{BlockingQueueLaws W S MarketDataMsg}.
Context (send_impl : list byte -> list byte -> Tr -> option Tr).
Context (ok : Tr -> Prop) (sent : Tr -> list (list byte * list byte)).
Context (Hlaws : transport_laws send_impl ok sent).

Definition outcome_world (o : outcome W Tr) : world W Tr :=
  match o with Exited w | Popping w | Running w => w end.

Definition turn_ok (t : turn S) : Prop :=
  length (pad t) = 4%nat /\ Forall msg_wf (bq_offers (during_pop t)).

Definition offers (turns : list (turn S)) : list MarketDataMsg :=
  mjoin ((fun t => bq_offers (during_pop t)) <$> turns).

(** What the loop has done: it sent [items], the oldest of what the queue held or
    received, each once and in order. *)
Definition loop_done (turns : list (turn S)) (l : list MarketDataMsg) (w : world W Tr) (o : outcome W Tr) : Prop :=
  exists acc items rest,
    acc `sublist_of` offers turns /\ l ++ acc = items ++ rest /\
    (length items <= length turns)%nat /\ Forall msg_wf items /\
    sent (transport (outcome_world o)) = sent (transport w) ++ zip_with publication turns items /\
    match o with
    | Exited w' => bq_repr (queue_ w') rest /\ bq_stopped (queue_ w') = true
    | Running w' => bq_repr (queue_ w') rest /\ length items = length turns
    | Popping _ => True
    end.

Lemma run_loop_done turns w l :
  bq_repr (queue_ w) l -> Forall msg_wf l -> Forall turn_ok turns ->
  topic_ok (topic_buf w) -> ok (transport w) ->
  exists o, run_loop send_impl turns w = Some o /\ loop_done turns l w o.
Proof using All.
  revert w l; induction turns as [|t turns IH]; intros w l Hw Hl Hturns Ht Hok; simpl.
  { eexists. split; [done|]. exists [], [], l. rewrite !app_nil_r. simpl. by split_and!. }
  inversion Hturns as [|? ? [Hpad Hoff] Hturns']; subst.
  destruct (bq_pop_spec (during_pop t) (msg w) (queue_ w) l Hw) as (r & acc & -> & Hacc & Hr). simpl.
  assert (Hall : Forall msg_wf (l ++ acc)).
  { apply Forall_app. split; [done|]. by eapply Forall_sublist. }
  assert (Hsub : acc `sublist_of` offers (t :: turns)) by by apply sublist_inserts_r.
  destruct r as [[] m q|q].
  - destruct Hr as (l' & Hq & El). rewrite El in Hall. inversion Hall as [|? ? Hm Hl']; subst.
    rewrite visit_spec by done.
    destruct (send_appends _ _ _ Hlaws (header m) (payload_bytes (pad t) (stamp_disseminate (clock t) m))
                (transport w) Hok) as (tr & -> & Htr & Hsent).
    { by apply length_header. }
    { rewrite length_payload by (done || by apply msg_wf_stamp). destruct m; simpl; lia. }
    simpl.
    destruct (IH (World q (stamp_disseminate (clock t) m) (header m) tr) l' Hq Hl' Hturns')
      as (o & -> & acc2 & items & rest & Hacc2 & E2 & Hlen & Hwf & Hs & Ho);
      [by apply header_topic_ok|done|].
    exists o. split; [done|]. exists (acc ++ acc2), (m :: items), rest. simpl in *.
    split_and!; try done.
    + by apply sublist_app.
    + rewrite app_assoc, El. simpl. by f_equal.
    + lia.
    + by constructor.
    + rewrite Hs, Hsent, <- app_assoc. done.
    + destruct o as [?|?|?]; simpl in *; (done || (split; [tauto|lia])).
  - destruct Hr as [Hq Hst]. eexists. split; [done|]. exists acc, [], (l ++ acc). simpl.
    rewrite app_nil_r. split_and!; (done || lia).
  - eexists. split; [done|]. exists [], [], l. rewrite !app_nil_r. simpl.
    split_and!; (done || lia || apply sublist_nil_l).
Qed.
End Loop.

(** ** The two transports *)

Definition udp_sent (d : UdpDisseminator.t) : list (list byte * list byte) :=
  (fun dg => (take 10 dg, drop 10 dg)) <$> UdpDisseminator.sent d.

Lemma udp_send_eq stack topic payload d :
  length stack = UdpDisseminator.buffer_size -> length topic = 10%nat -> (length payload <= 48)%nat ->
  UdpDisseminator.send_impl stack topic payload d =
  Some (UdpDisseminator.Make (UdpDisseminator.worker_ d) (UdpDisseminator.sock_ d)
          (UdpDisseminator.dest_addr_ d) (UdpDisseminator.sent d ++ [topic ++ payload])).
Proof.
  intros Hs Ht Hp. unfold UdpDisseminator.send_impl.
  change (UdpDisseminator.buffer_size) with 58%nat in *. change topic_header_size with 10%nat.
  rewrite (proj2 (Nat.ltb_ge _ _)) by lia. do 3 f_equal.
  rewrite (take_ge topic) by lia. rewrite (memcpy_start stack), <- Ht, memcpy_middle.
  by rewrite app_assoc, <- length_app, take_app_length.
Qed.

Lemma udp_transport stack : length stack = UdpDisseminator.buffer_size ->
  transport_laws (UdpDisseminator.send_impl stack) (fun _ => True) udp_sent.
Proof.
  intros Hs. split. intros topic payload d _ Ht Hp. rewrite udp_send_eq by done.
  eexists. split; [done|]. split; [done|]. unfold udp_sent. simpl. rewrite fmap_app. simpl.
  rewrite <- Ht. by rewrite take_app_length, drop_app_length.
Qed.

(** The first two frames of each message. *)
Definition zmq_sent (d : ZmqDisseminator.t) : list (list byte * list byte) :=
  omap (fun frames => match frames with [t; p] => Some (t, p) | _ => None end) (ZmqDisseminator.published d).

Definition zmq_ok (d : ZmqDisseminator.t) : Prop := ZmqDisseminator.sending d = [].

Lemma memcpy_whole {A} (dst src : list A) : length dst = length src -> memcpy dst 0 src = src.
Proof. intros H. unfold memcpy. rewrite take_0. simpl. by rewrite drop_ge, app_nil_r by lia. Qed.

Lemma zmq_send_eq topic payload d : length topic = 10%nat ->
  ZmqDisseminator.send_impl topic payload d =
  Some (ZmqDisseminator.Make (ZmqDisseminator.worker_ d) (ZmqDisseminator.handle d) []
          (ZmqDisseminator.published d ++ [ZmqDisseminator.sending d ++ [topic; payload]])).
Proof.
  intros Ht. unfold ZmqDisseminator.send_impl, ZmqDisseminator.send. simpl.
  rewrite (take_ge topic) by lia. rewrite memcpy_whole by apply length_replicate.
  by rewrite <- app_assoc.
Qed.

Lemma zmq_transport : transport_laws ZmqDisseminator.send_impl zmq_ok zmq_sent.
Proof.
  split. intros topic payload d Hok Ht Hp. rewrite zmq_send_eq by done.
  eexists. split; [done|]. split; [done|]. unfold zmq_sent. simpl. by rewrite omap_app, Hok.
Qed.

(** * Proofs: constructors and destructors *)

Section Lifetime.
Context (sys : list syscall -> syscall -> Z).
Implicit Types (R : gset resource).

Lemma udp_disseminator_make inet_pton ip port R : fresh_descriptors sys ->
  triple sys R (UdpDisseminator.make inet_pton ip port)
    (fun d R' => exists fd, 0 <= fd /\ (Fd fd ∉ R) /\ R' = ({[Fd fd]} ∪ R) /\
                 UdpDisseminator.sock_ d = fd /\ UdpDisseminator.worker_ d = Thread.NotJoinable)
    (fun e R' => e = RuntimeError /\ R' = R).
Proof.
  intros Hf. unfold UdpDisseminator.make. apply triple_bind, triple_socket; [done| |].
  - intros fd Hfd. apply triple_bind, triple_throw_if; [done|lia].
  - intros fd Hfd Hnew. apply triple_bind, triple_throw_if; [lia|intros _].
    do 3 (apply triple_bind, triple_call; intros ?). apply triple_ret. by exists fd.
Qed.

Lemma udp_disseminator_destroy d R : 0 <= UdpDisseminator.sock_ d ->
  triple sys R (UdpDisseminator.destroy d) (fun _ R' => R' = (R ∖ {[Fd (UdpDisseminator.sock_ d)]})) (fun _ _ => False).
Proof.
  intros Hs. unfold UdpDisseminator.destroy. apply triple_bind, triple_stop_thread.
  rewrite (proj2 (Z.leb_le _ _) Hs). by apply triple_quiet.
Qed.

Lemma zmq_disseminator_make addr R : Ctx Publisher ∉ R -> ZSock Publisher ∉ R ->
  triple sys R (ZmqDisseminator.make addr)
    (fun d R' => R' = zmq_members Publisher R /\
                 ZmqDisseminator.handle d = true /\ ZmqDisseminator.worker_ d = Thread.NotJoinable)
    (fun e R' => zmq_error e /\ R' = R).
Proof.
  intros Hc Hs. apply triple_zmq_members; [done..|].
  apply triple_bind, triple_zmq_option; [done|]. apply triple_bind, triple_zmq_option; [done|].
  by apply triple_ret.
Qed.

Lemma zmq_disseminator_destroy d R :
  triple sys R (ZmqDisseminator.destroy d) (fun _ R' => R' = (R ∖ {[ZSock Publisher; Ctx Publisher]})) (fun _ _ => False).
Proof.
  unfold ZmqDisseminator.destroy. apply triple_noexcept, triple_bind, triple_stop_thread, triple_bind.
  destruct (ZmqDisseminator.handle d); [apply triple_quiet; intros ?|apply triple_ret];
    apply triple_zmq_release; simpl; clear; set_solver.
Qed.
End Lifetime.

(** * Properties *)

(** C11: the worker publishes each item it takes exactly once and in queue order,
    as a topic with the message's type and symbol and the payload with its
    [disseminate_timestamp] set to the clock; what it has not published is still in
    the queue. When it exits, stop has been requested. This holds over any blocking
    queue and any transport that meet their interfaces, and whatever bytes were on
    the stack under [topic_buf]. *)
Theorem disseminator_publishes_in_order {W S Tr : Type} `{BlockingQueueLaws W S MarketDataMsg}
    (send_impl : list byte -> list byte -> Tr -> option Tr) (ok : Tr -> Prop)
    (sent : Tr -> list (list byte * list byte)) (turns : list (turn S)) (stack : list byte)
    (q : W) (m0 : MarketDataMsg) (tr : Tr) (l : list MarketDataMsg) :
  transport_laws send_impl ok sent -> ok tr -> bq_repr q l -> Forall msg_wf l ->
  Forall turn_ok turns -> length stack = 10%nat ->
  exists o acc items rest,
    run_loop send_impl turns (World q m0 (topic_init stack) tr) = Some o /\
    acc `sublist_of` offers (W:=W) turns /\ l ++ acc = items ++ rest /\
    (length items <= length turns)%nat /\
    sent (transport (outcome_world o)) = sent tr ++ zip_with publication turns items /\
    match o with
    | Exited w' => bq_repr (queue_ w') rest /\ bq_stopped (queue_ w') = true
    | Running w' => bq_repr (queue_ w') rest /\ length items = length turns
    | Popping _ => True
    end.
Proof.
  intros Hlaws Hok Hq Hl Hturns Hstack.
  destruct (run_loop_done send_impl ok sent Hlaws turns (World q m0 (topic_init stack) tr) l)
    as (o & Ho & acc & items & rest & ? & ? & ? & _ & ? & ?); try done; [by apply topic_init_ok|].
  exists o, acc, items, rest. by split_and!.
Qed.

Definition demo_trade : Trade.t := Trade.Make [x56; x00; x00; x00; x00; x00; x00; x00] 0 25 1000 0.
Definition demo_quote : Quote.t := Quote.Make [x41; x4d; x5a; x4e; x00; x00; x00; x00] 1 2 100 200 1500 0.
Definition demo_pad : list byte := [x01; x02; x03; x04].

(** A quote is queued, a trade arrives after the first pop, then stop. *)
Definition demo_pops : list (turn (list (SpinSpscQueue.turn MarketDataMsg))) :=
  [Turn [SpinSpscQueue.Turn [] []] 2000 demo_pad;
   Turn [SpinSpscQueue.Turn [] []; SpinSpscQueue.Turn [] [SpinSpscQueue.EnvPush (TradeMsg demo_trade)]] 2100 demo_pad;
   Turn [SpinSpscQueue.Turn [SpinSpscQueue.EnvStop] []] 2200 demo_pad].

Definition demo_queue : SpinSpscQueue.world (ListQueue 4 MarketDataMsg) :=
  SpinSpscQueue.World (MkListQueue [QuoteMsg demo_quote]) false.

Definition demo_udp : UdpDisseminator.t := UdpDisseminator.Make (Thread.Joinable false) 3 ([], 0) [].

Lemma demo_quote_wf : msg_wf (QuoteMsg demo_quote).
Proof. by apply (bool_decide_unpack _). Qed.

Lemma demo_trade_wf : msg_wf (TradeMsg demo_trade).
Proof. by apply (bool_decide_unpack _). Qed.

Lemma demo_pops_ok : Forall (turn_ok (W:=SpinSpscQueue.world (ListQueue 4 MarketDataMsg))) demo_pops.
Proof.
  apply Forall_cons; split; [by split; [|apply Forall_nil]|].
  apply Forall_cons; split; [split; [done|apply Forall_singleton, demo_trade_wf]|].
  apply Forall_cons; split; [by split; [|apply Forall_nil]|by apply Forall_nil].
Qed.

Lemma disseminator_publishes_in_order_witness :
  exists o acc items rest,
    run_loop (UdpDisseminator.send_impl (replicate 58 xff)) demo_pops
      (World demo_queue (QuoteMsg Quote.zero) (topic_init (replicate 10 xaa)) demo_udp) = Some o /\
    acc `sublist_of` offers (W:=SpinSpscQueue.world (ListQueue 4 MarketDataMsg)) demo_pops /\ [QuoteMsg demo_quote] ++ acc = items ++ rest /\
    (length items <= length demo_pops)%nat /\
    udp_sent (transport (outcome_world o)) = udp_sent demo_udp ++ zip_with publication demo_pops items /\
    match o with
    | Exited w' => bq_repr (queue_ w') rest /\ bq_stopped (queue_ w') = true
    | Running w' => bq_repr (queue_ w') rest /\ length items = length demo_pops
    | Popping _ => True
    end.
Proof.
  apply (disseminator_publishes_in_order (W:=SpinSpscQueue.world (ListQueue 4 MarketDataMsg))
           (UdpDisseminator.send_impl (replicate 58 xff)) (fun _ => True) udp_sent demo_pops
           (replicate 10 xaa) demo_queue (QuoteMsg Quote.zero) demo_udp [QuoteMsg demo_quote]).
  - apply udp_transport. reflexivity.
  - exact I.
  - split; [reflexivity|simpl; lia].
  - apply Forall_singleton. exact demo_quote_wf.
  - exact demo_pops_ok.
  - reflexivity.
Defined.

(** Every datagram is the ten-byte topic followed by the object: 58 bytes for a
    quote and 50 for a trade. Nothing of the uninitialised 58-byte buffer is sent,
    and the copies stay inside it. *)
Theorem udp_datagram_exact (stack topic_buf pad : list byte) (c : Z) (m : MarketDataMsg) (d : UdpDisseminator.t) :
  length stack = UdpDisseminator.buffer_size -> topic_ok topic_buf -> msg_wf m -> length pad = 4%nat ->
  let '(m', topic, payload) := visit c pad m topic_buf in
  exists d', UdpDisseminator.send_impl stack topic payload d = Some d' /\
    UdpDisseminator.sent d' = UdpDisseminator.sent d ++ [header m' ++ payload_bytes pad m'] /\
    length (header m' ++ payload_bytes pad m') = match m with QuoteMsg _ => 58%nat | TradeMsg _ => 50%nat end.
Proof.
  intros Hs Ht Hm Hp. rewrite visit_spec by done.
  pose proof (msg_wf_stamp c m Hm) as Hm'.
  pose proof (length_payload pad _ Hp Hm') as Hlen.
  rewrite udp_send_eq; [|done|by apply length_header|rewrite Hlen; destruct m; simpl; lia].
  eexists. split; [done|]. simpl. unfold header. rewrite msg_symbol_stamp.
  split; [by destruct m|]. rewrite length_app, Hlen. rewrite (msg_wf_symbol m Hm). by destruct m.
Qed.

Lemma udp_datagram_exact_witness :
  exists d', UdpDisseminator.send_impl (replicate 58 xee) (header (TradeMsg demo_trade))
               (payload_bytes demo_pad (stamp_disseminate 2000 (TradeMsg demo_trade))) demo_udp = Some d' /\
    UdpDisseminator.sent d' = [header (TradeMsg demo_trade) ++
      payload_bytes demo_pad (stamp_disseminate 2000 (TradeMsg demo_trade))] /\
    length (header (TradeMsg demo_trade) ++
      payload_bytes demo_pad (stamp_disseminate 2000 (TradeMsg demo_trade))) = 50%nat.
Proof.
  apply (udp_datagram_exact (replicate 58 xee) (topic_init (replicate 10 xaa)) demo_pad 2000
           (TradeMsg demo_trade) demo_udp).
  - reflexivity.
  - split; reflexivity.
  - exact demo_trade_wf.
  - reflexivity.
Defined.
