(* ===== verification/UdpFeedHandler.v ===== *)
(** [src/feedhandler/IFeedHandler.h] and [UdpFeedHandler.h]: the client's
    callbacks, the command queue, and the receive loop that filters and unpacks
    datagrams. *)

From S2P Require Import Prelude Types QueueConcepts CustomSpscQueue Threads Calls.
From stdpp Require Import options.

(** * [IFeedHandler] *)

Module IFeedHandler.
Section Client.
(** The state the callbacks act on. *)
Context {C : Type}.

(** [on_quote_] and [on_trade_]: a [std::function] may be empty. *)
Record callbacks := Callbacks {
  on_quote_ : option (Quote.t -> Z -> C -> C);
  on_trade_ : option (Trade.t -> Z -> C -> C);
}.

Definition no_callbacks : callbacks := Callbacks None None.
Definition set_quote_callback (cb : Quote.t -> Z -> C -> C) (cbs : callbacks) : callbacks :=
  Callbacks (Some cb) (on_trade_ cbs).
Definition set_trade_callback (cb : Trade.t -> Z -> C -> C) (cbs : callbacks) : callbacks :=
  Callbacks (on_quote_ cbs) (Some cb).

(** The two overloads of [deliver_to_client]; [clock] is read if there is a
    callback. *)
Definition deliver_quote (cbs : callbacks) (clock : Z) (quote : Quote.t) (c : C) : C :=
  match on_quote_ cbs with Some cb => cb quote (u64 clock) c | None => c end.
Definition deliver_trade (cbs : callbacks) (clock : Z) (trade : Trade.t) (c : C) : C :=
  match on_trade_ cbs with Some cb => cb trade (u64 clock) c | None => c end.
End Client.
#[global] Arguments callbacks C : clear implicits.

Definition start (receiver_thread : Thread.t) : Thread.t := Thread.start receiver_thread.
Definition stop (receiver_thread : Thread.t) : Thread.t := Thread.stop receiver_thread.
End IFeedHandler.
Import IFeedHandler.

(** * [UdpFeedHandler] *)

(** [memcpy(&id, sym.data(), std::min(sym.size(), size_t{8}))] into a zero
    [uint64_t], on a little-endian machine. *)
Definition pack_symbol (sym : list byte) : Z :=
  le_val (memcpy (replicate 8 x00) 0 (take (Nat.min (length sym) 8) sym)).

Record SubCommand := Cmd { is_subscribe : bool; symbol_id : Z }.

#[export] Instance SubCommand_eq_dec : EqDecision SubCommand.
Proof. solve_decision. Defined.

Module UdpFeedHandler.

Definition commands : Type := CustomSpscQueue.t SubCommand 128.

Record t := Make {
  receiver_thread_ : Thread.t;
  sock_ : Z;
  command_queue_ : commands;
}.

(** The constructor. *)
Definition make (inet_pton : list byte -> option Z) (ip : list byte) (port : Z) : Sys t :=
  sock ← sys_call Socket;
  _ ← throw_if (sock <? 0) RuntimeError;
  _ ← sys_call (Setsockopt sock SO_REUSEADDR);
  _ ← sys_call (Setsockopt sock (SO_RCVBUF (1024 * 1024 * 8)));
  bound ← sys_call (Bind sock (htons port));
  _ ← throw_if (bound <? 0) RuntimeError;
  joined ← sys_call (Setsockopt sock (IP_ADD_MEMBERSHIP (default 0 (inet_pton ip))));
  _ ← throw_if (joined <? 0) RuntimeError;
  flags ← sys_call (GetFlags sock);
  _ ← throw_if (flags =? -1) RuntimeError;
  set ← sys_call (SetNonblock sock flags);
  _ ← throw_if (set =? -1) RuntimeError;
  sys_ret (Make Thread.NotJoinable sock (CustomSpscQueue.init 128)).

(** The destructor. *)
Definition destroy (h : t) : Sys () :=
  _ ← stop_thread (receiver_thread_ h);
  if 0 <=? sock_ h then quiet_call (Close (sock_ h)) else sys_ret tt.

(** The result of [push] is ignored. *)
Definition subscribe_impl (symbol : list byte) (q : commands) : option (bool * commands) :=
  CustomSpscQueue.push (Cmd true (pack_symbol symbol)) q.
Definition unsubscribe_impl (symbol : list byte) (q : commands) : option (bool * commands) :=
  CustomSpscQueue.push (Cmd false (pack_symbol symbol)) q.

Definition apply_command (s : gset Z) (cmd : SubCommand) : gset Z :=
  if is_subscribe cmd then {[symbol_id cmd]} ∪ s else s ∖ {[symbol_id cmd]}.

Section Loop.
Context {C : Type} (cbs : callbacks C).

(** The locals of [receive_loop_impl] and what it shares; [accepted] records the
    commands the queue took. *)
Record world := World {
  queue : commands;
  stop_requested : bool;
  buffer : list byte;
  local_subscriptions_ : gset Z;
  client : C;
  accepted : list SubCommand;
}.

(** What other threads do. *)
Inductive env_event := Subscribe (symbol : list byte) | Unsubscribe (symbol : list byte) | RequestStop.

Definition event_command (e : env_event) : option SubCommand :=
  match e with
  | Subscribe s => Some (Cmd true (pack_symbol s))
  | Unsubscribe s => Some (Cmd false (pack_symbol s))
  | RequestStop => None
  end.

Definition set_queue (q : commands) (acc : list SubCommand) (w : world) : world :=
  World q (stop_requested w) (buffer w) (local_subscriptions_ w) (client w) acc.

Definition env_act (e : env_event) (w : world) : option world :=
  match e with
  | Subscribe s =>
      '(b, q) ← subscribe_impl s (queue w);
      Some (set_queue q (accepted w ++ (if b : bool then option_list (event_command e) else [])) w)
  | Unsubscribe s =>
      '(b, q) ← unsubscribe_impl s (queue w);
      Some (set_queue q (accepted w ++ (if b : bool then option_list (event_command e) else [])) w)
  | RequestStop => Some (World (queue w) true (buffer w) (local_subscriptions_ w) (client w) (accepted w))
  end.

Fixpoint env_acts (es : list env_event) (w : world) : option world :=
  match es with
  | [] => Some w
  | e :: es' => w' ← env_act e w; env_acts es' w'
  end.

Inductive drain_outcome := Drained (w : world) | Draining (w : world).

(** [while (command_queue_.pop(cmd)) { ... }], with what other threads do before
    each [pop]. *)
Fixpoint drain (polls : list (list env_event)) (cmd : SubCommand) (w : world) : option drain_outcome :=
  match polls with
  | [] => Some (Draining w)
  | es :: polls' =>
      w1 ← env_acts es w;
      '(b, cmd', q) ← CustomSpscQueue.pop cmd (queue w1);
      if b : bool then
        drain polls' cmd'
          (World q (stop_requested w1) (buffer w1) (apply_command (local_subscriptions_ w1) cmd')
                 (client w1) (accepted w1))
      else Some (Drained (set_queue q (accepted w1) w1))
  end.

(** What [recvfrom] does: it fails, with [EAGAIN] or another error, or it copies a
    datagram, cut to the buffer's size. *)
Inductive recv_result := RecvFailed (again : bool) | Received (datagram : list byte).

Definition recvfrom (r : recv_result) (buf : list byte) : Z * list byte :=
  match r with
  | RecvFailed _ => (-1, buf)
  | Received d => let d' := take (length buf) d in (Z.of_nat (length d'), memcpy buf 0 d')
  end.

(** The rest of the loop's body once the datagram is in the buffer. *)
Definition on_datagram (clock : Z) (bytes_recvd : Z) (buf : list byte) (subs : gset Z) (c : C) : C :=
  if bytes_recvd <? Z.of_nat topic_header_size then c
  else if bool_decide (field_at 2 8 buf ∈ subs) then
    let msg_type := default x00 (buf !! 0%nat) in
    let payload_size := u64 (bytes_recvd - Z.of_nat topic_header_size) in
    if bool_decide (msg_type = x51) && (payload_size =? Z.of_nat (sizeof Quote.t)) then
      deliver_quote cbs clock (of_obj (slice topic_header_size (sizeof Quote.t) buf)) c
    else if bool_decide (msg_type = x54) && (payload_size =? Z.of_nat (sizeof Trade.t)) then
      deliver_trade cbs clock (of_obj (slice topic_header_size (sizeof Trade.t) buf)) c
    else c
  else c.

Record turn := Turn {
  before_test : list env_event;
  polls : list (list env_event);
  recv : recv_result;
  clock : Z;
}.

Inductive outcome := Exited (w : world) | InDrain (w : world) | Looping (w : world).

Fixpoint receive_loop_impl (turns : list turn) (cmd : SubCommand) (w : world) : option outcome :=
  match turns with
  | [] => Some (Looping w)
  | t :: turns' =>
      w1 ← env_acts (before_test t) w;
      if stop_requested w1 then Some (Exited w1)
      else
        d ← drain (polls t) cmd w1;
        match d with
        | Draining w2 => Some (InDrain w2)
        | Drained w2 =>
            let '(bytes_recvd, buf) := recvfrom (recv t) (buffer w2) in
            let c := if bytes_recvd <? 0 then client w2
                     else on_datagram (clock t) bytes_recvd buf (local_subscriptions_ w2) (client w2) in
            receive_loop_impl turns' cmd
              (World (queue w2) (stop_requested w2) buf (local_subscriptions_ w2) c (accepted w2))
        end
  end.
End Loop.
#[global] Arguments world C : clear implicits.
#[global] Arguments outcome C : clear implicits.
#[global] Arguments drain_outcome C : clear implicits.
#[global] Arguments World {C}.
End UdpFeedHandler.
Import UdpFeedHandler.

(** * What a datagram means *)

(** The message in a datagram, if its length and its type agree. *)
Definition parse_datagram (d : list byte) : option MarketDataMsg :=
  match d with
  | ty :: _ =>
      if bool_decide (ty = x51) && (length d =? 58)%nat then Some (QuoteMsg (of_obj (drop 10 d)))
      else if bool_decide (ty = x54) && (length d =? 50)%nat then Some (TradeMsg (of_obj (drop 10 d)))
      else None
  | [] => None
  end.

Definition deliver {C} (cbs : callbacks C) (clock : Z) (m : MarketDataMsg) (c : C) : C :=
  match m with QuoteMsg q => deliver_quote cbs clock q c | TradeMsg x => deliver_trade cbs clock x c end.

(** A client subscribed to [subs] is shown the message of a datagram whose header
    names a symbol of [subs]. *)
Definition handle {C} (cbs : callbacks C) (subs : gset Z) (clock : Z) (r : recv_result) (c : C) : C :=
  match r with
  | Received d =>
      match parse_datagram d with
      | Some m => if bool_decide (field_at 2 8 d ∈ subs) then deliver cbs clock m c else c
      | None => c
      end
  | RecvFailed _ => c
  end.

Definition subscriptions (cmds : list SubCommand) : gset Z := foldl apply_command ∅ cmds.

(** * Proofs: one datagram *)

Lemma slice_memcpy_start {A} off n (dst src : list A) :
  (off + n <= length src)%nat -> slice off n (memcpy dst 0 src) = slice off n src.
Proof. intros H. rewrite memcpy_start. by apply slice_app_l. Qed.

Lemma slice_to_end {A} off n (l : list A) : length l = (off + n)%nat -> slice off n l = drop off l.
Proof. intros H. unfold slice. apply take_ge. rewrite length_drop. lia. Qed.

Section Datagram.
Context {C : Type} (cbs : callbacks C).

Lemma parse_datagram_length d m : parse_datagram d = Some m -> length d = 58%nat \/ length d = 50%nat.
Proof.
  destruct d as [|ty d]; [done|]. unfold parse_datagram.
  destruct (bool_decide _ && _) eqn:E.
  - apply andb_true_iff in E as [_ E%Nat.eqb_eq]. by left.
  - clear E. destruct (bool_decide _ && _) eqn:E; [|done].
    apply andb_true_iff in E as [_ E%Nat.eqb_eq]. by right.
Qed.

(** A datagram that fits leaves its bytes at the start of the buffer. *)
Lemma on_datagram_fits clock d buf subs c :
  (length d <= length buf)%nat -> length buf = 1024%nat ->
  on_datagram cbs clock (Z.of_nat (length d)) (memcpy buf 0 d) subs c =
  handle cbs subs clock (Received d) c.
Proof.
  intros Hd Hbuf. unfold on_datagram. change (Z.of_nat topic_header_size) with 10.
  change (Z.of_nat (sizeof Quote.t)) with 48. change (Z.of_nat (sizeof Trade.t)) with 40.
  change (sizeof Quote.t) with 48%nat. change (sizeof Trade.t) with 40%nat.
  change topic_header_size with 10%nat.
  destruct (Z.ltb_spec (Z.of_nat (length d)) 10) as [Hshort|Hlong].
  - unfold handle. destruct (parse_datagram d) eqn:E; [|done].
    apply parse_datagram_length in E. lia.
  - rewrite u64_small by lia. unfold field_at. rewrite slice_memcpy_start by lia.
    destruct d as [|ty d]; [simpl in Hlong; lia|].
    assert (Hty : memcpy buf 0 (ty :: d) !! 0%nat = Some ty) by by rewrite memcpy_start.
    rewrite Hty. simpl default.
    unfold handle, parse_datagram. fold (field_at 2 8 (ty :: d)).
    set (len := length (ty :: d)) in *.
    assert (Eq48 : (Z.of_nat len - 10 =? 48) = (len =? 58)%nat) by (destruct (Nat.eqb_spec len 58); lia).
    assert (Eq40 : (Z.of_nat len - 10 =? 40) = (len =? 50)%nat) by (destruct (Nat.eqb_spec len 50); lia).
    rewrite Eq48, Eq40. unfold field_at.
    destruct (Nat.eqb_spec len 58) as [El|_]; [|destruct (Nat.eqb_spec len 50) as [El'|_]];
      rewrite ?andb_true_r, ?andb_false_r.
    + rewrite (slice_memcpy_start 10 48), (slice_to_end 10 48) by (subst len; lia).
      replace (len =? 50)%nat with false by (by rewrite El). rewrite andb_false_r.
      repeat case_bool_decide; done.
    + rewrite (slice_memcpy_start 10 40), (slice_to_end 10 40) by (subst len; lia).
      repeat case_bool_decide; done.
    + by case_bool_decide.
Qed.

Lemma handle_too_long clock d subs c : (58 < length d)%nat -> handle cbs subs clock (Received d) c = c.
Proof.
  intros H. unfold handle. destruct (parse_datagram d) eqn:E; [|done].
  apply parse_datagram_length in E. lia.
Qed.

(** One receive and the rest of the body: a function of the datagram, the clock
    and the subscriptions, whatever the buffer held. *)
Lemma receive_handles r clock buf subs c : length buf = 1024%nat ->
  let '(n, buf') := recvfrom r buf in
  length buf' = 1024%nat /\
  (if n <? 0 then c else on_datagram cbs clock n buf' subs c) = handle cbs subs clock r c.
Proof.
  intros Hbuf. destruct r as [again|d]; simpl; [done|].
  assert (Hlen : (length (take (length buf) d) <= length buf)%nat) by (rewrite length_take; lia).
  split; [by rewrite length_memcpy|].
  rewrite (proj2 (Z.ltb_ge _ _)) by lia. rewrite on_datagram_fits by done.
  destruct (decide (length d <= 1024)%nat) as [Hd|Hd].
  - by rewrite take_ge by lia.
  - change (handle cbs subs clock (Received (take (length buf) d)) c = handle cbs subs clock (Received d) c).
    rewrite !handle_too_long; rewrite ?length_take; (done || lia).
Qed.
End Datagram.

(** * Proofs: the loop *)

Section Loop.
Context {C : Type} (cbs : callbacks C).
Implicit Types (w : world C).

(** The commands [applied] are in the subscriptions, and [pending] wait in the queue. *)
Record handler_at w (applied pending : list SubCommand) : Prop := {
  ha_accepted : accepted w = applied ++ pending;
  ha_queue : CustomSpscQueue.repr 128 (queue w) pending;
  ha_subscriptions : local_subscriptions_ w = subscriptions applied;
  ha_buffer : length (buffer w) = 1024%nat;
}.

Definition handler_inv w : Prop := exists applied pending, handler_at w applied pending.

Definition event_commands (es : list env_event) : list SubCommand := omap event_command es.
Definition requests_stop (es : list env_event) : bool :=
  existsb (fun e => match e with RequestStop => true | _ => false end) es.

(** ** The reference: the loop on lists of commands *)

(** What waits in a queue of 128 after some events: a command that finds it full is
    dropped. *)
Definition offered (es : list env_event) (pending : list SubCommand) : list SubCommand :=
  foldl (fun p c => (Fifo.push 128 c p).2) pending (event_commands es).

(** The [while] over the commands, when [ps] says what happens before each of its
    looks: whether it has ended, what has been applied and what waits then, and
    whether stop was requested meanwhile. *)
Fixpoint looked (ps : list (list env_event)) (applied pending : list SubCommand) : bool * list SubCommand * list SubCommand * bool :=
  match ps with
  | [] => (false, applied, pending, false)
  | es :: ps' =>
      match offered es pending with
      | [] => (true, applied, [], requests_stop es)
      | c :: pending' =>
          let '(ended, applied', pending'', stop) := looked ps' (applied ++ [c]) pending' in
          (ended, applied', pending'', requests_stop es || stop)
      end
  end.

(** A receive as the loop handles it: the commands applied before it. *)
Record view := View { view_commands : list SubCommand; view_recv : recv_result; view_clock : Z }.

(** The receives of some turns. Each one is seen with all the commands that were
    accepted before the loop found the queue empty. *)
Fixpoint views_of (turns : list turn) (stop : bool) (applied pending : list SubCommand) : list view :=
  match turns with
  | [] => []
  | t :: turns' =>
      let stop1 := stop || requests_stop (before_test t) in
      if stop1 then []
      else
        let '(ended, applied', pending', stop2) := looked (polls t) applied (offered (before_test t) pending) in
        if ended then View applied' (recv t) (clock t) :: views_of turns' stop2 applied' pending' else []
  end.

Lemma push_command cmd w applied pending : handler_at w applied pending ->
  exists b q, CustomSpscQueue.push cmd (queue w) = Some (b, q) /\
    handler_at (set_queue q (accepted w ++ (if b then [cmd] else [])) w) applied (Fifo.push 128 cmd pending).2.
Proof.
  intros [Ha Hq Hs Hbuf]. destruct (CustomSpscQueue.ring_push 128 (queue w) pending cmd Hq) as (q & Hpush & Hq').
  change (Z.to_nat 128) with 128%nat in *. unfold Fifo.push in *. case_decide; simpl in *.
  - exists true, q. split; [done|]. split; simpl; [|done..]. by rewrite Ha, app_assoc.
  - exists false, q. split; [done|]. split; simpl; [|done..]. by rewrite app_nil_r.
Qed.

(** What the environment may change. *)
Record env_rel (cmds : list SubCommand) (stop : bool) w w' : Prop := {
  er_client : client w' = client w;
  er_stop : stop_requested w' = stop_requested w || stop;
  er_accepted : exists acc, accepted w' = accepted w ++ acc /\ acc `sublist_of` cmds;
}.

Lemma env_rel_refl w : env_rel [] false w w.
Proof.
  split; [done|by rewrite orb_false_r|]. exists []. rewrite app_nil_r. split; [done|apply sublist_nil_l].
Qed.

Lemma env_rel_trans cmds cmds' st st' w w' w'' :
  env_rel cmds st w w' -> env_rel cmds' st' w' w'' -> env_rel (cmds ++ cmds') (st || st') w w''.
Proof.
  intros [Hc Hs (acc & Ha & Hsub)] [Hc' Hs' (acc' & Ha' & Hsub')]. split.
  - congruence.
  - by rewrite Hs', Hs, orb_assoc.
  - exists (acc ++ acc'). rewrite Ha', Ha, app_assoc. split; [done|]. by apply sublist_app.
Qed.

Lemma env_act_spec e w applied pending : handler_at w applied pending ->
  exists w', env_act e w = Some w' /\ handler_at w' applied (offered [e] pending) /\
    env_rel (event_commands [e]) (requests_stop [e]) w w'.
Proof.
  intros Hw. assert (Hrel : forall b q cmd, env_rel [cmd] false w (set_queue q (accepted w ++ (if b : bool then [cmd] else [])) w)).
  { intros b q cmd. split; [done|by rewrite orb_false_r|]. eexists. split; [done|].
    destruct b; [done|apply sublist_nil_l]. }
  destruct e as [s|s|]; simpl.
  - destruct (push_command (Cmd true (pack_symbol s)) w _ _ Hw) as (b & q & Hb & Hinv). unfold subscribe_impl. rewrite Hb.
    simpl. eauto.
  - destruct (push_command (Cmd false (pack_symbol s)) w _ _ Hw) as (b & q & Hb & Hinv). unfold unsubscribe_impl. rewrite Hb.
    simpl. eauto.
  - eexists. split; [done|]. split; [by destruct Hw|].
    split; simpl; [done|by rewrite orb_true_r|]. exists []. rewrite app_nil_r. split; [done|apply sublist_nil_l].
Qed.

Lemma event_commands_app es es' : event_commands (es ++ es') = event_commands es ++ event_commands es'.
Proof. apply omap_app. Qed.

Lemma offered_cons e es pending : offered (e :: es) pending = offered es (offered [e] pending).
Proof. unfold offered. change (e :: es) with ([e] ++ es). by rewrite event_commands_app, foldl_app. Qed.

Lemma env_acts_spec es w applied pending : handler_at w applied pending ->
  exists w', env_acts es w = Some w' /\ handler_at w' applied (offered es pending) /\
    env_rel (event_commands es) (requests_stop es) w w'.
Proof.
  revert w pending; induction es as [|e es IH]; intros w pending Hw; cbn [env_acts].
  - exists w. split_and!; try done. apply env_rel_refl.
  - destruct (env_act_spec e w _ _ Hw) as (w1 & -> & Hw1 & Hr1). cbn [mbind option_bind]. rewrite offered_cons.
    destruct (IH w1 _ Hw1) as (w2 & -> & Hw2 & Hr2). exists w2. split_and!; try done.
    pose proof (env_rel_trans _ _ _ _ _ _ _ Hr1 Hr2) as Hr. rewrite <- event_commands_app in Hr.
    assert (requests_stop (e :: es) = requests_stop [e] || requests_stop es) as -> by (simpl; by rewrite orb_false_r).
    exact Hr.
Qed.

(** The drain does what the reference says; when it ends no command is pending. *)
Lemma drain_spec polls cmd w applied pending : handler_at w applied pending ->
  exists d, drain polls cmd w = Some d /\
    let '(ended, applied', pending', stop) := looked polls applied pending in
    match d with
    | Drained w' => ended = true /\ pending' = [] /\ handler_at w' applied' [] /\
        env_rel (event_commands (mjoin polls)) stop w w'
    | Draining w' => ended = false /\ handler_at w' applied' pending' /\ env_rel (event_commands (mjoin polls)) stop w w'
    end.
Proof.
  revert cmd w applied pending; induction polls as [|es polls IH]; intros cmd w applied pending Hw; cbn [drain looked].
  { eexists. split; [done|]. split_and!; [done..|]. apply env_rel_refl. }
  destruct (env_acts_spec es w _ _ Hw) as (w1 & -> & Hw1 & Hr1). cbn [mbind option_bind mjoin list_join].
  destruct Hw1 as [Ha Hq Hs Hbuf].
  destruct (CustomSpscQueue.ring_pop 128 (queue w1) _ cmd Hq) as (q & Hpop & Hq'). rewrite Hpop, event_commands_app.
  destruct (offered es pending) as [|c pending1]; simpl in *.
  - eexists. split; [done|]. split_and!; [done..| |].
    + by split.
    + destruct Hr1 as [Hc Hst (acc & Hacc & Hsub)]. split; [done..|]. exists acc. split; [done|].
      by apply sublist_inserts_r.
  - match goal with |- context [drain polls c ?w2] => destruct (IH c w2 (applied ++ [c]) pending1) as (d & -> & Hd) end.
    { split; simpl; [by rewrite <- app_assoc|done| |done].
      unfold subscriptions in *. by rewrite foldl_app, <- Hs. }
    eexists. split; [done|]. destruct (looked polls (applied ++ [c]) pending1) as [[[ended applied'] pending'] stop].
    assert (Hlift : forall cmds st w', env_rel cmds st
        (World q (stop_requested w1) (buffer w1) (apply_command (local_subscriptions_ w1) c) (client w1) (accepted w1)) w' ->
        env_rel (event_commands es ++ cmds) (requests_stop es || st) w w').
    { intros cmds st w' [Hc' Hst' Hacc']. eapply env_rel_trans; [exact Hr1|]. by split. }
    destruct d as [w'|w'].
    + destruct Hd as (-> & -> & Hw' & Hr). split_and!; [done..|by apply Hlift].
    + destruct Hd as (-> & Hw' & Hr). split_and!; [done..|by apply Hlift].
Qed.

Definition outcome_world (o : outcome C) : world C :=
  match o with Exited w | InDrain w | Looping w => w end.

Definition turn_events (t : turn) : list env_event := before_test t ++ mjoin (polls t).

Definition show (c : C) (v : view) : C :=
  handle cbs (subscriptions (view_commands v)) (view_clock v) (view_recv v) c.

Definition loop_done (turns : list turn) w applied pending (o : outcome C) : Prop :=
  let views := views_of turns (stop_requested w) applied pending in
  exists acc,
    handler_inv (outcome_world o) /\
    accepted (outcome_world o) = accepted w ++ acc /\
    acc `sublist_of` event_commands (mjoin (turn_events <$> turns)) /\
    (fun v => (view_recv v, view_clock v)) <$> views =
      take (length views) ((fun t => (recv t, clock t)) <$> turns) /\
    Forall (fun v => accepted w `prefix_of` view_commands v /\
                     view_commands v `prefix_of` accepted (outcome_world o)) views /\
    client (outcome_world o) = foldl show (client w) views /\
    match o with
    | Looping _ => length views = length turns
    | Exited w' => stop_requested w' = true
    | InDrain _ => (length views < length turns)%nat
    end.

Lemma receive_loop_done turns cmd w applied pending : handler_at w applied pending ->
  exists o, receive_loop_impl cbs turns cmd w = Some o /\ loop_done turns w applied pending o.
Proof.
  revert w applied pending; induction turns as [|t turns IH]; intros w applied pending Hw; cbn [receive_loop_impl].
  { eexists. split; [done|]. exists []. rewrite app_nil_r. split_and!; try done. by eexists _, _. }
  destruct (env_acts_spec (before_test t) w _ _ Hw) as (w1 & -> & Hw1 & Hr1). cbn [mbind option_bind].
  destruct (er_accepted _ _ _ _ Hr1) as (acc1 & Ha1 & Hsub1). unfold loop_done. cbn [views_of].
  rewrite <- (er_stop _ _ _ _ Hr1).
  assert (Hev : event_commands (mjoin (turn_events <$> t :: turns)) = event_commands (before_test t) ++
    event_commands (mjoin (polls t)) ++ event_commands (mjoin (turn_events <$> turns)))
    by (rewrite fmap_cons; cbn [mjoin list_join]; unfold turn_events at 1; by rewrite !event_commands_app, app_assoc).
  rewrite Hev. clear Hev.
  destruct (stop_requested w1) eqn:Hst.
  { eexists. split; [done|]. exists acc1. simpl.
    split_and!; try done; [by eexists _, _|by apply sublist_inserts_r|apply Hr1]. }
  destruct (drain_spec (polls t) cmd w1 _ _ Hw1) as (d & -> & Hd). cbn [mbind option_bind].
  destruct (looked (polls t) applied (offered (before_test t) pending)) as [[[ended applied'] pending'] stop].
  destruct d as [w2|w2].
  - destruct Hd as (-> & -> & Hw2 & Hr2). destruct (er_accepted _ _ _ _ Hr2) as (acc2 & Ha2 & Hsub2).
    pose proof (receive_handles cbs (recv t) (clock t) (buffer w2) (local_subscriptions_ w2) (client w2)
                  (ha_buffer _ _ _ Hw2)) as Hrecv.
    destruct (recvfrom (recv t) (buffer w2)) as [n buf]. destruct Hrecv as [Hbuf ->].
    set (w3 := World _ _ _ _ _ _). assert (Hw3 : handler_at w3 applied' []) by (destruct Hw2; by split).
    assert (Hst3 : stop_requested w3 = stop) by (unfold w3; simpl; by rewrite (er_stop _ _ _ _ Hr2), Hst).
    destruct (IH w3 _ _ Hw3) as (o & Ho & acc & Hinv & Ha & Hsub & Hv & Hf & Hc & Hend). rewrite Hst3 in *.
    exists o. split; [exact Ho|]. exists (acc1 ++ acc2 ++ acc).
    assert (Happ : applied' = accepted w2) by (rewrite (ha_accepted _ _ _ Hw2); by rewrite app_nil_r).
    assert (Hpre : accepted w `prefix_of` accepted w2) by (rewrite Ha2, Ha1, <- app_assoc; by eexists).
    split_and!.
    + done.
    + rewrite Ha. subst w3. simpl. by rewrite Ha2, Ha1, <- !app_assoc.
    + apply sublist_app; [done|]. by apply sublist_app.
    + simpl. by f_equal.
    + constructor; [simpl; rewrite Happ; split; [done|by rewrite Ha; eexists]|].
      eapply Forall_impl; [exact Hf|]. intros v [H1 H2]. split; [by etrans|done].
    + rewrite Hc. simpl. unfold show at 3. simpl. rewrite <- (ha_subscriptions _ _ _ Hw2).
      by rewrite (er_client _ _ _ _ Hr2), (er_client _ _ _ _ Hr1).
    + destruct o; simpl in *; (done || lia).
  - destruct Hd as (-> & Hw2 & Hr2). destruct (er_accepted _ _ _ _ Hr2) as (acc2 & Ha2 & Hsub2).
    eexists. split; [done|]. exists (acc1 ++ acc2). simpl.
    split_and!; try done; [by eexists _, _| | |by rewrite (er_client _ _ _ _ Hr2); apply Hr1|lia].
    + by rewrite Ha2, Ha1, app_assoc.
    + rewrite app_assoc. apply sublist_inserts_r. by apply sublist_app.
Qed.

(** ** Termination *)

(** Polls that outlast any queue: at least 129 end without a new command. *)
Definition ends_drain (ps : list (list env_event)) : Prop :=
  exists ps1 ps2, ps = ps1 ++ ps2 /\ (128 < length ps2)%nat /\ Forall (fun es => event_commands es = []) ps2.

Lemma env_acts_quiet es w w' pending : CustomSpscQueue.repr 128 (queue w) pending ->
  event_commands es = [] -> env_acts es w = Some w' -> CustomSpscQueue.repr 128 (queue w') pending.
Proof.
  revert w; induction es as [|e es IH]; intros w Hq Hes; simpl in *; [by intros [= <-]|].
  destruct e; simpl in *; try discriminate. intros Hw. by eapply IH; [|exact Hes|exact Hw].
Qed.

Lemma drain_quiet_ends ps cmd w pending : CustomSpscQueue.repr 128 (queue w) pending ->
  (length pending < length ps)%nat -> Forall (fun es => event_commands es = []) ps ->
  forall w', drain ps cmd w <> Some (Draining w').
Proof.
  revert cmd w pending; induction ps as [|es ps IH]; intros cmd w pending Hq Hlen Hps w'; simpl; [simpl in Hlen; lia|].
  inversion Hps as [|? ? Hes Hps']; subst.
  destruct (env_acts es w) as [w1|] eqn:E1; simpl; [|done].
  pose proof (env_acts_quiet _ _ _ _ Hq Hes E1) as Hq1.
  destruct (CustomSpscQueue.ring_pop 128 (queue w1) pending cmd Hq1) as (q & -> & Hq'). simpl.
  destruct pending as [|c pending]; simpl in *; [done|].
  eapply IH; [exact Hq'|lia|done].
Qed.

Lemma drain_ends ps cmd w applied pending : handler_at w applied pending -> ends_drain ps ->
  forall w', drain ps cmd w <> Some (Draining w').
Proof.
  intros Hw (ps1 & ps2 & -> & Hlen & Hps). revert cmd w applied pending Hw.
  induction ps1 as [|es ps1 IH]; intros cmd w applied pending Hw w'; simpl.
  - pose proof (ha_queue _ _ _ Hw) as Hq.
    pose proof (CustomSpscQueue.repr_len _ _ _ Hq). apply (drain_quiet_ends _ _ _ pending); [done|lia|done].
  - destruct (env_acts_spec es w _ _ Hw) as (w1 & -> & [Ha Hq Hs Hb] & _). cbn [mbind option_bind].
    destruct (CustomSpscQueue.ring_pop 128 (queue w1) _ cmd Hq) as (q & -> & Hq').
    destruct (offered es pending) as [|c pending1]; simpl in *; [done|].
    apply (IH _ _ (applied ++ [c]) pending1). split; simpl; [by rewrite <- app_assoc|done| |done].
    unfold subscriptions in *. by rewrite foldl_app, <- Hs.
Qed.

Lemma receive_loop_exits turns cmd w o : handler_inv w ->
  stop_requested w = true \/ Exists (fun t => requests_stop (before_test t) = true) turns -> turns <> [] ->
  Forall (fun t => ends_drain (polls t)) turns ->
  receive_loop_impl cbs turns cmd w = Some o -> exists w', o = Exited w'.
Proof.
  revert w; induction turns as [|t turns IH]; intros w (applied & pending & Hw) Hst Hne Hends; [done|]. simpl.
  destruct (env_acts_spec (before_test t) w _ _ Hw) as (w1 & -> & Hw1 & Hr1). simpl.
  destruct (stop_requested w1) eqn:S1; [intros [= <-]; eauto|].
  rewrite (er_stop _ _ _ _ Hr1) in S1. apply orb_false_iff in S1 as [Sw St].
  inversion Hends as [|? ? Ht Hends']; subst.
  assert (Hrest : Exists (fun t => requests_stop (before_test t) = true) turns).
  { destruct Hst as [?|Hst]; [congruence|]. inversion Hst; subst; [congruence|done]. }
  destruct (drain_spec (polls t) cmd w1 _ _ Hw1) as (d & Hd & Hpost). rewrite Hd. simpl.
  destruct d as [w2|w2]; [|by destruct (drain_ends _ cmd _ _ _ Hw1 Ht w2 Hd)].
  destruct (looked _ _ _) as [[[ended applied'] pending'] stop]. destruct Hpost as (_ & _ & Hw2 & _).
  pose proof (receive_handles cbs (recv t) (clock t) (buffer w2) (local_subscriptions_ w2) (client w2)
                (ha_buffer _ _ _ Hw2)) as Hrecv.
  destruct (recvfrom (recv t) (buffer w2)) as [n buf]. destruct Hrecv as [Hbuf _].
  apply IH; [exists applied', []; destruct Hw2; by split|by right| |done]. by destruct Hrest.
Qed.
End Loop.

(** * Proofs: constructor and destructor *)

Section Lifetime.
Context (sys : list syscall -> syscall -> Z).
Implicit Types (R : gset resource).

(** A throw after the socket is open leaves it open. *)
Lemma udp_handler_make inet_pton ip port R : fresh_descriptors sys ->
  triple sys R (make inet_pton ip port)
    (fun h R' => exists fd, 0 <= fd /\ (Fd fd ∉ R) /\ R' = ({[Fd fd]} ∪ R) /\ sock_ h = fd /\
                 receiver_thread_ h = Thread.NotJoinable)
    (fun e R' => e = RuntimeError /\ (R' = R \/ exists fd, (Fd fd ∉ R) /\ R' = ({[Fd fd]} ∪ R))).
Proof.
  intros Hf. unfold make. apply triple_bind, triple_socket; [done| |].
  { intros fd Hfd. apply triple_bind, triple_throw_if; [by auto|lia]. }
  intros fd Hfd Hnew. set (R1 := {[Fd fd]} ∪ R).
  assert (Hthrow : RuntimeError = RuntimeError /\ (R1 = R \/ exists fd', (Fd fd' ∉ R) /\ R1 = ({[Fd fd']} ∪ R)))
    by (split; [done|right; by exists fd]).
  apply triple_bind, triple_throw_if; [lia|intros _].
  do 2 (apply triple_bind, triple_call; intros ?).
  do 4 (apply triple_bind, triple_call; intros ?; apply triple_bind, triple_throw_if; intros ?; [exact Hthrow|]).
  apply triple_ret. by exists fd.
Qed.

Lemma udp_handler_destroy h R : 0 <= sock_ h ->
  triple sys R (destroy h) (fun _ R' => R' = (R ∖ {[Fd (sock_ h)]})) (fun _ _ => False).
Proof.
  intros Hs. unfold destroy. apply triple_bind, triple_stop_thread.
  rewrite (proj2 (Z.leb_le _ _) Hs). by apply triple_quiet.
Qed.
End Lifetime.

(** * Properties *)

(** The loop's initial state: commands may be waiting in the queue, the buffer is
    whatever the stack held, and no subscription is known. *)
Definition loop_start {C} (q : commands) (waiting : list SubCommand) (stack : list byte) (c : C) : world C :=
  World q false stack ∅ c waiting.

Lemma loop_start_at {C} q waiting stack (c : C) :
  CustomSpscQueue.repr 128 q waiting -> length stack = 1024%nat -> handler_at (loop_start q waiting stack c) [] waiting.
Proof. intros Hq Hs. by split. Qed.

(** C10: what the receive loop shows its client, whatever other threads do. It is
    the fold, over the first receives in order, of: parse the datagram, and deliver
    the message if the header's symbol is subscribed. The subscriptions in force at a
    receive are those of all the commands that were accepted before the loop last
    looked at the queue, found it empty and so went on to the receive: the ones that
    were waiting when the loop began, and the ones offered since that did not find
    128 waiting, in order; [views_of] computes them on lists. The receives end with
    the turn whose test sees a stop request, or one that has not drained the queue. *)
Theorem udp_receive_exact {C} (cbs : callbacks C) (turns : list turn) (cmd : SubCommand) (q : commands)
    (waiting : list SubCommand) (stack : list byte) (c : C) :
  CustomSpscQueue.repr 128 q waiting -> length stack = 1024%nat ->
  exists o views acc,
    receive_loop_impl cbs turns cmd (loop_start q waiting stack c) = Some o /\
    views = views_of turns false [] waiting /\
    client (outcome_world o) = foldl (show cbs) c views /\
    accepted (outcome_world o) = waiting ++ acc /\
    acc `sublist_of` event_commands (mjoin (turn_events <$> turns)) /\
    (fun v => (view_recv v, view_clock v)) <$> views =
      take (length views) ((fun t => (recv t, clock t)) <$> turns) /\
    Forall (fun v => waiting `prefix_of` view_commands v /\
                     view_commands v `prefix_of` accepted (outcome_world o)) views /\
    match o with
    | Looping _ => length views = length turns
    | Exited w' => stop_requested w' = true
    | InDrain _ => (length views < length turns)%nat
    end.
Proof.
  intros Hq Hs.
  destruct (receive_loop_done cbs turns cmd (loop_start q waiting stack c) _ _ (loop_start_at _ _ _ _ Hq Hs))
    as (o & Ho & acc & _ & Ha & Hsub & Hv & Hf & Hc & Hend).
  exists o, (views_of turns false [] waiting), acc. by split_and!.
Qed.

(** A client that keeps what it is shown. *)
Definition recording : callbacks (list (MarketDataMsg * Z)) :=
  set_trade_callback (fun x ts c => c ++ [(TradeMsg x, ts)])
    (set_quote_callback (fun q ts c => c ++ [(QuoteMsg q, ts)]) no_callbacks).

Definition sym_A : list byte := [x41].
Definition datagram_A : list byte := [x54; x3a] ++ [x41; x00; x00; x00; x00; x00; x00; x00] ++ replicate 40 x07.
Definition datagram_Q : list byte := [x54; x3a] ++ [x51; x00; x00; x00; x00; x00; x00; x00] ++ replicate 40 x08.

Definition demo_turns : list turn :=
  [Turn [] [[Subscribe sym_A]; []] (Received datagram_A) 50;
   Turn [] [[]] (Received datagram_Q) 60;
   Turn [] [[]] (RecvFailed true) 70;
   Turn [RequestStop] [[]] (Received datagram_A) 80].

(** The run delivers the one subscribed message. *)
Example demo_turns_run :
  exists o, receive_loop_impl recording demo_turns (Cmd false 0)
              (loop_start (CustomSpscQueue.init 128) [] (replicate 1024 xcc) []) = Some (Exited o) /\
    client o = [(TradeMsg (Trade.of_bytes (drop 10 datagram_A)), 50)].
Proof. eexists. split; [vm_compute; reflexivity|]. vm_compute. reflexivity. Qed.

Example demo_turns_views : view_commands <$> views_of demo_turns false [] [] =
  replicate 3 [Cmd true (pack_symbol sym_A)].
Proof. vm_compute. reflexivity. Qed.

Lemma udp_receive_exact_witness :
  exists o views acc,
    receive_loop_impl recording demo_turns (Cmd false 0)
      (loop_start (CustomSpscQueue.init 128) [] (replicate 1024 xcc) []) = Some o /\
    views = views_of demo_turns false [] [] /\
    client (outcome_world o) = foldl (show recording) [] views /\
    accepted (outcome_world o) = [] ++ acc /\
    acc `sublist_of` event_commands (mjoin (turn_events <$> demo_turns)) /\
    (fun v => (view_recv v, view_clock v)) <$> views =
      take (length views) ((fun t => (recv t, clock t)) <$> demo_turns) /\
    Forall (fun v => [] `prefix_of` view_commands v /\
                     view_commands v `prefix_of` accepted (outcome_world o)) views /\
    match o with
    | Looping _ => length views = length demo_turns
    | Exited w' => stop_requested w' = true
    | InDrain _ => (length views < length demo_turns)%nat
    end.
Proof.
  apply (udp_receive_exact recording demo_turns (Cmd false 0) (CustomSpscQueue.init 128) [] (replicate 1024 xcc) []).
  - apply CustomSpscQueue.repr_init. lia.
  - reflexivity.
Defined.

(** C34: the receive loop terminates once stop is requested: if some turn sees the
    request at its test, and no turn before it drains for ever, the loop exits. At
    most 129 polls without a new command empty the command queue. *)
Theorem udp_receive_terminates {C} (cbs : callbacks C) (turns : list turn) (cmd : SubCommand) (q : commands)
    (waiting : list SubCommand) (stack : list byte) (c : C) :
  CustomSpscQueue.repr 128 q waiting -> length stack = 1024%nat ->
  Exists (fun t => requests_stop (before_test t) = true) turns ->
  Forall (fun t => ends_drain (polls t)) turns ->
  exists w, receive_loop_impl cbs turns cmd (loop_start q waiting stack c) = Some (Exited w).
Proof.
  intros Hq Hs Hstop Hends. pose proof (loop_start_at q waiting stack c Hq Hs) as Hat.
  destruct (receive_loop_done cbs turns cmd _ _ _ Hat) as (o & Ho & _).
  destruct (receive_loop_exits cbs turns cmd _ o (ex_intro _ _ (ex_intro _ _ Hat)) (or_intror Hstop)) as [w ->]; [|done..|by exists w].
  by destruct Hstop.
Qed.

Lemma udp_receive_terminates_witness :
  exists w, receive_loop_impl recording
    [Turn [] ([Subscribe sym_A] :: replicate 129 []) (Received datagram_A) 50;
     Turn [RequestStop] (replicate 129 []) (RecvFailed true) 60] (Cmd false 0)
    (loop_start (CustomSpscQueue.init 128) [] (replicate 1024 xcc) []) = Some (Exited w).
Proof.
  apply (udp_receive_terminates recording _ (Cmd false 0) (CustomSpscQueue.init 128) [] (replicate 1024 xcc) []).
  - apply CustomSpscQueue.repr_init. lia.
  - reflexivity.
  - right. left. reflexivity.
  - apply Forall_cons; split; [|apply Forall_singleton].
    + exists [[Subscribe sym_A]], (replicate 129 []).
      split; [reflexivity|]. split; [rewrite length_replicate; lia|by apply Forall_replicate].
    + exists [], (replicate 129 []).
      split; [reflexivity|]. split; [rewrite length_replicate; lia|by apply Forall_replicate].
Defined.

(** Subscriptions live in the receive loop. A handler that is stopped and
    started again begins with none: until a new command arrives it shows its client
    nothing, whatever it was subscribed to before. *)
Theorem udp_restart_forgets {C} (cbs : callbacks C) (turns : list turn) (cmd : SubCommand) (q : commands)
    (stack : list byte) (c : C) :
  CustomSpscQueue.repr 128 q [] -> length stack = 1024%nat ->
  event_commands (mjoin (turn_events <$> turns)) = [] ->
  exists o, receive_loop_impl cbs turns cmd (loop_start q [] stack c) = Some o /\
            client (outcome_world o) = c.
Proof.
  intros Hq Hs Hev.
  destruct (receive_loop_done cbs turns cmd (loop_start q [] stack c) _ _ (loop_start_at _ _ _ _ Hq Hs))
    as (o & Ho & acc & _ & Ha & Hsub & _ & Hf & Hc & _).
  exists o. split; [done|]. rewrite Hev in Hsub. apply sublist_nil_r in Hsub as ->.
  rewrite Ha in Hf. rewrite Hc. simpl in *. clear -Hf. revert c.
  induction Hf as [|v views [_ Hv] _ IH]; intros c; simpl; [done|].
  apply prefix_nil_inv in Hv. rewrite IH. unfold show, handle, subscriptions. rewrite Hv. simpl.
  destruct (view_recv v); [done|]. destruct (parse_datagram _); [|done].
  by rewrite bool_decide_eq_false_2 by apply not_elem_of_empty.
Qed.

Lemma udp_restart_forgets_witness :
  exists o, receive_loop_impl recording [Turn [] [[]] (Received datagram_A) 50; Turn [] [[]] (Received datagram_Q) 60]
              (Cmd false 0) (loop_start (empty_at 128 77) [] (replicate 1024 xcc) []) = Some o /\
            client (outcome_world o) = [].
Proof.
  apply (udp_restart_forgets recording _ (Cmd false 0) (empty_at 128 77) (replicate 1024 xcc) []).
  - exact (repr_empty_at 128 77 ltac:(lia)).
  - reflexivity.
  - reflexivity.
Defined.

(** The constructor on every path. It succeeds when the socket opens, binds,
    joins the group and takes both [fcntl]s, and then the command queue is empty and
    no thread runs; otherwise it throws at the first call that failed. Once the
    socket is open a throw leaks its descriptor: the destructor of an object whose
    constructor threw does not run, and nothing else closes it. *)
Theorem udp_make_paths (inet_pton : list byte -> option Z) (ip : list byte) (port : Z)
    (sys : list syscall -> syscall -> Z) :
  match make inet_pton ip port sys [] with
  | (log, inr h) =>
      0 <= sock_ h /\ receiver_thread_ h = Thread.NotJoinable /\
      CustomSpscQueue.repr 128 (command_queue_ h) [] /\
      0 <= sys (take 3 log) (Bind (sock_ h) (htons port)) /\
      0 <= sys (take 4 log) (Setsockopt (sock_ h) (IP_ADD_MEMBERSHIP (default 0 (inet_pton ip)))) /\
      exists flags, last log = Some (SetNonblock (sock_ h) flags) /\ flags <> -1 /\
        sys (take 6 log) (SetNonblock (sock_ h) flags) <> -1
  | (log, inl e) => e = RuntimeError /\
      (exists before c, log = before ++ [c] /\ sys before c < 0) /\
      (log = [Socket] \/ leaked sys log)
  end.
Proof.
  unfold make, sys_call, throw_if, sys_ret, sys_throw, mbind, sys_bind. simpl.
  destruct (Z.ltb_spec (sys [] Socket) 0) as [Hneg|Hpos]; simpl.
  { split_and!; [done|by exists [], Socket|by left]. }
  set (sock := sys [] Socket) in *.
  assert (Hleak : forall after, Close sock ∉ after -> leaked sys (Socket :: after)).
  { intros after Ha. by exists [], after. }
  assert (Hfail : forall before c, sys (Socket :: before) c < 0 -> Close sock ∉ before ++ [c] ->
    RuntimeError = RuntimeError /\
    (exists b c', Socket :: before ++ [c] = b ++ [c'] /\ sys b c' < 0) /\
    (Socket :: before ++ [c] = [Socket] \/ leaked sys (Socket :: before ++ [c]))).
  { intros before c Hc Ha. split; [done|]. split; [by exists (Socket :: before), c|]. right. by apply Hleak. }
  destruct (sys _ (Bind _ _) <? 0) eqn:Hbind; simpl;
    [|destruct (sys _ (Setsockopt _ (IP_ADD_MEMBERSHIP _)) <? 0) eqn:Hjoin; simpl;
      [|destruct (sys _ (GetFlags _) =? -1) eqn:Hflags; simpl;
        [|destruct (sys _ (SetNonblock _ _) =? -1) eqn:Hset; simpl]]].
  5: { split_and!; try (done || lia); [apply CustomSpscQueue.repr_init; lia|].
       eexists. split_and!; [done|lia..]. }
  all: match goal with
       | H : (_ (Socket :: ?b) ?c <? 0) = true |- _ => apply (Hfail b c); [lia|]
       | H : (_ (Socket :: ?b) ?c =? -1) = true |- _ => apply (Hfail b c); [lia|]
       end.
  all: simpl; rewrite !elem_of_cons, elem_of_nil; intuition congruence.
Qed.
