(* ===== verification/ZmqFeedHandler.v ===== *)
(** [src/feedhandler/ZmqFeedHandler.h]: topic subscriptions on a SUB socket and the
    receive loop over two-part messages. The socket is third-party code: an
    interface with the filtering its documentation promises. *)

From S2P Require Import Prelude Types QueueConcepts Threads Calls Disseminator UdpFeedHandler.
From stdpp Require Import options.

(** * The SUB socket *)

(** [zmq_setsockopt] with [ZMQ_SUBSCRIBE] and [ZMQ_UNSUBSCRIBE], and whether a
    message with a given first frame passes the filters. *)
Class SubSocket (S : Type) := {
  sub_subscribe : list byte -> S -> S;
  sub_unsubscribe : list byte -> S -> S;
  sub_accepts : list byte -> S -> bool;
}.
#[global] Hint Mode SubSocket ! : typeclass_instances.

(** A message is accepted when one of the filters, of which the same may be set
    several times, is a prefix of it; unsubscribing removes one instance. *)
Class SubSocketLaws (S : Type) `{SubSocket S} := {
  sub_filters : S -> list (list byte);
  sub_accepts_spec (topic : list byte) (s : S) :
    sub_accepts topic s = true <-> exists f, f ∈ sub_filters s /\ f `prefix_of` topic;
  sub_subscribe_spec (f : list byte) (s : S) :
    sub_filters (sub_subscribe f s) ≡ₚ f :: sub_filters s;
  sub_unsubscribe_spec (f : list byte) (s : S) (fs : list (list byte)) :
    sub_filters s ≡ₚ f :: fs -> sub_filters (sub_unsubscribe f s) ≡ₚ fs;
}.

(** A socket as the list of its filters. *)
Record FilterList := MkFilterList { filter_list : list (list byte) }.

Fixpoint remove_one (f : list byte) (fs : list (list byte)) : list (list byte) :=
  match fs with
  | [] => []
  | g :: fs' => if bool_decide (f = g) then fs' else g :: remove_one f fs'
  end.

#[export] Instance FilterList_socket : SubSocket FilterList := {|
  sub_subscribe := fun f s => MkFilterList (f :: filter_list s);
  sub_unsubscribe := fun f s => MkFilterList (remove_one f (filter_list s));
  sub_accepts := fun topic s => existsb (fun f => bool_decide (f `prefix_of` topic)) (filter_list s);
|}.

Lemma remove_one_perm f fs fs' : fs ≡ₚ f :: fs' -> remove_one f fs ≡ₚ fs'.
Proof.
  revert fs'; induction fs as [|g fs IH]; intros fs' Hp; simpl.
  - by apply Permutation_nil_cons in Hp.
  - case_bool_decide as Heq; [subst; by apply Permutation_cons_inv in Hp|].
    assert (Hin : g ∈ fs').
    { assert (Hg : g ∈ f :: fs') by (rewrite <- Hp; by left). apply elem_of_cons in Hg as [->|?]; done. }
    apply elem_of_Permutation in Hin as (fs'' & Hp'). rewrite Hp' in *.
    constructor. apply IH. apply (Permutation_cons_inv (a:=g)). rewrite Hp. constructor.
Qed.

#[export] Program Instance FilterList_laws : SubSocketLaws FilterList := {|
  sub_filters := filter_list;
|}.
Next Obligation.
  intros topic s. simpl. rewrite existsb_exists. split.
  - intros (f & Hin & Hf). exists f. split; [by apply list_elem_of_In|by apply bool_decide_eq_true in Hf].
  - intros (f & Hin & Hf). exists f. split; [by apply list_elem_of_In|by apply bool_decide_eq_true].
Qed.
Next Obligation. done. Qed.
Next Obligation. intros f s fs Hp. by apply remove_one_perm. Qed.

(** * [ZmqFeedHandler] *)

Module ZmqFeedHandler.
Import IFeedHandler.

(** [receiver_thread_] of the base class, and whether the socket is open. *)
Record t := Make {
  receiver_thread_ : Thread.t;
  handle : bool;                       (* multicast_sub_.handle() != nullptr *)
}.

(** The two constructors: one connects a socket of its own, the other takes over an
    open socket and still creates a context. When the body throws, the members that
    exist are destroyed, a socket taken over included. *)
Definition make (multicast_address : list byte) : Sys t :=
  _ ← zmq_call (ZmqContext Subscriber);
  on_throw (quiet_call (ZmqContextDtor Subscriber)) (
    _ ← zmq_call (ZmqSocket Subscriber);
    on_throw (quiet_call (ZmqSocketDtor Subscriber)) (
      _ ← zmq_call (ZmqConnect Subscriber multicast_address);
      _ ← zmq_call (ZmqSet Subscriber (RcvTimeo 1000));
      sys_ret (Make Thread.NotJoinable true))).

Definition make_from_socket : Sys t :=
  _ ← zmq_call (ZmqContext Subscriber);
  on_throw (quiet_call (ZmqContextDtor Subscriber)) (
    on_throw (quiet_call (ZmqSocketDtor Subscriber)) (
      _ ← zmq_call (ZmqSet Subscriber (RcvTimeo 200));
      sys_ret (Make Thread.NotJoinable true))).

(** The destructor: [set] may throw in it. *)
Definition destroy (h : t) : Sys () := noexcept (
  _ ← stop_thread (receiver_thread_ h);
  _ ← (if handle h then (_ ← zmq_call (ZmqSet Subscriber (Linger 0)); quiet_call (ZmqClose Subscriber))
       else sys_ret tt);
  _ ← quiet_call (ZmqSocketDtor Subscriber);
  quiet_call (ZmqContextDtor Subscriber)).

Section Subscriptions.
Context {S : Type} `{SubSocket S}.

(** [std::string_view] to [std::string], and a literal before it. *)
Definition q_topic (symbol : list byte) : list byte := [x51; x3a] ++ symbol.
Definition t_topic (symbol : list byte) : list byte := [x54; x3a] ++ symbol.

Definition subscribe_impl (symbol : list byte) (multicast_sub : S) : S :=
  sub_subscribe (t_topic symbol) (sub_subscribe (q_topic symbol) multicast_sub).
Definition unsubscribe_impl (symbol : list byte) (multicast_sub : S) : S :=
  sub_unsubscribe (t_topic symbol) (sub_unsubscribe (q_topic symbol) multicast_sub).
End Subscriptions.

Section Loop.
Context {C : Type} (cbs : callbacks C).

(** What [recv] does: it times out, throws [zmq::error_t] with an error number, or
    receives a frame, which [rcvmore] says is or is not the message's last. *)
Inductive recv_result := TimedOut | Error (num : Z) | Frame (bytes : list byte) (rcvmore : bool).

(** [ETERM] and [ENOTSOCK] of the library. *)
Definition fatal (num : Z) : bool := (num =? 156384765) || (num =? 88).

(** The body of the loop: the client's state, and whether the loop goes on. *)
Definition receive (clock : Z) (topic payload : recv_result) (c : C) : C * bool :=
  match topic with
  | TimedOut => (c, true)
  | Error num => (c, negb (fatal num))
  | Frame topic_msg false => (c, true)
  | Frame topic_msg true =>
      match payload with
      | TimedOut => (c, true)
      | Error num => (c, negb (fatal num))
      | Frame payload_msg _ =>
          if (length topic_msg <? 1)%nat then (c, true)
          else
            let type := default x00 (topic_msg !! 0%nat) in
            if bool_decide (type = x51) && (length payload_msg =? sizeof Quote.t)%nat
            then (deliver_quote cbs clock (of_obj payload_msg) c, true)
            else if bool_decide (type = x54) && (length payload_msg =? sizeof Trade.t)%nat
            then (deliver_trade cbs clock (of_obj payload_msg) c, true)
            else (c, true)
      end
  end.

(** One turn of [while (!st.stop_requested())]: whether stop has been requested by
    its test, and what the two [recv]s do. *)
Record turn := Turn { stop_requested : bool; recv_topic : recv_result; recv_payload : recv_result; clock : Z }.

Inductive outcome := Stopped (c : C) | Broken (c : C) | Looping (c : C).

Fixpoint receive_loop_impl (turns : list turn) (c : C) : outcome :=
  match turns with
  | [] => Looping c
  | t :: turns' =>
      if stop_requested t then Stopped c
      else
        let '(c', continue) := receive (clock t) (recv_topic t) (recv_payload t) c in
        if continue then receive_loop_impl turns' c' else Broken c'
  end.
End Loop.
#[global] Arguments outcome C : clear implicits.
End ZmqFeedHandler.
Import ZmqFeedHandler.

(** * What a two-part message means *)

Definition parse_frames (topic payload : list byte) : option MarketDataMsg :=
  match topic with
  | ty :: _ =>
      if bool_decide (ty = x51) && (length payload =? 48)%nat then Some (QuoteMsg (of_obj payload))
      else if bool_decide (ty = x54) && (length payload =? 40)%nat then Some (TradeMsg (of_obj payload))
      else None
  | [] => None
  end.

(** The message a turn delivers, if it does. *)
Definition turn_message (t : turn) : option MarketDataMsg :=
  match recv_topic t, recv_payload t with
  | Frame topic true, Frame payload _ => parse_frames topic payload
  | _, _ => None
  end.

(** A turn that ends the loop: the context or the socket is gone. *)
Definition turn_fatal (t : turn) : bool :=
  match recv_topic t, recv_payload t with
  | Error num, _ => fatal num
  | Frame _ true, Error num => fatal num
  | _, _ => false
  end.

Definition turn_show {C} (cbs : IFeedHandler.callbacks C) (c : C) (t : turn) : C :=
  match turn_message t with Some m => deliver cbs (clock t) m c | None => c end.

(** * Proofs *)

Lemma receive_spec {C} (cbs : IFeedHandler.callbacks C) t c :
  receive cbs (clock t) (recv_topic t) (recv_payload t) c = (turn_show cbs c t, negb (turn_fatal t)).
Proof.
  unfold turn_show, turn_message, turn_fatal, receive.
  destruct (recv_topic t) as [|n|topic []]; try done.
  destruct (recv_payload t) as [|n|payload more]; try done.
  destruct topic as [|ty topic]; simpl; [done|].
  change (sizeof Quote.t) with 48%nat. change (sizeof Trade.t) with 40%nat.
  repeat (destruct (bool_decide _ && _); simpl; [done|]). done.
Qed.

Definition subscribed {S} `{SubSocket S} (symbols : list (list byte)) (s : S) : S :=
  foldl (fun s symbol => subscribe_impl symbol s) s symbols.

Section Filters.
Context {S : Type} `{SubSocketLaws S}.
Implicit Types (s : S).

Lemma subscribe_filters symbol s :
  sub_filters (subscribe_impl symbol s) ≡ₚ q_topic symbol :: t_topic symbol :: sub_filters s.
Proof using All.
  unfold subscribe_impl. rewrite sub_subscribe_spec, sub_subscribe_spec. constructor.
Qed.

Lemma subscribed_filters symbols s f :
  f ∈ sub_filters (subscribed symbols s) <->
  f ∈ sub_filters s \/ exists symbol, symbol ∈ symbols /\ (f = q_topic symbol \/ f = t_topic symbol).
Proof using All.
  revert s; induction symbols as [|symbol symbols IH]; intros s; simpl.
  - split; [by left|]. intros [?|(? & Hn & _)]; [done|]. by apply elem_of_nil in Hn.
  - rewrite IH, subscribe_filters, !elem_of_cons. split.
    + intros [[?|[?|?]]|(sy & Hsy & Hf)]; [right; exists symbol; rewrite elem_of_cons; tauto..|by left|].
      right. exists sy. rewrite elem_of_cons. tauto.
    + intros [?|(sy & [->|Hsy]%elem_of_cons & Hf)]; [tauto|tauto|]. right. by exists sy.
Qed.

Lemma topic_prefix m symbol :
  (q_topic symbol `prefix_of` header m \/ t_topic symbol `prefix_of` header m) <->
  symbol `prefix_of` msg_symbol m.
Proof using Type.
  unfold header, q_topic, t_topic. split.
  - intros [Hp|Hp]; by do 2 apply prefix_cons_inv_2 in Hp.
  - intros Hp. destruct m; [left|right]; by do 2 apply prefix_cons.
Qed.
End Filters.

(** * Proofs: constructors and destructor *)

Section Lifetime.
Context (sys : list syscall -> syscall -> Z).
Implicit Types (R : gset resource).

Lemma zmq_handler_make addr R : Ctx Subscriber ∉ R -> ZSock Subscriber ∉ R ->
  triple sys R (make addr)
    (fun h R' => R' = zmq_members Subscriber R /\ handle h = true /\
                 receiver_thread_ h = Thread.NotJoinable)
    (fun e R' => zmq_error e /\ R' = R).
Proof.
  intros Hc Hs. apply triple_zmq_members; [done..|].
  apply triple_bind, triple_zmq_option; [done|]. apply triple_bind, triple_zmq_option; [done|].
  by apply triple_ret.
Qed.

(** The constructor that takes a socket over: the socket is among the resources at
    the start, and is given back if the constructor throws in its body. *)
Lemma zmq_handler_make_from_socket R : Ctx Subscriber ∉ R ->
  triple sys ({[ZSock Subscriber]} ∪ R) make_from_socket
    (fun h R' => R' = ({[Ctx Subscriber]} ∪ ({[ZSock Subscriber]} ∪ R)) /\ handle h = true)
    (fun e R' => zmq_error e /\ (R' = ({[ZSock Subscriber]} ∪ R) \/ R' = (R ∖ {[ZSock Subscriber]}))).
Proof.
  intros Hc. unfold make_from_socket. apply triple_bind, triple_zmq.
  { intros num Hn. simpl. rewrite (proj2 (Z.eqb_neq _ _) Hn). split; [by exists num|by left]. }
  apply triple_on_throw, triple_on_throw, triple_bind, triple_zmq; [|by apply triple_ret].
  intros num Hn. apply triple_quiet. intros ?. apply triple_quiet. intros ?.
  split; [by exists num|right]. simpl. set_solver.
Qed.

(** [set] in the destructor is the only call that can end the program. *)
Lemma zmq_handler_destroy h R :
  triple sys R (destroy h) (fun _ R' => R' = (R ∖ {[ZSock Subscriber; Ctx Subscriber]}))
    (fun e _ => e = Terminate).
Proof.
  unfold destroy. apply triple_noexcept, triple_bind, triple_stop_thread, triple_bind.
  destruct (handle h); [apply triple_bind, triple_zmq; [done|]; apply triple_quiet; intros ?|apply triple_ret];
    apply triple_zmq_release; simpl; clear; set_solver.
Qed.
End Lifetime.

(** * Properties *)

(** C32: what the receive loop shows its client is the fold of its turns: a turn
    delivers the message of a complete two-part message whose type and payload size
    agree and nothing else; a timeout, an incomplete message or a recoverable error
    is skipped. The loop ends at the first turn whose test sees a stop request, or
    with the first one that finds the context or the socket gone, and at no other. *)
Theorem zmq_receive_exact {C} (cbs : IFeedHandler.callbacks C) (turns : list turn) (c : C) :
  exists done rest, turns = done ++ rest /\ Forall (fun t => stop_requested t = false) done /\
    match receive_loop_impl cbs turns c with
    | Stopped c' => c' = foldl (turn_show cbs) c done /\ Forall (fun t => turn_fatal t = false) done /\
        exists t rest', rest = t :: rest' /\ stop_requested t = true
    | Broken c' => c' = foldl (turn_show cbs) c done /\
        exists t done', done = done' ++ [t] /\ Forall (fun t => turn_fatal t = false) done' /\ turn_fatal t = true
    | Looping c' => c' = foldl (turn_show cbs) c done /\ Forall (fun t => turn_fatal t = false) done /\ rest = []
    end.
Proof.
  revert c; induction turns as [|t turns IH]; intros c; simpl; [by exists [], []|].
  destruct (stop_requested t) eqn:Hst; [exists [], (t :: turns); split_and!; [done..|by exists t, turns]|].
  rewrite receive_spec. destruct (turn_fatal t) eqn:Hf; simpl.
  - exists [t], turns. split_and!; [done|by apply Forall_singleton|done|by exists t, []].
  - destruct (IH (turn_show cbs c t)) as (dn & rest & -> & Hdn & Hrest). exists (t :: dn), rest.
    split_and!; [done|by constructor|]. destruct (receive_loop_impl _ _ _).
    + destruct Hrest as (-> & ? & ?). split_and!; [done|by constructor|done].
    + destruct Hrest as (-> & t' & dn' & -> & ? & ?). split; [done|]. exists t', (t :: dn').
      split_and!; [done|by constructor|done].
    + destruct Hrest as (-> & ? & ?). split_and!; [done|by constructor|done].
Qed.

(** Unsubscribing undoes one subscription, whatever else is subscribed: the
    socket then accepts what it accepted before. *)
Theorem zmq_unsubscribe_undoes {S} `{SubSocketLaws S} (symbol : list byte) (s : S) (topic : list byte) :
  sub_accepts topic (unsubscribe_impl symbol (subscribe_impl symbol s)) = sub_accepts topic s.
Proof.
  apply eq_true_iff_eq. rewrite !sub_accepts_spec.
  assert (Hp : sub_filters (unsubscribe_impl symbol (subscribe_impl symbol s)) ≡ₚ sub_filters s).
  { unfold unsubscribe_impl. apply sub_unsubscribe_spec, sub_unsubscribe_spec, subscribe_filters. }
  by setoid_rewrite Hp.
Qed.
