(* ===== verification/LatencyMonitor.v ===== *)
(** [src/monitor/LatencyMonitor.h]: the latencies of each message and the CSV files
    they are saved to. *)

From Stdlib Require Import String.
From S2P Require Import Prelude Types Threads Calls RandomWalkGenerator.
From stdpp Require Import options.

(** A string literal as its characters. *)
Definition chars (s : string) : list byte := String.list_byte_of_string s.

(** * Decimal output *)

Definition digit (d : Z) : byte := byte_of_Z (48 + d).

(** [operator<<] of a [uint64_t]: its decimal digits; it has at most twenty. *)
Fixpoint digits (fuel : nat) (n : Z) : list byte :=
  match fuel with
  | O => []
  | S fuel' => if n <? 10 then [digit n] else digits fuel' (n / 10) ++ [digit (n mod 10)]
  end.

Definition print_u64 (n : Z) : list byte := digits 20 n.

Record LatencyRecord := Latency { queue_ns : Z; network_ns : Z; total_ns : Z }.

#[export] Instance LatencyRecord_eq_dec : EqDecision LatencyRecord.
Proof. solve_decision. Defined.

Module LatencyMonitor.

Record t := Make {
  out_dir_ : list byte;
  quote_latencies_ : list LatencyRecord;
  trade_latencies_ : list LatencyRecord;
}.

Definition init (out_dir : list byte) : t := Make out_dir [] [].

(** The constructor: the [reserve]s are no part of the vectors' values; the
    directory is created if it does not exist. Both calls of the file system may
    throw, which a negative result stands for. *)
Definition make (preallocate_count : Z) (out_dir : list byte) : Sys t :=
  exists_ ← sys_call (PathExists out_dir);
  _ ← throw_if (exists_ <? 0) FilesystemError;
  if exists_ =? 0 then
    created ← sys_call (CreateDirectories out_dir);
    _ ← throw_if (created <? 0) FilesystemError;
    sys_ret (init out_dir)
  else sys_ret (init out_dir).

(** The subtractions of [uint64_t]. *)
Definition latency (enqueue disseminate receive_timestamp : Z) : LatencyRecord :=
  Latency (u64 (disseminate - enqueue)) (u64 (receive_timestamp - disseminate)) (u64 (receive_timestamp - enqueue)).

Definition on_quote (quote : Quote.t) (receive_timestamp : Z) (m : t) : t :=
  Make (out_dir_ m)
       (quote_latencies_ m ++
          [latency (Quote.enqueue_timestamp quote) (Quote.disseminate_timestamp quote) receive_timestamp])
       (trade_latencies_ m).

Definition on_trade (trade : Trade.t) (receive_timestamp : Z) (m : t) : t :=
  Make (out_dir_ m) (quote_latencies_ m)
       (trade_latencies_ m ++
          [latency (Trade.enqueue_timestamp trade) (Trade.disseminate_timestamp trade) receive_timestamp]).

Definition csv_header : list byte := chars "queue_ns,network_ns,total_ns" ++ [SymbolsFile.newline].

Definition csv_line (lat : LatencyRecord) : list byte :=
  print_u64 (queue_ns lat) ++ chars "," ++ print_u64 (network_ns lat) ++ chars "," ++
  print_u64 (total_ns lat) ++ [SymbolsFile.newline].

Definition csv (lats : list LatencyRecord) : list byte := csv_header ++ mjoin (csv_line <$> lats).

(** The files [save_to_csv] writes: path and contents. *)
Definition save_to_csv (m : t) : list (list byte * list byte) :=
  [(out_dir_ m ++ chars "/quote_latencies.csv", csv (quote_latencies_ m));
   (out_dir_ m ++ chars "/trade_latencies.csv", csv (trade_latencies_ m))].

(** The destructor. *)
Definition destroy (m : t) : list (list byte * list byte) := save_to_csv m.
End LatencyMonitor.
Import LatencyMonitor.

(** * Reading a CSV file back *)

Definition digit_value (b : byte) : Z := byte_to_Z b - 48.
Definition parse_decimal (bs : list byte) : Z := foldl (fun a b => 10 * a + digit_value b) 0 bs.

Definition comma : byte := x2c.

(** The comma-separated fields of a line. *)
Fixpoint split_commas (bs : list byte) : list (list byte) :=
  match bs with
  | [] => [[]]
  | b :: bs' =>
      if bool_decide (b = comma) then [] :: split_commas bs'
      else match split_commas bs' with [] => [[b]] | f :: fs => (b :: f) :: fs end
  end.

Definition parse_line (line : list byte) : option LatencyRecord :=
  match split_commas line with
  | [a; b; c] => Some (Latency (parse_decimal a) (parse_decimal b) (parse_decimal c))
  | _ => None
  end.

Definition parse_csv (file : list byte) : option (list LatencyRecord) :=
  match SymbolsFile.getlines file with
  | [] => None
  | _ :: lines => mapM parse_line lines
  end.

(** * Proofs *)

Definition is_digit (b : byte) : Prop := 48 <= byte_to_Z b < 58.

Lemma digit_is_digit d : 0 <= d < 10 -> is_digit (digit d) /\ digit_value (digit d) = d.
Proof. intros H. unfold is_digit, digit_value, digit. rewrite byte_to_of_Z, Z.mod_small by lia. lia. Qed.

Lemma digits_spec fuel n : 0 <= n < 10 ^ Z.of_nat fuel ->
  Forall is_digit (digits fuel n) /\ parse_decimal (digits fuel n) = n.
Proof.
  revert n; induction fuel as [|fuel IH]; intros n Hn; simpl; [simpl in Hn; split; [done|unfold parse_decimal; simpl; lia]|].
  rewrite Nat2Z.inj_succ, Z.pow_succ_r in Hn by lia.
  destruct (Z.ltb_spec n 10) as [Hlt|Hge].
  - destruct (digit_is_digit n ltac:(lia)) as [Hd Hv]. split; [by constructor|].
    unfold parse_decimal. simpl. by rewrite Hv.
  - pose proof (Z.mod_pos_bound n 10 eq_refl) as Hmod.
    destruct (IH (n / 10)) as [Hf Hp].
    { split; [by apply Z.div_pos; lia|]. apply Z.div_lt_upper_bound; lia. }
    destruct (digit_is_digit (n mod 10) Hmod) as [Hd Hv]. split.
    + apply Forall_app. split; [done|by constructor].
    + unfold parse_decimal in *. rewrite foldl_app, Hp. simpl. rewrite Hv. pose proof (Z.div_mod n 10). lia.
Qed.

Lemma print_u64_spec n : is_u64 n -> Forall is_digit (print_u64 n) /\ parse_decimal (print_u64 n) = n.
Proof. intros [H0 H1]. apply digits_spec. simpl. lia. Qed.

Lemma is_digit_not b c : is_digit b -> ~ is_digit c -> b <> c.
Proof. by intros Hb Hc ->. Qed.

Lemma split_commas_field f rest : Forall is_digit f ->
  split_commas (f ++ comma :: rest) = f :: split_commas rest.
Proof.
  induction 1 as [|b f Hb _ IH]; simpl; [done|].
  rewrite bool_decide_eq_false_2; [by rewrite IH|]. apply (is_digit_not _ _ Hb). by intros [].
Qed.

Lemma split_commas_last f : Forall is_digit f -> split_commas f = [f].
Proof.
  induction 1 as [|b f Hb _ IH]; simpl; [done|].
  rewrite bool_decide_eq_false_2; [by rewrite IH|]. apply (is_digit_not _ _ Hb). by intros [].
Qed.

Definition latency_ok (lat : LatencyRecord) : Prop :=
  is_u64 (queue_ns lat) /\ is_u64 (network_ns lat) /\ is_u64 (total_ns lat).

(** A line without its end. *)
Definition csv_fields (lat : LatencyRecord) : list byte :=
  print_u64 (queue_ns lat) ++ comma :: print_u64 (network_ns lat) ++ comma :: print_u64 (total_ns lat).

Lemma csv_line_fields lat : csv_line lat = csv_fields lat ++ [SymbolsFile.newline].
Proof.
  unfold csv_line, csv_fields, chars. simpl. rewrite <- app_assoc. simpl. by rewrite <- app_assoc.
Qed.

Lemma csv_fields_no_newline lat : latency_ok lat -> Forall (fun b => b <> SymbolsFile.newline) (csv_fields lat).
Proof.
  intros (Hq & Hn & Ht). unfold csv_fields.
  assert (Hd : forall n, is_u64 n -> Forall (fun b => b <> SymbolsFile.newline) (print_u64 n)).
  { intros n Hn'. eapply Forall_impl; [apply (print_u64_spec n Hn')|]. intros b Hb.
    apply (is_digit_not _ _ Hb). by intros []. }
  repeat (apply Forall_app; split; [by apply Hd|]; apply Forall_cons; split; [done|]). by apply Hd.
Qed.

Lemma parse_csv_fields lat : latency_ok lat -> parse_line (csv_fields lat) = Some lat.
Proof.
  intros (Hq & Hn & Ht). unfold parse_line, csv_fields.
  destruct (print_u64_spec _ Hq) as [Fq Pq], (print_u64_spec _ Hn) as [Fn Pn], (print_u64_spec _ Ht) as [Ft Pt].
  rewrite !split_commas_field, split_commas_last by done. rewrite Pq, Pn, Pt. by destruct lat.
Qed.

Lemma parse_lines lats : Forall latency_ok lats ->
  mapM parse_line (SymbolsFile.getlines (mjoin (csv_line <$> lats))) = Some lats.
Proof.
  induction 1 as [|lat lats Hlat _ IH]; [done|]. simpl.
  rewrite csv_line_fields, <- app_assoc. simpl.
  rewrite getlines_line by by apply csv_fields_no_newline. simpl.
  rewrite parse_csv_fields by done.
  change ((mapM parse_line (SymbolsFile.getlines (mjoin (csv_line <$> lats))) ≫= fun ls => Some (lat :: ls)) =
          Some (lat :: lats)).
  by rewrite IH.
Qed.

Lemma parse_csv_csv lats : Forall latency_ok lats -> parse_csv (csv lats) = Some lats.
Proof.
  intros H. unfold parse_csv, csv, csv_header. rewrite <- app_assoc.
  change ([SymbolsFile.newline] ++ ?l) with (SymbolsFile.newline :: l).
  rewrite getlines_line by by apply (bool_decide_unpack _). by apply parse_lines.
Qed.

Lemma latency_is_ok e d r : latency_ok (latency e d r).
Proof. split_and!; apply u64_range. Qed.

(** What [deliver_to_client] shows the monitor. *)
Definition observe (m : t) (o : MarketDataMsg * Z) : t :=
  match o.1 with QuoteMsg q => on_quote q o.2 m | TradeMsg x => on_trade x o.2 m end.

Definition monitor_ok (m : t) : Prop := Forall latency_ok (quote_latencies_ m) /\ Forall latency_ok (trade_latencies_ m).

Lemma observe_ok m o : monitor_ok m -> monitor_ok (observe m o).
Proof.
  intros [Hq Ht]. unfold observe. destruct o as [[q|x] ts]; split; simpl; try done;
    (apply Forall_app; split; [done|]; constructor; [apply latency_is_ok|done]).
Qed.

Lemma observations_ok ds m : monitor_ok m -> monitor_ok (foldl observe m ds).
Proof. revert m; induction ds as [|o ds IH]; intros m Hm; simpl; [done|]. by apply IH, observe_ok. Qed.

(** The record of a delivery, in the file of quotes or in that of trades. *)
Definition quote_row (o : MarketDataMsg * Z) : option LatencyRecord :=
  match o.1 with
  | QuoteMsg q => Some (latency (Quote.enqueue_timestamp q) (Quote.disseminate_timestamp q) o.2)
  | TradeMsg _ => None
  end.
Definition trade_row (o : MarketDataMsg * Z) : option LatencyRecord :=
  match o.1 with
  | TradeMsg x => Some (latency (Trade.enqueue_timestamp x) (Trade.disseminate_timestamp x) o.2)
  | QuoteMsg _ => None
  end.

Lemma observe_rows ds m :
  quote_latencies_ (foldl observe m ds) = quote_latencies_ m ++ omap quote_row ds /\
  trade_latencies_ (foldl observe m ds) = trade_latencies_ m ++ omap trade_row ds.
Proof.
  split; [apply (foldl_appends observe quote_latencies_)|apply (foldl_appends observe trade_latencies_)];
    by intros m' [[] ?]; simpl; rewrite ?app_nil_r.
Qed.

(** What the files hold after any deliveries. *)
Lemma saved_rows out_dir ds :
  (fun f => parse_csv f.2) <$> save_to_csv (foldl observe (init out_dir) ds) =
  [Some (omap quote_row ds); Some (omap trade_row ds)].
Proof.
  destruct (observations_ok ds (init out_dir)) as [Hq Ht]; [done|].
  unfold save_to_csv. simpl. rewrite !parse_csv_csv by done. destruct (observe_rows ds (init out_dir)) as [-> ->]. done.
Qed.

(** The constructor holds nothing, and throws nothing but what the file system
    throws. *)
Lemma monitor_make sys count out_dir R :
  triple sys R (make count out_dir) (fun m R' => m = init out_dir /\ R' = R)
    (fun e R' => e = FilesystemError /\ R' = R).
Proof.
  unfold make. apply triple_bind, triple_call. intros v. apply triple_bind, triple_throw_if; [done|intros _].
  destruct (v =? 0); [|by apply triple_ret]. apply triple_bind, triple_call. intros v'.
  apply triple_bind, triple_throw_if; [done|intros _]. by apply triple_ret.
Qed.

(** * Properties *)

(** The three latencies of a record add up, modulo [2 ^ 64], for any
    timestamps; when the clock readings are in order, the record holds the true
    differences, which add up exactly. *)
Theorem latency_adds_up (e d r : Z) :
  total_ns (latency e d r) = u64 (queue_ns (latency e d r) + network_ns (latency e d r)) /\
  (is_u64 e -> is_u64 d -> is_u64 r -> e <= d <= r ->
   latency e d r = Latency (d - e) (r - d) (r - e) /\
   total_ns (latency e d r) = queue_ns (latency e d r) + network_ns (latency e d r)).
Proof.
  split.
  - simpl. rewrite u64_add_l, u64_add_r. f_equal. lia.
  - unfold is_u64. intros He Hd Hr Hord. unfold latency. rewrite !u64_small by lia. simpl. split; [done|lia].
Qed.

Lemma latency_adds_up_witness :
  total_ns (latency 100 250 900) = u64 (queue_ns (latency 100 250 900) + network_ns (latency 100 250 900)) /\
  latency 100 250 900 = Latency 150 650 800 /\
  total_ns (latency 100 250 900) = queue_ns (latency 100 250 900) + network_ns (latency 100 250 900).
Proof.
  destruct (latency_adds_up 100 250 900) as [H1 H2]. split; [exact H1|].
  apply H2; unfold is_u64; lia.
Defined.

(** Round trip. The files [save_to_csv] writes after any deliveries parse back
    to the recorded latencies: one record per delivered quote in the first file and
    per delivered trade in the second, in order. *)
Theorem csv_roundtrip (out_dir : list byte) (deliveries : list (MarketDataMsg * Z)) :
  let m := foldl observe (init out_dir) deliveries in
  (fun f => parse_csv f.2) <$> save_to_csv m = [Some (quote_latencies_ m); Some (trade_latencies_ m)] /\
  quote_latencies_ m =
    omap (fun o => match o.1 with
                   | QuoteMsg q => Some (latency (Quote.enqueue_timestamp q) (Quote.disseminate_timestamp q) o.2)
                   | TradeMsg _ => None end) deliveries /\
  trade_latencies_ m =
    omap (fun o => match o.1 with
                   | TradeMsg x => Some (latency (Trade.enqueue_timestamp x) (Trade.disseminate_timestamp x) o.2)
                   | QuoteMsg _ => None end) deliveries.
Proof.
  intros m. destruct (observe_rows deliveries (init out_dir)) as [Hq Ht]. subst m.
  rewrite saved_rows, Hq, Ht. by split_and!.
Qed.
