(* ===== verification/Main.v ===== *)
(** [src/utils/config.h] and [src/main.cpp]: the configuration, the dispatch to a
    queue and a transport, and the life of the pipeline's threads in
    [run_benchmark_pipeline]. *)

From Stdlib Require Import String.
From S2P Require Import Prelude Types Threads Calls BaseGenerator RandomWalkGenerator LatencyMonitor.
From stdpp Require Import options.

(** * [config.h] *)

Inductive QueueWaitStrategy := Spin | Waitable.
Inductive TransportProtocol := UdpMulticast | Zmq.
Inductive UnderlyingQueue := Custom | Boost.

Record BenchmarkConfig := Config {
  queue_strategy : QueueWaitStrategy;
  transport : TransportProtocol;
  underlying_queue : UnderlyingQueue;
  queue_size : Z;                     (* std::size_t *)
  message_rate : Z;                   (* uint32_t *)
  duration_sec : Z;                   (* uint32_t *)
  ip_address : list byte;
  port : Z;                           (* unsigned short *)
  symbols_file : list byte;
  out_dir : list byte;
}.

Definition default_config : BenchmarkConfig :=
  Config Spin UdpMulticast Custom 1024 10000 10 (chars "239.192.1.1") 5555 (chars "tickers.txt") (chars "../data").

(** * Dispatch *)

(** The types [dispatch_types] instantiates and the addresses it builds. *)
Inductive endpoints := UdpEndpoints (ip : list byte) (port : Z) | ZmqEndpoints (address : list byte).
Record pipeline := Pipeline { size : Z; base : UnderlyingQueue; wait : QueueWaitStrategy; ends : endpoints }.

(** [std::to_string] of an [unsigned short]. *)
Definition zmq_bind (config : BenchmarkConfig) : list byte :=
  chars "tcp://127.0.0.1:" ++ print_u64 (port config).

Definition dispatch_types (Size : Z) (config : BenchmarkConfig) : pipeline :=
  match underlying_queue config with
  | Custom =>
      match queue_strategy config with
      | Spin =>
          match transport config with
          | UdpMulticast => Pipeline Size Custom Spin (UdpEndpoints (ip_address config) (port config))
          | Zmq => Pipeline Size Custom Spin (ZmqEndpoints (zmq_bind config))
          end
      | Waitable =>
          match transport config with
          | UdpMulticast => Pipeline Size Custom Waitable (UdpEndpoints (ip_address config) (port config))
          | Zmq => Pipeline Size Custom Waitable (ZmqEndpoints (zmq_bind config))
          end
      end
  | Boost =>
      match queue_strategy config with
      | Spin =>
          match transport config with
          | UdpMulticast => Pipeline Size Boost Spin (UdpEndpoints (ip_address config) (port config))
          | Zmq => Pipeline Size Boost Spin (ZmqEndpoints (zmq_bind config))
          end
      | Waitable =>
          match transport config with
          | UdpMulticast => Pipeline Size Boost Waitable (UdpEndpoints (ip_address config) (port config))
          | Zmq => Pipeline Size Boost Waitable (ZmqEndpoints (zmq_bind config))
          end
      end
  end.

Definition dispatch_size (config : BenchmarkConfig) : exn + pipeline :=
  if queue_size config =? 128 then inr (dispatch_types 128 config)
  else if queue_size config =? 512 then inr (dispatch_types 512 config)
  else if queue_size config =? 1024 then inr (dispatch_types 1024 config)
  else if queue_size config =? 4096 then inr (dispatch_types 4096 config)
  else if queue_size config =? 16384 then inr (dispatch_types 16384 config)
  else if queue_size config =? 65536 then inr (dispatch_types 65536 config)
  else inl InvalidArgument.

(** * [main] *)

(** What [cxxopts] parsed; a command line it rejects makes it throw. *)
Record options := Options {
  help : bool;
  opt_queue : list byte;
  opt_size : Z;
  opt_transport : list byte;
  opt_rate : Z;
  opt_duration : Z;
  opt_symbols : list byte;
  opt_out : list byte;
  opt_underlying : list byte;
}.

(** The assignments to [config], in order. *)
Definition configure_main (o : options) : exn + BenchmarkConfig :=
  let strategy :=
    if bool_decide (opt_queue o = chars "spin") then inr Spin
    else if bool_decide (opt_queue o = chars "waitable") then inr Waitable
    else inl InvalidArgument in
  match strategy with
  | inl e => inl e
  | inr strategy =>
      let underlying :=
        if bool_decide (opt_underlying o = chars "custom") then inr Custom
        else if bool_decide (opt_underlying o = chars "boost") then inr Boost
        else inl InvalidArgument in
      match underlying with
      | inl e => inl e
      | inr underlying =>
          let protocol :=
            if bool_decide (opt_transport o = chars "udp") then inr UdpMulticast
            else if bool_decide (opt_transport o = chars "zmq") then inr Zmq
            else inl InvalidArgument in
          match protocol with
          | inl e => inl e
          | inr protocol =>
              inr (Config strategy protocol underlying (opt_size o) (opt_rate o) (opt_duration o)
                     (ip_address default_config) (port default_config) (opt_symbols o) (opt_out o))
          end
      end
  end.

(** How the process ends: [main] returns, or an exception leaves it. *)
Inductive exit := Return (code : Z) | Uncaught (e : exn).

(** [run] is the pipeline [dispatch_size] selects: it ends or throws. *)
Definition main (run : BenchmarkConfig -> pipeline -> option exn) (o : options) : exit :=
  if help o then Return 0
  else
    match configure_main o with
    | inl e => Uncaught e
    | inr config =>
        match dispatch_size config with
        | inl _ => Return 1
        | inr p =>
            match run config p with
            | Some Terminate => Uncaught Terminate
            | Some _ => Return 1
            | None => Return 0
            end
        end
    end.

(** * [run_benchmark_pipeline] *)

(** What the function does that the threads, the files or the clock see.
    [Subscribe] records whether the receiver thread runs. *)
Inductive action :=
  | ConfigureGenerator | StartFeedHandler | Subscribe (sym : list byte) (receiving : bool)
  | StartDisseminator | StartGenerator | StopGenerator | StopDisseminator | StopFeedHandler
  | Sleep (ms : Z) | SaveCsv.

Section Run.
Context {G : Type} `{RandomSource G}.

Record state := State {
  generator : RandomWalkGenerator.t G;
  worker : Thread.t;                  (* the disseminator's *)
  receiver : Thread.t;                (* the feed handler's *)
  monitor : LatencyMonitor.t;
  sub_count : Z;
  log : list action;
}.

Definition act (a : action) (s : state) : state :=
  State (generator s) (worker s) (receiver s) (monitor s) (sub_count s) (log s ++ [a]).
Definition set_generator (g : RandomWalkGenerator.t G) (s : state) : state :=
  State g (worker s) (receiver s) (monitor s) (sub_count s) (log s).
Definition set_worker (th : Thread.t) (s : state) : state :=
  State (generator s) th (receiver s) (monitor s) (sub_count s) (log s).
Definition set_receiver (th : Thread.t) (s : state) : state :=
  State (generator s) (worker s) th (monitor s) (sub_count s) (log s).

Definition stop_generator (g : RandomWalkGenerator.t G) : RandomWalkGenerator.t G :=
  RandomWalkGenerator.Make (BaseGenerator.stop (RandomWalkGenerator.base g)) (RandomWalkGenerator.symbols_ g)
    (RandomWalkGenerator.rng_ g) (RandomWalkGenerator.current_prices_ g).

(** One line of the symbols file. [sub_count] is an [int]; the file is too short
    for it to overflow. *)
Definition subscribe_line (line : list byte) (s : state) : state :=
  let sym := SymbolsFile.erase_if (fun b => bool_decide (b = SymbolsFile.carriage_return)) line in
  let sym := SymbolsFile.erase_if (fun b => bool_decide (b = SymbolsFile.newline)) sym in
  let sym := SymbolsFile.erase_if SymbolsFile.isspace sym in
  if negb (bool_decide (sym = [])) && (length sym <? 9)%nat then
    let s := act (Subscribe sym (Thread.joinable (receiver s))) s in
    State (generator s) (worker s) (receiver s) (monitor s) (sub_count s + 1) (log s)
  else s.

Definition subscribe_lines (file : option (list byte)) (s : state) : state :=
  foldl (fun s line => subscribe_line line s) s (SymbolsFile.getlines (default [] file)).

(** The capacity the monitor reserves: a product of two [uint32_t]. *)
Definition preallocate_count (config : BenchmarkConfig) : Z := u32 (message_rate config * duration_sec config).

(** The destructors of the locals, the last one first: of the generator, and of the
    monitor, which saves the files. *)
Definition unwind (s : state) : state :=
  act SaveCsv (set_generator (stop_generator (generator s)) s).

(** From the callbacks on. [file] is what the file system holds under
    [symbols_file]; the disseminator and the feed handler were constructed with no
    thread. *)
Definition pipeline_body (config : BenchmarkConfig) (file : option (list byte)) (rng : G)
    (monitor : LatencyMonitor.t) : state * option exn :=
  let s := State (RandomWalkGenerator.init rng) Thread.NotJoinable Thread.NotJoinable monitor 0 [] in
  let '(g, e) := RandomWalkGenerator.configure (message_rate config) file (generator s) in
  let s := act ConfigureGenerator (set_generator g s) in
  match e with
  | Some e => (unwind s, Some e)
  | None =>
      let s := act StartFeedHandler (set_receiver (Thread.start (receiver s)) s) in
      let s := subscribe_lines file s in
      let s := act StartDisseminator (set_worker (Thread.start (worker s)) s) in
      let s := act (Sleep 200) s in
      let '(g, e) := RandomWalkGenerator.start (generator s) in
      let s := act StartGenerator (set_generator g s) in
      match e with
      | Some e => (unwind s, Some e)
      | None =>
          let s := act (Sleep (1000 * duration_sec config)) s in
          let s := act StopGenerator (set_generator (stop_generator (generator s)) s) in
          let s := act (Sleep 1000) s in
          let s := act StopDisseminator (set_worker (Thread.stop (worker s)) s) in
          let s := act StopFeedHandler (set_receiver (Thread.stop (receiver s)) s) in
          (unwind s, None)
      end
  end.

(** An exception of the monitor's constructor leaves the function with nothing
    done; a later one leaves it with the state after the unwinding. *)
Definition run_benchmark_pipeline (config : BenchmarkConfig) (file : option (list byte)) (rng : G) :
    Sys (state * option exn) :=
  monitor ← LatencyMonitor.make (preallocate_count config) (out_dir config);
  sys_ret (pipeline_body config file rng monitor).
End Run.
#[global] Arguments state G : clear implicits.

(** * Proofs *)

(** The main program and the generator read the same symbols. *)
Lemma subscribe_lines_spec {G} file (s : state G) :
  let symbols := SymbolsFile.read_symbols_file file in
  generator (subscribe_lines file s) = generator s /\ worker (subscribe_lines file s) = worker s /\
  receiver (subscribe_lines file s) = receiver s /\ monitor (subscribe_lines file s) = monitor s /\
  sub_count (subscribe_lines file s) = sub_count s + Z.of_nat (length symbols) /\
  log (subscribe_lines file s) =
    log s ++ ((fun sym => Subscribe sym (Thread.joinable (receiver s))) <$> symbols).
Proof.
  unfold subscribe_lines, SymbolsFile.read_symbols_file. cbn zeta.
  generalize (SymbolsFile.getlines (default [] file)).
  intros lines. revert s. induction lines as [|line lines IH]; intros s.
  { simpl. rewrite app_nil_r, Z.add_0_r. by split_and!. }
  rewrite fmap_cons. cbn [foldl List.filter].
  destruct (IH (subscribe_line line s)) as (-> & -> & -> & -> & -> & ->).
  change (subscribe_line line s) with
    (if SymbolsFile.keep (SymbolsFile.clean line) then
       State (generator s) (worker s) (receiver s) (monitor s) (sub_count s + 1)
             (log s ++ [Subscribe (SymbolsFile.clean line) (Thread.joinable (receiver s))])
     else s).
  destruct (SymbolsFile.keep _); [|by split_and!].
  rewrite fmap_cons. cbn [length generator worker receiver monitor sub_count log].
  split_and!; try done; [lia|]. by rewrite <- app_assoc.
Qed.

(** The log of a complete run. *)
Definition complete_log (config : BenchmarkConfig) (symbols : list (list byte)) : list action :=
  [ConfigureGenerator; StartFeedHandler] ++ ((fun sym => Subscribe sym true) <$> symbols) ++
  [StartDisseminator; Sleep 200; StartGenerator; Sleep (1000 * duration_sec config); StopGenerator;
   Sleep 1000; StopDisseminator; StopFeedHandler; SaveCsv].

Lemma run_pipeline_none {G} `{RandomSource G} config file (rng : G) mon :
  0 < message_rate config -> SymbolsFile.read_symbols_file file <> [] ->
  exists s, pipeline_body config file rng mon = (s, None) /\
    worker s = Thread.NotJoinable /\ receiver s = Thread.NotJoinable /\
    BaseGenerator.generating_thread_ (RandomWalkGenerator.base (generator s)) = Thread.NotJoinable /\
    log s = complete_log config (SymbolsFile.read_symbols_file file) /\
    sub_count s = Z.of_nat (length (SymbolsFile.read_symbols_file file)) /\
    RandomWalkGenerator.symbols_ (generator s) = SymbolsFile.read_symbols_file file.
Proof.
  intros Hr Hs. unfold pipeline_body.
  destruct (configure_cases (message_rate config) file (RandomWalkGenerator.init rng) ltac:(lia))
    as [[? _]|[(_ & ? & _)|(_ & _ & E)]]; [lia|done|].
  cbn [generator]. rewrite E. cbv zeta.
  match goal with |- context [subscribe_lines file ?s0] =>
    destruct (subscribe_lines_spec file s0) as (Eg & Ew & Er & Em & Ec & El); set (s1 := subscribe_lines file s0) in * end.
  simpl in Eg, Ew, Er, Em, Ec, El.
  cbn [act set_worker generator]. rewrite Eg, start_rated by done.
  eexists. split; [done|]. simpl. rewrite Ew, Er, Ec, El. simpl. rewrite <- !app_assoc.
  split_and!; done.
Qed.

Lemma run_pipeline_throws {G} `{RandomSource G} config file (rng : G) mon e g :
  RandomWalkGenerator.configure (message_rate config) file (RandomWalkGenerator.init rng) = (g, Some e) ->
  BaseGenerator.generating_thread_ (RandomWalkGenerator.base g) = Thread.NotJoinable ->
  exists s, pipeline_body config file rng mon = (s, Some e) /\
    worker s = Thread.NotJoinable /\ receiver s = Thread.NotJoinable /\
    BaseGenerator.generating_thread_ (RandomWalkGenerator.base (generator s)) = Thread.NotJoinable /\
    log s = [ConfigureGenerator; SaveCsv].
Proof.
  intros Hc Hg. unfold pipeline_body. cbn [generator]. rewrite Hc.
  eexists. split; [done|]. simpl. rewrite Hg. by split_and!.
Qed.

Definition known {A} (names : list (list byte * A)) (s : list byte) : exn + A :=
  match list_find (fun p => p.1 = s) names with Some (_, (_, x)) => inr x | None => inl InvalidArgument end.

Lemma known_two {A} n1 n2 (x y : A) s :
  known [(n1, x); (n2, y)] s =
  if bool_decide (s = n1) then inr x else if bool_decide (s = n2) then inr y else inl InvalidArgument.
Proof.
  unfold known. simpl. destruct (decide (n1 = s)) as [->|H1]; [by rewrite bool_decide_eq_true_2|].
  rewrite (bool_decide_eq_false_2 (s = n1)) by congruence.
  destruct (decide (n2 = s)) as [->|H2]; [by rewrite bool_decide_eq_true_2|].
  by rewrite bool_decide_eq_false_2 by congruence.
Qed.

(** The pipeline the options name. *)
Definition selected (o : options) (config : BenchmarkConfig) : pipeline :=
  Pipeline (opt_size o) (underlying_queue config) (queue_strategy config)
    (match transport config with
     | UdpMulticast => UdpEndpoints (chars "239.192.1.1") 5555
     | Zmq => ZmqEndpoints (chars "tcp://127.0.0.1:5555")
     end).

Lemma dispatch_size_eq config :
  dispatch_size config =
  if bool_decide (queue_size config ∈ [128; 512; 1024; 4096; 16384; 65536])
  then inr (dispatch_types (queue_size config) config) else inl InvalidArgument.
Proof.
  unfold dispatch_size.
  repeat match goal with |- context [queue_size config =? ?n] =>
    destruct (Z.eqb_spec (queue_size config) n) as [E|?];
      [rewrite E, bool_decide_eq_true_2 by (rewrite !elem_of_cons; tauto); done|] end.
  rewrite bool_decide_eq_false_2; [done|]. rewrite !elem_of_cons, elem_of_nil. tauto.
Qed.

(** * Properties *)

(** What a run that got past the monitor's constructor leaves. *)
Definition lifecycle_ok {G} (config : BenchmarkConfig) (symbols : list (list byte)) (s : state G) (e : option exn) : Prop :=
  worker s = Thread.NotJoinable /\ receiver s = Thread.NotJoinable /\
  BaseGenerator.generating_thread_ (RandomWalkGenerator.base (generator s)) = Thread.NotJoinable /\
  match e with
  | None => 0 < message_rate config /\ symbols <> [] /\ log s = complete_log config symbols /\
      sub_count s = Z.of_nat (length symbols) /\ RandomWalkGenerator.symbols_ (generator s) = symbols
  | Some e => (message_rate config = 0 /\ e = InvalidArgument \/ symbols = [] /\ e = LogicError) /\
      log s = [ConfigureGenerator; SaveCsv]
  end.

Lemma pipeline_body_ok {G : Type} `{RandomSource G} config file (rng : G) mon : is_u32 (message_rate config) ->
  lifecycle_ok config (SymbolsFile.read_symbols_file file) (pipeline_body config file rng mon).1
    (pipeline_body config file rng mon).2.
Proof.
  intros [Hlo _]. unfold lifecycle_ok.
  destruct (configure_cases (message_rate config) file (RandomWalkGenerator.init rng) Hlo)
    as [[Hr E]|[(Hr & Hs & E)|(Hr & Hs & _)]].
  - destruct (run_pipeline_throws config file rng mon _ _ E eq_refl) as (s & -> & ? & ? & ? & ?). simpl. split_and!; auto.
  - destruct (run_pipeline_throws config file rng mon _ _ E eq_refl) as (s & -> & ? & ? & ? & ?). simpl. split_and!; auto.
  - destruct (run_pipeline_none config file rng mon Hr Hs) as (s & -> & ? & ? & ? & ? & ? & ?). simpl. by split_and!.
Qed.

(** C39: a run of the pipeline. If the output directory cannot be made, nothing has
    been done. If the generator's configuration throws, no thread has been started
    and the exception is passed on. Otherwise the threads start from the consumer to
    the producer and stop from the producer to the consumer, every configured symbol
    is subscribed once, in the generator's order and while the receiver thread runs,
    and at the end no thread runs. *)
Theorem pipeline_lifecycle {G : Type} `{RandomSource G} (config : BenchmarkConfig)
    (file : option (list byte)) (rng : G) (sys : list syscall -> syscall -> Z) (before : list syscall) :
  is_u32 (message_rate config) ->
  match (run_benchmark_pipeline config file rng sys before).2 with
  | inl e => e = FilesystemError
  | inr (s, e) => lifecycle_ok config (SymbolsFile.read_symbols_file file) s e
  end.
Proof.
  intros Hr. unfold run_benchmark_pipeline, mbind, sys_bind.
  pose proof (monitor_make sys (preallocate_count config) (out_dir config) (held sys before) before eq_refl) as Hm.
  destruct (LatencyMonitor.make _ _ sys before) as [log [e|mon]]; [by destruct Hm|]. simpl.
  pose proof (pipeline_body_ok config file rng mon Hr) as Hok.
  by destruct (pipeline_body config file rng mon).
Qed.

(** A file system in which the output directory exists. *)
Definition demo_sys : list syscall -> syscall -> Z := fun _ c => match c with PathExists _ => 1 | _ => 0 end.

Lemma pipeline_lifecycle_witness :
  match (run_benchmark_pipeline default_config (Some demo_file) (MkTape [] []) demo_sys []).2 with
  | inl e => e = FilesystemError
  | inr (s, e) => lifecycle_ok default_config (SymbolsFile.read_symbols_file (Some demo_file)) s e
  end.
Proof.
  apply (pipeline_lifecycle default_config (Some demo_file) (MkTape [] []) demo_sys []). split; vm_compute; done.
Defined.

(** The monitor's reservation covers the messages of a run, [rate * seconds],
    exactly while that product is below [2 ^ 32]: it is computed in 32 bits, and
    from there on what is reserved is less than one run generates. *)
Theorem preallocation_covers (config : BenchmarkConfig) :
  is_u32 (message_rate config) -> is_u32 (duration_sec config) ->
  message_rate config * duration_sec config <= preallocate_count config <->
  message_rate config * duration_sec config < 2 ^ 32.
Proof.
  intros [Hr _] [Hd _]. unfold preallocate_count.
  pose proof (u32_range (message_rate config * duration_sec config)).
  split; [lia|]. intros Hlt. rewrite u32_small; [lia|]. split; [by apply Z.mul_nonneg_nonneg|done].
Qed.

(** Half an hour at the rate of the throughput tests. *)
Definition long_config : BenchmarkConfig :=
  Config Spin UdpMulticast Custom 1024 3000000 1800 [] 5555 [] [].

Lemma preallocation_covers_witness :
  3000000 * 1800 <= preallocate_count long_config <-> 3000000 * 1800 < 2 ^ 32.
Proof. apply (preallocation_covers long_config); split; vm_compute; done. Defined.

(** C40: [main] returns 0, when not asked for help, exactly if the pipeline that ran
    to its end has one of the six queue sizes and the strategy, storage and
    transport the options name; any other size, and any exception of the pipeline,
    is reported with 1. A value it does not know throws outside the [try] block, so
    it ends the process instead, as does a destructor that lets an exception out. *)
Theorem main_dispatches (run : BenchmarkConfig -> pipeline -> option exn) (o : options) :
  help o = false ->
  match main run o with
  | Return code =>
      exists config, configure_main o = inr config /\
        known [(chars "spin", Spin); (chars "waitable", Waitable)] (opt_queue o) = inr (queue_strategy config) /\
        known [(chars "custom", Custom); (chars "boost", Boost)] (opt_underlying o) = inr (underlying_queue config) /\
        known [(chars "udp", UdpMulticast); (chars "zmq", Zmq)] (opt_transport o) = inr (transport config) /\
        let p := selected o config in
        code = if bool_decide (opt_size o ∈ [128; 512; 1024; 4096; 16384; 65536])
               then match run config p with Some _ => 1 | None => 0 end else 1
  | Uncaught e => e = InvalidArgument /\
      (known [(chars "spin", Spin); (chars "waitable", Waitable)] (opt_queue o) = inl e \/
       known [(chars "custom", Custom); (chars "boost", Boost)] (opt_underlying o) = inl e \/
       known [(chars "udp", UdpMulticast); (chars "zmq", Zmq)] (opt_transport o) = inl e) \/
      e = Terminate /\ exists config, configure_main o = inr config /\ run config (selected o config) = Some e
  end.
Proof.
  intros Hhelp. unfold main, configure_main. rewrite Hhelp, !known_two.
  destruct (if bool_decide (opt_queue o = _) then _ else _) as [e|strategy] eqn:Eq.
  { left. split; [|by left]. repeat case_bool_decide; congruence. }
  destruct (if bool_decide (opt_underlying o = _) then _ else _) as [e|storage] eqn:Eu.
  { left. split; [|by right; left]. repeat case_bool_decide; congruence. }
  destruct (if bool_decide (opt_transport o = _) then _ else _) as [e|protocol] eqn:Et.
  { left. split; [|by right; right]. repeat case_bool_decide; congruence. }
  set (config := Config _ _ _ _ _ _ _ _ _ _).
  assert (Hsel : dispatch_types (opt_size o) config = selected o config) by by destruct strategy, storage, protocol.
  rewrite dispatch_size_eq. change (queue_size config) with (opt_size o). rewrite Hsel.
  destruct (bool_decide (opt_size o ∈ _)); cbv beta iota; [|by exists config].
  destruct (run config (selected o config)) as [[]|] eqn:Er; try (exists config; by rewrite Er).
  right. split; [done|]. by exists config.
Qed.

Definition demo_options : options :=
  Options false (chars "waitable") 4096 (chars "zmq") 100000 10 (chars "s.txt") (chars "out") (chars "boost").

Lemma main_dispatches_witness :
  let run := fun _ _ => None in
  match main run demo_options with
  | Return code => exists config, configure_main demo_options = inr config /\
      inr Waitable = inr (queue_strategy config) :> (exn + _) /\
      inr Boost = inr (underlying_queue config) :> (exn + _) /\
      inr Zmq = inr (transport config) :> (exn + _) /\
      code = 0
  | Uncaught e => False
  end.
Proof.
  pose proof (main_dispatches (fun _ _ => None) demo_options eq_refl) as H. exact H.
Defined.
