(* ===== verification/Program.v ===== *)
(** [src/main.cpp]: the objects of one branch of [dispatch_types], from their
    constructors to their destructors, and [main] with that branch as what it runs;
    which thread is joined before what is released. *)

From S2P Require Import Prelude Types CustomSpscQueue Threads Calls BaseGenerator RandomWalkGenerator Disseminator UdpFeedHandler ZmqFeedHandler LatencyMonitor Main.
From stdpp Require Import options.

Section Program.
Context {G : Type} `{RandomSource G}.
(** The conversion of the library, the file under [symbols_file] and the seed. *)
Context (inet_pton : list byte -> option Z) (file : option (list byte)) (rng : G).

Definition with_worker_udp (th : Thread.t) (d : UdpDisseminator.t) : UdpDisseminator.t :=
  UdpDisseminator.Make th (UdpDisseminator.sock_ d) (UdpDisseminator.dest_addr_ d) (UdpDisseminator.sent d).
Definition with_receiver_udp (th : Thread.t) (h : UdpFeedHandler.t) : UdpFeedHandler.t :=
  UdpFeedHandler.Make th (UdpFeedHandler.sock_ h) (UdpFeedHandler.command_queue_ h).
Definition with_worker_zmq (th : Thread.t) (d : ZmqDisseminator.t) : ZmqDisseminator.t :=
  ZmqDisseminator.Make th (ZmqDisseminator.handle d) (ZmqDisseminator.sending d) (ZmqDisseminator.published d).
Definition with_receiver_zmq (th : Thread.t) (h : ZmqFeedHandler.t) : ZmqFeedHandler.t :=
  ZmqFeedHandler.Make th (ZmqFeedHandler.handle h).

(** [if (e) throw e;] *)
Definition rethrow (e : option exn) : Sys () := match e with Some e => sys_throw e | None => sys_ret tt end.

(** The UDP branches: the disseminator, the feed handler, the pipeline; then the
    destructors in reverse order, on every way out. *)
Definition udp_branch (config : BenchmarkConfig) (ip : list byte) (port : Z) : Sys () :=
  disseminator ← UdpDisseminator.make inet_pton ip port;
  feedhandler ← on_throw (UdpDisseminator.destroy disseminator) (UdpFeedHandler.make inet_pton ip port);
  r ← on_throw (_ ← UdpFeedHandler.destroy feedhandler; UdpDisseminator.destroy disseminator)
        (run_benchmark_pipeline config file rng);
  _ ← UdpFeedHandler.destroy (with_receiver_udp (receiver r.1) feedhandler);
  _ ← UdpDisseminator.destroy (with_worker_udp (worker r.1) disseminator);
  rethrow r.2.

(** The ZeroMQ branches. *)
Definition zmq_branch (config : BenchmarkConfig) (address : list byte) : Sys () :=
  disseminator ← ZmqDisseminator.make address;
  feedhandler ← on_throw (ZmqDisseminator.destroy disseminator) (ZmqFeedHandler.make address);
  r ← on_throw (_ ← ZmqFeedHandler.destroy feedhandler; ZmqDisseminator.destroy disseminator)
        (run_benchmark_pipeline config file rng);
  _ ← ZmqFeedHandler.destroy (with_receiver_zmq (receiver r.1) feedhandler);
  _ ← ZmqDisseminator.destroy (with_worker_zmq (worker r.1) disseminator);
  rethrow r.2.

Definition run_types (config : BenchmarkConfig) (p : pipeline) : Sys () :=
  match ends p with
  | UdpEndpoints ip port => udp_branch config ip port
  | ZmqEndpoints address => zmq_branch config address
  end.

(** The calls of a whole run of the program, and how it ends. *)
Definition program (sys : list syscall -> syscall -> Z) (o : options) : exit :=
  main (fun config p => match (run_types config p sys []).2 with inl e => Some e | inr _ => None end) o.
End Program.

(** * Proofs *)

Section Branches.
Context {G : Type} `{RandomSource G} (sys : list syscall -> syscall -> Z).
Context (file : option (list byte)) (rng : G).
Implicit Types (R : gset resource).

(** What the pipeline may throw: an exception of the file system or of
    [configure]. *)
Definition pipeline_exn (e : exn) : Prop := e = FilesystemError \/ e = InvalidArgument \/ e = LogicError.

Lemma pipeline_triple config R : is_u32 (message_rate config) ->
  triple sys R (run_benchmark_pipeline config file rng)
    (fun r R' => R' = R /\ worker r.1 = Thread.NotJoinable /\ receiver r.1 = Thread.NotJoinable /\
                 forall e, r.2 = Some e -> pipeline_exn e)
    (fun e R' => pipeline_exn e /\ R' = R).
Proof using H.
  intros Hr. apply triple_bind. eapply triple_conseq; [apply monitor_make| |].
  - intros mon R' [_ ->]. apply triple_ret.
    destruct (pipeline_body_ok config file rng mon Hr) as (Hw & Hrecv & _ & He).
    split_and!; [done..|]. intros e E. rewrite E in He. destruct He as [[[_ ->]|[_ ->]] _]; unfold pipeline_exn; auto.
  - intros e R' [-> ->]. split; [by left|done].
Qed.

Lemma rethrow_triple R e (Q : () -> gset resource -> Prop) (E : exn -> gset resource -> Prop) :
  (e = None -> Q tt R) -> (forall x, e = Some x -> E x R) -> triple sys R (rethrow e) Q E.
Proof. intros HQ HE. destruct e; [by apply triple_throw, HE|by apply triple_ret, HQ]. Qed.

(** How a UDP branch ends: nothing is left open, unless the constructor of the
    handler threw with its socket open. *)
Definition udp_ends R (e : exn) (R' : gset resource) : Prop :=
  pipeline_exn e /\ R' = R \/ e = RuntimeError /\ (R' = R \/ exists fd, R' = ({[Fd fd]} ∪ R)).

Lemma udp_branch_triple inet_pton config ip port R : fresh_descriptors sys -> is_u32 (message_rate config) ->
  triple sys R (udp_branch inet_pton file rng config ip port) (fun _ R' => R' = R) (udp_ends R).
Proof using All.
  intros Hf Hr. apply triple_bind. eapply triple_conseq; [by apply udp_disseminator_make| |].
  2: { intros e R' [-> ->]. right. split; [done|by left]. }
  intros d R1 (fd & Hfd & Hnew & -> & Hd & Hdw).
  assert (Hdd : forall R', triple sys R' (UdpDisseminator.destroy d)
    (fun _ R'' => R'' = (R' ∖ {[Fd fd]})) (fun _ _ => False)).
  { intros R'. rewrite <- Hd. apply udp_disseminator_destroy. lia. }
  apply triple_bind, triple_on_throw. eapply triple_conseq; [by apply udp_handler_make| |].
  2: { intros e R' [-> HR']. eapply triple_conseq; [apply Hdd| |done]. intros _ R'' ->. right. split; [done|].
       destruct HR' as [->|(fd' & Hn & ->)]; [left|right; exists fd']; set_solver. }
  intros h R2 (fd' & Hfd' & Hnew' & -> & Hh & Hhw).
  assert (Hback : (({[Fd fd']} ∪ ({[Fd fd]} ∪ R)) ∖ {[Fd fd']}) ∖ {[Fd fd]} = R) by (clear -Hnew Hnew'; set_solver).
  apply triple_bind, triple_on_throw. eapply triple_conseq; [by apply pipeline_triple| |].
  - intros [s e] R' (-> & Hw & Hrecv & He). simpl in *. rewrite Hw, Hrecv.
    apply triple_bind. eapply triple_conseq; [apply udp_handler_destroy; simpl; lia| |done].
    intros _ R' ->. apply triple_bind. eapply triple_conseq; [apply udp_disseminator_destroy; simpl; lia| |done].
    intros _ R' ->. simpl. rewrite Hh, Hd, Hback. apply rethrow_triple; [done|]. intros x Hx. left. by auto.
  - intros e R' [He ->]. apply triple_bind. eapply triple_conseq; [apply udp_handler_destroy; lia| |done].
    intros _ R' ->. eapply triple_conseq; [apply Hdd| |done]. intros _ R' ->. rewrite Hh, Hback. by left.
Qed.

Lemma zmq_branch_triple config address R : is_u32 (message_rate config) ->
  Ctx Publisher ∉ R -> ZSock Publisher ∉ R -> Ctx Subscriber ∉ R -> ZSock Subscriber ∉ R ->
  triple sys R (zmq_branch file rng config address) (fun _ R' => R' = R)
    (fun e R' => e = Terminate \/ (pipeline_exn e \/ zmq_error e) /\ R' = R).
Proof using H.
  intros Hr Hcp Hsp Hcs Hss. apply triple_bind. eapply triple_conseq; [by apply zmq_disseminator_make| |].
  2: { intros e R' [He ->]. right. by split; [right|]. }
  intros d R1 (-> & _ & _).
  assert (Hd : forall d', triple sys (zmq_members Publisher R) (ZmqDisseminator.destroy d') (fun _ R' => R' = R)
                 (fun _ _ => False)).
  { intros d'. eapply triple_conseq; [apply zmq_disseminator_destroy| |done]. intros _ R' ->.
    unfold zmq_members. clear -Hcp Hsp. set_solver. }
  apply triple_bind, triple_on_throw. eapply triple_conseq; [apply zmq_handler_make; unfold zmq_members; set_solver| |].
  2: { intros e R' [He ->]. eapply triple_conseq; [apply Hd| |done]. intros _ R' ->. right. by split; [right|]. }
  intros h R2 (-> & _ & _).
  assert (Hh : forall h', triple sys (zmq_members Subscriber (zmq_members Publisher R)) (ZmqFeedHandler.destroy h')
                 (fun _ R' => R' = zmq_members Publisher R) (fun e _ => e = Terminate)).
  { intros h'. eapply triple_conseq; [apply zmq_handler_destroy| |done]. intros _ R' ->.
    unfold zmq_members. clear -Hcs Hss. set_solver. }
  apply triple_bind, triple_on_throw. eapply triple_conseq; [by apply pipeline_triple| |].
  - intros [s e] R' (-> & _ & _ & He). apply triple_bind. eapply triple_conseq; [apply Hh| |by left].
    intros _ R' ->. apply triple_bind. eapply triple_conseq; [apply Hd| |done].
    intros _ R' ->. apply rethrow_triple; [done|]. intros x Hx. right. by split; [left; apply He|].
  - intros e R' [He ->]. apply triple_bind. eapply triple_conseq; [apply Hh| |by left].
    intros _ R' ->. eapply triple_conseq; [apply Hd| |done]. intros _ R' ->. right. by split; [left|].
Qed.
End Branches.

(** * Properties *)

(** C19: the program gives back what it takes. Whatever the kernel and the library
    answer, when a branch of [dispatch_types] is left, normally or by an exception,
    every descriptor, context and socket it opened is closed, with two exceptions:
    when the constructor of [UdpFeedHandler] throws its descriptor may stay open, and
    over ZeroMQ the destructor of the feed handler may end the process. *)
Theorem branch_releases_resources {G : Type} `{RandomSource G} (sys : list syscall -> syscall -> Z)
    (inet_pton : list byte -> option Z) (file : option (list byte)) (rng : G)
    (config : BenchmarkConfig) (p : pipeline) :
  fresh_descriptors sys -> is_u32 (message_rate config) ->
  let '(log, r) := run_types inet_pton file rng config p sys [] in
  match r with
  | inl RuntimeError => (exists ip port, ends p = UdpEndpoints ip port) /\
      (held sys log = ∅ \/ exists fd, held sys log = {[Fd fd]})
  | inl (ZmqError num) => (exists address, ends p = ZmqEndpoints address) /\ num <> 0 /\ held sys log = ∅
  | inl Terminate => exists address, ends p = ZmqEndpoints address
  | inl _ | inr _ => held sys log = ∅
  end.
Proof.
  intros Hf Hr. unfold run_types. destruct (ends p) as [ip port|address].
  - pose proof (udp_branch_triple sys file rng inet_pton config ip port ∅ Hf Hr [] eq_refl) as Ht.
    destruct (udp_branch _ _ _ _ _ _ sys []) as [log [e|[]]]; [|done].
    unfold udp_ends, pipeline_exn in Ht. destruct e; try (by intuition congruence).
    split; [by exists ip, port|]. destruct Ht as [[? _]|[_ [?|(fd & Hfd)]]]; [by intuition congruence|by left|right].
    exists fd. by rewrite union_empty_r_L in Hfd.
  - pose proof (zmq_branch_triple sys file rng config address ∅ Hr ltac:(set_solver) ltac:(set_solver)
                  ltac:(set_solver) ltac:(set_solver) [] eq_refl) as Ht.
    destruct (zmq_branch _ _ _ _ sys []) as [log [e|[]]]; [|done].
    destruct Ht as [->|[He Hheld]]; [by exists address|].
    destruct He as [[-> |[-> | ->]]|(num & -> & Hnum)]; [done..|]. split_and!; [by exists address|done..].
Qed.

(** A kernel that numbers descriptors by the calls made so far; everything else it
    answers with success but for the group membership. *)
Definition no_group_sys : list syscall -> syscall -> Z := fun log c =>
  match c with
  | Socket => Z.of_nat (length log)
  | Setsockopt _ (IP_ADD_MEMBERSHIP _) => -1
  | PathExists _ => 1
  | _ => 0
  end.

Lemma held_below sys log fd : (forall l, sys l Socket = Z.of_nat (length l)) ->
  Fd fd ∈ held sys log -> fd < Z.of_nat (length log).
Proof.
  intros Hsys. induction log as [|c log IH] using rev_ind; [set_solver|].
  rewrite held_snoc, length_app. simpl. intros Hin.
  assert (Fd fd ∈ held sys log \/ (c = Socket /\ fd = Z.of_nat (length log))) as [Hold|[-> ->]]; [|specialize (IH Hold)|]; try lia.
  destruct c; simpl in Hin; rewrite ?Hsys in Hin; repeat case_match; set_solver.
Qed.

Lemma no_group_fresh : fresh_descriptors no_group_sys.
Proof. intros log _ Hin. apply held_below in Hin; [|done]. simpl in Hin. lia. Qed.

Lemma branch_releases_resources_witness :
  let '(log, r) := run_types (fun _ => Some 1) (Some demo_file) (MkTape [] []) default_config
                     (dispatch_types 1024 default_config) no_group_sys [] in
  match r with
  | inl RuntimeError => (exists ip port, ends (dispatch_types 1024 default_config) = UdpEndpoints ip port) /\
      (held no_group_sys log = ∅ \/ exists fd, held no_group_sys log = {[Fd fd]})
  | inl (ZmqError num) => (exists address, ends (dispatch_types 1024 default_config) = ZmqEndpoints address) /\
      num <> 0 /\ held no_group_sys log = ∅
  | inl Terminate => exists address, ends (dispatch_types 1024 default_config) = ZmqEndpoints address
  | inl _ | inr _ => held no_group_sys log = ∅
  end.
Proof.
  apply (branch_releases_resources no_group_sys (fun _ => Some 1) (Some demo_file) (MkTape [] []) default_config
           (dispatch_types 1024 default_config) no_group_fresh). split; vm_compute; done.
Defined.

(** There the group cannot be joined, and the run does end with a descriptor open:
    the fourth call's, of the feed handler. *)
Example no_group_leaks :
  let '(log, r) := run_types (fun _ => Some 1) (Some demo_file) (MkTape [] []) default_config
                     (dispatch_types 1024 default_config) no_group_sys [] in
  r = inl RuntimeError /\ held no_group_sys log = {[Fd 4]}.
Proof. vm_compute. split; reflexivity. Qed.

(** Calls that release something the object's thread may be using. *)
Definition releases (c : syscall) : bool :=
  match c with
  | Close _ | ZmqClose _ | ZmqSocketDtor _ | ZmqContextDtor _ | DestroyMembers => true
  | _ => false
  end.

(** No call before the join releases anything. *)
Definition joins_first (log : list syscall) : Prop :=
  exists before after, log = before ++ Join :: after /\ Forall (fun c => releases c = false) before.

Definition running : Thread.t := Thread.Joinable false.

(** C20: an object that is destroyed while its thread runs. Both disseminators and
    both feed handlers join the thread before they give up the socket it uses,
    whatever the calls answer. The generator does not: its symbols, prices and
    random engine are destroyed first, and the thread that uses them is joined after
    that, by the base class. *)
Theorem destructors_join_first {G : Type} (sys : list syscall -> syscall -> Z)
    (d : UdpDisseminator.t) (h : UdpFeedHandler.t) (zd : ZmqDisseminator.t) (zh : ZmqFeedHandler.t)
    (g : RandomWalkGenerator.t G) :
  UdpDisseminator.worker_ d = running -> UdpFeedHandler.receiver_thread_ h = running ->
  ZmqDisseminator.worker_ zd = running -> ZmqFeedHandler.receiver_thread_ zh = running ->
  BaseGenerator.generating_thread_ (RandomWalkGenerator.base g) = running ->
  joins_first (UdpDisseminator.destroy d sys []).1 /\ joins_first (UdpFeedHandler.destroy h sys []).1 /\
  joins_first (ZmqDisseminator.destroy zd sys []).1 /\ joins_first (ZmqFeedHandler.destroy zh sys []).1 /\
  ~ joins_first (RandomWalkGenerator.destroy g sys []).1.
Proof.
  intros Hd Hh Hzd Hzh Hg. split_and!.
  - unfold UdpDisseminator.destroy. rewrite Hd. simpl. case_match; by eexists [], _.
  - unfold UdpFeedHandler.destroy. rewrite Hh. simpl. case_match; by eexists [], _.
  - unfold ZmqDisseminator.destroy, noexcept. rewrite Hzd. unfold mbind, sys_bind.
    destruct (ZmqDisseminator.handle zd); by eexists [], _.
  - unfold ZmqFeedHandler.destroy, noexcept. rewrite Hzh. unfold zmq_call, mbind, sys_bind, throw_if.
    destruct (ZmqFeedHandler.handle zh); [|by eexists [], _]. simpl.
    destruct (negb _); by eexists [], _.
  - unfold RandomWalkGenerator.destroy, BaseGenerator.destroy. rewrite Hg. simpl.
    intros (before & after & E & Hb). destruct before as [|c before]; [done|]. injection E as <- _.
    by inversion Hb.
Qed.

Lemma destructors_join_first_witness :
  joins_first (UdpDisseminator.destroy (UdpDisseminator.Make running 3 ([], 0) []) demo_sys []).1 /\
  joins_first (UdpFeedHandler.destroy (UdpFeedHandler.Make running 4 (CustomSpscQueue.init 128)) demo_sys []).1 /\
  joins_first (ZmqDisseminator.destroy (ZmqDisseminator.Make running true [] []) demo_sys []).1 /\
  joins_first (ZmqFeedHandler.destroy (ZmqFeedHandler.Make running true) demo_sys []).1 /\
  ~ joins_first (RandomWalkGenerator.destroy
      (RandomWalkGenerator.Make (BaseGenerator.Make 1 1 running) [] (MkTape [] []) []) demo_sys []).1.
Proof.
  apply (destructors_join_first demo_sys (UdpDisseminator.Make running 3 ([], 0) [])
           (UdpFeedHandler.Make running 4 (CustomSpscQueue.init 128)) (ZmqDisseminator.Make running true [] [])
           (ZmqFeedHandler.Make running true)
           (RandomWalkGenerator.Make (BaseGenerator.Make 1 1 running) [] (MkTape [] []) [])); reflexivity.
Defined.
