(* ===== verification/Wire.v ===== *)
(** What the feed handlers make of what the disseminators send, which subscriptions
    let a generated message through, and what becomes of a burst of subscriptions. *)

From S2P Require Import Prelude Types QueueConcepts CustomSpscQueue Threads RandomWalkGenerator Calls Disseminator UdpFeedHandler ZmqFeedHandler.
From stdpp Require Import options.

(** * The wire *)

(** The datagram and the frames of a message. *)
Definition datagram (pad : list byte) (m : MarketDataMsg) : list byte := header m ++ payload_bytes pad m.

Lemma drop_header pad m : msg_wf m -> drop 10 (datagram pad m) = payload_bytes pad m.
Proof. intros Hm. unfold datagram. rewrite <- (length_header m Hm). apply drop_app_length. Qed.

Lemma datagram_symbol pad m : msg_wf m -> field_at 2 8 (datagram pad m) = le_val (msg_symbol m).
Proof.
  intros Hm. unfold field_at, datagram. rewrite slice_app_l by (rewrite length_header; done).
  unfold slice, header. simpl drop. pose proof (msg_wf_symbol m Hm). by rewrite (take_ge (msg_symbol m)) by lia.
Qed.

Lemma parse_sent_datagram pad m : length pad = 4%nat -> msg_wf m ->
  parse_datagram (datagram pad m) = Some m.
Proof.
  intros Hp Hm. pose proof (length_payload pad m Hp Hm) as Hl. pose proof (length_header m Hm) as Hh.
  assert (Hlen : length (datagram pad m) = (10 + length (payload_bytes pad m))%nat)
    by (unfold datagram; by rewrite length_app, Hh).
  rewrite Hl in Hlen. pose proof (drop_header pad m Hm) as Hd.
  unfold parse_datagram. destruct (datagram pad m) as [|ty d] eqn:E; [destruct m; discriminate|].
  assert (Hty : ty = type_char m) by (unfold datagram, header in E; simpl in E; congruence).
  rewrite Hlen, Hd, Hty. destruct m as [q|x]; simpl.
  - by rewrite Quote_of_to_bytes.
  - by rewrite Trade_of_to_bytes.
Qed.

(** Receiving a datagram that a disseminator sent. *)
Lemma receive_sent {C} (cbs : IFeedHandler.callbacks C) pad m clock stack subs (c : C) :
  length pad = 4%nat -> msg_wf m -> length stack = 1024%nat ->
  let '(n, buf) := UdpFeedHandler.recvfrom (UdpFeedHandler.Received (datagram pad m)) stack in
  UdpFeedHandler.on_datagram cbs clock n buf subs c =
  if bool_decide (le_val (msg_symbol m) ∈ subs) then deliver cbs clock m c else c.
Proof.
  intros Hp Hm Hs.
  pose proof (receive_handles cbs (UdpFeedHandler.Received (datagram pad m)) clock stack subs c Hs) as Hr.
  destruct (UdpFeedHandler.recvfrom _ _) as [n buf] eqn:E. destruct Hr as [_ Hr].
  assert (Hn : 0 <= n) by (unfold UdpFeedHandler.recvfrom in E; injection E as <- _; lia).
  rewrite (proj2 (Z.ltb_ge _ _)) in Hr by done. rewrite Hr. unfold handle.
  by rewrite parse_sent_datagram, datagram_symbol.
Qed.

Lemma parse_sent_frames pad m : length pad = 4%nat -> msg_wf m ->
  parse_frames (header m) (payload_bytes pad m) = Some m.
Proof.
  intros Hp Hm. pose proof (length_payload pad m Hp Hm) as Hl. unfold parse_frames. simpl. rewrite Hl.
  destruct m as [q|x]; simpl; [by rewrite Quote_of_to_bytes|by rewrite Trade_of_to_bytes].
Qed.

(** * Symbols *)

(** A symbol as a C string: what the reader keeps, without a null character. *)
Definition c_symbol (s : list byte) : Prop := symbol_ok s /\ Forall (fun b => b <> x00) s.

(** One that fits the field with its terminator. *)
Definition short_symbol (s : list byte) : Prop := c_symbol s /\ (length s <= 7)%nat.

Lemma symbol_field_take s : c_symbol s -> symbol_field s = resize 8 x00 (take 7 s).
Proof.
  intros [[Hlen _] Hnul]. rewrite symbol_field_eq, c_str_id by done.
  destruct (decide (length s <= 7)%nat).
  - rewrite take_ge by lia. rewrite !resize_ge by lia.
    replace (8 - length s)%nat with ((7 - length s) + 1)%nat by lia.
    by rewrite replicate_add, app_assoc.
  - rewrite resize_le by lia. rewrite resize_ge by (rewrite length_take; lia).
    do 2 f_equal. rewrite length_take. by replace (8 - 7 `min` length s)%nat with 1%nat by lia.
Qed.

Lemma pack_symbol_resize s : (length s <= 8)%nat -> pack_symbol s = le_val (resize 8 x00 s).
Proof.
  intros Hlen. unfold pack_symbol. rewrite Nat.min_l by lia. rewrite take_ge by lia.
  rewrite memcpy_start, drop_replicate. by rewrite resize_ge by lia.
Qed.

(** Padding with zeros loses nothing of a string without a null character. *)
Lemma resize_inj s s' : Forall (fun b => b <> x00) s -> Forall (fun b => b <> x00) s' ->
  (length s <= 8)%nat -> (length s' <= 8)%nat -> resize 8 x00 s = resize 8 x00 s' -> s = s'.
Proof.
  intros Hs Hs' Hl Hl' Heq. rewrite <- (c_str_id s), <- (c_str_id s') by done.
  assert (Hc : forall t, (length t <= 8)%nat -> c_str (resize 8 x00 t) = c_str t).
  { intros t Ht. rewrite resize_ge by done. generalize (8 - length t)%nat. clear. intros n.
    induction t as [|b t IH]; simpl; [by destruct n|]. case_bool_decide; [done|]. by rewrite IH. }
  rewrite <- (Hc s), <- (Hc s') by done. by rewrite Heq.
Qed.


(** The key the UDP handler computes for [s'] is the field of a message for [s]. *)
Lemma pack_matches s s' : c_symbol s -> c_symbol s' ->
  pack_symbol s' = le_val (symbol_field s) <-> s' = take 7 s.
Proof.
  intros Hs Hs'. rewrite symbol_field_take, pack_symbol_resize by (apply Hs || apply Hs').
  destruct Hs as [[Hl _] Hn], Hs' as [[Hl' _] Hn']. split.
  - intros Heq. apply le_val_inj in Heq; [|by rewrite !length_resize].
    apply resize_inj; rewrite ?length_take; try (done || lia). by apply Forall_take.
  - by intros ->.
Qed.

(** A subscribed prefix of the field. *)
Lemma prefix_matches s s' : c_symbol s -> c_symbol s' ->
  s' `prefix_of` symbol_field s <-> s' `prefix_of` take 7 s.
Proof.
  intros Hs [[Hl' _] Hn']. rewrite symbol_field_take by done.
  rewrite resize_ge by (rewrite length_take; lia). split.
  - intros [k Hk]. apply app_eq_inv in Hk as [(k' & -> & _)|(k' & -> & Hk)]; [by eexists|].
    apply Forall_app in Hn' as [_ Hn']. destruct k' as [|b k']; [by rewrite app_nil_r|].
    inversion Hn' as [|? ? Hb _]; subst. destruct (8 - _)%nat; simpl in Hk; [done|]. by injection Hk as <- _.
  - intros Hp. by apply prefix_app_r.
Qed.

Lemma apply_commands_elem (syms : list (list byte)) k :
  k ∈ subscriptions ((fun s => Cmd true (pack_symbol s)) <$> syms) <-> exists s, s ∈ syms /\ k = pack_symbol s.
Proof.
  unfold subscriptions.
  assert (Hgen : forall acc : gset Z, k ∈ foldl UdpFeedHandler.apply_command acc ((fun s => Cmd true (pack_symbol s)) <$> syms) <->
    k ∈ acc \/ exists s, s ∈ syms /\ k = pack_symbol s).
  { induction syms as [|s syms IH]; intros acc.
    - simpl. split; [by left|]. intros [?|(? & Hn & _)]; [done|]. by apply elem_of_nil in Hn.
    - rewrite fmap_cons. cbn [foldl]. rewrite IH. unfold UdpFeedHandler.apply_command. simpl.
      rewrite elem_of_union, elem_of_singleton. split.
      + intros [[?|?]|(s' & ? & ?)]; [right; exists s; rewrite elem_of_cons; auto|by left|].
        right. exists s'. rewrite elem_of_cons. auto.
      + intros [?|(s' & [->|?]%elem_of_cons & ?)]; [tauto|tauto|]. right. by exists s'. }
  rewrite Hgen. split; [intros [?%elem_of_empty|?]; done|by right].
Qed.

(** The subscriptions that subscribing to every symbol of a list makes. *)
Definition all_subscribed (symbols : list (list byte)) : gset Z :=
  subscriptions ((fun s => Cmd true (pack_symbol s)) <$> symbols).

Lemma all_subscribed_elem symbols s : Forall c_symbol symbols -> c_symbol s ->
  le_val (symbol_field s) ∈ all_subscribed symbols <-> take 7 s ∈ symbols.
Proof.
  intros Hsyms Hs. unfold all_subscribed. rewrite apply_commands_elem. rewrite Forall_forall in Hsyms. split.
  - intros (s' & Hin & Heq). symmetry in Heq. apply pack_matches in Heq as ->; auto.
  - intros Hin. exists (take 7 s). split; [done|]. symmetry. apply pack_matches; auto.
Qed.

(** * Proofs: a burst of subscriptions *)

Lemma subscribe_burst_gen {C} (syms : list (list byte)) (w : UdpFeedHandler.world C) pending :
  CustomSpscQueue.repr 128 (UdpFeedHandler.queue w) pending ->
  exists w', UdpFeedHandler.env_acts (UdpFeedHandler.Subscribe <$> syms) w = Some w' /\
    UdpFeedHandler.accepted w' =
      UdpFeedHandler.accepted w ++ take (128 - length pending) ((fun s => Cmd true (pack_symbol s)) <$> syms).
Proof.
  revert w pending; induction syms as [|s syms IH]; intros w pending Hq.
  { exists w. simpl. by rewrite take_nil, app_nil_r. }
  rewrite !fmap_cons. cbn [UdpFeedHandler.env_acts UdpFeedHandler.env_act]. unfold UdpFeedHandler.subscribe_impl.
  destruct (CustomSpscQueue.ring_push 128 (UdpFeedHandler.queue w) pending (Cmd true (pack_symbol s)) Hq)
    as (q & -> & Hq').
  change (Z.to_nat 128) with 128%nat in *. unfold Fifo.push in *. simpl. case_decide; simpl in *.
  - match goal with |- context [UdpFeedHandler.env_acts _ ?w1] => destruct (IH w1 _ Hq') as (w' & -> & Ha) end.
    exists w'. split; [done|]. rewrite Ha, length_app. simpl. rewrite <- app_assoc.
    replace (128 - length pending)%nat with (S (128 - (length pending + 1)))%nat by lia. done.
  - match goal with |- context [UdpFeedHandler.env_acts _ ?w1] => destruct (IH w1 _ Hq') as (w' & -> & Ha) end.
    exists w'. split; [done|]. rewrite Ha. simpl. rewrite app_nil_r.
    by replace (128 - length pending)%nat with 0%nat by lia.
Qed.

(** * Properties *)

(** C9: round trip over UDP. The bytes [UdpDisseminator] sends for a message are
    decoded by [UdpFeedHandler] into that message with its [disseminate_timestamp]
    set, bit for bit, and delivered exactly if the message's symbol field is among
    the subscriptions, whatever uninitialised memory either side used. *)
Theorem udp_wire_roundtrip {C} (cbs : IFeedHandler.callbacks C) (send_stack recv_stack topic_buf pad : list byte)
    (c clock : Z) (m : MarketDataMsg) (d : UdpDisseminator.t) (subs : gset Z) (client : C) :
  length send_stack = UdpDisseminator.buffer_size -> length recv_stack = 1024%nat -> topic_ok topic_buf ->
  length pad = 4%nat -> msg_wf m ->
  let '(_, topic, payload) := IDisseminator.visit c pad m topic_buf in
  exists d' dg, UdpDisseminator.send_impl send_stack topic payload d = Some d' /\
    UdpDisseminator.sent d' = UdpDisseminator.sent d ++ [dg] /\
    let '(n, buf) := UdpFeedHandler.recvfrom (UdpFeedHandler.Received dg) recv_stack in
    UdpFeedHandler.on_datagram cbs clock n buf subs client =
    if bool_decide (le_val (msg_symbol m) ∈ subs) then deliver cbs clock (stamp_disseminate c m) client
    else client.
Proof.
  intros Hs Hr Ht Hp Hm. rewrite visit_spec by done. pose proof (msg_wf_stamp c m Hm) as Hm'.
  rewrite udp_send_eq; [|done|by apply length_header|rewrite length_payload by done; destruct m; simpl; lia].
  eexists _, _. split; [done|]. split; [done|].
  replace (header m ++ _) with (datagram pad (stamp_disseminate c m)) by (unfold datagram, header; by destruct m).
  pose proof (receive_sent cbs pad (stamp_disseminate c m) clock recv_stack subs client Hp Hm' Hr) as Hrecv.
  by rewrite msg_symbol_stamp in Hrecv.
Qed.

Lemma udp_wire_roundtrip_witness :
  exists d' dg, UdpDisseminator.send_impl (replicate 58 xee) (header (TradeMsg demo_trade))
      (payload_bytes demo_pad (stamp_disseminate 2000 (TradeMsg demo_trade))) demo_udp = Some d' /\
    UdpDisseminator.sent d' = [] ++ [dg] /\
    let '(n, buf) := UdpFeedHandler.recvfrom (UdpFeedHandler.Received dg) (replicate 1024 xcc) in
    UdpFeedHandler.on_datagram recording 2500 n buf {[86]} [] =
    if bool_decide (le_val (Trade.symbol demo_trade) ∈ ({[86]} : gset Z))
    then [(stamp_disseminate 2000 (TradeMsg demo_trade), 2500)] else [].
Proof.
  apply (udp_wire_roundtrip recording (replicate 58 xee) (replicate 1024 xcc)
           (IDisseminator.topic_init (replicate 10 xaa)) demo_pad 2000 2500 (TradeMsg demo_trade) demo_udp {[86]} []).
  - reflexivity.
  - reflexivity.
  - split; reflexivity.
  - reflexivity.
  - exact demo_trade_wf.
Defined.

(** C31: round trip over ZeroMQ. The two frames [ZmqDisseminator] sends for a message
    are decoded by [ZmqFeedHandler] into that message with its
    [disseminate_timestamp] set, and delivered. *)
Theorem zmq_wire_roundtrip {C} (cbs : IFeedHandler.callbacks C) (topic_buf pad : list byte)
    (c clock : Z) (m : MarketDataMsg) (d : ZmqDisseminator.t) (client : C) :
  zmq_ok d -> topic_ok topic_buf -> length pad = 4%nat -> msg_wf m ->
  let '(_, topic, payload) := IDisseminator.visit c pad m topic_buf in
  exists d', ZmqDisseminator.send_impl topic payload d = Some d' /\ zmq_ok d' /\
    ZmqDisseminator.published d' = ZmqDisseminator.published d ++ [[topic; payload]] /\
    ZmqFeedHandler.receive cbs clock (ZmqFeedHandler.Frame topic true) (ZmqFeedHandler.Frame payload false) client =
    (deliver cbs clock (stamp_disseminate c m) client, true).
Proof.
  intros Hd Ht Hp Hm. rewrite visit_spec by done. pose proof (msg_wf_stamp c m Hm) as Hm'.
  rewrite zmq_send_eq by by apply length_header. eexists. split; [done|]. split; [done|]. split.
  { simpl. by rewrite Hd. }
  pose proof (receive_spec cbs (ZmqFeedHandler.Turn false (ZmqFeedHandler.Frame (header m) true)
     (ZmqFeedHandler.Frame (payload_bytes pad (stamp_disseminate c m)) false) clock) client) as Hr.
  cbn [ZmqFeedHandler.recv_topic ZmqFeedHandler.recv_payload ZmqFeedHandler.clock] in Hr.
  rewrite Hr. unfold turn_show, turn_message, turn_fatal.
  cbn [ZmqFeedHandler.recv_topic ZmqFeedHandler.recv_payload ZmqFeedHandler.clock].
  replace (header m) with (header (stamp_disseminate c m)) by (unfold header; by destruct m).
  by rewrite parse_sent_frames.
Qed.

Lemma zmq_wire_roundtrip_witness :
  exists d', ZmqDisseminator.send_impl (header (QuoteMsg demo_quote))
      (payload_bytes demo_pad (stamp_disseminate 9 (QuoteMsg demo_quote)))
      (ZmqDisseminator.Make Thread.NotJoinable true [] []) = Some d' /\ zmq_ok d' /\
    ZmqDisseminator.published d' = [] ++ [[header (QuoteMsg demo_quote);
      payload_bytes demo_pad (stamp_disseminate 9 (QuoteMsg demo_quote))]] /\
    ZmqFeedHandler.receive recording 11 (ZmqFeedHandler.Frame (header (QuoteMsg demo_quote)) true)
      (ZmqFeedHandler.Frame (payload_bytes demo_pad (stamp_disseminate 9 (QuoteMsg demo_quote))) false) [] =
    ([(stamp_disseminate 9 (QuoteMsg demo_quote), 11)], true).
Proof.
  apply (zmq_wire_roundtrip recording (IDisseminator.topic_init (replicate 10 xaa)) demo_pad 9 11
           (QuoteMsg demo_quote) (ZmqDisseminator.Make Thread.NotJoinable true [] []) []).
  - reflexivity.
  - split; reflexivity.
  - reflexivity.
  - exact demo_quote_wf.
Defined.

(** C29: the UDP filter against the generator's symbol field, for subscriptions to a
    list of symbols. A message generated for [s] passes exactly if the first seven
    characters of [s] are one of them. So a symbol of up to seven characters gets
    its own messages and no other; one of eight characters, which both readers of
    the symbols file accept, never gets its own. *)
Theorem udp_filter_exact (symbols : list (list byte)) (s : list byte) :
  Forall c_symbol symbols -> c_symbol s ->
  (le_val (symbol_field s) ∈ all_subscribed symbols <-> take 7 s ∈ symbols) /\
  (length s = 8%nat -> le_val (symbol_field s) ∉ all_subscribed [s]).
Proof.
  intros Hsyms Hs. split; [by apply all_subscribed_elem|]. intros Hlen Hin.
  apply all_subscribed_elem in Hin; [|by apply Forall_singleton|done].
  apply list_elem_of_singleton in Hin. apply (f_equal length) in Hin. rewrite length_take in Hin. lia.
Qed.

Lemma sprstock_ok : c_symbol sym_SPRSTOCK.
Proof. split; [split; [simpl; lia|]|]; by apply (bool_decide_unpack _). Qed.

Lemma udp_filter_exact_witness :
  (le_val (symbol_field sym_SPRSTOCK) ∈ all_subscribed [sym_SPRSTOCK] <-> take 7 sym_SPRSTOCK ∈ [sym_SPRSTOCK]) /\
  le_val (symbol_field sym_SPRSTOCK) ∉ all_subscribed [sym_SPRSTOCK].
Proof.
  destruct (udp_filter_exact [sym_SPRSTOCK] sym_SPRSTOCK) as [H1 H2].
  - apply Forall_singleton. exact sprstock_ok.
  - exact sprstock_ok.
  - split; [exact H1|]. apply H2. reflexivity.
Defined.

(** C30: the ZeroMQ filter against the same field. A message generated for [s] is
    accepted exactly if a subscribed symbol is a prefix of the first seven
    characters of [s]: a client of the symbol V also gets the messages of VZ. *)
Theorem zmq_filter_exact {S} `{SubSocketLaws S} (symbols : list (list byte)) (sock : S) (s : list byte)
    (m : MarketDataMsg) :
  sub_filters sock = [] -> Forall c_symbol symbols -> c_symbol s -> msg_symbol m = symbol_field s ->
  sub_accepts (header m) (subscribed symbols sock) = true <->
  exists s', s' ∈ symbols /\ s' `prefix_of` take 7 s.
Proof.
  intros Hsock Hsyms Hs Hm. rewrite sub_accepts_spec. setoid_rewrite subscribed_filters. rewrite Hsock.
  assert (Heq : forall s', s' ∈ symbols -> s' `prefix_of` msg_symbol m <-> s' `prefix_of` take 7 s).
  { intros s' Hin. rewrite Hm. apply prefix_matches; [done|]. by eapply Forall_forall in Hsyms. }
  split.
  - intros (f & [Hf|(s' & Hin & Hf)] & Hp); [by apply elem_of_nil in Hf|].
    exists s'. split; [done|]. apply Heq, topic_prefix; [done|]. by destruct Hf as [->| ->]; [left|right].
  - intros (s' & Hin & Hp). apply Heq, topic_prefix in Hp as [Hp|Hp]; [| |done];
      (eexists; split; [|exact Hp]); right; exists s'; auto.
Qed.

Definition sym_VZ : list byte := [x56; x5a].
Definition trade_VZ : MarketDataMsg := TradeMsg (Trade.Make (symbol_field sym_VZ) 0 10 0 0).

Lemma zmq_filter_exact_witness :
  sub_accepts (header trade_VZ) (subscribed [sym_V] (MkFilterList [])) = true <->
  exists s', s' ∈ [sym_V] /\ s' `prefix_of` take 7 sym_VZ.
Proof.
  apply (zmq_filter_exact [sym_V] (MkFilterList []) sym_VZ trade_VZ).
  - reflexivity.
  - apply Forall_singleton. split; [split; [simpl; lia|]|]; by apply (bool_decide_unpack _).
  - split; [split; [simpl; lia|]|]; by apply (bool_decide_unpack _).
  - reflexivity.
Defined.

(** The two transports do not filter alike: a client of V alone is sent the
    messages of VZ over ZeroMQ and not over UDP. *)
Theorem zmq_overdelivers :
  sub_accepts (header trade_VZ) (subscribed [sym_V] (MkFilterList [])) = true /\
  le_val (msg_symbol trade_VZ) ∉ all_subscribed [sym_V].
Proof.
  split; [vm_compute; reflexivity|]. apply (bool_decide_unpack _). vm_compute. exact I.
Qed.

(** C33: a burst of subscriptions that the receive loop does not interrupt. The
    command queue takes the first 128 and [subscribe] returns normally for all:
    every later symbol is dropped without a trace. *)
Theorem udp_subscribe_burst {C} (symbols : list (list byte)) (stack : list byte) (c : C) :
  exists w, UdpFeedHandler.env_acts (UdpFeedHandler.Subscribe <$> symbols)
              (loop_start (CustomSpscQueue.init 128) [] stack c) = Some w /\
    UdpFeedHandler.accepted w = take 128 ((fun s => Cmd true (pack_symbol s)) <$> symbols).
Proof.
  apply (subscribe_burst_gen symbols (loop_start (CustomSpscQueue.init 128) [] stack c) []).
  apply CustomSpscQueue.repr_init. lia.
Qed.

Lemma demo_symbols_short : Forall short_symbol [sym_V; sym_VZ].
Proof.
  apply Forall_cons; split; [|apply Forall_singleton]; (split; [split; [split; [simpl; lia|]|]|simpl; lia]);
    by apply (bool_decide_unpack _).
Qed.
