(* ===== verification/Links.v ===== *)
(** The two transports behind one interface: what the CRTP bases ask of a
    disseminator and a feed handler that belong together, as a class, and what they
    promise each other, as its laws; UDP and ZeroMQ as instances. *)

From S2P Require Import Prelude Types QueueConcepts CustomSpscQueue Threads RandomWalkGenerator Calls Disseminator UdpFeedHandler ZmqFeedHandler Wire.
From stdpp Require Import options.

(** * The interface *)

(** A disseminator, the thread of a feed handler, and what travels between them.
    [None] is undefined behaviour, or for [link_poll] and [link_receive] a step the
    thread of the handler is not at. *)
Record Link := MkLink {
  disseminator : Type;
  handler : Type;
  parcel : Type;
  (** [send_impl] of a topic and a payload, with the contents of its stack frame. *)
  link_send : list byte -> list byte -> list byte -> disseminator -> option disseminator;
  (** What the disseminator has given to the network. *)
  link_carried : disseminator -> list parcel;
  (** [subscribe_impl] and [unsubscribe_impl], called by another thread. *)
  link_subscribe : list byte -> handler -> option handler;
  link_unsubscribe : list byte -> handler -> option handler;
  (** The thread of the handler looks for a request once. *)
  link_poll : handler -> option handler;
  (** It receives: a parcel arrives, or nothing. *)
  link_receive {C} : IFeedHandler.callbacks C -> Z -> option parcel -> handler -> C -> option (handler * C);
}.

Section IFeedHandler.
Context {L : Link}.

(** [IFeedHandler::subscribe] and [unsubscribe]: the calls of the derived class. *)
Definition subscribe (symbol : list byte) (h : handler L) : option (handler L) := link_subscribe L symbol h.
Definition unsubscribe (symbol : list byte) (h : handler L) : option (handler L) := link_unsubscribe L symbol h.

Fixpoint subscribe_all (symbols : list (list byte)) (h : handler L) : option (handler L) :=
  match symbols with
  | [] => Some h
  | s :: symbols' => h' ← subscribe s h; subscribe_all symbols' h'
  end.

Fixpoint polls (n : nat) (h : handler L) : option (handler L) :=
  match n with O => Some h | S n' => h' ← link_poll L h; polls n' h' end.
End IFeedHandler.

(** What the two ends promise each other. [accepts hdr h]: messages with the header
    [hdr] pass. [settled]: no request is waiting. [ready]: the thread is at its
    receive. [waiting] bounds how often it can look for a request. *)
Class LinkLaws (L : Link) := {
  link_ok : disseminator L -> Prop;
  stack_size : nat;
  parcel_of : list byte -> MarketDataMsg -> parcel L;
  handler_ok : handler L -> Prop;
  accepts : list byte -> handler L -> bool;
  settled : handler L -> Prop;
  ready : handler L -> bool;
  send_spec stack pad m d :
    link_ok d -> length stack = stack_size -> length pad = 4%nat -> msg_wf m ->
    exists d', link_send L stack (header m) (payload_bytes pad m) d = Some d' /\ link_ok d' /\
               link_carried L d' = link_carried L d ++ [parcel_of pad m];
  subscribe_spec s h : handler_ok h -> exists h', link_subscribe L s h = Some h' /\ handler_ok h';
  unsubscribe_spec s h : handler_ok h -> exists h', link_unsubscribe L s h = Some h' /\ handler_ok h';
  poll_spec h h' :
    handler_ok h -> link_poll L h = Some h' ->
    handler_ok h' /\ (settled h -> settled h' /\ forall hdr, accepts hdr h' = accepts hdr h);
  receive_message {C} (cbs : IFeedHandler.callbacks C) clock pad m h h' c c' :
    handler_ok h -> length pad = 4%nat -> msg_wf m ->
    link_receive L cbs clock (Some (parcel_of pad m)) h c = Some (h', c') ->
    c' = (if accepts (header m) h then deliver cbs clock m c else c);
  receive_nothing {C} (cbs : IFeedHandler.callbacks C) clock h h' c c' :
    link_receive L cbs clock None h c = Some (h', c') -> c' = c;
  receive_keeps {C} (cbs : IFeedHandler.callbacks C) clock u h h' c c' :
    handler_ok h -> link_receive L cbs clock u h c = Some (h', c') ->
    handler_ok h' /\ (settled h -> settled h') /\ forall hdr, accepts hdr h' = accepts hdr h;
  receive_ready {C} (cbs : IFeedHandler.callbacks C) clock u h c :
    handler_ok h -> ready h = true -> exists r, link_receive L cbs clock u h c = Some r;
  poll_enabled h : handler_ok h -> ready h = false -> exists h', link_poll L h = Some h';
  waiting : handler L -> nat;
  poll_less h h' : handler_ok h -> link_poll L h = Some h' -> (waiting h' < waiting h)%nat;
}.

Lemma reaches_ready {L} `{LinkLaws L} h : handler_ok h -> exists n h', polls n h = Some h' /\ ready h' = true.
Proof.
  remember (waiting h) as k eqn:Ek. revert h Ek. induction k as [k IH] using lt_wf_ind. intros h -> Hh.
  destruct (ready h) eqn:Hr; [by exists 0%nat, h|]. destruct (poll_enabled h Hh Hr) as [h1 Hp].
  destruct (IH _ (poll_less h h1 Hh Hp) h1 eq_refl) as (n & h' & Hn & Hr'); [by apply (poll_spec h h1)|].
  exists (S n), h'. split; [simpl; by rewrite Hp|done].
Qed.

(** A handler that lets every message of the given symbols through, and has no
    request waiting that could change it. *)
Definition covers {L} `{LinkLaws L} (symbols : list (list byte)) (h : handler L) : Prop :=
  settled h /\ forall m, msg_of symbols m -> accepts (header m) h = true.

(** * UDP *)

(** The thread of [UdpFeedHandler]: the command queue it shares, the locals of
    [receive_loop_impl], and whether the [while] over the commands has ended. *)
Record UdpReceiver := UdpReceiving {
  command_queue_ : UdpFeedHandler.commands;
  local_subscriptions_ : gset Z;
  buffer : list byte;
  cmd : SubCommand;
  drained : bool;
}.

Definition set_commands (q : UdpFeedHandler.commands) (h : UdpReceiver) : UdpReceiver :=
  UdpReceiving q (local_subscriptions_ h) (buffer h) (cmd h) (drained h).

Definition udp_poll (h : UdpReceiver) : option UdpReceiver :=
  if drained h then None
  else
    '(b, cmd', q) ← CustomSpscQueue.pop (cmd h) (command_queue_ h);
    Some (if b : bool
          then UdpReceiving q (UdpFeedHandler.apply_command (local_subscriptions_ h) cmd') (buffer h) cmd' false
          else UdpReceiving q (local_subscriptions_ h) (buffer h) cmd' true).

Definition udp_receive {C} (cbs : IFeedHandler.callbacks C) (clock : Z) (r : UdpFeedHandler.recv_result)
    (h : UdpReceiver) (c : C) : option (UdpReceiver * C) :=
  if drained h then
    let '(bytes_recvd, buf) := UdpFeedHandler.recvfrom r (buffer h) in
    Some (UdpReceiving (command_queue_ h) (local_subscriptions_ h) buf (cmd h) false,
          if bytes_recvd <? 0 then c
          else UdpFeedHandler.on_datagram cbs clock bytes_recvd buf (local_subscriptions_ h) c)
  else None.

Definition Udp : Link := {|
  disseminator := UdpDisseminator.t;
  handler := UdpReceiver;
  parcel := list byte;
  link_send := UdpDisseminator.send_impl;
  link_carried := UdpDisseminator.sent;
  link_subscribe := fun s h =>
    '(_, q) ← UdpFeedHandler.subscribe_impl s (command_queue_ h); Some (set_commands q h);
  link_unsubscribe := fun s h =>
    '(_, q) ← UdpFeedHandler.unsubscribe_impl s (command_queue_ h); Some (set_commands q h);
  link_poll := udp_poll;
  link_receive := fun C cbs clock u =>
    udp_receive cbs clock (match u with Some d => UdpFeedHandler.Received d | None => UdpFeedHandler.RecvFailed true end);
|}.

Definition udp_pending (h : UdpReceiver) (pending : list SubCommand) : Prop :=
  CustomSpscQueue.repr 128 (command_queue_ h) pending.

Definition udp_handler (h : UdpReceiver) : Prop := (exists pending, udp_pending h pending) /\ length (buffer h) = 1024%nat.

Definition udp_accepts (hdr : list byte) (h : UdpReceiver) : bool :=
  bool_decide (le_val (drop 2 hdr) ∈ local_subscriptions_ h).

(** Looking for a command when [pending] are waiting. *)
Lemma udp_poll_spec h pending : udp_pending h pending -> drained h = false ->
  exists q, udp_poll h = Some match pending with
    | [] => UdpReceiving q (local_subscriptions_ h) (buffer h) (cmd h) true
    | c :: _ => UdpReceiving q (UdpFeedHandler.apply_command (local_subscriptions_ h) c) (buffer h) c false
    end /\ CustomSpscQueue.repr 128 q (tail pending).
Proof.
  intros Hq Hd. unfold udp_poll. rewrite Hd.
  destruct (CustomSpscQueue.ring_pop 128 (command_queue_ h) pending (cmd h) Hq) as (q & -> & Hq').
  exists q. by destruct pending.
Qed.

Lemma udp_push_keeps b s h : udp_handler h ->
  exists r q, CustomSpscQueue.push (Cmd b (pack_symbol s)) (command_queue_ h) = Some (r, q) /\
              udp_handler (set_commands q h).
Proof.
  intros [[pending Hq] Hb].
  destruct (CustomSpscQueue.ring_push 128 (command_queue_ h) pending (Cmd b (pack_symbol s)) Hq) as (q & -> & Hq').
  eexists _, q. split; [done|]. split; [by eexists|done].
Qed.

Lemma udp_polls_drain pending h : udp_pending h pending -> drained h = false ->
  exists h', polls (L:=Udp) (S (length pending)) h = Some h' /\ udp_pending h' [] /\ drained h' = true /\
    buffer h' = buffer h /\
    local_subscriptions_ h' = foldl UdpFeedHandler.apply_command (local_subscriptions_ h) pending.
Proof.
  revert h; induction pending as [|c pending IH]; intros h Hq Hd; cbn [polls length link_poll Udp];
    destruct (udp_poll_spec h _ Hq Hd) as (q & -> & Hq').
  - by eexists.
  - match goal with |- context [Some ?h1 ≫= _] => destruct (IH h1 Hq' eq_refl) as (h' & Hp & Hrest) end.
    exists h'. cbn [mbind option_bind]. by split; [exact Hp|].
Qed.

Lemma udp_receive_keeps {C} (cbs : IFeedHandler.callbacks C) clock r h h' c c' :
  udp_handler h -> udp_receive cbs clock r h c = Some (h', c') ->
  udp_handler h' /\ command_queue_ h' = command_queue_ h /\ local_subscriptions_ h' = local_subscriptions_ h /\
  c' = UdpFeedHandler.handle cbs (local_subscriptions_ h) clock r c.
Proof.
  intros [Hq Hb] Hr. unfold udp_receive in Hr. destruct (drained h); [|done].
  pose proof (receive_handles cbs r clock (buffer h) (local_subscriptions_ h) c Hb) as Hh.
  destruct (UdpFeedHandler.recvfrom r (buffer h)) as [n buf]. destruct Hh as [Hb' Hh]. simplify_eq/=.
  by split_and!.
Qed.

(** The commands waiting, and the look that finds none. *)
Definition udp_waiting (h : UdpReceiver) : nat :=
  if drained h then 0
  else S (Z.to_nat (u64 (CustomSpscQueue.write_ (command_queue_ h) - CustomSpscQueue.read_ (command_queue_ h)))).

Lemma udp_waiting_pending h pending : udp_pending h pending -> drained h = false -> udp_waiting h = S (length pending).
Proof.
  intros Hq Hd. unfold udp_waiting. rewrite Hd, (CustomSpscQueue.repr_occupancy 128 eq_refl _ _ Hq).
  by rewrite Nat2Z.id.
Qed.

#[export] Program Instance Udp_laws : LinkLaws Udp := {|
  link_ok := fun _ => True;
  stack_size := UdpDisseminator.buffer_size;
  parcel_of := datagram;
  handler_ok := udp_handler;
  accepts := udp_accepts;
  settled := fun h => udp_pending h [];
  ready := drained;
  waiting := udp_waiting;
|}.
Next Obligation.
  intros stack pad m d _ Hs Hp Hm. simpl.
  rewrite udp_send_eq; [|done|by apply length_header|rewrite length_payload by done; destruct m; simpl; lia].
  by eexists.
Qed.
Next Obligation.
  intros s h Hh. simpl. unfold UdpFeedHandler.subscribe_impl.
  destruct (udp_push_keeps true s h Hh) as (r & q & -> & Hq). by eexists.
Qed.
Next Obligation.
  intros s h Hh. simpl. unfold UdpFeedHandler.unsubscribe_impl.
  destruct (udp_push_keeps false s h Hh) as (r & q & -> & Hq). by eexists.
Qed.
Next Obligation.
  intros h h' [[pending Hq] Hb] Hp. simpl in *. destruct (drained h) eqn:Hd; [by unfold udp_poll in Hp; rewrite Hd in Hp|].
  split.
  - destruct (udp_poll_spec h pending Hq Hd) as (q & Hp' & Hq'). rewrite Hp in Hp'. injection Hp' as ->.
    split; [by exists (tail pending); destruct pending|by destruct pending].
  - intros Hs. destruct (udp_poll_spec h [] Hs Hd) as (q & Hp' & Hq'). rewrite Hp in Hp'. by injection Hp' as ->.
Qed.
Next Obligation.
  intros C cbs clock pad m h h' c c' Hh Hp Hm Hr. simpl in *.
  apply udp_receive_keeps in Hr as (_ & _ & _ & ->); [|done]. unfold handle.
  by rewrite parse_sent_datagram, datagram_symbol.
Qed.
Next Obligation.
  intros C cbs clock h h' c c' Hr. simpl in *. unfold udp_receive in Hr. by destruct (drained h); simplify_eq/=.
Qed.
Next Obligation.
  intros C cbs clock u h h' c c' Hh Hr. simpl in *.
  apply udp_receive_keeps in Hr as (Hh' & Hq & Hs & _); [|done]. split; [done|].
  split; [unfold udp_pending; by rewrite Hq|]. intros hdr. unfold udp_accepts. by rewrite Hs.
Qed.
Next Obligation.
  intros C cbs clock u h c _ Hr. simpl in *. unfold udp_receive. rewrite Hr.
  destruct (UdpFeedHandler.recvfrom _ _). by eexists.
Qed.
Next Obligation.
  intros h [[pending Hq] _] Hd. simpl in Hd. destruct (udp_poll_spec h pending Hq Hd) as (q & Hp & _). by eexists.
Qed.
Next Obligation.
  intros h h' [[pending Hq] _] Hp. simpl in *. destruct (drained h) eqn:Hd; [by unfold udp_poll in Hp; rewrite Hd in Hp|].
  destruct (udp_poll_spec h pending Hq Hd) as (q & Hp' & Hq'). rewrite Hp in Hp'. injection Hp' as ->.
  rewrite (udp_waiting_pending h pending Hq Hd). destruct pending as [|c pending]; [unfold udp_waiting; simpl; lia|].
  match goal with |- context [udp_waiting ?h1] => rewrite (udp_waiting_pending h1 pending Hq' eq_refl) end. simpl. lia.
Qed.

(** The thread when it starts: an empty queue, no subscriptions, and whatever the
    stack holds. *)
Definition udp_fresh (stack : list byte) (cmd : SubCommand) : UdpReceiver :=
  UdpReceiving (CustomSpscQueue.init 128) ∅ stack cmd false.

Lemma udp_fresh_ok stack cmd : length stack = 1024%nat -> udp_handler (udp_fresh stack cmd).
Proof. intros Hs. split; [|done]. exists []. apply CustomSpscQueue.repr_init. lia. Qed.

Lemma udp_subscribe_all symbols h pending :
  udp_pending h pending -> (length pending + length symbols <= 128)%nat ->
  exists h', subscribe_all (L:=Udp) symbols h = Some h' /\
    udp_pending h' (pending ++ ((fun s => Cmd true (pack_symbol s)) <$> symbols)) /\
    local_subscriptions_ h' = local_subscriptions_ h /\ buffer h' = buffer h /\ drained h' = drained h.
Proof.
  revert h pending; induction symbols as [|s symbols IH]; intros h pending Hq Hlen.
  { exists h. by rewrite app_nil_r. }
  cbn [subscribe_all subscribe link_subscribe Udp]. unfold UdpFeedHandler.subscribe_impl. simpl in Hlen.
  destruct (CustomSpscQueue.ring_push 128 (command_queue_ h) pending (Cmd true (pack_symbol s)) Hq) as (q & Hp & Hq').
  unfold Fifo.push in *. change (Z.to_nat 128) with 128%nat in *. rewrite decide_True in * by lia.
  simpl in Hp, Hq'. rewrite Hp. cbn [mbind option_bind].
  destruct (IH (set_commands q h) (pending ++ [Cmd true (pack_symbol s)]) Hq') as (h' & Hh' & Hrest).
  { rewrite length_app. simpl. lia. }
  exists h'. split; [exact Hh'|]. rewrite fmap_cons. by rewrite <- app_assoc in Hrest.
Qed.

Lemma short_c_symbol symbols : Forall short_symbol symbols -> Forall c_symbol symbols.
Proof. intros Hs. eapply Forall_impl; [exact Hs|]. by intros ? []. Qed.

(** The field of a message of such a symbol is that symbol, padded. *)
Lemma short_msg symbols m : Forall short_symbol symbols -> msg_of symbols m ->
  exists s, s ∈ symbols /\ c_symbol s /\ msg_symbol m = symbol_field s /\ take 7 s = s.
Proof.
  intros Hsyms (_ & _ & s & Hs & Hm). exists s.
  pose proof (proj1 (Forall_forall _ _) Hsyms s Hs) as [Hc Hl]. by rewrite take_ge.
Qed.

Lemma udp_covers symbols h : Forall short_symbol symbols -> udp_pending h [] ->
  local_subscriptions_ h = all_subscribed symbols -> covers (L:=Udp) symbols h.
Proof.
  intros Hsyms Hq Hs. split; [done|]. intros m Hm.
  destruct (short_msg symbols m Hsyms Hm) as (s & Hin & Hc & Hf & Ht).
  apply bool_decide_eq_true. simpl. rewrite Hs, Hf.
  apply all_subscribed_elem; [by apply short_c_symbol|done|by rewrite Ht].
Qed.

(** Subscribing to at most 128 symbols of at most seven characters and letting the
    thread look for them prepares a handler for every message of theirs. *)
Lemma udp_prepared symbols stack cmd : Forall short_symbol symbols -> (length symbols <= 128)%nat ->
  length stack = 1024%nat ->
  exists h1 h2, subscribe_all (L:=Udp) symbols (udp_fresh stack cmd) = Some h1 /\
    polls (L:=Udp) (S (length symbols)) h1 = Some h2 /\
    udp_handler h2 /\ drained h2 = true /\ covers (L:=Udp) symbols h2.
Proof.
  intros Hsyms Hlen Hstack.
  destruct (udp_subscribe_all symbols (udp_fresh stack cmd) []) as (h1 & Hs & Hq1 & Hsub1 & Hb1 & Hd1);
    [apply CustomSpscQueue.repr_init; lia|done|].
  destruct (udp_polls_drain _ h1 Hq1 Hd1) as (h2 & Hp & Hq2 & Hd2 & Hb2 & Hsub2).
  rewrite length_app, length_fmap in Hp. exists h1, h2. split_and!; [done..| |done|].
  - split; [by exists []|]. by rewrite Hb2, Hb1.
  - apply udp_covers; [done..|]. by rewrite Hsub2, Hsub1.
Qed.

(** * ZeroMQ *)

Section Zmq.
Context {S : Type} `{SubSocket S}.

(** What the two [recv]s of a turn do when a two-part message arrives, or nothing. *)
Definition zmq_recv (u : option (list byte * list byte)) : ZmqFeedHandler.recv_result * ZmqFeedHandler.recv_result :=
  match u with
  | Some (topic, payload) => (ZmqFeedHandler.Frame topic true, ZmqFeedHandler.Frame payload false)
  | None => (ZmqFeedHandler.TimedOut, ZmqFeedHandler.TimedOut)
  end.

(** The library drops a message that no filter of the socket accepts. *)
Definition zmq_arrives (u : option (list byte * list byte)) (s : S) : option (list byte * list byte) :=
  '(topic, payload) ← u; if sub_accepts topic s then Some (topic, payload) else None.

Definition zmq_receive {C} (cbs : IFeedHandler.callbacks C) (clock : Z) (u : option (list byte * list byte))
    (s : S) (c : C) : option (S * C) :=
  let '(topic, payload) := zmq_recv (zmq_arrives u s) in
  Some (s, (ZmqFeedHandler.receive cbs clock topic payload c).1).

Definition Zmq : Link := {|
  disseminator := ZmqDisseminator.t;
  handler := S;
  parcel := list byte * list byte;
  link_send := fun _ => ZmqDisseminator.send_impl;
  link_carried := zmq_sent;
  link_subscribe := fun symbol s => Some (ZmqFeedHandler.subscribe_impl symbol s);
  link_unsubscribe := fun symbol s => Some (ZmqFeedHandler.unsubscribe_impl symbol s);
  link_poll := fun _ => None;                    (* it looks for none *)
  link_receive := @zmq_receive;
|}.
End Zmq.
#[global] Arguments Zmq S {_}.

Lemma zmq_receive_shows {C} (cbs : IFeedHandler.callbacks C) clock topic payload c :
  (ZmqFeedHandler.receive cbs clock (ZmqFeedHandler.Frame topic true) (ZmqFeedHandler.Frame payload false) c).1 =
  match parse_frames topic payload with Some m => deliver cbs clock m c | None => c end.
Proof.
  pose proof (receive_spec cbs (ZmqFeedHandler.Turn false (ZmqFeedHandler.Frame topic true)
                (ZmqFeedHandler.Frame payload false) clock) c) as Hr.
  cbn [ZmqFeedHandler.recv_topic ZmqFeedHandler.recv_payload ZmqFeedHandler.clock] in Hr. by rewrite Hr.
Qed.

#[export] Program Instance Zmq_laws {S} `{SubSocket S} : LinkLaws (Zmq S) := {|
  link_ok := zmq_ok;
  stack_size := 0;
  parcel_of := fun pad m => (header m, payload_bytes pad m);
  handler_ok := fun _ => True;
  accepts := sub_accepts;
  settled := fun _ => True;
  ready := fun _ => true;
  waiting := fun _ => 0%nat;
|}.
Next Obligation.
  intros S ? stack pad m d Hd _ Hp Hm. simpl. rewrite zmq_send_eq by by apply length_header.
  eexists. split; [done|]. split; [done|]. unfold zmq_sent. simpl. by rewrite Hd, omap_app.
Qed.
Next Obligation. intros. by eexists. Qed.
Next Obligation. intros. by eexists. Qed.
Next Obligation. done. Qed.
Next Obligation.
  intros S ? C cbs clock pad m h h' c c' _ Hp Hm Hr. simpl in *.
  unfold zmq_receive, zmq_arrives in Hr. simpl in Hr.
  destruct (sub_accepts (header m) h); simpl in Hr; [|by injection Hr as _ ->].
  injection Hr as _ <-. fold (header m).
  pose proof (zmq_receive_shows cbs clock (header m) (payload_bytes pad m) c) as Hs.
  by rewrite parse_sent_frames in Hs.
Qed.
Next Obligation. intros S ? C cbs clock h h' c c' Hr. by injection Hr. Qed.
Next Obligation.
  intros S ? C cbs clock u h h' c c' _ Hr. simpl in *. unfold zmq_receive in Hr.
  destruct (zmq_recv _). by injection Hr as -> _.
Qed.
Next Obligation. intros S ? C cbs clock u h c _ _. simpl. unfold zmq_receive. destruct (zmq_recv _). by eexists. Qed.
Next Obligation. done. Qed.
Next Obligation. done. Qed.

Lemma zmq_subscribe_all {S} `{SubSocket S} symbols (s : S) :
  subscribe_all (L:=Zmq S) symbols s = Some (subscribed symbols s).
Proof. revert s; induction symbols as [|x symbols IH]; intros s; [done|]. simpl. by rewrite IH. Qed.

Lemma zmq_covers {S} `{SubSocketLaws S} symbols (s : S) : Forall short_symbol symbols ->
  covers (L:=Zmq S) symbols (subscribed symbols s).
Proof.
  intros Hsyms. split; [done|]. intros m Hm.
  destruct (short_msg symbols m Hsyms Hm) as (x & Hin & Hc & Hf & Ht).
  apply sub_accepts_spec. setoid_rewrite subscribed_filters.
  assert (Hp : x `prefix_of` msg_symbol m) by (rewrite Hf, <- Ht at 1; by apply prefix_matches; rewrite ?Ht).
  apply topic_prefix in Hp as [Hp|Hp]; (eexists; split; [|exact Hp]); right; exists x; auto.
Qed.

(** * The loop of the UDP handler takes these steps *)

Section UdpLoop.
Context {C : Type} (cbs : IFeedHandler.callbacks C).

(** What happens to the thread: another thread acts, it looks for a command, it
    receives. *)
Inductive handler_act :=
  | Event (e : UdpFeedHandler.env_event)
  | Look
  | Recv (r : UdpFeedHandler.recv_result) (clock : Z).

Definition handler_exec (a : handler_act) (s : UdpReceiver * C) : option (UdpReceiver * C) :=
  match a with
  | Event (UdpFeedHandler.Subscribe symbol) => h ← subscribe (L:=Udp) symbol s.1; Some (h, s.2)
  | Event (UdpFeedHandler.Unsubscribe symbol) => h ← unsubscribe (L:=Udp) symbol s.1; Some (h, s.2)
  | Event UdpFeedHandler.RequestStop => Some s
  | Look => h ← link_poll Udp s.1; Some (h, s.2)
  | Recv r clock => udp_receive cbs clock r s.1 s.2
  end.

(** The state of [receive_loop_impl] and of the thread. *)
Definition matches (w : UdpFeedHandler.world C) (s : UdpReceiver * C) (d : bool) : Prop :=
  command_queue_ s.1 = UdpFeedHandler.queue w /\
  local_subscriptions_ s.1 = UdpFeedHandler.local_subscriptions_ w /\
  buffer s.1 = UdpFeedHandler.buffer w /\ s.2 = UdpFeedHandler.client w /\ drained s.1 = d.

Lemma pop_item_irrelevant {T cap} (y y' : T) (q : CustomSpscQueue.t T cap) b x q' :
  CustomSpscQueue.pop y q = Some (b, x, q') ->
  CustomSpscQueue.pop y' q = Some (b, if b then x else y', q').
Proof.
  unfold CustomSpscQueue.pop. repeat case_match; intros; simplify_option_eq; try done.
Qed.

Lemma events_are_acts es w w' s d : matches w s d -> UdpFeedHandler.env_acts es w = Some w' ->
  exists s', run handler_exec (Event <$> es) s = Some s' /\ matches w' s' d.
Proof.
  revert w s; induction es as [|e es IH]; intros w [h c] Hm He; [by injection He as <-; exists (h, c)|].
  cbn [UdpFeedHandler.env_acts] in He. apply bind_Some in He as (w1 & He1 & He).
  assert (exists s1, handler_exec (Event e) (h, c) = Some s1 /\ matches w1 s1 d) as (s1 & Hs1 & Hm1).
  { destruct Hm as (Hq & Hs & Hb & Hc & Hd). simpl in *. destruct e as [x|x|]; simpl in *.
    - rewrite Hq. apply bind_Some in He1 as ([b q] & -> & He1). injection He1 as <-. simpl. by eexists.
    - rewrite Hq. apply bind_Some in He1 as ([b q] & -> & He1). injection He1 as <-. simpl. by eexists.
    - injection He1 as <-. by eexists. }
  destruct (IH w1 s1 Hm1 He) as (s' & Hr & Hm'). exists s'. rewrite fmap_cons. cbn [run]. by rewrite Hs1.
Qed.

Definition drain_world (o : UdpFeedHandler.drain_outcome C) : UdpFeedHandler.world C * bool :=
  match o with UdpFeedHandler.Drained w => (w, true) | UdpFeedHandler.Draining w => (w, false) end.

Lemma drain_is_acts ps cmd w s o : matches w s false -> UdpFeedHandler.drain ps cmd w = Some o ->
  exists acts s', run handler_exec acts s = Some s' /\ matches (drain_world o).1 s' (drain_world o).2.
Proof.
  revert cmd w s; induction ps as [|es ps IH]; intros c0 w s Hm Hd; [by injection Hd as <-; exists [], s|].
  cbn [UdpFeedHandler.drain] in Hd. apply bind_Some in Hd as (w1 & He & Hd).
  destruct (events_are_acts es w w1 s false Hm He) as ([h c] & Hr1 & Hm1).
  apply bind_Some in Hd as ([[b c1] q] & Hpop & Hd). pose proof Hm1 as (Hq & Hs & Hb & Hc & Hdr). simpl in *.
  pose proof (pop_item_irrelevant c0 (cmd h) _ _ _ _ Hpop) as Hpop'.
  assert (exists h', handler_exec Look (h, c) = Some (h', c) /\
    matches (if b then UdpFeedHandler.World q (UdpFeedHandler.stop_requested w1) (UdpFeedHandler.buffer w1)
               (UdpFeedHandler.apply_command (UdpFeedHandler.local_subscriptions_ w1) c1)
               (UdpFeedHandler.client w1) (UdpFeedHandler.accepted w1)
             else UdpFeedHandler.set_queue q (UdpFeedHandler.accepted w1) w1) (h', c) (negb b)) as (h' & Hl & Hm2).
  { simpl. unfold udp_poll. rewrite Hdr, Hq, Hpop'. simpl. eexists. split; [done|].
    unfold matches. destruct b; simpl; split_and!; congruence. }
  destruct b.
  - destruct (IH _ _ _ Hm2 Hd) as (acts & s' & Hr & Hm'). exists ((Event <$> es) ++ Look :: acts), s'.
    rewrite run_app, Hr1. cbn [mbind option_bind run]. by rewrite Hl.
  - injection Hd as <-. exists ((Event <$> es) ++ [Look]), (h', c).
    rewrite run_app, Hr1. cbn [mbind option_bind run]. by rewrite Hl.
Qed.

(** Every run of [receive_loop_impl], up to its last state, is a run of these
    steps. *)
Lemma loop_is_acts turns cmd w s o : matches w s false ->
  UdpFeedHandler.receive_loop_impl cbs turns cmd w = Some o ->
  exists acts s' d, run handler_exec acts s = Some s' /\ matches (outcome_world o) s' d.
Proof.
  revert w s; induction turns as [|t turns IH]; intros w s Hm Hl; [by injection Hl as <-; exists [], s, false|].
  cbn [UdpFeedHandler.receive_loop_impl] in Hl. apply bind_Some in Hl as (w1 & He & Hl).
  destruct (events_are_acts _ w w1 s false Hm He) as (s1 & Hr1 & Hm1).
  destruct (UdpFeedHandler.stop_requested w1); [by injection Hl as <-; exists (Event <$> UdpFeedHandler.before_test t), s1, false|].
  apply bind_Some in Hl as (o2 & Hd & Hl).
  destruct (drain_is_acts _ _ _ _ _ Hm1 Hd) as (acts2 & [h c] & Hr2 & Hm2).
  destruct o2 as [w2|w2]; simpl in Hm2.
  2: { injection Hl as <-. exists ((Event <$> UdpFeedHandler.before_test t) ++ acts2), (h, c), false.
       rewrite run_app, Hr1. by split. }
  pose proof Hm2 as (Hq & Hs & Hb & Hc & Hdr). simpl in *.
  destruct (UdpFeedHandler.recvfrom (UdpFeedHandler.recv t) (UdpFeedHandler.buffer w2)) as [n buf] eqn:Er.
  match type of Hl with UdpFeedHandler.receive_loop_impl _ _ _ ?w3 = _ =>
    assert (exists s3, handler_exec (Recv (UdpFeedHandler.recv t) (UdpFeedHandler.clock t)) (h, c) = Some s3 /\
                       matches w3 s3 false) as (s3 & Hx & Hm3) end.
  { simpl. unfold udp_receive. rewrite Hdr, Hb, Er. eexists. split; [done|]. unfold matches. simpl.
    by rewrite Hc, Hs. }
  destruct (IH _ _ Hm3 Hl) as (acts & s' & d & Hr & Hm').
  exists ((Event <$> UdpFeedHandler.before_test t) ++ acts2 ++
          Recv (UdpFeedHandler.recv t) (UdpFeedHandler.clock t) :: acts), s', d. split; [|exact Hm'].
  rewrite run_app, Hr1. cbn [mbind option_bind]. rewrite run_app, Hr2. cbn [mbind option_bind run].
  rewrite Hx. exact Hr.
Qed.
End UdpLoop.
