(* ===== verification/Channel.v ===== *)
(** What the program promises as a whole, without its bytes, sockets and rings: an
    ideal channel on which messages go from a generator through a bounded queue and
    a network to a client that is interested in some of them. [System.v] shows that
    the program implements it. *)

From S2P Require Import Prelude Types QueueConcepts RandomWalkGenerator Disseminator.
From stdpp Require Import options.

(** * The steps *)

(** What happens next, in the program and on the channel. A step with a clock
    reading takes place when the clock is read. *)
Inductive label :=
  | Make (gen_clock enqueue_clock : Z)                    (* the generator makes a message and stamps it *)
  | Push                                                  (* it tries to push the message it has made *)
  | Pop                                                   (* the disseminator looks at the queue *)
  | Publish (clock : Z) (pad stack : list byte)           (* it stamps and sends the message it took *)
  | Receive (i : nat) (duplicate : bool) (clock : Z)      (* the [i]-th parcel in flight arrives *)
  | Miss (clock : Z)                                      (* the handler receives nothing *)
  | Lose (i : nat)                                        (* the network loses a parcel *)
  | Request (subscribing : bool) (symbol : list byte)     (* the client subscribes or unsubscribes *)
  | Poll.                                                 (* the handler looks for a request *)

(** A message as it was sent: stamped at a time, with some padding. *)
Record shipment := Ship { ship_msg : MarketDataMsg; ship_clock : Z; ship_pad : list byte }.

Definition shipped (x : shipment) : MarketDataMsg := stamp_disseminate (ship_clock x) (ship_msg x).

Definition enqueue_time (m : MarketDataMsg) : Z :=
  match m with QuoteMsg q => Quote.enqueue_timestamp q | TradeMsg x => Trade.enqueue_timestamp x end.

(** [made] records every message, [shown] what the client was shown and when;
    [interested hdr] says whether it wants messages with the header [hdr], and
    [quiet] that no request is waiting that could change this. *)
Record channel := Channel {
  made : list MarketDataMsg;
  making : option MarketDataMsg;
  queued : list MarketDataMsg;
  held : option MarketDataMsg;
  flying : list shipment;
  shown : list (shipment * Z);
  interested : list byte -> bool;
  quiet : Prop;
}.

(** Offer the message that was made to the queue. *)
Definition offer (cap : nat) (m : MarketDataMsg) (a : channel) : channel :=
  let '(b, l) := Fifo.push cap m (queued a) in
  Channel (made a) (if b : bool then None else Some m) l (held a) (flying a) (shown a) (interested a) (quiet a).

#[global] Arguments offer : simpl never.

Definition arrive (i : nat) (duplicate : bool) (clock : Z) (x : shipment) (a : channel) : channel :=
  Channel (made a) (making a) (queued a) (held a)
    (if duplicate then flying a else delete i (flying a))
    (if interested a (header (ship_msg x)) then shown a ++ [(x, u64 clock)] else shown a)
    (interested a) (quiet a).

Inductive channel_step (symbols : list (list byte)) (cap : nat) : label -> channel -> channel -> Prop :=
  | ch_make c1 c2 m a : making a = None -> msg_of symbols m -> enqueue_time m = u64 c2 ->
      channel_step symbols cap (Make c1 c2) a
        (Channel (made a ++ [m]) (Some m) (queued a) (held a) (flying a) (shown a) (interested a) (quiet a))
  | ch_push m a : making a = Some m -> channel_step symbols cap Push a (offer cap m a)
  | ch_pop m l a : held a = None -> queued a = m :: l ->
      channel_step symbols cap Pop a
        (Channel (made a) (making a) l (Some m) (flying a) (shown a) (interested a) (quiet a))
  | ch_pop_empty a : held a = None -> queued a = [] -> channel_step symbols cap Pop a a
  | ch_publish c pad stack m a : held a = Some m ->
      channel_step symbols cap (Publish c pad stack) a
        (Channel (made a) (making a) (queued a) None (flying a ++ [Ship m c pad]) (shown a) (interested a) (quiet a))
  | ch_receive i duplicate clock x a : flying a !! i = Some x ->
      channel_step symbols cap (Receive i duplicate clock) a (arrive i duplicate clock x a)
  | ch_miss clock a : channel_step symbols cap (Miss clock) a a
  | ch_lose i a :
      channel_step symbols cap (Lose i) a
        (Channel (made a) (making a) (queued a) (held a) (delete i (flying a)) (shown a) (interested a) (quiet a))
  | ch_request b s interested' (quiet' : Prop) a :
      channel_step symbols cap (Request b s) a
        (Channel (made a) (making a) (queued a) (held a) (flying a) (shown a) interested' quiet')
  | ch_poll interested' (quiet' : Prop) a :
      (quiet a -> quiet' /\ forall hdr, interested' hdr = interested a hdr) ->
      channel_step symbols cap Poll a
        (Channel (made a) (making a) (queued a) (held a) (flying a) (shown a) interested' quiet').

(** An empty channel. *)
Definition idle (interest : list byte -> bool) (q : Prop) : channel := Channel [] None [] None [] [] interest q.

(** * What the channel guarantees *)

Section Channel.
Context (symbols : list (list byte)) (cap : nat).
Implicit Types (a : channel).

(** ** Any network *)

(** The messages that left are a prefix of those made, and nothing else is in flight
    or was shown. *)
Definition genuine a : Prop := exists ships,
  made a = (ship_msg <$> ships) ++ option_list (held a) ++ queued a ++ option_list (making a) /\
  Forall (fun x => x ∈ ships) (flying a) /\ Forall (fun p => p.1 ∈ ships) (shown a).

Definition well_made a : Prop := Forall (msg_of symbols) (made a).

Lemma offer_conserves m a l : made a = l ++ queued a ++ option_list (making a) -> making a = Some m ->
  made (offer cap m a) = l ++ queued (offer cap m a) ++ option_list (making (offer cap m a)).
Proof.
  intros Hl Hm. rewrite Hm in Hl. unfold offer, Fifo.push. case_decide; simpl; [|done].
  by rewrite app_nil_r.
Qed.

Lemma offer_keeps m a : held (offer cap m a) = held a /\ flying (offer cap m a) = flying a /\
  shown (offer cap m a) = shown a /\ interested (offer cap m a) = interested a /\ quiet (offer cap m a) = quiet a.
Proof. unfold offer. by destruct (Fifo.push cap m (queued a)). Qed.

Lemma genuine_step l a a' : genuine a -> channel_step symbols cap l a a' -> genuine a'.
Proof using Type.
  intros (ships & Hm & Hf & Hs) Hstep. inversion Hstep; subst; simpl in *; try (by exists ships).
  - exists ships. rewrite Hm. split; [|done]. match goal with E : making a = None |- _ => rewrite E end.
    simpl. rewrite app_nil_r, <- !app_assoc. done.
  - destruct (offer_keeps m a) as (Hh & Hf' & Hs' & _). exists ships. rewrite Hh, Hf', Hs'. split; [|done].
    rewrite app_assoc in Hm |- *. by apply offer_conserves.
  - exists ships. split; [|done]. rewrite Hm. simpl.
    by repeat match goal with E : _ a = _ |- _ => rewrite E end.
  - exists (ships ++ [Ship m c pad]). rewrite fmap_app. split_and!.
    + rewrite Hm. match goal with E : held a = _ |- _ => rewrite E end. by rewrite <- app_assoc.
    + apply Forall_app. split; [|apply Forall_singleton, elem_of_app; right; by left].
      eapply Forall_impl; [exact Hf|]. intros x Hx. apply elem_of_app. by left.
    + eapply Forall_impl; [exact Hs|]. intros p Hp. apply elem_of_app. by left.
  - exists ships. unfold arrive. simpl. split; [done|].
    split; [destruct duplicate; [done|by apply Forall_delete]|].
    destruct (interested a (header (ship_msg x))); [|done]. apply Forall_app. split; [done|]. apply Forall_singleton. simpl.
    match goal with E : flying a !! _ = Some _ |- _ => exact (Forall_lookup_1 _ _ _ _ Hf E) end.
  - exists ships. split_and!; [done|by apply Forall_delete|done].
Qed.

Lemma well_made_step l a a' : well_made a -> channel_step symbols cap l a a' -> well_made a'.
Proof using Type.
  unfold well_made. intros Ha Hstep. inversion Hstep; subst; simpl; try done.
  - apply Forall_app. by split; [|apply Forall_singleton].
  - unfold offer. by destruct (Fifo.push cap m (queued a)).
Qed.

(** ** A network that neither loses, duplicates nor reorders *)

Definition orderly (l : label) : Prop :=
  match l with
  | Receive i duplicate _ => i = 0%nat /\ duplicate = false
  | Lose _ | Request _ _ => False
  | _ => True
  end.

(** Everything made is shown, in flight, held by the disseminator, queued or about
    to be pushed, in this order; and the client wants all of it. *)
Record in_order a : Prop := {
  io_made : made a = (ship_msg <$> (shown a).*1) ++ (ship_msg <$> flying a) ++
                     option_list (held a) ++ queued a ++ option_list (making a);
  io_quiet : quiet a;
  io_wanted : forall m, msg_of symbols m -> interested a (header m) = true;
}.

Lemma in_order_step l a a' : well_made a -> in_order a -> orderly l -> channel_step symbols cap l a a' -> in_order a'.
Proof using Type.
  intros Hwell [Hm Hq Hw] Hl Hstep. inversion Hstep; subst; simpl in *; try done; try (by split).
  - split; simpl; [|done..]. rewrite Hm. match goal with E : making a = None |- _ => rewrite E end.
    simpl. by rewrite app_nil_r, <- !app_assoc.
  - destruct (offer_keeps m a) as (Hh & Hf & Hs & Hi & Hqt). split; rewrite ?Hh, ?Hf, ?Hs, ?Hi, ?Hqt; [|done..].
    rewrite !app_assoc in Hm |- *. rewrite <- (app_assoc _ (queued a)) in Hm. rewrite <- app_assoc.
    by apply offer_conserves.
  - split; simpl; [|done..]. rewrite Hm. by repeat match goal with E : _ a = _ |- _ => rewrite E end.
  - split; simpl; [|done..]. rewrite Hm, fmap_app. match goal with E : held a = _ |- _ => rewrite E end.
    by rewrite <- !app_assoc.
  - destruct Hl as [-> ->]. destruct (flying a) as [|y fl] eqn:E; [done|]. simplify_eq/=.
    assert (Hx : msg_of symbols (ship_msg x)).
    { unfold well_made in Hwell. rewrite Hm in Hwell. apply Forall_app in Hwell as [_ Hwell].
      by apply Forall_cons in Hwell as [? _]. }
    split; simpl; [|done..]. rewrite Hm, E, Hw by done. simpl. by rewrite !fmap_app, <- !app_assoc.
  - match goal with Hp : quiet a -> _ |- _ => destruct (Hp Hq) as [Hq' Hi] end.
    split; simpl; [done..|]. intros m Hmo. by rewrite Hi, Hw.
Qed.

(** ** Time *)

Definition reading (l : label) : option Z :=
  match l with
  | Make _ c | Publish c _ _ | Receive _ _ c | Miss c => Some c
  | _ => None
  end.

(** The readings of the clock never go back, from [now] on, and fit 64 bits. *)
Fixpoint monotone (now : Z) (ls : list label) : Prop :=
  match ls with
  | [] => True
  | l :: ls' =>
      match reading l with
      | Some c => now <= c < 2 ^ 64 /\ monotone c ls'
      | None => monotone now ls'
      end
  end.

(** At [now], no message is later than its place on the way. *)
Record timely (now : Z) a : Prop := {
  tm_waiting : Forall (fun m => 0 <= enqueue_time m <= now)
                 (option_list (making a) ++ queued a ++ option_list (held a));
  tm_flying : Forall (fun x => 0 <= enqueue_time (ship_msg x) <= ship_clock x /\ ship_clock x <= now) (flying a);
  tm_shown : Forall (fun p => 0 <= enqueue_time (ship_msg p.1) <= ship_clock p.1 /\ ship_clock p.1 <= p.2 <= now) (shown a);
}.

(** The readings a run takes when messages are made, sent and received. *)
Definition make_clocks (ls : list label) : list Z :=
  omap (fun l => match l with Make _ c => Some c | _ => None end) ls.
Definition publish_clocks (ls : list label) : list Z :=
  omap (fun l => match l with Publish c _ _ => Some c | _ => None end) ls.
Definition receive_clocks (ls : list label) : list Z :=
  omap (fun l => match l with Receive _ _ c => Some c | _ => None end) ls.

(** None of them wraps around when the clock never goes back. *)
Lemma monotone_clocks now ls : 0 <= now -> monotone now ls ->
  u64 <$> make_clocks ls = make_clocks ls /\ u64 <$> receive_clocks ls = receive_clocks ls.
Proof using Type.
  revert now; induction ls as [|l ls IH]; intros now Hnow Hm; [done|]. simpl in Hm.
  destruct (reading l) as [c|] eqn:E; [destruct Hm as [Hc Hm]; destruct (IH c ltac:(lia) Hm) as [Hk Hr]|
    destruct (IH now Hnow Hm) as [Hk Hr]]; destruct l; simplify_eq/=;
    unfold make_clocks, receive_clocks in *; rewrite ?Hk, ?Hr, ?u64_small by lia; done.
Qed.

(** A message carries the reading that was taken when it was made. *)
Lemma made_clocks ls a a' : steps (channel_step symbols cap) ls a a' ->
  enqueue_time <$> made a' = (enqueue_time <$> made a) ++ (u64 <$> make_clocks ls).
Proof using Type.
  induction 1 as [a|l ls a a1 a' Hs _ IH]; [by rewrite app_nil_r|].
  rewrite IH. inversion Hs; subst; simpl; try done.
  - rewrite fmap_app, <- app_assoc. simpl. by match goal with E : enqueue_time _ = _ |- _ => rewrite E end.
  - unfold offer. by destruct (Fifo.push cap m (queued a)).
Qed.

(** So do the messages that were sent and those that were received, when the network
    keeps everything in order. *)
Lemma orderly_clocks ls a a' : well_made a -> in_order a -> Forall orderly ls -> steps (channel_step symbols cap) ls a a' ->
  ship_clock <$> (shown a').*1 ++ flying a' = (ship_clock <$> (shown a).*1 ++ flying a) ++ publish_clocks ls /\
  (shown a').*2 = (shown a).*2 ++ (u64 <$> receive_clocks ls).
Proof using Type.
  intros Hw Ho Hls Hst. revert Hw Ho Hls. induction Hst as [a|l ls a a1 a' Hs _ IH]; intros Hw Ho Hls.
  { by rewrite !app_nil_r. }
  apply Forall_cons in Hls as [Hl Hls].
  destruct (IH (well_made_step _ _ _ Hw Hs) (in_order_step _ _ _ Hw Ho Hl Hs) Hls) as [-> ->].
  destruct Ho as [Hm _ Hwant]. inversion Hs; subst; simpl; try done.
  - by destruct (offer_keeps m a) as (_ & -> & -> & _).
  - by rewrite !fmap_app, <- !app_assoc.
  - destruct Hl as [-> ->]. destruct (flying a) as [|y fl] eqn:E; [done|]. simplify_eq/=.
    assert (Hx : msg_of symbols (ship_msg x)).
    { unfold well_made in Hw. rewrite Hm in Hw. apply Forall_app in Hw as [_ Hw]. by apply Forall_cons in Hw as [? _]. }
    rewrite Hwant by done. simpl. by rewrite !fmap_app, <- !app_assoc.
Qed.

Lemma timely_later now now' a : now <= now' -> timely now a -> timely now' a.
Proof using Type.
  intros Hle [Hw Hf Hs]. split; (eapply Forall_impl; [eassumption|]); simpl; intros; lia.
Qed.

Lemma timely_offer now m a : making a = Some m -> timely now a -> timely now (offer cap m a).
Proof using Type.
  intros Hm [Hw Hf Hs]. unfold offer, Fifo.push. rewrite Hm in Hw. case_decide; split; simpl; try done.
  - apply Forall_cons in Hw as [Hm' Hw]. apply Forall_app in Hw as [Hq Hh].
    apply Forall_app. split; [apply Forall_app; split; [done|by apply Forall_singleton]|done].
Qed.

Lemma timely_step now l a a' : 0 <= now -> timely now a -> channel_step symbols cap l a a' ->
  match reading l with Some c => now <= c < 2 ^ 64 -> timely c a' | None => timely now a' end.
Proof using Type.
  intros Hnow Ht Hstep. inversion Hstep; subst; simpl in *; try (by intros []; eapply timely_later); try done.
  - intros Hc. destruct (timely_later now c2 a) as [Hw Hf Hs]; [lia|done|]. split; simpl in *; [|done..].
    match goal with E : making a = None |- _ => rewrite E in Hw end.
    apply Forall_cons. split; [|done]. match goal with E : enqueue_time _ = _ |- _ => rewrite E end.
    rewrite u64_small by lia. lia.
  - by apply timely_offer.
  - destruct Ht as [Hw Hf Hs]. split; simpl; [|done..].
    repeat match goal with E : _ a = _ |- _ => rewrite E in Hw; clear E end. simpl in Hw.
    rewrite app_nil_r in Hw. by rewrite <- (Permutation_cons_append l0 m).
  - intros Hc. destruct (timely_later now c a) as [Hw Hf Hs]; [lia|done|].
    match goal with E : held a = _ |- _ => rewrite E in Hw end.
    rewrite app_assoc in Hw. apply Forall_app in Hw as [Hw Hm]. apply Forall_cons in Hm as [Hm _].
    split; simpl; [by rewrite app_nil_r|apply Forall_app; split; [done|apply Forall_singleton; cbn [ship_msg ship_clock]; lia]|done].
  - intros Hc. destruct (timely_later now clock a) as [Hw Hf Hs]; [lia|done|].
    split; simpl; [done|destruct duplicate; [done|by apply Forall_delete]|].
    destruct (interested a (header (ship_msg x))); [|done]. apply Forall_app. split; [done|]. apply Forall_singleton.
    match goal with E : flying a !! _ = Some _ |- _ => pose proof (Forall_lookup_1 _ _ _ _ Hf E) as Hx end.
    simpl in *. rewrite u64_small by lia. lia.
  - destruct Ht as [Hw Hf Hs]. split; simpl; [done|by apply Forall_delete|done].
  - by destruct Ht.
  - by destruct Ht.
Qed.
End Channel.
