(* ===== verification/System.v ===== *)
(** The components together, over any queue that meets the concept and either
    transport: the path of a message from the generator to the client, as an
    implementation of the ideal channel. *)

From S2P Require Import Prelude Types QueueConcepts CustomSpscQueue Threads BaseGenerator RandomWalkGenerator Calls Disseminator UdpFeedHandler ZmqFeedHandler Wire Links Channel.
From stdpp Require Import options.

Module System.
Section System.
Context {L : Link} {G : Type} `{RandomSource G} {Q : Type} `{SpscQueueStorage Q MarketDataMsg} {C : Type}.
Context (cbs : IFeedHandler.callbacks C).

(** The generator thread and the disseminator thread share the queue, whose calls
    are single steps here: [SpscConcurrency.v] shows that every interleaving of
    their accesses behaves so. [msg] and [topic_buf] are locals of [run_loop], and
    [popped] says that it is between [pop] and [send_impl]. [generated] lists the
    messages the generator has made. *)
Record state := State {
  generator : RandomWalkGenerator.t G;
  pending : option MarketDataMsg;        (* [msg] of [generation_loop], while it is being pushed *)
  queue : Q;
  msg : MarketDataMsg;
  popped : bool;
  topic_buf : list byte;
  publisher : disseminator L;
  wire : list (parcel L);
  subscriber : handler L;
  client : C;
  generated : list MarketDataMsg;
}.

(** A step of one of the loops, or something the network or the client does. *)
Definition exec (l : label) (s : state) : option state :=
  match l with
  | Make gen_clock enqueue_clock =>
      match pending s with
      | Some _ => None
      | None =>
          '(m, g) ← RandomWalkGenerator.generate_msg_impl gen_clock (generator s);
          let m := BaseGenerator.stamp_enqueue enqueue_clock m in
          Some (State g (Some m) (queue s) (msg s) (popped s) (topic_buf s) (publisher s) (wire s)
                      (subscriber s) (client s) (generated s ++ [m]))
      end
  | Push =>
      m ← pending s;
      '(b, q) ← q_push m (queue s);
      Some (State (generator s) (if b : bool then None else Some m) q (msg s) (popped s) (topic_buf s)
                  (publisher s) (wire s) (subscriber s) (client s) (generated s))
  | Pop =>
      if popped s then None
      else
        '(b, m, q) ← q_pop (msg s) (queue s);
        Some (State (generator s) (pending s) q m b (topic_buf s) (publisher s) (wire s) (subscriber s)
                    (client s) (generated s))
  | Publish clock pad stack =>
      if popped s then
        let '(m, topic, payload) := IDisseminator.visit clock pad (msg s) (topic_buf s) in
        d ← link_send L stack topic payload (publisher s);
        Some (State (generator s) (pending s) (queue s) m false topic d
                    (wire s ++ drop (length (link_carried L (publisher s))) (link_carried L d))
                    (subscriber s) (client s) (generated s))
      else None
  | Receive i duplicate clock =>
      u ← wire s !! i;
      '(h, c) ← link_receive L cbs clock (Some u) (subscriber s) (client s);
      Some (State (generator s) (pending s) (queue s) (msg s) (popped s) (topic_buf s) (publisher s)
                  (if duplicate : bool then wire s else delete i (wire s)) h c (generated s))
  | Miss clock =>
      '(h, c) ← link_receive L cbs clock None (subscriber s) (client s);
      Some (State (generator s) (pending s) (queue s) (msg s) (popped s) (topic_buf s) (publisher s)
                  (wire s) h c (generated s))
  | Lose i =>
      Some (State (generator s) (pending s) (queue s) (msg s) (popped s) (topic_buf s) (publisher s)
                  (delete i (wire s)) (subscriber s) (client s) (generated s))
  | Request subscribing symbol =>
      h ← (if subscribing : bool then subscribe symbol (subscriber s) else unsubscribe symbol (subscriber s));
      Some (State (generator s) (pending s) (queue s) (msg s) (popped s) (topic_buf s) (publisher s)
                  (wire s) h (client s) (generated s))
  | Poll =>
      h ← link_poll L (subscriber s);
      Some (State (generator s) (pending s) (queue s) (msg s) (popped s) (topic_buf s) (publisher s)
                  (wire s) h (client s) (generated s))
  end.

(** The threads before their first step: [m0] and [stack] are what the locals of
    [run_loop] hold. *)
Definition start (g : RandomWalkGenerator.t G) (q : Q) (m0 : MarketDataMsg) (stack : list byte)
    (d : disseminator L) (h : handler L) (c : C) : state :=
  State g None q m0 false (IDisseminator.topic_init stack) d [] h c [].
End System.
#[global] Arguments state L G Q C : clear implicits.
End System.
Import System.

(** Names for the state, whose fields the proofs rewrite. *)
Definition in_hand {L G Q C} (s : state L G Q C) : option MarketDataMsg := if popped s then Some (msg s) else None.

(** What a client that was shown messages at given times has made of them. *)
Definition show {C} (cbs : IFeedHandler.callbacks C) (c : C) (p : shipment * Z) : C :=
  deliver cbs p.2 (shipped p.1) c.

Lemma stamp_enqueue_time c m : enqueue_time (BaseGenerator.stamp_enqueue c m) = u64 c.
Proof. by destruct m. Qed.

Lemma deliver_u64 {C} (cbs : IFeedHandler.callbacks C) c m x : deliver cbs (u64 c) m x = deliver cbs c m x.
Proof.
  destruct m; simpl; unfold IFeedHandler.deliver_quote, IFeedHandler.deliver_trade; by rewrite ?u64_u64.
Qed.

Lemma header_shipped x : header (shipped x) = header (ship_msg x).
Proof. unfold header, shipped. rewrite msg_symbol_stamp. by destruct (ship_msg x). Qed.

(** * The program implements the channel *)

Section Refinement.
Context {L : Link} `{LinkLaws L} {G : Type} `{RandomSourceLaws G} {Q : Type} `{SpscQueueLaws Q MarketDataMsg}.
Context {C : Type} (cbs : IFeedHandler.callbacks C) (c0 : C) (symbols : list (list byte)).
Implicit Types (s : state L G Q C) (a : channel).

Definition ship_parcel (x : shipment) : parcel L := parcel_of (ship_pad x) (shipped x).

Definition ship_ok (x : shipment) : Prop := msg_of symbols (ship_msg x) /\ length (ship_pad x) = 4%nat.

(** The channel a state of the program stands for. *)
Record implements s a : Prop := {
  im_generator : gen_inv symbols (generator s);
  im_topic : topic_ok (topic_buf s);
  im_publisher : link_ok (publisher s);
  im_subscriber : handler_ok (subscriber s);
  im_made : generated s = made a;
  im_making : pending s = making a;
  im_queue : q_repr (queue s) (queued a);
  im_held : in_hand s = held a;
  im_flying : wire s = ship_parcel <$> flying a;
  im_shown : client s = foldl (show cbs) c0 (shown a);
  im_interested : forall hdr, accepts hdr (subscriber s) = interested a hdr;
  im_quiet : quiet a -> settled (subscriber s);
  im_msgs : Forall (msg_of symbols) (option_list (making a) ++ queued a ++ option_list (held a));
  im_ships : Forall ship_ok (flying a);
}.

(** What the memory of a step must look like: padding and stack of the right size. *)
Definition label_ok (l : label) : Prop :=
  match l with
  | Publish _ pad stack => length pad = 4%nat /\ length stack = stack_size
  | _ => True
  end.

(** The parts of [implements] a step does not touch. *)
Ltac keep := split; simpl; rewrite ?app_nil_r in *; try done.

Lemma exec_make c1 c2 s s' a : implements s a -> exec cbs (Make c1 c2) s = Some s' ->
  exists a', channel_step symbols q_capacity (Make c1 c2) a a' /\ implements s' a'.
Proof using All.
  intros [Hg Ht Hd Hh Hmd Hmk Hq Hhd Hf Hs Hi Hqt Hms Hsh] He. simpl in He.
  destruct (pending s) eqn:Ep; [done|].
  destruct (generate_msg_spec c1 symbols (generator s) Hg) as (m & g & idx & p & E & _ & _ & Hg' & Hm).
  rewrite E in He. simpl in He. injection He as <-. pose proof (msg_of_stamp symbols c2 m Hm) as Hm'.
  eexists. split; [apply (ch_make _ _ c1 c2 (BaseGenerator.stamp_enqueue c2 m)); [by rewrite <- Hmk|done|apply stamp_enqueue_time]|].
  keep; [by rewrite Hmd|]. apply Forall_cons. split; [done|]. by rewrite <- Hmk in Hms.
Qed.

Lemma exec_push s s' a : implements s a -> exec cbs Push s = Some s' ->
  exists a', channel_step symbols q_capacity Push a a' /\ implements s' a'.
Proof using All.
  intros [Hg Ht Hd Hh Hmd Hmk Hq Hhd Hf Hs Hi Hqt Hms Hsh] He. simpl in He.
  destruct (pending s) as [m|] eqn:Ep; [|done]. simpl in He.
  destruct (q_push_refines (queue s) (queued a) m Hq) as (q & Hpush & Hq'). rewrite Hpush in He. simpl in He.
  eexists. split; [by apply (ch_push _ _ m); rewrite <- Hmk|]. rewrite <- Hmk in Hms.
  unfold offer, Fifo.push in *. case_decide; simpl in *; injection He as <-; keep.
  apply Forall_cons in Hms as [Hm Hms]. rewrite <- app_assoc. apply Forall_app in Hms as [? ?].
  apply Forall_app. split; [done|by apply Forall_cons].
Qed.

Lemma exec_pop s s' a : implements s a -> exec cbs Pop s = Some s' ->
  exists a', channel_step symbols q_capacity Pop a a' /\ implements s' a'.
Proof using All.
  intros [Hg Ht Hd Hh Hmd Hmk Hq Hhd Hf Hs Hi Hqt Hms Hsh] He. simpl in He.
  unfold in_hand in *. destruct (popped s) eqn:Epop; [done|].
  destruct (q_pop_refines (queue s) (queued a) (msg s) Hq) as (q & Hpop & Hq'). rewrite Hpop in He.
  unfold Fifo.pop in *. destruct (queued a) as [|m l] eqn:Eq; simpl in *; injection He as <-.
  - exists a. split; [by apply ch_pop_empty|]. rewrite <- Hhd in Hms. split; unfold in_hand; simpl; rewrite ?Eq; try done.
    by rewrite <- Hhd.
  - eexists. split; [by apply ch_pop|]. rewrite <- Hhd in Hms. keep.
    by rewrite <- (Permutation_cons_append l m).
Qed.

Lemma exec_publish c pad stack s s' a : label_ok (Publish c pad stack) -> implements s a ->
  exec cbs (Publish c pad stack) s = Some s' ->
  exists a', channel_step symbols q_capacity (Publish c pad stack) a a' /\ implements s' a'.
Proof using All.
  intros [Hpad Hst] [Hg Ht Hd Hh Hmd Hmk Hq Hhd Hf Hs Hi Hqt Hms Hsh] He. simpl in He.
  unfold in_hand in *. destruct (popped s) eqn:Epop; [|done].
  rewrite <- Hhd, app_assoc in Hms. apply Forall_app in Hms as [Hms Hm]. apply Forall_cons in Hm as [Hm _].
  pose proof Hm as (Hwf & _). pose proof (msg_wf_stamp c _ Hwf) as Hwf'. rewrite visit_spec in He by done.
  replace (header (msg s)) with (header (shipped (Ship (msg s) c pad))) in He by apply header_shipped.
  destruct (send_spec stack pad (shipped (Ship (msg s) c pad)) (publisher s)) as (d & Hsend & Hd' & Hc); [done..|].
  unfold shipped in Hsend at 2. simpl in Hsend. rewrite Hsend in He. simpl in He. injection He as <-.
  rewrite Hc, drop_app_length. eexists. split; [by apply (ch_publish _ _ c pad stack (msg s))|]. keep.
  - rewrite header_shipped. by apply header_topic_ok.
  - by rewrite Hf, fmap_app.
  - apply Forall_app. split; [done|]. by apply Forall_cons.
Qed.

Lemma exec_receive i dup clock s s' a : implements s a -> exec cbs (Receive i dup clock) s = Some s' ->
  exists a', channel_step symbols q_capacity (Receive i dup clock) a a' /\ implements s' a'.
Proof using All.
  intros [Hg Ht Hd Hh Hmd Hmk Hq Hhd Hf Hs Hi Hqt Hms Hsh] He. simpl in He.
  apply bind_Some in He as (u & Hu & He). rewrite Hf, list_lookup_fmap in Hu.
  apply fmap_Some in Hu as (x & Hx & ->). apply bind_Some in He as ([h c] & Hr & He). injection He as <-.
  destruct (Forall_lookup_1 _ _ _ _ Hsh Hx) as [(Hwf & _) Hpad].
  pose proof (msg_wf_stamp (ship_clock x) _ Hwf) as Hwf'.
  pose proof (receive_message cbs clock (ship_pad x) (shipped x) _ h _ c Hh Hpad Hwf' Hr) as Hc.
  destruct (receive_keeps cbs clock _ _ h _ c Hh Hr) as (Hh' & Hst & Hacc).
  eexists. split; [by apply ch_receive|]. unfold arrive. keep.
  - rewrite Hf. destruct dup; [done|]. by rewrite list_fmap_delete.
  - rewrite Hc, header_shipped, Hi. destruct (interested a (header (ship_msg x))); [|done].
    rewrite Hs, foldl_app. unfold show at 2. simpl. by rewrite deliver_u64.
  - intros hdr. by rewrite Hacc.
  - auto.
  - destruct dup; [done|by apply Forall_delete].
Qed.

Lemma exec_handler l s s' a : implements s a -> exec cbs l s = Some s' ->
  match l with Miss _ | Lose _ | Request _ _ | Poll => True | _ => False end ->
  exists a', channel_step symbols q_capacity l a a' /\ implements s' a'.
Proof using All.
  intros [Hg Ht Hd Hh Hmd Hmk Hq Hhd Hf Hs Hi Hqt Hms Hsh] He Hl. destruct l as [| | | | |clock|i|b sym|]; try done; simpl in He.
  - apply bind_Some in He as ([h c] & Hr & He). injection He as <-.
    destruct (receive_keeps cbs clock _ _ h _ c Hh Hr) as (Hh' & Hst & Hacc).
    apply receive_nothing in Hr as ->. exists a. split; [apply ch_miss|]. keep; [|auto].
    intros hdr. by rewrite Hacc.
  - injection He as <-. eexists. split; [apply ch_lose|]. keep; [|by apply Forall_delete].
    by rewrite Hf, list_fmap_delete.
  - apply bind_Some in He as (h & Hr & He). injection He as <-.
    assert (Hh' : handler_ok h).
    { destruct b; unfold subscribe, unsubscribe in Hr;
        [destruct (subscribe_spec sym _ Hh) as (h' & E & ?)|destruct (unsubscribe_spec sym _ Hh) as (h' & E & ?)];
        rewrite E in Hr; by injection Hr as <-. }
    eexists. split; [apply (ch_request _ _ b sym (fun hdr => accepts hdr h) (settled h))|]. keep.
  - apply bind_Some in He as (h & Hr & He). injection He as <-.
    destruct (poll_spec _ h Hh Hr) as [Hh' Hst].
    eexists. split; [apply (ch_poll _ _ (fun hdr => accepts hdr h) (settled h))|].
    + intros Hqa. destruct (Hst (Hqt Hqa)) as [? Hacc]. split; [done|]. intros hdr. by rewrite Hacc.
    + keep.
Qed.

Lemma exec_implements l s s' a : label_ok l -> implements s a -> exec cbs l s = Some s' ->
  exists a', channel_step symbols q_capacity l a a' /\ implements s' a'.
Proof using All.
  intros Hl Hi He. destruct l; try (by apply (exec_handler _ s)).
  - by apply (exec_make _ _ s).
  - by apply (exec_push s).
  - by apply (exec_pop s).
  - by apply (exec_publish _ _ _ s).
  - by apply (exec_receive _ _ _ s).
Qed.

Lemma run_implements ls s s' a : Forall label_ok ls -> implements s a -> run (exec cbs) ls s = Some s' ->
  exists a', steps (channel_step symbols q_capacity) ls a a' /\ implements s' a'.
Proof using All.
  revert s a; induction ls as [|l ls IH]; intros s a Hls Hi; simpl.
  { intros [= ->]. exists a. split; [constructor|done]. }
  intros (s1 & He & Hr)%bind_Some. apply Forall_cons in Hls as [Hl Hls].
  destruct (exec_implements l s s1 a Hl Hi He) as (a1 & Hst & Hi1).
  destruct (IH s1 a1 Hls Hi1 Hr) as (a' & Hsts & Hi'). exists a'. split; [by econstructor|done].
Qed.

Definition start_ok (g : RandomWalkGenerator.t G) (q : Q) (stack : list byte) (d : disseminator L) (h : handler L) : Prop :=
  gen_inv symbols g /\ q_repr q [] /\ length stack = 10%nat /\ link_ok d /\ handler_ok h.

Lemma start_implements g q m0 stack d h : start_ok g q stack d h ->
  implements (start g q m0 stack d h c0) (idle (fun hdr => accepts hdr h) (settled h)).
Proof using Type. intros (? & ? & ? & ? & ?). split; simpl; try done; by apply topic_init_ok. Qed.

(** ** Getting everything to the client *)

Definition draining (l : label) : Prop :=
  match l with
  | Push | Pop | Publish _ _ _ | Poll => True
  | Receive i dup _ => i = 0%nat /\ dup = false
  | _ => False
  end.

(** What the network and the handler do of it. *)
Definition networking (l : label) : Prop :=
  match l with Poll => True | Receive i dup _ => i = 0%nat /\ dup = false | _ => False end.

(** What is left to do. *)
Definition backlog a : nat :=
  4 * length (option_list (making a)) + 3 * length (queued a) + 2 * length (option_list (held a)) + length (flying a).

Lemma draining_orderly l : draining l -> orderly l.
Proof using Type. by destruct l. Qed.

Lemma draining_makes_nothing cap l a a' : draining l -> channel_step symbols cap l a a' -> made a' = made a.
Proof using Type.
  intros Hl Hst. inversion Hst; subst; try done. unfold offer. by destruct (Fifo.push cap m (queued a)).
Qed.

Lemma publish_enabled c pad stack s a : label_ok (Publish c pad stack) -> implements s a -> held a <> None ->
  exists s', exec cbs (Publish c pad stack) s = Some s'.
Proof using All.
  intros [Hpad Hst] [Hg Ht Hd Hh Hmd Hmk Hq Hhd Hf Hs Hi Hqt Hms Hsh] Hn. simpl. unfold in_hand in Hhd.
  destruct (popped s); [|by rewrite <- Hhd in Hn].
  rewrite <- Hhd, app_assoc in Hms. apply Forall_app in Hms as [_ Hm]. apply Forall_cons in Hm as [(Hwf & _) _].
  pose proof (msg_wf_stamp c _ Hwf) as Hwf'. rewrite visit_spec by done.
  replace (header (msg s)) with (header (shipped (Ship (msg s) c pad))) by apply header_shipped.
  destruct (send_spec stack pad (shipped (Ship (msg s) c pad)) (publisher s)) as (d & Hsend & _); [done..|].
  unfold shipped in Hsend at 2. simpl in Hsend. rewrite Hsend. by eexists.
Qed.

Lemma pop_enabled s a : implements s a -> held a = None -> exists s', exec cbs Pop s = Some s'.
Proof using All.
  intros Him Hn. simpl. pose proof (im_held _ _ Him) as Hhd. rewrite Hn in Hhd. unfold in_hand in Hhd.
  destruct (popped s); [done|]. destruct (q_pop_refines _ _ (msg s) (im_queue _ _ Him)) as (q & -> & _).
  destruct (Fifo.pop (msg s) (queued a)) as [[b m] l]. by eexists.
Qed.

Lemma push_enabled s a : implements s a -> making a <> None -> exists s', exec cbs Push s = Some s'.
Proof using All.
  intros Him Hn. simpl. rewrite (im_making _ _ Him). destruct (making a) as [m|]; [|done]. simpl.
  destruct (q_push_refines _ _ m (im_queue _ _ Him)) as (q & -> & _). by eexists.
Qed.

(** One step that the threads can take decreases the backlog. *)
Lemma local_progress c pad stack s a : label_ok (Publish c pad stack) -> (0 < q_capacity)%nat ->
  implements s a -> held a <> None \/ queued a <> [] \/ making a <> None ->
  exists l s' a', draining l /\ label_ok l /\ exec cbs l s = Some s' /\ channel_step symbols q_capacity l a a' /\
    implements s' a' /\ (backlog a' < backlog a)%nat.
Proof using All.
  intros Hlab Hcap Him Hwork.
  assert (Hgo : forall l, draining l -> label_ok l -> (exists s', exec cbs l s = Some s') ->
    (forall a', channel_step symbols q_capacity l a a' -> (backlog a' < backlog a)%nat) ->
    exists l s' a', draining l /\ label_ok l /\ exec cbs l s = Some s' /\ channel_step symbols q_capacity l a a' /\
      implements s' a' /\ (backlog a' < backlog a)%nat).
  { intros l Hl Hok [s' He] Hdec. destruct (exec_implements l s s' a Hok Him He) as (a' & Hst & Hi').
    exists l, s', a'. split_and!; auto. }
  destruct (held a) as [m|] eqn:Eh; [|destruct (queued a) as [|m l] eqn:Eq].
  - apply (Hgo (Publish c pad stack)); [done..|by apply (publish_enabled _ _ _ s a); rewrite ?Eh|].
    intros a' Hst. inversion Hst; subst. unfold backlog. simpl. rewrite Eh, length_app. simpl. lia.
  - destruct (making a) as [m|] eqn:Em; [|by destruct Hwork as [?|[?|?]]].
    apply (Hgo Push); [done..|by apply (push_enabled s a); rewrite ?Em|].
    intros a' Hst. inversion Hst; subst. unfold backlog, offer, Fifo.push. simplify_eq. rewrite Eq, Em.
    rewrite decide_True by (simpl; lia). simpl. lia.
  - apply (Hgo Pop); [done..|by apply (pop_enabled s a)|].
    intros a' Hst. inversion Hst; subst; [|congruence].
    match goal with E : queued a = _ |- _ => rewrite Eq in E; injection E as <- <- end.
    unfold backlog. simpl. rewrite Eh, Eq. simpl. lia.
Qed.

Lemma polls_run n s h : polls n (subscriber s) = Some h ->
  run (exec cbs) (replicate n Poll) s =
  Some (State (generator s) (pending s) (queue s) (msg s) (popped s) (topic_buf s) (publisher s) (wire s) h
              (client s) (generated s)).
Proof using Type.
  revert s; induction n as [|n IH]; intros s Hp; simpl in *; [injection Hp as <-; by destruct s|].
  destruct (link_poll L (subscriber s)) as [h1|]; [|done]. simpl in *. by rewrite IH.
Qed.

(** A parcel in flight reaches the handler, which may first have to look for
    requests. *)
Lemma network_progress (clock : Z) s a : implements s a -> flying a <> [] ->
  exists ls s' a', Forall networking ls /\ run (exec cbs) ls s = Some s' /\
    steps (channel_step symbols q_capacity) ls a a' /\ implements s' a' /\ (backlog a' < backlog a)%nat.
Proof using All.
  intros Him Hf. destruct (reaches_ready (subscriber s) (im_subscriber _ _ Him)) as (n & h & Hp & Hready).
  pose proof (polls_run n s h Hp) as Hrun. set (s1 := State _ _ _ _ _ _ _ _ _ _ _) in Hrun.
  destruct (run_implements (replicate n Poll) s s1 a) as (a1 & Hst1 & Him1);
    [by apply Forall_replicate|done|done|].
  assert (Hkeep : flying a1 = flying a /\ backlog a1 = backlog a).
  { apply (steps_invariant _ (fun l => l = Poll) (fun x => flying x = flying a /\ backlog x = backlog a) _ _ _) in Hst1;
      [done| |by apply Forall_replicate|done].
    intros l x y -> [Hx Hb] Hs. inversion Hs; subst. by rewrite <- Hx, <- Hb. }
  destruct Hkeep as [Hf1 Hb1]. destruct (flying a) as [|x fl] eqn:Ef; [done|].
  assert (exists s2, exec cbs (Receive 0 false clock) s1 = Some s2) as [s2 He2].
  { simpl. pose proof (im_flying _ _ Him1) as Hw. simpl in Hw. rewrite Hw, Hf1. simpl.
    destruct (receive_ready cbs clock (Some (ship_parcel x)) h (client s) (im_subscriber _ _ Him1) Hready)
      as ([h2 c2] & ->). by eexists. }
  destruct (exec_receive 0 false clock s1 s2 a1 Him1 He2) as (a2 & Hst2 & Him2).
  exists (replicate n Poll ++ [Receive 0 false clock]), s2, a2. split_and!; [| | |done|].
  - apply Forall_app. split; [by apply Forall_replicate|by apply Forall_singleton].
  - rewrite run_app, Hrun. cbn [mbind option_bind run]. by rewrite He2.
  - eapply steps_app; [done|]. econstructor; [done|constructor].
  - inversion Hst2; subst. rewrite <- Hb1. unfold backlog, arrive. simpl. rewrite Hf1. simpl. lia.
Qed.

Lemma drain_all c pad stack (clock : Z) s a : label_ok (Publish c pad stack) -> (0 < q_capacity)%nat -> implements s a ->
  exists ls s' a', Forall draining ls /\ Forall label_ok ls /\ run (exec cbs) ls s = Some s' /\
    steps (channel_step symbols q_capacity) ls a a' /\ implements s' a' /\ backlog a' = 0%nat.
Proof using All.
  intros Hlab Hcap. remember (backlog a) as n eqn:En. revert s a En.
  induction n as [n IH] using lt_wf_ind. intros s a -> Him.
  destruct (decide (backlog a = 0%nat)) as [Hz|Hz]; [exists [], s, a; split_and!; try done; constructor|].
  assert (exists ls s' a', Forall draining ls /\ Forall label_ok ls /\ run (exec cbs) ls s = Some s' /\
    steps (channel_step symbols q_capacity) ls a a' /\ implements s' a' /\ (backlog a' < backlog a)%nat)
    as (ls1 & s1 & a1 & Hd1 & Hl1 & Hr1 & Hst1 & Him1 & Hlt).
  { destruct (decide (held a = None /\ queued a = [] /\ making a = None)) as [(Hh & Hq & Hm)|Hwork].
    - destruct (network_progress clock s a Him) as (ls & s1 & a1 & Hn & Hr1 & Hst1 & Hi1 & Hb1);
        [intros Hf; apply Hz; unfold backlog; by rewrite Hh, Hq, Hm, Hf|].
      exists ls, s1, a1. split_and!; [eapply Forall_impl; [exact Hn|]; by intros []..|done|done|done|done].
    - destruct (local_progress c pad stack s a Hlab Hcap Him) as (l & s1 & a1 & Hd & Hl & He & Hst & Him1 & Hlt);
        [by apply not_and_l in Hwork as [?|[?|?]%not_and_l]; auto|].
      exists [l], s1, a1. split_and!; [by apply Forall_singleton|by apply Forall_singleton|simpl; by rewrite He| |done|done].
      econstructor; [done|constructor]. }
  destruct (IH (backlog a1) Hlt s1 a1 eq_refl Him1) as (ls2 & s2 & a2 & Hd2 & Hl2 & Hr2 & Hst2 & Him2 & Hz2).
  exists (ls1 ++ ls2), s2, a2. split_and!; [by apply Forall_app|by apply Forall_app| | |done|done].
  - by rewrite run_app, Hr1.
  - by eapply steps_app.
Qed.
End Refinement.

(** * Demonstration: one trade and one quote over UDP, with the ring of 128 *)

Definition demo_generator : RandomWalkGenerator.t Tape :=
  RandomWalkGenerator.Make (BaseGenerator.Make 10000 100000 Thread.NotJoinable) [sym_V; sym_VZ]
    (MkTape [1; 0; 30; 0; 1; 100; 200; 1; 0; 50] [Binary64.d0_1; Binary64.d0_1]) [Binary64.d100; Binary64.d100].

Definition demo_ring : CustomSpscQueue.t MarketDataMsg 128 := CustomSpscQueue.init 128.
Definition demo_topic_stack : list byte := replicate 10 xaa.

(** A handler that has taken its subscriptions. *)
Definition demo_receiver : UdpReceiver :=
  UdpReceiving (CustomSpscQueue.init 128) (all_subscribed [sym_V; sym_VZ]) (replicate 1024 xcc) (Cmd true 0) false.

Definition demo_udp_start : state Udp Tape (CustomSpscQueue.t MarketDataMsg 128) (list (MarketDataMsg * Z)) :=
  start (L:=Udp) demo_generator demo_ring (QuoteMsg Quote.zero) demo_topic_stack demo_udp demo_receiver [].

Lemma demo_generator_inv : gen_inv [sym_V; sym_VZ] demo_generator.
Proof. split; simpl; (done || lia). Qed.

Lemma demo_start_ok : start_ok (L:=Udp) [sym_V; sym_VZ] demo_generator demo_ring demo_topic_stack demo_udp demo_receiver.
Proof.
  split_and!; [exact demo_generator_inv| |done..|].
  - apply CustomSpscQueue.repr_init. lia.
  - split; [exists []; apply CustomSpscQueue.repr_init; lia|done].
Qed.

Lemma demo_receiver_covers : covers (L:=Udp) [sym_V; sym_VZ] demo_receiver.
Proof. apply udp_covers; [exact demo_symbols_short|apply CustomSpscQueue.repr_init; lia|done]. Qed.

Definition demo_send_stack : list byte := replicate 58 xee.

(** The two messages go through; a third stays with the generator. *)
Definition demo_orderly : list label :=
  [Make 10 11; Push; Pop; Poll; Make 20 21; Publish 30 demo_pad demo_send_stack; Push; Receive 0 false 35; Pop;
   Poll; Publish 40 demo_pad demo_send_stack; Make 50 51].

(** The second parcel arrives first, and the first is duplicated and lost. *)
Definition demo_unruly : list label :=
  [Make 10 11; Push; Pop; Publish 15 demo_pad demo_send_stack; Make 20 21; Push; Pop;
   Publish 30 demo_pad demo_send_stack; Poll; Receive 1 true 35; Request true sym_A; Poll; Poll; Receive 0 true 40;
   Lose 0; Poll; Miss 45].

Definition demo_end (ls : list label) : state Udp Tape (CustomSpscQueue.t MarketDataMsg 128) (list (MarketDataMsg * Z)) :=
  default demo_udp_start (run (exec recording) ls demo_udp_start).

(** A run of which only whether it exists is evaluated. *)
Lemma demo_udp_run ls : (match run (exec recording) ls demo_udp_start with Some _ => true | None => false end) = true ->
  run (exec recording) ls demo_udp_start = Some (demo_end ls).
Proof. unfold demo_end. by destruct (run (exec recording) ls demo_udp_start). Qed.

Lemma demo_orderly_run : run (exec recording) demo_orderly demo_udp_start = Some (demo_end demo_orderly).
Proof. apply demo_udp_run. vm_compute. reflexivity. Qed.

Lemma demo_unruly_run : run (exec recording) demo_unruly demo_udp_start = Some (demo_end demo_unruly).
Proof. apply demo_udp_run. vm_compute. reflexivity. Qed.

Lemma demo_orderly_ok : Forall (label_ok (L:=Udp)) demo_orderly.
Proof. repeat (apply Forall_cons; split; [exact I || (split; reflexivity)|]). by apply Forall_nil. Qed.

Lemma demo_unruly_ok : Forall (label_ok (L:=Udp)) demo_unruly.
Proof. repeat (apply Forall_cons; split; [exact I || (split; reflexivity)|]). by apply Forall_nil. Qed.

(** In the unruly run the client is shown the second message, then the first. *)
Example demo_unruly_client : (enqueue_time ∘ fst) <$> client (demo_end demo_unruly) = [21; 11].
Proof. vm_compute. reflexivity. Qed.

(** * Properties *)

Section Properties.
Context {L : Link} `{LinkLaws L} {G : Type} `{RandomSourceLaws G} {Q : Type} `{SpscQueueLaws Q MarketDataMsg}.
Context {C : Type} (cbs : IFeedHandler.callbacks C) (symbols : list (list byte)).

(** The state of the channel that a run has reached. *)
Lemma run_channel g q m0 stack d h c0 ls (s : state L G Q C) :
  start_ok symbols g q stack d h -> Forall label_ok ls ->
  run (exec cbs) ls (start g q m0 stack d h c0) = Some s ->
  exists a, steps (channel_step symbols q_capacity) ls (idle (fun hdr => accepts hdr h) (settled h)) a /\
    implements cbs c0 symbols s a.
Proof using All. intros Hok Hls. by apply run_implements, start_implements. Qed.

Lemma steps_orderly cap h ls a : covers symbols h -> Forall orderly ls ->
  steps (channel_step symbols cap) ls (idle (fun hdr => accepts hdr h) (settled h)) a ->
  well_made symbols a /\ in_order symbols a.
Proof using Type.
  intros [Hset Hcov] Hord Hst.
  apply (steps_invariant _ orderly (fun a => well_made symbols a /\ in_order symbols a)) in Hst; [done| |done|].
  - intros l x y Hl [Hw Ho] Hs. split; [by eapply well_made_step|by eapply in_order_step].
  - split; [by apply Forall_nil|by split].
Qed.

Lemma run_in_order g q m0 stack d h c0 ls (s : state L G Q C) :
  start_ok symbols g q stack d h -> covers symbols h -> Forall label_ok ls -> Forall orderly ls ->
  run (exec cbs) ls (start g q m0 stack d h c0) = Some s ->
  exists a, implements cbs c0 symbols s a /\ well_made symbols a /\ in_order symbols a.
Proof using All.
  intros Hok Hcov Hls Hord Hrun. destruct (run_channel _ _ _ _ _ _ _ _ _ Hok Hls Hrun) as (a & Hst & Him).
  exists a. split; [done|]. by eapply steps_orderly.
Qed.

(** When all the work of an orderly run is done, the client has been shown all that
    had been made. *)
Lemma drained cap h ls ls' a a' : covers symbols h -> Forall orderly ls ->
  steps (channel_step symbols cap) ls (idle (fun hdr => accepts hdr h) (settled h)) a ->
  Forall draining ls' -> steps (channel_step symbols cap) ls' a a' -> backlog a' = 0%nat ->
  made a' = made a /\ ship_msg <$> (shown a').*1 = made a'.
Proof using Type.
  intros Hcov Hord Hst Hd Hst' Hz. destruct (steps_orderly cap h ls a Hcov Hord Hst) as [Hw Ho].
  assert (Ho' : (well_made symbols a' /\ in_order symbols a') /\ made a' = made a).
  { apply (steps_invariant _ draining (fun x => (well_made symbols x /\ in_order symbols x) /\ made x = made a)) in Hst';
      [done| |done|done].
    intros l x y Hl [[Hwx Hox] Hmx] Hs. split; [split|].
    - by eapply well_made_step.
    - eapply in_order_step; [done..|by apply draining_orderly|done].
    - rewrite <- Hmx. by eapply draining_makes_nothing. }
  destruct Ho' as [[_ [Hm _ _]] Hmade]. split; [done|]. unfold backlog in Hz. rewrite Hm.
  destruct (making a'), (queued a'), (held a'), (flying a'); simpl in Hz; try lia. simpl. by rewrite app_nil_r.
Qed.
End Properties.

(** C5: refinement. Every run of the program from its start, with either transport,
    any queue that keeps the concept's promise and any schedule of the threads and
    the network, is a run of the ideal channel: messages for bytes, a bounded list
    for the queue, the client's wishes for the subscriptions. *)
Theorem system_refines_channel {L : Link} `{LinkLaws L} {G : Type} `{RandomSourceLaws G} {Q : Type}
    `{SpscQueueLaws Q MarketDataMsg} {C : Type} (cbs : IFeedHandler.callbacks C) (symbols : list (list byte))
    (g : RandomWalkGenerator.t G) (q : Q) (m0 : MarketDataMsg) (stack : list byte) (d : disseminator L)
    (h : handler L) (c0 : C) (ls : list label) (s : state L G Q C) :
  start_ok symbols g q stack d h -> Forall label_ok ls ->
  run (exec cbs) ls (start g q m0 stack d h c0) = Some s ->
  exists a, steps (channel_step symbols q_capacity) ls (idle (fun hdr => accepts hdr h) (settled h)) a /\
    implements cbs c0 symbols s a.
Proof. apply run_channel. Qed.

Lemma system_refines_channel_witness :
  exists a, steps (channel_step [sym_V; sym_VZ] (q_capacity (Q:=CustomSpscQueue.t MarketDataMsg 128))) demo_unruly
              (idle (fun hdr => accepts (L:=Udp) hdr demo_receiver) (settled (L:=Udp) demo_receiver)) a /\
    implements (L:=Udp) recording [] [sym_V; sym_VZ] (demo_end demo_unruly) a.
Proof.
  apply (system_refines_channel (L:=Udp) recording [sym_V; sym_VZ] demo_generator demo_ring (QuoteMsg Quote.zero)
           demo_topic_stack demo_udp demo_receiver [] demo_unruly (demo_end demo_unruly)).
  - exact demo_start_ok.
  - exact demo_unruly_ok.
  - exact demo_unruly_run.
Defined.

(** The whole path under any schedule of the threads, any subscriptions and any
    network that may lose, duplicate and reorder: all the client has made of it, it
    has made of messages that the generator made, stamped by the disseminator; and
    every message the generator makes is well formed, with sizes in range and a
    configured symbol. *)
Theorem system_delivers_only_generated {L : Link} `{LinkLaws L} {G : Type} `{RandomSourceLaws G} {Q : Type}
    `{SpscQueueLaws Q MarketDataMsg} {C : Type} (cbs : IFeedHandler.callbacks C) (symbols : list (list byte))
    (g : RandomWalkGenerator.t G) (q : Q) (m0 : MarketDataMsg) (stack : list byte) (d : disseminator L)
    (h : handler L) (c0 : C) (ls : list label) (s : state L G Q C) :
  start_ok symbols g q stack d h -> Forall label_ok ls ->
  run (exec cbs) ls (start g q m0 stack d h c0) = Some s ->
  Forall (msg_of symbols) (generated s) /\
  exists shown, client s = foldl (show cbs) c0 shown /\ Forall (fun p => ship_msg p.1 ∈ generated s) shown.
Proof.
  intros Hok Hls Hrun. destruct (run_channel _ _ _ _ _ _ _ _ _ _ _ Hok Hls Hrun) as (a & Hst & Him).
  apply (steps_invariant _ (fun _ => True) (fun a => well_made symbols a /\ genuine a)) in Hst.
  - destruct Hst as [Hw (ships & Hm & _ & Hs)]. rewrite (im_made _ _ _ _ _ Him). split; [done|].
    exists (shown a). split; [apply Him|]. eapply Forall_impl; [exact Hs|]. intros p Hp.
    rewrite Hm. apply elem_of_app. left. by apply list_elem_of_fmap_2.
  - intros l x y _ [? ?] Hs. split; [by eapply well_made_step|by eapply genuine_step].
  - by apply Forall_true.
  - split; [by apply Forall_nil|by exists []].
Qed.

Lemma system_delivers_only_generated_witness :
  Forall (msg_of [sym_V; sym_VZ]) (generated (demo_end demo_unruly)) /\
  exists shown, client (demo_end demo_unruly) = foldl (show recording) [] shown /\
    Forall (fun p => ship_msg p.1 ∈ generated (demo_end demo_unruly)) shown.
Proof.
  apply (system_delivers_only_generated (L:=Udp) recording [sym_V; sym_VZ] demo_generator demo_ring
           (QuoteMsg Quote.zero) demo_topic_stack demo_udp demo_receiver [] demo_unruly (demo_end demo_unruly)).
  - exact demo_start_ok.
  - exact demo_unruly_ok.
  - exact demo_unruly_run.
Defined.

(** C7: over a network that neither loses, duplicates nor reorders, to a client that
    wants every configured symbol and makes no further requests: at any time the
    messages the generator has made are, in order, those the client has been shown,
    each exactly once and unchanged but for the stamp; those in flight; the one the
    disseminator is sending; those in the queue; and the one being pushed. *)
Theorem system_exactly_once_in_order {L : Link} `{LinkLaws L} {G : Type} `{RandomSourceLaws G} {Q : Type}
    `{SpscQueueLaws Q MarketDataMsg} {C : Type} (cbs : IFeedHandler.callbacks C) (symbols : list (list byte))
    (g : RandomWalkGenerator.t G) (q : Q) (m0 : MarketDataMsg) (stack : list byte) (d : disseminator L)
    (h : handler L) (c0 : C) (ls : list label) (s : state L G Q C) :
  start_ok symbols g q stack d h -> covers symbols h -> Forall label_ok ls -> Forall orderly ls ->
  run (exec cbs) ls (start g q m0 stack d h c0) = Some s ->
  exists (received : list (shipment * Z)) (in_flight : list shipment) (waiting : list MarketDataMsg),
    generated s = (ship_msg <$> received.*1) ++ (ship_msg <$> in_flight) ++
                  option_list (in_hand s) ++ waiting ++ option_list (pending s) /\
    client s = foldl (show cbs) c0 received /\
    wire s = ship_parcel <$> in_flight /\ q_repr (queue s) waiting.
Proof.
  intros Hok Hcov Hls Hord Hrun.
  destruct (run_in_order _ _ _ _ _ _ _ _ _ _ _ Hok Hcov Hls Hord Hrun) as (a & Him & _ & Ho).
  exists (shown a), (flying a), (queued a). split_and!; [|apply Him..].
  rewrite (im_made _ _ _ _ _ Him), (im_making _ _ _ _ _ Him), (im_held _ _ _ _ _ Him). apply Ho.
Qed.

Lemma system_exactly_once_in_order_witness :
  exists (received : list (shipment * Z)) (in_flight : list shipment) (waiting : list MarketDataMsg),
    generated (demo_end demo_orderly) =
      (ship_msg <$> received.*1) ++ (ship_msg <$> in_flight) ++
      option_list (in_hand (demo_end demo_orderly)) ++ waiting ++ option_list (pending (demo_end demo_orderly)) /\
    client (demo_end demo_orderly) = foldl (show recording) [] received /\
    wire (demo_end demo_orderly) = ship_parcel (L:=Udp) <$> in_flight /\
    q_repr (queue (demo_end demo_orderly)) waiting.
Proof.
  apply (system_exactly_once_in_order (L:=Udp) recording [sym_V; sym_VZ] demo_generator demo_ring
           (QuoteMsg Quote.zero) demo_topic_stack demo_udp demo_receiver [] demo_orderly (demo_end demo_orderly)).
  - exact demo_start_ok.
  - exact demo_receiver_covers.
  - exact demo_orderly_ok.
  - repeat (apply Forall_cons; split; [exact I || (split; reflexivity)|]). by apply Forall_nil.
  - exact demo_orderly_run.
Defined.

(** Nothing gets stuck on the way. From any point of such a run the threads can,
    without a further message, bring every message the generator has made to the
    client: it has then been shown all of them, in order. *)
Theorem system_drains {L : Link} `{LinkLaws L} {G : Type} `{RandomSourceLaws G} {Q : Type}
    `{SpscQueueLaws Q MarketDataMsg} {C : Type} (cbs : IFeedHandler.callbacks C) (symbols : list (list byte))
    (g : RandomWalkGenerator.t G) (q : Q) (m0 : MarketDataMsg) (stack : list byte) (d : disseminator L)
    (h : handler L) (c0 : C) (ls : list label) (s : state L G Q C) (clock clock' : Z) (pad send_stack : list byte) :
  start_ok symbols g q stack d h -> covers symbols h -> Forall label_ok ls -> Forall orderly ls ->
  run (exec cbs) ls (start g q m0 stack d h c0) = Some s ->
  (0 < q_capacity (Q:=Q))%nat -> length pad = 4%nat -> length send_stack = stack_size ->
  exists ls' s' (received : list (shipment * Z)),
    Forall draining ls' /\ run (exec cbs) ls' s = Some s' /\ generated s' = generated s /\
    ship_msg <$> received.*1 = generated s /\ client s' = foldl (show cbs) c0 received.
Proof.
  intros Hok Hcov Hls Hord Hrun Hcap Hpad Hsend.
  destruct (run_channel _ _ _ _ _ _ _ _ _ _ _ Hok Hls Hrun) as (a & Hst0 & Him).
  destruct (drain_all cbs c0 symbols clock pad send_stack clock' s a (conj Hpad Hsend) Hcap Him)
    as (ls' & s' & a' & Hd & Hl' & Hr' & Hst & Him' & Hz).
  destruct (drained symbols _ h ls ls' a a' Hcov Hord Hst0 Hd Hst Hz) as [Hmade Hall].
  exists ls', s', (shown a'). rewrite (im_made _ _ _ _ _ Him), (im_made _ _ _ _ _ Him').
  split_and!; [done..|congruence|apply Him'].
Qed.

Lemma system_drains_witness :
  exists ls' s' (received : list (shipment * Z)),
    Forall draining ls' /\ run (exec recording) ls' (demo_end demo_orderly) = Some s' /\
    generated s' = generated (demo_end demo_orderly) /\
    ship_msg <$> received.*1 = generated (demo_end demo_orderly) /\ client s' = foldl (show recording) [] received.
Proof.
  apply (system_drains (L:=Udp) recording [sym_V; sym_VZ] demo_generator demo_ring (QuoteMsg Quote.zero)
           demo_topic_stack demo_udp demo_receiver [] demo_orderly (demo_end demo_orderly) 70 80 demo_pad demo_send_stack).
  - exact demo_start_ok.
  - exact demo_receiver_covers.
  - exact demo_orderly_ok.
  - repeat (apply Forall_cons; split; [exact I || (split; reflexivity)|]). by apply Forall_nil.
  - exact demo_orderly_run.
  - simpl. lia.
  - reflexivity.
  - reflexivity.
Defined.

(** The same over ZeroMQ, where the handler never polls: with a queue that is a list
    and a client of V alone, whose filter also passes VZ. *)
Definition demo_zmq_start : state (Zmq FilterList) Tape (ListQueue 4 MarketDataMsg) (list (MarketDataMsg * Z)) :=
  start (L:=Zmq FilterList) demo_generator (MkListQueue []) (QuoteMsg Quote.zero) demo_topic_stack
    (ZmqDisseminator.Make Thread.NotJoinable true [] []) (subscribed [sym_V] (MkFilterList [])) [].

Example demo_zmq_client :
  match run (exec recording) [Make 10 11; Push; Pop; Publish 15 demo_pad []; Receive 0 false 20;
                              Make 20 21; Push; Pop; Publish 25 demo_pad []; Receive 0 false 30] demo_zmq_start with
  | Some s => (fun o => (take 2 (msg_symbol o.1), o.2)) <$> client s
  | None => []
  end = [([x56; x5a], 20); ([x56; x00], 30)].
Proof. vm_compute. reflexivity. Qed.
