(* ===== verification/RingSystem.v ===== *)
(** The whole path once more, with the queues the program uses: the generator and
    the disseminator run [push] and [pop] of a wrapper over the accesses of the
    ring, with the stop request of the disseminator's thread. Every run is a run of
    [System.v] over a bounded list, so that the queue's calls are single steps on
    the ideal channel. *)

From S2P Require Import Prelude Types QueueConcepts CustomSpscQueue SpscConcurrency RingMachine WaitableRing SpinRing Threads BaseGenerator RandomWalkGenerator Calls Disseminator UdpFeedHandler ZmqFeedHandler Wire Links Channel System.
From stdpp Require Import options.

Module RingSystem.
Section Threads.
Context {L : Link} {M : RingMachine MarketDataMsg} {G : Type} `{RandomSource G} {C : Type}.
Context (cbs : IFeedHandler.callbacks C).

(** [pending] is [msg] of [generation_loop] until it is pushed; [msg] is that of
    [run_loop], which [pop] writes to; [exited] says that [run_loop] has ended. *)
Record state := State {
  generator : RandomWalkGenerator.t G;
  pending : option MarketDataMsg;
  queue : rm_state M;
  msg : MarketDataMsg;
  popped : bool;
  exited : bool;
  topic_buf : list byte;
  publisher : disseminator L;
  wire : list (parcel L);
  subscriber : handler L;
  client : C;
  generated : list MarketDataMsg;
}.

(** A call of [push] with the message that is pending, a step inside the queue, or
    any other step of the threads and the network. *)
Inductive label :=
  | CallPush
  | Queue (l : rm_label M)
  | Other (l : Channel.label).

Definition set_queue (p : option MarketDataMsg) (q : rm_state M) (m : MarketDataMsg) (b e : bool) (s : state) : state :=
  State (generator s) p q m b e (topic_buf s) (publisher s) (wire s) (subscriber s) (client s) (generated s).

(** What [item] holds after an access that led to the ring [r]: [pop] assigns it by
    the move. *)
Definition moved_to (a : SpscConcurrency.label MarketDataMsg) (r : SpscConcurrency.state MarketDataMsg)
    (item : MarketDataMsg) : MarketDataMsg :=
  match a, cons r with
  | CMove, CMoved _ x => x
  | _, _ => item
  end.

(** What a step of the queue that led to [q] does to the threads that use it. *)
Definition queue_step (l : rm_label M) (q : rm_state M) (s : state) : option state :=
  match rm_action M l with
  | Access (PCall _) => None                        (* a step of [CallPush] *)
  | Access PPublish => Some (set_queue None q (msg s) (popped s) (exited s) s)
  | Access a => Some (set_queue (pending s) q (moved_to a (rm_ring M q) (msg s)) (popped s) (exited s) s)
  | Call =>
      if popped s || exited s then None
      else Some (set_queue (pending s) q (msg s) (popped s) (exited s) s)
  | Return =>
      match rm_phase M (queue s) with
      | Returning b => Some (set_queue (pending s) q (msg s) b (negb b) s)
      | _ => None
      end
  | StopCall | Silent => Some (set_queue (pending s) q (msg s) (popped s) (exited s) s)
  end.

(** The state as [System.v] has it, with an empty queue. *)
Definition without_queue (s : state) : System.state L G (ListQueue 0 MarketDataMsg) C :=
  System.State (generator s) (pending s) (MkListQueue []) (msg s) (popped s) (topic_buf s) (publisher s) (wire s)
    (subscriber s) (client s) (generated s).

Definition with_queue (q : rm_state M) (e : bool) (t : System.state L G (ListQueue 0 MarketDataMsg) C) : state :=
  State (System.generator t) (System.pending t) q (System.msg t) (System.popped t) e (System.topic_buf t)
    (System.publisher t) (System.wire t) (System.subscriber t) (System.client t) (System.generated t).

(** The generator makes no further message before [push] has returned. *)
Definition busy (l : Channel.label) (s : state) : bool :=
  match l with Make _ _ => rm_pushing M (queue s) | _ => false end.

Definition exec (l : label) (s : state) : option state :=
  match l with
  | CallPush =>
      m ← pending s;
      q ← rm_exec M (rm_push M m) (queue s);
      Some (set_queue (pending s) q (msg s) (popped s) (exited s) s)
  | Queue l => q ← rm_exec M l (queue s); queue_step l q s
  | Other (Push | Pop) => None
  | Other l =>
      if busy l s then None
      else t ← System.exec cbs l (without_queue s); Some (with_queue (queue s) (exited s) t)
  end.

Definition start (g : RandomWalkGenerator.t G) (m0 : MarketDataMsg) (stack : list byte)
    (d : disseminator L) (h : handler L) (c : C) : state :=
  State g None (rm_start M) m0 false false (IDisseminator.topic_init stack) d [] h c [].
End Threads.
#[global] Arguments state L M G C : clear implicits.
#[global] Arguments label M : clear implicits.
End RingSystem.
Import RingSystem.

(** * Proofs *)

(** What a step is on [System.v]: the calls of [push] and [pop] take effect at
    their last store, and calls that fail do not show. *)
Definition seen {M : RingMachine MarketDataMsg} (l : label M) : list Channel.label :=
  match l with
  | Queue l => match rm_action M l with Access PPublish => [Push] | Access CPublish => [Pop] | _ => [] end
  | CallPush => []
  | Other l => [l]
  end.

Section Simulation.
Context {L : Link} {M : RingMachine MarketDataMsg} {G : Type} `{RandomSource G} {C : Type} (Capacity : Z).
Context `{Hring : !CustomSpscQueue.RingCapacity Capacity} `{Hlaws : !RingMachineLaws Capacity M}.
Context (cbs : IFeedHandler.callbacks C).
Local Abbreviation cap := (Z.to_nat Capacity).
Local Abbreviation ring s := (rm_ring M (queue s)).
Local Abbreviation place s := (rm_phase M (queue s)).
Implicit Types (s : RingSystem.state L M G C) (a : SpscConcurrency.label MarketDataMsg).

(** The same state over the bounded list; [m] is what its [msg] holds. *)
Definition coarse s (m : MarketDataMsg) : System.state L G (ListQueue cap MarketDataMsg) C :=
  System.State (generator s) (pending s) (MkListQueue (SpscConcurrency.queued (ring s))) m (popped s || holding_item (place s))
    (topic_buf s) (publisher s) (wire s) (subscriber s) (client s) (generated s).

Record related s (m : MarketDataMsg) : Prop := {
  rl_ring : SpscConcurrency.reachable Capacity (ring s);
  rl_prod x : producer_item (prod (ring s)) = Some x -> pending s = Some x;
  rl_cons x : consumer_item (cons (ring s)) = Some x -> msg s = x;
  rl_busy : is_Some (consumer_item (cons (ring s))) -> place s = Accessing;
  rl_idle : popped s = true -> place s = Outside;
  rl_msg : popped s || holding_item (place s) = true -> m = msg s;
}.

Lemma ring_invariant s m : related s m -> inv Capacity (ring s).
Proof using Hring. destruct Hring. intros Hr. apply inv_reachable; [done..|apply Hr]. Qed.

(** A step that changes neither what is queued nor whether an item is being taken. *)
Lemma coarse_keeps s m q x e :
  SpscConcurrency.queued (rm_ring M q) = SpscConcurrency.queued (ring s) ->
  holding_item (rm_phase M q) = holding_item (place s) ->
  coarse (set_queue (pending s) q x (popped s) e s) m = coarse s m.
Proof using Type. intros Hq Hh. unfold coarse. simpl. by rewrite Hq, Hh. Qed.

(** What an access of the ring shows of itself. *)
Definition shows a : list Channel.label := match a with PPublish => [Push] | CPublish => [Pop] | _ => [] end.

(** An access of [push]. *)
Lemma push_access l a s m q : related s m -> rm_exec M l (queue s) = Some q -> rm_action M l = Access a ->
  match a with PCall _ | PLoadR _ | PConstruct | PPublish => True | _ => False end ->
  (forall x, a = PCall x -> pending s = Some x) ->
  let s' := set_queue (match a with PPublish => None | _ => pending s end) q (msg s) (popped s) (exited s) s in
  related s' m /\ run (System.exec cbs) (shows a) (coarse s m) = Some (coarse s' m).
Proof using Hring Hlaws.
  intros Hr He Hact Hprodu Hcall. pose proof (ring_invariant s m Hr) as Hinv. pose proof Hr as [Hre Hpr Hco Hbu Hid Hm].
  apply rm_step in He as Hst. rewrite Hact in Hst. destruct Hst as [Ha Hpop].
  assert (Hpop' : rm_phase M q = place s) by (by destruct a).
  pose proof (exec_items _ _ _ _ Ha) as Hit. pose proof (exec_histories _ _ _ _ Ha) as Hh.
  assert (Hcons : cons (rm_ring M q) = cons (ring s)) by (destruct a; try done; apply Hit).
  split.
  - split; simpl; rewrite ?Hpop', ?Hcons; try done; [by eapply ring_exec|].
    intros x. destruct a; try done; destruct Hit as [Hit _].
    + rewrite Hit. intros [= <-]. by apply Hcall.
    + destruct Hit as [-> | ->]; [done|auto].
    + destruct Hit as [-> | ->]; [done|auto].
    + by rewrite Hit.
  - assert (Hsame : a <> PPublish -> coarse (set_queue (pending s) q (msg s) (popped s) (exited s) s) m = coarse s m).
    { intros Hne. apply coarse_keeps; [|by rewrite Hpop']. eapply queued_push; [exact Ha|done|by destruct a]. }
    destruct a; try done; simpl; try (by rewrite Hsame).
    destruct Hh as (x & w & Hprod & Hp & Hq). assert (Hx : pending s = Some x) by (apply Hpr; by rewrite Hprod).
    rewrite Hx. simpl. destruct Hring as [Hpos Hdiv Hlt]. unfold Fifo.push.
    rewrite decide_True by (by eapply (publish_room Capacity)). simpl. unfold coarse. simpl.
    by rewrite (queued_pushed Capacity _ _ x Hinv Hp Hq), Hpop'.
Qed.

(** An access of [pop]. *)
Lemma pop_access l a s m q : related s m -> rm_exec M l (queue s) = Some q -> rm_action M l = Access a ->
  match a with PCall _ | PLoadR _ | PConstruct | PPublish => False | _ => True end ->
  let s' := set_queue (pending s) q (moved_to a (rm_ring M q) (msg s)) (popped s) (exited s) s in
  exists m', related s' m' /\ run (System.exec cbs) (shows a) (coarse s m) = Some (coarse s' m').
Proof using Hring Hlaws.
  intros Hr He Hact Hconsu. pose proof (ring_invariant s m Hr) as Hinv. pose proof Hr as [Hre Hpr Hco Hbu Hid Hm].
  apply rm_step in He as Hst. rewrite Hact in Hst. destruct Hst as [Ha Hpop].
  assert (Hpop' : place s = Accessing /\ rm_phase M q = after_access a (rm_ring M q)) by (by destruct a).
  destruct Hpop' as [Hacc Hpop']. clear Hpop. pose proof (exec_items _ _ _ _ Ha) as Hit.
  pose proof (exec_histories _ _ _ _ Ha) as Hh.
  assert (Hnp : popped s = false) by (destruct (popped s); [|done]; rewrite Hid in Hacc by done; discriminate).
  assert (Hprod : prod (rm_ring M q) = prod (ring s)) by (destruct a; naive_solver).
  assert (Hhold : holding_item (rm_phase M q) = match a with CPublish => true | _ => false end)
    by (rewrite Hpop'; destruct a; simpl; try done; by destruct (cons (rm_ring M q))).
  assert (Hrel : forall m', (a = CPublish -> m' = msg s) ->
    related (set_queue (pending s) q (moved_to a (rm_ring M q) (msg s)) (popped s) (exited s) s) m').
  { intros m' Hm'. split; simpl; rewrite ?Hprod, ?Hnp, ?Hhold; try done.
    - by eapply ring_exec.
    - intros x Hx. unfold moved_to. destruct a; try done; destruct Hit as [_ Hit]; try (by rewrite Hit in Hx).
      + destruct Hit as [Hit|(r & y & Hit)]; rewrite Hit in Hx |- *; [done|]. simpl in Hx. congruence.
      + rewrite Hit in Hx. by apply Hco.
    - intros [x Hx]. rewrite Hpop'. destruct a; try done; destruct Hit as [_ Hit]; by rewrite Hit in Hx.
    - destruct a; try done. intros _. by apply Hm'. }
  assert (Hpub : a = CPublish \/ a <> CPublish) by (destruct a; (by left) || (by right)).
  destruct Hpub as [->|Hpub].
  - exists (msg s). split; [by apply Hrel|].
    destruct Hh as (x & r & Hcons & Hp & Hq). assert (Hx : msg s = x) by (apply Hco; by rewrite Hcons).
    simpl. unfold coarse. rewrite Hnp, Hacc, (publish_oldest Capacity _ x r Hinv Hcons). simpl.
    by rewrite Hhold, Hx, (queued_popped _ _ x Hp Hq).
  - exists m. split; [by apply Hrel|]. rewrite coarse_keeps; [by destruct a| |by rewrite Hhold, Hacc; destruct a].
    eapply queued_push; [exact Ha|by destruct a|done].
Qed.

(** The same state, as far as the channel can tell. *)
Lemma silent_step s m q b e : related s m -> rm_ring M q = ring s ->
  (is_Some (consumer_item (cons (ring s))) -> rm_phase M q = Accessing) ->
  (b = true -> rm_phase M q = Outside) -> b || holding_item (rm_phase M q) = popped s || holding_item (place s) ->
  related (set_queue (pending s) q (msg s) b e s) m /\ coarse (set_queue (pending s) q (msg s) b e s) m = coarse s m.
Proof using Type.
  intros [Hre Hpr Hco Hbu Hid Hm] Hq Hacc Hout Hh. split.
  - split; simpl; rewrite ?Hq, ?Hh; auto.
  - unfold coarse. simpl. by rewrite Hq, Hh.
Qed.

(** A step inside the queue. *)
Lemma inner_step l s s' m : related s m -> exec cbs (Queue l) s = Some s' ->
  exists m', related s' m' /\ run (System.exec cbs) (seen (Queue l)) (coarse s m) = Some (coarse s' m').
Proof using Hring Hlaws.
  intros Hr Hs. cbn [exec] in Hs. apply bind_Some in Hs as (q & He & Hs). unfold queue_step in Hs.
  pose proof Hr as [Hre Hpr Hco Hbu Hid Hm]. apply rm_step in He as Hst. unfold seen.
  assert (Hnot : forall p, place s = p -> p <> Accessing -> ~ is_Some (consumer_item (cons (ring s))))
    by (intros p <- Hp Hi; by apply Hp, Hbu).
  destruct (rm_action M l) as [a| | | |] eqn:Hact.
  - destruct a as [x|i| | | |i| | |]; try done; injection Hs as <-.
    + exists m. by apply (push_access l (PLoadR i)).
    + exists m. by apply (push_access l PConstruct).
    + exists m. by apply (push_access l PPublish).
    + by apply (pop_access l CCall).
    + by apply (pop_access l (CLoadW i)).
    + by apply (pop_access l CMove).
    + by apply (pop_access l CDestroy).
    + by apply (pop_access l CPublish).
  - destruct Hst as (Hq & Hp & Hp'). destruct (popped s || exited s) eqn:Ep; [done|]. injection Hs as <-.
    apply orb_false_iff in Ep as [Hnp _]. exists m.
    destruct (silent_step s m q (popped s) (exited s) Hr Hq) as [? ->]; [|by rewrite Hnp|by rewrite Hp, Hp'|done].
    intros Hi. by destruct (Hnot _ Hp).
  - destruct Hst as (Hq & (b & Hp) & Hp'). rewrite Hp in Hs. injection Hs as <-. exists m.
    assert (Hnp : popped s = false) by (destruct (popped s); [rewrite Hid in Hp by done; discriminate|done]).
    destruct (silent_step s m q b (negb b) Hr Hq) as [? ->]; [by intros Hi; destruct (Hnot _ Hp)|done| |done].
    rewrite Hnp, Hp, Hp'. by destruct b.
  - destruct Hst as (Hq & Hp & _). injection Hs as <-. exists m.
    destruct (silent_step s m q (popped s) (exited s) Hr Hq) as [? ->]; rewrite ?Hp; auto.
  - destruct Hst as (Hq & Hp). injection Hs as <-. exists m.
    destruct (silent_step s m q (popped s) (exited s) Hr Hq) as [? ->]; [| | |done].
    + intros Hi. destruct Hp as [->|[Hp _]]; [auto|by destruct (Hnot _ Hp)].
    + intros Hb. apply Hid in Hb. destruct Hp as [->|[Hp _]]; [done|congruence].
    + destruct Hp as [->|[Hp Hp']]; [done|]. rewrite Hp. destruct Hp' as [->|[-> _]]; done.
Qed.

(** A step outside the queue. *)
Lemma other_step l s s' m : related s m -> exec cbs (Other l) s = Some s' ->
  exists m', related s' m' /\ System.exec cbs l (coarse s m) = Some (coarse s' m').
Proof using Type.
  intros Hr Hs. pose proof Hr as [Hre Hpr Hco Hbu Hid Hm].
  destruct l as [c1 c2| | |c pad stack|i dup clock|clock|i|b sym|]; try done; cbn [exec] in Hs;
    (destruct (busy _ s); [done|]); apply bind_Some in Hs as (t & He & [= <-]); simpl in *.
  - exists m. destruct (pending s) as [x|] eqn:Ep; [done|].
    destruct (RandomWalkGenerator.generate_msg_impl c1 (generator s)) as [[y g]|]; [|done]. injection He as <-.
    split; [|done]. split; simpl; try done. intros x Hx. by apply Hpr in Hx.
  - destruct (popped s) eqn:Epop; [|done]. rewrite Hm by done. simpl.
    destruct (IDisseminator.visit c pad (msg s) (topic_buf s)) as [[m' topic] payload].
    destruct (link_send L stack topic payload (publisher s)) as [d|]; [|done]. injection He as <-. exists m'.
    assert (Hno : consumer_item (cons (ring s)) = None).
    { apply eq_None_not_Some. intros Hx%Hbu. rewrite Hid in Hx; done. }
    unfold coarse. simpl. rewrite Hid by done. split; [|done].
    split; simpl; rewrite ?Hno, ?Hid by done; done.
  - apply bind_Some in He as (u & Hu & He). apply bind_Some in He as ([h c] & Hrc & [= <-]).
    exists m. rewrite Hu. simpl. rewrite Hrc. by split.
  - apply bind_Some in He as ([h c] & Hrc & [= <-]). exists m. rewrite Hrc. by split.
  - injection He as <-. exists m. by split.
  - apply bind_Some in He as (h & Hrc & [= <-]). exists m. rewrite Hrc. by split.
  - apply bind_Some in He as (h & Hrc & [= <-]). exists m. rewrite Hrc. by split.
Qed.

(** One step is the steps it is seen as. *)
Lemma step_seen l s s' m : related s m -> exec cbs l s = Some s' ->
  exists m', related s' m' /\ run (System.exec cbs) (seen l) (coarse s m) = Some (coarse s' m').
Proof using Hring Hlaws.
  intros Hr Hs. destruct l as [|l|l].
  - simpl in Hs. apply bind_Some in Hs as (x & Hx & (q & Hq & [= <-])%bind_Some).
    exists m. apply (push_access (rm_push M x) (PCall x)); [done..|by apply rm_push_action|done|]. by intros ? [= <-].
  - by apply inner_step.
  - assert (Hl : seen (M:=M) (Other l) = [l]) by done. rewrite Hl.
    destruct (other_step l s s' m Hr Hs) as (m' & Hr' & He). exists m'. split; [done|]. simpl. by rewrite He.
Qed.

Lemma run_seen ls s s' m : related s m -> run (exec cbs) ls s = Some s' ->
  exists m', related s' m' /\ run (System.exec cbs) (ls ≫= seen) (coarse s m) = Some (coarse s' m').
Proof using Hring Hlaws.
  revert s m; induction ls as [|l ls IH]; intros s m Hr; simpl; [intros [= <-]; by exists m|].
  intros (s1 & Hs & Hrun)%bind_Some. destruct (step_seen l s s1 m Hr Hs) as (m1 & Hr1 & He).
  destruct (IH s1 m1 Hr1 Hrun) as (m' & Hr' & He'). exists m'. split; [done|]. by rewrite run_app, He.
Qed.

(** ** The end of the disseminator's thread *)

(** A decision to return false has seen the stop request, and so has the end of
    [run_loop]. *)
Definition ended s : Prop :=
  (place s = Returning false -> rm_stopped M (queue s) = true) /\
  (exited s = true -> popped s = false /\ place s = Outside /\ rm_stopped M (queue s) = true).

Lemma ended_access l a s q p m : ended s -> rm_exec M l (queue s) = Some q -> rm_action M l = Access a ->
  ended (set_queue p q m (popped s) (exited s) s).
Proof using Hlaws.
  intros [Hf He] Hx Hact. pose proof (rm_stop_stays l _ _ Hx) as Hstop. apply rm_step in Hx. rewrite Hact in Hx.
  destruct Hx as [_ Hx]. split; simpl.
  - intros Hq. apply Hstop, Hf. destruct a; try congruence; destruct Hx as [_ Hx]; rewrite Hx in Hq; simpl in Hq;
      try discriminate; by destruct (cons (rm_ring M q)).
  - intros (Hp & Hi & Hs)%He. split_and!; [done| |auto]. destruct a; try congruence; destruct Hx; congruence.
Qed.

Lemma ended_step l s s' : ended s -> exec cbs l s = Some s' -> ended s'.
Proof using Hlaws.
  intros Hend Hs. pose proof Hend as [Hf He]. destruct l as [|l|l]; cbn [exec] in Hs.
  - apply bind_Some in Hs as (x & _ & (q & Hq & [= <-])%bind_Some).
    eapply ended_access; [done|exact Hq|apply rm_push_action].
  - apply bind_Some in Hs as (q & Hq & Hs). unfold queue_step in Hs. pose proof (rm_stop_stays l _ _ Hq) as Hstop.
    apply rm_step in Hq as Hst. destruct (rm_action M l) as [a| | | |] eqn:Hact.
    + destruct a; try done; injection Hs as <-; by eapply ended_access.
    + destruct Hst as (_ & _ & Hp). destruct (popped s || exited s) eqn:Ep; [done|]. injection Hs as <-.
      apply orb_false_iff in Ep as [_ Hex]. split; simpl; congruence.
    + destruct Hst as (_ & (b & Hb) & Hp). rewrite Hb in *. injection Hs as <-. split; simpl; [congruence|].
      destruct b; [done|]. auto.
    + destruct Hst as (_ & Hp & Hsp). injection Hs as <-. split; simpl; [done|].
      intros (? & Hi & ?)%He. by rewrite Hp.
    + destruct Hst as (_ & Hp). injection Hs as <-. split; simpl.
      * intros Hq'. destruct Hp as [Hp|[_ [Hp|[_ Hp]]]]; [|congruence|done]. rewrite Hp in Hq'. auto.
      * intros (? & Hi & ?)%He. destruct Hp as [->|[Hp _]]; [auto|congruence].
  - assert (Hq : queue s' = queue s /\ exited s' = exited s /\ (popped s = false -> popped s' = false)).
    { destruct l; try done; destruct (busy _ s); try done; apply bind_Some in Hs as (t & Ht & [= <-]); simpl in *;
        step_cases; by split_and!. }
    destruct Hq as (Hq & Hex & Hp). unfold ended. rewrite Hq, Hex. split; [done|]. intros (? & ? & ?)%He. auto.
Qed.
End Simulation.

(** ** Runs from the start *)

Section Runs.
Context {L : Link} `{LinkLaws L} {G : Type} `{RandomSourceLaws G} {C : Type} (Capacity : Z).
Context {M : RingMachine MarketDataMsg} `{Hlaws : !RingMachineLaws Capacity M}.
Context `{Hring : !CustomSpscQueue.RingCapacity Capacity} (cbs : IFeedHandler.callbacks C) (symbols : list (list byte)).
Local Abbreviation cap := (Z.to_nat Capacity).
Implicit Types (s : RingSystem.state L M G C).

Definition ready (g : RandomWalkGenerator.t G) (stack : list byte) (d : disseminator L) (h : handler L) : Prop :=
  gen_inv symbols g /\ length stack = 10%nat /\ link_ok d /\ handler_ok h.

Lemma related_start g m0 stack d h c0 : related Capacity (start (L:=L) (M:=M) (G:=G) (C:=C) g m0 stack d h c0) m0.
Proof using Hlaws.
  pose proof (rm_start_ring (M:=M)) as Hring0. pose proof (rm_start_phase (M:=M)) as Hp0.
  split; simpl; rewrite ?Hring0, ?Hp0; simpl; try done; constructor.
Qed.

(** Where a run may lead: to the state of a channel, over a sound ring. *)
Lemma run_ring g m0 stack d h c0 ls s : ready g stack d h -> Forall (label_ok (L:=L)) (ls ≫= seen) ->
  run (exec cbs) ls (start g m0 stack d h c0) = Some s ->
  exists m a, steps (channel_step symbols cap) (ls ≫= seen) (idle (fun hdr => accepts hdr h) (settled h)) a /\
    implements cbs c0 symbols (coarse Capacity s m) a /\ related Capacity s m.
Proof using All.
  intros (Hg & Hst & Hd & Hh) Hls Hrun. pose proof (rm_start_ring (M:=M)) as Hring0. pose proof (rm_start_phase (M:=M)) as Hp0.
  pose proof (related_start g m0 stack d h c0) as Hr.
  destruct (run_seen Capacity cbs ls _ s m0 Hr Hrun) as (m & Hr' & Hrun').
  replace (coarse Capacity (start (M:=M) g m0 stack d h c0) m0) with
    (System.start (L:=L) (C:=C) g (MkListQueue [] : ListQueue cap MarketDataMsg) m0 stack d h c0) in Hrun'
    by (unfold coarse; simpl; by rewrite Hring0, Hp0).
  destruct (run_channel (Q:=ListQueue cap MarketDataMsg) cbs symbols g (MkListQueue []) m0 stack d h c0 (ls ≫= seen)
              (coarse Capacity s m)) as (a & Hsts & Him);
    [split_and!; [done|split; [done|simpl; lia]|done..]|done|exact Hrun'|].
  by exists m, a.
Qed.

Lemma run_ended g m0 stack d h c0 ls s : run (exec cbs) ls (start g m0 stack d h c0) = Some s -> ended s.
Proof using Hlaws.
  intros Hrun%run_rtc. refine (rtc_invariant _ ended _ _ _ Hrun _).
  - intros x y Hx [l Hl]. by eapply ended_step.
  - split; simpl; [by rewrite (rm_start_phase (M:=M))|done].
Qed.
End Runs.

(** * Demonstration: a trade over UDP; stop is requested while a second is pushed *)

Section Waitable.
Import WaitableRing.
Local Abbreviation Waiting := (WaitableRing.machine MarketDataMsg 2).

Definition demo_waiting_orders : list (RingSystem.label Waiting) :=
  let inside := Queue (M:=Waiting) in
  [Other (Make 10 11); CallPush; inside PopCall; inside (Prod (PLoadR 0)); inside PopTest; inside (Prod PConstruct);
   inside (Cons CCall); inside (Cons (CLoadW 0)); inside (Prod PPublish); inside PopSleep; inside (Cons CCall);
   inside (LoadFlag 1); inside (Cons (CLoadW 1)); inside (Cons CMove); inside (Cons CDestroy); inside StoreFlag;
   inside (Cons CPublish); inside PopAwake; inside Notify; Other Poll; inside PopReturn; Other (Make 20 21);
   Other (Publish 30 demo_pad demo_send_stack); CallPush; inside PopCall; inside (Prod (PLoadR 0)); inside StopRequest;
   Other (Receive 0 false 35); inside StopStore; inside PopTest; inside (Prod PConstruct); inside StopNotify;
   inside PopReturn; inside (Prod PPublish); inside (LoadFlag 3)].

Definition demo_waiting_start : RingSystem.state Udp Waiting Tape (list (MarketDataMsg * Z)) :=
  RingSystem.start (L:=Udp) demo_generator (QuoteMsg Quote.zero) demo_topic_stack demo_udp demo_receiver [].

Definition demo_waiting_end : RingSystem.state Udp Waiting Tape (list (MarketDataMsg * Z)) :=
  default demo_waiting_start (run (RingSystem.exec recording) demo_waiting_orders demo_waiting_start).
End Waitable.

Section Spinning.
Import SpinRing.
Local Abbreviation Spinning := (SpinRing.machine MarketDataMsg 2).

Definition demo_spinning_orders : list (RingSystem.label Spinning) :=
  let inside := Queue (M:=Spinning) in
  [Other (Make 10 11); CallPush; inside PopCall; inside (Prod (PLoadR 0)); inside PopTest; inside (Prod PConstruct);
   inside (Cons CCall); inside (Cons (CLoadW 0)); inside (Prod PPublish); inside PopTest; inside (Cons CCall);
   inside (Cons (CLoadW 1)); inside (Cons CMove); inside (Cons CDestroy); inside (Cons CPublish); Other Poll;
   inside PopReturn; Other (Make 20 21); Other (Publish 30 demo_pad demo_send_stack); CallPush; inside PopCall;
   inside (Prod (PLoadR 0)); inside StopRequest; inside PopTest; inside (Prod PConstruct); inside PopReturn;
   inside (Prod PPublish)].

Definition demo_spinning_start : RingSystem.state Udp Spinning Tape (list (MarketDataMsg * Z)) :=
  RingSystem.start (L:=Udp) demo_generator (QuoteMsg Quote.zero) demo_topic_stack demo_udp demo_receiver [].

Definition demo_spinning_end : RingSystem.state Udp Spinning Tape (list (MarketDataMsg * Z)) :=
  default demo_spinning_start (run (RingSystem.exec recording) demo_spinning_orders demo_spinning_start).
End Spinning.

(** A run is there if a test of its outcome says so. *)
Lemma run_default {A} (o : option A) (x : A) : (match o with Some _ => true | None => false end) = true ->
  o = Some (default x o).
Proof. by destruct o. Qed.

Lemma demo_waiting_path : run (exec recording) demo_waiting_orders demo_waiting_start = Some demo_waiting_end.
Proof. apply run_default. vm_compute. reflexivity. Qed.

Lemma demo_spinning_path : run (exec recording) demo_spinning_orders demo_spinning_start = Some demo_spinning_end.
Proof. apply run_default. vm_compute. reflexivity. Qed.

Lemma demo_ready : ready (L:=Udp) [sym_V; sym_VZ] demo_generator demo_topic_stack demo_udp demo_receiver.
Proof. destruct demo_start_ok as (? & _ & ? & ? & ?). by split_and!. Qed.

Lemma demo_waiting_ok : Forall (label_ok (L:=Udp)) (demo_waiting_orders ≫= seen).
Proof. simpl. repeat (apply Forall_cons; split; [exact I || (split; reflexivity)|]). by apply Forall_nil. Qed.

Lemma demo_spinning_ok : Forall (label_ok (L:=Udp)) (demo_spinning_orders ≫= seen).
Proof. simpl. repeat (apply Forall_cons; split; [exact I || (split; reflexivity)|]). by apply Forall_nil. Qed.

(** The disseminator has stopped and the second trade is left in the ring. In the
    spinning run the first one is still on its way. *)
Example demo_waiting_left :
  (exited demo_waiting_end, (enqueue_time ∘ fst) <$> client demo_waiting_end,
   enqueue_time <$> SpscConcurrency.queued (rm_ring (WaitableRing.machine MarketDataMsg 2) (queue demo_waiting_end)))
  = (true, [11], [21]).
Proof. vm_compute. reflexivity. Qed.

Example demo_spinning_left :
  (exited demo_spinning_end, length (wire demo_spinning_end), length (client demo_spinning_end),
   enqueue_time <$> SpscConcurrency.queued (rm_ring (SpinRing.machine MarketDataMsg 2) (queue demo_spinning_end)))
  = (true, 1%nat, 0%nat, [21]).
Proof. vm_compute. reflexivity. Qed.

(** * Properties *)

(** C6: refinement down to the accesses of the ring. Every run of the program with
    either of its queues, with any interleaving of the accesses of [push] and [pop],
    any coherent outcome of their loads, any sleeping and waking and a stop request
    at any time, is a run of the ideal channel on which a message enters and leaves
    the queue at a single step; and no access races. *)
Theorem ring_system_refines_channel {L : Link} `{LinkLaws L} {G : Type} `{RandomSourceLaws G} {C : Type}
    (Capacity : Z) (M : RingMachine MarketDataMsg) `{!RingMachineLaws Capacity M}
    `{Hring : !CustomSpscQueue.RingCapacity Capacity} (cbs : IFeedHandler.callbacks C)
    (symbols : list (list byte)) (g : RandomWalkGenerator.t G) (m0 : MarketDataMsg) (stack : list byte)
    (d : disseminator L) (h : handler L) (c0 : C) (ls : list (RingSystem.label M)) (s : state L M G C) :
  ready symbols g stack d h -> Forall (label_ok (L:=L)) (ls ≫= seen) ->
  run (exec cbs) ls (start g m0 stack d h c0) = Some s ->
  fault (rm_ring M (queue s)) = false /\
  exists m a, steps (channel_step symbols (Z.to_nat Capacity)) (ls ≫= seen)
                (idle (fun hdr => accepts hdr h) (settled h)) a /\
    implements cbs c0 symbols (coarse Capacity s m) a.
Proof.
  intros Hok Hls Hrun. destruct (run_ring _ _ _ _ _ _ _ _ _ _ _ Hok Hls Hrun) as (m & a & Hst & Him & Hr).
  split; [|by exists m, a]. exact (inv_fault Capacity _ (ring_invariant Capacity s m Hr)).
Qed.

Lemma ring_system_refines_channel_witness :
  fault (rm_ring (SpinRing.machine MarketDataMsg 2) (queue demo_spinning_end)) = false /\
  exists m a, steps (channel_step [sym_V; sym_VZ] 2) (demo_spinning_orders ≫= seen)
                (idle (fun hdr => accepts (L:=Udp) hdr demo_receiver) (settled (L:=Udp) demo_receiver)) a /\
    implements (L:=Udp) recording [] [sym_V; sym_VZ] (coarse 2 demo_spinning_end m) a.
Proof.
  apply (ring_system_refines_channel (L:=Udp) 2 (SpinRing.machine MarketDataMsg 2) recording [sym_V; sym_VZ]
           demo_generator (QuoteMsg Quote.zero) demo_topic_stack demo_udp demo_receiver [] demo_spinning_orders
           demo_spinning_end).
  - exact demo_ready.
  - exact demo_spinning_ok.
  - exact demo_spinning_path.
Defined.

(** What stopping costs. Over a network that keeps everything in order, to a
    client that wants every symbol, the disseminator's thread ends only after stop
    has been requested; and then every message the generator has made has been
    shown to the client or is in flight, exactly once and in order, but for those
    left in the ring, at most its capacity of them, and the one being pushed. *)
Theorem stop_leaves_at_most_the_ring {L : Link} `{LinkLaws L} {G : Type} `{RandomSourceLaws G} {C : Type}
    (Capacity : Z) (M : RingMachine MarketDataMsg) `{!RingMachineLaws Capacity M}
    `{Hring : !CustomSpscQueue.RingCapacity Capacity} (cbs : IFeedHandler.callbacks C)
    (symbols : list (list byte)) (g : RandomWalkGenerator.t G) (m0 : MarketDataMsg) (stack : list byte)
    (d : disseminator L) (h : handler L) (c0 : C) (ls : list (RingSystem.label M)) (s : state L M G C) :
  ready symbols g stack d h -> covers symbols h ->
  Forall (label_ok (L:=L)) (ls ≫= seen) -> Forall orderly (ls ≫= seen) ->
  run (exec cbs) ls (start g m0 stack d h c0) = Some s ->
  exited s = true ->
  rm_stopped M (queue s) = true /\
  exists (received : list (shipment * Z)) (in_flight : list shipment) (left_over : list MarketDataMsg),
    generated s = (ship_msg <$> received.*1) ++ (ship_msg <$> in_flight) ++ left_over ++ option_list (pending s) /\
    client s = foldl (show cbs) c0 received /\ wire s = ship_parcel <$> in_flight /\
    SpscConcurrency.queued (rm_ring M (queue s)) = left_over /\ Z.of_nat (length left_over) <= Capacity.
Proof.
  intros Hok Hcov Hls Hord Hrun Hex.
  destruct (run_ended Capacity _ _ _ _ _ _ _ _ _ Hrun) as [_ Hend]. destruct (Hend Hex) as (Hp & Hi & Hf).
  split; [done|]. destruct (run_ring _ _ _ _ _ _ _ _ _ _ _ Hok Hls Hrun) as (m & a & Hst & Him & Hr).
  destruct (steps_orderly _ _ h _ a Hcov Hord Hst) as [_ Ho].
  exists (shown a), (flying a), (Channel.queued a).
  pose proof (im_queue _ _ _ _ _ Him) as [Hq Hlen]. simpl in Hq.
  pose proof (im_held _ _ _ _ _ Him) as Hh. unfold in_hand, coarse in Hh. simpl in Hh. rewrite Hp, Hi in Hh.
  pose proof (im_made _ _ _ _ _ Him) as Hm. pose proof (im_making _ _ _ _ _ Him) as Hk. simpl in Hm, Hk.
  destruct Hring. split_and!; [|apply Him|apply Him|done|lia].
  rewrite Hm, Hk, (io_made _ _ Ho), <- Hh. done.
Qed.

Lemma stop_leaves_at_most_the_ring_witness :
  rm_stopped (WaitableRing.machine MarketDataMsg 2) (queue demo_waiting_end) = true /\
  exists (received : list (shipment * Z)) (in_flight : list shipment) (left_over : list MarketDataMsg),
    generated demo_waiting_end = (ship_msg <$> received.*1) ++ (ship_msg <$> in_flight) ++ left_over ++
      option_list (pending demo_waiting_end) /\
    client demo_waiting_end = foldl (show recording) [] received /\
    wire demo_waiting_end = ship_parcel (L:=Udp) <$> in_flight /\
    SpscConcurrency.queued (rm_ring (WaitableRing.machine MarketDataMsg 2) (queue demo_waiting_end)) = left_over /\
    Z.of_nat (length left_over) <= 2.
Proof.
  apply (stop_leaves_at_most_the_ring (L:=Udp) 2 (WaitableRing.machine MarketDataMsg 2) recording [sym_V; sym_VZ]
           demo_generator (QuoteMsg Quote.zero) demo_topic_stack demo_udp demo_receiver [] demo_waiting_orders
           demo_waiting_end).
  - exact demo_ready.
  - exact demo_receiver_covers.
  - exact demo_waiting_ok.
  - simpl. repeat (apply Forall_cons; split; [exact I || (split; reflexivity)|]). by apply Forall_nil.
  - exact demo_waiting_path.
  - vm_compute. reflexivity.
Defined.
