(* ===== verification/RingProgress.v ===== *)
(** Nothing gets stuck down to the accesses of the ring: from any point of an orderly
    run of [RingSystem.v], before stop is requested, the threads can bring every
    message to the client, with a queue that makes progress. *)

From S2P Require Import Prelude Types QueueConcepts CustomSpscQueue SpscConcurrency RingMachine WaitableRing SpinRing Threads BaseGenerator RandomWalkGenerator Calls Disseminator UdpFeedHandler ZmqFeedHandler Wire Links Channel System RingSystem.
From stdpp Require Import options.
Import RingSystem.

Section Progress.
Context {L : Link} `{LinkLaws L} {G : Type} `{RandomSourceLaws G} {C : Type} (Capacity : Z).
Context {M : RingMachine MarketDataMsg} `{Hlaws : !RingMachineLaws Capacity M} `{Hlive : !RingMachineLive M}.
Context `{Hring : !CustomSpscQueue.RingCapacity Capacity} (cbs : IFeedHandler.callbacks C) (c0 : C).
Context (symbols : list (list byte)).
Local Abbreviation cap := (Z.to_nat Capacity).
Local Abbreviation ring s := (rm_ring M (queue s)).
Local Abbreviation place s := (rm_phase M (queue s)).
Local Abbreviation channel_run := (steps (channel_step symbols cap)).
Implicit Types (s : RingSystem.state L M G C) (a : channel).

(** A state of the program that stands for [a], with a queue that can get on. *)
Record tracks s (m : MarketDataMsg) a : Prop := {
  tk_implements : implements cbs c0 symbols (coarse Capacity s m) a;
  tk_related : related Capacity s m;
  tk_live : rm_live (queue s);
  tk_ended : ended s;
  tk_running : rm_stopped M (queue s) = false;
}.

Lemma tracks_exited s m a : tracks s m a -> exited s = false.
Proof using Type.
  intros [_ _ _ [_ He] Hs]. destruct (exited s); [|done]. destruct He as (_ & _ & ?); [done|congruence].
Qed.

Lemma queue_live l s s' : rm_live (queue s) -> exec cbs l s = Some s' -> rm_live (queue s').
Proof using Type.
  intros Hl Hs. destruct l as [|l|l]; cbn [exec] in Hs.
  - apply bind_Some in Hs as (x & _ & (q & Hq & [= <-])%bind_Some). by eapply rm_live_step.
  - apply bind_Some in Hs as (q & Hq & Hs). assert (Hx : queue s' = q) by (unfold queue_step in Hs; by step_cases).
    rewrite Hx. by eapply rm_live_step.
  - assert (Hq : queue s' = queue s); [|by rewrite Hq].
    destruct l; try done; destruct (busy _ s); try done; by apply bind_Some in Hs as (t & _ & [= <-]).
Qed.

(** A step, while the queue is not stopped. *)
Lemma tracks_step l s s' m a : tracks s m a -> Forall (label_ok (L:=L)) (seen l) -> exec cbs l s = Some s' ->
  rm_stopped M (queue s') = false ->
  exists m' a', run (System.exec cbs) (seen l) (coarse Capacity s m) = Some (coarse Capacity s' m') /\
    channel_run (seen l) a a' /\ tracks s' m' a'.
Proof using All.
  intros [Him Hr Hl He Hs] Hlab Hex Hs'. destruct (step_seen Capacity cbs l s s' m Hr Hex) as (m' & Hr' & Hrun).
  destruct (run_implements cbs c0 symbols _ _ _ a Hlab Him Hrun) as (a' & Hst & Him').
  exists m', a'. split; [done|]. split; [exact Hst|]. split; try done; [by eapply queue_live|by eapply ended_step].
Qed.

(** The first steps of what is not over yet: they bring what is left down. *)
Definition effort s : nat := if popped s then 0 else S (rm_rank (queue s)).

Definition less s' a' s a : Prop :=
  (backlog a' < backlog a)%nat \/ backlog a' = backlog a /\ (effort s' < effort s)%nat.

Definition advances s a : Prop := exists ls s' m' a',
  Forall draining (ls ≫= seen) /\ Forall (label_ok (L:=L)) (ls ≫= seen) /\ run (exec cbs) ls s = Some s' /\
  channel_run (ls ≫= seen) a a' /\ tracks s' m' a' /\ less s' a' s a.

Lemma advances_step l s s' m a : tracks s m a -> Forall draining (seen l) -> Forall (label_ok (L:=L)) (seen l) ->
  exec cbs l s = Some s' -> rm_stopped M (queue s') = false ->
  (forall m' a', channel_run (seen l) a a' -> tracks s' m' a' -> less s' a' s a) -> advances s a.
Proof using All.
  intros Ht Hd Hlab He Hs Hless. destruct (tracks_step l s s' m a Ht Hlab He Hs) as (m' & a' & _ & Hst & Ht').
  assert (Hb : [l] ≫= seen = seen l) by apply app_nil_r.
  exists [l], s', m', a'. rewrite Hb. split_and!; try done; [simpl; by rewrite He|by eapply Hless].
Qed.

(** ** The disseminator and the network *)

Lemma other_enabled l s m t : related Capacity s m ->
  match l with Publish _ _ _ => popped s = true | Poll | Receive _ _ _ => True | _ => False end ->
  System.exec cbs l (coarse Capacity s m) = Some t ->
  exists s', exec cbs (Other l) s = Some s' /\ queue s' = queue s.
Proof using Type.
  intros Hr Hl Ht. destruct l as [| | |c pad stack|i dup clock| | | |]; try done; cbn [exec busy]; simpl in *.
  - rewrite Hl in *. simpl in Ht. rewrite (rl_msg _ _ _ Hr) in Ht by (by rewrite Hl).
    destruct (IDisseminator.visit c pad (msg s) (topic_buf s)) as [[m' topic] payload].
    destruct (link_send L stack topic payload (publisher s)); [|done]. by eexists.
  - apply bind_Some in Ht as (u & -> & Ht). simpl.
    apply bind_Some in Ht as ([h c] & -> & _). simpl. by eexists.
  - apply bind_Some in Ht as (h & -> & _). simpl. by eexists.
Qed.

(** How much is left depends on the state of the program alone. *)
Lemma backlog_state s m a a' : implements cbs c0 symbols (coarse Capacity s m) a ->
  implements cbs c0 symbols (coarse Capacity s m) a' -> backlog a = backlog a'.
Proof using Type.
  intros Ha Ha'. unfold backlog.
  rewrite <- (im_making _ _ _ _ _ Ha), <- (im_making _ _ _ _ _ Ha'), <- (im_held _ _ _ _ _ Ha), <- (im_held _ _ _ _ _ Ha').
  destruct (im_queue _ _ _ _ _ Ha) as [<- _], (im_queue _ _ _ _ _ Ha') as [<- _].
  pose proof (im_flying _ _ _ _ _ Ha) as Hf. rewrite (im_flying _ _ _ _ _ Ha') in Hf.
  apply (f_equal length) in Hf. rewrite !length_fmap in Hf. by rewrite Hf.
Qed.

Lemma networking_run ls s m a t : tracks s m a -> Forall networking ls ->
  run (System.exec cbs) ls (coarse Capacity s m) = Some t ->
  exists s' m' a', run (exec cbs) (Other <$> ls) s = Some s' /\ t = coarse Capacity s' m' /\
    channel_run ls a a' /\ tracks s' m' a'.
Proof using All.
  revert s m a; induction ls as [|l ls IH]; intros s m a Ht Hls; cbn [run].
  { intros [= <-]. exists s, m, a. split_and!; [done..|constructor|done]. }
  intros (t1 & Ht1 & Hrun)%bind_Some. apply Forall_cons in Hls as [Hl Hls].
  destruct (other_enabled l s m t1) as (s1 & Hs1 & Hq); [apply Ht|by destruct l|done|].
  assert (Hseen : seen (M:=M) (Other l) = [l]) by done.
  destruct (tracks_step (Other l) s s1 m a Ht) as (m1 & a1 & Hco & Hst & Ht'); [|done|rewrite Hq; apply Ht|].
  { rewrite Hseen. apply Forall_singleton. by destruct l. }
  rewrite Hseen in Hco, Hst. simpl in Hco. rewrite Ht1 in Hco. injection Hco as ->.
  destruct (IH s1 m1 a1 Ht' Hls Hrun) as (s' & m' & a' & Hrun' & Heq & Hst' & Ht'').
  exists s', m', a'. split_and!; [cbn [fmap list_fmap run]; by rewrite Hs1|done| |done].
  by apply (steps_app _ [l] ls a a1 a').
Qed.

Lemma seen_others (ls : list Channel.label) : (Other (M:=M) <$> ls) ≫= seen = ls.
Proof using Type. induction ls as [|l ls IH]; [done|]. exact (f_equal (Datatypes.cons l) IH). Qed.

Lemma network_advances (clock : Z) s m a : tracks s m a -> flying a <> [] -> advances s a.
Proof using All.
  intros Ht Hf. destruct (network_progress cbs c0 symbols clock _ a (tk_implements _ _ _ Ht) Hf)
    as (ls & t & a1 & Hn & Hrun & _ & Him1 & Hlt).
  destruct (networking_run ls s m a t Ht Hn Hrun) as (s' & m' & a' & Hrun' & -> & Hst & Ht').
  exists (Other <$> ls), s', m', a'. rewrite seen_others. split_and!; try done.
  - eapply Forall_impl; [exact Hn|]. by intros [].
  - eapply Forall_impl; [exact Hn|]. by intros [].
  - left. by rewrite (backlog_state s' m' a' a1 (tk_implements _ _ _ Ht') Him1).
Qed.

Lemma publish_advances c pad stack s m a : tracks s m a -> label_ok (L:=L) (Publish c pad stack) -> popped s = true ->
  advances s a.
Proof using All.
  intros Ht Hlab Hp. pose proof (im_held _ _ _ _ _ (tk_implements _ _ _ Ht)) as Hh.
  unfold in_hand, coarse in Hh. simpl in Hh. rewrite Hp in Hh. simpl in Hh.
  destruct (publish_enabled cbs c0 symbols c pad stack _ a Hlab (tk_implements _ _ _ Ht)) as (t & He);
    [by rewrite <- Hh|].
  destruct (other_enabled (Publish c pad stack) s m t) as (s' & Hs' & Hq); [apply Ht|done|done|].
  eapply (advances_step (Other (Publish c pad stack))); [exact Ht|by apply Forall_singleton|by apply Forall_singleton|
    exact Hs'|rewrite Hq; apply Ht|].
  intros m' a' Hst _. left. inversion Hst as [|? ? ? b ? Hstep Hnil]; subst. inversion Hnil; subst.
  inversion Hstep; subst. unfold backlog. simpl. rewrite <- Hh, length_app. simpl. lia.
Qed.

(** ** Inside the queue *)

Lemma push_less a a' : channel_step symbols cap Push a a' -> making a' = None -> (backlog a' < backlog a)%nat.
Proof using Type.
  intros Hst Hm. inversion Hst as [|m b Hb| | | | | | | |]; subst. unfold backlog, offer, Fifo.push in *. rewrite Hb.
  case_decide; simpl in *; [|done]. rewrite length_app. simpl. lia.
Qed.

Lemma pop_less a a' : channel_step symbols cap Pop a a' -> held a' <> None -> (backlog a' < backlog a)%nat.
Proof using Type.
  intros Hst Hh. inversion Hst as [| |m l b Hn Hq| | | | | | |]; subst; [|done].
  unfold backlog. simpl. rewrite Hn, Hq. simpl. lia.
Qed.

(** What a finishing step does to the threads that use the queue. *)
Lemma finishing_step l s m a q : tracks s m a -> popped s = false -> rm_exec M l (queue s) = Some q ->
  finishing (rm_action M l) ->
  exists s', exec cbs (Queue l) s = Some s' /\ queue s' = q /\
    popped s' = (match rm_action M l with Return => true | _ => false end) /\
    (rm_action M l = Access PPublish -> pending s' = None).
Proof using Hlaws.
  intros Ht Hp Hq Hf. cbn [exec]. rewrite Hq. cbn [mbind option_bind]. unfold queue_step.
  destruct (rm_action M l) as [b| | | |] eqn:Hact; try done.
  - destruct b; try done; eexists; split_and!; (reflexivity || done).
  - apply rm_step in Hq. rewrite Hact in Hq. destruct Hq as (_ & ([|] & Hb) & _); rewrite Hb.
    + eexists. by split_and!.
    + destruct (tk_ended _ _ _ Ht) as [Hend _]. pose proof (tk_running _ _ _ Ht). rewrite Hend in *; done.
  - eexists. by split_and!.
Qed.

Lemma queue_advances l s m a q : tracks s m a -> popped s = false -> rm_exec M l (queue s) = Some q ->
  finishing (rm_action M l) -> rm_stopped M q = false ->
  rm_action M l = Return \/ rm_action M l = Access PPublish \/ (rm_rank q < rm_rank (queue s))%nat -> advances s a.
Proof using All.
  intros Ht Hp Hq Hf Hs Hr. destruct (finishing_step l s m a q Ht Hp Hq Hf) as (s' & He & Hq' & Hp' & Hpend).
  assert (Hseen : seen (Queue l) = [] \/ seen (Queue l) = [Push] /\ rm_action M l = Access PPublish \/
    seen (Queue l) = [Pop] /\ rm_action M l = Access CPublish)
    by (unfold seen; destruct (rm_action M l) as [[]| | | |]; auto).
  eapply (advances_step (Queue l)); [exact Ht| | |exact He|by rewrite Hq'|].
  { destruct Hseen as [->|[[-> _]|[-> _]]]; repeat constructor. }
  { destruct Hseen as [->|[[-> _]|[-> _]]]; repeat constructor. }
  intros m' a' Hst Ht'. destruct Hseen as [Hn|[[Hn Hact]|[Hn Hact]]]; rewrite Hn in Hst; inversion Hst; subst.
  - right. split; [done|]. unfold effort. rewrite Hp, Hp'. destruct Hr as [->|[Hr|Hr]]; [lia| |].
    + unfold seen in Hn. by rewrite Hr in Hn.
    + destruct (rm_action M l); lia.
  - match goal with Hx : steps _ [] _ _ |- _ => inversion Hx; subst end. left. eapply push_less; [done|].
    rewrite <- (im_making _ _ _ _ _ (tk_implements _ _ _ Ht')). by apply Hpend.
  - match goal with Hx : steps _ [] _ _ |- _ => inversion Hx; subst end. left. eapply pop_less; [done|].
    rewrite <- (im_held _ _ _ _ _ (tk_implements _ _ _ Ht')). apply rm_step in Hq. rewrite Hact in Hq.
    destruct Hq as (_ & _ & Hph). unfold in_hand, coarse. simpl. by rewrite Hph, orb_true_r.
Qed.

(** A call of [pop] or of [push]. *)
Lemma call_advances s m a : tracks s m a -> popped s = false -> place s = Outside -> advances s a.
Proof using All.
  intros Ht Hp Hout. destruct (rm_call_enabled (queue s)) as (l & q & Hq & Hact & Hs & Hr); [apply Ht..|done|].
  assert (Hn : seen (Queue l) = []) by (unfold seen; by rewrite Hact).
  eapply (advances_step (Queue l) s (set_queue (pending s) q (msg s) (popped s) (exited s) s)); [exact Ht|by rewrite Hn..| |done|].
  - cbn [exec]. rewrite Hq. cbn [mbind option_bind]. unfold queue_step. by rewrite Hact, Hp, (tracks_exited s m a Ht).
  - intros m' a' Hst _. rewrite Hn in Hst. inversion Hst; subst. right. split; [done|]. unfold effort. simpl.
    rewrite Hp. lia.
Qed.

Lemma offer_advances x s m a : tracks s m a -> popped s = false -> pending s = Some x ->
  rm_pushing M (queue s) = false -> advances s a.
Proof using All.
  intros Ht Hp Hx Hpush. destruct (rm_push_enabled x (queue s)) as (q & Hq & Hs & Hr); [apply Ht|done|].
  eapply (advances_step CallPush s (set_queue (pending s) q (msg s) (popped s) (exited s) s)); [exact Ht|by constructor..| | |].
  - cbn [exec]. rewrite Hx. cbn [mbind option_bind]. by rewrite Hq.
  - simpl. rewrite Hs. apply Ht.
  - intros m' a' Hst _. inversion Hst; subst. right. split; [done|]. unfold effort. simpl. rewrite Hp. lia.
Qed.

(** ** To the end *)

Lemma always_advances c pad stack (clock : Z) s m a : label_ok (L:=L) (Publish c pad stack) -> tracks s m a ->
  backlog a <> 0%nat -> advances s a.
Proof using All.
  intros Hlab Ht Hb. destruct (popped s) eqn:Hp; [by eapply publish_advances|].
  destruct (decide (flying a = [])) as [Hf|Hf]; [|by eapply network_advances].
  pose proof Ht as [Him Hr Hl He Hs].
  destruct (decide (place s = Outside)) as [Ho|Ho]; [by eapply call_advances|].
  assert (Hwork : SpscConcurrency.queued (ring s) <> [] \/ holding_item (place s) = true \/
    (SpscConcurrency.queued (ring s) = [] /\ is_Some (pending s))).
  { destruct (SpscConcurrency.queued (ring s)) eqn:Eq; [|by left]. right. destruct (holding_item (place s)) eqn:Eh; [by left|right].
    split; [done|]. destruct (pending s) eqn:Epe; [done|]. destruct Hb. unfold backlog.
    rewrite <- (im_making _ _ _ _ _ Him), <- (im_held _ _ _ _ _ Him), Hf. destruct (im_queue _ _ _ _ _ Him) as [<- _].
    unfold in_hand, coarse. simpl. by rewrite Eq, Epe, Hp, Eh. }
  destruct Hwork as [Hw|[Hw|[Hq [x Hx]]]].
  - destruct (rm_pop_progress (queue s)) as (l & q & Hst & Hfin & Hs' & Hor); [done..|by left|].
    eapply queue_advances; [done..|]. destruct Hor; auto.
  - destruct (rm_pop_progress (queue s)) as (l & q & Hst & Hfin & Hs' & Hor); [done..|by right|].
    eapply queue_advances; [done..|]. destruct Hor; auto.
  - destruct (rm_pushing M (queue s)) eqn:Epu; [|by eapply offer_advances].
    destruct (rm_push_progress (queue s)) as (l & q & Hst & Hfin & Hs' & Hor); [done..|].
    eapply queue_advances; [done..|by rewrite Hs'|]. destruct Hor; auto.
Qed.

Lemma drain_ring c pad stack (clock : Z) s m a : label_ok (L:=L) (Publish c pad stack) -> tracks s m a ->
  exists ls s' m' a', Forall draining (ls ≫= seen) /\ run (exec cbs) ls s = Some s' /\
    channel_run (ls ≫= seen) a a' /\ tracks s' m' a' /\ backlog a' = 0%nat.
Proof using All.
  intros Hlab. remember (backlog a) as n eqn:En. revert s m a En.
  induction n as [n IHn] using lt_wf_ind. intros s. remember (effort s) as e eqn:Ee. revert s Ee.
  induction e as [e IHe] using lt_wf_ind. intros s -> m a -> Ht.
  destruct (decide (backlog a = 0%nat)) as [Hz|Hz]; [exists [], s, m, a; split_and!; try done; constructor|].
  destruct (always_advances c pad stack clock s m a Hlab Ht Hz) as (ls1 & s1 & m1 & a1 & Hd1 & _ & Hr1 & Hst1 & Ht1 & Hless).
  assert (exists ls s' m' a', Forall draining (ls ≫= seen) /\ run (exec cbs) ls s1 = Some s' /\
    channel_run (ls ≫= seen) a1 a' /\ tracks s' m' a' /\ backlog a' = 0%nat)
    as (ls2 & s2 & m2 & a2 & Hd2 & Hr2 & Hst2 & Ht2 & Hz2).
  { destruct Hless as [Hlt|[Heq Hlt]]; [by eapply (IHn _ Hlt)|by eapply (IHe _ Hlt)]. }
  exists (ls1 ++ ls2), s2, m2, a2. rewrite bind_app. split_and!; [by apply Forall_app| |by eapply steps_app|done|done].
  by rewrite run_app, Hr1.
Qed.

Lemma run_tracks g m0 stack d h ls s : ready symbols g stack d h -> Forall (label_ok (L:=L)) (ls ≫= seen) ->
  run (exec cbs) ls (start g m0 stack d h c0) = Some s -> rm_stopped M (queue s) = false ->
  exists m a, channel_run (ls ≫= seen) (idle (fun hdr => accepts hdr h) (settled h)) a /\ tracks s m a.
Proof using All.
  intros Hok Hls Hrun Hs. destruct (run_ring Capacity cbs symbols g m0 stack d h c0 ls s Hok Hls Hrun) as (m & a & Hst & Him & Hr).
  exists m, a. split; [done|]. split; [done|done| |by eapply run_ended|done].
  refine (rtc_invariant _ (fun s => rm_live (queue s)) _ _ _ (run_rtc _ _ _ _ Hrun) _).
  - intros x y Hx [l Hl]. by eapply queue_live.
  - apply rm_live_start.
Qed.
End Progress.

(** * Demonstration: the sleeping queue, while the consumer announces its sleep *)

Section Fresh.
Import WaitableRing.
Local Abbreviation Fresh := (WaitableRing.fresh_machine MarketDataMsg 2).

Definition demo_fresh_orders : list (RingSystem.label Fresh) :=
  let inside := Queue (M:=Fresh) in
  [Other (Make 10 11); CallPush; inside PopCall; inside (Prod (PLoadR 0)); inside PopTest; inside (Prod PConstruct);
   inside (Cons CCall); inside (Cons (CLoadW 0)); inside PopSleep; inside (Prod PPublish); inside (Cons CCall)].

Definition demo_fresh_start : RingSystem.state Udp Fresh Tape (list (MarketDataMsg * Z)) :=
  RingSystem.start (L:=Udp) demo_generator (QuoteMsg Quote.zero) demo_topic_stack demo_udp demo_receiver [].

Definition demo_fresh_end : RingSystem.state Udp Fresh Tape (list (MarketDataMsg * Z)) :=
  default demo_fresh_start (run (RingSystem.exec recording) demo_fresh_orders demo_fresh_start).
End Fresh.

Lemma demo_fresh_path : run (exec recording) demo_fresh_orders demo_fresh_start = Some demo_fresh_end.
Proof. apply run_default. vm_compute. reflexivity. Qed.

(** * Properties *)

(** C13: nothing gets stuck, down to the accesses of the ring. Take the spinning
    wrapper, or the sleeping one with loads that read the newest values, and an
    orderly run to any point before stop is requested. From there the threads can,
    without a further message, bring every message the generator has made to the
    client: it has then been shown all of them, in order. *)
Theorem ring_system_drains {L : Link} `{LinkLaws L} {G : Type} `{RandomSourceLaws G} {C : Type}
    (Capacity : Z) (M : RingMachine MarketDataMsg) `{!RingMachineLaws Capacity M} `{!RingMachineLive M}
    `{Hring : !CustomSpscQueue.RingCapacity Capacity} (cbs : IFeedHandler.callbacks C)
    (symbols : list (list byte)) (g : RandomWalkGenerator.t G) (m0 : MarketDataMsg) (stack : list byte)
    (d : disseminator L) (h : handler L) (c0 : C) (ls : list (RingSystem.label M)) (s : state L M G C)
    (clock clock' : Z) (pad send_stack : list byte) :
  ready symbols g stack d h -> covers symbols h ->
  Forall (label_ok (L:=L)) (ls ≫= seen) -> Forall orderly (ls ≫= seen) ->
  run (exec cbs) ls (start g m0 stack d h c0) = Some s ->
  rm_stopped M (queue s) = false -> length pad = 4%nat -> length send_stack = stack_size ->
  exists ls' s' (received : list (shipment * Z)),
    Forall draining (ls' ≫= seen) /\ run (exec cbs) ls' s = Some s' /\ generated s' = generated s /\
    ship_msg <$> received.*1 = generated s /\ client s' = foldl (show cbs) c0 received.
Proof.
  intros Hok Hcov Hls Hord Hrun Hs Hpad Hsend.
  destruct (run_tracks Capacity cbs c0 symbols g m0 stack d h ls s Hok Hls Hrun Hs) as (m & a & Hst0 & Ht).
  destruct (drain_ring Capacity cbs c0 symbols clock pad send_stack clock' s m a (conj Hpad Hsend) Ht)
    as (ls' & s' & m' & a' & Hd & Hr' & Hst & Ht' & Hz).
  destruct (drained symbols (Z.to_nat Capacity) h (ls ≫= seen) (ls' ≫= seen) a a' Hcov Hord Hst0 Hd Hst Hz) as [Hmade Hall].
  pose proof (im_made _ _ _ _ _ (tk_implements _ _ _ _ _ _ _ Ht)) as Hm.
  pose proof (im_made _ _ _ _ _ (tk_implements _ _ _ _ _ _ _ Ht')) as Hm'. simpl in Hm, Hm'.
  exists ls', s', (shown a'). rewrite Hm, Hm'. split_and!; [done..|congruence|].
  exact (im_shown _ _ _ _ _ (tk_implements _ _ _ _ _ _ _ Ht')).
Qed.

Lemma ring_system_drains_witness :
  exists ls' s' (received : list (shipment * Z)),
    Forall draining (ls' ≫= seen) /\ run (exec recording) ls' demo_fresh_end = Some s' /\
    generated s' = generated demo_fresh_end /\
    ship_msg <$> received.*1 = generated demo_fresh_end /\ client s' = foldl (show recording) [] received.
Proof.
  apply (ring_system_drains (L:=Udp) 2 (WaitableRing.fresh_machine MarketDataMsg 2) recording [sym_V; sym_VZ]
           demo_generator (QuoteMsg Quote.zero) demo_topic_stack demo_udp demo_receiver [] demo_fresh_orders
           demo_fresh_end 70 80 demo_pad demo_send_stack).
  - exact demo_ready.
  - exact demo_receiver_covers.
  - simpl. repeat (apply Forall_cons; split; [exact I || (split; reflexivity)|]). by apply Forall_nil.
  - simpl. repeat (apply Forall_cons; split; [exact I || (split; reflexivity)|]). by apply Forall_nil.
  - exact demo_fresh_path.
  - vm_compute. reflexivity.
  - reflexivity.
  - reflexivity.
Defined.
