(* ===== verification/WorkerLoop.v ===== *)
(** The disseminator's thread of [RingSystem.v] runs [run_loop] of [Disseminator.v]:
    what it does step by step beside the other threads is what the loop does in
    turns, for the answers its calls of [pop] were given. *)

From S2P Require Import Prelude Types QueueConcepts CustomSpscQueue SpscConcurrency RingMachine WaitableRing SpinRing BlockingQueue Threads BaseGenerator RandomWalkGenerator Calls Disseminator UdpFeedHandler ZmqFeedHandler Wire Links Channel System RingSystem.
From stdpp Require Import options.
Import RingSystem.

(** A queue seen from the consumer: a turn says what its [pop] answers, an item or
    false. *)
#[export] Instance answering : BlockingQueue unit (option MarketDataMsg) MarketDataMsg := {|
  bq_pop answer item w := Some (match answer with Some x => PopReturned true x w | None => PopReturned false item w end);
|}.

Section Worker.
Context {L : Link} {M : RingMachine MarketDataMsg} {G : Type} `{RandomSource G} {C : Type} (Capacity : Z).
Context `{Hring : !CustomSpscQueue.RingCapacity Capacity} `{Hlaws : !RingMachineLaws Capacity M}.
Context (cbs : IFeedHandler.callbacks C).
Implicit Types (s : RingSystem.state L M G C).
Local Abbreviation place s := (rm_phase M (queue s)).
Local Abbreviation taken s := (SpscConcurrency.popped (rm_ring M (queue s))).

(** [send_impl] on the stack frames it meets. *)
Definition send_impl (topic payload : list byte) (tr : list (list byte) * disseminator L) :
    option (list (list byte) * disseminator L) :=
  match tr.1 with [] => None | stack :: rest => d ← link_send L stack topic payload tr.2; Some (rest, d) end.

Local Abbreviation the_loop := (IDisseminator.run_loop (S:=option MarketDataMsg) send_impl).

(** What the thread has taken and not sent. *)
Definition hand s : list MarketDataMsg := if popped s || holding_item (place s) then [msg s] else [].

Definition loop_world (m : MarketDataMsg) (stacks : list (list byte)) s :
    IDisseminator.world unit (list (list byte) * disseminator L) :=
  IDisseminator.World tt m (topic_buf s) (stacks, publisher s).

(** The loop has come as far as the thread. *)
Definition worker_stands s (o : IDisseminator.outcome unit (list (list byte) * disseminator L)) : Prop := exists m,
  o = (if exited s then IDisseminator.Exited else IDisseminator.Running) (loop_world m [] s).

(** What a step is to the thread. *)
Inductive worker_step s s1 : Prop :=
  | ws_inside new : topic_buf s1 = topic_buf s -> publisher s1 = publisher s -> exited s1 = exited s ->
      taken s1 = taken s ++ new -> hand s1 = hand s ++ new -> worker_step s s1
  | ws_sends c pad stack d m' topic payload : exited s1 = exited s -> taken s1 = taken s ->
      hand s = [msg s] -> hand s1 = [] ->
      IDisseminator.visit c pad (msg s) (topic_buf s) = (m', topic, payload) ->
      link_send L stack topic payload (publisher s) = Some d -> topic_buf s1 = topic -> publisher s1 = d ->
      worker_step s s1
  | ws_ends : topic_buf s1 = topic_buf s -> publisher s1 = publisher s -> exited s = false -> exited s1 = true ->
      taken s1 = taken s -> hand s = [] -> hand s1 = [] -> worker_step s s1.

Lemma worker_access l a s m q : related Capacity s m -> rm_exec M l (queue s) = Some q -> rm_action M l = Access a ->
  worker_step s (set_queue (match a with PPublish => None | _ => pending s end) q
                   (moved_to a (rm_ring M q) (msg s)) (popped s) (exited s) s).
Proof using Hlaws.
  intros [Hre Hpr Hco Hbu Hid Hm] He Hact. apply rm_step in He as Hst. rewrite Hact in Hst. destruct Hst as [Ha Hpop].
  pose proof (exec_histories _ _ _ _ Ha) as Hh. unfold moved_to.
  assert (Hpush : match a with PCall _ | PLoadR _ | PConstruct | PPublish => True | _ => False end ->
    taken (set_queue (pending s) q (msg s) (popped s) (exited s) s) = taken s /\ rm_phase M q = place s).
  { destruct a; try done; simpl; intros _; (split; [|exact Hpop]); try apply Hh. by destruct Hh as (x & w & _ & _ & ->). }
  assert (Hpops : match a with PCall _ | PLoadR _ | PConstruct | PPublish => False | _ => True end ->
    place s = Accessing /\ rm_phase M q = after_access a (rm_ring M q) /\ popped s = false).
  { intros Ht. assert (Hx : place s = Accessing /\ rm_phase M q = after_access a (rm_ring M q)) by (by destruct a).
    destruct Hx as [Hx Hy]. split_and!; [done..|]. destruct (popped s); [|done]. rewrite Hid in Hx; done. }
  assert (Hc : a = CPublish \/ a <> CPublish) by (destruct a; auto). destruct Hc as [->|Hc].
  - destruct (Hpops I) as (Hacc & Hq & Hnp), Hh as (x & r & Hc & _ & Hh).
    apply (ws_inside _ _ [x]); unfold hand; simpl; try done. rewrite Hnp, Hacc, Hq. simpl.
    by rewrite (Hco x) by (by rewrite Hc).
  - apply (ws_inside _ _ []); simpl; try done; rewrite app_nil_r.
    + destruct a; try done; try (by apply Hpush); apply Hh.
    + unfold hand. simpl. destruct a; try done; try (by destruct (Hpush I) as [_ ->]);
        destruct (Hpops I) as (Hacc & Hq & Hnp); rewrite Hnp, Hacc, Hq; simpl; by destruct (cons (rm_ring M q)).
Qed.

Lemma exec_worker l s s1 m : related Capacity s m -> ended s -> exec cbs l s = Some s1 -> worker_step s s1.
Proof using Hlaws.
  intros Hr Hend He. pose proof Hr as [Hre Hpr Hco Hbu Hid Hm]. destruct l as [|l|l]; cbn [exec] in He.
  - apply bind_Some in He as (x & Hx & (q & Hq & [= <-])%bind_Some).
    pose proof (worker_access _ _ s m q Hr Hq (rm_push_action x)) as Hw. exact Hw.
  - apply bind_Some in He as (q & Hq & He). unfold queue_step in He. apply rm_step in Hq as Hst.
    destruct (rm_action M l) as [a| | | |] eqn:Hact.
    + pose proof (worker_access l a s m q Hr Hq Hact) as Hw. destruct a; try done; injection He as <-; exact Hw.
    + destruct Hst as (Hq' & Hp & Hp'). destruct (popped s || exited s); [done|]. injection He as <-.
      apply (ws_inside _ _ []); unfold hand; simpl; rewrite ?Hq', ?app_nil_r, ?Hp, ?Hp'; done.
    + destruct Hst as (Hq' & (b & Hp) & Hp'). rewrite Hp in He. injection He as <-.
      assert (Hnp : popped s = false) by (destruct (popped s); [rewrite Hid in Hp by done; discriminate|done]).
      assert (Hne : exited s = false).
      { destruct Hend as [_ Hx]. destruct (exited s); [|done]. destruct Hx as (_ & Ho & _); [done|congruence]. }
      destruct b; [apply (ws_inside _ _ [])|apply ws_ends]; unfold hand; simpl;
        rewrite ?Hq', ?app_nil_r, ?Hp, ?Hp', ?Hnp, ?Hne; done.
    + destruct Hst as (Hq' & Hp & _). injection He as <-.
      apply (ws_inside _ _ []); unfold hand; simpl; rewrite ?Hq', ?app_nil_r, ?Hp; done.
    + destruct Hst as (Hq' & Hp). injection He as <-.
      assert (Hh : holding_item (rm_phase M q) = holding_item (place s))
        by (destruct Hp as [->|[-> [->|[-> _]]]]; done).
      apply (ws_inside _ _ []); unfold hand; simpl; rewrite ?Hq', ?app_nil_r, ?Hh; done.
  - destruct l as [c1 c2| | |c pad stack| | | | |]; try done; destruct (busy _ s); try done;
      apply bind_Some in He as (t & Ht & [= <-]); simpl in Ht;
      try (step_cases; by apply (ws_inside _ _ []); unfold hand; simpl; rewrite ?app_nil_r).
    destruct (popped s) eqn:Ep; [|done].
    destruct (IDisseminator.visit c pad (msg s) (topic_buf s)) as [[m' topic] payload] eqn:Ev.
    destruct (link_send L stack topic payload (publisher s)) as [d|] eqn:El; [|done]. injection Ht as <-.
    eapply ws_sends; try done; unfold hand; simpl; rewrite ?Ep, ?Hid by done; done.
Qed.

Lemma ended_hand s : ended s -> exited s = true -> hand s = [].
Proof. intros [_ Hend] Hx. destruct (Hend Hx) as (Hp & Ho & _). unfold hand. by rewrite Hp, Ho. Qed.

(** From where the thread is in [s], the loop can come to where it is in [s'], with
    the items that leave the ring meanwhile. *)
Definition serves s s' : Prop :=
  if exited s
  then exited s' = true /\ topic_buf s' = topic_buf s /\ publisher s' = publisher s /\ taken s' = taken s /\ hand s' = []
  else forall m, exists stacks turns o, the_loop turns (loop_world m stacks s) = Some o /\ worker_stands s' o /\
    exists new, taken s' = taken s ++ new /\ hand s ++ new = omap IDisseminator.during_pop turns ++ hand s'.

Lemma serves_refl s : ended s -> serves s s.
Proof.
  intros Hend. unfold serves. destruct (exited s) eqn:Hx; [split_and!; (done || by apply ended_hand)|].
  intros m. exists [], []. eexists. split; [reflexivity|]. split; [exists m; by rewrite Hx|].
  exists []. by rewrite !app_nil_r.
Qed.

Lemma serves_step s s1 s' : ended s -> ended s1 -> worker_step s s1 -> serves s1 s' -> serves s s'.
Proof.
  intros Hend Hend1 Hw Hs. unfold serves, loop_world in *. pose proof (ended_hand s Hend) as Hh.
  pose proof (ended_hand s1 Hend1) as Hh1.
  destruct Hw as [new Ht Hp Hx Hta Hha|c pad stack d m' topic payload Hx Hta Hha Hha1 Hv Hl Ht Hp|Ht Hp Hx Hx1 Hta Hha Hha1].
  - rewrite Hx, Ht, Hp, Hta in Hs. destruct (exited s).
    + rewrite Hha, Hh in Hh1 by done. rewrite Hx in Hh1. specialize (Hh1 eq_refl). simpl in Hh1. subst new.
      by rewrite app_nil_r in Hs.
    + intros m. destruct (Hs m) as (stacks & turns & o & Ho & Hst & new' & Hta' & Hha'). exists stacks, turns, o.
      split; [done|]. split; [done|]. exists (new ++ new'). rewrite <- Hha', Hha, Hta', !app_assoc. done.
  - rewrite Hx, Ht, Hp, Hta, Hha1 in Hs. destruct (exited s); [by rewrite Hh in Hha|]. intros m.
    destruct (Hs m') as (stacks & turns & o & Ho & Hst & new & Hta' & Hha'). simpl in Hha'.
    assert (Hsend : send_impl topic payload (stack :: stacks, publisher s) = Some (stacks, d))
      by (unfold send_impl; simpl; by rewrite Hl).
    exists (stack :: stacks), (IDisseminator.Turn (Some (msg s)) c pad :: turns), o. split; [|split; [done|]].
    + cbn [IDisseminator.run_loop bq_pop answering IDisseminator.during_pop IDisseminator.clock IDisseminator.pad
           IDisseminator.topic_buf IDisseminator.transport IDisseminator.queue_ mbind option_bind].
      rewrite Hv, Hsend. exact Ho.
    + exists new. rewrite Hha, Hta', Hha'. done.
  - rewrite Hx1, Ht, Hp, Hta in Hs. rewrite Hx. destruct Hs as (Hx' & Ht' & Hp' & Hta' & Hha').
    intros m. exists [], [IDisseminator.Turn None 0 []]. eexists. split; [reflexivity|]. split.
    + exists m. rewrite Hx'. unfold loop_world. by rewrite Ht', Hp'.
    + exists []. by rewrite Hta', Hha, Hha', !app_nil_r.
Qed.

Lemma serves_run ls s s' m : related Capacity s m -> ended s -> run (exec cbs) ls s = Some s' -> serves s s'.
Proof using All.
  revert s m; induction ls as [|l ls IH]; intros s m Hr Hend; cbn [run]; [intros [= <-]; by apply serves_refl|].
  intros (s1 & He & Hrun)%bind_Some. destruct (step_seen Capacity cbs l s s1 m Hr He) as (m1 & Hr1 & _).
  assert (Hend1 : ended s1) by (by eapply ended_step).
  apply (serves_step s s1 s' Hend Hend1); [by eapply exec_worker|by eapply IH].
Qed.
End Worker.

(** * Properties *)

(** C17: the disseminator's thread runs [run_loop]. In every run of the program with
    either of its queues, access by access, the topic buffer and the transport of the
    disseminator, and whether its thread has ended, are those of the loop over the
    turns it has taken; and the items its calls of [pop] returned, with the one it has
    taken and not sent, are those that left the ring, in order. *)
Theorem worker_runs_run_loop {L : Link} {G : Type} `{RandomSource G} {C : Type} (Capacity : Z)
    (M : RingMachine MarketDataMsg) `{!RingMachineLaws Capacity M} `{Hring : !CustomSpscQueue.RingCapacity Capacity}
    (cbs : IFeedHandler.callbacks C) (g : RandomWalkGenerator.t G) (m0 : MarketDataMsg) (stack : list byte)
    (d : disseminator L) (h : handler L) (c0 : C) (ls : list (RingSystem.label M)) (s : state L M G C) :
  run (exec cbs) ls (start g m0 stack d h c0) = Some s ->
  exists stacks turns o,
    IDisseminator.run_loop send_impl turns (IDisseminator.World tt m0 (IDisseminator.topic_init stack) (stacks, d)) =
      Some o /\
    worker_stands s o /\
    omap IDisseminator.during_pop turns ++ hand s = SpscConcurrency.popped (rm_ring M (queue s)).
Proof.
  intros Hrun. pose proof (rm_start_ring (M:=M)) as Hring0. pose proof (rm_start_phase (M:=M)) as Hp0.
  pose proof (run_ended Capacity cbs g m0 stack d h c0 [] _ eq_refl) as Hend.
  pose proof (serves_run Capacity cbs ls _ s m0 (related_start Capacity g m0 stack d h c0) Hend Hrun) as Hs.
  destruct (Hs m0) as (stacks & turns & o & Ho & Hst & new & Hta & Hha). exists stacks, turns, o.
  split; [exact Ho|]. split; [exact Hst|]. rewrite <- Hha, Hta. unfold hand. simpl. by rewrite Hring0, Hp0.
Qed.

Lemma worker_runs_run_loop_witness :
  exists stacks turns o,
    IDisseminator.run_loop (send_impl (L:=Udp)) turns
      (IDisseminator.World tt (QuoteMsg Quote.zero) (IDisseminator.topic_init demo_topic_stack) (stacks, demo_udp)) =
      Some o /\
    worker_stands demo_waiting_end o /\
    omap IDisseminator.during_pop turns ++ hand demo_waiting_end =
      SpscConcurrency.popped (rm_ring (WaitableRing.machine MarketDataMsg 2) (queue demo_waiting_end)).
Proof.
  apply (worker_runs_run_loop (L:=Udp) 2 (WaitableRing.machine MarketDataMsg 2) recording demo_generator
           (QuoteMsg Quote.zero) demo_topic_stack demo_udp demo_receiver [] demo_waiting_orders demo_waiting_end).
  exact demo_waiting_path.
Defined.
