(* ===== verification/Reports.v ===== *)
(** The latency monitor as the client of the system: what the CSV files of a run
    say. *)

From Stdlib Require Import String.
From S2P Require Import Prelude Types QueueConcepts CustomSpscQueue Threads BaseGenerator RandomWalkGenerator Calls Disseminator UdpFeedHandler ZmqFeedHandler LatencyMonitor Wire Links Channel System.
From stdpp Require Import options.
Import System.System.

(** * What a run shows its client *)

(** The history of a run, as the labels and the states it passes through give it:
    each message is sent as it is then in [run_loop]'s hand, at the time its stamp is
    read; an arrival that passes the handler's filter is shown at the time the handler
    reads. [fl] are the messages in flight. *)
Section Deliveries.
Context {L : Link} `{LinkLaws L} {G : Type} `{RandomSource G} {Q : Type} `{SpscQueueStorage Q MarketDataMsg} {C : Type}.
Context (cbs : IFeedHandler.callbacks C).
Implicit Types (s : state L G Q C) (fl : list shipment).

Definition fly l s fl : list shipment :=
  match l with
  | Publish clock pad _ => fl ++ [Ship (msg s) clock pad]
  | Receive i duplicate _ => if duplicate then fl else delete i fl
  | Lose i => delete i fl
  | _ => fl
  end.

Definition delivered l s fl : list (shipment * Z) :=
  match l with
  | Receive i _ clock =>
      x ← option_list (fl !! i);
      if accepts (header (ship_msg x)) (subscriber s) then [(x, u64 clock)] else []
  | _ => []
  end.

Fixpoint deliveries (ls : list label) s fl : list (shipment * Z) :=
  match ls with
  | [] => []
  | l :: ls' =>
      delivered l s fl ++ match exec cbs l s with Some s' => deliveries ls' s' (fly l s fl) | None => [] end
  end.
End Deliveries.

(** The channel has the same history. *)
Section History.
Context {L : Link} `{LinkLaws L} {G : Type} `{RandomSourceLaws G} {Q : Type} `{SpscQueueLaws Q MarketDataMsg}.
Context {C : Type} (cbs : IFeedHandler.callbacks C) (c0 : C) (symbols : list (list byte)).
Implicit Types (s : state L G Q C) (a : channel).

Lemma history_step cap l s a a' : implements cbs c0 symbols s a -> channel_step symbols cap l a a' ->
  flying a' = fly l s (flying a) /\ shown a' = shown a ++ delivered l s (flying a).
Proof using Type.
  intros Him Hst. inversion Hst; subst; simpl; rewrite ?app_nil_r; try done.
  - by destruct (offer_keeps cap m a) as (_ & -> & -> & _).
  - pose proof (im_held _ _ _ _ _ Him) as Hh. match goal with E : held a = _ |- _ => rewrite E in Hh end.
    unfold in_hand in Hh. destruct (popped s); [|done]. by injection Hh as ->.
  - match goal with E : flying a !! _ = _ |- _ => rewrite E end. simpl. rewrite (im_interested _ _ _ _ _ Him).
    by destruct (interested a (header (ship_msg x))); simpl; rewrite ?app_nil_r.
Qed.

Lemma run_history ls s s' a : Forall label_ok ls -> implements cbs c0 symbols s a -> run (exec cbs) ls s = Some s' ->
  exists a', steps (channel_step symbols q_capacity) ls a a' /\ implements cbs c0 symbols s' a' /\
    shown a' = shown a ++ deliveries cbs ls s (flying a).
Proof using All.
  revert s a; induction ls as [|l ls IH]; intros s a Hls Him; simpl.
  { intros [= ->]. exists a. rewrite app_nil_r. split_and!; [constructor|done..]. }
  intros (s1 & He & Hr)%bind_Some. apply Forall_cons in Hls as [Hl Hls].
  destruct (exec_implements cbs c0 symbols l s s1 a Hl Him He) as (a1 & Hst & Him1).
  destruct (history_step _ l s a a1 Him Hst) as [Hf Hs].
  destruct (IH s1 a1 Hls Him1 Hr) as (a' & Hsts & Him' & Hs'). exists a'.
  split_and!; [by econstructor|done|]. by rewrite Hs', Hs, Hf, He, <- app_assoc.
Qed.
End History.

(** The callbacks [run_benchmark_pipeline] sets. *)
Definition monitor_callbacks : IFeedHandler.callbacks LatencyMonitor.t :=
  IFeedHandler.set_trade_callback LatencyMonitor.on_trade
    (IFeedHandler.set_quote_callback LatencyMonitor.on_quote IFeedHandler.no_callbacks).

(** The latencies of a message that was shown: differences of clock readings. *)
Definition true_latency (p : shipment * Z) : LatencyRecord :=
  Latency (ship_clock p.1 - enqueue_time (ship_msg p.1)) (p.2 - ship_clock p.1) (p.2 - enqueue_time (ship_msg p.1)).

Definition is_quote (m : MarketDataMsg) : bool := match m with QuoteMsg _ => true | TradeMsg _ => false end.

(** The readings of a message that was shown are in order, and fit 64 bits. *)
Definition ordered_times (p : shipment * Z) : Prop :=
  0 <= enqueue_time (ship_msg p.1) <= ship_clock p.1 /\ ship_clock p.1 <= p.2 < 2 ^ 64.

(** * Proofs *)

Lemma show_observes shown m :
  foldl (show monitor_callbacks) m shown =
  foldl observe m ((fun p => (shipped p.1, u64 p.2)) <$> shown).
Proof.
  revert m; induction shown as [|p shown IH]; intros m; [done|]. rewrite fmap_cons. cbn [foldl]. rewrite IH. by f_equal.
Qed.

Lemma latency_true p : ordered_times p ->
  LatencyMonitor.latency (enqueue_time (ship_msg p.1)) (u64 (ship_clock p.1)) (u64 p.2) = true_latency p.
Proof. intros [? ?]. unfold LatencyMonitor.latency, true_latency. rewrite !u64_small by (rewrite ?u64_small; lia). done. Qed.

(** A row is a true latency, when the readings are in order. *)
Lemma rows_true shown : Forall ordered_times shown ->
  omap quote_row ((fun p => (shipped p.1, u64 p.2)) <$> shown) =
    true_latency <$> filter (fun p => is_quote (ship_msg p.1)) shown /\
  omap trade_row ((fun p => (shipped p.1, u64 p.2)) <$> shown) =
    true_latency <$> filter (fun p => negb (is_quote (ship_msg p.1))) shown.
Proof.
  induction 1 as [|p shown Hp _ [IHq IHt]]; [done|]. pose proof (latency_true p Hp) as Hl.
  rewrite fmap_cons, !filter_cons, !omap_cons, IHq, IHt. unfold quote_row, trade_row. cbn [fst snd].
  assert (Hs : shipped p.1 = stamp_disseminate (ship_clock p.1) (ship_msg p.1)) by done. rewrite Hs.
  destruct (ship_msg p.1) eqn:E; simpl in *; rewrite <- Hl; by split.
Qed.

(** The monitor's files after a run of the channel. *)
Lemma timely_run symbols cap now ls a a' : 0 <= now < 2 ^ 64 -> monotone now ls -> timely now a ->
  steps (channel_step symbols cap) ls a a' -> exists now', now' < 2 ^ 64 /\ timely now' a'.
Proof.
  intros Hnow Hmono Ht Hst. revert now Hnow Hmono Ht.
  induction Hst as [a|l ls a a1 a' Hs _ IH]; intros now Hnow Hmono Ht; [exists now; split; [lia|done]|].
  pose proof (timely_step symbols cap now l a a1 ltac:(lia) Ht Hs) as Ht1. simpl in Hmono.
  destruct (reading l) as [c|].
  - destruct Hmono as [Hc Hmono]. apply (IH c); [lia|done|by apply Ht1].
  - by apply (IH now).
Qed.

Lemma idle_timely now interest q : timely now (idle interest q).
Proof. split; by apply Forall_nil. Qed.

(** * Properties *)

(** C8: the files tell the truth. Whatever the network and the schedule do, when the
    clock never goes back during a run the files its monitor writes parse into one
    row per quote and per trade among the deliveries of the run, in that order: the
    true differences of the readings its own steps took when the message was stamped,
    when it was sent and when it was received, none wrapped around, whose parts add
    up. The messages are those the generator made, stamped with the readings of the
    steps that made them. When the network was faithful and nothing is left on the
    way, each generated message has exactly one row. *)
Theorem latency_report_exact {L : Link} `{LinkLaws L} {G : Type} `{RandomSourceLaws G} {Q : Type}
    `{SpscQueueLaws Q MarketDataMsg} (symbols : list (list byte))
    (g : RandomWalkGenerator.t G) (q : Q) (m0 : MarketDataMsg) (stack : list byte) (d : disseminator L)
    (h : handler L) (out_dir : list byte) (ls : list label) (t0 : Z) (s : state L G Q LatencyMonitor.t) :
  start_ok symbols g q stack d h -> Forall label_ok ls -> 0 <= t0 < 2 ^ 64 -> monotone t0 ls ->
  run (exec monitor_callbacks) ls (start g q m0 stack d h (LatencyMonitor.init out_dir)) = Some s ->
  exists shown,
    shown = deliveries monitor_callbacks ls (start g q m0 stack d h (LatencyMonitor.init out_dir)) [] /\
    enqueue_time <$> generated s = make_clocks ls /\
    (fun f => parse_csv f.2) <$> LatencyMonitor.destroy (client s) =
      [Some (true_latency <$> filter (fun p => is_quote (ship_msg p.1)) shown);
       Some (true_latency <$> filter (fun p => negb (is_quote (ship_msg p.1))) shown)] /\
    Forall (fun p => ship_msg p.1 ∈ generated s /\ ordered_times p /\
              total_ns (true_latency p) = queue_ns (true_latency p) + network_ns (true_latency p)) shown /\
    (covers symbols h -> Forall orderly ls ->
     pending s = None -> in_hand s = None -> wire s = [] -> q_empty (queue s) = true ->
     ship_msg <$> shown.*1 = generated s).
Proof.
  intros Hok Hls Ht0 Hmono Hrun.
  destruct (run_history monitor_callbacks _ symbols _ _ _ _ Hls (start_implements _ _ _ _ _ m0 _ _ _ Hok) Hrun)
    as (a & Hst & Him & Hshown).
  destruct (timely_run _ _ _ _ _ _ Ht0 Hmono (idle_timely _ _ _) Hst) as (now & Hnow & [_ _ Htm]).
  assert (Hord : Forall ordered_times (shown a)).
  { eapply Forall_impl; [exact Htm|]. intros p Hp. unfold ordered_times. simpl in Hp. lia. }
  assert (Hgen : Forall (fun p => ship_msg p.1 ∈ made a) (shown a)).
  { apply (steps_invariant _ (fun _ => True) genuine) in Hst; [|by eauto using genuine_step|by apply Forall_true|by exists []].
    destruct Hst as (ships & -> & _ & Hs). eapply Forall_impl; [exact Hs|]. intros p Hp.
    apply elem_of_app. left. by apply list_elem_of_fmap_2. }
  destruct (rows_true (shown a) Hord) as [Hq Ht]. exists (shown a). split_and!.
  - exact Hshown.
  - rewrite (im_made _ _ _ _ _ Him), (made_clocks _ _ _ _ _ Hst). by apply (monotone_clocks t0); [lia|].
  - unfold LatencyMonitor.destroy. rewrite (im_shown _ _ _ _ _ Him), show_observes, saved_rows, Hq, Ht. done.
  - rewrite (im_made _ _ _ _ _ Him). apply Forall_and. split; [done|]. eapply Forall_impl; [exact Hord|].
    intros p Hp. split; [done|]. unfold true_latency. simpl. lia.
  - intros Hcov Hor Hp Hh Hw He. 
    destruct (steps_orderly symbols q_capacity _ _ _ Hcov Hor Hst) as [_ [Hm _ _]].
    rewrite (im_made _ _ _ _ _ Him), Hm, <- (im_making _ _ _ _ _ Him), <- (im_held _ _ _ _ _ Him), Hp, Hh.
    rewrite (im_flying _ _ _ _ _ Him) in Hw. apply fmap_nil_inv in Hw as ->.
    rewrite (q_empty_refines _ _ (im_queue _ _ _ _ _ Him)) in He. destruct (queued a); [|done].
    simpl. by rewrite app_nil_r.
Qed.

Definition demo_monitored : state Udp Tape (CustomSpscQueue.t MarketDataMsg 128) LatencyMonitor.t :=
  start (L:=Udp) demo_generator demo_ring (QuoteMsg Quote.zero) demo_topic_stack demo_udp demo_receiver
    (LatencyMonitor.init (chars "results")).

(** A trade and a quote, both delivered. *)
Definition demo_delivered : list label :=
  [Make 10 11; Push; Pop; Poll; Make 20 21; Publish 30 demo_pad demo_send_stack; Push; Receive 0 false 35; Pop;
   Poll; Publish 40 demo_pad demo_send_stack; Receive 0 false 50].

Definition demo_reported : state Udp Tape (CustomSpscQueue.t MarketDataMsg 128) LatencyMonitor.t :=
  default demo_monitored (run (exec monitor_callbacks) demo_delivered demo_monitored).

Lemma demo_reported_run : run (exec monitor_callbacks) demo_delivered demo_monitored = Some demo_reported.
Proof.
  assert (match run (exec monitor_callbacks) demo_delivered demo_monitored with Some _ => true | None => false end = true)
    as Hr by (vm_compute; reflexivity).
  unfold demo_reported. by destruct (run _ _ _).
Qed.

Example demo_files : (fun f => parse_csv f.2) <$> LatencyMonitor.destroy (client demo_reported) =
  [Some [Latency 19 10 29]; Some [Latency 19 5 24]].
Proof. vm_compute. reflexivity. Qed.

Example demo_deliveries : (fun p => (ship_clock p.1, p.2)) <$> deliveries monitor_callbacks demo_delivered demo_monitored [] =
  [(30, 35); (40, 50)].
Proof. vm_compute. reflexivity. Qed.

Lemma latency_report_exact_witness : exists shown,
  shown = deliveries monitor_callbacks demo_delivered demo_monitored [] /\
  enqueue_time <$> generated demo_reported = [11; 21] /\
  (fun f => parse_csv f.2) <$> LatencyMonitor.destroy (client demo_reported) =
    [Some (true_latency <$> filter (fun p => is_quote (ship_msg p.1)) shown);
     Some (true_latency <$> filter (fun p => negb (is_quote (ship_msg p.1))) shown)] /\
  Forall (fun p => ship_msg p.1 ∈ generated demo_reported /\ ordered_times p /\
            total_ns (true_latency p) = queue_ns (true_latency p) + network_ns (true_latency p)) shown /\
  ship_msg <$> shown.*1 = generated demo_reported.
Proof.
  destruct (latency_report_exact (L:=Udp) [sym_V; sym_VZ] demo_generator demo_ring (QuoteMsg Quote.zero)
              demo_topic_stack demo_udp demo_receiver (chars "results") demo_delivered 0 demo_reported)
    as (shown & Hshown & Hclocks & Hrows & Htimes & Hall).
  - exact demo_start_ok.
  - repeat (apply Forall_cons; split; [exact I || (split; reflexivity)|]). by apply Forall_nil.
  - lia.
  - repeat split; vm_compute; congruence.
  - exact demo_reported_run.
  - exists shown. split; [exact Hshown|]. split; [exact Hclocks|]. split; [exact Hrows|]. split; [exact Htimes|]. apply Hall.
    + exact demo_receiver_covers.
    + repeat (apply Forall_cons; split; [exact I || (split; reflexivity)|]). by apply Forall_nil.
    + vm_compute. reflexivity.
    + vm_compute. reflexivity.
    + vm_compute. reflexivity.
    + vm_compute. reflexivity.
Defined.
