(* ===== verification/Benchmark.v ===== *)
(** [run_benchmark_pipeline] of [src/main.cpp] with its four threads: the main thread
    does what [Main.v] logs, one action at a time, and the loops of the generator, the
    disseminator and the feed handler run beside it over [RingSystem.v], each with its
    stop request; the end of the pipeline writes the files. *)

From S2P Require Import Prelude Types QueueConcepts CustomSpscQueue SpscConcurrency RingMachine WaitableRing SpinRing Threads BaseGenerator RandomWalkGenerator Calls Disseminator UdpFeedHandler ZmqFeedHandler LatencyMonitor Main Wire Links Channel System RingSystem Reports.
From stdpp Require Import options.

Module Benchmark.
Section Threads.
Context {L : Link} {M : RingMachine MarketDataMsg} {G : Type} `{RandomSource G}.
Local Abbreviation system := (RingSystem.state L M G LatencyMonitor.t).

(** Where [generation_loop] stands; [GRetry] is the test of the inner loop, [GPush]
    the call of [push] in it. *)
Inductive generator_at := GNotStarted | GBegin | GTest | GLook | GRetry | GPush | GExited.

(** Where [receive_loop_impl] stands. *)
Inductive receiver_at := RNotStarted | RTest | RBody | RExited.

#[global] Instance generator_at_eq_dec : EqDecision generator_at.
Proof. solve_decision. Defined.
#[global] Instance receiver_at_eq_dec : EqDecision receiver_at.
Proof. solve_decision. Defined.

(** [core] is the state the threads share; [gen_stop] and [receiver_stop] are the
    stop tokens of the generator and the receiver, that of the disseminator being in
    the queue; [todo] is what the main thread has still to do, and [files] what the
    monitor has written. *)
Record state := State {
  core : system;
  gen_at : generator_at;
  gen_stop : bool;
  next_time : Z;
  worker_started : bool;
  recv_at : receiver_at;
  receiver_stop : bool;
  todo : list Main.action;
  files : option (list (list byte * list byte));
}.

Inductive label :=
  | MainDoes                                       (* the next action of the main thread *)
  | MainStops (l : rm_label M)                     (* its [request_stop] of the disseminator *)
  | GenBegin (now : Z) | GenTest | GenLook (now gen_clock enqueue_clock : Z) | GenRetry | GenReturn
  | InQueue (l : rm_label M)                       (* a step of [push] or [pop] *)
  | Send (clock : Z) (pad stack : list byte)       (* the disseminator sends what it popped *)
  | RecvTest | RecvPoll | RecvParcel (i : nat) (duplicate : bool) (clock : Z) | RecvNothing (clock : Z)
  | LoseParcel (i : nat).

Definition set_main (r : list Main.action) (s : state) : state :=
  State (core s) (gen_at s) (gen_stop s) (next_time s) (worker_started s) (recv_at s) (receiver_stop s) r (files s).
Definition set_gen (g : generator_at) (t : Z) (s : state) : state :=
  State (core s) g (gen_stop s) t (worker_started s) (recv_at s) (receiver_stop s) (todo s) (files s).
Definition set_recv (r : receiver_at) (s : state) : state :=
  State (core s) (gen_at s) (gen_stop s) (next_time s) (worker_started s) r (receiver_stop s) (todo s) (files s).
Definition set_core (c : system) (s : state) : state :=
  State c (gen_at s) (gen_stop s) (next_time s) (worker_started s) (recv_at s) (receiver_stop s) (todo s) (files s).

Definition interval (s : state) : Z :=
  BaseGenerator.interval_ (RandomWalkGenerator.base (RingSystem.generator (core s))).

(** The main thread. [stop()] of a component is [request_stop()] and then [join()],
    which returns once the loop of the thread has ended. *)
Definition main_does (s : state) : option state :=
  match todo s with
  | [] => None
  | Main.ConfigureGenerator :: rest | Main.Sleep _ :: rest | Main.Subscribe _ _ :: rest => Some (set_main rest s)
  | Main.StartFeedHandler :: rest => Some (set_recv RTest (set_main rest s))
  | Main.StartDisseminator :: rest =>
      Some (State (core s) (gen_at s) (gen_stop s) (next_time s) true (recv_at s) (receiver_stop s) rest (files s))
  | Main.StartGenerator :: rest => Some (set_gen GBegin (next_time s) (set_main rest s))
  | Main.StopGenerator :: rest =>
      if gen_stop s then match gen_at s with GExited => Some (set_main rest s) | _ => None end
      else Some (State (core s) (gen_at s) true (next_time s) (worker_started s) (recv_at s) (receiver_stop s)
                       (todo s) (files s))
  | Main.StopDisseminator :: rest =>
      if rm_stopped M (RingSystem.queue (core s)) && negb (rm_stopping M (RingSystem.queue (core s))) &&
         RingSystem.exited (core s)
      then Some (set_main rest s) else None
  | Main.StopFeedHandler :: rest =>
      if receiver_stop s then match recv_at s with RExited => Some (set_main rest s) | _ => None end
      else Some (State (core s) (gen_at s) (gen_stop s) (next_time s) (worker_started s) (recv_at s) true
                       (todo s) (files s))
  | Main.SaveCsv :: rest =>
      Some (State (core s) (gen_at s) (gen_stop s) (next_time s) (worker_started s) (recv_at s) (receiver_stop s)
                  rest (Some (LatencyMonitor.destroy (RingSystem.client (core s)))))
  end.

(** [generation_loop]. A message that is given up stays [pending] of the system: the
    loop ends at its next test. *)
Definition gen_does (l : label) (s : state) : option state :=
  match l, gen_at s with
  | GenBegin now, GBegin => Some (set_gen GTest now s)
  | GenTest, GTest => Some (set_gen (if gen_stop s then GExited else GLook) (next_time s) s)
  | GenLook now _ _, GLook => Some (set_gen (if next_time s <=? now then GRetry else GTest) (next_time s) s)
  | GenRetry, GRetry =>
      if gen_stop s then Some (set_gen GTest (next_time s + interval s) s) else Some (set_gen GPush (next_time s) s)
  | GenReturn, GPush =>
      if rm_pushing M (RingSystem.queue (core s)) then None
      else match RingSystem.pending (core s) with
           | None => Some (set_gen GTest (next_time s + interval s) s)
           | Some _ => Some (set_gen GRetry (next_time s) s)
           end
  | _, _ => None
  end.

(** [receive_loop_impl]: a turn ends with a receive. *)
Definition recv_does (l : label) (s : state) : option state :=
  match l, recv_at s with
  | RecvTest, RTest => Some (set_recv (if receiver_stop s then RExited else RBody) s)
  | RecvPoll, RBody => Some s
  | RecvParcel _ _ _, RBody | RecvNothing _, RBody => Some (set_recv RTest s)
  | _, _ => None
  end.

(** What a step is in the system. *)
Definition inner (l : label) (s : state) : list (RingSystem.label M) :=
  match l with
  | MainDoes => match todo s with Main.Subscribe sym _ :: _ => [RingSystem.Other (Request true sym)] | _ => [] end
  | GenLook now gen_clock enqueue_clock =>
      if next_time s <=? now then [RingSystem.Other (Make gen_clock enqueue_clock)] else []
  | GenRetry => if gen_stop s then [] else [RingSystem.CallPush]
  | MainStops l | InQueue l => [RingSystem.Queue l]
  | Send clock pad stack => [RingSystem.Other (Publish clock pad stack)]
  | RecvPoll => [RingSystem.Other Poll]
  | RecvParcel i duplicate clock => [RingSystem.Other (Receive i duplicate clock)]
  | RecvNothing clock => [RingSystem.Other (Miss clock)]
  | LoseParcel i => [RingSystem.Other (Lose i)]
  | GenBegin _ | GenTest | GenReturn | RecvTest => []
  end.

(** Which step may be taken, and what it does to the threads. *)
Definition control (l : label) (s : state) : option state :=
  match l with
  | MainDoes => main_does s
  | MainStops l =>
      match todo s, rm_action M l with
      | Main.StopDisseminator :: _, StopCall => if rm_stopped M (RingSystem.queue (core s)) then None else Some s
      | _, _ => None
      end
  | GenBegin _ | GenTest | GenLook _ _ _ | GenRetry | GenReturn => gen_does l s
  | InQueue l =>
      match rm_action M l with
      | StopCall => None
      | Call => if worker_started s then Some s else None
      | _ => Some s
      end
  | RecvTest | RecvPoll | RecvParcel _ _ _ | RecvNothing _ => recv_does l s
  | Send _ _ _ | LoseParcel _ => Some s
  end.

Definition exec (l : label) (s : state) : option state :=
  t ← control l s;
  c ← run (RingSystem.exec monitor_callbacks) (inner l s) (core s);
  Some (set_core c t).

(** The steps of the system in a run. *)
Fixpoint trace (ls : list label) (s : state) : list (RingSystem.label M) :=
  match ls with
  | [] => []
  | l :: ls' => inner l s ++ match exec l s with Some s' => trace ls' s' | None => [] end
  end.

(** The pipeline with its generator configured: [config] and [symbols] give the
    actions of [run_benchmark_pipeline]. *)
Definition start (config : BenchmarkConfig) (symbols : list (list byte)) (g : RandomWalkGenerator.t G)
    (m0 : MarketDataMsg) (stack : list byte) (d : disseminator L) (h : handler L) : state :=
  State (RingSystem.start g m0 stack d h (LatencyMonitor.init (out_dir config))) GNotStarted false 0 false
        RNotStarted false (complete_log config symbols) None.

(** From the callbacks on: an exception of [configure] leaves the function before
    any thread is started. [file] is what the file system holds under
    [symbols_file]. *)
Definition launch (config : BenchmarkConfig) (file : option (list byte)) (rng : G) (m0 : MarketDataMsg)
    (stack : list byte) (d : disseminator L) (h : handler L) : exn + state :=
  match RandomWalkGenerator.configure (message_rate config) file (RandomWalkGenerator.init rng) with
  | (_, Some e) => inl e
  | (g, None) => inr (start config (SymbolsFile.read_symbols_file file) g m0 stack d h)
  end.
End Threads.
#[global] Arguments state L M G : clear implicits.
#[global] Arguments label M : clear implicits.
End Benchmark.
Import Benchmark.

(** * Proofs *)

Section Facts.
Context {L : Link} {M : RingMachine MarketDataMsg} {G : Type} `{RandomSource G}.
Implicit Types (s : Benchmark.state L M G) (l : Benchmark.label M).

Lemma exec_core l s s' : exec l s = Some s' ->
  exists t, control l s = Some t /\ run (RingSystem.exec monitor_callbacks) (inner l s) (core s) = Some (core s') /\
    s' = set_core (core s') t.
Proof.
  unfold exec. intros (t & Ht & (c & Hc & [= <-])%bind_Some)%bind_Some. exists t. by destruct t.
Qed.

(** A run of the pipeline is a run of the system. *)
Lemma run_trace ls s s' : run exec ls s = Some s' ->
  run (RingSystem.exec monitor_callbacks) (trace ls s) (core s) = Some (core s').
Proof.
  revert s; induction ls as [|l ls IH]; intros s; cbn [run trace]; [by intros [= ->]|].
  intros (s1 & He & Hr)%bind_Some. rewrite run_app, He. destruct (exec_core l s s1 He) as (t & _ & -> & _).
  by apply IH.
Qed.

Lemma trace_app ls ls' s s1 : run exec ls s = Some s1 -> trace (ls ++ ls') s = trace ls s ++ trace ls' s1.
Proof.
  revert s; induction ls as [|l ls IH]; intros s; cbn [run trace app]; [by intros [= ->]|].
  intros (s2 & -> & Hr)%bind_Some. by rewrite <- app_assoc, (IH s2).
Qed.

(** Each step of the system that a step contains. *)
Lemma inner_inv (P : RingSystem.state L M G LatencyMonitor.t -> Prop) l s s' : exec l s = Some s' -> P (core s) ->
  (forall c c' k, k ∈ inner l s -> RingSystem.exec monitor_callbacks k c = Some c' -> P c -> P c') -> P (core s').
Proof.
  intros (t & _ & Hr & _)%exec_core Hp Hs. revert Hr Hs. generalize (core s) Hp. induction (inner l s) as [|k ks IH];
    intros c Hc; cbn [run]; [by intros [= <-]|]. intros (c1 & Hk & Hr)%bind_Some Hs.
  apply (IH c1); [by eapply Hs; [left| |]|done|]. intros x x' k' Hk'. apply Hs. by right.
Qed.

Definition of_generator l : bool :=
  match l with GenBegin _ | GenTest | GenLook _ _ _ | GenRetry | GenReturn => true | _ => false end.

(** What a step of the system leaves alone. *)
Definition touches_generated (k : RingSystem.label M) : bool :=
  match k with RingSystem.Other (Make _ _) => true | _ => false end.
Definition touches_client (k : RingSystem.label M) : bool :=
  match k with RingSystem.Other (Receive _ _ _) | RingSystem.Other (Miss _) => true | _ => false end.

Lemma system_keeps k (c c' : RingSystem.state L M G LatencyMonitor.t) :
  RingSystem.exec monitor_callbacks k c = Some c' ->
  (touches_generated k = false ->
     RingSystem.generated c' = RingSystem.generated c /\ RingSystem.generator c' = RingSystem.generator c) /\
  (touches_client k = false -> RingSystem.client c' = RingSystem.client c).
Proof.
  destruct k as [|k|k]; cbn [RingSystem.exec].
  - by intros (x & _ & (q & _ & [= <-])%bind_Some)%bind_Some.
  - intros (q & _ & Hq)%bind_Some. unfold RingSystem.queue_step in Hq. by step_cases.
  - destruct k; try done; destruct (RingSystem.busy _ c); try done; intros (t & Ht & [= <-])%bind_Some; simpl in *;
      try (by step_cases).
Qed.

(** Only [GenLook] makes a message. *)
Lemma generator_keeps l s s' : exec l s = Some s' ->
  match l with GenLook _ _ _ => gen_at s <> GLook | _ => True end ->
  RingSystem.generated (core s') = RingSystem.generated (core s) /\
  RingSystem.generator (core s') = RingSystem.generator (core s).
Proof.
  intros He Hg. pose proof (exec_core l s s' He) as (t & Hc & _).
  apply (inner_inv (fun c => RingSystem.generated c = RingSystem.generated (core s) /\
    RingSystem.generator c = RingSystem.generator (core s)) l s s' He); [done|].
  intros c c' k Hin Hk [<- <-]. apply (system_keeps k c c' Hk).
  destruct l; simpl in *; unfold gen_does in Hc; repeat case_match; try done;
    repeat (apply elem_of_cons in Hin as [->|Hin]); try done; by apply elem_of_nil in Hin.
Qed.

(** Who writes [popped] and [exited] of the disseminator, and the state of the receiver. *)
Lemma untouched k (c c' : RingSystem.state L M G LatencyMonitor.t) : RingSystem.exec monitor_callbacks k c = Some c' ->
  match k with
  | RingSystem.Queue _ | RingSystem.Other (Publish _ _ _) => True
  | _ => RingSystem.popped c' = RingSystem.popped c /\ RingSystem.exited c' = RingSystem.exited c
  end /\
  match k with
  | RingSystem.Other (Receive _ _ _ | Miss _ | Request _ _ | Poll) => True
  | _ => RingSystem.subscriber c' = RingSystem.subscriber c
  end.
Proof.
  destruct k as [|k|k]; cbn [RingSystem.exec].
  - by intros (m & _ & (q & _ & [= <-])%bind_Some)%bind_Some.
  - intros (q & _ & Hq)%bind_Some. split; [done|]. unfold RingSystem.queue_step in Hq. by step_cases.
  - destruct k; try done; destruct (RingSystem.busy _ c); try done; intros (t & Ht & [= <-])%bind_Some; simpl in *;
      by step_cases.
Qed.

Lemma inner_one l s k : k ∈ inner l s -> inner l s = [k].
Proof. destruct l; simpl; repeat case_match; rewrite ?list_elem_of_singleton; (by intros ->) || by intros ?%elem_of_nil. Qed.

Definition of_receiver l : bool :=
  match l with RecvTest | RecvPoll | RecvParcel _ _ _ | RecvNothing _ => true | _ => false end.

Lemma receiver_untouched l s s' : exec l s = Some s' -> l <> MainDoes -> of_receiver l = false ->
  recv_at s' = recv_at s /\ receiver_stop s' = receiver_stop s /\
  RingSystem.subscriber (core s') = RingSystem.subscriber (core s) /\ RingSystem.client (core s') = RingSystem.client (core s).
Proof.
  intros He Hm Hl. assert (Hat : recv_at s' = recv_at s /\ receiver_stop s' = receiver_stop s).
  { apply exec_core in He as (t & Hc & _ & ->). destruct l; try done; cbn [control] in Hc; unfold gen_does in Hc; by step_cases. }
  split_and!; [apply Hat..| |].
  - apply (inner_inv (fun c => RingSystem.subscriber c = RingSystem.subscriber (core s)) l s s' He); [done|].
    intros c c' k Hin Hk <-. destruct (untouched k c c' Hk) as [_ Hs].
    apply inner_one in Hin. destruct l; simpl in *; repeat case_match; by simplify_eq.
  - apply (inner_inv (fun c => RingSystem.client c = RingSystem.client (core s)) l s s' He); [done|].
    intros c c' k Hin Hk <-. destruct (system_keeps k c c' Hk) as [_ Hs].
    apply inner_one in Hin. apply Hs. destruct l; simpl in *; repeat case_match; by simplify_eq.
Qed.

Lemma exited_stays {Capacity} `{!RingMachineLaws Capacity M} k (c c' : RingSystem.state L M G LatencyMonitor.t) :
  RingSystem.exec monitor_callbacks k c = Some c' -> ended c -> RingSystem.exited c = true -> RingSystem.exited c' = true.
Proof.
  intros Hk [_ Hend] Hex. destruct (Hend Hex) as (Hp & Hpl & _). destruct k as [|k|k]; cbn [RingSystem.exec] in Hk.
  - by apply bind_Some in Hk as (x & _ & (q & _ & [= <-])%bind_Some).
  - apply bind_Some in Hk as (q & _ & Hq). unfold RingSystem.queue_step in Hq.
    rewrite Hex, Hpl, orb_true_r in Hq. by step_cases.
  - destruct k; try done; destruct (RingSystem.busy _ c); try done; by apply bind_Some in Hk as (t & _ & [= <-]).
Qed.

(** The bytes outside the message: the padding of the struct and the stack. *)
Definition memory_ok `{LinkLaws L} l : Prop :=
  match l with Send _ pad stack => length pad = 4%nat /\ length stack = stack_size | _ => True end.

Lemma inner_label_ok `{LinkLaws L} l s : memory_ok l -> Forall (label_ok (L:=L)) (inner l s ≫= seen).
Proof.
  destruct l; simpl; intros Hl; repeat case_match; simpl; repeat constructor; try apply Hl;
    unfold seen; repeat case_match; repeat constructor.
Qed.

Lemma trace_label_ok `{LinkLaws L} ls s : Forall memory_ok ls -> Forall (label_ok (L:=L)) (trace ls s ≫= seen).
Proof.
  intros Hls. revert s; induction Hls as [|l ls Hl _ IH]; intros s; simpl; [constructor|].
  rewrite bind_app. apply Forall_app. split; [by apply inner_label_ok|]. destruct (exec l s); [done|constructor].
Qed.
End Facts.

(** ** The start *)

(** What a run starts from: 32 bits for the rate, a file that fits the memory, any
    contents of the stack, a sound transport. *)
Definition launchable {L} `{LinkLaws L} (config : BenchmarkConfig) (file : option (list byte)) (stack : list byte)
    (d : disseminator L) (h : handler L) : Prop :=
  is_u32 (message_rate config) /\ Z.of_nat (length (default [] file)) <= 2 ^ 64 /\
  length stack = 10%nat /\ link_ok d /\ handler_ok h.

Section Launch.
Context {L : Link} {M : RingMachine MarketDataMsg} {G : Type} `{RandomSource G}.
Context (config : BenchmarkConfig) (file : option (list byte)) (rng : G) (m0 : MarketDataMsg) (stack : list byte).
Context (d : disseminator L) (h : handler L).
Local Abbreviation symbols := (SymbolsFile.read_symbols_file file).

Lemma launch_ready `{LinkLaws L} (s : Benchmark.state L M G) : launchable config file stack d h ->
  launch config file rng m0 stack d h = inr s ->
  exists g, RingSystem.ready symbols g stack d h /\ s = start config symbols g m0 stack d h.
Proof using All.
  intros ([Hr _] & Hf & Hok) Hl. unfold launch in Hl.
  destruct (RandomWalkGenerator.configure _ _ _) as [g [e|]] eqn:E; [done|]. injection Hl as <-. exists g.
  apply configured_inv in E as [_ Hg]; [|done..]. by split.
Qed.

Lemma launch_interval `{LinkLaws L} (s : Benchmark.state L M G) : launchable config file stack d h ->
  launch config file rng m0 stack d h = inr s ->
  exists g, s = start config symbols g m0 stack d h /\ Benchmark.interval s = 1000000000 / message_rate config.
Proof using All.
  intros ([Hr Hm] & _) Hl. unfold launch in Hl.
  destruct (configure_cases (message_rate config) file (RandomWalkGenerator.init rng) Hr)
    as [[_ E]|[(_ & _ & E)|(Hp & _ & E)]];
    rewrite E in Hl; try done. injection Hl as <-. eexists. split; [done|]. unfold Benchmark.interval. simpl.
  apply u32_small. pose proof (Z.div_pos 1000000000 (message_rate config) ltac:(lia) ltac:(lia)).
  pose proof (Z.div_le_upper_bound 1000000000 (message_rate config) 1000000000 ltac:(lia) ltac:(nia)). lia.
Qed.

(** The main thread does what [pipeline_body] logs, and throws what it throws. *)
Lemma launch_logged mon : is_u32 (message_rate config) ->
  match launch config file rng m0 stack d h : exn + Benchmark.state L M G with
  | inr s => exists p, pipeline_body config file rng mon = (p, None) /\ todo s = Main.log p
  | inl e => (pipeline_body config file rng mon).2 = Some e
  end.
Proof using All.
  intros [Hr _]. unfold launch.
  destruct (configure_cases (message_rate config) file (RandomWalkGenerator.init rng) Hr)
    as [[_ E]|[(_ & _ & E)|(Hp & Hs & E)]];
    rewrite E.
  - destruct (run_pipeline_throws config file rng mon _ _ E eq_refl) as (p & -> & _). done.
  - destruct (run_pipeline_throws config file rng mon _ _ E eq_refl) as (p & -> & _). done.
  - destruct (run_pipeline_none config file rng mon Hp Hs) as (p & -> & _ & _ & _ & Hlog & _). by exists p.
Qed.
End Launch.

(** ** Where the main thread is *)

Section Progress.
Context (config : BenchmarkConfig) (symbols : list (list byte)).

(** How much is left says what is next. *)
Definition position (n : nat) (a : Main.action) (rest : nat) : Prop :=
  match a with
  | Main.ConfigureGenerator => rest = 10 + n
  | Main.StartFeedHandler => rest = 9 + n
  | Main.Subscribe _ _ => 9 <= rest < 9 + n
  | Main.StartDisseminator => rest = 8
  | Main.Sleep _ => rest = 7 \/ rest = 5 \/ rest = 3
  | Main.StartGenerator => rest = 6
  | Main.StopGenerator => rest = 4
  | Main.StopDisseminator => rest = 2
  | Main.StopFeedHandler => rest = 1
  | Main.SaveCsv => rest = 0
  end%nat.

Lemma position_symbols a rest t : suffix (a :: rest) (((fun sym => Main.Subscribe sym true) <$> symbols) ++
    [Main.StartDisseminator; Main.Sleep 200; Main.StartGenerator; Main.Sleep t; Main.StopGenerator;
     Main.Sleep 1000; Main.StopDisseminator; Main.StopFeedHandler; Main.SaveCsv]) ->
  position (length symbols) a (length rest) /\ a <> Main.ConfigureGenerator /\ a <> Main.StartFeedHandler.
Proof.
  induction symbols as [|y ys IH]; simpl.
  - intros Hx. repeat (apply suffix_cons_inv in Hx as [Hx|Hx]; [injection Hx as -> ->; simpl; auto|]).
    by apply suffix_nil_inv in Hx.
  - intros [Hx|Hx]%suffix_cons_inv;
      [injection Hx as -> ->; simpl; rewrite length_app, length_fmap; simpl; split_and!; (done || lia)|].
    apply IH in Hx. destruct a; simpl in *; intuition lia.
Qed.

Lemma todo_position a rest : suffix (a :: rest) (complete_log config symbols) ->
  position (length symbols) a (length rest).
Proof.
  unfold complete_log. cbn [app].
  intros [Hx|[Hx|Hx]%suffix_cons_inv]%suffix_cons_inv; [injection Hx as -> ->..|by eapply position_symbols];
    simpl; rewrite length_app, length_fmap; simpl; lia.
Qed.

Section Sound.
Context {L : Link} {M : RingMachine MarketDataMsg} {G : Type} `{RandomSource G}.
Implicit Types (s : Benchmark.state L M G) (l : Benchmark.label M).
Local Abbreviation left s := (length (todo s)).

(** What has been done by then. [join] has waited for the loops. *)
Record sound s : Prop := {
  so_todo : suffix (todo s) (complete_log config symbols);
  so_receiver : (left s < 10 + length symbols)%nat -> recv_at s <> RNotStarted;
  so_worker : (left s < 9)%nat -> worker_started s = true;
  so_generator : gen_at s = GNotStarted <-> (7 <= left s)%nat;
  so_generated : gen_at s = GNotStarted -> RingSystem.generated (core s) = [];
  so_generator_ended : (left s < 5)%nat -> gen_at s = GExited;
  so_worker_ended : (left s < 3)%nat -> RingSystem.exited (core s) = true;
  so_receiver_ended : (left s < 2)%nat -> recv_at s = RExited;
  so_files : (left s < 1)%nat -> files s = Some (LatencyMonitor.destroy (RingSystem.client (core s)));
  so_loops : ended (core s);
}.

Section Steps.
Context {Capacity : Z} `{Hlaws : !RingMachineLaws Capacity M}.

(** What a step does to the shared state. *)
Lemma core_step l s s' : ended (core s) -> exec l s = Some s' ->
  ended (core s') /\
  (RingSystem.exited (core s) = true -> RingSystem.exited (core s') = true) /\
  (gen_at s <> GLook -> RingSystem.generated (core s') = RingSystem.generated (core s)) /\
  (recv_at s = RExited -> RingSystem.client (core s') = RingSystem.client (core s)).
Proof using Hlaws.
  intros Hend He. pose proof (exec_core l s s' He) as (t & Hc & _).
  assert (Hlast : ended (core s') /\ (RingSystem.exited (core s) = true -> RingSystem.exited (core s') = true)).
  { apply (inner_inv (fun c => ended c /\ (RingSystem.exited (core s) = true -> RingSystem.exited c = true)) l s s' He);
      [done|]. intros c c' k _ Hk [Hec Hx]. split; [by eapply ended_step|]. intros Hs. eapply exited_stays; eauto. }
  split_and!; [apply Hlast..| |].
  - intros Hg. apply (generator_keeps l s s' He). by destruct l.
  - intros Hr. apply (inner_inv (fun c => RingSystem.client c = RingSystem.client (core s)) l s s' He); [done|].
    intros c c' k Hin Hk <-. apply (system_keeps k c c' Hk).
    destruct l; simpl in *; unfold recv_does in Hc; rewrite ?Hr in Hc; repeat case_match; try done;
      repeat (apply elem_of_cons in Hin as [->|Hin]); try done; by apply elem_of_nil in Hin.
Qed.

(** The main thread goes on. *)
Lemma sound_main s s' : sound s -> exec MainDoes s = Some s' -> sound s'.
Proof using Hlaws.
  intros [Hsuf Hr Hw Hg Hgen Hge Hwe Hre Hf Hend] He.
  destruct (core_step MainDoes s s' Hend He) as (Hend' & Hex & Hgen' & Hcl).
  pose proof (exec_core _ _ _ He) as (t & Ht & Hrun & Hs). cbn [control inner] in Ht, Hrun. unfold main_does in Ht.
  destruct (todo s) as [|a rest] eqn:Et; [done|]. pose proof (todo_position a rest Hsuf) as Hpos.
  assert (Hsuf' : suffix rest (complete_log config symbols)) by (by eapply suffix_cons_l).
  assert (Hnew : gen_at s = GNotStarted -> RingSystem.generated (core s') = [])
    by (intros Hn; rewrite Hgen'; [by apply Hgen|congruence]).
  assert (Hrunning : gen_at s <> GNotStarted <-> (S (length rest) < 7)%nat)
    by (rewrite Hg; simpl; lia).
  rewrite Hs. destruct a; simpl in Hpos, Hrun, Hr, Hw, Hg, Hge, Hwe, Hre, Hf; step_cases;
    repeat match goal with E : _ && _ = true |- _ => apply andb_true_iff in E as [? ?] end;
    (split; simpl; rewrite ?Et; simpl; repeat match goal with E : _ s = _ |- _ => rewrite E end; try done; try lia);
    auto with lia;
    try (rewrite Hg; lia); try (split; [done|lia]).
Qed.

(** What a step of another thread leaves to the main thread. *)
Lemma other_threads l s s' : l <> MainDoes -> exec l s = Some s' ->
  todo s' = todo s /\ files s' = files s /\ worker_started s' = worker_started s /\
  (gen_at s' = GNotStarted <-> gen_at s = GNotStarted) /\ (gen_at s = GExited -> gen_at s' = GExited) /\
  (recv_at s <> RNotStarted -> recv_at s' <> RNotStarted) /\ (recv_at s = RExited -> recv_at s' = RExited).
Proof.
  intros Hl (t & Ht & _ & ->)%exec_core. destruct l; try done; cbn [control] in Ht;
    unfold gen_does, recv_does in Ht; step_cases; split_and!; simpl; try done; repeat case_match;
    congruence || (split; congruence).
Qed.

Lemma sound_step l s s' : sound s -> exec l s = Some s' -> sound s'.
Proof using Hlaws.
  intros Hs He. assert (Hl : l = MainDoes \/ l <> MainDoes) by (destruct l; (by left) || (by right)).
  destruct Hl as [->|Hl]; [by eapply sound_main|]. destruct Hs as [Hsuf Hr Hw Hg Hgen Hge Hwe Hre Hf Hend].
  destruct (core_step l s s' Hend He) as (Hend' & Hex & Hgen' & Hcl).
  destruct (other_threads l s s' Hl He) as (Ht & Hfi & Hws & Hgn & Hgx & Hrn & Hrx).
  split; rewrite ?Ht, ?Hfi, ?Hws, ?Hgn; auto.
  - intros Hn. rewrite Hgen'; [auto|congruence].
  - intros Hz. rewrite Hcl; [auto|apply Hre; lia].
Qed.

Lemma sound_start (g : RandomWalkGenerator.t G) m0 stack d h :
  sound (start config symbols g m0 stack d h : Benchmark.state L M G).
Proof using Hlaws.
  assert (Hlen : length (complete_log config symbols) = (11 + length symbols)%nat)
    by (unfold complete_log; rewrite !length_app, length_fmap; simpl; lia).
  split; cbn [todo start]; rewrite ?Hlen; try done; try lia; [split; [lia|done]|].
  split; simpl; [by rewrite (rm_start_phase (M:=M))|done].
Qed.

Lemma sound_run ls s s' : sound s -> run exec ls s = Some s' -> sound s'.
Proof using Hlaws.
  intros Hs Hr. refine (rtc_invariant _ sound _ _ _ (run_rtc _ _ _ _ Hr) Hs). intros x y Hx [l Hl]. by eapply sound_step.
Qed.

Lemma sound_reached (g : RandomWalkGenerator.t G) m0 stack d h ls s :
  run exec ls (start config symbols g m0 stack d h) = Some s -> sound s.
Proof using Hlaws. intros Hr. by eapply sound_run; [apply sound_start|]. Qed.
End Steps.
End Sound.
End Progress.
