(* ===== verification/BenchmarkReport.v ===== *)
(** What a complete run of the pipeline reports: the files the main thread leaves at
    the end of [run_benchmark_pipeline], against the messages its generator made. *)

From Stdlib Require Import String.
From S2P Require Import Prelude Types QueueConcepts CustomSpscQueue SpscConcurrency RingMachine WaitableRing SpinRing Threads BaseGenerator RandomWalkGenerator Calls Disseminator UdpFeedHandler ZmqFeedHandler LatencyMonitor Main Wire Links Channel System RingSystem Reports Benchmark.
From stdpp Require Import options.
Import Benchmark.

(** The network keeps what it carries, in order. *)
Definition faithful {M : RingMachine MarketDataMsg} (l : Benchmark.label M) : Prop :=
  match l with LoseParcel _ => False | RecvParcel i duplicate _ => i = 0%nat /\ duplicate = false | _ => True end.

(** The rows of the two files. *)
Definition parsed (fs : list (list byte * list byte)) : list (option (list LatencyRecord)) :=
  (fun f => parse_csv f.2) <$> fs.

Section Report.
Context {L : Link} `{LinkLaws L} {G : Type} `{RandomSourceLaws G} (Capacity : Z).
Context {M : RingMachine MarketDataMsg} `{Hlaws : !RingMachineLaws Capacity M}.
Context `{Hring : !CustomSpscQueue.RingCapacity Capacity} (config : BenchmarkConfig) (symbols : list (list byte)).
Implicit Types (s : Benchmark.state L M G) (l : Benchmark.label M).
Local Abbreviation cap := (Z.to_nat Capacity).
Local Abbreviation left s := (length (todo s)).
Local Abbreviation monitor0 := (LatencyMonitor.init (out_dir config)).

(** Once every symbol has been subscribed the client asks for nothing else. *)
Lemma inner_orderly l s : suffix (todo s) (complete_log config symbols) -> (left s <= 9)%nat -> faithful l ->
  Forall orderly (inner l s ≫= seen).
Proof using Type.
  intros Hsuf Hleft Hl. destruct l; simpl in *; repeat case_match; simpl; repeat constructor; try apply Hl; try done;
    try (unfold seen; repeat case_match; repeat constructor).
  apply todo_position in Hsuf. simpl in *. lia.
Qed.

Lemma trace_orderly ls s : sound config symbols s -> (left s <= 9)%nat -> Forall faithful ls ->
  Forall orderly (trace ls s ≫= seen).
Proof using Hlaws.
  intros Hs Hleft Hls. revert s Hs Hleft. induction Hls as [|l ls Hl _ IH]; intros s Hs Hleft; simpl; [constructor|].
  rewrite bind_app. apply Forall_app. split; [apply inner_orderly; [apply Hs|done..]|].
  destruct (exec l s) as [s'|] eqn:He; [|constructor]. apply IH; [by eapply sound_step|].
  assert (Hl' : l = MainDoes \/ l <> MainDoes) by (destruct l; (by left) || (by right)). destruct Hl' as [->|Hl'].
  - apply exec_core in He as (t & Ht & _ & ->). cbn [control] in Ht. unfold main_does in Ht. simpl.
    step_cases; simpl in *; rewrite ?E in *; simpl in *; lia.
  - apply other_threads in He as [-> _]; done.
Qed.

(** A state in which nothing has been made is a fresh channel. *)
Lemma fresh_channel (c : RingSystem.state L M G LatencyMonitor.t) m a :
  implements monitor_callbacks monitor0 symbols (coarse Capacity c m) a ->
  genuine a -> RingSystem.generated c = [] ->
  implements monitor_callbacks monitor0 symbols (coarse Capacity c m)
    (idle (fun hdr => accepts hdr (RingSystem.subscriber c)) (settled (RingSystem.subscriber c))).
Proof using Type.
  intros [Hg Ht Hd Hh Hmd Hmk Hq Hhd Hf Hs Hi Hqt Hms Hsh] (ships & Hm & Hfl & Hsn) Hgen. simpl in *.
  rewrite Hmd in Hgen. rewrite Hgen in Hm. symmetry in Hm.
  apply app_eq_nil in Hm as [Hm1 Hm]. apply app_eq_nil in Hm as [Hm2 Hm]. apply app_eq_nil in Hm as [Hm3 Hm4].
  apply fmap_nil_inv in Hm1 as ->.
  assert (flying a = []) as Hfl'.
  { destruct (flying a); [done|]. apply Forall_cons in Hfl as [Hx _]. by apply elem_of_nil in Hx. }
  assert (shown a = []) as Hsn'.
  { destruct (shown a); [done|]. apply Forall_cons in Hsn as [Hx _]. by apply elem_of_nil in Hx. }
  destruct (held a), (making a); try done. rewrite Hfl' in Hf. rewrite Hsn' in Hs. rewrite Hm3 in Hq.
  split; simpl; try done. by rewrite Hmd, Hgen.
Qed.

(** The state when the generator is started stands for a fresh channel. *)
Lemma before_generator g m0 stack d h ls s :
  RingSystem.ready symbols g stack d h -> Forall (memory_ok (M:=M)) ls ->
  run exec ls (start config symbols g m0 stack d h) = Some s -> gen_at s = GNotStarted ->
  exists m, related Capacity (core s) m /\ implements monitor_callbacks monitor0 symbols (coarse Capacity (core s) m)
    (idle (fun hdr => accepts hdr (RingSystem.subscriber (core s))) (settled (RingSystem.subscriber (core s)))).
Proof using All.
  intros Hok Hmem Hrun Hg.
  assert (Hs : sound config symbols s) by (by eapply (sound_reached config symbols (Capacity:=Capacity))).
  pose proof (run_trace ls _ s Hrun) as Htr.
  destruct (run_ring Capacity monitor_callbacks symbols g m0 stack d h monitor0 _ (core s) Hok
              (trace_label_ok ls _ Hmem) Htr)
    as (m & a & Hst & Him & Hr).
  exists m. split; [done|]. eapply fresh_channel; [exact Him| |by apply Hs].
  eapply (steps_invariant _ (fun _ => True) genuine); [by eauto using genuine_step|by apply Forall_true|exact Hst|].
  by exists [].
Qed.

(** The readings that the messages carry at the end. *)
Lemma final_clocks h t0 xs a : covers symbols h -> Forall orderly xs -> 0 <= t0 -> monotone t0 xs ->
  steps (channel_step symbols cap) xs (idle (fun hdr => accepts hdr h) (settled h)) a ->
  enqueue_time <$> made a = make_clocks xs /\
  ship_clock <$> (shown a).*1 ++ flying a = publish_clocks xs /\ (shown a).*2 = receive_clocks xs.
Proof using Type.
  intros [Hset Hcov] Hord Ht0 Hmono Hst. destruct (monotone_clocks t0 xs Ht0 Hmono) as [Hmake Hread].
  pose proof (made_clocks _ _ _ _ _ Hst) as Hm. rewrite Hmake in Hm. split; [done|]. rewrite <- Hread.
  apply (orderly_clocks symbols _ _ _ a) in Hst; [exact Hst|by apply Forall_nil|by split|done].
Qed.

(** The files at the end. *)
Lemma final_files s m a now : files s = Some (LatencyMonitor.destroy (RingSystem.client (core s))) ->
  implements monitor_callbacks monitor0 symbols (coarse Capacity (core s) m) a -> timely now a -> now < 2 ^ 64 ->
  Forall ordered_times (shown a) /\
  parsed <$> files s =
    Some [Some (true_latency <$> filter (fun p => is_quote (ship_msg p.1)) (shown a));
          Some (true_latency <$> filter (fun p => negb (is_quote (ship_msg p.1))) (shown a))].
Proof using Type.
  intros -> Him [_ _ Htm] Hnow.
  assert (Hord : Forall ordered_times (shown a)).
  { eapply Forall_impl; [exact Htm|]. intros p Hp. unfold ordered_times. simpl in Hp. lia. }
  split; [done|]. destruct (rows_true (shown a) Hord) as [Hq Ht]. pose proof (im_shown _ _ _ _ _ Him) as Hcl.
  simpl in Hcl. apply (f_equal Some).
  unfold parsed, LatencyMonitor.destroy. by rewrite Hcl, show_observes, saved_rows, Hq, Ht.
Qed.
End Report.

(** * Demonstration: a trade is reported and a quote left in the ring, which spins *)

Section Demo.
Import SpinRing.
Local Abbreviation Spinning := (SpinRing.machine MarketDataMsg 2).

Definition demo_config : BenchmarkConfig :=
  Config Spin UdpMulticast Custom 1024 10000 1 (chars "239.192.1.1") 5555 (chars "tickers.txt") (chars "results").

(** A file with a line for each of the two symbols. *)
Definition demo_tickers : list byte := symbols_text [SymbolsFile.newline] [sym_V; sym_VZ].

(** Up to the start of the generator. *)
Definition demo_preparing : list (Benchmark.label Spinning) :=
  [MainDoes; MainDoes; RecvTest; MainDoes; RecvPoll; MainDoes; RecvPoll; RecvPoll; MainDoes; InQueue (M:=Spinning) PopCall;
   MainDoes].

(** The rest: two messages are made, and stop is requested before the second one is
    popped. *)
Definition demo_benchmark : list (Benchmark.label Spinning) :=
  let inside := InQueue (M:=Spinning) in
  [MainDoes; GenBegin 9; GenTest; GenLook 10 10 11; GenRetry; inside (Prod (PLoadR 0)); inside PopTest;
   inside (Prod PConstruct); inside (Cons CCall); inside (Cons (CLoadW 0)); inside (Prod PPublish); inside PopTest;
   GenReturn; inside (Cons CCall); inside (Cons (CLoadW 1)); inside (Cons CMove); inside (Cons CDestroy);
   inside (Cons CPublish); inside PopReturn; Send 30 demo_pad demo_send_stack; RecvParcel 0 false 35; RecvTest;
   GenTest; MainDoes; GenLook 100010 100010 100011; GenRetry; inside (Prod (PLoadR 0)); inside (Prod PConstruct);
   MainDoes; inside (Prod PPublish); GenReturn; GenTest; MainDoes; RecvPoll; MainDoes;
   MainStops (M:=Spinning) StopRequest; inside PopCall; inside PopTest; inside PopReturn; MainDoes; MainDoes;
   RecvNothing 100040; RecvTest; MainDoes; MainDoes].

Definition demo_benchmark_start : Benchmark.state Udp Spinning Tape :=
  Benchmark.start (L:=Udp) demo_config [sym_V; sym_VZ] demo_generator (QuoteMsg Quote.zero) demo_topic_stack demo_udp
    (udp_fresh (replicate 1024 xcc) (Cmd true 0)).

Definition demo_prepared : Benchmark.state Udp Spinning Tape :=
  default demo_benchmark_start (run Benchmark.exec demo_preparing demo_benchmark_start).

Definition demo_benchmark_end : Benchmark.state Udp Spinning Tape :=
  default demo_prepared (run Benchmark.exec demo_benchmark demo_prepared).
End Demo.

Lemma demo_preparing_run : run exec demo_preparing demo_benchmark_start = Some demo_prepared.
Proof. apply run_default. vm_compute. reflexivity. Qed.

Lemma demo_benchmark_run : run exec demo_benchmark demo_prepared = Some demo_benchmark_end.
Proof. apply run_default. vm_compute. reflexivity. Qed.

Lemma demo_launchable :
  launchable (L:=Udp) demo_config (Some demo_tickers) demo_topic_stack demo_udp
    (udp_fresh (replicate 1024 xcc) (Cmd true 0)).
Proof. split_and!; [split; vm_compute; done|vm_compute; discriminate|done..|by apply udp_fresh_ok]. Qed.

Lemma demo_symbols_read : SymbolsFile.read_symbols_file (Some demo_tickers) = [sym_V; sym_VZ].
Proof. vm_compute. reflexivity. Qed.

(** Any queue: the configured generator is that of the other demonstrations. *)
Lemma demo_launch (M : RingMachine MarketDataMsg) :
  launch (L:=Udp) (M:=M) demo_config (Some demo_tickers) (RandomWalkGenerator.rng_ demo_generator) (QuoteMsg Quote.zero)
    demo_topic_stack demo_udp (udp_fresh (replicate 1024 xcc) (Cmd true 0)) =
  inr (Benchmark.start (L:=Udp) demo_config [sym_V; sym_VZ] demo_generator (QuoteMsg Quote.zero) demo_topic_stack demo_udp
         (udp_fresh (replicate 1024 xcc) (Cmd true 0))).
Proof.
  unfold launch. replace (RandomWalkGenerator.configure _ _ _) with (demo_generator, None : option exn)
    by (vm_compute; reflexivity).
  by rewrite demo_symbols_read.
Qed.

(** The receiver has taken both subscriptions by then. *)
Lemma demo_prepared_covers : covers (L:=Udp) [sym_V; sym_VZ] (RingSystem.subscriber (core demo_prepared)).
Proof.
  apply udp_covers; [exact demo_symbols_short| |vm_compute; reflexivity].
  apply CustomSpscQueue.repr_empty; [lia|split; vm_compute; congruence|vm_compute; reflexivity..].
Qed.

Example demo_benchmark_files : parsed <$> files demo_benchmark_end = Some [Some []; Some [Latency 19 5 24]].
Proof. vm_compute. reflexivity. Qed.

(** The readings its threads took: two messages were made, one was sent. *)
Example demo_benchmark_clocks : let xs := trace demo_benchmark demo_prepared ≫= seen in
  (make_clocks xs, publish_clocks xs, receive_clocks xs) = ([11; 100011], [30], [35]).
Proof. vm_compute. reflexivity. Qed.

(** * Properties *)

(** C4: the report of a whole run. Whenever [run_benchmark_pipeline] comes to its end,
    on any schedule of its four threads down to the accesses of the ring, every
    message the generator made is in exactly one place, in order: reported, still in
    the network, left in the ring (at most its capacity of them) or given up in the
    retry loop (at most one). Each carries the readings of the clock that the threads
    took in this run: the generator's when it stamped it, the disseminator's when it
    sent it, the receiver's when it received it. The files parse into one row per
    reported quote and per reported trade, which holds the true differences of these
    readings. This needs the subscriptions to have taken effect when the generator
    starts, and from then on a network that keeps everything in order and a clock that
    never goes back. *)
Theorem benchmark_report {L : Link} `{LinkLaws L} {G : Type} `{RandomSourceLaws G} (Capacity : Z)
    (M : RingMachine MarketDataMsg) `{!RingMachineLaws Capacity M} `{Hring : !CustomSpscQueue.RingCapacity Capacity}
    (config : BenchmarkConfig) (file : option (list byte)) (rng : G) (m0 : MarketDataMsg)
    (stack : list byte) (d : disseminator L) (h : handler L) (ls1 ls2 : list (Benchmark.label M))
    (s0 s1 s2 : Benchmark.state L M G) (rest : list Main.action) (t0 : Z) :
  launchable config file stack d h -> launch config file rng m0 stack d h = inr s0 ->
  Forall memory_ok ls1 -> Forall memory_ok ls2 -> run exec ls1 s0 = Some s1 ->
  todo s1 = Main.StartGenerator :: rest ->
  covers (SymbolsFile.read_symbols_file file) (RingSystem.subscriber (core s1)) ->
  run exec ls2 s1 = Some s2 -> todo s2 = [] ->
  Forall faithful ls2 -> 0 <= t0 < 2 ^ 64 -> monotone t0 (trace ls2 s1 ≫= seen) ->
  exists (received : list (shipment * Z)) (in_flight : list shipment) (left_over : list MarketDataMsg),
    RingSystem.generated (core s2) = (ship_msg <$> received.*1) ++ (ship_msg <$> in_flight) ++ left_over ++
      option_list (RingSystem.pending (core s2)) /\
    RingSystem.wire (core s2) = ship_parcel <$> in_flight /\
    SpscConcurrency.queued (rm_ring M (RingSystem.queue (core s2))) = left_over /\
    Z.of_nat (length left_over) <= Capacity /\
    enqueue_time <$> RingSystem.generated (core s2) = make_clocks (trace ls2 s1 ≫= seen) /\
    ship_clock <$> received.*1 ++ in_flight = publish_clocks (trace ls2 s1 ≫= seen) /\
    received.*2 = receive_clocks (trace ls2 s1 ≫= seen) /\
    parsed <$> files s2 =
      Some [Some (true_latency <$> filter (fun p => is_quote (ship_msg p.1)) received);
            Some (true_latency <$> filter (fun p => negb (is_quote (ship_msg p.1))) received)] /\
    Forall ordered_times received.
Proof.
  intros Hla Hl Hmem1 Hmem2 Hrun1 Htodo Hcov Hrun2 Hend Hfair Ht0 Hmono.
  destruct (launch_ready _ _ _ _ _ _ _ s0 Hla Hl) as (g & Hok & ->).
  set (symbols := SymbolsFile.read_symbols_file file) in *.
  assert (Hs1 : sound config symbols s1) by (by eapply (sound_reached config symbols (Capacity:=Capacity))).
  pose proof (todo_position config symbols Main.StartGenerator rest) as Hpos. rewrite <- Htodo in Hpos.
  specialize (Hpos (so_todo _ _ _ Hs1)). simpl in Hpos.
  assert (Hg : gen_at s1 = GNotStarted) by (apply (so_generator _ _ _ Hs1); rewrite Htodo; simpl; lia).
  destruct (before_generator Capacity config symbols g m0 stack d h ls1 s1 Hok Hmem1 Hrun1 Hg) as (m1 & Hr1 & Him1).
  pose proof (sound_run config symbols (Capacity:=Capacity) ls2 s1 s2 Hs1 Hrun2) as Hs2.
  pose proof (run_trace ls2 s1 s2 Hrun2) as Htr.
  destruct (run_seen Capacity monitor_callbacks _ _ _ m1 Hr1 Htr) as (m2 & Hr2 & Hrun').
  destruct (run_implements monitor_callbacks _ symbols _ _ _ _ (trace_label_ok ls2 s1 Hmem2) Him1 Hrun') as (a & Hst & Him).
  assert (Hord : Forall orderly (trace ls2 s1 ≫= seen))
    by (eapply (trace_orderly Capacity); [exact Hs1|rewrite Htodo; simpl; lia|done]).
  destruct (steps_orderly symbols _ _ _ a Hcov Hord Hst) as [_ Ho].
  destruct (timely_run _ _ _ _ _ _ Ht0 Hmono (idle_timely _ _ _) Hst) as (now & Hnow & Htm).
  destruct (final_files Capacity config symbols s2 m2 a now) as [Hot Hfiles];
    [apply Hs2; rewrite Hend; simpl; lia|done..|].
  exists (shown a), (flying a), (Channel.queued a). pose proof (im_queue _ _ _ _ _ Him) as [Hq Hlen]. simpl in Hq.
  destruct (so_loops _ _ _ Hs2) as [_ Hlast].
  destruct Hlast as (Hp & Hi & _); [apply Hs2; rewrite Hend; simpl; lia|].
  pose proof (im_held _ _ _ _ _ Him) as Hh. unfold in_hand, coarse in Hh. simpl in Hh. rewrite Hp, Hi in Hh.
  pose proof (im_made _ _ _ _ _ Him) as Hm. pose proof (im_making _ _ _ _ _ Him) as Hk. simpl in Hm, Hk.
  destruct (final_clocks Capacity symbols _ t0 _ a Hcov Hord (proj1 Ht0) Hmono Hst) as (Hmake & Hpub & Hrec).
  destruct Hring. split_and!; [|apply Him|done|lia|by rewrite Hm|done..]. rewrite Hm, Hk, (io_made _ _ Ho), <- Hh. done.
Qed.

Lemma benchmark_report_witness :
  exists (received : list (shipment * Z)) (in_flight : list shipment) (left_over : list MarketDataMsg),
    RingSystem.generated (core demo_benchmark_end) = (ship_msg <$> received.*1) ++ (ship_msg <$> in_flight) ++ left_over ++
      option_list (RingSystem.pending (core demo_benchmark_end)) /\
    RingSystem.wire (core demo_benchmark_end) = ship_parcel (L:=Udp) <$> in_flight /\
    SpscConcurrency.queued (rm_ring (SpinRing.machine MarketDataMsg 2) (RingSystem.queue (core demo_benchmark_end))) =
      left_over /\
    Z.of_nat (length left_over) <= 2 /\
    enqueue_time <$> RingSystem.generated (core demo_benchmark_end) =
      make_clocks (trace demo_benchmark demo_prepared ≫= seen) /\
    ship_clock <$> received.*1 ++ in_flight = publish_clocks (trace demo_benchmark demo_prepared ≫= seen) /\
    received.*2 = receive_clocks (trace demo_benchmark demo_prepared ≫= seen) /\
    parsed <$> files demo_benchmark_end =
      Some [Some (true_latency <$> filter (fun p => is_quote (ship_msg p.1)) received);
            Some (true_latency <$> filter (fun p => negb (is_quote (ship_msg p.1))) received)] /\
    Forall ordered_times received.
Proof.
  apply (benchmark_report (L:=Udp) 2 (SpinRing.machine MarketDataMsg 2) demo_config (Some demo_tickers)
           (RandomWalkGenerator.rng_ demo_generator) (QuoteMsg Quote.zero) demo_topic_stack demo_udp
           (udp_fresh (replicate 1024 xcc) (Cmd true 0)) demo_preparing demo_benchmark demo_benchmark_start
           demo_prepared demo_benchmark_end (drop 7 (complete_log demo_config [sym_V; sym_VZ])) 0).
  - exact demo_launchable.
  - exact (demo_launch _).
  - repeat (apply Forall_cons; split; [exact I || (split; reflexivity)|]). by apply Forall_nil.
  - repeat (apply Forall_cons; split; [exact I || (split; reflexivity)|]). by apply Forall_nil.
  - exact demo_preparing_run.
  - vm_compute. reflexivity.
  - rewrite demo_symbols_read. exact demo_prepared_covers.
  - exact demo_benchmark_run.
  - vm_compute. reflexivity.
  - repeat (apply Forall_cons; split; [exact I || (split; reflexivity)|]). by apply Forall_nil.
  - lia.
  - vm_compute. repeat split; congruence.
Defined.
