(* ===== verification/BenchmarkLoops.v ===== *)
(** The generator's thread of [Benchmark.v] runs [generation_loop] of
    [BaseGenerator.v]: what it does step by step beside the other threads is what the
    loop does in turns, for the answers its calls of [push] were given. *)

From S2P Require Import Prelude Types QueueConcepts CustomSpscQueue SpscConcurrency RingMachine WaitableRing SpinRing Threads BaseGenerator RandomWalkGenerator Calls Disseminator UdpFeedHandler ZmqFeedHandler LatencyMonitor Main Wire Links Channel System RingSystem Reports Benchmark BenchmarkReport.
From stdpp Require Import options.
Import BaseGenerator Benchmark.

(** A queue seen from the producer: what [push] will answer. *)
Record answers := Answers { given : list bool }.

#[export] Instance answers_storage : SpscQueueStorage answers MarketDataMsg := {|
  q_push m q := match given q with [] => None | b :: l => Some (b, Answers l) end;
  q_pop m q := Some (false, m, q);
  q_empty q := true;
|}.

Section Generator.
Context {L : Link} {M : RingMachine MarketDataMsg} {G : Type} `{RandomSource G}.
Implicit Types (s : Benchmark.state L M G).
Local Abbreviation loop_world := (BaseGenerator.world (RandomWalkGenerator.t G) answers).
Local Abbreviation loop_outcome := (BaseGenerator.outcome (RandomWalkGenerator.t G) answers).

(** What the thread does in a run that the loop takes from outside: what its tests
    of the token see, its clock readings, and what its calls of [push] answer. *)
Inductive gen_event :=
  | Tested (stop : bool)                           (* the test of the outer loop *)
  | Looked (now gen_clock enqueue_clock : Z)
  | Retested (stop : bool)                         (* the test of the inner loop *)
  | Returned (pushed : bool).

Definition gen_event_of (l : Benchmark.label M) s : list gen_event :=
  match l with
  | GenTest => [Tested (gen_stop s)]
  | GenLook now gen_clock enqueue_clock => [Looked now gen_clock enqueue_clock]
  | GenRetry => [Retested (gen_stop s)]
  | GenReturn => [Returned (match RingSystem.pending (core s) with None => true | Some _ => false end)]
  | _ => []
  end.

Fixpoint gen_events (ls : list (Benchmark.label M)) s : list gen_event :=
  match ls with
  | [] => []
  | l :: ls' => gen_event_of l s ++ match exec l s with Some s' => gen_events ls' s' | None => [] end
  end.

Definition push_answers (es : list gen_event) : list bool :=
  omap (fun e => match e with Returned b => Some b | _ => None end) es.

(** The same as attempts of the inner loop that is under way, and the turns of the
    outer loop from there on. *)
Fixpoint turns_from (es : list gen_event) : list attempt * list turn :=
  match es with
  | [] => ([], [])
  | e :: es' =>
      let '(attempts, turns) := turns_from es' in
      match e with
      | Tested true => ([], Turn [EnvStop] 0 0 0 [] :: turns)
      | Tested false => ([], turns)
      | Looked now c1 c2 => ([], Turn [] now c1 c2 attempts :: turns)
      | Retested true => ([Attempt [EnvStop] []], turns)
      | Retested false => (attempts, turns)
      | Returned _ => (Attempt [] [] :: attempts, turns)
      end
  end.
Definition turns_of (es : list gen_event) : list turn := (turns_from es).2.

(** What [generation_loop] works on when the thread is as in [s]. *)
Definition world_of (l : list bool) (stop : bool) s (acc : list MarketDataMsg) (times : list Z) : loop_world :=
  World (Answers l) stop (RingSystem.generator (core s)) (Benchmark.next_time s) (RingSystem.generated (core s)) acc times.

(** The loop has come as far as the thread; it has not seen a stop request that was
    not made. *)
Definition stands s (o : loop_outcome) : Prop := exists stop acc times,
  (stop = true -> gen_stop s = true) /\
  let w := world_of [] stop s acc times in
  match gen_at s with
  | GNotStarted | GBegin => False
  | GTest | GLook => o = Looping w
  | GRetry | GPush => o = InRetry w
  | GExited => o = Exited w /\ stop = true
  end.

Context (i : Z).
Local Abbreviation the_loop := (generation_loop RandomWalkGenerator.generate_msg_impl i).

(** The loop after its inner loop. *)
Definition after_retry (turns : list turn) (r : retry_outcome (RandomWalkGenerator.t G) answers) : option loop_outcome :=
  match r with
  | Pushed w | Abandoned w => the_loop turns (advance i w)
  | Retrying w => Some (InRetry w)
  end.

(** From where the thread is in [s], what it does in [es] brings the loop to where the
    thread is in [s']. *)
Definition follows (es : list gen_event) s s' : Prop :=
  let l := push_answers es in
  match gen_at s with
  | GNotStarted | GBegin => True
  | GTest => forall stop acc times, (stop = true -> gen_stop s = true) ->
      exists o, the_loop (turns_of es) (world_of l stop s acc times) = Some o /\ stands s' o
  | GLook => forall acc times, exists o, the_loop (turns_of es) (world_of l false s acc times) = Some o /\ stands s' o
  | GRetry | GPush => forall acc times m, exists o,
      (r ← push_retry (turns_from es).1 m (world_of l false s acc times); after_retry (turns_of es) r) = Some o /\
      stands s' o
  | GExited => gen_stop s = true -> es = [] /\ forall acc times, stands s' (Exited (world_of [] true s acc times))
  end.

Lemma follows_refl s : follows [] s s.
Proof.
  unfold follows. destruct (gen_at s) eqn:E; try done.
  - intros stop acc times Hst. eexists. split; [reflexivity|]. exists stop, acc, times. by rewrite E.
  - intros acc times. eexists. split; [reflexivity|]. exists false, acc, times. by rewrite E.
  - intros acc times m. eexists. split; [reflexivity|]. exists false, acc, times. by rewrite E.
  - intros acc times m. eexists. split; [reflexivity|]. exists false, acc, times. by rewrite E.
  - intros Hst. split; [done|]. intros acc times. exists true, acc, times. by rewrite E.
Qed.

(** A step of another thread. *)
Lemma follows_other es s s1 s' : gen_at s1 = gen_at s -> Benchmark.next_time s1 = Benchmark.next_time s ->
  RingSystem.generator (core s1) = RingSystem.generator (core s) ->
  RingSystem.generated (core s1) = RingSystem.generated (core s) -> (gen_stop s = true -> gen_stop s1 = true) ->
  follows es s1 s' -> follows es s s'.
Proof.
  intros Ha Ht Hg Hm Hs Hf. unfold follows, world_of in *. rewrite Ha, Ht, Hg, Hm in Hf.
  destruct (gen_at s); try done.
  - intros stop acc times Hst. apply Hf. auto.
  - intros Hst. apply Hf. auto.
Qed.

(** The test of the outer loop. *)
Lemma follows_test es s s1 s' : exec (M:=M) GenTest s = Some s1 -> follows es s1 s' ->
  follows (Tested (gen_stop s) :: es) s s'.
Proof.
  intros He Hf. destruct (generator_keeps GenTest s s1 He I) as [Hm Hd]. apply exec_core in He as (t & Hc & _ & Hs1).
  simpl in Hc. destruct (gen_at s) eqn:E; try done. injection Hc as <-. unfold follows, turns_of, world_of in *. rewrite E.
  intros stop acc times Hst. cbn [turns_from push_answers omap list_omap].
  destruct (gen_stop s) eqn:Es; rewrite Hs1 in Hf; simpl in Hf; rewrite Hm, Hd in Hf.
  - destruct (Hf Es) as [-> Hst']. eexists. split; [reflexivity|]. exact (Hst' acc times).
  - assert (stop = false) as -> by (destruct stop; [by rewrite Hst|done]). destruct (turns_from es). apply Hf.
Qed.

(** The look at the clock. *)
Lemma follows_look now c1 c2 es s s1 s' : Benchmark.interval s = i -> exec (M:=M) (GenLook now c1 c2) s = Some s1 ->
  follows es s1 s' -> follows (Looked now c1 c2 :: es) s s'.
Proof.
  intros Hi He Hf. apply exec_core in He as (t & Hc & Hr & Hs1). cbn [control inner] in Hc, Hr. simpl in Hc.
  destruct (gen_at s) eqn:E; try done. injection Hc as <-. unfold follows, turns_of, world_of in *. rewrite E.
  intros acc times. cbn [turns_from push_answers omap list_omap]. fold (push_answers es).
  destruct (turns_from es) as [attempts turns]. cbn [fst snd] in *.
  cbn [generation_loop before env_acts mbind option_bind BaseGenerator.stop_requested BaseGenerator.next_time
       BaseGenerator.now].
  destruct (Benchmark.next_time s <=? now) eqn:El; rewrite Hs1 in Hf; simpl in Hf.
  - cbn [run] in Hr. apply bind_Some in Hr as (c & Hr & [= ->]). cbn [RingSystem.exec] in Hr.
    destruct (RingSystem.busy _ _); [done|]. apply bind_Some in Hr as (u & Hu & [= Hu1]). simpl in Hu.
    destruct (RingSystem.pending (core s)); [done|].
    destruct (RandomWalkGenerator.generate_msg_impl c1 (RingSystem.generator (core s))) as [[m g]|] eqn:Eg; [|done].
    injection Hu as <-. rewrite <- Hu1 in Hf. simpl in Hf.
    destruct (Hf acc (times ++ [now]) (stamp_enqueue c2 m)) as (o & Ho & Hst).
    exists o. split; [|exact Hst]. unfold make_msg. simpl. rewrite Eg. simpl. exact Ho.
  - simpl in Hr. injection Hr as Hcore. rewrite <- Hcore in Hf. exact (Hf false acc times ltac:(done)).
Qed.

(** The test of the inner loop. *)
Lemma follows_retry es s s1 s' : Benchmark.interval s = i -> exec (M:=M) GenRetry s = Some s1 ->
  follows es s1 s' -> follows (Retested (gen_stop s) :: es) s s'.
Proof.
  intros Hi He Hf. destruct (generator_keeps GenRetry s s1 He I) as [Hm Hd]. apply exec_core in He as (t & Hc & _ & Hs1).
  simpl in Hc. destruct (gen_at s) eqn:E; try done. unfold follows, turns_of, world_of in *. rewrite E.
  intros acc times m. cbn [turns_from push_answers omap list_omap]. fold (push_answers es).
  destruct (turns_from es) as [attempts turns]. cbn [fst snd] in *.
  destruct (gen_stop s) eqn:Es; injection Hc as <-; rewrite Hs1 in Hf; simpl in Hf; rewrite Hm, Hd in Hf.
  - destruct (Hf true acc times (fun _ => Es)) as (o & Ho & Hst).
    exists o. split; [|exact Hst]. rewrite Hi in Ho. exact Ho.
  - exact (Hf acc times m).
Qed.

(** The return of [push]. *)
Lemma follows_return es s s1 s' : Benchmark.interval s = i -> exec (M:=M) GenReturn s = Some s1 ->
  follows es s1 s' -> follows (gen_event_of GenReturn s ++ es) s s'.
Proof.
  intros Hi He Hf. destruct (generator_keeps GenReturn s s1 He I) as [Hm Hd]. apply exec_core in He as (t & Hc & _ & Hs1).
  simpl in Hc. destruct (gen_at s) eqn:E; try done. destruct (rm_pushing _ _); [done|].
  unfold follows, turns_of, world_of in *. rewrite E. intros acc times m. simpl. fold (push_answers es).
  destruct (turns_from es) as [attempts turns]. cbn [fst snd] in *.
  destruct (RingSystem.pending (core s)); injection Hc as <-; rewrite Hs1 in Hf; simpl in Hf; rewrite Hm, Hd in Hf.
  - exact (Hf acc times m).
  - destruct (Hf false (acc ++ [m]) times ltac:(done)) as (o & Ho & Hst).
    exists o. split; [|exact Hst]. rewrite Hi in Ho. exact Ho.
Qed.
End Generator.

Section Whole.
Context {L : Link} {M : RingMachine MarketDataMsg} {G : Type} `{RandomSource G} (Capacity : Z).
Context `{Hlaws : !RingMachineLaws Capacity M} (config : BenchmarkConfig) (symbols : list (list byte)).
Implicit Types (s : Benchmark.state L M G) (k : Benchmark.label M).
Local Abbreviation the_loop s := (generation_loop RandomWalkGenerator.generate_msg_impl (Benchmark.interval s)).

Lemma interval_step k s s1 : exec k s = Some s1 -> Benchmark.interval s1 = Benchmark.interval s.
Proof.
  intros He. unfold Benchmark.interval. f_equal.
  apply (inner_inv (fun c => RandomWalkGenerator.base (RingSystem.generator c) =
    RandomWalkGenerator.base (RingSystem.generator (core s))) k s s1 He); [done|].
  intros c c' x _ Hx <-. destruct (touches_generated x) eqn:Et.
  - destruct x as [| |[c1 c2| | | | | | | |]]; try done. cbn [RingSystem.exec] in Hx.
    destruct (RingSystem.busy _ _); [done|]. apply bind_Some in Hx as (u & Hu & [= <-]). simpl in *.
    destruct (RingSystem.pending c); [done|].
    destruct (RandomWalkGenerator.generate_msg_impl c1 _) as [[m g]|] eqn:Eg; [|done].
    injection Hu as <-. simpl. by apply generate_keeps_base in Eg.
  - by destruct (proj1 (system_keeps x c c' Hx) Et) as [_ ->].
Qed.

(** The main thread starts the generator once. *)
Lemma elsewhere_step k s s1 : sound config symbols s -> of_generator k = false -> exec k s = Some s1 ->
  Benchmark.next_time s1 = Benchmark.next_time s /\ (gen_stop s = true -> gen_stop s1 = true) /\
  (gen_at s1 = gen_at s \/ gen_at s = GNotStarted /\ gen_at s1 = GBegin).
Proof.
  intros Hs Hk He. apply exec_core in He as (t & Hc & _ & ->). destruct k; try done; simpl in *.
  - unfold main_does in Hc. destruct (todo s) as [|a rest] eqn:Et; [done|].
    pose proof (so_todo _ _ _ Hs) as Hp. rewrite Et in Hp. apply todo_position in Hp.
    destruct a; step_cases; simpl; split_and!; auto. right. split; [|done].
    apply (so_generator _ _ _ Hs). rewrite Et. simpl in *. lia.
  - by step_cases; auto.
  - by step_cases; auto.
  - step_cases; auto.
  - unfold recv_does in Hc. by step_cases; auto.
  - unfold recv_does in Hc. by step_cases; auto.
  - unfold recv_does in Hc. by step_cases; auto.
  - unfold recv_does in Hc. by step_cases; auto.
  - step_cases; auto.
Qed.

Lemma follows_step k es s s1 s' : sound config symbols s -> exec k s = Some s1 ->
  follows (Benchmark.interval s) es s1 s' -> follows (Benchmark.interval s) (gen_event_of k s ++ es) s s'.
Proof using Hlaws.
  intros Hs He Hf. destruct (of_generator k) eqn:Hk.
  - destruct k; try done.
    + apply exec_core in He as (t & Hc & _). simpl in Hc. unfold follows. by destruct (gen_at s).
    + by eapply follows_test.
    + by eapply follows_look.
    + by eapply follows_retry.
    + by eapply follows_return.
  - destruct (elsewhere_step k s s1 Hs Hk He) as (Ht & Hst & [Ha|[Ha _]]); [|unfold follows; by rewrite Ha].
    destruct (generator_keeps k s s1 He) as [Hm Hd]; [by destruct k|].
    assert (gen_event_of k s = []) as -> by (by destruct k). by eapply follows_other.
Qed.

Lemma follows_run ls s s' : sound config symbols s -> run exec ls s = Some s' ->
  follows (Benchmark.interval s) (gen_events ls s) s s'.
Proof using Hlaws.
  revert s; induction ls as [|k ls IH]; intros s Hs; cbn [run gen_events]; [intros [= <-]; apply follows_refl|].
  intros (s1 & He & Hr)%bind_Some. pose proof (interval_step k s s1 He) as Hi. rewrite He.
  apply (follows_step k _ s s1 s' Hs He). rewrite <- Hi. apply IH; [by eapply sound_step|done].
Qed.

(** The clock reading with which the loop begins. *)
Definition begin_of (k : Benchmark.label M) : option Z := match k with GenBegin t0 => Some t0 | _ => None end.

(** Before the loop: its first reading of the clock. *)
Lemma follows_begin ls s s' : sound config symbols s -> gen_at s = GNotStarted \/ gen_at s = GBegin ->
  run exec ls s = Some s' -> gen_at s' <> GNotStarted -> gen_at s' <> GBegin ->
  exists t0 o, head (omap begin_of ls) = Some t0 /\
    the_loop s (turns_of (gen_events ls s)) (World (Answers (push_answers (gen_events ls s))) false
      (RingSystem.generator (core s)) t0 (RingSystem.generated (core s)) [] []) = Some o /\
    stands s' o.
Proof using Hlaws.
  intros Hs Ha Hr Hn Hb. revert s Hs Ha Hr; induction ls as [|k ls IH]; intros s Hs Ha; cbn [run].
  { intros [= <-]. by destruct Ha. }
  intros (s1 & He & Hr)%bind_Some. pose proof (interval_step k s s1 He) as Hi.
  assert (Hs1 : sound config symbols s1) by (by eapply sound_step).
  destruct (generator_keeps k s s1 He) as [Hm Hd]; [destruct k; try done; by destruct Ha as [-> | ->]|].
  assert (Hk : (exists t0, k = GenBegin t0 /\ gen_at s1 = GTest /\ Benchmark.next_time s1 = t0) \/
               (of_generator k = false /\ (gen_at s1 = GNotStarted \/ gen_at s1 = GBegin))).
  { destruct (of_generator k) eqn:Ek;
      [left|right; split; [done|]; destruct (elsewhere_step k s s1 Hs Ek He) as (_ & _ & [->|[_ ?]]); auto].
    apply exec_core in He as (t & Hc & _ & ->). destruct k as [| |t0| | | | | | | | | | |]; try done; simpl in Hc;
      destruct Ha as [Ha|Ha]; rewrite Ha in Hc; try done. injection Hc as <-. by exists t0. }
  cbn [gen_events]. rewrite He. destruct Hk as [(t0 & -> & Ha1 & Ht)|[Hk Ha1]].
  - pose proof (follows_run ls s1 s' Hs1 Hr) as Hf. unfold follows in Hf. rewrite Ha1 in Hf.
    destruct (Hf false [] [] ltac:(done)) as (o & Ho & Hst). exists t0, o. split; [done|].
    unfold world_of in Ho. rewrite Hi, Hm, Hd, Ht in Ho. by split.
  - destruct (IH s1 Hs1 Ha1 Hr) as (t0 & o & Hin & Ho & Hst). exists t0, o.
    assert (gen_event_of k s = []) as -> by (by destruct k).
    split; [by destruct k|]. rewrite Hi, Hm, Hd in Ho. by split.
Qed.
End Whole.

(** * Properties *)

(** C16: the generator's thread runs [generation_loop]. In every run of the pipeline,
    whatever the other threads do between its steps, the state of its generator, its
    deadline, the messages it has made and the place it has come to are those of the
    loop, from its first reading of the clock and with the rate that was configured,
    over the turns that its own steps make up: each test of the token sees whether
    stop has been requested by then, the clock is read as the thread read it, and
    each call of [push] answers what it answered the thread. The thread has ended
    exactly if the loop has, and then stop has been requested. *)
Theorem generator_runs_generation_loop {L : Link} `{LinkLaws L} {G : Type} `{RandomSource G} (Capacity : Z)
    (M : RingMachine MarketDataMsg) `{!RingMachineLaws Capacity M} (config : BenchmarkConfig)
    (file : option (list byte)) (rng : G) (m0 : MarketDataMsg) (stack : list byte) (d : disseminator L) (h : handler L)
    (ls : list (Benchmark.label M)) (s0 s : Benchmark.state L M G) :
  launchable config file stack d h -> launch config file rng m0 stack d h = inr s0 -> run exec ls s0 = Some s ->
  gen_at s <> GNotStarted -> gen_at s <> GBegin ->
  exists (t0 : Z) o, head (omap begin_of ls) = Some t0 /\
    generation_loop RandomWalkGenerator.generate_msg_impl (1000000000 / message_rate config) (turns_of (gen_events ls s0))
      (BaseGenerator.loop_start (Answers (push_answers (gen_events ls s0))) (RingSystem.generator (core s0)) t0) = Some o /\
    stands s o.
Proof.
  intros Hla Hl Hr Hn Hb. destruct (launch_interval _ _ _ _ _ _ _ s0 Hla Hl) as (g & -> & Hi).
  pose proof (sound_start (Capacity:=Capacity) config (SymbolsFile.read_symbols_file file) g m0 stack d h) as Hs.
  destruct (follows_begin Capacity config _ ls _ s Hs (or_introl eq_refl) Hr Hn Hb) as (t0 & o & Hin & Ho & Hst).
  exists t0, o. rewrite <- Hi. by split_and!.
Qed.

(** Two messages are made and pushed at the first attempt; then the token is seen. *)
Example demo_generator_turns :
  let es := gen_events (demo_preparing ++ demo_benchmark) demo_benchmark_start in
  turns_of es = [Turn [] 10 10 11 [Attempt [] []]; Turn [] 100010 100010 100011 [Attempt [] []];
                 Turn [EnvStop] 0 0 0 []] /\
  push_answers es = [true; true].
Proof. vm_compute. split; reflexivity. Qed.

Lemma generator_runs_generation_loop_witness :
  exists (t0 : Z) o, head (omap begin_of (demo_preparing ++ demo_benchmark)) = Some t0 /\
    generation_loop RandomWalkGenerator.generate_msg_impl (1000000000 / 10000)
      (turns_of (gen_events (demo_preparing ++ demo_benchmark) demo_benchmark_start))
      (BaseGenerator.loop_start (Answers (push_answers (gen_events (demo_preparing ++ demo_benchmark) demo_benchmark_start)))
         (RingSystem.generator (core demo_benchmark_start)) t0) = Some o /\
    stands demo_benchmark_end o.
Proof.
  apply (generator_runs_generation_loop (L:=Udp) 2 (SpinRing.machine MarketDataMsg 2) demo_config (Some demo_tickers)
           (RandomWalkGenerator.rng_ demo_generator) (QuoteMsg Quote.zero) demo_topic_stack demo_udp
           (udp_fresh (replicate 1024 xcc) (Cmd true 0)) (demo_preparing ++ demo_benchmark) demo_benchmark_start
           demo_benchmark_end).
  - exact demo_launchable.
  - exact (demo_launch _).
  - rewrite run_app, demo_preparing_run. exact demo_benchmark_run.
  - vm_compute. discriminate.
  - vm_compute. discriminate.
Defined.
