(* ===== verification/BenchmarkReceiver.v ===== *)
(** The receiver's thread of [Benchmark.v], over UDP, runs [receive_loop_impl] of
    [UdpFeedHandler.v]: what it does step by step beside the other threads is what the
    loop does in turns, for the datagrams that arrived. *)

From S2P Require Import Prelude Types QueueConcepts CustomSpscQueue SpscConcurrency RingMachine WaitableRing SpinRing Threads BaseGenerator RandomWalkGenerator Calls Disseminator UdpFeedHandler ZmqFeedHandler LatencyMonitor Main Wire Links Channel System RingSystem Reports Benchmark BenchmarkReport.
From stdpp Require Import options.
Import Benchmark.

(** What a receive brings, and the clock reading of its callback. *)
Definition receipt : Type := UdpFeedHandler.recv_result * Z.

Section Receiver.
Context {M : RingMachine MarketDataMsg} {G : Type} `{RandomSource G}.
Implicit Types (s : Benchmark.state Udp M G) (l : Benchmark.label M).
Local Abbreviation loop_world := (UdpFeedHandler.world LatencyMonitor.t).
Local Abbreviation loop_outcome := (UdpFeedHandler.outcome LatencyMonitor.t).
Local Abbreviation the_loop := (UdpFeedHandler.receive_loop_impl monitor_callbacks).
Local Abbreviation env_acts := (UdpFeedHandler.env_acts (C:=LatencyMonitor.t)).
Local Abbreviation socket s := (RingSystem.subscriber (core s)).

(** The receives in a run. *)
Definition receipt_of l s : list receipt :=
  match l with
  | RecvParcel i _ clock =>
      match RingSystem.wire (core s) !! i with Some d => [(UdpFeedHandler.Received d, clock)] | None => [] end
  | RecvNothing clock => [(UdpFeedHandler.RecvFailed true, clock)]
  | _ => []
  end.

Fixpoint receipts (ls : list (Benchmark.label M)) s : list receipt :=
  match ls with
  | [] => []
  | l :: ls' => receipt_of l s ++ match exec l s with Some s' => receipts ls' s' | None => [] end
  end.

Definition turn_receipt (t : UdpFeedHandler.turn) : receipt := (UdpFeedHandler.recv t, UdpFeedHandler.clock t).

(** The turns receive [R]; the last one may not have come to its receive. *)
Definition received_by (R turns : list receipt) : Prop := turns = R \/ exists r, turns = R ++ [r].

Lemma received_by_cons r R turns : received_by R turns -> received_by (r :: R) (r :: turns).
Proof using Type. intros [->|[x ->]]; [by left|right]. by exists x. Qed.

(** What [receive_loop_impl] works on when the thread is as in [s]; [acc] lists the
    commands that were accepted. *)
Definition receiver_world s (acc : list SubCommand) : loop_world :=
  UdpFeedHandler.World (command_queue_ (socket s)) (receiver_stop s) (buffer (socket s))
    (local_subscriptions_ (socket s)) (RingSystem.client (core s)) acc.

(** The loop has come as far as the thread, up to what other threads have done since
    its last look at what they share. *)
Definition receiver_stands s (o : loop_outcome) : Prop := exists es acc w,
  env_acts es w = Some (receiver_world s acc) /\
  match recv_at s with
  | RNotStarted => False
  | RTest => o = UdpFeedHandler.Looping w
  | RBody => o = UdpFeedHandler.InDrain w
  | RExited => o = UdpFeedHandler.Exited w /\ UdpFeedHandler.stop_requested w = true
  end.

(** The rest of the loop's body after the commands. *)
Definition after_receipt (r : receipt) (w : loop_world) : loop_world :=
  let '(n, buf) := UdpFeedHandler.recvfrom r.1 (UdpFeedHandler.buffer w) in
  UdpFeedHandler.World (UdpFeedHandler.queue w) (UdpFeedHandler.stop_requested w) buf
    (UdpFeedHandler.local_subscriptions_ w)
    (if n <? 0 then UdpFeedHandler.client w
     else UdpFeedHandler.on_datagram monitor_callbacks r.2 n buf (UdpFeedHandler.local_subscriptions_ w)
            (UdpFeedHandler.client w)) (UdpFeedHandler.accepted w).

Definition after_drain (r : receipt) (turns : list UdpFeedHandler.turn) (cmd : SubCommand)
    (d : UdpFeedHandler.drain_outcome LatencyMonitor.t) : option loop_outcome :=
  match d with
  | UdpFeedHandler.Draining w => Some (UdpFeedHandler.InDrain w)
  | UdpFeedHandler.Drained w => the_loop turns cmd (after_receipt r w)
  end.

Lemma loop_turn es ps r turns cmd w w1 : env_acts es w = Some w1 -> UdpFeedHandler.stop_requested w1 = false ->
  the_loop (UdpFeedHandler.Turn es ps r.1 r.2 :: turns) cmd w =
  (d ← UdpFeedHandler.drain ps cmd w1; after_drain r turns cmd d).
Proof.
  intros He Hs. cbn [UdpFeedHandler.receive_loop_impl UdpFeedHandler.before_test UdpFeedHandler.polls]. rewrite He.
  cbn [mbind option_bind]. rewrite Hs. destruct (UdpFeedHandler.drain ps cmd w1) as [[w2|w2]|]; [|done..].
  cbn [mbind option_bind after_drain UdpFeedHandler.recv UdpFeedHandler.clock]. unfold after_receipt.
  by destruct (UdpFeedHandler.recvfrom r.1 (UdpFeedHandler.buffer w2)).
Qed.

(** From where the thread is in [s], receiving [R], the loop can come to where it is in
    [s']; [w] is what it saw at its last look. *)
Definition receiver_follows (R : list receipt) s s' : Prop := forall es acc w cmd,
  env_acts es w = Some (receiver_world s acc) ->
  match recv_at s with
  | RNotStarted | RTest => recv_at s' <> RNotStarted -> exists turns o,
      the_loop turns cmd w = Some o /\ receiver_stands s' o /\ received_by R (turn_receipt <$> turns)
  | RBody =>
      if Links.drained (socket s)
      then R = [] /\ receiver_stands s' (UdpFeedHandler.InDrain w) \/
        exists r turns o, the_loop turns cmd (after_receipt r w) = Some o /\ receiver_stands s' o /\
          received_by R (r :: (turn_receipt <$> turns))
      else exists ps r turns o, (forall c, (d ← UdpFeedHandler.drain ps c w; after_drain r turns cmd d) = Some o) /\
          receiver_stands s' o /\ received_by R (r :: (turn_receipt <$> turns))
  | RExited => UdpFeedHandler.stop_requested w = true -> R = [] /\ receiver_stands s' (UdpFeedHandler.Exited w)
  end.

Lemma receiver_follows_refl s : receiver_follows [] s s.
Proof.
  intros es acc w cmd Hw. assert (Hst : forall o, match recv_at s with
    | RNotStarted => False | RTest => o = UdpFeedHandler.Looping w | RBody => o = UdpFeedHandler.InDrain w
    | RExited => o = UdpFeedHandler.Exited w /\ UdpFeedHandler.stop_requested w = true end -> receiver_stands s o)
    by (intros o Ho; by exists es, acc, w).
  destruct (recv_at s) eqn:E; [done|..].
  - intros _. exists [], (UdpFeedHandler.Looping w). split_and!; [done|auto|by left].
  - destruct (Links.drained (socket s)); [left; auto|].
    exists [], (UdpFeedHandler.RecvFailed true, 0), [], (UdpFeedHandler.InDrain w). split_and!; [done|auto|by right; eexists].
  - intros Hs. auto.
Qed.

Lemma env_acts_app es es' w w1 : env_acts es w = Some w1 -> env_acts (es ++ es') w = env_acts es' w1.
Proof.
  revert w; induction es as [|e es IH]; intros w; cbn [UdpFeedHandler.env_acts app]; [by intros [= ->]|].
  intros (w2 & -> & Hr)%bind_Some. cbn [mbind option_bind]. by apply IH.
Qed.

Lemma in_drain_before s' es w w1 : env_acts es w = Some w1 -> receiver_stands s' (UdpFeedHandler.InDrain w1) ->
  receiver_stands s' (UdpFeedHandler.InDrain w).
Proof.
  intros He (es' & acc & w2 & He' & Ho). exists (es ++ es'), acc, w. destruct (recv_at s') eqn:E; try done.
  - injection Ho as <-. split; [by rewrite (env_acts_app es es' w w1)|done].
  - by destruct Ho.
Qed.

(** What other threads do does not meddle with what is received. *)
Lemma env_acts_after r es w w1 : env_acts es w = Some w1 -> env_acts es (after_receipt r w) = Some (after_receipt r w1).
Proof.
  revert w; induction es as [|e es IH]; intros w; cbn [UdpFeedHandler.env_acts]; [by intros [= ->]|].
  intros (w2 & He & Hr)%bind_Some.
  assert (Ha : UdpFeedHandler.env_act e (after_receipt r w) = Some (after_receipt r w2)).
  { unfold after_receipt. destruct e; simpl in *;
      destruct (UdpFeedHandler.recvfrom r.1 (UdpFeedHandler.buffer w)) as [n buf] eqn:Er;
      simpl; [apply bind_Some in He as ([b q] & -> & [= <-])..|injection He as <-]; simpl; by rewrite Er. }
  rewrite Ha. cbn [mbind option_bind]. by apply IH.
Qed.

(** ** One step *)

(** The test of the token. *)
Lemma receiver_follows_test R s s1 s' : exec (M:=M) RecvTest s = Some s1 -> Links.drained (socket s) = false ->
  receiver_follows R s1 s' -> receiver_follows R s s'.
Proof.
  intros He Hd Hf es acc w cmd Hw. apply exec_core in He as (t & Hc & Hr & Hs1). cbn [control inner] in Hc, Hr.
  injection Hr as Hr. unfold recv_does in Hc. destruct (recv_at s) eqn:E; try done. injection Hc as <-. intros _.
  assert (Hw1 : receiver_world s1 acc = receiver_world s acc) by (unfold receiver_world; by rewrite Hs1, <- Hr).
  specialize (Hf [] acc (receiver_world s acc) cmd (f_equal Some (eq_sym Hw1))).
  destruct (receiver_stop s) eqn:Es.
  - assert (Ha1 : recv_at s1 = RExited) by (by rewrite Hs1). rewrite Ha1 in Hf. destruct (Hf Es) as [-> Hst].
    exists [UdpFeedHandler.Turn es [] (UdpFeedHandler.RecvFailed true) 0]. eexists.
    split_and!; [|exact Hst|by right; eexists].
    cbn [UdpFeedHandler.receive_loop_impl UdpFeedHandler.before_test]. rewrite Hw. cbn [mbind option_bind].
    simpl. by rewrite Es.
  - assert (Ha1 : recv_at s1 = RBody) by (by rewrite Hs1).
    assert (Hd1 : Links.drained (socket s1) = false) by (by rewrite <- Hr). rewrite Ha1, Hd1 in Hf.
    destruct Hf as (ps & r & turns & o & Ho & Hst & Hpre).
    exists (UdpFeedHandler.Turn es ps r.1 r.2 :: turns), o. split_and!; [|done|by destruct r].
    by rewrite (loop_turn es ps r turns cmd w (receiver_world s acc)).
Qed.

(** A look at the command queue. *)
Lemma poll_seen s s1 : exec (M:=M) RecvPoll s = Some s1 ->
  recv_at s = RBody /\ recv_at s1 = RBody /\ receiver_stop s1 = receiver_stop s /\
  RingSystem.client (core s1) = RingSystem.client (core s) /\ udp_poll (socket s) = Some (socket s1).
Proof.
  intros (t & Hc & Hr & Hs1)%exec_core. cbn [control inner] in Hc, Hr. unfold recv_does in Hc.
  destruct (recv_at s) eqn:E; try done. injection Hc as <-. rewrite run_one in Hr.
  cbn [RingSystem.exec RingSystem.busy System.exec] in Hr. apply bind_Some in Hr as (u & Hu & Hr).
  apply bind_Some in Hu as (h' & Hp & [= <-]). injection Hr as Hr. split_and!; [done|by rewrite Hs1..|by rewrite <- Hr|].
  rewrite <- Hr. exact Hp.
Qed.

(** Seeing none, it leaves the queue as it is. *)
Lemma pop_nothing (x y : SubCommand) (q q' : UdpFeedHandler.commands) :
  CustomSpscQueue.pop x q = Some (false, y, q') -> q' = q.
Proof. unfold CustomSpscQueue.pop. by repeat case_match; intros [=]. Qed.

Lemma receiver_follows_poll R s s1 s' : exec (M:=M) RecvPoll s = Some s1 ->
  receiver_follows R s1 s' -> receiver_follows R s s'.
Proof.
  intros He Hf es acc w cm Hw. destruct (poll_seen s s1 He) as (Ha & Ha1 & Hst1 & Hcl1 & Hp). rewrite Ha.
  unfold udp_poll in Hp. destruct (Links.drained (socket s)); [done|].
  apply bind_Some in Hp as ([[b c1] q] & Hpop & [= Hh1]).
  set (w1 := receiver_world s acc) in *.
  assert (Hdrain : forall ps c, UdpFeedHandler.drain (es :: ps) c w =
    if b then UdpFeedHandler.drain ps c1 (receiver_world s1 acc) else Some (UdpFeedHandler.Drained (receiver_world s1 acc))).
  { intros ps c. cbn [UdpFeedHandler.drain]. rewrite Hw. cbn [mbind option_bind].
    rewrite (pop_item_irrelevant _ c _ _ _ _ Hpop : CustomSpscQueue.pop c (UdpFeedHandler.queue w1) = _).
    cbn [mbind option_bind]. unfold receiver_world. rewrite <- Hh1, Hst1, Hcl1. by destruct b. }
  specialize (Hf [] acc (receiver_world s1 acc) cm eq_refl). rewrite Ha1, <- Hh1 in Hf. destruct b; simpl in Hf.
  - destruct Hf as (ps & r & turns & o & Ho & Hrest). exists (es :: ps), r, turns, o. split; [|done].
    intros c. rewrite Hdrain. apply Ho.
  - destruct Hf as [[-> Hst]|(r & turns & o & Ho & Hrest)].
    + exists [], (UdpFeedHandler.RecvFailed true, 0), []. eexists. split_and!; [reflexivity| |by right; eexists].
      eapply in_drain_before; [exact Hw|]. apply pop_nothing in Hpop as ->.
      assert (receiver_world s1 acc = w1) as <-; [|done]. unfold w1, receiver_world. by rewrite <- Hh1, Hst1, Hcl1.
    + exists [es], r, turns, o. split; [|done]. intros c. rewrite Hdrain. exact Ho.
Qed.

(** A receive. *)
Lemma udp_receive_seen clock r h c h' c' st acc : udp_receive monitor_callbacks clock r h c = Some (h', c') ->
  Links.drained h = true /\ Links.drained h' = false /\
  UdpFeedHandler.World (command_queue_ h') st (buffer h') (local_subscriptions_ h') c' acc =
    after_receipt (r, clock) (UdpFeedHandler.World (command_queue_ h) st (buffer h) (local_subscriptions_ h) c acc).
Proof.
  unfold udp_receive, after_receipt. destruct (Links.drained h); [|done]. simpl.
  destruct (UdpFeedHandler.recvfrom r (buffer h)) as [n buf]. by intros [= <- <-].
Qed.

Lemma receive_seen l s s1 : exec (M:=M) l s = Some s1 ->
  match l with RecvParcel _ _ _ | RecvNothing _ => True | _ => False end ->
  recv_at s = RBody /\ recv_at s1 = RTest /\
  exists r, receipt_of l s = [r] /\ Links.drained (socket s) = true /\ Links.drained (socket s1) = false /\
    forall acc, receiver_world s1 acc = after_receipt r (receiver_world s acc).
Proof.
  intros (t & Hc & Hr & Hs1)%exec_core Hl.
  assert (Hat : recv_at s = RBody /\ recv_at s1 = RTest /\ receiver_stop s1 = receiver_stop s).
  { rewrite Hs1. destruct l; try done; cbn [control] in Hc; unfold recv_does in Hc; by step_cases. }
  destruct Hat as (Ha & Ha1 & Hst). split_and!; [done..|]. unfold receiver_world. rewrite Hst. clear Hc Hs1 Ha1 Hst.
  destruct l as [| | | | | | | | | | |i dup clock|clock|]; try done; cbn [inner] in Hr; rewrite run_one in Hr;
    cbn [RingSystem.exec RingSystem.busy System.exec] in Hr; apply bind_Some in Hr as (u & Hu & Hr); injection Hr as Hr.
  - apply bind_Some in Hu as (d & Hd & Hu). apply bind_Some in Hu as ([h c] & Hrec & [= <-]).
    assert (receipt_of (RecvParcel i dup clock) s = [(UdpFeedHandler.Received d, clock)]) as ->
      by (cbn [receipt_of parcel Udp]; simpl in Hd; by rewrite Hd).
    eexists. split; [done|]. rewrite <- Hr.
    split_and!; [apply (udp_receive_seen _ _ _ _ _ _ false [] Hrec)..|]. intros acc. by apply udp_receive_seen.
  - apply bind_Some in Hu as ([h c] & Hrec & [= <-]). eexists. split; [done|]. rewrite <- Hr.
    split_and!; [apply (udp_receive_seen _ _ _ _ _ _ false [] Hrec)..|]. intros acc. by apply udp_receive_seen.
Qed.

Lemma receiver_follows_receive R l s s1 s' : exec (M:=M) l s = Some s1 ->
  match l with RecvParcel _ _ _ | RecvNothing _ => True | _ => False end -> recv_at s' <> RNotStarted ->
  receiver_follows R s1 s' -> receiver_follows (receipt_of l s ++ R) s s'.
Proof.
  intros He Hl Hn Hf es acc w cm Hw. destruct (receive_seen l s s1 He Hl) as (Ha & Ha1 & r & Hrec & Hd & Hd1 & Hw1).
  rewrite Ha, Hd, Hrec. right.
  assert (Hes : env_acts es (after_receipt r w) = Some (receiver_world s1 acc)) by (rewrite Hw1; by apply env_acts_after).
  specialize (Hf es acc _ cm Hes). rewrite Ha1 in Hf. destruct (Hf Hn) as (turns & o & Ho & Hst & Hpre).
  exists r, turns, o. split_and!; [done..|]. by apply received_by_cons.
Qed.
(** A step of another thread. *)
Lemma receiver_follows_other R s s1 s' :
  recv_at s1 = recv_at s \/ recv_at s = RNotStarted /\ recv_at s1 = RTest ->
  Links.drained (socket s1) = Links.drained (socket s) ->
  (forall acc, exists es acc', env_acts es (receiver_world s acc) = Some (receiver_world s1 acc')) ->
  recv_at s' <> RNotStarted -> receiver_follows R s1 s' -> receiver_follows R s s'.
Proof.
  intros Ha Hd Hev Hn Hf es acc w cm Hw. destruct (Hev acc) as (es1 & acc1 & He1).
  rewrite <- (env_acts_app es es1 w _ Hw) in He1. specialize (Hf (es ++ es1) acc1 w cm He1). rewrite Hd in Hf.
  destruct Ha as [<-|[Ha Ha1]]; [exact Hf|]. rewrite Ha1 in Hf. by rewrite Ha.
Qed.
End Receiver.

Section Whole.
Context {M : RingMachine MarketDataMsg} {G : Type} `{RandomSource G} (Capacity : Z).
Context `{Hlaws : !RingMachineLaws Capacity M} (config : BenchmarkConfig) (symbols : list (list byte)).
Implicit Types (s : Benchmark.state Udp M G) (l : Benchmark.label M).
Local Abbreviation socket s := (RingSystem.subscriber (core s)).

(** The main thread starts the receiver once; outside the loop's body the next turn
    has not begun. *)
Record in_turn s : Prop := {
  it_sound : sound config symbols s;
  it_start : (10 + length symbols <= length (todo s))%nat -> recv_at s = RNotStarted;
  it_drained : recv_at s <> RBody -> Links.drained (socket s) = false;
}.

(** What the main thread does is an event of the loop. *)
Lemma main_seen s s1 : in_turn s -> exec MainDoes s = Some s1 ->
  (recv_at s1 = recv_at s \/ recv_at s = RNotStarted /\ recv_at s1 = RTest) /\
  Links.drained (socket s1) = Links.drained (socket s) /\
  ((10 + length symbols <= length (todo s1))%nat -> (10 + length symbols <= length (todo s))%nat /\ recv_at s1 = recv_at s) /\
  forall acc, exists es acc', UdpFeedHandler.env_acts es (receiver_world s acc) = Some (receiver_world s1 acc').
Proof.
  intros [Hs Hst _] (t & Hc & Hr & Hs1)%exec_core. cbn [control inner] in Hc, Hr. unfold main_does in Hc.
  destruct (todo s) as [|a rest] eqn:Et; [done|]. pose proof (so_todo _ _ _ Hs) as Hp. rewrite Et in Hp.
  apply todo_position in Hp. simpl in Hst.
  assert (Hquiet : match a with Main.Subscribe _ _ => False | _ => True end -> core s1 = core s)
    by (destruct a; try done; simpl in Hr; congruence).
  assert (Hnone : receiver_stop s1 = receiver_stop s -> core s1 = core s ->
    forall acc, exists es acc', UdpFeedHandler.env_acts es (receiver_world s acc) = Some (receiver_world s1 acc')).
  { intros Hrs Hcs acc. exists [], acc. unfold receiver_world. by rewrite Hrs, Hcs. }
  assert (Hor : (exists sym b, a = Main.Subscribe sym b) \/ core s1 = core s) by (destruct a; eauto).
  destruct Hor as [(sym & b & ->)|Hcs].
  - injection Hc as <-. rewrite run_one in Hr. cbn [RingSystem.exec RingSystem.busy System.exec] in Hr.
    apply bind_Some in Hr as (u & Hu & Hr). apply bind_Some in Hu as (h' & Hsub & [= <-]). injection Hr as Hr.
    unfold subscribe in Hsub. simpl in Hsub. apply bind_Some in Hsub as ([ok q] & Hq & [= <-]).
    assert (Hh : socket s1 = set_commands q (socket s)) by (by rewrite <- Hr).
    assert (Ha1 : recv_at s1 = recv_at s) by (by rewrite Hs1).
    rewrite Hh. split_and!; [by left|done|intros Hle; rewrite Hs1 in Hle; simpl in *; split; [lia|done]|]. intros acc.
    exists [UdpFeedHandler.Subscribe sym]. eexists. unfold receiver_world. simpl. rewrite Hq. cbn [mbind option_bind].
    unfold UdpFeedHandler.set_queue. simpl. rewrite Hh. assert (receiver_stop s1 = receiver_stop s) as -> by (by rewrite Hs1).
    assert (RingSystem.client (core s1) = RingSystem.client (core s)) as -> by (by rewrite <- Hr). reflexivity.
  - assert (Hfl : recv_at s1 = recv_at t /\ receiver_stop s1 = receiver_stop t /\ todo s1 = todo t) by (by rewrite Hs1).
    destruct Hfl as (Hra & Hrs & Hto). rewrite Hra, Hto. split_and!; [|by rewrite Hcs|..].
    + destruct a; step_cases; simpl in *; auto. right. split; [apply Hst; lia|done].
    + intros Hle. destruct a; step_cases; simpl in *; rewrite ?Et in Hle; simpl in *; (split; [lia|done || lia]).
    + destruct (decide (receiver_stop s1 = receiver_stop s)) as [E|E]; [by apply Hnone|]. intros acc.
      exists [UdpFeedHandler.RequestStop], acc. unfold receiver_world. simpl. rewrite Hcs.
      assert (receiver_stop s1 = true) as ->; [|done]. rewrite Hrs in *. by destruct a; step_cases.
Qed.

Lemma in_turn_step l s s1 : in_turn s -> exec l s = Some s1 -> in_turn s1.
Proof using Hlaws.
  intros Hin He. pose proof Hin as [Hs Hst Hdr].
  pose proof (sound_step config symbols (Capacity:=Capacity) l s s1 Hs He) as Hs1.
  assert (Hl : l = MainDoes \/ l <> MainDoes) by (destruct l; (by left) || (by right)). destruct Hl as [->|Hl].
  { destruct (main_seen s s1 Hin He) as (Ha & Hd & Hle & _). split; [done| |].
    - intros Hx. destruct (Hle Hx) as [Hx' ->]. auto.
    - intros Hb. rewrite Hd. apply Hdr. intros E. destruct Ha as [Ha|[Ha _]]; congruence. }
  destruct (other_threads l s s1 Hl He) as (Ht & _). split; [done|rewrite Ht|]; destruct (of_receiver l) eqn:Hr.
  - intros Hx. apply exec_core in He as (t & Hc & _). specialize (Hst Hx). destruct l; try done; cbn [control] in Hc;
      unfold recv_does in Hc; by rewrite Hst in Hc.
  - intros Hx. destruct (receiver_untouched l s s1 He Hl Hr) as (-> & _). auto.
  - intros Hb. destruct l as [| | | | | | | | |  | |i dup c|c|]; try done.
    + pose proof (exec_core _ _ _ He) as (t & Hc & Hrun & Hs1'). cbn [control inner] in Hc, Hrun. injection Hrun as <-.
      unfold recv_does in Hc. apply Hdr. intros E. by rewrite E in Hc.
    + by apply poll_seen in He as (_ & ? & _).
    + by destruct (receive_seen _ s s1 He I) as (_ & _ & r & _ & _ & ? & _).
    + by destruct (receive_seen _ s s1 He I) as (_ & _ & r & _ & _ & ? & _).
  - destruct (receiver_untouched l s s1 He Hl Hr) as (-> & _ & -> & _). auto.
Qed.

Lemma receiver_follows_step R l s s1 s' : in_turn s -> exec l s = Some s1 -> recv_at s' <> RNotStarted ->
  receiver_follows R s1 s' -> receiver_follows (receipt_of l s ++ R) s s'.
Proof using Hlaws.
  intros Hin He Hn Hf. destruct (of_receiver l) eqn:Hr.
  - destruct l as [| | | | | | | | | | |i dup c|c|]; try done.
    + apply (receiver_follows_test R s s1 s' He); [|done]. apply Hin. apply exec_core in He as (t & Hc & _).
      cbn [control] in Hc. unfold recv_does in Hc. intros E. by rewrite E in Hc.
    + by apply (receiver_follows_poll R s s1 s' He).
    + by apply (receiver_follows_receive R _ s s1 s' He).
    + by apply (receiver_follows_receive R _ s s1 s' He).
  - assert (receipt_of l s = []) as -> by (by destruct l). cbn [app].
    assert (Hl : l = MainDoes \/ l <> MainDoes) by (destruct l; (by left) || (by right)). destruct Hl as [->|Hl].
    + destruct (main_seen s s1 Hin He) as (Ha & Hd & _ & Hev). by apply (receiver_follows_other R s s1 s').
    + destruct (receiver_untouched l s s1 He Hl Hr) as (Ha & Hst & Hsub & Hcl).
      apply (receiver_follows_other R s s1 s'); [by left|by rewrite Hsub| |done..].
      intros acc. exists [], acc. unfold receiver_world. by rewrite Hst, Hsub, Hcl.
Qed.

Lemma receiver_follows_run ls s s' : in_turn s -> run exec ls s = Some s' -> recv_at s' <> RNotStarted ->
  receiver_follows (receipts ls s) s s'.
Proof using Hlaws.
  revert s; induction ls as [|l ls IH]; intros s Hin; cbn [run receipts]; [intros [= <-] _; apply receiver_follows_refl|].
  intros (s1 & He & Hr)%bind_Some Hn. rewrite He. apply (receiver_follows_step _ l s s1 s' Hin He Hn).
  apply IH; [by eapply in_turn_step|done..].
Qed.
End Whole.

(** * Properties *)

(** C18: the receiver's thread runs [receive_loop_impl]. In every run of the pipeline
    over UDP, whatever the other threads and the network do between its steps, the
    commands that wait, the subscriptions, the buffer, what the monitor was shown and
    the place the thread has come to are those of the loop over the turns it has taken,
    up to what other threads have done since its last look; the turns receive exactly
    what the run delivers, in order, but for a last one that has not come to its
    receive; and the thread has ended exactly if the loop has. *)
Theorem receiver_runs_receive_loop {G : Type} `{RandomSource G} (Capacity : Z)
    (M : RingMachine MarketDataMsg) `{!RingMachineLaws Capacity M} (config : BenchmarkConfig)
    (file : option (list byte)) (rng : G) (m0 : MarketDataMsg) (stack : list byte) (d : UdpDisseminator.t)
    (frame : list byte) (cmd : SubCommand) (ls : list (Benchmark.label M)) (s0 s : Benchmark.state Udp M G) :
  launchable (L:=Udp) config file stack d (udp_fresh frame cmd) ->
  launch (L:=Udp) config file rng m0 stack d (udp_fresh frame cmd) = inr s0 -> run exec ls s0 = Some s ->
  recv_at s <> RNotStarted ->
  exists turns o,
    UdpFeedHandler.receive_loop_impl monitor_callbacks turns cmd
      (loop_start (CustomSpscQueue.init 128) [] frame (LatencyMonitor.init (out_dir config))) = Some o /\
    receiver_stands s o /\ received_by (receipts ls s0) (turn_receipt <$> turns).
Proof.
  intros Hla Hl Hr Hn. destruct (launch_ready _ _ _ _ _ _ _ s0 Hla Hl) as (g & _ & ->).
  set (symbols := SymbolsFile.read_symbols_file file) in *.
  pose proof (sound_start (L:=Udp) (Capacity:=Capacity) config symbols g m0 stack d (udp_fresh frame cmd)) as Hs.
  assert (Hin : in_turn config symbols (start (L:=Udp) config symbols g m0 stack d (udp_fresh frame cmd)))
    by (split; [exact Hs|done..]).
  exact (receiver_follows_run Capacity config symbols ls _ s Hin Hr Hn [] [] _ cmd eq_refl Hn).
Qed.

Lemma receiver_runs_receive_loop_witness :
  exists turns o,
    UdpFeedHandler.receive_loop_impl monitor_callbacks turns (Cmd true 0)
      (loop_start (CustomSpscQueue.init 128) [] (replicate 1024 xcc) (LatencyMonitor.init (out_dir demo_config))) = Some o /\
    receiver_stands demo_benchmark_end o /\
    received_by (receipts (demo_preparing ++ demo_benchmark) demo_benchmark_start) (turn_receipt <$> turns).
Proof.
  apply (receiver_runs_receive_loop 2 (SpinRing.machine MarketDataMsg 2) demo_config (Some demo_tickers)
           (RandomWalkGenerator.rng_ demo_generator) (QuoteMsg Quote.zero) demo_topic_stack demo_udp
           (replicate 1024 xcc) (Cmd true 0) (demo_preparing ++ demo_benchmark) demo_benchmark_start
           demo_benchmark_end).
  - exact demo_launchable.
  - exact (demo_launch _).
  - rewrite run_app, demo_preparing_run. exact demo_benchmark_run.
  - vm_compute. discriminate.
Defined.
