(* ===== verification/BenchmarkEnds.v ===== *)
(** Whether [run_benchmark_pipeline] comes to its end: with the spinning queue it
    always can, wherever its threads are; with the sleeping one it may hang in the
    [join] of the disseminator. *)

From S2P Require Import Prelude Types QueueConcepts CustomSpscQueue SpscConcurrency RingMachine WaitableRing SpinRing Threads BaseGenerator RandomWalkGenerator Calls Disseminator UdpFeedHandler ZmqFeedHandler LatencyMonitor Main Wire Links Channel System RingSystem RingProgress Reports Benchmark BenchmarkReport.
From stdpp Require Import options.
Import Benchmark.

Section Ends.
Context {L : Link} `{LinkLaws L} {G : Type} `{RandomSourceLaws G} (Capacity : Z).
Context {M : RingMachine MarketDataMsg} `{Hlaws : !RingMachineLaws Capacity M} `{Hlive : !RingMachineLive M}.
Context `{Hring : !CustomSpscQueue.RingCapacity Capacity} (config : BenchmarkConfig) (symbols : list (list byte)).
Implicit Types (s : Benchmark.state L M G) (l : Benchmark.label M).
Local Abbreviation monitor0 := (LatencyMonitor.init (out_dir config)).
Local Abbreviation the_queue s := (RingSystem.queue (core s)).

(** A state a run can be in. *)
Record good s : Prop := {
  gd_sound : sound config symbols s;
  gd_channel : exists m a, implements monitor_callbacks monitor0 symbols (coarse Capacity (core s) m) a /\
    related Capacity (core s) m;
  gd_live : rm_live (the_queue s);
}.

Lemma good_step l s s' : good s -> memory_ok l -> exec l s = Some s' -> good s'.
Proof using All.
  intros [Hs (m & a & Him & Hr) Hl] Hmem He. split; [by eapply sound_step| |].
  - apply exec_core in He as (t & _ & Hrun & _).
    destruct (run_seen Capacity monitor_callbacks _ _ _ m Hr Hrun) as (m' & Hr' & Hrun').
    destruct (run_implements monitor_callbacks _ symbols _ _ _ _ (inner_label_ok l s Hmem) Him Hrun') as (a' & _ & Him').
    by exists m', a'.
  - apply (inner_inv (fun c => rm_live (RingSystem.queue c)) l s s' He Hl).
    intros c c' k _ Hk Hc. exact (queue_live monitor_callbacks k c c' Hc Hk).
Qed.

Lemma good_start g m0 stack d h : RingSystem.ready symbols g stack d h -> good (start config symbols g m0 stack d h).
Proof using All.
  intros Hok. split; [apply (sound_start config symbols (Capacity:=Capacity))| |apply rm_live_start].
  destruct (run_ring Capacity monitor_callbacks symbols g m0 stack d h monitor0 [] _ Hok (Forall_nil_2 _) eq_refl)
    as (m & a & _ & Him & Hr). by exists m, a.
Qed.

Lemma good_run ls s s' : good s -> Forall memory_ok ls -> run exec ls s = Some s' -> good s'.
Proof using All.
  intros Hg Hls. revert s Hg; induction Hls as [|l ls Hl _ IH]; intros s Hg; cbn [run]; [by intros [= <-]|].
  intros (s1 & He & Hr)%bind_Some. by eapply IH; [eapply good_step|].
Qed.

(** ** Runs that can be taken *)

Definition leads (Q : Benchmark.state L M G -> Prop) s : Prop := exists ls s',
  Forall memory_ok ls /\ run exec ls s = Some s' /\ good s' /\ Q s'.

Lemma leads_done (Q : _ -> Prop) s : good s -> Q s -> leads Q s.
Proof using Type. intros Hg Hq. exists [], s. by split_and!. Qed.

Lemma leads_trans (Q R : _ -> Prop) s : leads Q s -> (forall s', good s' -> Q s' -> leads R s') -> leads R s.
Proof using Type.
  intros (ls & s1 & Hls & Hr & Hg & Hq) Hgo. destruct (Hgo s1 Hg Hq) as (ls' & s2 & Hls' & Hr' & Hg' & Hq').
  exists (ls ++ ls'), s2. split_and!; [by apply Forall_app| |done..]. by rewrite run_app, Hr.
Qed.

Lemma leads_step (Q : _ -> Prop) l s s' : good s -> memory_ok l -> exec l s = Some s' ->
  (good s' -> leads Q s') -> leads Q s.
Proof using All.
  intros Hg Hl He Hgo. destruct (Hgo (good_step l s s' Hg Hl He)) as (ls & s2 & Hls & Hr & Hg' & Hq).
  exists (l :: ls), s2. split_and!; [by constructor|cbn [run]; by rewrite He|done..].
Qed.

(** ** Steps of the shared state alone *)

(** The threads are where they were, and what has ended has ended. *)
Record only_core s s' : Prop := {
  oc_threads : s' = set_core (core s') s;
  oc_stopped : rm_stopped M (the_queue s) = true -> rm_stopped M (the_queue s') = true;
  oc_exited : RingSystem.exited (core s) = true -> RingSystem.exited (core s') = true;
}.

Lemma only_core_refl s : only_core s s.
Proof using Type. split; [by destruct s|done..]. Qed.

Lemma only_core_trans s s1 s2 : only_core s s1 -> only_core s1 s2 -> only_core s s2.
Proof using Type. intros [Hx ? ?] [Hy ? ?]. split; [|auto..]. by rewrite Hy, Hx. Qed.

Lemma inside_step (l : rm_label M) s q : good s -> rm_exec M l (the_queue s) = Some q -> finishing (rm_action M l) ->
  exists s', exec (InQueue l) s = Some s' /\ the_queue s' = q /\ only_core s s'.
Proof using All.
  intros Hg Hq Hf. assert (exists c, RingSystem.exec monitor_callbacks (RingSystem.Queue l) (core s) = Some c /\
    RingSystem.queue c = q) as (c & Hc & Hcq).
  { cbn [RingSystem.exec]. rewrite Hq. cbn [mbind option_bind]. unfold RingSystem.queue_step.
    pose proof (rm_step l _ _ Hq) as Hst. destruct (rm_action M l) as [[]| | | |]; try done; try by eexists.
    destruct Hst as (_ & [b ->] & _). by eexists. }
  assert (He : exec (InQueue l) s = Some (set_core c s)).
  { unfold exec. cbn [control inner run]. rewrite Hc. destruct (rm_action M l) as [[]| | | |]; done. }
  exists (set_core c s). split_and!; [done..|]. split; [done| |].
  - simpl. rewrite Hcq. by eapply rm_stop_stays.
  - simpl. eapply exited_stays; [exact Hc|apply Hg].
Qed.

Lemma queue_leads ls s q : good s -> finishes M ls (the_queue s) q ->
  leads (fun s' => the_queue s' = q /\ only_core s s') s.
Proof using All.
  intros Hg [Hr Hls]. revert s Hg Hr. induction Hls as [|l ls Hl _ IH]; intros s Hg; cbn [run].
  { intros [= <-]. apply leads_done; [done|]. split; [done|apply only_core_refl]. }
  intros (q1 & Hq & Hr)%bind_Some. destruct (inside_step l s q1 Hg Hq Hl) as (s1 & He & <- & Ho).
  apply (leads_step _ (InQueue l) s s1 Hg I He). intros Hg1. eapply leads_trans; [by apply IH|].
  intros s2 Hg2 [Hq2 Ho2]. apply leads_done; [done|]. split; [done|]. by eapply only_core_trans.
Qed.

Lemma receiver_subscriber s : good s -> handler_ok (RingSystem.subscriber (core s)).
Proof using Type. intros [_ (m & a & Him & _) _]. apply (im_subscriber _ _ _ _ _ Him). Qed.

(** What was popped is sent. *)
Lemma worker_sends s : good s -> RingSystem.popped (core s) = true ->
  exists s', exec (Send 0 (replicate 4 x00) (replicate stack_size x00)) s = Some s' /\ good s' /\
    the_queue s' = the_queue s /\ RingSystem.popped (core s') = false /\
    RingSystem.exited (core s') = RingSystem.exited (core s) /\ s' = set_core (core s') s.
Proof using All.
  intros Hg Hp. destruct (gd_channel s Hg) as (m & a & Him & Hr).
  assert (Hlab : label_ok (L:=L) (Publish 0 (replicate 4 x00) (replicate stack_size x00)))
    by (split; apply length_replicate).
  destruct (publish_enabled monitor_callbacks monitor0 symbols _ _ _ _ a Hlab Him) as (t & Ht).
  { rewrite <- (im_held _ _ _ _ _ Him). unfold in_hand, coarse. simpl. by rewrite Hp. }
  destruct (other_enabled Capacity monitor_callbacks (Publish _ _ _) (core s) m t Hr Hp Ht) as (c & Hc & Hq).
  assert (He : exec (Send 0 (replicate 4 x00) (replicate stack_size x00)) s = Some (set_core c s))
    by (unfold exec; cbn [control inner run mbind option_bind]; by rewrite Hc).
  assert (Hx : RingSystem.popped c = false /\ RingSystem.exited c = RingSystem.exited (core s)).
  { cbn [RingSystem.exec RingSystem.busy] in Hc. apply bind_Some in Hc as (u & Hu & [= <-]). simpl in *.
    by step_cases. }
  exists (set_core c s). split_and!; [exact He|exact (good_step (Send _ _ _) s _ Hg Hlab He)|done|apply Hx|apply Hx|done].
Qed.

(** ** The generator *)

Section Joins.
Context `{Hstops : !RingMachineStops M}.

(** The main thread waits; nothing else it waits for changes. *)
Definition waits s s' : Prop := todo s' = todo s /\ gen_stop s' = gen_stop s /\ receiver_stop s' = receiver_stop s.

Lemma only_core_waits s s' : only_core s s' -> waits s s'.
Proof using Type. by intros [-> _ _]. Qed.

Lemma waits_trans s s1 s2 : waits s s1 -> waits s1 s2 -> waits s s2.
Proof using Type. unfold waits. intuition congruence. Qed.

(** A step of the generator that only moves it. *)
Lemma gen_leads (Q : _ -> Prop) l s g t : good s -> of_generator l = true ->
  gen_does l s = Some (set_gen g t s) -> inner l s = [] ->
  (good (set_gen g t s) -> leads Q (set_gen g t s)) -> leads Q s.
Proof using All.
  intros Hg Hl Hd Hi Hgo. apply (leads_step Q l s (set_gen g t s) Hg); [by destruct l| |exact Hgo].
  unfold exec. rewrite Hi. assert (Hc : control l s = gen_does l s) by (by destruct l). by rewrite Hc, Hd.
Qed.

Lemma generator_tests s : good s -> gen_stop s = true -> gen_at s = GTest ->
  leads (fun s' => waits s s' /\ gen_at s' = GExited) s.
Proof using All.
  intros Hg Hs Ha. apply (gen_leads _ GenTest s GExited (next_time s) Hg eq_refl); [simpl; by rewrite Ha, Hs|done|].
  intros Hg'. apply leads_done; [done|]. by split.
Qed.

Lemma generator_moves l s t : good s -> gen_stop s = true ->
  of_generator l = true -> gen_does l s = Some (set_gen GTest t s) -> inner l s = [] -> leads (fun s' => waits s s' /\ gen_at s' = GExited) s.
Proof using All.
  intros Hg Hs Hl Hd Hi. apply (gen_leads _ l s GTest t Hg Hl Hd Hi). intros Hg'.
  exact (generator_tests (set_gen GTest t s) Hg' Hs eq_refl).
Qed.

Lemma generator_ends s : good s -> gen_stop s = true -> gen_at s <> GNotStarted ->
  leads (fun s' => waits s s' /\ gen_at s' = GExited) s.
Proof using All.
  intros Hg Hs Ha. destruct (gen_at s) eqn:E; [done|..].
  - apply (generator_moves (GenBegin 0) s 0 Hg Hs eq_refl); [simpl; by rewrite E|done].
  - by apply generator_tests.
  - assert (Hlt : (next_time s <=? next_time s - 1) = false) by lia.
    apply (generator_moves (GenLook (next_time s - 1) 0 0) s (next_time s) Hg Hs eq_refl); simpl; by rewrite ?E, Hlt.
  - apply (generator_moves GenRetry s (next_time s + interval s) Hg Hs eq_refl); simpl; by rewrite ?E, Hs.
  - destruct (rm_push_returns (the_queue s)) as (ls & q & Hf & Hp); [apply Hg|].
    eapply leads_trans; [by apply (queue_leads ls s q)|]. intros s1 Hg1 [Hq Ho].
    assert (Hw : waits s s1) by (by apply only_core_waits). destruct Ho as [Ho _ _].
    assert (Hs1 : gen_stop s1 = true) by (by rewrite Ho).
    assert (Hret : leads (fun s' => waits s1 s' /\ gen_at s' = GExited) s1).
    { assert (E1 : gen_at s1 = GPush) by (by rewrite Ho). destruct (RingSystem.pending (core s1)) eqn:Ep.
      - apply (gen_leads _ GenReturn s1 GRetry (next_time s1) Hg1 eq_refl); [simpl; by rewrite E1, Hq, Hp, Ep|done|].
        intros Hg2. apply (generator_moves GenRetry (set_gen GRetry (next_time s1) s1) (next_time s1 + interval s1) Hg2 Hs1);
          simpl; by rewrite ?Hs1.
      - apply (generator_moves GenReturn s1 (next_time s1 + interval s1) Hg1 Hs1 eq_refl);
          [simpl; by rewrite E1, Hq, Hp, Ep|done]. }
    eapply leads_trans; [exact Hret|]. intros s2 Hg2 [Hw2 He]. apply leads_done; [done|].
    split; [by eapply waits_trans|done].
  - apply leads_done; [done|]. by split.
Qed.

(** ** The receiver *)

Lemma receiver_tests s : good s -> receiver_stop s = true -> recv_at s = RTest ->
  leads (fun s' => waits s s' /\ recv_at s' = RExited) s.
Proof using All.
  intros Hg Hs Ha. apply (leads_step _ RecvTest s (set_core (core s) (set_recv RExited s)) Hg I).
  - unfold exec. cbn [control inner]. unfold recv_does. by rewrite Ha, Hs.
  - intros Hg'. apply leads_done; [done|]. by split.
Qed.

Lemma receiver_polls n s h' : good s -> recv_at s = RBody -> polls n (RingSystem.subscriber (core s)) = Some h' ->
  leads (fun s' => waits s s' /\ recv_at s' = RBody /\ RingSystem.subscriber (core s') = h') s.
Proof using All.
  revert s; induction n as [|n IH]; intros s Hg Ha; cbn [polls].
  { intros [= <-]. apply leads_done; [done|]. by split. }
  intros (h1 & Hp & Hps)%bind_Some.
  assert (exists c, RingSystem.exec monitor_callbacks (RingSystem.Other Poll) (core s) = Some c /\
    RingSystem.subscriber c = h1) as (c & Hc & Hch)
    by (cbn [RingSystem.exec RingSystem.busy System.exec]; simpl; rewrite Hp; by eexists).
  apply (leads_step _ RecvPoll s (set_core c s) Hg I).
  - unfold exec. cbn [control inner run]. unfold recv_does. rewrite Ha. cbn [mbind option_bind]. by rewrite Hc.
  - intros Hg'. apply (IH (set_core c s) Hg' Ha). simpl. by rewrite Hch.
Qed.

Lemma receiver_ends s : good s -> receiver_stop s = true -> recv_at s <> RNotStarted ->
  leads (fun s' => waits s s' /\ recv_at s' = RExited) s.
Proof using All.
  intros Hg Hs Ha. destruct (recv_at s) eqn:E; [done|by apply receiver_tests| |by apply leads_done].
  destruct (reaches_ready _ (receiver_subscriber s Hg)) as (n & h & Hp & Hready).
  eapply leads_trans; [by apply (receiver_polls n s h)|]. intros s1 Hg1 ((Ht1 & Hgs1 & Hr1) & Ha1 & Hh).
  rewrite <- Hh in Hready.
  destruct (receive_ready monitor_callbacks 0 None _ (RingSystem.client (core s1)) (receiver_subscriber s1 Hg1) Hready)
    as ([h2 c2] & Hrec).
  assert (exists c, RingSystem.exec monitor_callbacks (RingSystem.Other (Miss 0)) (core s1) = Some c) as [c Hc]
    by (cbn [RingSystem.exec RingSystem.busy System.exec]; simpl; rewrite Hrec; by eexists).
  apply (leads_step _ (RecvNothing 0) s1 (set_core c (set_recv RTest s1)) Hg1 I).
  - unfold exec. cbn [control inner run]. unfold recv_does. rewrite Ha1. cbn [mbind option_bind]. by rewrite Hc.
  - intros Hg2. eapply leads_trans; [apply receiver_tests; [done|simpl; congruence|done]|].
    intros s3 Hg3 [(Ht3 & Hgs3 & Hr3) He]. apply leads_done; [done|]. simpl in *. split; [|done].
    split_and!; congruence.
Qed.

(** ** The disseminator *)

Local Abbreviation place s := (rm_phase M (the_queue s)).
Local Abbreviation ended_worker s s' :=
  (waits s s' /\ rm_stopped M (the_queue s') = true /\ RingSystem.exited (core s') = true).

(** Between two calls of [pop], the next one is the last. *)
Lemma worker_last s : good s -> rm_stopped M (the_queue s) = true -> worker_started s = true -> place s = Outside ->
  RingSystem.popped (core s) = false -> leads (fun s' => ended_worker s s') s.
Proof using All.
  intros Hg Hst Hw Ho Hp. destruct (RingSystem.exited (core s)) eqn:Hx; [by apply leads_done|].
  destruct (rm_pop_ends (the_queue s)) as (l & q1 & ls & q2 & l' & q3 & Hl & Hc & Hf & Hph & Hl' & Hret);
    [apply Hg|done..|].
  assert (Hc1 : RingSystem.exec monitor_callbacks (RingSystem.Queue l) (core s) =
    Some (RingSystem.set_queue (RingSystem.pending (core s)) q1 (RingSystem.msg (core s)) false false (core s))).
  { cbn [RingSystem.exec]. rewrite Hl. cbn [mbind option_bind]. unfold RingSystem.queue_step. by rewrite Hc, Hp, Hx. }
  eapply (leads_step _ (InQueue l) s (set_core _ s) Hg I); [unfold exec; cbn [control inner run]; by rewrite Hc, Hw, Hc1|].
  intros Hg1. eapply leads_trans; [by apply (queue_leads ls _ q2 Hg1 Hf)|]. intros s2 Hg2 [Hq2 Ho2].
  pose proof (only_core_waits _ _ Ho2) as Hw2. destruct Ho2 as [_ Hst2 _].
  assert (Hc3 : RingSystem.exec monitor_callbacks (RingSystem.Queue l') (core s2) =
    Some (RingSystem.set_queue (RingSystem.pending (core s2)) q3 (RingSystem.msg (core s2)) false true (core s2))).
  { cbn [RingSystem.exec]. rewrite Hq2, Hl'. cbn [mbind option_bind]. unfold RingSystem.queue_step.
    by rewrite Hret, Hq2, Hph. }
  eapply (leads_step _ (InQueue l') s2 (set_core _ s2) Hg2 I); [unfold exec; cbn [control inner run]; by rewrite Hret, Hc3|].
  intros Hg3. apply leads_done; [done|]. split; [exact Hw2|split; [|done]]. simpl.
  eapply rm_stop_stays; [exact Hl'|]. rewrite <- Hq2. apply Hst2. simpl. by eapply rm_stop_stays.
Qed.

Lemma worker_ends s : good s -> rm_stopped M (the_queue s) = true -> worker_started s = true ->
  leads (fun s' => ended_worker s s') s.
Proof using All.
  intros Hg Hst Hw. destruct (rm_pop_returns (the_queue s)) as (ls & q & Hf & Ho); [apply Hg|done|].
  eapply leads_trans; [by apply (queue_leads ls s q Hg Hf)|]. intros s1 Hg1 [Hq Hoc].
  pose proof (only_core_waits _ _ Hoc) as Hw1. destruct Hoc as [Ht Hst1 _].
  assert (Hws : worker_started s1 = true) by (by rewrite Ht).
  assert (Hlast : leads (fun s' => ended_worker s1 s') s1).
  { destruct (RingSystem.popped (core s1)) eqn:Hp; [|apply worker_last; [done|auto|done|by rewrite Hq|done]].
    destruct (worker_sends s1 Hg1 Hp) as (s2 & He & Hg2 & Hq2 & Hp2 & _ & Ht2).
    eapply (leads_step _ (Send _ _ _) s1 s2 Hg1); [split; apply length_replicate|exact He|]. intros _.
    eapply leads_trans; [apply worker_last; [done|rewrite Hq2; auto|by rewrite Ht2|by rewrite Hq2, Hq|done]|].
    intros s3 Hg3 (Hw3 & Hrest). apply leads_done; [done|]. split; [|done].
    eapply waits_trans; [|exact Hw3]. by rewrite Ht2. }
  eapply leads_trans; [exact Hlast|]. intros s2 Hg2 (Hw2 & Hrest). apply leads_done; [done|].
  split; [by eapply waits_trans|done].
Qed.

(** ** The main thread *)

Local Abbreviation goes_on rest := (leads (fun s' => todo s' = rest)).

Lemma main_goes (Q : _ -> Prop) s t : good s -> inner MainDoes s = [] -> main_does s = Some t ->
  (good (set_core (core s) t) -> leads Q (set_core (core s) t)) -> leads Q s.
Proof using All.
  intros Hg Hi Ht Hgo. apply (leads_step Q MainDoes s (set_core (core s) t) Hg I); [|exact Hgo].
  unfold exec. rewrite Hi. cbn [control]. by rewrite Ht.
Qed.

Lemma main_last s t rest : good s -> inner MainDoes s = [] -> main_does s = Some t -> todo t = rest -> goes_on rest s.
Proof using All. intros Hg Hi Ht Hr. apply (main_goes _ s t Hg Hi Ht). intros Hg'. by apply leads_done. Qed.

Lemma main_subscribes s sym b rest : good s -> todo s = Main.Subscribe sym b :: rest -> goes_on rest s.
Proof using All.
  intros Hg Ht. destruct (subscribe_spec sym _ (receiver_subscriber s Hg)) as (h & Hh & _).
  assert (exists c, RingSystem.exec monitor_callbacks (RingSystem.Other (Request true sym)) (core s) = Some c) as [c Hc].
  { cbn [RingSystem.exec RingSystem.busy System.exec]. simpl. unfold subscribe. rewrite Hh. by eexists. }
  apply (leads_step _ MainDoes s (set_core c (set_main rest s)) Hg I).
  - unfold exec. cbn [control inner]. unfold main_does. rewrite Ht. cbn [run mbind option_bind]. by rewrite Hc.
  - intros Hg'. by apply leads_done.
Qed.

(** A component that has been asked to stop is joined. *)
Lemma main_stops_generator s rest : good s -> todo s = Main.StopGenerator :: rest -> gen_stop s = true -> goes_on rest s.
Proof using All.
  intros Hg Ht Hs. assert (Hn : gen_at s <> GNotStarted).
  { intros E. apply (so_generator _ _ _ (gd_sound s Hg)) in E.
    pose proof (so_todo _ _ _ (gd_sound s Hg)) as Hp. rewrite Ht in *. apply todo_position in Hp. simpl in *. lia. }
  eapply leads_trans; [by apply generator_ends|]. intros s1 Hg1 [(Ht1 & Hs1 & _) He].
  assert (Hd : main_does s1 = Some (set_main rest s1)) by (unfold main_does; by rewrite Ht1, Ht, Hs1, Hs, He).
  by apply (main_last s1 (set_main rest s1) rest Hg1); [simpl; rewrite Ht1, Ht|exact Hd|].
Qed.

Lemma main_stops_receiver s rest : good s -> todo s = Main.StopFeedHandler :: rest -> receiver_stop s = true ->
  goes_on rest s.
Proof using All.
  intros Hg Ht Hs. assert (Hn : recv_at s <> RNotStarted).
  { apply (so_receiver _ _ _ (gd_sound s Hg)).
    pose proof (so_todo _ _ _ (gd_sound s Hg)) as Hp. rewrite Ht in *. apply todo_position in Hp. simpl in *. lia. }
  eapply leads_trans; [by apply receiver_ends|]. intros s1 Hg1 [(Ht1 & _ & Hs1) He].
  assert (Hd : main_does s1 = Some (set_main rest s1)) by (unfold main_does; by rewrite Ht1, Ht, Hs1, Hs, He).
  by apply (main_last s1 (set_main rest s1) rest Hg1); [simpl; rewrite Ht1, Ht|exact Hd|].
Qed.

Lemma main_stops_worker s rest : good s -> todo s = Main.StopDisseminator :: rest ->
  rm_stopped M (the_queue s) = true -> goes_on rest s.
Proof using All.
  intros Hg Ht Hs. assert (Hw : worker_started s = true).
  { apply (so_worker _ _ _ (gd_sound s Hg)).
    pose proof (so_todo _ _ _ (gd_sound s Hg)) as Hp. rewrite Ht in *. apply todo_position in Hp. simpl in *. lia. }
  eapply leads_trans; [by apply worker_ends|]. intros s1 Hg1 ((Ht1 & _) & Hs1 & He).
  destruct (rm_stop_returns (the_queue s1)) as (ls & q & Hf & Hp); [apply Hg1|].
  eapply leads_trans; [by apply (queue_leads ls s1 q Hg1 Hf)|]. intros s2 Hg2 [Hq2 Ho2].
  destruct (only_core_waits _ _ Ho2) as (Ht2 & _). destruct Ho2 as [_ Hs2 He2].
  assert (Hd : main_does s2 = Some (set_main rest s2))
    by (unfold main_does; by rewrite Ht2, Ht1, Ht, Hs2, Hq2, Hp, He2).
  by apply (main_last s2 (set_main rest s2) rest Hg2); [simpl; rewrite Ht2, Ht1, Ht|exact Hd|].
Qed.

Lemma main_advances s a rest : good s -> todo s = a :: rest -> goes_on rest s.
Proof using All.
  intros Hg Ht. assert (Hgo : forall t, main_does s = Some t -> todo t = rest -> inner MainDoes s = [] -> goes_on rest s)
    by (intros t Hd Hr Hi; by apply (main_last s t)).
  destruct a as [| |sym b| | | | | | |]; try (eapply Hgo; [unfold main_does; by rewrite Ht|done|simpl; by rewrite Ht]).
  - by eapply main_subscribes.
  - destruct (gen_stop s) eqn:E; [by apply main_stops_generator|].
    eapply (main_goes _ s); [done|simpl; by rewrite Ht|unfold main_does; by rewrite Ht, E|].
    intros Hg'. apply (main_stops_generator _ rest Hg'); done.
  - destruct (rm_stopped M (the_queue s)) eqn:E; [by apply main_stops_worker|].
    destruct (rm_stop_enabled (the_queue s)) as (l & q & Hq & Hact); [apply Hg|done|].
    pose proof (rm_step l _ _ Hq) as Hst. rewrite Hact in Hst. destruct Hst as (_ & _ & Hst).
    assert (Hc : RingSystem.exec monitor_callbacks (RingSystem.Queue l) (core s) =
      Some (RingSystem.set_queue (RingSystem.pending (core s)) q (RingSystem.msg (core s)) (RingSystem.popped (core s))
              (RingSystem.exited (core s)) (core s))).
    { cbn [RingSystem.exec]. rewrite Hq. cbn [mbind option_bind]. unfold RingSystem.queue_step. by rewrite Hact. }
    eapply (leads_step _ (MainStops l) s (set_core _ s) Hg I);
      [unfold exec; cbn [control inner run]; by rewrite Ht, Hact, E, Hc|].
    intros Hg'. apply (main_stops_worker _ rest Hg'); [exact Ht|exact Hst].
  - destruct (receiver_stop s) eqn:E; [by apply main_stops_receiver|].
    eapply (main_goes _ s); [done|simpl; by rewrite Ht|unfold main_does; by rewrite Ht, E|].
    intros Hg'. apply (main_stops_receiver _ rest Hg'); done.
Qed.

Lemma main_ends s : good s -> goes_on [] s.
Proof using All.
  remember (todo s) as r eqn:Er. revert s Er. induction r as [|a r IH]; intros s Er Hg; [by apply leads_done|].
  eapply leads_trans; [by eapply main_advances|]. intros s' Hg' Ht. by apply IH.
Qed.
End Joins.
End Ends.

(** ** The sleeping queue *)

Section Hang.
Context {L : Link} {G : Type} `{RandomSource G} (Capacity : Z).
Local Abbreviation Fresh := (WaitableRing.fresh_machine MarketDataMsg Capacity).
Implicit Types (s : Benchmark.state L Fresh G).

(** Stop has been requested, its callback has run, and the disseminator sleeps. *)
Record asleep_for_good (c : RingSystem.state L Fresh G LatencyMonitor.t) : Prop := {
  ag_stuck : WaitableRing.stuck (RingSystem.queue c);
  ag_done : WaitableRing.stopping (RingSystem.queue c) = WaitableRing.SDone;
  ag_running : RingSystem.exited c = false;
}.

Lemma stuck_inside (l : WaitableRing.label MarketDataMsg) q q' : WaitableRing.stuck q ->
  WaitableRing.stopping q = WaitableRing.SDone -> WaitableRing.exec Capacity l q = Some q' ->
  match l with WaitableRing.Prod (PCall _) => False | _ => True end ->
  WaitableRing.stuck q' /\ WaitableRing.stopping q' = WaitableRing.SDone /\
  l <> WaitableRing.StopRequest /\ l <> WaitableRing.PopReturn.
Proof.
  intros Hst Hd Hq Hl. assert (Hr : l <> WaitableRing.StopRequest)
    by (intros ->; simpl in Hq; unfold WaitableRing.stop_step in Hq; by rewrite Hd in Hq).
  assert (Hqu : WaitableRing.quiet l = true) by (destruct l as [[]| | | | | | | | | | | | | |]; done).
  destruct (WaitableRing.sleeps_step Capacity q q' Hst) as [Hst' _]; [by exists l|].
  pose proof Hst as (Hw & Ha & Hp & _). unfold WaitableRing.waiting in Hw.
  assert (Hret : l <> WaitableRing.PopReturn)
    by (intros ->; simpl in Hq; unfold WaitableRing.pop_step in Hq; by destruct Hw as [Hw|Hw]; rewrite Hw in Hq).
  split_and!; try done. destruct l as [a|i| | | | |a| | | | | | | |]; try done; simpl in Hq;
    unfold WaitableRing.push_step, WaitableRing.pop_step, WaitableRing.stop_step in Hq;
    destruct Hw as [Hw|Hw]; rewrite ?Hp, ?Hw, ?Hd in Hq; try discriminate; try (by destruct a); by injection Hq as <-.
Qed.

Lemma asleep_step k c c' : asleep_for_good c -> k <> RingSystem.CallPush ->
  RingSystem.exec monitor_callbacks k c = Some c' -> asleep_for_good c'.
Proof.
  intros [Hst Hd Hr] Hk He. destruct k as [|l|k]; [done|..]; cbn [RingSystem.exec] in He.
  - apply bind_Some in He as (q & Hq & He). apply restrict_exec in Hq as [_ Hq].
    assert (Hl : match l with WaitableRing.Prod (PCall _) => False | _ => True end)
      by (destruct l as [[]| | | | | | | | | | | | | |]; done).
    destruct (stuck_inside l _ q Hst Hd Hq Hl) as (Hst' & Hd' & _ & Hnr).
    unfold RingSystem.queue_step in He. destruct l as [a|?| | | | |a| | | | | | | |]; try destruct a; simpl in He; try done;
      step_cases; by split.
  - assert (Hq : RingSystem.queue c' = RingSystem.queue c /\ RingSystem.exited c' = RingSystem.exited c)
      by (destruct k; try done; destruct (RingSystem.busy _ c); try done; by apply bind_Some in He as (t & _ & [= <-])).
    destruct Hq as [Hq Hx]. split; by rewrite ?Hq, ?Hx.
Qed.

(** The main thread waits for it, and nobody will push. *)
Record hung s : Prop := {
  hg_asleep : asleep_for_good (core s);
  hg_main : exists rest, todo s = Main.StopDisseminator :: rest;
  hg_generator : gen_at s = GExited;
}.

Lemma hung_step l s s' : hung s -> exec l s = Some s' -> hung s' /\ todo s' = todo s /\ files s' = files s.
Proof.
  intros [Hc [rest Ht] Hg] He. pose proof (exec_core l s s' He) as (t & Hct & _ & _).
  assert (Hl : l <> MainDoes).
  { intros ->. cbn [control] in Hct. unfold main_does in Hct. rewrite Ht, (ag_running _ Hc), andb_false_r in Hct. done. }
  destruct (other_threads l s s' Hl He) as (Ht' & Hf & _ & _ & Hgx & _). split; [|done].
  split; [|exists rest; congruence|auto].
  apply (inner_inv asleep_for_good l s s' He Hc). intros c c' k Hin Hk Hcc.
  apply (asleep_step k c c' Hcc); [|done]. intros ->.
  destruct l; simpl in *; unfold gen_does in Hct; rewrite ?Hg in Hct; repeat case_match; try done;
    repeat (apply elem_of_cons in Hin as [?|Hin]; [done|]); by apply elem_of_nil in Hin.
Qed.

Lemma hung_for_good ls s s' : hung s -> run exec ls s = Some s' -> todo s' = todo s /\ files s' = files s.
Proof.
  revert s; induction ls as [|l ls IH]; intros s Hh; cbn [run]; [by intros [= <-]|].
  intros (s1 & He & Hr)%bind_Some. destruct (hung_step l s s1 Hh He) as (Hh1 & Ht & Hf).
  destruct (IH s1 Hh1 Hr) as [-> ->]. done.
Qed.
End Hang.

(** * Demonstration: one trade is reported, and stop comes as the disseminator is
    about to announce its sleep *)

Section Demo.
Import WaitableRing.
Local Abbreviation Fresh := (WaitableRing.fresh_machine MarketDataMsg 2).

Definition demo_hanging : list (Benchmark.label Fresh) :=
  let inside := InQueue (M:=Fresh) in
  [MainDoes; MainDoes; RecvTest; MainDoes; RecvPoll; MainDoes; RecvPoll; RecvPoll; MainDoes; inside PopCall; MainDoes;
   MainDoes; GenBegin 9; GenTest; GenLook 10 10 11; GenRetry; inside (Prod (PLoadR 0)); inside (Prod PConstruct);
   inside PopTest; inside (Prod PPublish); inside (LoadFlag 0); GenReturn; inside (Cons CCall);
   inside (Cons (CLoadW 1)); inside (Cons CMove); inside (Cons CDestroy); inside (Cons CPublish); inside PopReturn;
   Send 30 demo_pad demo_send_stack; RecvParcel 0 false 35; inside PopCall; inside PopTest; MainDoes; MainDoes; GenTest;
   MainDoes; MainDoes; MainStops (M:=Fresh) StopRequest; inside StopStore; inside StopNotify; inside (Cons CCall);
   inside (Cons (CLoadW 1)); inside PopSleep; inside (Cons CCall); inside (Cons (CLoadW 1)); inside PopWait].

Definition demo_hanging_start : Benchmark.state Udp Fresh Tape :=
  Benchmark.start (L:=Udp) demo_config [sym_V; sym_VZ] demo_generator (QuoteMsg Quote.zero) demo_topic_stack demo_udp
    (udp_fresh (replicate 1024 xcc) (Cmd true 0)).

Definition demo_hanging_end : Benchmark.state Udp Fresh Tape :=
  default demo_hanging_start (run Benchmark.exec demo_hanging demo_hanging_start).
End Demo.

Lemma demo_hanging_run : run exec demo_hanging demo_hanging_start = Some demo_hanging_end.
Proof. apply run_default. vm_compute. reflexivity. Qed.

(** What can be read off a state by evaluation. *)
Definition observed (s : Benchmark.state Udp (WaitableRing.fresh_machine MarketDataMsg 2) Tape) :=
  (todo s, rm_stopped (WaitableRing.fresh_machine MarketDataMsg 2) (RingSystem.queue (core s)),
   length (RingSystem.generated (core s)), RingSystem.pending (core s), length (RingSystem.wire (core s)),
   SpscConcurrency.queued (rm_ring (WaitableRing.fresh_machine MarketDataMsg 2) (RingSystem.queue (core s))), files s).

Example demo_hanging_facts : observed demo_hanging_end =
  ([Main.StopDisseminator; Main.StopFeedHandler; Main.SaveCsv], true, 1%nat, None, 0%nat, [], None).
Proof. vm_compute. reflexivity. Qed.

Lemma hangs_from s : hung 2 s ->
  observed s = ([Main.StopDisseminator; Main.StopFeedHandler; Main.SaveCsv], true, 1%nat, None, 0%nat, [], None) ->
  todo s = [Main.StopDisseminator; Main.StopFeedHandler; Main.SaveCsv] /\
  rm_stopped _ (RingSystem.queue (core s)) = true /\
  length (RingSystem.generated (core s)) = 1%nat /\ RingSystem.pending (core s) = None /\
  RingSystem.wire (core s) = [] /\ SpscConcurrency.queued (rm_ring _ (RingSystem.queue (core s))) = [] /\
  forall ls s', run exec ls s = Some s' -> todo s' = todo s /\ files s' = None.
Proof.
  intros Hh Hs. unfold observed in Hs. injection Hs as Ht Hst Hg Hp Hw%length_zero_iff_nil Hq Hf.
  split_and!; try done. intros ls s' Hr. destruct (hung_for_good 2 ls _ s' Hh Hr) as [Ht' Hf']. by rewrite Hf'.
Qed.

Lemma demo_hung : hung 2 demo_hanging_end.
Proof.
  split; [split; [split_and!; [right|..|right]|..]|exists [Main.StopFeedHandler; Main.SaveCsv]|]; vm_compute; reflexivity.
Qed.

(** * Properties *)

(** The program always can end, with the spinning queue. From every state that a
    run of [run_benchmark_pipeline] can reach, on any schedule and network, its four
    threads have steps that bring the main thread to its end: no call of [push] or
    [pop], no loop and no [join] waits for something that can no longer happen.
    Every queue that lets its calls return has this, and the spinning one does. *)
Theorem benchmark_ends {L : Link} `{LinkLaws L} {G : Type} `{RandomSourceLaws G} (Capacity : Z)
    (M : RingMachine MarketDataMsg) `{!RingMachineLaws Capacity M} `{!RingMachineLive M} `{!RingMachineStops M}
    `{Hring : !CustomSpscQueue.RingCapacity Capacity} (config : BenchmarkConfig) (file : option (list byte))
    (rng : G) (m0 : MarketDataMsg) (stack : list byte) (d : disseminator L) (h : handler L)
    (ls : list (Benchmark.label M)) (s0 s : Benchmark.state L M G) :
  launchable config file stack d h -> launch config file rng m0 stack d h = inr s0 ->
  Forall memory_ok ls -> run exec ls s0 = Some s ->
  exists ls' s', Forall memory_ok ls' /\ run exec ls' s = Some s' /\ todo s' = [] /\
    files s' = Some (LatencyMonitor.destroy (RingSystem.client (core s'))).
Proof.
  intros Hla Hl Hls Hrun. destruct (launch_ready _ _ _ _ _ _ _ s0 Hla Hl) as (g & Hok & ->).
  set (symbols := SymbolsFile.read_symbols_file file) in *.
  pose proof (good_start Capacity config symbols g m0 stack d h Hok) as Hg0.
  pose proof (good_run Capacity config symbols ls _ s Hg0 Hls Hrun) as Hg.
  destruct (main_ends Capacity config symbols s Hg) as (ls' & s' & Hls' & Hr & Hg' & Ht).
  exists ls', s'. split_and!; [done..|]. apply (so_files _ _ _ (gd_sound _ _ _ _ Hg')). rewrite Ht. simpl. lia.
Qed.

(** From the middle of the run that leaves a message in the ring. *)
Definition demo_midway : Benchmark.state Udp (SpinRing.machine MarketDataMsg 2) Tape :=
  default demo_benchmark_start (run exec (demo_preparing ++ take 16 demo_benchmark) demo_benchmark_start).

Lemma demo_midway_run : run exec (demo_preparing ++ take 16 demo_benchmark) demo_benchmark_start = Some demo_midway.
Proof. apply run_default. vm_compute. reflexivity. Qed.

Lemma benchmark_ends_witness :
  exists ls' s', Forall (memory_ok (L:=Udp)) ls' /\ run exec ls' demo_midway = Some s' /\ todo s' = [] /\
    files s' = Some (LatencyMonitor.destroy (RingSystem.client (core s'))).
Proof.
  apply (benchmark_ends (L:=Udp) 2 (SpinRing.machine MarketDataMsg 2) demo_config (Some demo_tickers)
           (RandomWalkGenerator.rng_ demo_generator) (QuoteMsg Quote.zero) demo_topic_stack demo_udp
           (udp_fresh (replicate 1024 xcc) (Cmd true 0)) (demo_preparing ++ take 16 demo_benchmark)
           demo_benchmark_start demo_midway).
  - exact demo_launchable.
  - exact (demo_launch _).
  - repeat (apply Forall_cons; split; [exact I || (split; reflexivity)|]). by apply Forall_nil.
  - exact demo_midway_run.
Defined.

(** C15: with the sleeping queue it may hang, even if every load reads the newest
    value. In this run of the whole pipeline, over UDP, one message has been made
    and reported. The stop request of the main thread comes between the
    disseminator's test of the token and its store of [is_sleeping_]; the callback
    clears the flag in vain, the disseminator goes to sleep, and whatever the threads
    and the network do from then on, [join] does not return and no file is written. *)
Theorem benchmark_may_hang :
  launch (L:=Udp) demo_config (Some demo_tickers) (RandomWalkGenerator.rng_ demo_generator) (QuoteMsg Quote.zero)
    demo_topic_stack demo_udp (udp_fresh (replicate 1024 xcc) (Cmd true 0)) = inr demo_hanging_start /\
  Forall (memory_ok (L:=Udp)) demo_hanging /\
  exists s, run exec demo_hanging demo_hanging_start = Some s /\
    todo s = [Main.StopDisseminator; Main.StopFeedHandler; Main.SaveCsv] /\
    rm_stopped _ (RingSystem.queue (core s)) = true /\
    length (RingSystem.generated (core s)) = 1%nat /\ RingSystem.pending (core s) = None /\
    RingSystem.wire (core s) = [] /\ SpscConcurrency.queued (rm_ring _ (RingSystem.queue (core s))) = [] /\
    forall ls s', run exec ls s = Some s' -> todo s' = todo s /\ files s' = None.
Proof.
  split; [exact (demo_launch _)|].
  split; [repeat (apply Forall_cons; split; [exact I || (split; reflexivity)|]); by apply Forall_nil|].
  exists demo_hanging_end. exact (conj demo_hanging_run (hangs_from _ demo_hung demo_hanging_facts)).
Qed.
