(* ===== verification/BenchmarkFair.v ===== *)
(** That [run_benchmark_pipeline] ends, with a queue that spins: on every fair run,
    in which no thread is passed over for ever, the main thread comes to its end
    and the files are written. *)

From S2P Require Import Prelude Fairness Types QueueConcepts CustomSpscQueue SpscConcurrency RingMachine SpinRing Threads BaseGenerator RandomWalkGenerator Calls Disseminator UdpFeedHandler ZmqFeedHandler LatencyMonitor Main Wire Links Channel System RingSystem RingProgress Reports Benchmark BenchmarkReport BenchmarkEnds.
From stdpp Require Import options.
Import Benchmark.

(** The threads of the program. *)
Inductive thread := Main | Generator | Disseminator | Receiver.

#[export] Instance thread_eq_dec : EqDecision thread.
Proof. solve_decision. Defined.

(** The thread that takes a step; the loss of a parcel is nobody's. *)
Definition thread_of {M : RingMachine MarketDataMsg} `{RingMachineEnds MarketDataMsg M} (l : Benchmark.label M) :
    option thread :=
  match l with
  | MainDoes | MainStops _ => Some Main
  | GenBegin _ | GenTest | GenLook _ _ _ | GenRetry | GenReturn => Some Generator
  | InQueue k => match rm_side k with Producer => Some Generator | Consumer => Some Disseminator | Stopper => None end
  | Send _ _ _ => Some Disseminator
  | RecvTest | RecvPoll | RecvParcel _ _ _ | RecvNothing _ => Some Receiver
  | LoseParcel _ => None
  end.

Section Fair.
Context {L : Link} `{LinkLaws L} {G : Type} `{RandomSourceLaws G} (Capacity : Z).
Context {M : RingMachine MarketDataMsg} `{Hlaws : !RingMachineLaws Capacity M} `{Hlive : !RingMachineLive M}.
Context `{Hends : !RingMachineEnds M} `{Hring : !CustomSpscQueue.RingCapacity Capacity}.
Context (config : BenchmarkConfig) (symbols : list (list byte)).
Implicit Types (s : Benchmark.state L M G) (l : Benchmark.label M).
Local Abbreviation the_queue s := (RingSystem.queue (core s)).
Local Abbreviation good := (good Capacity config symbols).
Local Abbreviation enabled := (enabled (State:=Benchmark.state L M G) exec memory_ok thread_of).
Local Abbreviation leads_to := (leads_to (State:=Benchmark.state L M G) exec memory_ok thread_of).

(** ** What a step leaves alone *)

(** The queue moves by a step of its own, or by a call of [push]. *)
Lemma queue_effect l s s' : exec l s = Some s' -> thread_of l <> Some Main ->
  match l with
  | InQueue k => rm_exec M k (the_queue s) = Some (the_queue s') /\ rm_side k <> Stopper /\
      (finishing (rm_action M k) \/ rm_action M k = Call)
  | GenRetry => the_queue s' = the_queue s \/
      gen_stop s = false /\ exists m, rm_exec M (rm_push M m) (the_queue s) = Some (the_queue s')
  | _ => the_queue s' = the_queue s
  end.
Proof using Type.
  intros He Hl. apply exec_core in He as (t & Hc & Hr & _).
  assert (Hother : forall k, RingSystem.exec monitor_callbacks (RingSystem.Other k) (core s) = Some (core s') ->
    the_queue s' = the_queue s).
  { intros k Hk. destruct (core s'). cbn [RingSystem.exec] in Hk. destruct k; try done; destruct (RingSystem.busy _ _);
      try done; by apply bind_Some in Hk as (u & _ & [= <-]). }
  destruct l as [| | | | | | |k| | | | | |]; try done; cbn [inner] in Hr; repeat case_match; rewrite ?run_one in Hr;
    try (by eapply Hother); try (injection Hr as <-; by auto).
  - right. split; [done|]. cbn [RingSystem.exec] in Hr. apply bind_Some in Hr as (m & _ & Hr).
    apply bind_Some in Hr as (q & Hq & Hr). exists m. by injection Hr as <-.
  - cbn [RingSystem.exec] in Hr. apply bind_Some in Hr as (q & Hq & Hr).
    cbn [control] in Hc. unfold RingSystem.queue_step in Hr. pose proof (rm_side_stop k) as [_ Hst].
    assert (the_queue s' = q) as -> by (generalize dependent (core s'); intros; by step_cases). split; [done|].
    split; [intros E; by rewrite (Hst E) in Hc|].
    destruct (rm_action M k) as [[]| | | |]; try done; simpl; auto.
Qed.

(** Threads other than the main one leave the order to stop and what it is about. *)
Lemma others_keep l s s' : exec l s = Some s' -> thread_of l <> Some Main ->
  todo s' = todo s /\ gen_stop s' = gen_stop s /\ receiver_stop s' = receiver_stop s /\
  rm_stopped M (the_queue s') = rm_stopped M (the_queue s).
Proof using Hlaws Hends.
  intros He Hl. pose proof (queue_effect l s s' He Hl) as Hq.
  assert (Hs : rm_stopped M (the_queue s') = rm_stopped M (the_queue s)).
  { destruct l as [| | | | | | |k| | | | | |]; try done; try (by rewrite Hq).
    - destruct Hq as [->|(_ & m & Hq)]; [done|]. apply (rm_stop_only _ _ _ Hq). by rewrite rm_push_action.
    - destruct Hq as (Hq & Hk & _). apply (rm_stop_only _ _ _ Hq). by rewrite rm_side_stop. }
  apply exec_core in He as (t & Hc & _ & Hs'). rewrite Hs' in *. split_and!; try exact Hs; clear Hs Hq Hs';
    destruct l; try done; cbn [control] in Hc; unfold gen_does, recv_does in Hc; by step_cases.
Qed.
(** The queue and the loop of the disseminator are left alone by the others. *)
Lemma worker_untouched l s s' : exec l s = Some s' -> thread_of l <> Some Main ->
  match l with InQueue _ | Send _ _ _ => False | _ => True end ->
  RingSystem.popped (core s') = RingSystem.popped (core s) /\ RingSystem.exited (core s') = RingSystem.exited (core s).
Proof using Type.
  intros He Hm Hl. apply (inner_inv (fun c => RingSystem.popped c = RingSystem.popped (core s) /\
    RingSystem.exited c = RingSystem.exited (core s)) l s s' He); [done|].
  intros c c' k Hin Hk [<- <-]. destruct (untouched k c c' Hk) as [Hw _].
  apply inner_one in Hin. destruct l; simpl in *; repeat case_match; by simplify_eq.
Qed.

(** ** The main thread *)

(** What it has still to do, the requests that precede a [join] included. *)
Definition to_request s : nat :=
  match todo s with
  | Main.StopGenerator :: _ => if gen_stop s then 0 else 1
  | Main.StopDisseminator :: _ => if rm_stopped M (the_queue s) then 0 else 1
  | Main.StopFeedHandler :: _ => if receiver_stop s then 0 else 1
  | _ => 0
  end.
Definition work s : nat := 2 * length (todo s) + to_request s.

(** It is not held up by a [join]. *)
Definition main_ready s : Prop :=
  match todo s with
  | [] => False
  | Main.StopGenerator :: _ => gen_stop s = true -> gen_at s = GExited
  | Main.StopDisseminator :: _ => rm_stopped M (the_queue s) = true -> RingSystem.exited (core s) = true
  | Main.StopFeedHandler :: _ => receiver_stop s = true -> recv_at s = RExited
  | _ => True
  end.

Lemma to_request_le s : (to_request s <= 1)%nat.
Proof using Type. unfold to_request. repeat case_match; lia. Qed.

Lemma main_works l s s' : exec l s = Some s' -> thread_of l = Some Main -> (work s' < work s)%nat.
Proof using Hlaws.
  intros He Hl. pose proof (to_request_le s') as Hle. apply exec_core in He as (t & Hc & Hr & Hs'). unfold work.
  destruct l as [|k| | | | | |k| | | | | |]; try done; [| |by cbn in Hl; destruct (rm_side k)].
  - cbn [control] in Hc. unfold main_does in Hc. unfold to_request at 2.
    assert (Ht : todo s' = todo t) by (by rewrite Hs'). assert (Hgs : gen_stop s' = gen_stop t) by (by rewrite Hs').
    assert (Hrs : receiver_stop s' = receiver_stop t) by (by rewrite Hs'). clear Hs' Hr.
    unfold to_request in *; rewrite Ht, Hgs, Hrs in *; step_cases; simpl in *; rewrite ?E in *; simpl; lia.
  - cbn [control inner] in Hc, Hr. rewrite run_one in Hr. cbn [RingSystem.exec] in Hr.
    apply bind_Some in Hr as (q & Hq & Hr). pose proof (rm_step k _ _ Hq) as Hst. unfold RingSystem.queue_step in Hr.
    destruct (todo s) as [|[] rest] eqn:Et; try done. destruct (rm_action M k); try done.
    destruct (rm_stopped M (the_queue s)) eqn:Ers; [done|]. injection Hc as <-. injection Hr as Hr.
    assert (Ht : todo s' = todo s) by (by rewrite Hs').
    assert (Hqs : rm_stopped M (the_queue s') = true) by (rewrite <- Hr; apply Hst).
    unfold to_request. rewrite Ht, Et, Hqs, Ers. lia.
Qed.

Lemma others_work l s s' : exec l s = Some s' -> thread_of l <> Some Main -> work s' = work s.
Proof using Hlaws Hends.
  intros He Hl. destruct (others_keep l s s' He Hl) as (Ht & Hg & Hr & Hs). unfold work, to_request. by rewrite Ht, Hg, Hr, Hs.
Qed.
Lemma ready_enabled s : good s -> main_ready s -> enabled Main s.
Proof using All.
  intros Hg Hr. assert (Hdoes : forall t, main_does s = Some t -> inner MainDoes s = [] -> enabled Main s).
  { intros t Ht Hi. exists MainDoes, (set_core (core s) t). split_and!; [done..|]. unfold exec. rewrite Hi.
    cbn [control run]. by rewrite Ht. }
  unfold main_ready in Hr. destruct (todo s) as [|a rest] eqn:Et; [done|].
  destruct a as [| |sym b| | | | | | |]; try (eapply Hdoes; [unfold main_does; by rewrite Et|simpl; by rewrite Et]).
  - destruct (subscribe_spec sym _ (receiver_subscriber Capacity config symbols s Hg)) as (h & Hh & _).
    assert (exists c, RingSystem.exec monitor_callbacks (RingSystem.Other (Request true sym)) (core s) = Some c) as [c Hc].
    { cbn [RingSystem.exec RingSystem.busy System.exec]. simpl. unfold subscribe. rewrite Hh. by eexists. }
    exists MainDoes, (set_core c (set_main rest s)). split_and!; [done..|].
    unfold exec. cbn [control inner]. unfold main_does. rewrite Et, run_one. cbn [mbind option_bind]. by rewrite Hc.
  - destruct (gen_stop s) eqn:E;
      eapply Hdoes; (unfold main_does; by rewrite Et, E, ?(Hr eq_refl)) || (simpl; by rewrite Et).
  - destruct (rm_stopped M (the_queue s)) eqn:E.
    + eapply Hdoes; [unfold main_does; by rewrite Et, E, rm_stop_prompt, (Hr eq_refl)|simpl; by rewrite Et].
    + destruct (rm_stop_takes (the_queue s)) as (k & q & Hq & Ha); [apply Hg|done|].
      exists (MainStops k). eexists. split_and!; [done..|]. unfold exec. cbn [control inner]. rewrite Et, Ha, E, run_one.
      cbn [mbind option_bind RingSystem.exec]. rewrite Hq. cbn [mbind option_bind]. unfold RingSystem.queue_step.
      by rewrite Ha.
  - destruct (receiver_stop s) eqn:E;
      eapply Hdoes; (unfold main_does; by rewrite Et, E, ?(Hr eq_refl)) || (simpl; by rewrite Et).
Qed.

Lemma ready_stays l s s' : good s -> exec l s = Some s' -> thread_of l <> Some Main -> main_ready s -> main_ready s'.
Proof using Hlaws Hends.
  intros Hg He Hl. destruct (others_keep l s s' He Hl) as (Ht & Hgs & Hrs & Hst).
  assert (Hm : l <> MainDoes) by (intros ->; by apply Hl).
  destruct (other_threads l s s' Hm He) as (_ & _ & _ & _ & Hgx & _ & Hrx).
  destruct (core_step l s s' (so_loops _ _ _ (gd_sound _ _ _ _ Hg)) He) as (_ & Hex & _).
  unfold main_ready. rewrite Ht, Hgs, Hrs, Hst. repeat case_match; auto.
Qed.

(** Where nothing holds it up it goes on. *)
Lemma main_gets_on n : leads_to (fun s => good s /\ main_ready s /\ work s = n) (fun s => good s /\ (work s < n)%nat).
Proof using All.
  apply (leads_to_step _ _ _ Main); [intros s (Hg & Hr & _); by apply ready_enabled|].
  intros l s s' Hl (Hg & Hr & Hw) He. pose proof (good_step Capacity config symbols l s s' Hg Hl He) as Hg'.
  destruct (decide (thread_of l = Some Main)) as [E|E].
  - left. split; [done|]. rewrite <- Hw. by eapply main_works.
  - right. split; [|done]. split_and!; [done|by apply (ready_stays l s s')|by rewrite (others_work l s s')].
Qed.

(** A [join], in the situation [B]: the thread [t] that is waited for brings down the
    measure [r] until its loop has ended. *)
Lemma joins (t : thread) (r : Benchmark.state L M G -> nat) (B : Benchmark.state L M G -> Prop) n :
  (forall s, good s -> B s -> enabled t s) ->
  (forall l s s', good s -> B s -> exec l s = Some s' -> thread_of l <> Some Main ->
    main_ready s' \/ B s' /\ (r s' <= r s)%nat /\ (thread_of l = Some t -> (r s' < r s)%nat)) ->
  t <> Main ->
  leads_to (fun s => good s /\ B s /\ work s = n) (fun s => good s /\ ((work s < n)%nat \/ main_ready s /\ work s = n)).
Proof using All.
  intros Hen Hstep Hnm. apply (leads_to_rank _ _ _ t r); [intros s (Hg & Hb & _); auto|].
  intros l s s' Hl (Hg & Hb & Hw) He. pose proof (good_step Capacity config symbols l s s' Hg Hl He) as Hg'.
  destruct (decide (thread_of l = Some Main)) as [E|E].
  - left. split; [done|]. left. rewrite <- Hw. by eapply main_works.
  - pose proof (others_work l s s' He E) as Hw'. destruct (Hstep l s s' Hg Hb He E) as [Hr|(Hb' & Hle & Hlt)].
    + left. split; [done|]. right. split; [done|congruence].
    + right. split_and!; [done|done|congruence|done..].
Qed.
(** ** The generator *)

Definition generator_awaited s : Prop :=
  (exists rest, todo s = Main.StopGenerator :: rest) /\ gen_stop s = true /\ gen_at s <> GExited.

Definition generator_rank s : nat :=
  match gen_at s with GExited | GNotStarted => 0 | GTest => 1 | GBegin | GRetry => 2 | GLook | GPush => 3 end +
  rm_push_rank (the_queue s).

Lemma generator_can l s t : of_generator l = true -> gen_does l s = Some t -> inner l s = [] -> enabled Generator s.
Proof using Type.
  intros Hl Hd Hi. exists l, (set_core (core s) t). split_and!; [by destruct l|by destruct l|].
  unfold exec. rewrite Hi. assert (control l s = gen_does l s) as -> by (by destruct l). by rewrite Hd.
Qed.

Lemma generator_enabled s : good s -> generator_awaited s -> enabled Generator s.
Proof using All.
  intros Hg ([rest Ht] & Hs & Ha). destruct (gen_at s) eqn:E; [| | | | | |done].
  - apply (so_generator _ _ _ (gd_sound _ _ _ _ Hg)) in E.
    pose proof (so_todo _ _ _ (gd_sound _ _ _ _ Hg)) as Hp. rewrite Ht in *. apply todo_position in Hp. simpl in *. lia.
  - by eapply (generator_can (GenBegin 0)); [|simpl; by rewrite E|].
  - by eapply (generator_can GenTest); [|simpl; by rewrite E|].
  - assert (Hlt : (next_time s <=? next_time s - 1) = false) by lia.
    eapply (generator_can (GenLook (next_time s - 1) 0 0)); simpl; by rewrite ?E, ?Hlt.
  - eapply (generator_can GenRetry); simpl; by rewrite ?E, ?Hs.
  - destruct (rm_pushing M (the_queue s)) eqn:Hp.
    + destruct (rm_push_takes (the_queue s)) as (k & q & Hq & Hk & Hf); [apply Hg|done|].
      destruct (inside_step Capacity config symbols k s q Hg Hq Hf) as (s' & He & _).
      exists (InQueue k), s'. split_and!; [done|simpl; by rewrite Hk|done].
    + destruct (RingSystem.pending (core s)) eqn:Em; by eapply (generator_can GenReturn); [|simpl; by rewrite E, Hp, Em|].
Qed.

Lemma generator_nears l s s' : generator_awaited s -> exec l s = Some s' -> thread_of l <> Some Main ->
  main_ready s' \/ generator_awaited s' /\ (generator_rank s' <= generator_rank s)%nat /\
    (thread_of l = Some Generator -> (generator_rank s' < generator_rank s)%nat).
Proof using Hlaws Hends.
  intros ([rest Ht] & Hs & Ha) He Hl. destruct (others_keep l s s' He Hl) as (Ht' & Hs' & _).
  destruct (decide (gen_at s' = GExited)) as [E|E]; [left; unfold main_ready; by rewrite Ht', Ht|right].
  split; [split_and!; [exists rest; congruence|congruence|done]|].
  pose proof (queue_effect l s s' He Hl) as Hq. apply exec_core in He as (t & Hc & _ & Hs1).
  assert (Hat : gen_at s' = gen_at t) by (by rewrite Hs1). clear Hs1. rewrite Hat in E.
  unfold generator_rank. rewrite Hat.
  destruct l as [| | | | | | |k| | | | | |]; try done; cbn [control] in Hc; unfold gen_does, recv_does in Hc.
  all: try (rewrite Hq; rewrite ?Hs in Hc; step_cases; simpl in *; repeat case_match;
    first [done | split; [lia|intros; (done || lia)]]).
  - destruct Hq as [Hq|(Hns & _)]; [|congruence]. rewrite Hq. step_cases; simpl; lia.
  - destruct Hq as (Hq & Hk & Hf). assert (t = s) as -> by (by step_cases). simpl.
    destruct (decide (rm_side k = Producer)) as [Ep|Ep].
    + assert (Hfin : finishing (rm_action M k)).
      { destruct Hf as [?|Hf]; [done|]. by rewrite (rm_side_call k (or_introl Hf)) in Ep. }
      pose proof (rm_push_less k _ _ Hq Ep Hfin). lia.
    + rewrite (rm_push_keeps k _ _ Hq Ep). split; [done|]. by destruct (rm_side k).
Qed.
(** ** The disseminator *)

Definition worker_awaited s : Prop :=
  (exists rest, todo s = Main.StopDisseminator :: rest) /\ rm_stopped M (the_queue s) = true /\
  RingSystem.exited (core s) = false.

(** What was popped is still to be sent. *)
Definition worker_rank s : nat := rm_pop_rank (the_queue s) + if RingSystem.popped (core s) then 1 else 0.

Lemma worker_enabled s : good s -> worker_awaited s -> enabled Disseminator s.
Proof using All.
  intros Hg ([rest Ht] & Hs & Hx). destruct (RingSystem.popped (core s)) eqn:Hp.
  - destruct (worker_sends Capacity config symbols s Hg Hp) as (s' & He & _).
    exists (Send 0 (replicate 4 x00) (replicate stack_size x00)), s'. split_and!; [|done|exact He].
    split; apply length_replicate.
  - destruct (rm_pop_takes (the_queue s)) as (k & q & Hq & Hk & [Hf|Hcall]); [apply Hg|done|..].
    + destruct (inside_step Capacity config symbols k s q Hg Hq Hf) as (s' & He & _).
      exists (InQueue k), s'. split_and!; [done|simpl; by rewrite Hk|done].
    + assert (Hw : worker_started s = true).
      { apply (so_worker _ _ _ (gd_sound _ _ _ _ Hg)). pose proof (so_todo _ _ _ (gd_sound _ _ _ _ Hg)) as Hpos.
        rewrite Ht in *. apply todo_position in Hpos. simpl in *. lia. }
      exists (InQueue k). eexists. split_and!; [done|simpl; by rewrite Hk|].
      unfold exec. cbn [control inner]. rewrite Hcall, Hw, run_one. cbn [mbind option_bind RingSystem.exec].
      rewrite Hq. cbn [mbind option_bind]. unfold RingSystem.queue_step. by rewrite Hcall, Hp, Hx.
Qed.

Lemma step_keeps_popped k (q : rm_state M) (c c' : RingSystem.state L M G LatencyMonitor.t) :
  rm_action M k <> RingMachine.Return -> RingSystem.queue_step k q c = Some c' -> RingSystem.popped c' = RingSystem.popped c.
Proof using Type. unfold RingSystem.queue_step. intros Hk Hq. by step_cases. Qed.

(** A step of [pop] brings it nearer, its return with an item included. *)
Lemma pop_nears k s s' : good s -> exec (InQueue k) s = Some s' -> rm_stopped M (the_queue s) = true ->
  rm_exec M k (the_queue s) = Some (the_queue s') -> RingSystem.exited (core s') = false ->
  if decide (rm_side k = Consumer) then (worker_rank s' < worker_rank s)%nat else worker_rank s' = worker_rank s.
Proof using Hends.
  intros Hg He Hs Hq Hx. apply exec_core in He as (t & _ & Hr & _). cbn [inner] in Hr. rewrite run_one in Hr.
  cbn [RingSystem.exec] in Hr. rewrite Hq in Hr. cbn [mbind option_bind] in Hr. unfold worker_rank.
  assert (Hret : rm_action M k = RingMachine.Return \/ (rm_action M k <> RingMachine.Return /\
    RingSystem.popped (core s') = RingSystem.popped (core s))).
  { destruct (rm_action M k) eqn:E; try (by left); right; (split; [done|]);
      (eapply step_keeps_popped; [by rewrite E|exact Hr]). }
  destruct Hret as [Hret|[Hret ->]].
  - rewrite decide_True by (apply rm_side_call; by right). unfold RingSystem.queue_step in Hr. rewrite Hret in Hr.
    destruct (rm_phase M (the_queue s)) as [| | |b] eqn:Hph; try done. injection Hr as Hr.
    assert (b = true) as -> by (rewrite <- Hr in Hx; by destruct b).
    pose proof (rm_pop_found k _ _ Hq Hs Hret Hph). repeat case_match; lia.
  - case_decide as E; [pose proof (rm_pop_less k _ _ (gd_live _ _ _ _ Hg) Hq Hs E Hret); lia|].
    by rewrite (rm_pop_keeps k _ _ Hq E).
Qed.
(** The send empties its hands. *)
Lemma send_nears clock pad stack s s' : exec (Send clock pad stack) s = Some s' ->
  RingSystem.popped (core s) = true /\ RingSystem.popped (core s') = false.
Proof using Type.
  intros (t & _ & Hr & _)%exec_core. cbn [inner] in Hr. rewrite run_one in Hr. cbn [RingSystem.exec RingSystem.busy] in Hr.
  apply bind_Some in Hr as (u & Hu & [= <-]). simpl in *. destruct (RingSystem.popped (core s)); [|done].
  split; [done|]. by step_cases.
Qed.

Lemma worker_nears l s s' : good s -> worker_awaited s -> exec l s = Some s' -> thread_of l <> Some Main ->
  main_ready s' \/ worker_awaited s' /\ (worker_rank s' <= worker_rank s)%nat /\
    (thread_of l = Some Disseminator -> (worker_rank s' < worker_rank s)%nat).
Proof using Hlaws Hends.
  intros Hg ([rest Ht] & Hs & Hx) He Hl. destruct (others_keep l s s' He Hl) as (Ht' & _ & _ & Hs').
  destruct (RingSystem.exited (core s')) eqn:Ex; [left; unfold main_ready; by rewrite Ht', Ht|right].
  split; [split_and!; [exists rest; congruence|congruence|done]|]. pose proof (queue_effect l s s' He Hl) as Hq.
  assert (Ha : gen_at s = GExited).
  { apply (so_generator_ended _ _ _ (gd_sound _ _ _ _ Hg)). pose proof (so_todo _ _ _ (gd_sound _ _ _ _ Hg)) as Hp.
    rewrite Ht in *. apply todo_position in Hp. simpl in *. lia. }
  assert (Hrest : match l with InQueue _ | Send _ _ _ => False | _ => True end -> the_queue s' = the_queue s ->
    worker_rank s' = worker_rank s).
  { intros Hk Hsame. unfold worker_rank. by destruct (worker_untouched l s s' He Hl Hk) as [-> _]; rewrite Hsame. }
  destruct l as [| | | | | | |k|clock pad stack| | | | |]; try (rewrite Hrest by done; split; [lia|done]).
  - apply exec_core in He as (t & Hc & _). cbn [control] in Hc. unfold gen_does in Hc. by rewrite Ha in Hc.
  - destruct Hq as (Hq & _). pose proof (pop_nears k s s' Hg He Hs Hq Ex) as Hn. simpl.
    case_decide as E; [split; [lia|done]|]. split; [lia|]. by destruct (rm_side k).
  - destruct (send_nears clock pad stack s s' He) as [Hp Hp']. unfold worker_rank. rewrite Hp, Hp', Hq. split; [lia|]. lia.
Qed.

(** ** The receiver *)

Definition receiver_awaited s : Prop :=
  (exists rest, todo s = Main.StopFeedHandler :: rest) /\ receiver_stop s = true /\ recv_at s <> RExited.

Definition receiver_rank s : nat :=
  match recv_at s with RExited | RNotStarted => 0 | RTest => 1 | RBody => 2 + waiting (RingSystem.subscriber (core s)) end.

Lemma receiver_enabled s : good s -> receiver_awaited s -> enabled Receiver s.
Proof using All.
  intros Hg ([rest Ht] & Hs & Ha). pose proof (receiver_subscriber Capacity config symbols s Hg) as Hh.
  destruct (recv_at s) eqn:E; [| | |done].
  - exfalso. apply (so_receiver _ _ _ (gd_sound _ _ _ _ Hg)); [|done].
    pose proof (so_todo _ _ _ (gd_sound _ _ _ _ Hg)) as Hp. rewrite Ht in *. apply todo_position in Hp. simpl in *. lia.
  - eexists RecvTest, _. split_and!; [done..|]. unfold exec. cbn [control inner]. unfold recv_does. by rewrite E.
  - destruct (Links.ready (RingSystem.subscriber (core s))) eqn:Er.
    + destruct (receive_ready monitor_callbacks 0 None _ (RingSystem.client (core s)) Hh Er) as ([h2 c2] & Hrec).
      eexists (RecvNothing 0), _. split_and!; [done..|]. unfold exec. cbn [control inner]. unfold recv_does.
      rewrite E, run_one. cbn [mbind option_bind RingSystem.exec RingSystem.busy System.exec]. simpl. by rewrite Hrec.
    + destruct (poll_enabled _ Hh Er) as (h' & Hp).
      eexists RecvPoll, _. split_and!; [done..|]. unfold exec. cbn [control inner]. unfold recv_does.
      rewrite E, run_one. cbn [mbind option_bind RingSystem.exec RingSystem.busy System.exec]. simpl. by rewrite Hp.
Qed.

Lemma poll_nears s s' : good s -> exec RecvPoll s = Some s' ->
  recv_at s = RBody /\ recv_at s' = RBody /\
  (waiting (RingSystem.subscriber (core s')) < waiting (RingSystem.subscriber (core s)))%nat.
Proof using All.
  intros Hg (t & Hc & Hr & Hs')%exec_core. cbn [control inner] in Hc, Hr. unfold recv_does in Hc.
  destruct (recv_at s) eqn:E; try done. injection Hc as <-. split_and!; [done|by rewrite Hs'|].
  rewrite run_one in Hr. cbn [RingSystem.exec RingSystem.busy System.exec] in Hr.
  apply bind_Some in Hr as (u & Hu & Hr). apply bind_Some in Hu as (h' & Hp & [= <-]). injection Hr as Hr.
  rewrite <- Hr. exact (poll_less _ _ (receiver_subscriber Capacity config symbols s Hg) Hp).
Qed.

Lemma receiver_nears l s s' : good s -> receiver_awaited s -> exec l s = Some s' -> thread_of l <> Some Main ->
  main_ready s' \/ receiver_awaited s' /\ (receiver_rank s' <= receiver_rank s)%nat /\
    (thread_of l = Some Receiver -> (receiver_rank s' < receiver_rank s)%nat).
Proof using All.
  intros Hg ([rest Ht] & Hs & Ha) He Hl. destruct (others_keep l s s' He Hl) as (Ht' & _ & Hs' & _).
  destruct (decide (recv_at s' = RExited)) as [E|E]; [left; unfold main_ready; by rewrite Ht', Ht|right].
  split; [split_and!; [exists rest; congruence|congruence|done]|]. unfold receiver_rank.
  destruct (decide (thread_of l = Some Receiver)) as [Er|Er].
  2: { destruct (receiver_untouched l s s' He) as (-> & _ & -> & _); [intros ->; by apply Hl|by destruct l|done]. }
  destruct l as [| | | | | | |k| | | | | |]; try done; [by simpl in Er; destruct (rm_side k)|..].
  2: { destruct (poll_nears s s' Hg He) as (-> & -> & Hlt). lia. }
  all: apply exec_core in He as (t & Hc & _ & ->); cbn [control] in Hc; unfold recv_does in Hc; simpl in *;
    rewrite ?Hs in Hc; by step_cases; simpl in *; (done || lia).
Qed.

(** ** The end *)

Lemma where_main s : todo s = [] \/ main_ready s \/ generator_awaited s \/ worker_awaited s \/ receiver_awaited s.
Proof using Type.
  unfold main_ready, generator_awaited, worker_awaited, receiver_awaited. destruct (todo s) as [|a rest]; [by left|right].
  destruct a; try (by left).
  - destruct (gen_stop s); [|by left]. destruct (decide (gen_at s = GExited)); [by left|right; left]. by eauto.
  - destruct (rm_stopped M (the_queue s)); [|by left]. destruct (RingSystem.exited (core s)); [by left|]. by eauto 10.
  - destruct (receiver_stop s); [|by left]. destruct (decide (recv_at s = RExited)); [by left|]. by eauto 10.
Qed.

Lemma main_comes_to_its_end n : leads_to (fun s => good s /\ work s = n) (fun s => good s /\ todo s = []).
Proof using All.
  induction n as [n IH] using lt_wf_ind.
  assert (Hless : leads_to (fun s => good s /\ (work s < n)%nat) (fun s => good s /\ todo s = [])).
  { intros states labels i Hf [Hg Hw]. by apply (IH _ Hw states labels i Hf). }
  assert (Hready : leads_to (fun s => good s /\ main_ready s /\ work s = n) (fun s => good s /\ todo s = []))
    by (eapply leads_to_trans; [apply main_gets_on|done]).
  assert (Hjoin : forall t r B, t <> Main -> (forall s, good s -> B s -> enabled t s) ->
    (forall l s s', good s -> B s -> exec l s = Some s' -> thread_of l <> Some Main ->
      main_ready s' \/ B s' /\ (r s' <= r s)%nat /\ (thread_of l = Some t -> (r s' < r s)%nat)) ->
    leads_to (fun s => good s /\ B s /\ work s = n) (fun s => good s /\ todo s = [])).
  { intros t r B Hm Hen Hst. eapply leads_to_trans; [by apply (joins t r B n)|].
    eapply leads_to_cases; [|exact Hless|exact Hready]. intros s (Hg & [Hw|[Hr Hw]]); auto. }
  intros states labels i Hf [Hg Hw]. destruct (where_main (states i)) as [Ht|[Hr|[Hb|[Hb|Hb]]]].
  - exists i. split_and!; [lia|done..].
  - by apply (Hready states labels i Hf).
  - apply (Hjoin Generator generator_rank generator_awaited) with (labels:=labels); try done;
      [exact generator_enabled|intros; by eapply generator_nears].
  - apply (Hjoin Disseminator worker_rank worker_awaited) with (labels:=labels); try done;
      [exact worker_enabled|intros; by eapply worker_nears].
  - apply (Hjoin Receiver receiver_rank receiver_awaited) with (labels:=labels); try done;
      [exact receiver_enabled|intros; by eapply receiver_nears].
Qed.
(** Nothing is left to do, and what is written stays. *)
Lemma ended_stays l s s' : exec l s = Some s' -> todo s = [] -> todo s' = [].
Proof using Hlaws Hends.
  intros He Ht. destruct (decide (thread_of l = Some Main)) as [E|E]; [|by destruct (others_keep l s s' He E) as [-> _]].
  exfalso. apply exec_core in He as (t & Hc & _). destruct l as [|k| | | | | |k| | | | | |]; try done; cbn [control] in Hc;
    [unfold main_does in Hc|..|by simpl in E; destruct (rm_side k)]; by rewrite Ht in Hc.
Qed.

Lemma fair_good states labels n : fair_run exec memory_ok thread_of states labels -> good (states 0%nat) -> good (states n).
Proof using All.
  intros Hf Hg. induction n as [|n IH]; [done|]. pose proof (fr_step _ _ _ _ _ Hf n) as Hs.
  destruct (labels n) as [l|]; [|by rewrite Hs]. destruct Hs. by eapply (good_step Capacity).
Qed.

Lemma fair_ended_stays (states : nat -> Benchmark.state L M G) labels n m :
  fair_run exec memory_ok thread_of states labels -> (n <= m)%nat -> todo (states n) = [] -> todo (states m) = [].
Proof using Hlaws Hends.
  intros Hf Hm Ht. induction Hm as [|m _ IH]; [done|]. pose proof (fr_step _ _ _ _ _ Hf m) as Hs.
  destruct (labels m) as [l|]; [|by rewrite Hs]. destruct Hs. by eapply ended_stays.
Qed.
End Fair.

(** * Demonstration: the run of [BenchmarkReport.v], in which every thread ends *)

Section Demo.
Local Abbreviation Spinning := (SpinRing.machine MarketDataMsg 2).

(** The loops have ended, and no call of [push] or [pop] is under way. *)
Record over (s : Benchmark.state Udp Spinning Tape) : Prop := {
  ov_todo : todo s = [];
  ov_generator : gen_at s = GExited;
  ov_receiver : recv_at s = RExited;
  ov_worker : RingSystem.exited (core s) = true;
  ov_sent : RingSystem.popped (core s) = false;
  ov_pop : SpinRing.popping (RingSystem.queue (core s)) = SpinRing.SIdle;
  ov_push : prod (SpinRing.ring (RingSystem.queue (core s))) = PIdle;
}.

Lemma over_rests (s : Benchmark.state Udp Spinning Tape) : over s ->
  forall t, ~ enabled exec (memory_ok (L:=Udp)) thread_of t s.
Proof.
  intros [Ht Hg Hr Hx Hp Hpop Hprod] t (l & s' & _ & Hl & He). apply exec_core in He as (u & Hc & Hi & _).
  destruct l as [|k| | | | | |k| | | | | |]; cbn [control] in Hc; unfold main_does, gen_does, recv_does in Hc;
    rewrite ?Ht, ?Hg, ?Hr in Hc; try done; cbn [inner] in Hi; rewrite run_one in Hi;
    cbn [RingSystem.exec RingSystem.busy System.exec] in Hi; apply bind_Some in Hi as (q & Hq & Hi).
  - destruct k as [a| | |a| |]; try done; cbn [rm_exec SpinRing.machine SpinRing.exec] in Hq; unfold SpinRing.pop_step in Hq;
      rewrite ?Hpop in Hq; try done;
      [|by unfold RingSystem.queue_step in Hi; simpl in Hi; rewrite Hx, orb_true_r in Hi|by destruct a].
    destruct a; try done; apply bind_Some in Hq as (r & Hq & _); unfold SpscConcurrency.exec, SpscConcurrency.push_step in Hq;
      by rewrite Hprod in Hq.
  - simpl in Hq. by rewrite Hp in Hq.
Qed.

Definition demo_whole : list (Benchmark.label Spinning) := demo_preparing ++ demo_benchmark.
Definition demo_moment (n : nat) : Benchmark.state Udp Spinning Tape :=
  default demo_benchmark_end (run exec (take n demo_whole) demo_benchmark_start).
Definition demo_step (n : nat) : option (Benchmark.label Spinning) := demo_whole !! n.
End Demo.

Lemma demo_whole_run : run exec demo_whole demo_benchmark_start = Some demo_benchmark_end.
Proof. unfold demo_whole. rewrite run_app, demo_preparing_run. exact demo_benchmark_run. Qed.

Lemma demo_over : over demo_benchmark_end.
Proof. split; vm_compute; reflexivity. Qed.

Lemma demo_whole_ok : Forall (memory_ok (L:=Udp)) demo_whole.
Proof. repeat (apply Forall_cons; split; [exact I || (split; reflexivity)|]). by apply Forall_nil. Qed.

Lemma demo_fair : fair_run exec (memory_ok (L:=Udp)) thread_of demo_moment demo_step.
Proof. exact (fair_ended _ _ _ _ _ _ demo_whole_ok demo_whole_run (over_rests _ demo_over)). Qed.

(** * Properties *)

(** C14: the program does end, with the spinning queue. On every run of
    [run_benchmark_pipeline] whose scheduler passes no thread over for ever, whatever
    the order of the accesses of the ring, the network and the clocks, the main
    thread comes to its end: each loop tests its token again, a call of [push] or
    [pop] under way takes few more steps, and the receiver drains the requests it
    finds; [join] then returns, and from some moment on the files are written. Every
    queue whose calls are short in this sense has this, and the spinning one does. *)
Theorem benchmark_terminates {L : Link} `{LinkLaws L} {G : Type} `{RandomSourceLaws G} (Capacity : Z)
    (M : RingMachine MarketDataMsg) `{!RingMachineLaws Capacity M} `{!RingMachineLive M} `{!RingMachineEnds M}
    `{Hring : !CustomSpscQueue.RingCapacity Capacity} (config : BenchmarkConfig) (file : option (list byte))
    (rng : G) (m0 : MarketDataMsg) (stack : list byte) (d : disseminator L) (h : handler L)
    (states : nat -> Benchmark.state L M G) (labels : nat -> option (Benchmark.label M)) :
  launchable config file stack d h -> launch config file rng m0 stack d h = inr (states 0%nat) ->
  fair_run exec memory_ok thread_of states labels ->
  exists n, forall m, (n <= m)%nat -> todo (states m) = [] /\
    files (states m) = Some (LatencyMonitor.destroy (RingSystem.client (core (states m)))).
Proof.
  intros Hla Hl Hf. destruct (launch_ready _ _ _ _ _ _ _ _ Hla Hl) as (g & Hok & Hs0).
  set (symbols := SymbolsFile.read_symbols_file file) in *.
  assert (Hg0 : good Capacity config symbols (states 0%nat)) by (rewrite Hs0; by apply good_start).
  destruct (main_comes_to_its_end Capacity config symbols _ states labels 0%nat Hf (conj Hg0 eq_refl)) as (n & _ & _ & Ht).
  exists n. intros m Hm. pose proof (fair_ended_stays Capacity states labels n m Hf Hm Ht) as Htm.
  split; [done|]. pose proof (fair_good Capacity config symbols states labels m Hf Hg0) as Hg.
  apply (so_files _ _ _ (gd_sound _ _ _ _ Hg)). rewrite Htm. simpl. lia.
Qed.

Lemma benchmark_terminates_witness :
  exists n, forall m, (n <= m)%nat -> todo (demo_moment m) = [] /\
    files (demo_moment m) = Some (LatencyMonitor.destroy (RingSystem.client (core (demo_moment m)))).
Proof.
  apply (benchmark_terminates (L:=Udp) 2 (SpinRing.machine MarketDataMsg 2) demo_config (Some demo_tickers)
           (RandomWalkGenerator.rng_ demo_generator) (QuoteMsg Quote.zero) demo_topic_stack demo_udp
           (udp_fresh (replicate 1024 xcc) (Cmd true 0)) demo_moment demo_step).
  - exact demo_launchable.
  - exact (demo_launch _).
  - exact demo_fair.
Defined.
